(* ===== verification/_CoqProject ===== *)
-Q . S2P
Prelude.v
Keccak.v
Common.v
Rlp.v
Types.v
Fees.v
Lru.v
Seal.v
Snapshot.v
Turns.v
Clique.v
CliqueFacts.v
Precompiles.v
Groth16.v
Transactions.v
Stream.v
StreamFacts.v
Codec.v
CodecFacts.v
CodecTypes.v
WriterFacts.v
TxCodec.v
TxCodecFacts.v
TxWire.v
HexKeys.v
RadixTree.v
Trie.v
TrieFacts.v
TrieMap.v
TrieStore.v
TrieSpec.v
TrieCommit.v
CommitFacts.v
CommitSpec.v
StackTrie.v
StackFacts.v
StackSpec.v
TxRoot.v
Merkle.v
Committer.v
CommitterFacts.v
Evm.v
EvmGas.v
EvmTable.v
EvmOps.v
EvmRun.v
EvmLogic.v
EvmAnalysis.v
EvmMemory.v
EvmGasFacts.v
EvmOpsFacts.v
EvmRunFacts.v
EvmViews.v
EvmState.v
EvmSpec.v
