(* ===== verification/Prelude.v ===== *)
(** * H-ZKA: a verification library for the Go code of the repository

    ** The program

    H-ZKA audits a set of ordinary chains from one audit chain. Its Go code is the relay
    ([HZKA/relay/committer.go]), which polls the ordinary chains, builds a commit per block
    and submits it to the audit contract, and a patch of go-ethereum
    ([core/vm/groth16_verify.go], registered in [core/vm/contracts.go] and priced in
    [params/protocol_params.go]; [HZKA/geth-patch] holds the patch as shipped), which adds
    a Groth16 verifier as a precompiled contract. The chains run Clique proof of authority
    ([consensus/clique]). The library models these parts and what they stand on: headers,
    transactions and their signatures, RLP, Keccak-256, tries, fees, caches, and the EVM
    ([core/vm]) that runs the audit contract and calls the precompile.

    How the parts meet: the relay asks chains for blocks, recovers the senders of their
    transactions ([Transactions]), aggregates state roots in a Merkle tree ([Merkle]) and
    signs commits; the audit contract calls the precompile ([Precompiles], [Groth16]);
    every chain accepts a block when Clique accepts its header ([Clique]), which needs the
    snapshot of signers ([Snapshot]), a seal over the RLP of the header ([Seal], [Types],
    [Rlp], [Keccak]) and the gas rules ([Fees]).

    ** Files

    - [Prelude]: outcomes of Go calls ([res]: value, error, panic), 64-bit integers as [Z]
      with their wrap-around ([u64], [i64]), bytes and big-endian integers.
    - [Keccak]: [crypto/keccak] and [crypto.Keccak256]. The unrolled permutation against
      the five steps of the standard; the sponge.
    - [Common]: [common/types.go], [common/bytes.go], [common/math/integer.go].
    - [Rlp]: [rlp/encode.go], [encbuffer.go], [raw.go], [iterator.go]. The two-buffer
      encoder against the recursive encoding; what the splitter accepts.
    - [Types]: [core/types/block.go] and the generated header encoder; fork predicates.
    - [Fees]: gas limit, EIP-1559 base fee, [core/gaspool.go].
    - [Lru]: [common/lru/basiclru.go], module [LRU]. The linked list is a store of cells
      with [next] and [prev] pointers; it refines a list of bounded length.
    - [Seal], [Snapshot], [Turns], [Clique], [CliqueFacts]: [consensus/clique]. State is the
      record [Clique] (configuration, database, snapshot cache, signature cache, proposals)
      and the record [Snapshot] (signers, recent signers, votes, tally); methods are
      functions in a state and error monad. [Turns] and [CliqueFacts] hold theorems.
    - [Precompiles]: the contract tables of every fork, dispatch with gas, prices.
    - [Groth16]: the verifier in both versions and the bn256 contracts.
    - [Transactions]: the five transaction types, signers, [SignTx], [Sender], keys.
    - [Stream], [StreamFacts]: the [Stream] of [rlp/decode.go]: the reader, its input limit
      and its stack of list limits in a state and error monad; what each method consumes.
    - [Codec], [CodecFacts], [WriterFacts]: the type-driven part of [rlp/encode.go] and
      [decode.go] with [typecache.go] and [rlpstruct]: Go types are [Typ], [makeDecoder]
      and [makeWriter] interpret them; the relation [repr] between values and bytes is
      their specification. [CodecTypes]: decoded values have their type.
    - [TxCodec], [TxCodecFacts], [TxWire]: the binary encoding of transactions, blob
      sidecars included, [Hash] and [Size]; the bytes ([tx_bytes]); their properties.
    - [HexKeys]: [trie/encoding.go], the key encodings of the trie.
    - [RadixTree]: the specification of the trie: radix trees with lookup, insertion and
      removal; every finite map has one tree in canonical form.
    - [Trie]: [trie/trie.go], [node.go], [node_enc.go], [hasher.go], [tracer.go] and
      [trie_reader.go]: nodes with cached hashes and dirty flags, the node decoder, the
      hasher, [Get], [Update], [Delete], [Hash] and [New] over a node database.
    - [TrieFacts], [TrieMap], [TrieStore], [TrieSpec]: the relation [rep] between loaded or
      unloaded nodes and trees, with what cached hashes must be; the trie as a map; tries in
      a database; a client language and the properties.
    - [TrieCommit], [CommitFacts], [CommitSpec]: [trie/committer.go] and
      [trie/trienode/node.go]: node sets, the committer with and without goroutines,
      [Trie.Commit]; the algebra of node sets, up to the order of leaves; chains of commits
      over the class [NodeStore] of stores that keep what they are given.
    - [StackTrie], [StackFacts], [StackSpec]: [trie/stacktrie.go] and [DeriveSha] of
      [core/types/hashing.go]; the relation [strep] of a partly hashed stack trie; properties.
    - [TxRoot]: the transactions root of a block ([Transactions.EncodeIndex]).
    - [Merkle]: [computeRootHash] and [VerifySPV].
    - [Committer], [CommitterFacts]: the relay service: state is the record [Committer]
      (configuration, key, clients, data sources, last processed blocks) with the state of
      the outside world and a trace of effects; then its theorems.
    - The EVM, [core/vm]. [Evm]: words, memory, stack, jump analysis, contracts, the
      interface of the state database, the state of the EVM ([EVM]) and of a frame
      ([Frame]). [EvmGas]: every gas function. [EvmTable]: opcodes, operations, the tables
      of the forks. [EvmOps]: every instruction, over the calls as an argument. [EvmRun]:
      a turn of the loop, [Run], calls, creations, and the loop that ties them. A
      computation is a function of state and outcome ([ST], [out]).
    - Its theorems: [EvmLogic] (weakest preconditions, the laws of the state database and
      the interface [EvmRel] of relations between states), [EvmAnalysis] (jump
      destinations), [EvmMemory], [EvmGasFacts], [EvmOpsFacts] (each gas function, each
      instruction), [EvmRunFacts] (turns, the loop, calls), [EvmViews] (histories, views,
      supply), [EvmState] (an instance of the laws), [EvmSpec] (the properties).

    ** Interfaces to code outside the repository's Go sources

    Each is a class whose operations are arguments of the model and, where theorems need
    them, a class of laws with an instance: [Bn254] and [Bn254Laws] (gnark-crypto; instance
    [Groth16.Demo]), [Secp256k1] and [Secp256k1Laws] (libsecp256k1; instance
    [Transactions.ToySecp]), [SnapshotDB] and [SnapshotDBLaws] (the key-value store; an
    in-memory instance in [Clique]), [EthClient] (RPC endpoints, without laws; instance
    [CommitterFacts.RelayDemo]), [NodeDatabase] (the database of trie nodes; the instances
    of [TrieSpec] hold the nodes of a small trie), [NodeStore] (a store of such nodes that is
    written to; instance [CommitSpec.path_store]), [StateDB] with [StateDBLaws],
    [StateHistory] and [SupplyLaws] (the state database of the EVM; instance
    [EvmState.Journal_db]), [Uint256] and [Uint256Laws] (holiman/uint256; instance
    [EvmState.Word_ops]). Reading and unmarshalling the configuration file, the clock
    and the random index of [Prepare] are arguments.

    ** What the theorems show

    - Groth16: the precompile answers "valid" exactly on the documented encodings of true
      statements; the two versions agree; it is registered from Berlin on and costs
      440000 gas on every outcome.
    - Relay: blocks of every chain are processed once, in order, without gaps, for all
      replies and schedules; what a commit and an aggregated commit contain; Merkle roots
      equal a recursive reference, proofs are complete and binding up to an explicit
      Keccak collision; which proofs panic; which chains are never looked at.
    - Transactions: signing and sender recovery round-trip for all types and signers,
      replay protection, transparency of the sender cache; the binary encoding round-trips
      and is the only one that is accepted, the hash commits to the transaction, and a
      received transaction is attributed to its signer.
    - RLP codec: for every type, [DecodeBytes] accepts exactly the canonical
      representations, it always returns, and (for types without optional plain fields)
      re-encoding gives the input back; decoded values are well typed; how the limits of a [Stream] wrap around.
    - Clique: the vote, tally and recent-signer invariant, spacing of signers, liveness,
      uniqueness of turns, compositionality of snapshots, soundness and termination of the
      snapshot search, meaning of header acceptance, agreement of seal checks with
      snapshots, checkpoint round trip; and two defects (an unsigned subtraction that
      wraps near genesis, an empty signer set).
    - Trie: any interleaving of reads, writes, deletions and hashing on a trie, loaded or
      not, gives the answers of a finite map, and the hash is a function of that map; the
      hash commits to the map, a stored trie opens to it, and a deletion that fails has
      removed its key. Commits join tries: a chain of opened, changed, committed and stored
      tries answers like one map; a commit with goroutines is the sequential one. The stack trie has the same hash; [DeriveSha] commits to the list and
      the transactions root to the transactions. Commitment is stated for tries whose hashed
      nodes do not collide.
    - EVM: in the tables of every fork execution ends within as many turns as there is
      gas, without panics of the interpreter, with the gas accounted for; stack, memory and
      gas of a frame stay within bounds; jumps land on instructions; failed calls and static calls leave no trace in
      balances, nonces, codes and storage; the supply never grows; and a defect of extra EIPs
      on old tables.
    - Encodings and data structures: Keccak-f, RLP, header encoding, LRU cache, gas pool
      and base fee.

    ** Fuel

    Loops without a structural measure take fuel, and a theorem shows that it suffices:
    [Write] and [Read] of the sponge (one unit per chunk), the splitting loops (the length
    of the input), the elements of a slice and [readFull] (the length of the unread input
    plus one), [snapshot] (the block number plus one), the padding and level loops of
    [computeRootHash] (the number of hashes), the block loop of the relay (the number of new
    blocks; after a block numbered 2^64-1 the Go counter wraps around to 0 and the loop goes
    on, and only there the model stops with [ErrLoopFuel]), the trie
    operations (twice the length of the key plus two, as every other step consumes a part of
    the key and the others load a node), the node decoder (the length of the blob plus one,
    as embedded nodes are shorter), insertion into a stack trie (the length of the key plus
    one), the loop of the EVM (more than the gas of the call, as every turn that goes on
    costs gas and calls take theirs out of the caller's). Keys and values of at most 2^55
    and 2^56 bytes keep sizes within 64 bits.

    ** Not modelled

    The Solidity contracts, circuits and scripts (other languages); the rest of
    go-ethereum, unchanged by the project: state, networking, transaction
    pool, database; of the EVM Verkle trees (EIP-4762), tracing, the pools of stacks and
    memories and the bodies of the other precompiled contracts; of the trie iterators, proofs, prefetching and sync; log output; the mutex wrappers of caches; in the RLP codec
    interface values, recursive types, the type cache and types with their own [EncodeRLP]
    or [DecodeRLP]; JSON.

    ** Plan

    What could follow: the journal of the state database ([core/state]) as an instance of
    the laws of the EVM; the state transition around the gas pool; that the deletions of a
    commit leave no stale node in a store by path; receipts and blocks with their own
    [DecodeRLP]. *)
From Stdlib Require Import ZArith Lia.
From Stdlib Require Strings.Byte.
From stdpp Require Import base tactics decidable countable list numbers gmap.

#[global] Open Scope Z_scope.

Abbreviation byte := Byte.byte.
Abbreviation bytes := (list Byte.byte).

(** ** Outcomes of Go calls

    A Go function that can fail returns a value or an error; a run-time panic
    (an index out of range, a division by zero, an explicit [panic]) is a third
    outcome. [E] is the type of the errors of the component. *)
Inductive res (E A : Type) : Type :=
| Ok (a : A)
| Err (e : E)
| Panic.
Arguments Ok {E A} a.
Arguments Err {E A} e.
Arguments Panic {E A}.

#[export] Instance res_ret {E} : MRet (res E) := λ A a, Ok a.

#[export] Instance res_bind {E} : MBind (res E) := λ A B f m,
  match m with Ok a => f a | Err e => Err e | Panic => Panic end.

#[export] Instance res_fmap {E} : FMap (res E) := λ A B f m,
  match m with Ok a => Ok (f a) | Err e => Err e | Panic => Panic end.

(** [ensure b e] is the Go idiom [if !b { return e }]. *)
Definition ensure {E} (b : bool) (e : E) : res E () :=
  if b then Ok () else Err e.

Definition is_ok {E A} (m : res E A) : bool :=
  match m with Ok _ => true | _ => false end.

Lemma Ok_inj {E A} (a b : A) : Ok (E := E) a = Ok b → a = b.
Proof. congruence. Qed.

(** A call that returns: its continuation ran on its result. *)
Lemma bind_Ok {E A B} (m : res E A) (f : A → res E B) b :
  (m ≫= f) = Ok b → ∃ a, m = Ok a ∧ f a = Ok b.
Proof. destruct m; [by eexists|done..]. Qed.

Lemma bind_no_panic {E A B} (m : res E A) (f : A → res E B) :
  m ≠ Panic → (∀ a, f a ≠ Panic) → m ≫= f ≠ Panic.
Proof. intros Hm Hf. by destruct m; cbn. Qed.

Lemma ensure_Ok {E} (b : bool) (e : E) u : ensure b e = Ok u → b = true.
Proof. by destruct b. Qed.

(** ** Machine integers *)

Definition two64 : Z := 2 ^ 64.
Definition two63 : Z := 2 ^ 63.

(** [uint64] arithmetic wraps modulo 2^64. *)
Definition u64 (z : Z) : Z := z mod two64.

(** [int64] conversion: two's complement reinterpretation. *)
Definition i64 (z : Z) : Z := (z + two63) mod two64 - two63.

Definition is_u64 (z : Z) : Prop := 0 <= z < two64.

#[export] Instance is_u64_dec z : Decision (is_u64 z).
Proof. unfold is_u64. apply _. Defined.

Create HintDb words.

Lemma two64_val : two64 = 18446744073709551616.
Proof. reflexivity. Qed.

Lemma two63_val : two63 = 9223372036854775808.
Proof. reflexivity. Qed.

(** [word_lia]: [lia] after exposing the widths. *)
Ltac word_lia :=
  unfold u64, i64, is_u64 in *; rewrite ?two64_val, ?two63_val in *;
  repeat match goal with H : context [two64] |- _ => rewrite two64_val in H end;
  repeat match goal with H : context [two63] |- _ => rewrite two63_val in H end;
  Z.div_mod_to_equations; lia.

Lemma u64_range z : is_u64 (u64 z).
Proof. word_lia. Qed.

Lemma u64_small z : is_u64 z → u64 z = z.
Proof. intros; word_lia. Qed.

Lemma i64_range z : - two63 <= i64 z < two63.
Proof. word_lia. Qed.

Lemma i64_small z : - two63 <= z < two63 → i64 z = z.
Proof. intros; word_lia. Qed.

#[export] Hint Resolve u64_range : words.
#[export] Hint Rewrite u64_small i64_small using word_lia : words.

(** ** Bytes and big-endian integers *)

Definition b2z (b : byte) : Z := Z.of_N (Byte.to_N b).

(** [byte(x)]: truncation to the low eight bits. *)
Definition z2b (z : Z) : byte :=
  match Byte.of_N (Z.to_N (z mod 256)) with
  | Some b => b
  | None => Byte.x00
  end.

Lemma b2z_range b : 0 <= b2z b < 256.
Proof. unfold b2z. pose proof (Byte.to_N_bounded b). lia. Qed.

Lemma z2b_b2z b : z2b (b2z b) = b.
Proof.
  unfold z2b. rewrite Z.mod_small by apply b2z_range.
  unfold b2z. rewrite N2Z.id, Byte.of_to_N. done.
Qed.

Lemma b2z_z2b z : b2z (z2b z) = z mod 256.
Proof.
  unfold z2b. assert (0 <= z mod 256 < 256) by (apply Z.mod_pos_bound; lia).
  destruct (Byte.of_N _) as [b|] eqn:E.
  - apply Byte.to_of_N in E. unfold b2z. rewrite E. lia.
  - apply Byte.of_N_None_iff in E. lia.
Qed.

Lemma b2z_inj b1 b2 : b2z b1 = b2z b2 → b1 = b2.
Proof. intros H. rewrite <-(z2b_b2z b1), <-(z2b_b2z b2), H. done. Qed.

#[export] Instance byte_eq_dec : EqDecision byte := Byte.byte_eq_dec.

#[export] Instance byte_countable : Countable byte.
Proof.
  apply (inj_countable' b2z z2b). exact z2b_b2z.
Defined.

#[export] Instance byte_inhabited : Inhabited byte := populate Byte.x00.

(** [new(big.Int).SetBytes(bs)]: big-endian value. *)
Definition SetBytes (bs : bytes) : Z :=
  foldl (λ acc b, acc * 256 + b2z b) 0 bs.

(** The [n] low-order bytes of [z], most significant first. *)
Fixpoint be_bytes (n : nat) (z : Z) : bytes :=
  match n with
  | O => []
  | S n => be_bytes n (z / 256) ++ [z2b z]
  end.

(** Number of bytes of the minimal big-endian representation. *)
Definition byte_len (z : Z) : nat :=
  if decide (z <= 0) then 0%nat else Z.to_nat (Z.log2 z / 8 + 1).

(** [z.Bytes()] of a [big.Int]: the absolute value, minimal, big-endian. *)
Definition big_Bytes (z : Z) : bytes := be_bytes (byte_len (Z.abs z)) (Z.abs z).

Lemma foldl_SetBytes acc bs :
  foldl (λ acc b, acc * 256 + b2z b) acc bs = acc * 256 ^ Z.of_nat (length bs) + SetBytes bs.
Proof.
  unfold SetBytes. revert acc. induction bs as [|b bs IH]; intros acc; cbn [foldl length].
  - cbn. lia.
  - rewrite IH, (IH (0 * 256 + b2z b)).
    rewrite Nat2Z.inj_succ, Z.pow_succ_r by lia. lia.
Qed.

Lemma SetBytes_app bs1 bs2 :
  SetBytes (bs1 ++ bs2) = SetBytes bs1 * 256 ^ Z.of_nat (length bs2) + SetBytes bs2.
Proof. unfold SetBytes at 1. rewrite foldl_app. apply foldl_SetBytes. Qed.

Lemma SetBytes_cons b bs :
  SetBytes (b :: bs) = b2z b * 256 ^ Z.of_nat (length bs) + SetBytes bs.
Proof.
  change (b :: bs) with ([b] ++ bs). rewrite SetBytes_app. unfold SetBytes at 1. cbn [foldl]. lia.
Qed.

Lemma SetBytes_snoc bs b : SetBytes (bs ++ [b]) = SetBytes bs * 256 + b2z b.
Proof. unfold SetBytes. rewrite foldl_app. done. Qed.

Lemma pow256_pos n : 0 <= n → 0 < 256 ^ n.
Proof. intros; apply Z.pow_pos_nonneg; lia. Qed.

Lemma SetBytes_range bs : 0 <= SetBytes bs < 256 ^ Z.of_nat (length bs).
Proof.
  induction bs as [|b bs IH] using rev_ind; [cbn; lia|].
  rewrite SetBytes_snoc, length_app. cbn [length].
  rewrite Nat2Z.inj_add. change (Z.of_nat 1) with 1.
  rewrite Z.pow_add_r, Z.pow_1_r by lia. pose proof (b2z_range b). nia.
Qed.

Lemma length_be_bytes n z : length (be_bytes n z) = n.
Proof.
  revert z; induction n as [|n IH]; intros z; cbn [be_bytes]; [done|].
  rewrite length_app, IH. cbn. lia.
Qed.

Lemma SetBytes_be_bytes n z : SetBytes (be_bytes n z) = z mod 256 ^ Z.of_nat n.
Proof.
  revert z; induction n as [|n IH]; intros z; cbn [be_bytes].
  - rewrite Z.mod_1_r. done.
  - rewrite SetBytes_snoc, IH, b2z_z2b, Nat2Z.inj_succ, Z.pow_succ_r by lia.
    rewrite (Z.rem_mul_r z 256) by (pose proof (pow256_pos (Z.of_nat n)); lia). lia.
Qed.

Lemma be_bytes_SetBytes bs : be_bytes (length bs) (SetBytes bs) = bs.
Proof.
  induction bs as [|b bs IH] using rev_ind; [done|].
  rewrite length_app, Nat.add_comm. cbn [length Nat.add be_bytes].
  rewrite SetBytes_snoc. pose proof (b2z_range b).
  rewrite Z.div_add_l, Z.div_small, Z.add_0_r, IH by lia. f_equal. f_equal.
  apply b2z_inj. rewrite b2z_z2b. rewrite Z.add_comm, Z.mod_add by lia.
  apply Z.mod_small. lia.
Qed.

Lemma SetBytes_inj bs1 bs2 :
  length bs1 = length bs2 → SetBytes bs1 = SetBytes bs2 → bs1 = bs2.
Proof.
  intros Hl Hv. rewrite <-(be_bytes_SetBytes bs1), <-(be_bytes_SetBytes bs2). congruence.
Qed.

Lemma SetBytes_replicate_0 n : SetBytes (replicate n Byte.x00) = 0.
Proof.
  induction n as [|n IH]; [done|]. cbn [replicate]. rewrite SetBytes_cons, IH.
  change (b2z Byte.x00) with 0. lia.
Qed.

Lemma byte_len_spec z : 0 <= z → z < 256 ^ Z.of_nat (byte_len z).
Proof.
  intros Hz. unfold byte_len. destruct (decide (z <= 0)) as [H|H].
  - cbn. lia.
  - pose proof (Z.log2_spec z ltac:(lia)) as [_ Hlt].
    pose proof (Z.log2_nonneg z).
    rewrite Z2Nat.id by (pose proof (Z.div_pos (Z.log2 z) 8); lia).
    change 256 with (2 ^ 8). rewrite <-Z.pow_mul_r by (pose proof (Z.div_pos (Z.log2 z) 8); lia).
    eapply Z.lt_le_trans; [exact Hlt|]. apply Z.pow_le_mono_r; [lia|].
    pose proof (Z.mod_pos_bound (Z.log2 z) 8 ltac:(lia)).
    pose proof (Z.div_mod (Z.log2 z) 8 ltac:(lia)). lia.
Qed.

Lemma byte_len_least z n : 0 <= z < 256 ^ Z.of_nat n → (byte_len z <= n)%nat.
Proof.
  intros [Hz Hlt]. unfold byte_len. destruct (decide (z <= 0)) as [H|H]; [lia|].
  change 256 with (2 ^ 8) in Hlt. rewrite <-Z.pow_mul_r in Hlt by lia.
  apply Z.log2_lt_pow2 in Hlt; [|lia].
  assert (Z.log2 z / 8 < Z.of_nat n) by (apply Z.div_lt_upper_bound; lia). lia.
Qed.

Lemma length_big_Bytes z : length (big_Bytes z) = byte_len (Z.abs z).
Proof. apply length_be_bytes. Qed.

(** [SetBytes] is a left inverse of [Bytes] on non-negative integers. *)
Lemma SetBytes_big_Bytes z : 0 <= z → SetBytes (big_Bytes z) = z.
Proof.
  intros Hz. unfold big_Bytes. rewrite Z.abs_eq by done.
  rewrite SetBytes_be_bytes. apply Z.mod_small. split; [done|].
  by apply byte_len_spec.
Qed.
