(* ===== verification/Keccak.v ===== *)
(** * Keccak-256

    The pure-Go Keccak of [crypto/keccak] ([keccakf.go], [sha3.go], [hashes.go])
    and the entry points of [crypto/keccak.go].

    - [lanes], [round1] .. [round4] and [keccakF1600] are the in-place
      permutation, four rounds unrolled per iteration of the loop, statement by
      statement.
    - [Spec] is the permutation as the standard states it (theta, rho, pi, chi
      and iota on a 5 by 5 array of lanes); [keccakF1600_spec] shows that the
      unrolled code, whose rounds leave the lanes in four different layouts,
      computes it.
    - [state] is the sponge with its operations; [absorb1] is the byte-at-a-time
      reference that [Write], which works in chunks, implements. *)
From Stdlib Require Import ZArith Lia Bool.
From Stdlib Require Strings.Byte.
From stdpp Require Import base tactics decidable list numbers.
From S2P Require Import Prelude.

(** ** The permutation *)

(** [x << k] on [uint64]. *)
Definition shl64 (x k : Z) : Z := u64 (Z.shiftl x k).

(** [bits.RotateLeft64]. *)
Definition RotateLeft64 (x k : Z) : Z := Z.lor (shl64 x k) (Z.shiftr x (64 - k)).

#[local] Notation "x ⊕ y" := (Z.lxor x y) (at level 50, left associativity).
#[local] Notation "x &^ y" := (Z.ldiff x y) (at level 40, left associativity).

(** The 25 lanes [a[0] .. a[24]]. *)
Inductive lanes : Type :=
| L (a0 a1 a2 a3 a4 a5 a6 a7 a8 a9 a10 a11 a12 a13 a14 a15 a16 a17 a18 a19 a20 a21 a22 a23 a24 : Z).

(** Round constants of the iota step. *)
Definition rc : list Z :=
  [0x0000000000000001; 0x0000000000008082; 0x800000000000808A; 0x8000000080008000;
   0x000000000000808B; 0x0000000080000001; 0x8000000080008081; 0x8000000000008009;
   0x000000000000008A; 0x0000000000000088; 0x0000000080008009; 0x000000008000000A;
   0x000000008000808B; 0x800000000000008B; 0x8000000000008089; 0x8000000000008003;
   0x8000000000008002; 0x8000000000000080; 0x000000000000800A; 0x800000008000000A;
   0x8000000080008081; 0x8000000000008080; 0x0000000080000001; 0x8000000080008008].

(** Round 1 of the four unrolled rounds. *)
Definition round1 (rci : Z) (s : lanes) : lanes :=
  let '(L a0 a1 a2 a3 a4 a5 a6 a7 a8 a9 a10 a11 a12 a13 a14 a15 a16 a17 a18 a19 a20 a21 a22 a23 a24) := s in
  let bc0 := a0 ⊕ a5 ⊕ a10 ⊕ a15 ⊕ a20 in
  let bc1 := a1 ⊕ a6 ⊕ a11 ⊕ a16 ⊕ a21 in
  let bc2 := a2 ⊕ a7 ⊕ a12 ⊕ a17 ⊕ a22 in
  let bc3 := a3 ⊕ a8 ⊕ a13 ⊕ a18 ⊕ a23 in
  let bc4 := a4 ⊕ a9 ⊕ a14 ⊕ a19 ⊕ a24 in
  let d0 := bc4 ⊕ (Z.lor (shl64 bc1 1) (Z.shiftr bc1 63)) in
  let d1 := bc0 ⊕ (Z.lor (shl64 bc2 1) (Z.shiftr bc2 63)) in
  let d2 := bc1 ⊕ (Z.lor (shl64 bc3 1) (Z.shiftr bc3 63)) in
  let d3 := bc2 ⊕ (Z.lor (shl64 bc4 1) (Z.shiftr bc4 63)) in
  let d4 := bc3 ⊕ (Z.lor (shl64 bc0 1) (Z.shiftr bc0 63)) in
  let bc0 := a0 ⊕ d0 in
  let t := a6 ⊕ d1 in
  let bc1 := RotateLeft64 t 44 in
  let t := a12 ⊕ d2 in
  let bc2 := RotateLeft64 t 43 in
  let t := a18 ⊕ d3 in
  let bc3 := RotateLeft64 t 21 in
  let t := a24 ⊕ d4 in
  let bc4 := RotateLeft64 t 14 in
  let a0 := bc0 ⊕ (bc2 &^ bc1) ⊕ rci in
  let a6 := bc1 ⊕ (bc3 &^ bc2) in
  let a12 := bc2 ⊕ (bc4 &^ bc3) in
  let a18 := bc3 ⊕ (bc0 &^ bc4) in
  let a24 := bc4 ⊕ (bc1 &^ bc0) in
  let t := a10 ⊕ d0 in
  let bc2 := RotateLeft64 t 3 in
  let t := a16 ⊕ d1 in
  let bc3 := RotateLeft64 t 45 in
  let t := a22 ⊕ d2 in
  let bc4 := RotateLeft64 t 61 in
  let t := a3 ⊕ d3 in
  let bc0 := RotateLeft64 t 28 in
  let t := a9 ⊕ d4 in
  let bc1 := RotateLeft64 t 20 in
  let a10 := bc0 ⊕ (bc2 &^ bc1) in
  let a16 := bc1 ⊕ (bc3 &^ bc2) in
  let a22 := bc2 ⊕ (bc4 &^ bc3) in
  let a3 := bc3 ⊕ (bc0 &^ bc4) in
  let a9 := bc4 ⊕ (bc1 &^ bc0) in
  let t := a20 ⊕ d0 in
  let bc4 := RotateLeft64 t 18 in
  let t := a1 ⊕ d1 in
  let bc0 := RotateLeft64 t 1 in
  let t := a7 ⊕ d2 in
  let bc1 := RotateLeft64 t 6 in
  let t := a13 ⊕ d3 in
  let bc2 := RotateLeft64 t 25 in
  let t := a19 ⊕ d4 in
  let bc3 := RotateLeft64 t 8 in
  let a20 := bc0 ⊕ (bc2 &^ bc1) in
  let a1 := bc1 ⊕ (bc3 &^ bc2) in
  let a7 := bc2 ⊕ (bc4 &^ bc3) in
  let a13 := bc3 ⊕ (bc0 &^ bc4) in
  let a19 := bc4 ⊕ (bc1 &^ bc0) in
  let t := a5 ⊕ d0 in
  let bc1 := RotateLeft64 t 36 in
  let t := a11 ⊕ d1 in
  let bc2 := RotateLeft64 t 10 in
  let t := a17 ⊕ d2 in
  let bc3 := RotateLeft64 t 15 in
  let t := a23 ⊕ d3 in
  let bc4 := RotateLeft64 t 56 in
  let t := a4 ⊕ d4 in
  let bc0 := RotateLeft64 t 27 in
  let a5 := bc0 ⊕ (bc2 &^ bc1) in
  let a11 := bc1 ⊕ (bc3 &^ bc2) in
  let a17 := bc2 ⊕ (bc4 &^ bc3) in
  let a23 := bc3 ⊕ (bc0 &^ bc4) in
  let a4 := bc4 ⊕ (bc1 &^ bc0) in
  let t := a15 ⊕ d0 in
  let bc3 := RotateLeft64 t 41 in
  let t := a21 ⊕ d1 in
  let bc4 := RotateLeft64 t 2 in
  let t := a2 ⊕ d2 in
  let bc0 := RotateLeft64 t 62 in
  let t := a8 ⊕ d3 in
  let bc1 := RotateLeft64 t 55 in
  let t := a14 ⊕ d4 in
  let bc2 := RotateLeft64 t 39 in
  let a15 := bc0 ⊕ (bc2 &^ bc1) in
  let a21 := bc1 ⊕ (bc3 &^ bc2) in
  let a2 := bc2 ⊕ (bc4 &^ bc3) in
  let a8 := bc3 ⊕ (bc0 &^ bc4) in
  let a14 := bc4 ⊕ (bc1 &^ bc0) in
  L a0 a1 a2 a3 a4 a5 a6 a7 a8 a9 a10 a11 a12 a13 a14 a15 a16 a17 a18 a19 a20 a21 a22 a23 a24.

(** Round 2 of the four unrolled rounds. *)
Definition round2 (rci : Z) (s : lanes) : lanes :=
  let '(L a0 a1 a2 a3 a4 a5 a6 a7 a8 a9 a10 a11 a12 a13 a14 a15 a16 a17 a18 a19 a20 a21 a22 a23 a24) := s in
  let bc0 := a0 ⊕ a5 ⊕ a10 ⊕ a15 ⊕ a20 in
  let bc1 := a1 ⊕ a6 ⊕ a11 ⊕ a16 ⊕ a21 in
  let bc2 := a2 ⊕ a7 ⊕ a12 ⊕ a17 ⊕ a22 in
  let bc3 := a3 ⊕ a8 ⊕ a13 ⊕ a18 ⊕ a23 in
  let bc4 := a4 ⊕ a9 ⊕ a14 ⊕ a19 ⊕ a24 in
  let d0 := bc4 ⊕ (Z.lor (shl64 bc1 1) (Z.shiftr bc1 63)) in
  let d1 := bc0 ⊕ (Z.lor (shl64 bc2 1) (Z.shiftr bc2 63)) in
  let d2 := bc1 ⊕ (Z.lor (shl64 bc3 1) (Z.shiftr bc3 63)) in
  let d3 := bc2 ⊕ (Z.lor (shl64 bc4 1) (Z.shiftr bc4 63)) in
  let d4 := bc3 ⊕ (Z.lor (shl64 bc0 1) (Z.shiftr bc0 63)) in
  let bc0 := a0 ⊕ d0 in
  let t := a16 ⊕ d1 in
  let bc1 := RotateLeft64 t 44 in
  let t := a7 ⊕ d2 in
  let bc2 := RotateLeft64 t 43 in
  let t := a23 ⊕ d3 in
  let bc3 := RotateLeft64 t 21 in
  let t := a14 ⊕ d4 in
  let bc4 := RotateLeft64 t 14 in
  let a0 := bc0 ⊕ (bc2 &^ bc1) ⊕ rci in
  let a16 := bc1 ⊕ (bc3 &^ bc2) in
  let a7 := bc2 ⊕ (bc4 &^ bc3) in
  let a23 := bc3 ⊕ (bc0 &^ bc4) in
  let a14 := bc4 ⊕ (bc1 &^ bc0) in
  let t := a20 ⊕ d0 in
  let bc2 := RotateLeft64 t 3 in
  let t := a11 ⊕ d1 in
  let bc3 := RotateLeft64 t 45 in
  let t := a2 ⊕ d2 in
  let bc4 := RotateLeft64 t 61 in
  let t := a18 ⊕ d3 in
  let bc0 := RotateLeft64 t 28 in
  let t := a9 ⊕ d4 in
  let bc1 := RotateLeft64 t 20 in
  let a20 := bc0 ⊕ (bc2 &^ bc1) in
  let a11 := bc1 ⊕ (bc3 &^ bc2) in
  let a2 := bc2 ⊕ (bc4 &^ bc3) in
  let a18 := bc3 ⊕ (bc0 &^ bc4) in
  let a9 := bc4 ⊕ (bc1 &^ bc0) in
  let t := a15 ⊕ d0 in
  let bc4 := RotateLeft64 t 18 in
  let t := a6 ⊕ d1 in
  let bc0 := RotateLeft64 t 1 in
  let t := a22 ⊕ d2 in
  let bc1 := RotateLeft64 t 6 in
  let t := a13 ⊕ d3 in
  let bc2 := RotateLeft64 t 25 in
  let t := a4 ⊕ d4 in
  let bc3 := RotateLeft64 t 8 in
  let a15 := bc0 ⊕ (bc2 &^ bc1) in
  let a6 := bc1 ⊕ (bc3 &^ bc2) in
  let a22 := bc2 ⊕ (bc4 &^ bc3) in
  let a13 := bc3 ⊕ (bc0 &^ bc4) in
  let a4 := bc4 ⊕ (bc1 &^ bc0) in
  let t := a10 ⊕ d0 in
  let bc1 := RotateLeft64 t 36 in
  let t := a1 ⊕ d1 in
  let bc2 := RotateLeft64 t 10 in
  let t := a17 ⊕ d2 in
  let bc3 := RotateLeft64 t 15 in
  let t := a8 ⊕ d3 in
  let bc4 := RotateLeft64 t 56 in
  let t := a24 ⊕ d4 in
  let bc0 := RotateLeft64 t 27 in
  let a10 := bc0 ⊕ (bc2 &^ bc1) in
  let a1 := bc1 ⊕ (bc3 &^ bc2) in
  let a17 := bc2 ⊕ (bc4 &^ bc3) in
  let a8 := bc3 ⊕ (bc0 &^ bc4) in
  let a24 := bc4 ⊕ (bc1 &^ bc0) in
  let t := a5 ⊕ d0 in
  let bc3 := RotateLeft64 t 41 in
  let t := a21 ⊕ d1 in
  let bc4 := RotateLeft64 t 2 in
  let t := a12 ⊕ d2 in
  let bc0 := RotateLeft64 t 62 in
  let t := a3 ⊕ d3 in
  let bc1 := RotateLeft64 t 55 in
  let t := a19 ⊕ d4 in
  let bc2 := RotateLeft64 t 39 in
  let a5 := bc0 ⊕ (bc2 &^ bc1) in
  let a21 := bc1 ⊕ (bc3 &^ bc2) in
  let a12 := bc2 ⊕ (bc4 &^ bc3) in
  let a3 := bc3 ⊕ (bc0 &^ bc4) in
  let a19 := bc4 ⊕ (bc1 &^ bc0) in
  L a0 a1 a2 a3 a4 a5 a6 a7 a8 a9 a10 a11 a12 a13 a14 a15 a16 a17 a18 a19 a20 a21 a22 a23 a24.

(** Round 3 of the four unrolled rounds. *)
Definition round3 (rci : Z) (s : lanes) : lanes :=
  let '(L a0 a1 a2 a3 a4 a5 a6 a7 a8 a9 a10 a11 a12 a13 a14 a15 a16 a17 a18 a19 a20 a21 a22 a23 a24) := s in
  let bc0 := a0 ⊕ a5 ⊕ a10 ⊕ a15 ⊕ a20 in
  let bc1 := a1 ⊕ a6 ⊕ a11 ⊕ a16 ⊕ a21 in
  let bc2 := a2 ⊕ a7 ⊕ a12 ⊕ a17 ⊕ a22 in
  let bc3 := a3 ⊕ a8 ⊕ a13 ⊕ a18 ⊕ a23 in
  let bc4 := a4 ⊕ a9 ⊕ a14 ⊕ a19 ⊕ a24 in
  let d0 := bc4 ⊕ (Z.lor (shl64 bc1 1) (Z.shiftr bc1 63)) in
  let d1 := bc0 ⊕ (Z.lor (shl64 bc2 1) (Z.shiftr bc2 63)) in
  let d2 := bc1 ⊕ (Z.lor (shl64 bc3 1) (Z.shiftr bc3 63)) in
  let d3 := bc2 ⊕ (Z.lor (shl64 bc4 1) (Z.shiftr bc4 63)) in
  let d4 := bc3 ⊕ (Z.lor (shl64 bc0 1) (Z.shiftr bc0 63)) in
  let bc0 := a0 ⊕ d0 in
  let t := a11 ⊕ d1 in
  let bc1 := RotateLeft64 t 44 in
  let t := a22 ⊕ d2 in
  let bc2 := RotateLeft64 t 43 in
  let t := a8 ⊕ d3 in
  let bc3 := RotateLeft64 t 21 in
  let t := a19 ⊕ d4 in
  let bc4 := RotateLeft64 t 14 in
  let a0 := bc0 ⊕ (bc2 &^ bc1) ⊕ rci in
  let a11 := bc1 ⊕ (bc3 &^ bc2) in
  let a22 := bc2 ⊕ (bc4 &^ bc3) in
  let a8 := bc3 ⊕ (bc0 &^ bc4) in
  let a19 := bc4 ⊕ (bc1 &^ bc0) in
  let t := a15 ⊕ d0 in
  let bc2 := RotateLeft64 t 3 in
  let t := a1 ⊕ d1 in
  let bc3 := RotateLeft64 t 45 in
  let t := a12 ⊕ d2 in
  let bc4 := RotateLeft64 t 61 in
  let t := a23 ⊕ d3 in
  let bc0 := RotateLeft64 t 28 in
  let t := a9 ⊕ d4 in
  let bc1 := RotateLeft64 t 20 in
  let a15 := bc0 ⊕ (bc2 &^ bc1) in
  let a1 := bc1 ⊕ (bc3 &^ bc2) in
  let a12 := bc2 ⊕ (bc4 &^ bc3) in
  let a23 := bc3 ⊕ (bc0 &^ bc4) in
  let a9 := bc4 ⊕ (bc1 &^ bc0) in
  let t := a5 ⊕ d0 in
  let bc4 := RotateLeft64 t 18 in
  let t := a16 ⊕ d1 in
  let bc0 := RotateLeft64 t 1 in
  let t := a2 ⊕ d2 in
  let bc1 := RotateLeft64 t 6 in
  let t := a13 ⊕ d3 in
  let bc2 := RotateLeft64 t 25 in
  let t := a24 ⊕ d4 in
  let bc3 := RotateLeft64 t 8 in
  let a5 := bc0 ⊕ (bc2 &^ bc1) in
  let a16 := bc1 ⊕ (bc3 &^ bc2) in
  let a2 := bc2 ⊕ (bc4 &^ bc3) in
  let a13 := bc3 ⊕ (bc0 &^ bc4) in
  let a24 := bc4 ⊕ (bc1 &^ bc0) in
  let t := a20 ⊕ d0 in
  let bc1 := RotateLeft64 t 36 in
  let t := a6 ⊕ d1 in
  let bc2 := RotateLeft64 t 10 in
  let t := a17 ⊕ d2 in
  let bc3 := RotateLeft64 t 15 in
  let t := a3 ⊕ d3 in
  let bc4 := RotateLeft64 t 56 in
  let t := a14 ⊕ d4 in
  let bc0 := RotateLeft64 t 27 in
  let a20 := bc0 ⊕ (bc2 &^ bc1) in
  let a6 := bc1 ⊕ (bc3 &^ bc2) in
  let a17 := bc2 ⊕ (bc4 &^ bc3) in
  let a3 := bc3 ⊕ (bc0 &^ bc4) in
  let a14 := bc4 ⊕ (bc1 &^ bc0) in
  let t := a10 ⊕ d0 in
  let bc3 := RotateLeft64 t 41 in
  let t := a21 ⊕ d1 in
  let bc4 := RotateLeft64 t 2 in
  let t := a7 ⊕ d2 in
  let bc0 := RotateLeft64 t 62 in
  let t := a18 ⊕ d3 in
  let bc1 := RotateLeft64 t 55 in
  let t := a4 ⊕ d4 in
  let bc2 := RotateLeft64 t 39 in
  let a10 := bc0 ⊕ (bc2 &^ bc1) in
  let a21 := bc1 ⊕ (bc3 &^ bc2) in
  let a7 := bc2 ⊕ (bc4 &^ bc3) in
  let a18 := bc3 ⊕ (bc0 &^ bc4) in
  let a4 := bc4 ⊕ (bc1 &^ bc0) in
  L a0 a1 a2 a3 a4 a5 a6 a7 a8 a9 a10 a11 a12 a13 a14 a15 a16 a17 a18 a19 a20 a21 a22 a23 a24.

(** Round 4 of the four unrolled rounds. *)
Definition round4 (rci : Z) (s : lanes) : lanes :=
  let '(L a0 a1 a2 a3 a4 a5 a6 a7 a8 a9 a10 a11 a12 a13 a14 a15 a16 a17 a18 a19 a20 a21 a22 a23 a24) := s in
  let bc0 := a0 ⊕ a5 ⊕ a10 ⊕ a15 ⊕ a20 in
  let bc1 := a1 ⊕ a6 ⊕ a11 ⊕ a16 ⊕ a21 in
  let bc2 := a2 ⊕ a7 ⊕ a12 ⊕ a17 ⊕ a22 in
  let bc3 := a3 ⊕ a8 ⊕ a13 ⊕ a18 ⊕ a23 in
  let bc4 := a4 ⊕ a9 ⊕ a14 ⊕ a19 ⊕ a24 in
  let d0 := bc4 ⊕ (Z.lor (shl64 bc1 1) (Z.shiftr bc1 63)) in
  let d1 := bc0 ⊕ (Z.lor (shl64 bc2 1) (Z.shiftr bc2 63)) in
  let d2 := bc1 ⊕ (Z.lor (shl64 bc3 1) (Z.shiftr bc3 63)) in
  let d3 := bc2 ⊕ (Z.lor (shl64 bc4 1) (Z.shiftr bc4 63)) in
  let d4 := bc3 ⊕ (Z.lor (shl64 bc0 1) (Z.shiftr bc0 63)) in
  let bc0 := a0 ⊕ d0 in
  let t := a1 ⊕ d1 in
  let bc1 := RotateLeft64 t 44 in
  let t := a2 ⊕ d2 in
  let bc2 := RotateLeft64 t 43 in
  let t := a3 ⊕ d3 in
  let bc3 := RotateLeft64 t 21 in
  let t := a4 ⊕ d4 in
  let bc4 := RotateLeft64 t 14 in
  let a0 := bc0 ⊕ (bc2 &^ bc1) ⊕ rci in
  let a1 := bc1 ⊕ (bc3 &^ bc2) in
  let a2 := bc2 ⊕ (bc4 &^ bc3) in
  let a3 := bc3 ⊕ (bc0 &^ bc4) in
  let a4 := bc4 ⊕ (bc1 &^ bc0) in
  let t := a5 ⊕ d0 in
  let bc2 := RotateLeft64 t 3 in
  let t := a6 ⊕ d1 in
  let bc3 := RotateLeft64 t 45 in
  let t := a7 ⊕ d2 in
  let bc4 := RotateLeft64 t 61 in
  let t := a8 ⊕ d3 in
  let bc0 := RotateLeft64 t 28 in
  let t := a9 ⊕ d4 in
  let bc1 := RotateLeft64 t 20 in
  let a5 := bc0 ⊕ (bc2 &^ bc1) in
  let a6 := bc1 ⊕ (bc3 &^ bc2) in
  let a7 := bc2 ⊕ (bc4 &^ bc3) in
  let a8 := bc3 ⊕ (bc0 &^ bc4) in
  let a9 := bc4 ⊕ (bc1 &^ bc0) in
  let t := a10 ⊕ d0 in
  let bc4 := RotateLeft64 t 18 in
  let t := a11 ⊕ d1 in
  let bc0 := RotateLeft64 t 1 in
  let t := a12 ⊕ d2 in
  let bc1 := RotateLeft64 t 6 in
  let t := a13 ⊕ d3 in
  let bc2 := RotateLeft64 t 25 in
  let t := a14 ⊕ d4 in
  let bc3 := RotateLeft64 t 8 in
  let a10 := bc0 ⊕ (bc2 &^ bc1) in
  let a11 := bc1 ⊕ (bc3 &^ bc2) in
  let a12 := bc2 ⊕ (bc4 &^ bc3) in
  let a13 := bc3 ⊕ (bc0 &^ bc4) in
  let a14 := bc4 ⊕ (bc1 &^ bc0) in
  let t := a15 ⊕ d0 in
  let bc1 := RotateLeft64 t 36 in
  let t := a16 ⊕ d1 in
  let bc2 := RotateLeft64 t 10 in
  let t := a17 ⊕ d2 in
  let bc3 := RotateLeft64 t 15 in
  let t := a18 ⊕ d3 in
  let bc4 := RotateLeft64 t 56 in
  let t := a19 ⊕ d4 in
  let bc0 := RotateLeft64 t 27 in
  let a15 := bc0 ⊕ (bc2 &^ bc1) in
  let a16 := bc1 ⊕ (bc3 &^ bc2) in
  let a17 := bc2 ⊕ (bc4 &^ bc3) in
  let a18 := bc3 ⊕ (bc0 &^ bc4) in
  let a19 := bc4 ⊕ (bc1 &^ bc0) in
  let t := a20 ⊕ d0 in
  let bc3 := RotateLeft64 t 41 in
  let t := a21 ⊕ d1 in
  let bc4 := RotateLeft64 t 2 in
  let t := a22 ⊕ d2 in
  let bc0 := RotateLeft64 t 62 in
  let t := a23 ⊕ d3 in
  let bc1 := RotateLeft64 t 55 in
  let t := a24 ⊕ d4 in
  let bc2 := RotateLeft64 t 39 in
  let a20 := bc0 ⊕ (bc2 &^ bc1) in
  let a21 := bc1 ⊕ (bc3 &^ bc2) in
  let a22 := bc2 ⊕ (bc4 &^ bc3) in
  let a23 := bc3 ⊕ (bc0 &^ bc4) in
  let a24 := bc4 ⊕ (bc1 &^ bc0) in
  L a0 a1 a2 a3 a4 a5 a6 a7 a8 a9 a10 a11 a12 a13 a14 a15 a16 a17 a18 a19 a20 a21 a22 a23 a24.

(** The loop [for i := 0; i < 24; i += 4]: [n] iterations, starting at round [i]. *)
Fixpoint keccakF1600_loop (n i : nat) (a : lanes) : lanes :=
  match n with
  | O => a
  | S n =>
      let a := round1 (rc !!! i) a in
      let a := round2 (rc !!! (i + 1)%nat) a in
      let a := round3 (rc !!! (i + 2)%nat) a in
      let a := round4 (rc !!! (i + 3)%nat) a in
      keccakF1600_loop n (i + 4) a
  end.

Definition keccakF1600 (a : lanes) : lanes := keccakF1600_loop 6 0 a.

(** ** The permutation as the standard states it *)
Module Spec.

(** Lane [(x, y)] is at index [x + 5 y]; coordinates are modulo 5. *)
Definition array : Type := nat → nat → Z.

Definition rot (x k : Z) : Z := if k =? 0 then x else RotateLeft64 x k.

Definition theta (A : array) : array :=
  let C x := A x 0%nat ⊕ A x 1%nat ⊕ A x 2%nat ⊕ A x 3%nat ⊕ A x 4%nat in
  λ x y, A x y ⊕ (C ((x + 4) mod 5)%nat ⊕ rot (C ((x + 1) mod 5)%nat) 1).

(** Rotation offsets: [(t + 1)(t + 2) / 2] along the walk
    [(x, y) := (y, 2 x + 3 y)] from [(1, 0)]; lane [(0, 0)] is not rotated. *)
Fixpoint rho_walk (n t x y px py : nat) : Z :=
  match n with
  | O => 0
  | S n =>
      if ((x =? px) && (y =? py))%nat
      then (Z.of_nat (t + 1) * Z.of_nat (t + 2) / 2) mod 64
      else rho_walk n (t + 1) y ((2 * x + 3 * y) mod 5) px py
  end.

Definition rho (A : array) : array := λ x y, rot (A x y) (rho_walk 24 0 1 0 x y).

Definition pi (A : array) : array := λ x y, A ((x + 3 * y) mod 5)%nat x.

Definition chi (A : array) : array := λ x y,
  A x y ⊕ (A ((x + 2) mod 5)%nat y &^ A ((x + 1) mod 5)%nat y).

Definition iota (k : Z) (A : array) : array := λ x y,
  if ((x =? 0) && (y =? 0))%nat then A x y ⊕ k else A x y.

Definition round (k : Z) (A : array) : array := iota k (chi (pi (rho (theta A)))).

Definition of_lanes (s : lanes) : array := λ x y,
  let '(L a0 a1 a2 a3 a4 a5 a6 a7 a8 a9 a10 a11 a12 a13 a14 a15 a16 a17 a18 a19 a20 a21 a22 a23 a24) := s in
  [a0; a1; a2; a3; a4; a5; a6; a7; a8; a9; a10; a11; a12; a13; a14; a15; a16; a17; a18; a19; a20; a21; a22; a23; a24] !!! (x + 5 * y)%nat.

Definition to_lanes (A : array) : lanes :=
  let get i := A (i mod 5)%nat (i / 5)%nat in
  L (get 0%nat) (get 1%nat) (get 2%nat) (get 3%nat) (get 4%nat) (get 5%nat) (get 6%nat) (get 7%nat) (get 8%nat) (get 9%nat) (get 10%nat) (get 11%nat) (get 12%nat) (get 13%nat) (get 14%nat) (get 15%nat) (get 16%nat) (get 17%nat) (get 18%nat) (get 19%nat) (get 20%nat) (get 21%nat) (get 22%nat) (get 23%nat) (get 24%nat).

(** One round on the 25 lanes, and the sequence of rounds for a list of
    round constants. *)
Definition step (k : Z) (s : lanes) : lanes := to_lanes (round k (of_lanes s)).

Definition keccak_f (ks : list Z) (s : lanes) : lanes := foldl (λ s k, step k s) s ks.

End Spec.

(** ** The unrolled code computes the standard permutation *)

(** After each of the four rounds the code keeps lane [j] of the standard at
    another index; [relayout p s] puts lane [p !!! i] of [s] at index [i]. *)
Definition relayout (p : list nat) (s : lanes) : lanes :=
  let lane i := Spec.of_lanes s ((p !!! i) mod 5)%nat ((p !!! i) / 5)%nat in
  L (lane 0%nat) (lane 1%nat) (lane 2%nat) (lane 3%nat) (lane 4%nat)
    (lane 5%nat) (lane 6%nat) (lane 7%nat) (lane 8%nat) (lane 9%nat)
    (lane 10%nat) (lane 11%nat) (lane 12%nat) (lane 13%nat) (lane 14%nat)
    (lane 15%nat) (lane 16%nat) (lane 17%nat) (lane 18%nat) (lane 19%nat)
    (lane 20%nat) (lane 21%nat) (lane 22%nat) (lane 23%nat) (lane 24%nat).

Definition layout1 : list nat :=
  [0; 11; 22; 8; 19; 15; 1; 12; 23; 9; 5; 16; 2; 13; 24; 20; 6; 17; 3; 14; 10; 21; 7; 18; 4]%nat.
Definition layout2 : list nat :=
  [0; 16; 7; 23; 14; 20; 11; 2; 18; 9; 15; 6; 22; 13; 4; 10; 1; 17; 8; 24; 5; 21; 12; 3; 19]%nat.
Definition layout3 : list nat :=
  [0; 6; 12; 18; 24; 10; 16; 22; 3; 9; 20; 1; 7; 13; 19; 5; 11; 17; 23; 4; 15; 21; 2; 8; 14]%nat.
Definition layout0 : list nat := seq 0 25.

Lemma xor5 a b c d e a' b' c' d' e' :
  (∀ f : Z → bool, xorb (xorb (xorb (xorb (f a) (f b)) (f c)) (f d)) (f e) =
     xorb (xorb (xorb (xorb (f a') (f b')) (f c')) (f d')) (f e')) →
  a ⊕ b ⊕ c ⊕ d ⊕ e = a' ⊕ b' ⊕ c' ⊕ d' ⊕ e'.
Proof.
  intros H. apply Z.bits_inj'. intros n _. rewrite !Z.lxor_spec.
  exact (H (λ z, Z.testbit z n)).
Qed.

(** The column parities of a permuted layout are those of the standard. *)
Ltac solve_parity :=
  apply xor5; let f := fresh in intros f;
  repeat match goal with |- context [f ?a] => destruct (f a) end; reflexivity.

(** [column a .. e] brings the sum [a + .. + e] of a column, which the code takes
    in the order of its layout, to the order of the standard. *)
Ltac column a b c d e a' b' c' d' e' :=
  replace (a ⊕ b ⊕ c ⊕ d ⊕ e) with (a' ⊕ b' ⊕ c' ⊕ d' ⊕ e') by solve_parity.

Ltac expose_round :=
  cbv -[Z.lxor Z.ldiff Z.lor shl64 Z.shiftr].

Lemma relayout0 s : relayout layout0 s = s.
Proof. destruct s. reflexivity. Qed.

Lemma round1_spec k s : round1 k s = relayout layout1 (Spec.step k s).
Proof. destruct s. expose_round. reflexivity. Qed.

Lemma round2_spec k s : round2 k (relayout layout1 s) = relayout layout2 (Spec.step k s).
Proof.
  destruct s. expose_round.
  column a0 a15 a5 a20 a10 a0 a5 a10 a15 a20.
  column a11 a1 a16 a6 a21 a1 a6 a11 a16 a21.
  column a22 a12 a2 a17 a7 a2 a7 a12 a17 a22.
  column a8 a23 a13 a3 a18 a3 a8 a13 a18 a23.
  column a19 a9 a24 a14 a4 a4 a9 a14 a19 a24.
  reflexivity.
Qed.

Lemma round3_spec k s : round3 k (relayout layout2 s) = relayout layout3 (Spec.step k s).
Proof.
  destruct s. expose_round.
  column a0 a20 a15 a10 a5 a0 a5 a10 a15 a20.
  column a16 a11 a6 a1 a21 a1 a6 a11 a16 a21.
  column a7 a2 a22 a17 a12 a2 a7 a12 a17 a22.
  column a23 a18 a13 a8 a3 a3 a8 a13 a18 a23.
  column a14 a9 a4 a24 a19 a4 a9 a14 a19 a24.
  reflexivity.
Qed.

Lemma round4_spec k s : round4 k (relayout layout3 s) = Spec.step k s.
Proof.
  destruct s. expose_round.
  column a0 a10 a20 a5 a15 a0 a5 a10 a15 a20.
  column a6 a16 a1 a11 a21 a1 a6 a11 a16 a21.
  column a12 a22 a7 a17 a2 a2 a7 a12 a17 a22.
  column a18 a3 a13 a23 a8 a3 a8 a13 a18 a23.
  column a24 a9 a19 a4 a14 a4 a9 a14 a19 a24.
  reflexivity.
Qed.

Lemma four_rounds_spec k1 k2 k3 k4 s :
  round4 k4 (round3 k3 (round2 k2 (round1 k1 s))) = Spec.keccak_f [k1; k2; k3; k4] s.
Proof. rewrite round1_spec, round2_spec, round3_spec, round4_spec. reflexivity. Qed.

(** C35: the in-place permutation of [keccakf.go] (six iterations of four unrolled
    rounds, each round leaving the lanes in another layout) is the Keccak-f[1600]
    permutation of the standard: theta, rho, pi, chi and iota, 24 times. *)
Theorem keccakF1600_spec a : keccakF1600 a = Spec.keccak_f rc a.
Proof.
  unfold keccakF1600. cbn [keccakF1600_loop Nat.add]. rewrite !four_rounds_spec. reflexivity.
Qed.

(** ** The sponge *)

Inductive spongeDirection : Type := spongeAbsorbing | spongeSqueezing.

Record state : Type := State {
  st_a : bytes;       (** main state, 200 bytes *)
  st_n : nat;         (** a[n:rate] is the buffer *)
  st_rate : nat;
  st_dsbyte : byte;   (** domain separation bits and first padding bit *)
  st_outputLen : nat;
  st_state : spongeDirection
}.

(** Assignments to [d.a] and [d.n], and to [d.state]. *)
Definition set_buf (d : state) (a : bytes) (n : nat) : state :=
  State a n (st_rate d) (st_dsbyte d) (st_outputLen d) (st_state d).
Definition set_dir (d : state) (s : spongeDirection) : state :=
  State (st_a d) (st_n d) (st_rate d) (st_dsbyte d) (st_outputLen d) s.

(** [binary.LittleEndian.Uint64] and [PutUint64], and the 25 lanes of the state:
    what [permute] reads and writes, by conversion or by the pointer cast. *)
Definition Uint64_le (bs : bytes) : Z := SetBytes (reverse bs).
Definition PutUint64_le (z : Z) : bytes := reverse (be_bytes 8 z).

Definition load_lanes (bs : bytes) : lanes :=
  let get i := Uint64_le (take 8 (drop (i * 8)%nat bs)) in
  L (get 0%nat) (get 1%nat) (get 2%nat) (get 3%nat) (get 4%nat) (get 5%nat) (get 6%nat) (get 7%nat) (get 8%nat) (get 9%nat) (get 10%nat) (get 11%nat) (get 12%nat) (get 13%nat) (get 14%nat) (get 15%nat) (get 16%nat) (get 17%nat) (get 18%nat) (get 19%nat) (get 20%nat) (get 21%nat) (get 22%nat) (get 23%nat) (get 24%nat).

Definition store_lanes (s : lanes) : bytes :=
  let '(L a0 a1 a2 a3 a4 a5 a6 a7 a8 a9 a10 a11 a12 a13 a14 a15 a16 a17 a18 a19 a20 a21 a22 a23 a24) := s in
  mjoin (PutUint64_le <$> [a0; a1; a2; a3; a4; a5; a6; a7; a8; a9; a10; a11; a12; a13; a14; a15; a16; a17; a18; a19; a20; a21; a22; a23; a24]).

Definition Reset (d : state) : state :=
  set_dir (set_buf d (replicate 200 Byte.x00) 0) spongeAbsorbing.

Definition permute (d : state) : state :=
  set_buf d (store_lanes (keccakF1600 (load_lanes (st_a d)))) 0.

Definition bxor (x y : byte) : byte := z2b (Z.lxor (b2z x) (b2z y)).

Definition padAndPermute (d : state) : state :=
  let a1 := <[st_n d := bxor (st_a d !!! st_n d) (st_dsbyte d)]> (st_a d) in
  let a2 := <[(st_rate d - 1)%nat := bxor (a1 !!! (st_rate d - 1)%nat) Byte.x80]> a1 in
  set_dir (permute (set_buf d a2 (st_n d))) spongeSqueezing.

(** [subtle.XORBytes(d.a[d.n:d.rate], d.a[d.n:d.rate], p)]: the new state bytes
    and the number of bytes written. *)
Definition XORBytes (d : state) (p : bytes) : bytes * nat :=
  let x := zip_with bxor (take (st_rate d - st_n d) (drop (st_n d) (st_a d))) p in
  (take (st_n d) (st_a d) ++ x ++ drop (st_n d + length x) (st_a d), length x).

(** The loop of [Write]; [None] when [fuel] iterations do not empty [p]. *)
Fixpoint Write_loop (fuel : nat) (d : state) (p : bytes) : option state :=
  match p with
  | [] => Some d
  | _ =>
    match fuel with
    | O => None
    | S fuel =>
        let '(a', x) := XORBytes d p in
        let d := set_buf d a' (st_n d + x) in
        let d := if decide (st_n d = st_rate d) then permute d else d in
        Write_loop fuel d (drop x p)
    end
  end.

(** [Write]: panics when output has been read. Every iteration consumes a byte
    of [p] while the buffer has room, so [length p] iterations are enough
    ([Write_ok]). *)
Definition Write (d : state) (p : bytes) : res () state :=
  match st_state d with
  | spongeSqueezing => Panic
  | spongeAbsorbing =>
      match Write_loop (length p) d p with Some d => Ok d | None => Panic end
  end.

(** The squeezing loop of [Read] for an output of [len] bytes. *)
Fixpoint Read_loop (fuel : nat) (d : state) (len : nat) (out : bytes) : option (state * bytes) :=
  match len with
  | O => Some (d, out)
  | _ =>
    match fuel with
    | O => None
    | S fuel =>
        let d := if decide (st_n d = st_rate d) then permute d else d in
        let chunk := take len (take (st_rate d - st_n d) (drop (st_n d) (st_a d))) in
        let x := length chunk in
        Read_loop fuel (set_buf d (st_a d) (st_n d + x)) (len - x) (out ++ chunk)
    end
  end.

Definition Read (d : state) (len : nat) : option (state * bytes) :=
  let d := match st_state d with spongeAbsorbing => padAndPermute d | spongeSqueezing => d end in
  Read_loop len d len [].

Definition NewLegacyKeccak256 : state :=
  State (replicate 200 Byte.x00) 0 136 Byte.x01 32 spongeAbsorbing.

(** [Write] for every argument in turn, then [Read] of 32 bytes. *)
Fixpoint Write_all (d : state) (data : list bytes) : res () state :=
  match data with
  | [] => Ok d
  | b :: data => d ← Write d b; Write_all d data
  end.

Definition Keccak256_run (data : list bytes) : res () bytes :=
  d ← Write_all (Reset NewLegacyKeccak256) data;
  match Read d 32 with Some (_, out) => Ok out | None => Panic end.

(** [crypto.Keccak256(data...)]. [Keccak256_run_ok] below shows that the run
    always ends with 32 bytes, so the default is never taken. *)
Definition Keccak256 (data : list bytes) : bytes :=
  match Keccak256_run data with Ok h => h | _ => [] end.

Example keccak_empty : SetBytes (Keccak256 []) =
  0xc5d2460186f7233c927e7db2dcc703c0e500b653ca82273b7bfad8045d85a470.
Proof. vm_compute. reflexivity. Qed.

Example keccak_abc : SetBytes (Keccak256 [[Byte.x61]; [Byte.x62; Byte.x63]]) =
  0x4e03657aea45a94fc7d47ba826c8d667c0d1e6e33a64a036ec44f58fa12d6c45.
Proof. vm_compute. reflexivity. Qed.

(** ** Properties of the sponge *)

Arguments keccakF1600 : simpl never.
Arguments load_lanes : simpl never.
Arguments store_lanes : simpl never.
Arguments Keccak256 : simpl never.

(** The buffer of a sponge that accepts input has room. *)
Definition wf (d : state) : Prop :=
  length (st_a d) = 200%nat ∧ (st_n d < st_rate d <= 200)%nat.

#[export] Instance wf_dec d : Decision (wf d).
Proof. unfold wf. apply _. Defined.

(** Reference: absorb one byte. *)
Definition absorb1 (d : state) (b : byte) : state :=
  let d := set_buf d (<[st_n d := bxor (st_a d !!! st_n d) b]> (st_a d)) (S (st_n d)) in
  if decide (st_n d = st_rate d) then permute d else d.

Lemma length_store_lanes s : length (store_lanes s) = 200%nat.
Proof. destruct s. reflexivity. Qed.

Lemma wf_permute d : (0 < st_rate d <= 200)%nat → wf (permute d).
Proof. intros. split; cbn; [apply length_store_lanes | lia]. Qed.

Lemma wf_absorb1 d b : wf d → wf (absorb1 d b).
Proof.
  intros [Ha Hn]. unfold absorb1. cbn. case_decide; [apply wf_permute; cbn; lia|].
  split; cbn; [by rewrite length_insert | lia].
Qed.

Lemma wf_absorb d p : wf d → wf (foldl absorb1 d p).
Proof. revert d; induction p as [|b p IH]; cbn; auto using wf_absorb1. Qed.

(** [absorb1] changes only the buffer. *)
Lemma absorb_fields d p :
  st_state (foldl absorb1 d p) = st_state d ∧ st_rate (foldl absorb1 d p) = st_rate d.
Proof.
  revert d; induction p as [|b p IH]; intros d; cbn; [done|].
  destruct (IH (absorb1 d b)) as [-> ->]. unfold absorb1. cbn. by case_decide.
Qed.

(** XOR of [p] into [l] from index [k] on. *)
Definition xor_at (l : bytes) (k : nat) (p : bytes) : bytes :=
  take k l ++ zip_with bxor (drop k l) p ++ drop (k + length p) l.

Lemma xor_at_cons l k b p :
  (k + length (b :: p) <= length l)%nat →
  xor_at l k (b :: p) = xor_at (<[k := bxor (l !!! k) b]> l) (S k) p.
Proof.
  cbn [length]. intros Hk. destruct (lookup_lt_is_Some_2 l k ltac:(lia)) as [y Hy].
  rewrite (list_lookup_total_correct _ _ _ Hy). unfold xor_at.
  rewrite (take_S_r _ _ (bxor y b)) by (apply list_lookup_insert_eq; lia).
  rewrite take_insert_ge, !drop_insert_lt by lia. rewrite (drop_S l y k Hy).
  cbn [zip_with length]. rewrite <-app_assoc. cbn [app]. do 3 f_equal. f_equal. lia.
Qed.

(** One iteration of the loop of [Write] consumes the bytes that fit. *)
Lemma XORBytes_spec d p :
  wf d →
  XORBytes d p = (xor_at (st_a d) (st_n d) (take (st_rate d - st_n d) p),
                  length (take (st_rate d - st_n d) p)).
Proof.
  intros [Ha Hn]. unfold XORBytes, xor_at. set (r := (st_rate d - st_n d)%nat).
  assert (zip_with bxor (take r (drop (st_n d) (st_a d))) p
          = zip_with bxor (drop (st_n d) (st_a d)) (take r p)) as ->.
  { rewrite <-(zip_with_take_r _ (take r _) p), length_take, length_drop.
    rewrite Nat.min_l by lia.
    rewrite zip_with_take_l'; [done|]. rewrite length_take. lia. }
  rewrite length_zip_with, length_take, length_drop.
  replace ((length (st_a d) - st_n d) `min` (r `min` length p))%nat
    with (r `min` length p)%nat by lia. done.
Qed.

(** The chunk step is the byte-at-a-time step, repeated. *)
Lemma absorb_chunk d p :
  wf d → p ≠ [] → (st_n d + length p <= st_rate d)%nat →
  foldl absorb1 d p =
    let d := set_buf d (xor_at (st_a d) (st_n d) p) (st_n d + length p) in
    if decide (st_n d = st_rate d) then permute d else d.
Proof.
  revert d. induction p as [|b p IH]; intros d Hwf Hp Hlen; [done|].
  pose proof Hwf as [Ha Hn]. cbn [length] in Hlen.
  rewrite xor_at_cons by (cbn [length]; lia). cbn [foldl length].
  destruct (decide (p = [])) as [->|Hp'].
  - cbn [foldl length]. unfold absorb1, xor_at. cbn.
    rewrite zip_with_nil_r, Nat.add_0_r. cbn [app].
    rewrite take_drop, Nat.add_1_r. reflexivity.
  - unfold absorb1 at 2. cbn. destruct p as [|b' p]; [done|]. cbn [length] in *.
    rewrite decide_False by lia. rewrite IH; cbn [length st_n set_buf st_rate st_a]; [|split|done|lia].
    + replace (S (st_n d) + S (length p))%nat with (st_n d + S (S (length p)))%nat by lia.
      reflexivity.
    + cbn. by rewrite length_insert.
    + cbn. lia.
Qed.

(** [Write] is total on a sponge with room in its buffer, and computes what
    absorbing byte by byte computes. *)
Lemma Write_loop_ok fuel d p :
  wf d → (length p <= fuel)%nat → Write_loop fuel d p = Some (foldl absorb1 d p).
Proof.
  revert d p. induction fuel as [|fuel IH]; intros d p Hwf Hlen;
    destruct p as [|b p]; cbn [length] in Hlen; [done|lia|done|].
  set (q := b :: p). change (Write_loop (S fuel) d q) with
    (let '(a', x) := XORBytes d q in
     let d := set_buf d a' (st_n d + x) in
     let d := if decide (st_n d = st_rate d) then permute d else d in
     Write_loop fuel d (drop x q)).
  rewrite XORBytes_spec by done. pose proof Hwf as [Ha Hn].
  set (r := (st_rate d - st_n d)%nat). set (c := take r q).
  assert (c ≠ []) as Hc by (unfold c, q; destruct r eqn:Er; [unfold r in Er; lia|done]).
  assert (length c <= r)%nat by (unfold c; rewrite length_take; lia).
  assert (drop (length c) q = drop r q) as Hd.
  { unfold c. rewrite length_take. destruct (Nat.min_spec r (length q)) as [[? ->]|[? ->]]; [done|].
    rewrite !drop_ge by lia. done. }
  pose proof (absorb_chunk d c Hwf Hc ltac:(unfold r in *; lia)) as E.
  cbv beta iota zeta in E |- *. rewrite Hd, <-E.
  rewrite IH.
  - rewrite <-foldl_app. unfold c. by rewrite take_drop.
  - by apply wf_absorb.
  - rewrite length_drop. unfold q, r. cbn [length]. lia.
Qed.

Lemma Write_ok d p :
  wf d → st_state d = spongeAbsorbing → Write d p = Ok (foldl absorb1 d p).
Proof. intros Hwf Hs. unfold Write. rewrite Hs, Write_loop_ok by done. done. Qed.

Lemma Write_all_ok d data :
  wf d → st_state d = spongeAbsorbing → Write_all d data = Ok (foldl absorb1 d (mjoin data)).
Proof.
  revert d. induction data as [|b data IH]; intros d Hwf Hs; [done|].
  cbn [Write_all]. rewrite Write_ok by done. cbn.
  rewrite IH; [by rewrite foldl_app | by apply wf_absorb |].
  by rewrite (proj1 (absorb_fields d b)).
Qed.

(** A squeezing sponge yields the bytes it is asked for. *)
Lemma Read_loop_ok fuel d len out :
  length (st_a d) = 200%nat → (0 < st_rate d <= 200)%nat → (st_n d <= st_rate d)%nat →
  (len <= fuel)%nat →
  ∃ d' out', Read_loop fuel d len out = Some (d', out ++ out') ∧ length out' = len.
Proof.
  revert d len out. induction fuel as [|fuel IH]; intros d len out Ha Hr Hn Hlen;
    destruct len as [|len]; try (by exists d, []; rewrite app_nil_r); [lia|].
  cbn [Read_loop].
  set (d' := if decide (st_n d = st_rate d) then permute d else d).
  assert (length (st_a d') = 200%nat ∧ (st_n d' < st_rate d')%nat ∧ st_rate d' = st_rate d)
    as (Ha' & Hn' & Hr').
  { unfold d'. case_decide; cbn; [split; [apply length_store_lanes | lia] | split; [done | lia]]. }
  set (c := take (S len) _).
  assert (length c = S len `min` (st_rate d' - st_n d'))%nat as Hc.
  { unfold c. rewrite !length_take, length_drop. lia. }
  destruct (IH (set_buf d' (st_a d') (st_n d' + length c)) (S len - length c)%nat (out ++ c))
    as (d'' & out' & -> & Hout); cbn; try lia.
  exists d'', (c ++ out'). rewrite app_assoc, length_app. split; [done | lia].
Qed.

Lemma Read_ok d len :
  wf d → st_state d = spongeAbsorbing →
  ∃ d' out, Read d len = Some (d', out) ∧ length out = len.
Proof.
  intros [Ha Hn] Hs. unfold Read. rewrite Hs.
  destruct (Read_loop_ok len (padAndPermute d) len []) as (d' & out & -> & Hout).
  - apply length_store_lanes.
  - cbn. lia.
  - cbn. lia.
  - done.
  - by exists d', out.
Qed.

Lemma wf_initial : wf (Reset NewLegacyKeccak256).
Proof. split; cbn; [done | lia]. Qed.

(** The hash of a list of arguments: one absorption of their concatenation. *)
Lemma Keccak256_run_ok data :
  ∃ h, Keccak256_run data = Ok h ∧ length h = 32%nat ∧
       Keccak256_run [mjoin data] = Ok h.
Proof.
  unfold Keccak256_run. rewrite !Write_all_ok by (done || apply wf_initial).
  cbn [mjoin list_join]. rewrite app_nil_r. cbn [mbind res_bind].
  destruct (Read_ok (foldl absorb1 (Reset NewLegacyKeccak256) (mjoin data)) 32)
    as (d' & h & -> & Hh); [apply wf_absorb, wf_initial | |].
  - by rewrite (proj1 (absorb_fields _ _)).
  - by exists h.
Qed.

Lemma length_Keccak256 data : length (Keccak256 data) = 32%nat.
Proof. unfold Keccak256. by destruct (Keccak256_run_ok data) as (h & -> & Hh & _). Qed.

Lemma Keccak256_join data : Keccak256 data = Keccak256 [mjoin data].
Proof. unfold Keccak256. by destruct (Keccak256_run_ok data) as (h & -> & _ & ->). Qed.

(** absorbing a message in two calls of [Write] is absorbing it in one, for
    every split point and every state of the sponge that accepts input; the call
    returns (no panic, enough iterations) and keeps the sponge well formed. *)
Theorem Write_split d p q :
  wf d → st_state d = spongeAbsorbing →
  ∃ d', Write d (p ++ q) = Ok d' ∧ (Write d p ≫= λ d1, Write d1 q) = Ok d' ∧ wf d'.
Proof.
  intros Hwf Hs. exists (foldl absorb1 d (p ++ q)). rewrite !Write_ok by done. cbn.
  rewrite Write_ok, foldl_app; [split; [done|]; split; [done|]; auto using wf_absorb | by apply wf_absorb |].
  by rewrite (proj1 (absorb_fields d p)).
Qed.

Lemma Write_split_witness : ∃ d',
  Write (Reset NewLegacyKeccak256) ([Byte.x61] ++ replicate 200 Byte.x62) = Ok d' ∧
  (Write (Reset NewLegacyKeccak256) [Byte.x61] ≫= λ d1, Write d1 (replicate 200 Byte.x62)) = Ok d' ∧ wf d'.
Proof.
  apply Write_split; [split; cbn; [reflexivity | lia] | reflexivity].
Defined.

(** [Keccak256] always returns 32 bytes, and hashing several arguments is
    hashing their concatenation (no separation between the arguments). *)
Theorem Keccak256_concat data :
  length (Keccak256 data) = 32%nat ∧ Keccak256 data = Keccak256 [mjoin data].
Proof. split; [apply length_Keccak256 | apply Keccak256_join]. Qed.
