(* ===== verification/Common.v ===== *)
(** * Hashes, addresses, byte strings and checked arithmetic

    [common/types.go], [common/bytes.go], [common/big.go] and the checked
    operations of [common/math]: the fixed-size types [Hash] and [Address] are
    byte lists, [Hash_ok] and [Address_ok] state the length that the Go array
    types guarantee; every constructor of the package establishes it. *)
From Stdlib Require Import ZArith Lia.
From Stdlib Require Strings.Byte.
From stdpp Require Import base tactics decidable countable list numbers.
From S2P Require Import Prelude.

Definition HashLength : nat := 32.
Definition AddressLength : nat := 20.

Abbreviation Hash := (list Byte.byte).
Abbreviation Address := (list Byte.byte).

Definition Hash_ok (h : Hash) : Prop := length h = HashLength.
Definition Address_ok (x : Address) : Prop := length x = AddressLength.

(** The zero values [common.Hash{}] and [common.Address{}]. *)
Definition Hash0 : Hash := replicate HashLength Byte.x00.
Definition Address0 : Address := replicate AddressLength Byte.x00.

(** [copy(h[size-len(b):], b)] on an array of [size] bytes, after cropping [b]
    from the left: the leading bytes of [h] are kept. *)
Definition crop (size : nat) (b : bytes) : bytes :=
  if decide (size < length b)%nat then drop (length b - size) b else b.

Definition Hash_SetBytes (h : Hash) (b : bytes) : Hash :=
  let b := crop HashLength b in take (HashLength - length b) h ++ b.

Definition Address_SetBytes (x : Address) (b : bytes) : Address :=
  let b := crop AddressLength b in take (AddressLength - length b) x ++ b.

Definition BytesToHash (b : bytes) : Hash := Hash_SetBytes Hash0 b.
Definition BytesToAddress (b : bytes) : Address := Address_SetBytes Address0 b.
Definition BigToHash (z : Z) : Hash := BytesToHash (big_Bytes z).
Definition BigToAddress (z : Z) : Address := BytesToAddress (big_Bytes z).
Definition Big (h : bytes) : Z := SetBytes h.

(** [bytes.Compare]. *)
Fixpoint bytes_Compare (x y : bytes) : comparison :=
  match x, y with
  | [], [] => Eq
  | [], _ :: _ => Lt
  | _ :: _, [] => Gt
  | a :: x, b :: y =>
      match Z.compare (b2z a) (b2z b) with
      | Eq => bytes_Compare x y
      | c => c
      end
  end.

Definition Hash_Cmp (h other : Hash) : comparison := bytes_Compare h other.
Definition Address_Cmp (x other : Address) : comparison := bytes_Compare x other.

(** ** Hexadecimal strings (as lists of bytes) *)

Definition has0xPrefix (str : bytes) : bool :=
  match str with
  | c0 :: c1 :: _ =>
      bool_decide (c0 = Byte.x30) && (bool_decide (c1 = Byte.x78) || bool_decide (c1 = Byte.x58))
  | _ => false
  end.

Definition between (lo hi : Z) (c : byte) : bool := (lo <=? b2z c) && (b2z c <=? hi).

Definition isHexCharacter (c : byte) : bool :=
  between 48 57 c || between 97 102 c || between 65 70 c.

Definition isHex (str : bytes) : bool :=
  if bool_decide (length str mod 2 = 0)%nat then forallb isHexCharacter str else false.

(** [hex.DecodeString] of the standard library, up to the first invalid
    character; [Hex2Bytes] drops the error. *)
Definition fromHexChar (c : byte) : option Z :=
  if between 48 57 c then Some (b2z c - 48)
  else if between 97 102 c then Some (b2z c - 97 + 10)
  else if between 65 70 c then Some (b2z c - 65 + 10)
  else None.

Fixpoint Hex2Bytes (str : bytes) : bytes :=
  match str with
  | p :: q :: rest =>
      match fromHexChar p, fromHexChar q with
      | Some x, Some y => z2b (x * 16 + y) :: Hex2Bytes rest
      | _, _ => []
      end
  | _ => []
  end.

(** [hex.EncodeToString]. *)
Definition hexDigit (z : Z) : byte := if z <? 10 then z2b (48 + z) else z2b (87 + z).

Fixpoint Bytes2Hex (d : bytes) : bytes :=
  match d with
  | [] => []
  | b :: d => hexDigit (b2z b / 16) :: hexDigit (b2z b mod 16) :: Bytes2Hex d
  end.

Definition FromHex (s : bytes) : bytes :=
  let s := if has0xPrefix s then drop 2 s else s in
  let s := if bool_decide (length s mod 2 = 1)%nat then Byte.x30 :: s else s in
  Hex2Bytes s.

Definition Hex2BytesFixed (str : bytes) (flen : nat) : bytes :=
  let h := Hex2Bytes str in
  if decide (length h = flen) then h
  else if decide (flen < length h)%nat then drop (length h - flen) h
  else replicate (flen - length h) Byte.x00 ++ h.

Definition HexToHash (s : bytes) : Hash := BytesToHash (FromHex s).
Definition HexToAddress (s : bytes) : Address := BytesToAddress (FromHex s).

Definition IsHexAddress (s : bytes) : bool :=
  let s := if has0xPrefix s then drop 2 s else s in
  bool_decide (length s = 2 * AddressLength)%nat && isHex s.

Definition IsHexHash (s : bytes) : bool :=
  let s := if has0xPrefix s then drop 2 s else s in
  bool_decide (length s = 2 * HashLength)%nat && isHex s.

(** ** Padding and trimming *)

Definition RightPadBytes (slice : bytes) (l : nat) : bytes :=
  if decide (l <= length slice)%nat then slice else slice ++ replicate (l - length slice) Byte.x00.

Definition LeftPadBytes (slice : bytes) (l : nat) : bytes :=
  if decide (l <= length slice)%nat then slice else replicate (l - length slice) Byte.x00 ++ slice.

Fixpoint TrimLeftZeroes (s : bytes) : bytes :=
  match s with
  | [] => []
  | b :: s' => if bool_decide (b = Byte.x00) then TrimLeftZeroes s' else s
  end.

Definition TrimRightZeroes (s : bytes) : bytes := reverse (TrimLeftZeroes (reverse s)).

(** ** Checked arithmetic on [uint64]: result and overflow flag *)

Definition SafeSub (x y : Z) : Z * bool := (u64 (x - y), bool_decide (x < y)).
Definition SafeAdd (x y : Z) : Z * bool := (u64 (x + y), bool_decide (two64 <= x + y)).
Definition SafeMul (x y : Z) : Z * bool := (u64 (x * y), bool_decide (0 < x * y / two64)).

(** ** Lemmas *)

Lemma length_crop size b : length (crop size b) = Nat.min size (length b).
Proof. unfold crop. case_decide; [rewrite length_drop|]; lia. Qed.

Lemma crop_small size b : (length b <= size)%nat → crop size b = b.
Proof. intros. unfold crop. case_decide; [lia | done]. Qed.

Lemma BytesToHash_ok b : Hash_ok (BytesToHash b).
Proof.
  unfold Hash_ok, BytesToHash, Hash_SetBytes, Hash0.
  rewrite length_app, length_take, length_replicate, length_crop. lia.
Qed.

Lemma BytesToAddress_ok b : Address_ok (BytesToAddress b).
Proof.
  unfold Address_ok, BytesToAddress, Address_SetBytes, Address0.
  rewrite length_app, length_take, length_replicate, length_crop. lia.
Qed.

#[export] Hint Resolve BytesToHash_ok BytesToAddress_ok : words.

Lemma BytesToHash_id h : Hash_ok h → BytesToHash h = h.
Proof.
  unfold Hash_ok. intros H. unfold BytesToHash, Hash_SetBytes.
  rewrite crop_small by lia. rewrite H, Nat.sub_diag. done.
Qed.

Lemma BytesToAddress_id x : Address_ok x → BytesToAddress x = x.
Proof.
  unfold Address_ok. intros H. unfold BytesToAddress, Address_SetBytes.
  rewrite crop_small by lia. rewrite H, Nat.sub_diag. done.
Qed.

(** Cropping keeps the low-order bytes. *)
Lemma SetBytes_drop_prefix k b :
  (k <= length b)%nat →
  SetBytes (drop k b) = SetBytes b mod 256 ^ Z.of_nat (length b - k).
Proof.
  intros Hk. rewrite <-(take_drop k b) at 2. rewrite SetBytes_app, length_drop.
  rewrite Z.add_comm, Z.mod_add by (pose proof (pow256_pos (Z.of_nat (length b - k))); lia).
  symmetry. apply Z.mod_small. pose proof (SetBytes_range (drop k b)) as H.
  rewrite length_drop in H. done.
Qed.

Lemma SetBytes_crop size b : SetBytes (crop size b) = SetBytes b mod 256 ^ Z.of_nat size.
Proof.
  unfold crop. case_decide.
  - rewrite SetBytes_drop_prefix by lia. do 3 f_equal. lia.
  - symmetry. apply Z.mod_small. pose proof (SetBytes_range b). split; [lia|].
    eapply Z.lt_le_trans; [apply SetBytes_range|]. apply Z.pow_le_mono_r; lia.
Qed.

Lemma SetBytes_zero_prefix k b : SetBytes (replicate k Byte.x00 ++ b) = SetBytes b.
Proof. rewrite SetBytes_app, SetBytes_replicate_0. lia. Qed.

Lemma Big_BytesToHash b : Big (BytesToHash b) = SetBytes b mod 2 ^ 256.
Proof.
  unfold Big, BytesToHash, Hash_SetBytes, Hash0. rewrite take_replicate, SetBytes_zero_prefix.
  rewrite SetBytes_crop. done.
Qed.

Lemma Big_BigToHash z : 0 <= z → Big (BigToHash z) = z mod 2 ^ 256.
Proof. intros. unfold BigToHash. rewrite Big_BytesToHash, SetBytes_big_Bytes; done. Qed.

(** The byte order is the numeric order on strings of the same length. *)
Lemma bytes_Compare_num x y :
  length x = length y → bytes_Compare x y = Z.compare (SetBytes x) (SetBytes y).
Proof.
  revert y. induction x as [|a x IH]; intros [|b y]; cbn [length]; intros H; try done.
  injection H as H. cbn [bytes_Compare]. rewrite !SetBytes_cons, <-H, (IH y H).
  pose proof (SetBytes_range x) as Rx. pose proof (SetBytes_range y) as Ry. rewrite <-H in Ry.
  set (p := 256 ^ Z.of_nat (length x)) in *.
  destruct (Z.compare_spec (b2z a) (b2z b)) as [->|Hlt|Hgt].
  - destruct (Z.compare_spec (SetBytes x) (SetBytes y)); symmetry;
      [apply Z.compare_eq_iff | apply Z.compare_lt_iff | apply Z.compare_gt_iff]; lia.
  - symmetry. apply Z.compare_lt_iff. nia.
  - symmetry. apply Z.compare_gt_iff. nia.
Qed.

Lemma bytes_Compare_eq x y : bytes_Compare x y = Eq → x = y.
Proof.
  revert y. induction x as [|a x IH]; intros [|b y]; cbn; try done.
  destruct (Z.compare_spec (b2z a) (b2z b)) as [E| |]; try done.
  intros H. f_equal; [by apply b2z_inj | by apply IH].
Qed.

Lemma bytes_Compare_refl x : bytes_Compare x x = Eq.
Proof. induction x as [|a x IH]; cbn; [done|]. by rewrite Z.compare_refl. Qed.

Lemma bytes_Compare_antisym x y : bytes_Compare y x = CompOpp (bytes_Compare x y).
Proof.
  revert y. induction x as [|a x IH]; intros [|b y]; cbn; try done.
  rewrite (Z.compare_antisym (b2z a) (b2z b)). destruct (Z.compare _ _); cbn; auto.
Qed.

Lemma fromHexChar_hexDigit z : 0 <= z < 16 → fromHexChar (hexDigit z) = Some z.
Proof.
  intros Hz.
  assert (Forall (λ z, fromHexChar (hexDigit z) = Some z) (seqZ 0 16)) as HF
    by (repeat (constructor; [reflexivity|]); constructor).
  apply (proj1 (List.Forall_forall _ _) HF), list_elem_of_In, elem_of_seqZ. lia.
Qed.

Lemma Hex2Bytes_Bytes2Hex d : Hex2Bytes (Bytes2Hex d) = d.
Proof.
  induction d as [|b d IH]; [done|]. cbn [Bytes2Hex Hex2Bytes].
  pose proof (b2z_range b) as Hb.
  rewrite !fromHexChar_hexDigit by (split; [apply Z.div_pos || apply Z.mod_pos_bound; lia |
    apply Z.div_lt_upper_bound || apply Z.mod_pos_bound; lia]).
  rewrite IH. f_equal. replace (b2z b / 16 * 16 + b2z b mod 16) with (b2z b); [apply z2b_b2z|].
  pose proof (Z.div_mod (b2z b) 16). lia.
Qed.

Lemma SetBytes_TrimLeftZeroes s : SetBytes (TrimLeftZeroes s) = SetBytes s.
Proof.
  induction s as [|b s IH]; [done|]. cbn [TrimLeftZeroes].
  case_bool_decide as E; [|done]. subst b. rewrite IH, SetBytes_cons.
  change (b2z Byte.x00) with 0. lia.
Qed.

Lemma LeftPad_TrimLeft s : LeftPadBytes (TrimLeftZeroes s) (length s) = s.
Proof.
  apply SetBytes_inj.
  - unfold LeftPadBytes. assert (length (TrimLeftZeroes s) <= length s)%nat.
    { induction s as [|b s IH]; cbn [TrimLeftZeroes length]; [lia|].
      case_bool_decide; cbn [length]; lia. }
    case_decide; [lia|]. rewrite length_app, length_replicate. lia.
  - unfold LeftPadBytes. case_decide; rewrite ?SetBytes_zero_prefix; apply SetBytes_TrimLeftZeroes.
Qed.
