(* ===== verification/Rlp.v ===== *)
(** * RLP encoding and decoding

    - Section [Encode]: the integer and header encoders of [rlp/encode.go]
      ([putint], [intsize], [headsize], [puthead]) and the [encBuffer] of
      [rlp/encbuffer.go], which collects the string data and the list headers
      apart and merges them at the end; [write_item] drives it the way the
      generated encoders and the slice writer do.
    - Section [Decode]: the splitting functions of [rlp/raw.go] and the iterator
      of [rlp/iterator.go].
    - [enc] is the recursive definition of the encoding (the specification);
      the theorems show that the buffer produces it and that the splitting
      functions invert it and accept nothing else. *)
From Stdlib Require Import ZArith Lia.
From Stdlib Require Strings.Byte.
From stdpp Require Import base tactics decidable list numbers.
From S2P Require Import Prelude.

(** ** Encoding *)

(** [bits.Len64]. *)
Definition Len64 (i : Z) : Z := if decide (i <= 0) then 0 else Z.log2 i + 1.

Definition intsize (i : Z) : nat :=
  if decide (i = 0) then 1%nat else Z.to_nat ((Len64 i + 7) / 8).

Definition headsize (size : Z) : nat :=
  if decide (size < 56) then 1%nat else (1 + intsize size)%nat.

(** [byte(i >> k)]. *)
Definition byte_at (i k : Z) : byte := z2b (Z.shiftr i k).

(** [putint]: the bytes written to the front of the buffer. *)
Definition putint (i : Z) : bytes :=
  if decide (i < 2 ^ 8) then [byte_at i 0]
  else if decide (i < 2 ^ 16) then [byte_at i 8; byte_at i 0]
  else if decide (i < 2 ^ 24) then [byte_at i 16; byte_at i 8; byte_at i 0]
  else if decide (i < 2 ^ 32) then [byte_at i 24; byte_at i 16; byte_at i 8; byte_at i 0]
  else if decide (i < 2 ^ 40) then
    [byte_at i 32; byte_at i 24; byte_at i 16; byte_at i 8; byte_at i 0]
  else if decide (i < 2 ^ 48) then
    [byte_at i 40; byte_at i 32; byte_at i 24; byte_at i 16; byte_at i 8; byte_at i 0]
  else if decide (i < 2 ^ 56) then
    [byte_at i 48; byte_at i 40; byte_at i 32; byte_at i 24; byte_at i 16; byte_at i 8; byte_at i 0]
  else
    [byte_at i 56; byte_at i 48; byte_at i 40; byte_at i 32; byte_at i 24; byte_at i 16; byte_at i 8; byte_at i 0].

(** [puthead(buf, smalltag, largetag, size)]: the bytes of the header. *)
Definition puthead (smalltag largetag size : Z) : bytes :=
  if decide (size < 56) then [z2b (smalltag + size)]
  else let s := putint size in z2b (largetag + Z.of_nat (length s)) :: s.

Record listhead : Type := Listhead {
  lh_offset : nat;  (** index of this header in the string data *)
  lh_size : nat     (** total size of the encoded data, list headers included *)
}.

Record encBuffer : Type := EncBuffer {
  eb_str : bytes;             (** string data, everything except list headers *)
  eb_lheads : list listhead;  (** all list headers *)
  eb_lhsize : nat             (** sum of the sizes of the encoded list headers *)
}.

Definition reset : encBuffer := EncBuffer [] [] 0.

Definition eb_size (buf : encBuffer) : nat := length (eb_str buf) + eb_lhsize buf.

Definition head_encode (h : listhead) : bytes := puthead 0xC0 0xF7 (Z.of_nat (lh_size h)).

(** The loop of [copyTo] / [writeTo] from string position [strpos] on. *)
Fixpoint copyTo (str : bytes) (strpos : nat) (heads : list listhead) : bytes :=
  match heads with
  | [] => drop strpos str
  | h :: heads =>
      let piece := take (lh_offset h - strpos) (drop strpos str) in
      piece ++ head_encode h ++ copyTo str (strpos + length piece) heads
  end.

Definition makeBytes (buf : encBuffer) : bytes := copyTo (eb_str buf) 0 (eb_lheads buf).

(** [buf.str = append(buf.str, b...)]: [Write] of [encBuffer]. *)
Definition eb_Write (b : bytes) (buf : encBuffer) : encBuffer :=
  EncBuffer (eb_str buf ++ b) (eb_lheads buf) (eb_lhsize buf).

Definition writeBool (b : bool) (buf : encBuffer) : encBuffer :=
  if b then eb_Write [Byte.x01] buf else eb_Write [Byte.x80] buf.

Definition writeUint64 (i : Z) (buf : encBuffer) : encBuffer :=
  if decide (i = 0) then eb_Write [Byte.x80] buf
  else if decide (i < 128) then eb_Write [z2b i] buf
  else let s := putint i in eb_Write (z2b (0x80 + Z.of_nat (length s)) :: s) buf.

Definition encodeStringHeader (size : Z) (buf : encBuffer) : encBuffer :=
  if decide (size < 56) then eb_Write [z2b (0x80 + size)] buf
  else let s := putint size in eb_Write (z2b (0xB7 + Z.of_nat (length s)) :: s) buf.

Definition writeBytes (b : bytes) (buf : encBuffer) : encBuffer :=
  match b with
  | [b0] => if decide (b2z b0 <= 0x7F) then eb_Write [b0] buf
            else eb_Write b (encodeStringHeader (Z.of_nat (length b)) buf)
  | _ => eb_Write b (encodeStringHeader (Z.of_nat (length b)) buf)
  end.

(** [math.ReadBits]: the 64-bit words of the integer, least significant first,
    written backwards into a zeroed buffer of [n] bytes. [i] is the number of
    bytes not yet written and [acc] the bytes written so far. *)
Fixpoint ReadBits_word (j : nat) (d : Z) (i : nat) (acc : bytes) : nat * bytes :=
  match j, i with
  | S j, S i => ReadBits_word j (Z.shiftr d 8) i (z2b d :: acc)
  | _, _ => (i, acc)
  end.

(** [bigint.Bits()]: [k] words of the absolute value. *)
Fixpoint Bits (k : nat) (z : Z) : list Z :=
  match k with
  | O => []
  | S k => z mod two64 :: Bits k (z / two64)
  end.

Definition word_count (z : Z) : nat := Z.to_nat ((Len64 z + 63) / 64).

Definition ReadBits (z : Z) (n : nat) : bytes :=
  let '(i, acc) := foldl (λ '(i, acc) d, ReadBits_word 8 d i acc) (n, [])
                     (Bits (word_count (Z.abs z)) (Z.abs z)) in
  replicate i Byte.x00 ++ acc.

Definition writeBigInt (i : Z) (buf : encBuffer) : encBuffer :=
  let bitlen := Len64 (Z.abs i) in
  if decide (bitlen <= 64) then writeUint64 (u64 (Z.abs i)) buf
  else
    let length := Z.to_nat (Z.shiftr (Z.land (bitlen + 7) (-8)) 3) in
    eb_Write (ReadBits i length) (encodeStringHeader (Z.of_nat length) buf).

(** [list] returns the index of the new header; [listEnd] is only called with an
    index that [list] returned. *)
Definition eb_list (buf : encBuffer) : encBuffer * nat :=
  (EncBuffer (eb_str buf) (eb_lheads buf ++ [Listhead (length (eb_str buf)) (eb_lhsize buf)]) (eb_lhsize buf),
   length (eb_lheads buf)).

Definition listEnd (index : nat) (buf : encBuffer) : encBuffer :=
  match eb_lheads buf !! index with
  | None => buf
  | Some lh =>
      let size := (eb_size buf - lh_offset lh - lh_size lh)%nat in
      EncBuffer (eb_str buf) (<[index := Listhead (lh_offset lh) size]> (eb_lheads buf))
        (if decide (size < 56)%nat then eb_lhsize buf + 1
         else eb_lhsize buf + (1 + intsize (Z.of_nat size)))%nat
  end.

(** Values as the encoders see them: byte strings and lists. *)
Inductive item : Type :=
| Str (b : bytes)
| Lst (l : list item).

(** The writer of a value: [writeBytes] for a string; [list], the elements in
    order and [listEnd] for a list. *)
Fixpoint write_item (it : item) (buf : encBuffer) {struct it} : encBuffer :=
  match it with
  | Str b => writeBytes b buf
  | Lst l =>
      let '(buf, index) := eb_list buf in
      let fix go (l : list item) (buf : encBuffer) : encBuffer :=
        match l with
        | [] => buf
        | x :: l => go l (write_item x buf)
        end in
      listEnd index (go l buf)
  end.

(** [EncodeToBytes] of a value. *)
Definition EncodeToBytes (it : item) : bytes := makeBytes (write_item it reset).

(** ** The encoding, recursively *)

Definition enc_str (b : bytes) : bytes :=
  match b with
  | [b0] => if decide (b2z b0 <= 0x7F) then b else puthead 0x80 0xB7 (Z.of_nat (length b)) ++ b
  | _ => puthead 0x80 0xB7 (Z.of_nat (length b)) ++ b
  end.

Definition enc_list (content : bytes) : bytes :=
  puthead 0xC0 0xF7 (Z.of_nat (length content)) ++ content.

Fixpoint enc (it : item) : bytes :=
  match it with
  | Str b => enc_str b
  | Lst l =>
      enc_list ((fix go (l : list item) : bytes :=
                   match l with [] => [] | x :: l => enc x ++ go l end) l)
  end.

Definition enc_seq (l : list item) : bytes := mjoin (enc <$> l).

Example enc_dog : EncodeToBytes (Lst [Str (z2b <$> [0x63; 0x61; 0x74]); Lst []; Str [Byte.x0f]]) =
  z2b <$> [0xc6; 0x83; 0x63; 0x61; 0x74; 0xc0; 0x0f].
Proof. vm_compute. reflexivity. Qed.

Example write_big : eb_str (writeBigInt (2 ^ 72 + 5) reset) = z2b <$> [0x8a; 1; 0; 0; 0; 0; 0; 0; 0; 0; 5].
Proof. vm_compute. reflexivity. Qed.

(** ** Lemmas on the integer encoders *)

Lemma intsize_byte_len i : 0 < i → intsize i = byte_len i.
Proof.
  intros Hi. unfold intsize, byte_len, Len64. rewrite !decide_False by lia. f_equal.
  replace (Z.log2 i + 1 + 7) with (Z.log2 i + 1 * 8) by lia. apply Z.div_add. lia.
Qed.

Lemma be_bytes_cons k z : be_bytes (S k) z = z2b (z / 256 ^ Z.of_nat k) :: be_bytes k z.
Proof.
  apply SetBytes_inj; [cbn [length]; by rewrite !length_be_bytes|].
  rewrite SetBytes_cons, length_be_bytes, b2z_z2b, !SetBytes_be_bytes.
  rewrite Nat2Z.inj_succ, Z.pow_succ_r, (Z.mul_comm 256) by lia.
  pose proof (pow256_pos (Z.of_nat k)). rewrite Z.rem_mul_r by lia. lia.
Qed.

Lemma byte_at_be k z : byte_at z (8 * Z.of_nat k) = z2b (z / 256 ^ Z.of_nat k).
Proof.
  unfold byte_at. rewrite Z.shiftr_div_pow2 by lia. rewrite Z.pow_mul_r by lia. done.
Qed.

Lemma byte_len_bounds k z :
  256 ^ Z.of_nat k <= z < 256 ^ Z.of_nat (S k) → byte_len z = S k.
Proof.
  intros [Hlo Hhi]. pose proof (pow256_pos (Z.of_nat k)).
  pose proof (byte_len_least z (S k) ltac:(lia)).
  pose proof (byte_len_spec z ltac:(lia)) as Hs.
  destruct (decide (byte_len z <= k)%nat); [|lia].
  assert (256 ^ Z.of_nat (byte_len z) <= 256 ^ Z.of_nat k) by (apply Z.pow_le_mono_r; lia). lia.
Qed.

(** The switch of [putint] writes the minimal big-endian bytes. *)
Lemma putint_spec i : 0 <= i < two64 → putint i = be_bytes (intsize i) i.
Proof.
  intros Hi. rewrite two64_val in Hi. destruct (decide (i = 0)) as [->|Hz]; [reflexivity|].
  rewrite intsize_byte_len by lia. unfold putint.
  repeat case_decide;
    match goal with |- ?l = _ =>
       let k := eval cbv in (pred (length l)) in
       let lo := eval vm_compute in (256 ^ Z.of_nat k) in
       let hi := eval vm_compute in (256 ^ Z.of_nat (S k)) in
       rewrite (byte_len_bounds k) by
         (change (256 ^ Z.of_nat k) with lo; change (256 ^ Z.of_nat (S k)) with hi; lia)
    end;
    rewrite !be_bytes_cons, <-!byte_at_be; reflexivity.
Qed.

Lemma length_putint i : 0 <= i < two64 → length (putint i) = intsize i.
Proof. intros. by rewrite putint_spec, length_be_bytes. Qed.

Lemma intsize_range i : 0 <= i < two64 → (1 <= intsize i <= 8)%nat.
Proof.
  intros Hi. destruct (decide (i = 0)) as [->|]; [vm_compute; lia|].
  rewrite intsize_byte_len by lia. split; [|by apply byte_len_least].
  pose proof (byte_len_spec i ltac:(lia)) as H. destruct (byte_len i); [|lia].
  change (256 ^ Z.of_nat 0) with 1 in H. lia.
Qed.

Lemma SetBytes_putint i : 0 <= i < two64 → SetBytes (putint i) = i.
Proof.
  intros Hi. rewrite putint_spec, SetBytes_be_bytes by done. apply Z.mod_small.
  split; [lia|]. destruct (decide (i = 0)) as [->|]; [cbn; lia|].
  rewrite intsize_byte_len by lia. apply byte_len_spec. lia.
Qed.

Lemma length_puthead st lt size :
  0 <= size < two64 → length (puthead st lt size) = headsize size.
Proof.
  intros. unfold puthead, headsize. case_decide; [done|]. cbn [length].
  by rewrite length_putint.
Qed.

(** ** The buffer produces the encoding *)

(** Concatenation of buffers: offsets of the second shift by the string data of
    the first. *)
Definition shift_head (k : nat) (h : listhead) : listhead := Listhead (k + lh_offset h) (lh_size h).

Definition eb_app (b1 b2 : encBuffer) : encBuffer :=
  EncBuffer (eb_str b1 ++ eb_str b2)
    (eb_lheads b1 ++ (shift_head (length (eb_str b1)) <$> eb_lheads b2))
    (eb_lhsize b1 + eb_lhsize b2).

Lemma encBuffer_ext b1 b2 :
  eb_str b1 = eb_str b2 → eb_lheads b1 = eb_lheads b2 → eb_lhsize b1 = eb_lhsize b2 → b1 = b2.
Proof. destruct b1, b2; cbn; congruence. Qed.

Lemma shift_head_0 (l : list listhead) : shift_head 0 <$> l = l.
Proof. induction l as [|[] l IH]; cbn; [done|]. f_equal. exact IH. Qed.

Lemma eb_app_reset_l b : eb_app reset b = b.
Proof. apply encBuffer_ext; cbn; [done | apply shift_head_0 | done]. Qed.

Lemma eb_app_reset_r b : eb_app b reset = b.
Proof. apply encBuffer_ext; cbn; [apply app_nil_r | apply app_nil_r | lia]. Qed.

Lemma eb_app_assoc b1 b2 b3 : eb_app (eb_app b1 b2) b3 = eb_app b1 (eb_app b2 b3).
Proof.
  apply encBuffer_ext; cbn; [by rewrite app_assoc | | lia].
  rewrite fmap_app, app_assoc, length_app. f_equal. rewrite <-list_fmap_compose.
  apply list_fmap_ext. intros i [] _. unfold shift_head. cbn. f_equal. lia.
Qed.

Lemma eb_Write_app b buf : eb_Write b buf = eb_app buf (eb_Write b reset).
Proof. apply encBuffer_ext; cbn; rewrite ?app_nil_r; [done | done | lia]. Qed.

Lemma encodeStringHeader_puthead size buf :
  encodeStringHeader size buf = eb_Write (puthead 0x80 0xB7 size) buf.
Proof. unfold encodeStringHeader, puthead. by case_decide. Qed.

Lemma eb_Write_Write b1 b2 buf : eb_Write b2 (eb_Write b1 buf) = eb_Write (b1 ++ b2) buf.
Proof. unfold eb_Write. cbn. by rewrite app_assoc. Qed.

Lemma writeBytes_enc b buf : writeBytes b buf = eb_Write (enc_str b) buf.
Proof.
  destruct b as [|b0 [|b1 b]]; cbn [writeBytes enc_str];
    rewrite ?encodeStringHeader_puthead, ?eb_Write_Write; try done.
  by case_decide.
Qed.

Fixpoint write_items (l : list item) (buf : encBuffer) : encBuffer :=
  match l with
  | [] => buf
  | x :: l => write_items l (write_item x buf)
  end.

Lemma write_item_Lst l buf :
  write_item (Lst l) buf =
    listEnd (length (eb_lheads buf)) (write_items l (fst (eb_list buf))).
Proof. reflexivity. Qed.

Lemma enc_Lst l : enc (Lst l) = enc_list (enc_seq l).
Proof.
  cbn [enc]. f_equal. unfold enc_seq.
  induction l as [|x l IH]; [done|]. cbn. by rewrite IH.
Qed.

Lemma enc_seq_cons x l : enc_seq (x :: l) = enc x ++ enc_seq l.
Proof. done. Qed.

(** Induction over values. *)
Lemma item_ind' (P : item → Prop) :
  (∀ b, P (Str b)) → (∀ l, Forall P l → P (Lst l)) → ∀ it, P it.
Proof.
  intros HS HL. fix IH 1. intros [b|l]; [apply HS|]. apply HL.
  induction l as [|x l IHl]; constructor; auto.
Qed.

(** Closing a list touches only its own header. *)
Lemma listEnd_frame content buf :
  listEnd (length (eb_lheads buf)) (eb_app (fst (eb_list buf)) content) =
    eb_app buf (listEnd 0 (eb_app (fst (eb_list reset)) content)).
Proof.
  destruct content as [s hs k]. unfold listEnd, eb_list, eb_size. cbn.
  rewrite lookup_app_l by (rewrite length_app; cbn; lia).
  rewrite list_lookup_middle by done. cbn.
  rewrite <-app_assoc. cbn [app]. rewrite insert_app_r_alt, Nat.sub_diag by done. cbn.
  replace (length (eb_str buf ++ s) + (eb_lhsize buf + k) - length (eb_str buf) - eb_lhsize buf)%nat
    with (length s + k)%nat by (rewrite length_app; lia).
  replace (length s + k - 0 - 0)%nat with (length s + k)%nat by lia.
  apply encBuffer_ext; cbn; [done | | case_decide; lia].
  f_equal. f_equal; [unfold shift_head; cbn; f_equal; lia|].
  rewrite shift_head_0. done.
Qed.

(** Writing a value appends the buffer of that value alone. *)
Lemma write_item_frame it : ∀ buf, write_item it buf = eb_app buf (write_item it reset).
Proof.
  induction it as [b|l IHl] using item_ind'; intros buf.
  { cbn [write_item]. rewrite !writeBytes_enc. apply eb_Write_app. }
  assert (∀ b, write_items l b = eb_app b (write_items l reset)) as Hl.
  { induction IHl as [|x l Hx IHl IH]; intros b; cbn [write_items]; [by rewrite eb_app_reset_r|].
    rewrite IH, Hx, eb_app_assoc, <-IH. done. }
  rewrite !write_item_Lst. rewrite Hl, (Hl (fst (eb_list reset))). apply listEnd_frame.
Qed.

Lemma write_items_frame l buf : write_items l buf = eb_app buf (write_items l reset).
Proof.
  revert buf. induction l as [|x l IH]; intros buf; cbn [write_items]; [by rewrite eb_app_reset_r|].
  rewrite IH, write_item_frame, eb_app_assoc, <-IH. done.
Qed.

(** Offsets of the list headers are increasing and within the string data. *)
Fixpoint heads_ok (strpos len : nat) (heads : list listhead) : Prop :=
  match heads with
  | [] => (strpos <= len)%nat
  | h :: heads => (strpos <= lh_offset h)%nat ∧ heads_ok (lh_offset h) len heads
  end.

Lemma heads_ok_le p len heads : heads_ok p len heads → (p <= len)%nat.
Proof. revert p; induction heads as [|h heads IH]; cbn; intros p; [done|]. intros [? H%IH]. lia. Qed.

Lemma heads_ok_shift k p len heads :
  heads_ok p len heads → heads_ok (k + p) (k + len) (shift_head k <$> heads).
Proof.
  revert p. induction heads as [|h heads IH]; intros p; cbn; [lia|].
  intros [? H]. split; [lia | by apply IH].
Qed.

Lemma heads_ok_weaken p p' len heads : (p' <= p)%nat → heads_ok p len heads → heads_ok p' len heads.
Proof. intros Hp. destruct heads as [|h heads]; cbn; [lia|]. intros [? H]. split; [lia | done]. Qed.

Lemma heads_ok_app p l1 l2 hs1 hs2 :
  heads_ok p l1 hs1 → heads_ok 0 l2 hs2 →
  heads_ok p (l1 + l2) (hs1 ++ (shift_head l1 <$> hs2)).
Proof.
  revert p. induction hs1 as [|h hs1 IH]; intros p; cbn [heads_ok app].
  - intros Hp H%(heads_ok_shift l1). eapply heads_ok_weaken, H. lia.
  - intros [? H] H2. split; [done | by apply IH].
Qed.

Lemma copyTo_shift s1 s2 q hs :
  copyTo (s1 ++ s2) (length s1 + q) (shift_head (length s1) <$> hs) = copyTo s2 q hs.
Proof.
  revert q. induction hs as [|h hs IH]; intros q; cbn; rewrite drop_app_add; [done|].
  replace (length s1 + lh_offset h - (length s1 + q))%nat with (lh_offset h - q)%nat by lia.
  rewrite <-Nat.add_assoc, IH. done.
Qed.

Lemma copyTo_app s1 s2 p hs1 hs2 :
  heads_ok p (length s1) hs1 →
  copyTo (s1 ++ s2) p (hs1 ++ (shift_head (length s1) <$> hs2)) = copyTo s1 p hs1 ++ copyTo s2 0 hs2.
Proof.
  revert p. induction hs1 as [|h hs1 IH]; intros p; cbn [heads_ok app copyTo].
  - intros Hp. destruct hs2 as [|h2 hs2]; cbn [fmap list_fmap copyTo].
    + rewrite drop_0, drop_app_le by done. done.
    + rewrite drop_app_le by done. cbn [shift_head lh_offset].
      rewrite take_app_ge by (rewrite length_drop; lia).
      rewrite length_drop, drop_0, Nat.sub_0_r.
      replace (length s1 + lh_offset h2 - p - (length s1 - p))%nat with (lh_offset h2) by lia.
      rewrite <-!app_assoc. do 3 f_equal.
      rewrite length_app, length_drop.
      replace (p + (length s1 - p + length (take (lh_offset h2) s2)))%nat
        with (length s1 + (0 + length (take (lh_offset h2) s2)))%nat by lia.
      apply copyTo_shift.
  - intros [Hp H]. pose proof (heads_ok_le _ _ _ H).
    rewrite drop_app_le by lia. rewrite take_app_le by (rewrite length_drop; lia).
    rewrite <-!app_assoc. do 2 f_equal. rewrite length_take, length_drop.
    replace (p + (lh_offset h - p) `min` (length s1 - p))%nat with (lh_offset h) by lia.
    by apply IH.
Qed.

(** What a closed buffer stands for: well-placed headers, the output bytes, and
    the size field that agrees with them. *)
Definition represents (buf : encBuffer) (out : bytes) : Prop :=
  heads_ok 0 (length (eb_str buf)) (eb_lheads buf) ∧ makeBytes buf = out ∧
  eb_size buf = length out.

Lemma represents_reset : represents reset [].
Proof. split; cbn; [lia | done]. Qed.

Lemma represents_Write b : represents (eb_Write b reset) b.
Proof. unfold represents, makeBytes, eb_size; cbn. rewrite drop_0. split; [lia | split; [done | lia]]. Qed.

Lemma represents_app b1 b2 o1 o2 :
  represents b1 o1 → represents b2 o2 → represents (eb_app b1 b2) (o1 ++ o2).
Proof.
  intros (H1 & M1 & S1) (H2 & M2 & S2). unfold represents, makeBytes, eb_size in *. cbn.
  rewrite copyTo_app, M1, M2 by done. rewrite !length_app.
  split; [by apply heads_ok_app | split; [done | lia]].
Qed.

Lemma represents_list content out :
  represents content out → Z.of_nat (length out) < two64 →
  represents (listEnd 0 (eb_app (fst (eb_list reset)) content)) (enc_list out).
Proof.
  destruct content as [s hs k]. intros (H & M & Sz) Hlen. unfold represents, makeBytes, eb_size in *.
  cbn in *. rewrite shift_head_0, Nat.sub_0_r, Nat.sub_0_r, Sz.
  assert (length (enc_list out) = headsize (Z.of_nat (length out)) + length out)%nat as HL.
  { unfold enc_list. rewrite length_app, length_puthead by lia. done. }
  split; [split; [lia | done]|]. rewrite drop_0. cbn. split.
  - unfold enc_list. rewrite !take_0. cbn [app length]. by rewrite M.
  - rewrite HL. unfold headsize. destruct (decide (Z.of_nat (length out) < 56)).
    + rewrite decide_True by lia. lia.
    + rewrite decide_False by lia. lia.
Qed.

Lemma length_enc_seq_le x l : x ∈ l → (length (enc x) <= length (enc_seq l))%nat.
Proof.
  induction l as [|y l IH]; [by intros ?%elem_of_nil|].
  rewrite enc_seq_cons, length_app, elem_of_cons. intros [->|H%IH]; lia.
Qed.

Lemma write_item_represents it :
  Z.of_nat (length (enc it)) < two64 → represents (write_item it reset) (enc it).
Proof.
  induction it as [b|l IHl] using item_ind'; intros Hlen.
  { cbn [write_item enc]. rewrite writeBytes_enc. apply represents_Write. }
  rewrite enc_Lst in Hlen |- *. rewrite write_item_Lst. cbn [eb_lheads reset length].
  assert (Z.of_nat (length (enc_seq l)) < two64) as Hseq.
  { unfold enc_list in Hlen. rewrite length_app in Hlen. lia. }
  rewrite write_items_frame. apply represents_list; [|done]. clear Hlen.
  induction IHl as [|x l Hx IHl IH]; [apply represents_reset|].
  rewrite enc_seq_cons, length_app in Hseq. cbn [write_items].
  rewrite write_items_frame, enc_seq_cons. apply represents_app; [apply Hx; lia | apply IH; lia].
Qed.

(** for every value whose encoding is addressable (less than 2^64 bytes) the
    encoder buffer, which stores the string data and the list headers separately
    and patches the header sizes in [listEnd], outputs exactly the recursive RLP
    encoding of the value. *)
Theorem EncodeToBytes_spec it :
  Z.of_nat (length (enc it)) < two64 → EncodeToBytes it = enc it.
Proof. intros H. by destruct (write_item_represents it H) as (_ & ? & _). Qed.

Lemma EncodeToBytes_spec_witness :
  let it := Lst [Str [Byte.x01]; Lst [Str (replicate 60 Byte.xff); Lst []]; Str []] in
  EncodeToBytes it = enc it ∧ length (EncodeToBytes it) = 69%nat.
Proof. cbv zeta. split; [apply EncodeToBytes_spec; vm_compute; reflexivity | vm_compute; reflexivity]. Defined.

(** ** Decoding *)

Inductive Kind : Type := KByte | KString | KList.

Inductive rlp_error : Type :=
| ErrUnexpectedEOF | ErrCanonSize | ErrValueTooLarge | ErrExpectedString
| ErrExpectedList | ErrCanonInt | errUintOverflow | ErrNegativeBigInt
| ErrTypeInfo.  (** the type is not serializable or has an invalid tag *)

#[export] Instance Kind_eq_dec : EqDecision Kind.
Proof. solve_decision. Defined.

(** [uint64(b[0])<<8(n-1) | ... | uint64(b[n-1])]. *)
Fixpoint or_bytes (b : bytes) : Z :=
  match b with
  | [] => 0
  | b0 :: b => Z.lor (Z.shiftl (b2z b0) (8 * Z.of_nat (length b))) (or_bytes b)
  end.

Definition readSize (b : bytes) (slen : nat) : res rlp_error Z :=
  if decide (length b < slen)%nat then Err ErrUnexpectedEOF
  else
    let s := if decide (1 <= slen <= 8)%nat then or_bytes (take slen b) else 0 in
    if decide (s < 56) then Err ErrCanonSize
    else match b with
         | b0 :: _ => if decide (b2z b0 = 0) then Err ErrCanonSize else Ok s
         | [] => Panic
         end.

(** The switch of [readKind] on the first byte. *)
Definition readTag (tag : byte) (rest : bytes) : res rlp_error (Kind * Z * Z) :=
  let b := b2z tag in
  if decide (b < 0x80) then Ok (KByte, 0, 1)
  else if decide (b < 0xB8) then
    let contentsize := b - 0x80 in
    match rest with
    | b1 :: _ => if decide (contentsize = 1 ∧ b2z b1 < 128) then Err ErrCanonSize
                 else Ok (KString, 1, contentsize)
    | [] => Ok (KString, 1, contentsize)
    end
  else if decide (b < 0xC0) then
    contentsize ← readSize rest (Z.to_nat (b - 0xB7));
    Ok (KString, b - 0xB7 + 1, contentsize)
  else if decide (b < 0xF8) then Ok (KList, 1, b - 0xC0)
  else
    contentsize ← readSize rest (Z.to_nat (b - 0xF7));
    Ok (KList, b - 0xF7 + 1, contentsize).

(** Kind, tag size and content size of the first value of [buf]. *)
Definition readKind (buf : bytes) : res rlp_error (Kind * Z * Z) :=
  match buf with
  | [] => Err ErrUnexpectedEOF
  | tag :: rest =>
      '(k, tagsize, contentsize) ← readTag tag rest;
      if decide (u64 (Z.of_nat (length buf) - tagsize) < contentsize) then Err ErrValueTooLarge
      else Ok (k, tagsize, contentsize)
  end.

(** [Split]: kind, content and rest. *)
Definition Split (b : bytes) : res rlp_error (Kind * bytes * bytes) :=
  '(k, ts, cs) ← readKind b;
  let ts := Z.to_nat ts in let cs := Z.to_nat cs in
  Ok (k, take cs (drop ts b), drop (ts + cs) b).

Definition SplitString (b : bytes) : res rlp_error (bytes * bytes) :=
  '(k, content, rest) ← Split b;
  if decide (k = KList) then Err ErrExpectedString else Ok (content, rest).

(** The switch of [SplitUint64] on the content. *)
Definition uint_content (content : bytes) : res rlp_error Z :=
  match content with
  | [] => Ok 0
  | [c0] => if decide (b2z c0 = 0) then Err ErrCanonInt else Ok (b2z c0)
  | _ =>
      if decide (8 < length content)%nat then Err errUintOverflow
      else match readSize content (length content) with
           | Ok x => Ok x
           | _ => Err ErrCanonInt
           end
  end.

Definition SplitUint64 (b : bytes) : res rlp_error (Z * bytes) :=
  '(content, rest) ← SplitString b;
  x ← uint_content content;
  Ok (x, rest).

Definition SplitList (b : bytes) : res rlp_error (bytes * bytes) :=
  '(k, content, rest) ← Split b;
  if decide (k = KList) then Ok (content, rest) else Err ErrExpectedList.

(** The loops of [CountValues] and [SplitListValues]: every value takes at
    least one byte, so [length b] iterations are enough. *)
Fixpoint CountValues_loop (fuel : nat) (b : bytes) (i : Z) : res () (Z * option rlp_error) :=
  match b with
  | [] => Ok (i, None)
  | _ =>
      match fuel with
      | O => Panic
      | S fuel =>
          match readKind b with
          | Ok (_, tagsize, size) => CountValues_loop fuel (drop (Z.to_nat (tagsize + size)) b) (i + 1)
          | Err e => Ok (i + 1, Some e)
          | Panic => Panic
          end
      end
  end.

(** The count and the error, if any. *)
Definition CountValues (b : bytes) : res () (Z * option rlp_error) := CountValues_loop (length b) b 0.

Fixpoint SplitValues_loop (fuel : nat) (b : bytes) (elements : list bytes) : res rlp_error (list bytes) :=
  match b with
  | [] => Ok elements
  | _ =>
      match fuel with
      | O => Panic
      | S fuel =>
          '(_, tagsize, size) ← readKind b;
          let k := Z.to_nat (tagsize + size) in
          SplitValues_loop fuel (drop k b) (elements ++ [take k b])
      end
  end.

Definition SplitListValues (b : bytes) : res rlp_error (list bytes) :=
  '(b, _) ← SplitList b;
  match CountValues b with
  | Ok (_, None) => SplitValues_loop (length b) b []
  | Ok (_, Some e) => Err e
  | _ => Panic
  end.

(** [MergeListValues]: raw elements inside one list header. *)
Definition MergeListValues (elems : list bytes) : bytes :=
  let '(w, offset) := eb_list reset in
  makeBytes (listEnd offset (foldl (λ w elem, eb_Write elem w) w elems)).

Definition AppendUint64 (b : bytes) (i : Z) : bytes :=
  if decide (i = 0) then b ++ [Byte.x80]
  else if decide (i < 128) then b ++ [z2b i]
  else if decide (i < 2 ^ 8) then b ++ [Byte.x81; byte_at i 0]
  else if decide (i < 2 ^ 16) then b ++ [Byte.x82; byte_at i 8; byte_at i 0]
  else if decide (i < 2 ^ 24) then b ++ [Byte.x83; byte_at i 16; byte_at i 8; byte_at i 0]
  else if decide (i < 2 ^ 32) then
    b ++ [Byte.x84; byte_at i 24; byte_at i 16; byte_at i 8; byte_at i 0]
  else if decide (i < 2 ^ 40) then
    b ++ [Byte.x85; byte_at i 32; byte_at i 24; byte_at i 16; byte_at i 8; byte_at i 0]
  else if decide (i < 2 ^ 48) then
    b ++ [Byte.x86; byte_at i 40; byte_at i 32; byte_at i 24; byte_at i 16; byte_at i 8; byte_at i 0]
  else if decide (i < 2 ^ 56) then
    b ++ [Byte.x87; byte_at i 48; byte_at i 40; byte_at i 32; byte_at i 24; byte_at i 16; byte_at i 8; byte_at i 0]
  else
    b ++ [Byte.x88; byte_at i 56; byte_at i 48; byte_at i 40; byte_at i 32; byte_at i 24; byte_at i 16; byte_at i 8; byte_at i 0].

(** Sizes announced before encoding. *)
Definition BytesSize (b : bytes) : Z :=
  match b with
  | [] => 1
  | [b0] => if decide (b2z b0 <= 0x7f) then 1 else 2
  | _ => Z.of_nat (headsize (Z.of_nat (length b)) + length b)
  end.

Definition ListSize (contentSize : Z) : Z := u64 (Z.of_nat (headsize contentSize) + contentSize).

Definition IntSize (x : Z) : Z := if decide (x < 0x80) then 1 else 1 + Z.of_nat (intsize x).

(** The iterator of [rlp/iterator.go]. *)
Record Iterator : Type := MkIterator {
  it_data : bytes;
  it_next : bytes;
  it_offset : Z;
  it_err : option rlp_error
}.

Definition newIterator (data : bytes) (initialOffset : Z) : Iterator :=
  MkIterator data [] initialOffset None.

Definition NewListIterator (data : bytes) : res rlp_error Iterator :=
  '(k, t, c) ← readKind data;
  if decide (k = KList)
  then Ok (newIterator (take (Z.to_nat c) (drop (Z.to_nat t) data)) t)
  else Err ErrExpectedList.

Definition Next (it : Iterator) : Iterator * bool :=
  match it_data it with
  | [] => (it, false)
  | _ =>
      match readKind (it_data it) with
      | Ok (_, t, c) =>
          let k := Z.to_nat (t + c) in
          (MkIterator (drop k (it_data it)) (take k (it_data it)) (it_offset it + (t + c)) None, true)
      | Err e => (MkIterator [] [] (it_offset it) (Some e), true)
      | Panic => (it, false)
      end
  end.

(** [Count]: the error of [CountValues] is dropped. *)
Definition Count (it : Iterator) : res () Z := fst <$> CountValues (it_data it).

Definition Offset (it : Iterator) : Z := it_offset it - Z.of_nat (length (it_next it)).

(** ** The splitting functions invert the encoding *)

Lemma lor_shiftl_add a k b : 0 <= k → 0 <= b < 2 ^ k → Z.lor (Z.shiftl a k) b = a * 2 ^ k + b.
Proof.
  intros Hk Hb. rewrite <-Z.shiftl_mul_pow2 by done.
  assert (Z.land (Z.shiftl a k) b = 0) as E.
  { apply Z.bits_inj'. intros i Hi. rewrite Z.land_spec, Z.bits_0.
    destruct (decide (i < k)) as [Hlt|Hge].
    - by rewrite Z.shiftl_spec_low.
    - destruct (decide (b = 0)) as [->|]; [by rewrite Z.bits_0, andb_false_r|].
      rewrite (Z.bits_above_log2 b i), andb_false_r; [done | lia |].
      apply Z.log2_lt_pow2; [lia|]. eapply Z.lt_le_trans; [apply Hb|].
      apply Z.pow_le_mono_r; lia. }
  rewrite <-Z.lxor_lor by done. symmetry. by apply Z.add_nocarry_lxor.
Qed.

Lemma or_bytes_SetBytes b : or_bytes b = SetBytes b.
Proof.
  induction b as [|b0 b IH]; [done|]. cbn [or_bytes]. rewrite IH, SetBytes_cons.
  assert (2 ^ (8 * Z.of_nat (length b)) = 256 ^ Z.of_nat (length b)) as E
    by (rewrite Z.pow_mul_r by lia; done).
  rewrite lor_shiftl_add, E; [done | lia |]. rewrite E. apply SetBytes_range.
Qed.

(** A minimal representation starts with a non-zero byte, and conversely. *)
Lemma be_bytes_head k z :
  256 ^ Z.of_nat k <= z < 256 ^ Z.of_nat (S k) →
  ∃ b0 bs, be_bytes (S k) z = b0 :: bs ∧ b2z b0 ≠ 0.
Proof.
  intros [Hlo Hhi]. rewrite be_bytes_cons. eexists _, _. split; [done|]. rewrite b2z_z2b.
  pose proof (pow256_pos (Z.of_nat k) ltac:(lia)).
  rewrite Nat2Z.inj_succ, Z.pow_succ_r in Hhi by lia.
  rewrite Z.mod_small.
  - assert (1 <= z / 256 ^ Z.of_nat k); [|lia]. apply Z.div_le_lower_bound; lia.
  - split; [apply Z.div_pos; lia | apply Z.div_lt_upper_bound; lia].
Qed.

Lemma SetBytes_head_lower b0 bs : b2z b0 ≠ 0 → 256 ^ Z.of_nat (length bs) <= SetBytes (b0 :: bs).
Proof.
  intros H. rewrite SetBytes_cons. pose proof (b2z_range b0). pose proof (SetBytes_range bs).
  pose proof (pow256_pos (Z.of_nat (length bs))). nia.
Qed.

Lemma putint_head i : 0 < i < two64 → ∃ b0 bs, putint i = b0 :: bs ∧ b2z b0 ≠ 0.
Proof.
  intros Hi. rewrite putint_spec, intsize_byte_len by lia.
  pose proof (byte_len_spec i ltac:(lia)) as Hs.
  destruct (byte_len i) as [|k] eqn:E; [change (256 ^ Z.of_nat 0) with 1 in Hs; lia|].
  apply be_bytes_head. split; [|done].
  destruct (decide (256 ^ Z.of_nat k <= i)); [done|].
  pose proof (byte_len_least i k). lia.
Qed.

Lemma putint_canonical b0 bs :
  b2z b0 ≠ 0 → (length (b0 :: bs) <= 8)%nat →
  0 < SetBytes (b0 :: bs) < two64 ∧ putint (SetBytes (b0 :: bs)) = b0 :: bs.
Proof.
  intros H0 Hlen. pose proof (SetBytes_head_lower b0 bs H0) as Hlo.
  pose proof (SetBytes_range (b0 :: bs)) as Hhi.
  pose proof (pow256_pos (Z.of_nat (length bs)) ltac:(lia)).
  assert (0 < SetBytes (b0 :: bs) < two64) as Hr.
  { split; [lia|]. eapply Z.lt_le_trans; [apply Hhi|]. change two64 with (256 ^ 8).
    apply Z.pow_le_mono_r; lia. }
  split; [done|]. rewrite putint_spec, intsize_byte_len by lia.
  rewrite (byte_len_bounds (length bs)); [apply (be_bytes_SetBytes (b0 :: bs))|].
  cbn [length] in *. lia.
Qed.

Lemma readSize_ok s rest :
  56 <= s < two64 → readSize (putint s ++ rest) (length (putint s)) = Ok s.
Proof.
  intros Hs. unfold readSize. rewrite decide_False by (rewrite length_app; lia).
  pose proof (intsize_range s ltac:(lia)). rewrite <-length_putint in H by lia.
  rewrite !(decide_True (P := (1 <= length (putint s) <= 8)%nat)) by lia.
  rewrite take_app_length, or_bytes_SetBytes, SetBytes_putint by lia.
  rewrite decide_False by lia. destruct (putint_head s ltac:(lia)) as (b0 & bs & -> & H0). cbn.
  by rewrite decide_False.
Qed.

Lemma readSize_inv b slen s :
  (1 <= slen <= 8)%nat → readSize b slen = Ok s →
  56 <= s < two64 ∧ ∃ rest, b = putint s ++ rest ∧ length (putint s) = slen.
Proof.
  intros Hlen. unfold readSize. case_decide as Hb; [done|].
  rewrite !(decide_True (P := (1 <= slen <= 8)%nat)) by done.
  rewrite or_bytes_SetBytes. case_decide as Hs; [done|].
  destruct b as [|b0 b]; [done|]. case_decide as H0; [done|]. intros [= <-].
  destruct slen as [|slen]; [lia|]. cbn [firstn] in *. cbn [length] in Hb.
  assert (length (b0 :: take slen b) = S slen) as HL by (cbn [length]; rewrite length_take; lia).
  destruct (putint_canonical b0 (take slen b) H0) as [Hr Hp]; [lia|].
  split; [lia|]. exists (drop slen b). rewrite Hp, HL. split; [|done].
  cbn [app]. by rewrite take_drop.
Qed.

(** Which contents a kind may carry, and the canonical bytes of a value. *)
Definition small_single (c : bytes) : Prop :=
  match c with [x] => b2z x < 128 | _ => False end.

Definition canon (k : Kind) (c : bytes) : Prop :=
  match k with
  | KByte => small_single c
  | KString => ¬ small_single c
  | KList => True
  end.

Definition raw_enc (k : Kind) (c : bytes) : bytes :=
  match k with
  | KByte => c
  | KString => puthead 0x80 0xB7 (Z.of_nat (length c)) ++ c
  | KList => enc_list c
  end.

Definition tag_size (k : Kind) (c : bytes) : Z :=
  match k with KByte => 0 | _ => Z.of_nat (headsize (Z.of_nat (length c))) end.

Lemma b2z_tag t : 0 <= t < 256 → b2z (z2b t) = t.
Proof. intros. rewrite b2z_z2b. by apply Z.mod_small. Qed.

Ltac kind_branch := repeat (rewrite decide_False by lia); rewrite ?decide_True by lia.

(** The tag switch on the header of a string or list. *)
Lemma readTag_str c rest tag tail :
  ¬ small_single c → Z.of_nat (length c) < two64 →
  puthead 0x80 0xB7 (Z.of_nat (length c)) = tag :: tail →
  readTag tag (tail ++ c ++ rest) =
    Ok (KString, Z.of_nat (headsize (Z.of_nat (length c))), Z.of_nat (length c)).
Proof.
  intros Hc Hlen. unfold puthead, headsize. case_decide as H56.
  - intros [= <- <-]. unfold readTag. rewrite b2z_tag by lia. cbn [app].
    rewrite decide_False, decide_True by lia.
    replace (128 + Z.of_nat (length c) - 128) with (Z.of_nat (length c)) by lia.
    destruct c as [|x [|y c]]; cbn [app]; [|by rewrite decide_False by (cbn in *; lia)|].
    + destruct rest; [done|]. by rewrite decide_False by (cbn; lia).
    + by rewrite decide_False by (cbn [length]; lia).
  - intros [= <- <-]. pose proof (intsize_range (Z.of_nat (length c)) ltac:(lia)) as Hi.
    rewrite <-length_putint in Hi |- * by lia. unfold readTag. rewrite b2z_tag by lia.
    rewrite !(decide_False (P := _ < _)) by lia. rewrite decide_True by lia.
    replace (Z.to_nat (183 + Z.of_nat (length (putint (Z.of_nat (length c)))) - 183))
      with (length (putint (Z.of_nat (length c)))) by lia.
    rewrite readSize_ok by lia. cbn. do 3 f_equal. lia.
Qed.

Lemma readTag_list c rest tag tail :
  Z.of_nat (length c) < two64 →
  puthead 0xC0 0xF7 (Z.of_nat (length c)) = tag :: tail →
  readTag tag (tail ++ c ++ rest) =
    Ok (KList, Z.of_nat (headsize (Z.of_nat (length c))), Z.of_nat (length c)).
Proof.
  intros Hlen. unfold puthead, headsize. case_decide as H56.
  - intros [= <- <-]. unfold readTag. rewrite b2z_tag by lia.
    rewrite !(decide_False (P := _ < _)) by lia. rewrite decide_True by lia.
    do 2 f_equal. lia.
  - intros [= <- <-]. pose proof (intsize_range (Z.of_nat (length c)) ltac:(lia)) as Hi.
    rewrite <-length_putint in Hi |- * by lia. unfold readTag. rewrite b2z_tag by lia.
    rewrite !(decide_False (P := _ < _)) by lia.
    replace (Z.to_nat (247 + Z.of_nat (length (putint (Z.of_nat (length c)))) - 247))
      with (length (putint (Z.of_nat (length c)))) by lia.
    rewrite readSize_ok by lia. cbn. do 3 f_equal. lia.
Qed.

Lemma puthead_nonempty st lt size : ∃ tag tail, puthead st lt size = tag :: tail.
Proof. unfold puthead. case_decide; eauto. Qed.

Lemma length_raw_enc k c :
  canon k c → Z.of_nat (length c) < two64 →
  Z.of_nat (length (raw_enc k c)) = tag_size k c + Z.of_nat (length c).
Proof.
  intros Hc Hn. destruct k; cbn; unfold enc_list; rewrite ?length_app, ?length_puthead by lia; lia.
Qed.

Lemma readKind_raw k c rest :
  canon k c → Z.of_nat (length (raw_enc k c ++ rest)) < two64 →
  readKind (raw_enc k c ++ rest) = Ok (k, tag_size k c, Z.of_nat (length c)).
Proof.
  intros Hc Hlen. pose proof Hlen as Hfit. rewrite length_app in Hfit.
  assert (Z.of_nat (length c) < two64) as Hn.
  { destruct k; cbn in Hfit; unfold enc_list in Hfit; rewrite ?length_app in Hfit; lia. }
  pose proof (length_raw_enc k c Hc Hn) as HL.
  assert (∃ tag tail, raw_enc k c ++ rest = tag :: tail ∧
    readTag tag tail = Ok (k, tag_size k c, Z.of_nat (length c))) as (tag & tail & E & Htag).
  { destruct k; cbn [raw_enc tag_size] in *.
    - destruct c as [|x [|]]; try done. exists x, rest. split; [done|].
      unfold readTag. by rewrite decide_True.
    - destruct (puthead_nonempty 0x80 0xB7 (Z.of_nat (length c))) as (tag & tail & E).
      exists tag, (tail ++ c ++ rest). rewrite E, <-app_assoc. split; [done|]. by apply readTag_str.
    - unfold enc_list. destruct (puthead_nonempty 0xC0 0xF7 (Z.of_nat (length c))) as (tag & tail & E).
      exists tag, (tail ++ c ++ rest). rewrite E, <-app_assoc. split; [done|]. by apply readTag_list. }
  rewrite E in Hlen |- *. unfold readKind. rewrite Htag. cbn [mbind res_bind].
  rewrite decide_False; [done|]. rewrite <-E, length_app.
  assert (0 <= tag_size k c) by (destruct k; cbn; lia).
  rewrite u64_small; unfold is_u64; lia.
Qed.

Lemma take_length_exact (m : nat) (l : bytes) : (m <= length l)%nat → length (take m l) = m.
Proof. intros. rewrite length_take. lia. Qed.

(** A content of the announced size, behind a long header. *)
Lemma long_content st lt s (r : bytes) :
  56 <= s → s <= Z.of_nat (length r) →
  ∃ c rest, r = c ++ rest ∧ Z.of_nat (length c) = s ∧
    puthead st lt (Z.of_nat (length c)) = z2b (lt + Z.of_nat (length (putint s))) :: putint s.
Proof.
  intros Hs Hr. exists (take (Z.to_nat s) r), (drop (Z.to_nat s) r).
  rewrite take_length_exact, Z2Nat.id by lia. rewrite take_drop.
  split; [done|]. split; [done|]. unfold puthead. by rewrite decide_False by lia.
Qed.

Lemma readKind_inv b k ts cs :
  Z.of_nat (length b) < two64 → readKind b = Ok (k, ts, cs) →
  ∃ c rest, canon k c ∧ b = raw_enc k c ++ rest ∧ ts = tag_size k c ∧ cs = Z.of_nat (length c).
Proof.
  intros Hlen. destruct b as [|tag r]; [done|]. unfold readKind.
  destruct (readTag tag r) as [[[k' ts'] cs']| |] eqn:Et; cbn [mbind res_bind]; try done.
  case_decide as Hfit; [done|]. intros [= -> -> ->]. cbn [length] in *.
  pose proof (b2z_range tag) as Hb. unfold readTag in Et.
  destruct (decide (b2z tag < 0x80)) as [H1|H1];
    [|destruct (decide (b2z tag < 0xB8)) as [H2|H2];
      [|destruct (decide (b2z tag < 0xC0)) as [H3|H3]; [|destruct (decide (b2z tag < 0xF8)) as [H4|H4]]]].
  - injection Et as <- <- <-. exists [tag], r. cbn. split; [lia | done].
  - assert (k = KString ∧ ts = 1 ∧ cs = b2z tag - 128 ∧
      (b2z tag - 128 = 1 → match r with b1 :: _ => ¬ b2z b1 < 128 | [] => True end)) as (-> & -> & -> & Hc).
    { destruct r as [|b1 r]; [by injection Et as <- <- <-|].
      case_decide; [done|]. injection Et as <- <- <-. repeat split; lia. }
    clear Et. rewrite u64_small in Hfit by (unfold is_u64; lia).
    exists (take (Z.to_nat (b2z tag - 128)) r), (drop (Z.to_nat (b2z tag - 128)) r).
    assert (length (take (Z.to_nat (b2z tag - 128)) r) = Z.to_nat (b2z tag - 128)) as HL
      by (apply take_length_exact; lia).
    cbn [raw_enc tag_size]. unfold puthead, headsize. rewrite HL, Z2Nat.id by lia.
    rewrite !decide_True by lia. cbn [app]. rewrite take_drop.
    replace (128 + (b2z tag - 128)) with (b2z tag) by lia. rewrite z2b_b2z.
    split; [|done]. cbn [canon small_single].
    destruct (take _ r) as [|x [|y l]] eqn:E; try (intros []; fail).
    cbn [length] in HL. destruct r as [|b1 r]; [by rewrite take_nil in E|].
    destruct (Z.to_nat (b2z tag - 128)) as [|m] eqn:Em; [done|]. injection E as -> _.
    apply Hc. lia.
  - destruct (readSize r _) as [s| |] eqn:Er; cbn in Et; try done. injection Et as <- <- <-.
    apply readSize_inv in Er as (Hs & r' & -> & HL); [|lia].
    rewrite length_app in Hfit. rewrite u64_small in Hfit by (unfold is_u64; rewrite length_app in Hlen; lia).
    destruct (long_content 0x80 0xB7 s r') as (c & rest & -> & Hc & Hh); [lia | lia |].
    exists c, rest. cbn [raw_enc tag_size canon]. rewrite Hh. unfold headsize. rewrite Hc.
    rewrite decide_False, <-length_putint, HL by lia.
    replace (183 + Z.of_nat (Z.to_nat (b2z tag - 183))) with (b2z tag) by lia. rewrite z2b_b2z.
    split; [destruct c as [|? [|]]; cbn in *; lia|]. split; [by rewrite <-app_assoc|].
    split; lia.
  - injection Et as <- <- <-. rewrite u64_small in Hfit by (unfold is_u64; lia).
    exists (take (Z.to_nat (b2z tag - 192)) r), (drop (Z.to_nat (b2z tag - 192)) r).
    cbn [raw_enc tag_size]. unfold enc_list, puthead, headsize.
    rewrite take_length_exact, Z2Nat.id by lia. rewrite !decide_True by lia. cbn [app]. rewrite take_drop.
    replace (192 + (b2z tag - 192)) with (b2z tag) by lia. by rewrite z2b_b2z.
  - destruct (readSize r _) as [s| |] eqn:Er; cbn in Et; try done. injection Et as <- <- <-.
    apply readSize_inv in Er as (Hs & r' & -> & HL); [|lia].
    rewrite length_app in Hfit. rewrite u64_small in Hfit by (unfold is_u64; rewrite length_app in Hlen; lia).
    destruct (long_content 0xC0 0xF7 s r') as (c & rest & -> & Hc & Hh); [lia | lia |].
    exists c, rest. cbn [raw_enc tag_size canon]. unfold enc_list. rewrite Hh. unfold headsize. rewrite Hc.
    rewrite decide_False, <-length_putint, HL by lia.
    replace (247 + Z.of_nat (Z.to_nat (b2z tag - 247))) with (b2z tag) by lia. rewrite z2b_b2z.
    split; [done|]. split; [by rewrite <-app_assoc|]. split; lia.
Qed.

Lemma Split_raw k c rest :
  canon k c → Z.of_nat (length (raw_enc k c ++ rest)) < two64 →
  Split (raw_enc k c ++ rest) = Ok (k, c, rest).
Proof.
  intros Hc Hlen. unfold Split. rewrite readKind_raw by done. cbn [mbind res_bind].
  assert (Z.of_nat (length c) < two64) as Hn.
  { rewrite length_app in Hlen. destruct k; cbn in Hlen; unfold enc_list in Hlen;
      rewrite ?length_app in Hlen; lia. }
  pose proof (length_raw_enc k c Hc Hn) as HL. rewrite Nat2Z.id.
  assert (∃ h, raw_enc k c = h ++ c ∧ Z.to_nat (tag_size k c) = length h) as (h & E & ->).
  { assert (∃ h, raw_enc k c = h ++ c) as [h E]
      by (destruct k; [by exists [] | by eexists | by eexists]).
    exists h. split; [done|]. rewrite E, length_app in HL. lia. }
  rewrite E, <-app_assoc, drop_app_length, take_app_length.
  rewrite app_assoc, <-length_app, drop_app_length. done.
Qed.

Lemma Split_inv b k c rest :
  Z.of_nat (length b) < two64 → Split b = Ok (k, c, rest) → canon k c ∧ b = raw_enc k c ++ rest.
Proof.
  intros Hlen H. assert (∃ ts cs, readKind b = Ok (k, ts, cs)) as (ts & cs & Hk).
  { unfold Split in H. destruct (readKind b) as [[[k' ts] cs]| |]; try done.
    cbn in H. injection H as <- _ _. by eexists _, _. }
  apply readKind_inv in Hk as (c' & rest' & Hc & -> & _ & _); [|done].
  rewrite Split_raw in H by done. by injection H as -> ->.
Qed.

(** [Split] accepts exactly the canonical encodings: it returns kind [k],
    content [c] and remainder [rest] if and only if the input is the canonical
    RLP header for [c] (shortest size, no header for a single byte below 0x80),
    then [c], then [rest]. *)
Theorem Split_iff b k c rest :
  Z.of_nat (length b) < two64 →
  Split b = Ok (k, c, rest) ↔ canon k c ∧ b = raw_enc k c ++ rest.
Proof.
  intros Hlen. split; [by apply Split_inv|]. intros [Hc ->]. by apply Split_raw.
Qed.

Lemma Split_iff_witness :
  Split (z2b <$> [0xb8; 0x38] ++ replicate 56 1 ++ [7]) =
    Ok (KString, z2b <$> replicate 56 1, z2b <$> [7]) ∧
  Split (z2b <$> [0x81; 0x05]) = Err ErrCanonSize.
Proof.
  split; [|vm_compute; reflexivity].
  apply Split_iff; [vm_compute; reflexivity | split; [vm_compute; tauto | vm_compute; reflexivity]].
Defined.

(** ** Lists of values *)

Definition item_kind (it : item) : Kind :=
  match it with
  | Str [x] => if decide (b2z x < 128) then KByte else KString
  | Str _ => KString
  | Lst _ => KList
  end.

Definition item_content (it : item) : bytes :=
  match it with Str b => b | Lst l => enc_seq l end.

Lemma enc_raw it : enc it = raw_enc (item_kind it) (item_content it).
Proof.
  destruct it as [b|l]; [|apply enc_Lst]. destruct b as [|x [|y b]]; cbn; try done.
  destruct (decide (b2z x < 128)).
  - by rewrite decide_True by lia.
  - by rewrite decide_False by lia.
Qed.

Lemma item_canon it : canon (item_kind it) (item_content it).
Proof.
  destruct it as [b|l]; [|done]. destruct b as [|x [|y b]]; cbn; try tauto.
  by case_decide.
Qed.

Lemma Split_enc it rest :
  Z.of_nat (length (enc it ++ rest)) < two64 → Split (enc it ++ rest) = Ok (item_kind it, item_content it, rest).
Proof. intros H. rewrite enc_raw in H |- *. apply Split_raw; [apply item_canon | done]. Qed.

Lemma enc_nonempty it : (0 < length (enc it))%nat.
Proof.
  rewrite enc_raw. pose proof (item_canon it) as Hc. destruct (item_kind it); cbn in *.
  - destruct (item_content it) as [|x [|]]; cbn; [done | lia | done].
  - rewrite length_app. destruct (puthead_nonempty 0x80 0xB7 (Z.of_nat (length (item_content it))))
      as (? & ? & ->). cbn. lia.
  - unfold enc_list. rewrite length_app.
    destruct (puthead_nonempty 0xC0 0xF7 (Z.of_nat (length (item_content it)))) as (? & ? & ->). cbn. lia.
Qed.

Lemma readKind_enc it rest :
  Z.of_nat (length (enc it ++ rest)) < two64 →
  ∃ ts cs, readKind (enc it ++ rest) = Ok (item_kind it, ts, cs) ∧
           Z.to_nat (ts + cs) = length (enc it).
Proof.
  intros Hlen. rewrite enc_raw in Hlen |- *. rewrite readKind_raw by (done || apply item_canon).
  eexists _, _. split; [done|]. rewrite <-length_raw_enc; [lia | apply item_canon |].
  rewrite length_app in Hlen. destruct (item_kind it); cbn in Hlen; unfold enc_list in Hlen;
    rewrite ?length_app in Hlen; lia.
Qed.

Lemma app_nonempty {A} (l1 l2 : list A) : (0 < length l1)%nat → ∃ x l, l1 ++ l2 = x :: l.
Proof. destruct l1; cbn; [lia | eauto]. Qed.

Lemma CountValues_loop_enc fuel l i :
  Z.of_nat (length (enc_seq l)) < two64 → (length (enc_seq l) <= fuel)%nat →
  CountValues_loop fuel (enc_seq l) i = Ok (i + Z.of_nat (length l), None).
Proof.
  revert i fuel. induction l as [|x l IH]; intros i fuel Hlen Hf.
  { destruct fuel; cbn; do 2 f_equal; lia. }
  rewrite enc_seq_cons in *. rewrite length_app in *. pose proof (enc_nonempty x).
  destruct fuel as [|fuel]; [lia|].
  destruct (app_nonempty (enc x) (enc_seq l)) as (t & tl & E); [lia|].
  destruct (readKind_enc x (enc_seq l)) as (ts & cs & Hk & Hsz); [rewrite length_app; lia|].
  cbn [CountValues_loop]. rewrite E in Hk |- *. rewrite Hk, Hsz, <-E, drop_app_length.
  rewrite IH by lia. do 2 f_equal. cbn [length]. lia.
Qed.

Lemma SplitValues_loop_enc fuel l acc :
  Z.of_nat (length (enc_seq l)) < two64 → (length (enc_seq l) <= fuel)%nat →
  SplitValues_loop fuel (enc_seq l) acc = Ok (acc ++ (enc <$> l)).
Proof.
  revert acc fuel. induction l as [|x l IH]; intros acc fuel Hlen Hf.
  { destruct fuel; cbn; by rewrite app_nil_r. }
  rewrite enc_seq_cons in *. rewrite length_app in *. pose proof (enc_nonempty x).
  destruct fuel as [|fuel]; [lia|].
  destruct (app_nonempty (enc x) (enc_seq l)) as (t & tl & E); [lia|].
  destruct (readKind_enc x (enc_seq l)) as (ts & cs & Hk & Hsz); [rewrite length_app; lia|].
  cbn [SplitValues_loop]. rewrite E in Hk |- *. rewrite Hk. cbn [mbind res_bind].
  rewrite Hsz, <-E, drop_app_length, take_app_length, IH by lia.
  rewrite <-app_assoc. done.
Qed.

(** for every list of values, [CountValues] counts them in the list content
    and [SplitListValues] returns their encodings in order, whatever bytes follow
    the list; both loops end within the length of the content. *)
Theorem SplitListValues_enc l rest :
  Z.of_nat (length (enc (Lst l) ++ rest)) < two64 →
  CountValues (enc_seq l) = Ok (Z.of_nat (length l), None) ∧
  SplitListValues (enc (Lst l) ++ rest) = Ok (enc <$> l).
Proof.
  intros Hlen. assert (Z.of_nat (length (enc_seq l)) < two64) as Hs.
  { rewrite enc_Lst in Hlen. unfold enc_list in Hlen. rewrite !length_app in Hlen. lia. }
  assert (CountValues (enc_seq l) = Ok (Z.of_nat (length l), None)) as HC.
  { unfold CountValues. by rewrite CountValues_loop_enc. }
  split; [done|]. unfold SplitListValues, SplitList.
  rewrite enc_raw in Hlen |- *. rewrite Split_raw by (done || apply item_canon).
  cbn [mbind res_bind item_kind item_content]. rewrite decide_True by done. cbn [mbind res_bind].
  rewrite HC, SplitValues_loop_enc by done. done.
Qed.

Lemma SplitListValues_enc_witness :
  let l := [Str [Byte.x07]; Lst [Str [Byte.xff]; Lst []]; Str []] in
  CountValues (enc_seq l) = Ok (3, None) ∧ SplitListValues (enc (Lst l) ++ [Byte.x99]) = Ok (enc <$> l).
Proof. cbv zeta. apply SplitListValues_enc. vm_compute. reflexivity. Defined.

(** ** Integers *)

(** The RLP encoding of an unsigned integer: its minimal bytes as a string. *)
Definition enc_uint (i : Z) : bytes := enc_str (big_Bytes i).

Lemma big_Bytes_putint i : 0 < i < two64 → big_Bytes i = putint i.
Proof.
  intros. unfold big_Bytes. rewrite Z.abs_eq, putint_spec, intsize_byte_len by lia. done.
Qed.

Lemma big_Bytes_small i : 0 < i < 256 → big_Bytes i = [z2b i].
Proof.
  intros. rewrite big_Bytes_putint by (rewrite two64_val; lia). unfold putint.
  rewrite decide_True by lia. unfold byte_at. by rewrite Z.shiftr_0_r.
Qed.

Lemma enc_uint_big i :
  128 <= i < two64 → enc_uint i = z2b (0x80 + Z.of_nat (length (putint i))) :: putint i.
Proof.
  intros Hi. unfold enc_uint. rewrite big_Bytes_putint by lia.
  pose proof (intsize_range i ltac:(lia)) as Hr. rewrite <-length_putint in Hr by lia.
  assert (enc_str (putint i) = puthead 0x80 0xB7 (Z.of_nat (length (putint i))) ++ putint i) as ->.
  { destruct (putint i) as [|x [|y l]] eqn:E; try done. cbn. rewrite decide_False; [done|].
    pose proof (SetBytes_putint i ltac:(lia)) as HS. rewrite E in HS. cbn in HS. lia. }
  unfold puthead. by rewrite decide_True by lia.
Qed.

Lemma enc_uint_0 : enc_uint 0 = [Byte.x80].
Proof. reflexivity. Qed.

Lemma enc_uint_small i : 0 < i < 128 → enc_uint i = [z2b i].
Proof.
  intros. unfold enc_uint. rewrite big_Bytes_small by lia. cbn. rewrite decide_True; [done|].
  rewrite b2z_tag; lia.
Qed.

Lemma writeUint64_enc i buf : is_u64 i → writeUint64 i buf = eb_Write (enc_uint i) buf.
Proof.
  intros Hi. unfold is_u64 in Hi. unfold writeUint64.
  case_decide; [by subst|]. case_decide; [by rewrite enc_uint_small by lia|].
  by rewrite enc_uint_big by lia.
Qed.

Lemma AppendUint64_enc b i : is_u64 i → AppendUint64 b i = b ++ enc_uint i.
Proof.
  intros Hi. unfold is_u64 in Hi. unfold AppendUint64.
  case_decide; [by subst|]. case_decide; [by rewrite enc_uint_small by lia|].
  rewrite enc_uint_big by lia. unfold putint. repeat case_decide; reflexivity.
Qed.

Lemma raw_enc_str k c : canon k c → k ≠ KList → raw_enc k c = enc_str c.
Proof.
  destruct k; [| |done]; intros Hc _; destruct c as [|x [|y c]]; cbn in *; try done.
  - by rewrite decide_True by lia.
  - by rewrite decide_False by lia.
Qed.

Lemma str_kind c : ∃ k, canon k c ∧ k ≠ KList ∧ raw_enc k c = enc_str c.
Proof.
  exists (item_kind (Str c)). pose proof (item_canon (Str c)) as Hc. cbn [item_content] in Hc.
  split; [done|]. split.
  - destruct c as [|x [|y c]]; cbn; try done. by case_decide.
  - symmetry. apply (enc_raw (Str c)).
Qed.

Lemma SplitString_iff b c rest :
  Z.of_nat (length b) < two64 → SplitString b = Ok (c, rest) ↔ b = enc_str c ++ rest.
Proof.
  intros Hlen. unfold SplitString. split.
  - destruct (Split b) as [[[k c'] rest']| |] eqn:E; try done. cbn [mbind res_bind].
    case_decide; [done|]. intros [= -> ->]. apply Split_inv in E as [Hc ->]; [|done].
    by rewrite raw_enc_str.
  - intros ->. destruct (str_kind c) as (k & Hc & Hk & E). rewrite <-E in Hlen |- *.
    rewrite Split_raw by done. cbn [mbind res_bind]. by rewrite decide_False.
Qed.

Lemma uint_content_iff c x : uint_content c = Ok x ↔ is_u64 x ∧ c = big_Bytes x.
Proof.
  unfold uint_content. unfold is_u64. split.
  - destruct c as [|c0 [|c1 c]].
    + intros [= <-]. done.
    + case_decide as H0; [done|]. intros [= <-]. pose proof (b2z_range c0).
      rewrite big_Bytes_small, z2b_b2z by lia. rewrite two64_val. split; [lia | done].
    + case_decide as H8; [done|]. set (l := c0 :: c1 :: c) in *.
      destruct (readSize l (length l)) as [s| |] eqn:E; try done. intros [= <-].
      apply readSize_inv in E as (Hs & r & E & HL); [|unfold l in *; cbn [length] in *; lia].
      split; [lia|]. rewrite big_Bytes_putint by lia.
      assert (r = []) as -> by (apply length_zero_iff_nil; rewrite E, length_app in HL; lia).
      by rewrite app_nil_r in E.
  - intros [Hx ->]. destruct (decide (x = 0)) as [->|]; [done|].
    destruct (decide (x < 256)).
    + rewrite big_Bytes_small by lia. rewrite b2z_tag by lia. by rewrite decide_False by lia.
    + rewrite big_Bytes_putint by lia.
      pose proof (intsize_range x ltac:(lia)) as Hr. rewrite <-length_putint in Hr by lia.
      assert (∃ c0 c1 c, putint x = c0 :: c1 :: c) as (c0 & c1 & c & E).
      { pose proof (SetBytes_putint x ltac:(lia)) as HS. pose proof (SetBytes_range (putint x)) as HR.
        destruct (putint x) as [|? [|? ?]]; [cbn in HS; lia | | eauto].
        change (256 ^ _) with 256 in HR. lia. }
      pose proof (readSize_ok x [] ltac:(lia)) as HS. rewrite app_nil_r, E in HS. rewrite E in Hr |- *.
      rewrite decide_False by lia. by rewrite HS.
Qed.

(** [SplitUint64] inverts [AppendUint64] and accepts nothing else: it returns
    [x] and [rest] if and only if [x] is a [uint64] and the input is the encoding
    that [AppendUint64] produces for [x], followed by [rest]. *)
Theorem SplitUint64_iff b x rest :
  Z.of_nat (length b) < two64 →
  SplitUint64 b = Ok (x, rest) ↔ is_u64 x ∧ b = AppendUint64 [] x ++ rest.
Proof.
  intros Hlen. unfold SplitUint64. split.
  - destruct (SplitString b) as [[c rest']| |] eqn:E; try done. cbn [mbind res_bind].
    destruct (uint_content c) as [y| |] eqn:Ec; try done. cbn. intros [= -> ->].
    apply uint_content_iff in Ec as [Hx ->]. apply SplitString_iff in E as ->; [|done].
    split; [done|]. by rewrite AppendUint64_enc.
  - intros [Hx ->]. rewrite AppendUint64_enc in Hlen |- * by done. cbn [app] in *.
    assert (SplitString (enc_uint x ++ rest) = Ok (big_Bytes x, rest)) as ->
      by (by apply SplitString_iff).
    cbn [mbind res_bind]. by rewrite (proj2 (uint_content_iff (big_Bytes x) x)).
Qed.

Lemma SplitUint64_iff_witness :
  SplitUint64 (z2b <$> [0x82; 0x04; 0x00; 0x2a]) = Ok (1024, [Byte.x2a]) ∧
  SplitUint64 (z2b <$> [0x82; 0x00; 0x04]) = Err ErrCanonInt.
Proof.
  split; [|vm_compute; reflexivity].
  apply SplitUint64_iff; [vm_compute; reflexivity|].
  split; [unfold is_u64; rewrite two64_val; lia | vm_compute; reflexivity].
Defined.

(** ** Big integers *)

Lemma be_bytes_add n m z : be_bytes (n + m) z = be_bytes n (z / 256 ^ Z.of_nat m) ++ be_bytes m z.
Proof.
  revert z. induction m as [|m IH]; intros z.
  - rewrite Nat.add_0_r, app_nil_r. by rewrite Z.div_1_r.
  - rewrite Nat.add_succ_r. cbn [be_bytes]. rewrite IH, Nat2Z.inj_succ, Z.pow_succ_r by lia.
    rewrite Z.div_div by (pose proof (pow256_pos (Z.of_nat m)); lia). by rewrite app_assoc.
Qed.

Lemma be_bytes_zero n : be_bytes n 0 = replicate n Byte.x00.
Proof.
  induction n as [|n IH]; [done|]. cbn [be_bytes]. change (0 / 256) with 0. rewrite IH.
  rewrite <-replicate_S_end. done.
Qed.

Lemma be_bytes_mod n z k : Z.of_nat n <= k → be_bytes n (z mod 256 ^ k) = be_bytes n z.
Proof.
  intros Hk. apply SetBytes_inj; [by rewrite !length_be_bytes|]. rewrite !SetBytes_be_bytes.
  replace k with (Z.of_nat n + (k - Z.of_nat n)) by lia. rewrite Z.pow_add_r by lia.
  pose proof (pow256_pos (Z.of_nat n) ltac:(lia)).
  pose proof (pow256_pos (k - Z.of_nat n) ltac:(lia)).
  rewrite Z.rem_mul_r by lia. rewrite Z.mul_comm, Z.mod_add by lia. apply Z.mod_mod. lia.
Qed.

Lemma ReadBits_word_spec j d i acc :
  ReadBits_word j d i acc = ((i - j)%nat, be_bytes (Nat.min j i) d ++ acc).
Proof.
  revert d i acc. induction j as [|j IH]; intros d [|i] acc; cbn [ReadBits_word Nat.min be_bytes app Nat.sub];
    try done.
  rewrite IH. rewrite <-app_assoc. cbn [app]. rewrite Z.shiftr_div_pow2 by lia. done.
Qed.

(** Writing the words backwards is writing the big-endian bytes. *)
Lemma ReadBits_words k z i acc :
  foldl (λ '(i, acc) d, ReadBits_word 8 d i acc) (i, acc) (Bits k z) =
    ((i - 8 * k)%nat, be_bytes (Nat.min (8 * k) i) z ++ acc).
Proof.
  revert z i acc. induction k as [|k IH]; intros z i acc.
  { cbn. by rewrite Nat.sub_0_r. }
  cbn [Bits foldl]. rewrite ReadBits_word_spec, IH. f_equal; [lia|].
  rewrite app_assoc. f_equal. change two64 with (256 ^ 8).
  rewrite be_bytes_mod by lia. destruct (decide (i <= 8)%nat).
  - replace (Nat.min (8 * k) (i - 8)) with 0%nat by lia. cbn [be_bytes app]. f_equal. lia.
  - replace (Nat.min 8 i) with 8%nat by lia.
    replace (Nat.min (8 * S k) i) with (Nat.min (8 * k) (i - 8) + 8)%nat by lia.
    symmetry. apply be_bytes_add.
Qed.

Lemma ReadBits_spec z n : ReadBits z n = be_bytes n (Z.abs z).
Proof.
  unfold ReadBits. rewrite ReadBits_words, app_nil_r. set (k := word_count (Z.abs z)).
  destruct (decide (8 * k <= n)%nat) as [Hle|Hgt].
  - rewrite Nat.min_l by done. replace n with ((n - 8 * k) + 8 * k)%nat at 2 by lia.
    rewrite be_bytes_add. f_equal. rewrite <-be_bytes_zero. f_equal. symmetry. apply Z.div_small.
    split; [lia|]. unfold k, word_count, Len64. destruct (decide (Z.abs z <= 0)) as [H0|H0].
    + pose proof (Z.abs_nonneg z). replace (Z.abs z) with 0 by lia. reflexivity.
    + pose proof (Z.log2_spec (Z.abs z) ltac:(lia)) as [_ Hlt]. pose proof (Z.log2_nonneg (Z.abs z)).
      eapply Z.lt_le_trans; [exact Hlt|]. change 256 with (2 ^ 8). rewrite <-Z.pow_mul_r by lia.
      apply Z.pow_le_mono_r; [lia|].
      pose proof (Z.div_mod (Z.log2 (Z.abs z) + 1 + 63) 64 ltac:(lia)).
      pose proof (Z.mod_pos_bound (Z.log2 (Z.abs z) + 1 + 63) 64 ltac:(lia)). lia.
  - rewrite Nat.min_r by lia. replace (n - 8 * k)%nat with 0%nat by lia. done.
Qed.

(** The length computed with [(bitlen + 7) & -8 >> 3]. *)
Lemma bitlen_bytes z : 0 < z → Z.to_nat (Z.shiftr (Z.land (Len64 z + 7) (-8)) 3) = byte_len z.
Proof.
  intros Hz. rewrite Z.shiftr_land. change (Z.shiftr (-8) 3) with (-1). rewrite Z.land_m1_r.
  rewrite Z.shiftr_div_pow2 by lia. unfold Len64, byte_len. rewrite !decide_False by lia.
  f_equal. change (2 ^ 3) with 8. replace (Z.log2 z + 1 + 7) with (Z.log2 z + 1 * 8) by lia.
  apply Z.div_add. lia.
Qed.

Lemma writeBigInt_enc i buf : 0 <= i → writeBigInt i buf = eb_Write (enc_uint i) buf.
Proof.
  intros Hi. unfold writeBigInt. rewrite Z.abs_eq by done.
  destruct (decide (i < two64)) as [Hlt|Hge].
  - rewrite decide_True.
    + rewrite u64_small by (unfold is_u64; lia). apply writeUint64_enc. unfold is_u64. lia.
    + unfold Len64. case_decide; [lia|]. assert (Z.log2 i < 64); [|lia].
      apply Z.log2_lt_pow2; [lia|]. done.
  - rewrite two64_val in Hge. assert (64 < Len64 i) as HL.
    { unfold Len64. rewrite decide_False by lia. assert (64 <= Z.log2 i); [|lia].
      apply Z.log2_le_pow2; lia. }
    rewrite decide_False by lia. rewrite bitlen_bytes by lia.
    rewrite encodeStringHeader_puthead, eb_Write_Write, ReadBits_spec, Z.abs_eq by done.
    unfold enc_uint, big_Bytes. rewrite Z.abs_eq by done.
    assert (8 < byte_len i)%nat.
    { destruct (decide (byte_len i <= 8)%nat) as [H8|]; [|lia]. exfalso.
      pose proof (byte_len_spec i Hi). assert (256 ^ Z.of_nat (byte_len i) <= 256 ^ 8); [|lia].
      apply Z.pow_le_mono_r; lia. }
    pose proof (length_be_bytes (byte_len i) i) as Hlen.
    destruct (be_bytes (byte_len i) i) as [|x [|y l]] eqn:E; cbn [length] in Hlen; [lia | lia |].
    cbn [enc_str]. do 3 f_equal. cbn [length]. lia.
Qed.

(** ** The encoding is injective *)

Lemma enc_prefix_inj x : ∀ y r1 r2,
  Z.of_nat (length (enc x ++ r1)) < two64 → enc x ++ r1 = enc y ++ r2 → x = y ∧ r1 = r2.
Proof.
  assert (∀ x y r1 r2, Z.of_nat (length (enc x ++ r1)) < two64 → enc x ++ r1 = enc y ++ r2 →
    item_kind x = item_kind y ∧ item_content x = item_content y ∧ r1 = r2) as Hsplit.
  { intros x' y r1 r2 Hlen E. pose proof Hlen as Hlen2. rewrite E in Hlen2.
    rewrite !enc_raw in *. pose proof (Split_raw _ _ _ (item_canon x') Hlen) as H1.
    pose proof (Split_raw _ _ _ (item_canon y) Hlen2) as H2. rewrite E, H2 in H1.
    by injection H1 as -> -> ->. }
  induction x as [b|l IHl] using item_ind'; intros y r1 r2 Hlen E;
    destruct (Hsplit _ _ _ _ Hlen E) as (Hk & Hc & ->); (split; [|done]).
  - destruct y as [b'|l']; [cbn in Hc; by subst|].
    destruct b as [|x [|]]; cbn in Hk; try done. by case_decide.
  - destruct y as [b'|l'].
    { destruct b' as [|x [|]]; cbn in Hk; try done. by case_decide. }
    cbn [item_content] in Hc. f_equal.
    assert (Z.of_nat (length (enc_seq l)) < two64) as Hs.
    { rewrite enc_Lst in Hlen. unfold enc_list in Hlen. rewrite !length_app in Hlen. lia. }
    clear E Hk Hlen. revert l' Hc. induction IHl as [|x l Hx _ IH]; intros [|y l'] Hc.
    + done.
    + rewrite enc_seq_cons in Hc. pose proof (enc_nonempty y). apply (f_equal length) in Hc.
      rewrite length_app in Hc. cbn in Hc. lia.
    + rewrite enc_seq_cons in Hc. pose proof (enc_nonempty x). apply (f_equal length) in Hc.
      rewrite length_app in Hc. cbn in Hc. lia.
    + rewrite !enc_seq_cons in *. destruct (Hx _ _ _ Hs Hc) as [-> Hc'].
      f_equal. apply IH; [rewrite length_app in Hs; lia | done].
Qed.

Lemma enc_inj x y : Z.of_nat (length (enc x)) < two64 → enc x = enc y → x = y.
Proof.
  intros Hlen E. apply (enc_prefix_inj x y [] []); rewrite !app_nil_r; done.
Qed.

(** ** Raw lists *)

Lemma MergeListValues_enc l :
  Z.of_nat (length (enc_seq l)) < two64 → MergeListValues (enc <$> l) = enc (Lst l).
Proof.
  intros Hlen. unfold MergeListValues. rewrite enc_Lst.
  assert (∀ w, foldl (λ w elem, eb_Write elem w) w (enc <$> l) = eb_Write (enc_seq l) w) as Hw.
  { induction l as [|x l IH]; intros w; cbn [fmap list_fmap foldl].
    - unfold eb_Write. cbn. destruct w; cbn. by rewrite app_nil_r.
    - rewrite enc_seq_cons, length_app in Hlen. rewrite IH, eb_Write_Write by lia. done. }
  pose proof (represents_list (eb_Write (enc_seq l) reset) (enc_seq l) (represents_Write _) Hlen)
    as (_ & HM & _).
  change (eb_list reset) with (fst (eb_list reset), 0%nat). cbv beta iota zeta.
  rewrite Hw, eb_Write_app. exact HM.
Qed.
