(* ===== verification/Types.v ===== *)
(** * Block headers and chain configuration

    [core/types/block.go] ([Header], [Hash], [SanityCheck], [BlockNonce]), the
    generated encoder [core/types/gen_header_rlp.go], [rlpHash] of
    [core/types/hashing.go] and the fork predicates of [params/config.go] that
    the consensus rules use. Pointer fields that may be nil are options. *)
From Stdlib Require Import ZArith Lia.
From Stdlib Require Strings.Byte.
From stdpp Require Import base tactics decidable list numbers.
From S2P Require Import Prelude Keccak Common Rlp.

Record Header : Type := MkHeader {
  ParentHash : Hash;
  UncleHash : Hash;
  Coinbase : Address;
  Root : Hash;
  TxHash : Hash;
  ReceiptHash : Hash;
  Bloom : bytes;
  Difficulty : option Z;
  Number : option Z;
  GasLimit : Z;
  GasUsed : Z;
  Time : Z;
  Extra : bytes;
  MixDigest : Hash;
  Nonce : bytes;
  BaseFee : option Z;
  WithdrawalsHash : option Hash;
  BlobGasUsed : option Z;
  ExcessBlobGas : option Z;
  ParentBeaconRoot : option Hash;
  RequestsHash : option Hash;
  SlotNumber : option Z
}.

#[export] Instance Header_eq_dec : EqDecision Header.
Proof. solve_decision. Defined.

(** [x.Uint64()] of a [big.Int] pointer: the low 64 bits of the absolute value;
    a nil pointer is a run-time panic. *)
Definition Uint64 {E} (x : option Z) : res E Z :=
  match x with Some z => Ok (u64 (Z.abs z)) | None => Panic end.

(** [binary.BigEndian.PutUint64] and its inverse on a nonce. *)
Definition EncodeNonce (i : Z) : bytes := be_bytes 8 i.
Definition Nonce_Uint64 (nonce : bytes) : Z := SetBytes nonce.

(** [BitLen] of a [big.Int]. *)
Definition BitLen (z : Z) : Z := Len64 (Z.abs z).

Inductive sanity_error : Type :=
| ErrNumberTooLarge | ErrDifficultyTooLarge | ErrExtraTooLarge | ErrBaseFeeTooLarge.

Definition SanityCheck (h : Header) : option sanity_error :=
  if match Number h with Some n => bool_decide (¬ is_u64 n) | None => false end
  then Some ErrNumberTooLarge
  else if match Difficulty h with Some d => bool_decide (80 < BitLen d) | None => false end
  then Some ErrDifficultyTooLarge
  else if bool_decide (100 * 1024 < Z.of_nat (length (Extra h)))
  then Some ErrExtraTooLarge
  else if match BaseFee h with Some b => bool_decide (256 < BitLen b) | None => false end
  then Some ErrBaseFeeTooLarge
  else None.

(** ** The generated encoder *)

(** A [*big.Int] field: nil is the empty string, negative an error. *)
Definition writeBigIntPtr (x : option Z) (w : encBuffer) : res rlp_error encBuffer :=
  match x with
  | None => Ok (eb_Write [Byte.x80] w)
  | Some z => if decide (z < 0) then Err ErrNegativeBigInt else Ok (writeBigInt z w)
  end.

Definition writeHashPtr (x : option Hash) (w : encBuffer) : encBuffer :=
  match x with None => eb_Write [Byte.x80] w | Some h => writeBytes h w end.

Definition writeUint64Ptr (x : option Z) (w : encBuffer) : encBuffer :=
  match x with None => eb_Write [Byte.x80] w | Some i => writeUint64 i w end.

Definition isSome {A} (o : option A) : bool := match o with Some _ => true | None => false end.

Definition EncodeRLP (obj : Header) : res rlp_error bytes :=
  let '(w, _tmp0) := eb_list reset in
  let w := writeBytes (ParentHash obj) w in
  let w := writeBytes (UncleHash obj) w in
  let w := writeBytes (Coinbase obj) w in
  let w := writeBytes (Root obj) w in
  let w := writeBytes (TxHash obj) w in
  let w := writeBytes (ReceiptHash obj) w in
  let w := writeBytes (Bloom obj) w in
  w ← writeBigIntPtr (Difficulty obj) w;
  w ← writeBigIntPtr (Number obj) w;
  let w := writeUint64 (GasLimit obj) w in
  let w := writeUint64 (GasUsed obj) w in
  let w := writeUint64 (Time obj) w in
  let w := writeBytes (Extra obj) w in
  let w := writeBytes (MixDigest obj) w in
  let w := writeBytes (Nonce obj) w in
  let tmp1 := isSome (BaseFee obj) in
  let tmp2 := isSome (WithdrawalsHash obj) in
  let tmp3 := isSome (BlobGasUsed obj) in
  let tmp4 := isSome (ExcessBlobGas obj) in
  let tmp5 := isSome (ParentBeaconRoot obj) in
  let tmp6 := isSome (RequestsHash obj) in
  let tmp7 := isSome (SlotNumber obj) in
  w ← (if tmp1 || tmp2 || tmp3 || tmp4 || tmp5 || tmp6 || tmp7
       then writeBigIntPtr (BaseFee obj) w else Ok w);
  let w := if tmp2 || tmp3 || tmp4 || tmp5 || tmp6 || tmp7
           then writeHashPtr (WithdrawalsHash obj) w else w in
  let w := if tmp3 || tmp4 || tmp5 || tmp6 || tmp7
           then writeUint64Ptr (BlobGasUsed obj) w else w in
  let w := if tmp4 || tmp5 || tmp6 || tmp7
           then writeUint64Ptr (ExcessBlobGas obj) w else w in
  let w := if tmp5 || tmp6 || tmp7
           then writeHashPtr (ParentBeaconRoot obj) w else w in
  let w := if tmp6 || tmp7
           then writeHashPtr (RequestsHash obj) w else w in
  let w := if tmp7 then writeUint64Ptr (SlotNumber obj) w else w in
  Ok (makeBytes (listEnd _tmp0 w)).

(** [rlpHash]: the error of [rlp.Encode] is dropped, nothing is then hashed. *)
Definition rlpHash (encoded : res rlp_error bytes) : Hash :=
  Keccak256 [match encoded with Ok b => b | _ => [] end].

Definition Header_Hash (h : Header) : Hash := rlpHash (EncodeRLP h).

(** ** Chain configuration *)

Record ChainConfig : Type := MkChainConfig {
  LondonBlock : option Z;
  ShanghaiTime : option Z;
  CancunTime : option Z
}.

Definition isBlockForked (s head : option Z) : bool :=
  match s, head with Some s, Some head => s <=? head | _, _ => false end.

Definition isTimestampForked (s : option Z) (head : Z) : bool :=
  match s with Some s => s <=? head | None => false end.

Definition IsLondon (c : ChainConfig) (num : option Z) : bool := isBlockForked (LondonBlock c) num.
Definition IsShanghai (c : ChainConfig) (num : option Z) (time : Z) : bool :=
  IsLondon c num && isTimestampForked (ShanghaiTime c) time.
Definition IsCancun (c : ChainConfig) (num : option Z) (time : Z) : bool :=
  IsLondon c num && isTimestampForked (CancunTime c) time.

Definition BaseFeeChangeDenominator (c : ChainConfig) : Z := 8.
Definition ElasticityMultiplier (c : ChainConfig) : Z := 2.

Definition GasLimitBoundDivisor : Z := 1024.
Definition MinGasLimit : Z := 5000.
Definition MaxGasLimit : Z := 0x7fffffffffffffff.
Definition InitialBaseFee : Z := 1000000000.

(** ** The encoder writes the RLP list of the fields *)

Definition enc_big (x : option Z) : item := Str (match x with Some z => big_Bytes z | None => [] end).
Definition enc_opt (x : option bytes) : item := Str (match x with Some b => b | None => [] end).
Definition enc_num (i : Z) : item := Str (big_Bytes i).

(** The fifteen mandatory fields. *)
Definition base_items (h : Header) : list item :=
  [Str (ParentHash h); Str (UncleHash h); Str (Coinbase h); Str (Root h); Str (TxHash h);
   Str (ReceiptHash h); Str (Bloom h); enc_big (Difficulty h); enc_big (Number h);
   enc_num (GasLimit h); enc_num (GasUsed h); enc_num (Time h); Str (Extra h);
   Str (MixDigest h); Str (Nonce h)].

(** The optional fields, up to the last one that is present. *)
Definition optional_items (h : Header) : list item :=
  let tmp1 := isSome (BaseFee h) in
  let tmp2 := isSome (WithdrawalsHash h) in
  let tmp3 := isSome (BlobGasUsed h) in
  let tmp4 := isSome (ExcessBlobGas h) in
  let tmp5 := isSome (ParentBeaconRoot h) in
  let tmp6 := isSome (RequestsHash h) in
  let tmp7 := isSome (SlotNumber h) in
  (if tmp1 || tmp2 || tmp3 || tmp4 || tmp5 || tmp6 || tmp7 then [enc_big (BaseFee h)] else []) ++
  (if tmp2 || tmp3 || tmp4 || tmp5 || tmp6 || tmp7 then [enc_opt (WithdrawalsHash h)] else []) ++
  (if tmp3 || tmp4 || tmp5 || tmp6 || tmp7 then [enc_big (BlobGasUsed h)] else []) ++
  (if tmp4 || tmp5 || tmp6 || tmp7 then [enc_big (ExcessBlobGas h)] else []) ++
  (if tmp5 || tmp6 || tmp7 then [enc_opt (ParentBeaconRoot h)] else []) ++
  (if tmp6 || tmp7 then [enc_opt (RequestsHash h)] else []) ++
  (if tmp7 then [enc_big (SlotNumber h)] else []).

(** What the Go types and the decoder guarantee of a header: unsigned 64-bit
    fields in range, big integers not negative. *)
Definition opt_all (P : Z → Prop) (x : option Z) : Prop := match x with Some z => P z | None => True end.

Definition Header_ok (h : Header) : Prop :=
  opt_all (λ z, 0 <= z) (Difficulty h) ∧ opt_all (λ z, 0 <= z) (Number h) ∧
  opt_all (λ z, 0 <= z) (BaseFee h) ∧
  is_u64 (GasLimit h) ∧ is_u64 (GasUsed h) ∧ is_u64 (Time h) ∧
  opt_all is_u64 (BlobGasUsed h) ∧ opt_all is_u64 (ExcessBlobGas h) ∧ opt_all is_u64 (SlotNumber h).

Lemma writeBigIntPtr_enc x w :
  opt_all (λ z, 0 <= z) x → writeBigIntPtr x w = Ok (eb_Write (enc (enc_big x)) w).
Proof.
  destruct x as [z|]; cbn [opt_all writeBigIntPtr]; intros H; [|reflexivity].
  rewrite decide_False by lia. rewrite writeBigInt_enc by done. reflexivity.
Qed.

Lemma writeHashPtr_enc x w : writeHashPtr x w = eb_Write (enc (enc_opt x)) w.
Proof. destruct x as [b|]; [apply writeBytes_enc | reflexivity]. Qed.

Lemma writeUint64Ptr_enc x w :
  opt_all is_u64 x → writeUint64Ptr x w = eb_Write (enc (enc_big x)) w.
Proof. destruct x as [i|]; [apply writeUint64_enc | reflexivity]. Qed.

Lemma eb_Write_seq l1 l2 w : eb_Write (enc_seq l2) (eb_Write (enc_seq l1) w) = eb_Write (enc_seq (l1 ++ l2)) w.
Proof. rewrite eb_Write_Write. unfold enc_seq. by rewrite fmap_app, join_app. Qed.

Lemma eb_Write_if (b : bool) (it : item) (w : encBuffer) :
  (if b then eb_Write (enc it) w else w) = eb_Write (enc_seq (if b then [it] else [])) w.
Proof.
  destruct b; unfold enc_seq, eb_Write; cbn; rewrite ?app_nil_r; [done|]. by destruct w.
Qed.

Lemma eb_Write_if_ok (b : bool) (it : item) (w : encBuffer) :
  (if b then Ok (eb_Write (enc it) w) else Ok w : res rlp_error encBuffer) =
    Ok (eb_Write (enc_seq (if b then [it] else [])) w).
Proof. rewrite <-eb_Write_if. by destruct b. Qed.

Lemma eb_Write_one it w : eb_Write (enc it) w = eb_Write (enc_seq [it]) w.
Proof. unfold enc_seq. cbn. by rewrite app_nil_r. Qed.

(** Writing the items of a list between [list] and [listEnd]. *)
Lemma list_of_items l :
  Z.of_nat (length (enc_seq l)) < two64 →
  makeBytes (listEnd 0 (eb_Write (enc_seq l) (fst (eb_list reset)))) = enc (Lst l).
Proof.
  intros H. rewrite eb_Write_app, enc_Lst.
  by destruct (represents_list _ _ (represents_Write (enc_seq l)) H) as (_ & ? & _).
Qed.

(** the generated encoder of a header succeeds on every header the Go types
    and the decoder admit, and writes the RLP list of its fifteen mandatory fields
    followed by the optional fields up to the last one that is present (an absent
    field before it as the empty string). *)
Theorem EncodeRLP_enc h :
  Header_ok h → Z.of_nat (length (enc_seq (base_items h ++ optional_items h))) < two64 →
  EncodeRLP h = Ok (enc (Lst (base_items h ++ optional_items h))).
Proof.
  intros (HD & HN & HB & HL & HU & HT & HG & HE & HS) Hlen.
  rewrite <-list_of_items by done. unfold EncodeRLP.
  change (eb_list reset) with (fst (eb_list reset), 0%nat). cbv beta iota zeta.
  repeat first [ rewrite writeBytes_enc | rewrite writeBigIntPtr_enc by done
               | rewrite writeUint64_enc by done | progress cbn [mbind res_bind] ].
  rewrite eb_Write_if_ok. cbn [mbind res_bind].
  rewrite !writeHashPtr_enc, !writeUint64Ptr_enc by done. rewrite !eb_Write_if.
  do 3 f_equal. change (enc_str ?b) with (enc (Str b)).
  change (enc_uint ?i) with (enc (enc_num i)).
  rewrite !eb_Write_one, !eb_Write_seq. reflexivity.
Qed.

Definition empty_header : Header :=
  MkHeader Hash0 Hash0 Address0 Hash0 Hash0 Hash0 (replicate 256 Byte.x00) (Some 2) (Some 7)
    8000000 21000 100 (replicate 97 Byte.x00) Hash0 (replicate 8 Byte.x00)
    (Some 7) None None None None (Some Hash0) None.

Lemma EncodeRLP_enc_witness :
  EncodeRLP empty_header = Ok (enc (Lst (base_items empty_header ++ optional_items empty_header))) ∧
  length (optional_items empty_header) = 6%nat.
Proof.
  split; [|vm_compute; reflexivity].
  apply EncodeRLP_enc; [|vm_compute; reflexivity].
  unfold Header_ok, opt_all, is_u64. cbn. rewrite !two64_val. lia.
Defined.
