(* ===== verification/Fees.v ===== *)
(** * Gas limit, base fee and the block gas pool

    [consensus/misc/gaslimit.go], [consensus/misc/eip1559/eip1559.go] and
    [core/gaspool.go]. Arithmetic is kept at the widths of the code: [uint64]
    with wrap-around, the [int64] conversions of [VerifyGaslimit], unbounded
    [big.Int] for the base fee. *)
From Stdlib Require Import ZArith Lia.
From stdpp Require Import base tactics decidable list numbers.
From S2P Require Import Prelude Common Rlp Types.

Inductive fee_error : Type :=
| ErrInvalidGasLimit | ErrGasLimitBelowMin | ErrMissingBaseFee | ErrParentMissingBaseFee
| ErrInvalidBaseFee.

(** ** Gas limit *)

Definition VerifyGaslimit (parentGasLimit headerGasLimit : Z) : res fee_error () :=
  let diff := i64 (i64 parentGasLimit - i64 headerGasLimit) in
  let diff := if decide (diff < 0) then i64 (diff * -1) else diff in
  let limit := parentGasLimit / GasLimitBoundDivisor in
  if decide (limit <= u64 diff) then Err ErrInvalidGasLimit
  else if decide (headerGasLimit < MinGasLimit) then Err ErrGasLimitBelowMin
  else Ok ().

(** ** Base fee *)

(** Panics: a nil [BaseFee] is dereferenced; a zero target is divided by. *)
Definition CalcBaseFee (config : ChainConfig) (parent : Header) : res fee_error Z :=
  if negb (IsLondon config (Number parent)) then Ok InitialBaseFee
  else
    let parentGasTarget := GasLimit parent / ElasticityMultiplier config in
    match BaseFee parent with
    | None => Panic
    | Some fee =>
        if decide (GasUsed parent = parentGasTarget) then Ok fee
        else if decide (parentGasTarget = 0) then Panic
        else if decide (parentGasTarget < GasUsed parent) then
          let num := GasUsed parent - parentGasTarget in
          let num := num * fee in
          let num := num / parentGasTarget in
          let num := num / BaseFeeChangeDenominator config in
          if decide (num < 1) then Ok (fee + 1) else Ok (fee + num)
        else
          let num := parentGasTarget - GasUsed parent in
          let num := num * fee in
          let num := num / parentGasTarget in
          let num := num / BaseFeeChangeDenominator config in
          let baseFee := fee - num in
          if decide (baseFee < 0) then Ok 0 else Ok baseFee
    end.

Definition VerifyEIP1559Header (config : ChainConfig) (parent header : Header) : res fee_error () :=
  let parentGasLimit :=
    if IsLondon config (Number parent) then GasLimit parent
    else u64 (GasLimit parent * ElasticityMultiplier config) in
  _ ← VerifyGaslimit parentGasLimit (GasLimit header);
  match BaseFee header with
  | None => Err ErrMissingBaseFee
  | Some baseFee =>
      if IsLondon config (Number parent) && negb (isSome (BaseFee parent))
      then Err ErrParentMissingBaseFee
      else
        expectedBaseFee ← CalcBaseFee config parent;
        if decide (baseFee = expectedBaseFee) then Ok () else Err ErrInvalidBaseFee
  end.

(** ** The gas pool of a block *)

Record GasPool : Type := MkGasPool {
  remaining : Z;
  initial : Z;
  cumulativeUsed : Z
}.

Inductive gas_error : Type := ErrGasLimitReached | ErrGasLimitOverflow.

Definition NewGasPool (amount : Z) : GasPool := MkGasPool amount amount 0.

Definition SubGas (gp : GasPool) (amount : Z) : res gas_error GasPool :=
  if decide (remaining gp < amount) then Err ErrGasLimitReached
  else Ok (MkGasPool (remaining gp - amount) (initial gp) (cumulativeUsed gp)).

Definition ReturnGas (gp : GasPool) (returned gasUsed : Z) : res gas_error GasPool :=
  if decide (two64 - 1 - returned < remaining gp) then Err ErrGasLimitOverflow
  else Ok (MkGasPool (u64 (remaining gp + returned)) (initial gp) (u64 (cumulativeUsed gp + gasUsed))).

Definition Gas (gp : GasPool) : Z := remaining gp.
Definition CumulativeUsed (gp : GasPool) : Z := cumulativeUsed gp.

Definition Used (gp : GasPool) : res gas_error Z :=
  if decide (initial gp < remaining gp) then Panic else Ok (initial gp - remaining gp).

Definition GasPool_Snapshot (gp : GasPool) : GasPool :=
  MkGasPool (remaining gp) (initial gp) (cumulativeUsed gp).

Definition GasPool_Set (gp other : GasPool) : GasPool :=
  MkGasPool (remaining other) (initial other) (cumulativeUsed other).

(** ** Properties: gas limit *)

Lemma i64_of_u64 z : 0 <= z <= MaxGasLimit → i64 z = z.
Proof. intros H. apply i64_small. unfold MaxGasLimit in H. rewrite two63_val. lia. Qed.

(** for gas limits up to the maximum 2^63-1 that header verification admits,
    the check that converts to [int64] accepts exactly the limits that differ from
    the parent's by less than a 1024th of it and are at least 5000. *)
Theorem VerifyGaslimit_iff p h :
  0 <= p <= MaxGasLimit → 0 <= h <= MaxGasLimit →
  VerifyGaslimit p h = Ok () ↔ Z.abs (p - h) < p / 1024 ∧ 5000 <= h.
Proof.
  intros Hp Hh. unfold VerifyGaslimit, GasLimitBoundDivisor, MinGasLimit.
  rewrite (i64_of_u64 p), (i64_of_u64 h) by done. unfold MaxGasLimit in *.
  assert (u64 (if decide (i64 (p - h) < 0) then i64 (i64 (p - h) * -1) else i64 (p - h))
          = Z.abs (p - h)) as ->.
  { rewrite (i64_small (p - h)) by (rewrite two63_val; lia).
    case_decide; [rewrite (i64_small ((p - h) * -1)) by (rewrite two63_val; lia)|];
      rewrite u64_small by (unfold is_u64; rewrite two64_val; lia); lia. }
  case_decide; [split; [done | lia]|]. case_decide; split; (done || lia).
Qed.

Lemma VerifyGaslimit_iff_witness :
  (VerifyGaslimit 8000000 8007811 = Ok () ↔ Z.abs (8000000 - 8007811) < 8000000 / 1024 ∧ 5000 <= 8007811) ∧
  VerifyGaslimit 8000000 8007811 = Ok () ∧ VerifyGaslimit 8000000 8007812 = Err ErrInvalidGasLimit.
Proof.
  split; [apply VerifyGaslimit_iff; unfold MaxGasLimit; lia | split; reflexivity].
Defined.

(** ** Properties: base fee *)

(** The increment of the busy branch and the decrement of the idle one. *)
Definition fee_delta (fee delta target : Z) : Z := delta * fee / target / 8.

Lemma fee_delta_range fee delta target k :
  0 <= fee → 0 < target → 0 <= k → 0 <= delta <= target + k →
  0 <= fee_delta fee delta target <= (fee + k * fee / target) / 8.
Proof.
  intros Hf Ht Hk Hd. unfold fee_delta. split.
  - apply Z.div_pos; [|lia]. apply Z.div_pos; nia.
  - apply Z.div_le_mono; [lia|].
    replace (fee + k * fee / target) with ((k * fee + fee * target) / target)
      by (rewrite Z.div_add by lia; lia).
    apply Z.div_le_mono; [lia|]. nia.
Qed.

(** C36: the base fee computed from a London parent with gas target [t >= 1] and a
    gas usage within its limit: unchanged at the target; strictly greater above it, by at
    least 1 and by at most the greater of 1 and an eighth (so a fee below 8 can rise by
    more than an eighth; the target of an odd limit rounds down, which adds [fee / t]
    before dividing); not greater below it and never less by more than an eighth, hence
    never negative. *)
Theorem CalcBaseFee_bounds config parent fee :
  IsLondon config (Number parent) = true → BaseFee parent = Some fee → 0 <= fee →
  2 <= GasLimit parent → 0 <= GasUsed parent <= GasLimit parent →
  ∃ fee', CalcBaseFee config parent = Ok fee' ∧
    let t := GasLimit parent / 2 in
    (GasUsed parent = t → fee' = fee) ∧
    (t < GasUsed parent →
       fee < fee' <= fee + Z.max 1 ((fee + GasLimit parent mod 2 * fee / t) / 8)) ∧
    (GasUsed parent < t → fee - fee / 8 <= fee' <= fee) ∧ 0 <= fee'.
Proof.
  intros HL HB Hf Hlim Hu. unfold CalcBaseFee. rewrite HL, HB. cbn [negb].
  unfold ElasticityMultiplier, BaseFeeChangeDenominator.
  set (t := GasLimit parent / 2) in *.
  assert (0 < t) by (apply Z.div_str_pos; lia).
  pose proof (Z.div_mod (GasLimit parent) 2 ltac:(lia)) as Hdm. fold t in Hdm.
  pose proof (Z.mod_pos_bound (GasLimit parent) 2 ltac:(lia)) as Hm.
  assert (fee / 8 <= fee) by (apply Z.div_le_upper_bound; lia).
  destruct (decide (GasUsed parent = t)) as [->|Hne].
  { exists fee. split; [done|]. cbv zeta. repeat split; lia. }
  rewrite decide_False by lia. destruct (decide (t < GasUsed parent)) as [Hgt|Hle].
  - pose proof (fee_delta_range fee (GasUsed parent - t) t (GasLimit parent mod 2)) as Hr.
    unfold fee_delta in Hr. destruct Hr as [Hlo Hhi]; [lia..|].
    case_decide; eexists; (split; [done|]); cbv zeta; repeat split; lia.
  - pose proof (fee_delta_range fee (t - GasUsed parent) t 0) as Hr.
    unfold fee_delta in Hr. destruct Hr as [Hlo Hhi]; [lia..|].
    rewrite Z.mul_0_l, Z.div_0_l, Z.add_0_r in Hhi by lia.
    case_decide; eexists; (split; [done|]); cbv zeta; repeat split; lia.
Qed.

Definition london_parent (fee limit used : Z) : Header :=
  MkHeader Hash0 Hash0 Address0 Hash0 Hash0 Hash0 [] (Some 2) (Some 10)
    limit used 100 [] Hash0 [] (Some fee) None None None None None None.

Lemma CalcBaseFee_bounds_witness :
  let parent := london_parent 1000000000 30000000 30000000 in
  let config := MkChainConfig (Some 0) None None in
  CalcBaseFee config parent = Ok 1125000000 ∧
  ∃ fee', CalcBaseFee config parent = Ok fee' ∧
    (15000000 < GasUsed parent → 1000000000 < fee').
Proof.
  cbv zeta. split; [vm_compute; reflexivity|].
  destruct (CalcBaseFee_bounds (MkChainConfig (Some 0) None None)
    (london_parent 1000000000 30000000 30000000) 1000000000) as (fee' & E & _ & H & _);
    [reflexivity | reflexivity | lia | cbn; lia | cbn; lia |].
  exists fee'. split; [exact E|]. intros Hgt. apply H. exact Hgt.
Defined.

(** ** Properties: the gas pool *)

(** One transaction of a block: buy [limit], then give back what was not used. *)
Record tx_gas : Type := TxGas { tx_limit : Z; tx_used : Z }.

Definition apply_tx (gp : GasPool) (tx : tx_gas) : res gas_error GasPool :=
  gp ← SubGas gp (tx_limit tx);
  ReturnGas gp (tx_limit tx - tx_used tx) (tx_used tx).

Fixpoint apply_txs (gp : GasPool) (txs : list tx_gas) : res gas_error GasPool :=
  match txs with
  | [] => Ok gp
  | tx :: txs => gp ← apply_tx gp tx; apply_txs gp txs
  end.

Definition sum_used (txs : list tx_gas) : Z := foldr (λ tx s, tx_used tx + s) 0 txs.

Definition tx_ok (tx : tx_gas) : Prop := 0 <= tx_used tx <= tx_limit tx ∧ tx_limit tx < two64.

(** Nothing is lost and the pool never exceeds its initial amount. *)
Definition pool_ok (gp : GasPool) : Prop :=
  0 <= remaining gp <= initial gp ∧ initial gp < two64 ∧
  cumulativeUsed gp = initial gp - remaining gp.

Lemma apply_tx_ok gp tx :
  pool_ok gp → tx_ok tx →
  (tx_limit tx <= remaining gp →
     apply_tx gp tx = Ok (MkGasPool (remaining gp - tx_used tx) (initial gp) (cumulativeUsed gp + tx_used tx))) ∧
  (remaining gp < tx_limit tx → apply_tx gp tx = Err ErrGasLimitReached).
Proof.
  intros (Hr & Hi & Hc) [Hu Hl]. unfold apply_tx, SubGas. split; intros H.
  - rewrite decide_False by lia. cbn [mbind res_bind remaining initial cumulativeUsed].
    unfold ReturnGas. cbn [remaining initial cumulativeUsed]. rewrite decide_False by lia.
    rewrite !u64_small by (unfold is_u64; lia). do 2 f_equal; lia.
  - by rewrite decide_True by lia.
Qed.

Lemma pool_ok_step gp tx gp' : pool_ok gp → tx_ok tx → apply_tx gp tx = Ok gp' → 
  pool_ok gp' ∧ initial gp' = initial gp ∧ remaining gp' = remaining gp - tx_used tx.
Proof.
  intros Hgp Htx E. destruct (apply_tx_ok gp tx Hgp Htx) as [H1 H2].
  destruct (decide (tx_limit tx <= remaining gp)) as [Hle|Hgt].
  - rewrite H1 in E by done. injection E as <-. destruct Hgp as (? & ? & ?), Htx as [? ?].
    unfold pool_ok. cbn. lia.
  - by rewrite H2 in E by lia.
Qed.

(** executing transactions against the pool of a block: whenever all of them
    are accepted, the gas the pool reports as used is the sum of the gas they used,
    equals the cumulative counter and never exceeds the block limit, and [Used]
    does not panic; no [uint64] operation of the pool wraps. *)
Theorem gas_pool_accounting amount txs gp :
  is_u64 amount → Forall tx_ok txs → apply_txs (NewGasPool amount) txs = Ok gp →
  Used gp = Ok (sum_used txs) ∧ CumulativeUsed gp = sum_used txs ∧ sum_used txs <= amount.
Proof.
  intros Ha Htxs. unfold is_u64 in Ha.
  assert (∀ gp0, pool_ok gp0 → apply_txs gp0 txs = Ok gp →
    pool_ok gp ∧ initial gp = initial gp0 ∧ remaining gp = remaining gp0 - sum_used txs) as Hrun.
  { clear Ha. induction Htxs as [|tx txs Htx Htxs IH]; intros gp0 H0; cbn [apply_txs sum_used foldr].
    - intros [= <-]. split; [done|]. cbn. lia.
    - destruct (apply_tx gp0 tx) as [gp1| |] eqn:E; try done. cbn [mbind res_bind]. intros H.
      destruct (pool_ok_step _ _ _ H0 Htx E) as (Hok & Hi & Hr).
      destruct (IH gp1 Hok H) as (? & ? & ?). unfold sum_used in *. split; [done|]. lia. }
  intros E. destruct (Hrun (NewGasPool amount)) as ((Hr & Hi & Hc) & Hini & Hrem); [|done|].
  { unfold pool_ok. cbn. lia. }
  cbn in Hini, Hrem. unfold Used, CumulativeUsed. rewrite decide_False by lia.
  split; [f_equal; lia | lia].
Qed.

Lemma gas_pool_accounting_witness :
  ∃ gp, apply_txs (NewGasPool 100000) [TxGas 50000 21000; TxGas 60000 60000] = Ok gp ∧
    Used gp = Ok 81000 ∧ CumulativeUsed gp = 81000.
Proof.
  eexists. split; [vm_compute; reflexivity|].
  destruct (gas_pool_accounting 100000 [TxGas 50000 21000; TxGas 60000 60000]
    (MkGasPool 19000 100000 81000)) as (H1 & H2 & _); [| |vm_compute; reflexivity|].
  - unfold is_u64. rewrite two64_val. lia.
  - repeat constructor; cbn; rewrite ?two64_val; lia.
  - exact (conj H1 H2).
Defined.
