(* ===== verification/Lru.v ===== *)
(** * Least-recently-used caches

    [common/lru/basiclru.go] and [common/lru/lru.go]. The recency list is the
    source's circular doubly-linked list: a heap maps the address of a [listElem]
    to its [next] and [prev] pointers and its key, address 0 is the list's [root],
    and every operation rewrites pointers as the code does; a nil pointer that is
    followed is a run-time panic. The mutex of [lru.Cache] makes every method
    atomic, so [Cache] has the operations of [BasicLRU].

    The specification is an association list, most recently used entry first;
    [Rel] relates the two and every operation refines it. *)
From Stdlib Require Import ZArith Lia.
From stdpp Require Import base tactics decidable countable list numbers gmap fin_maps.
From S2P Require Import Prelude.

#[local] Set Warnings "-clear-no-such-hyp".

Module LRU.

Section lru.
Context {K V : Type} `{Countable K, Inhabited K, Inhabited V}.
Context {E : Type}.

(** ** The doubly-linked list *)

Record listElem : Type := MkElem {
  next : option nat;
  prev : option nat;
  v : K
}.

(** [alloc] is the next unused address. *)
Record dlist : Type := MkList {
  elems : gmap nat listElem;
  alloc : nat
}.

Definition root : nat := 0.

Definition init (l : dlist) : dlist :=
  MkList (<[root := MkElem (Some root) (Some root) inhabitant]> (elems l)) (alloc l).

Definition newList : dlist := init (MkList ∅ 1).

(** Reading through a pointer, and the three field assignments. *)
Definition load (l : dlist) (e : option nat) : res E listElem :=
  match e with
  | Some p => match elems l !! p with Some x => Ok x | None => Panic end
  | None => Panic
  end.

Definition update (f : listElem → listElem) (e : option nat) (l : dlist) : res E dlist :=
  match e with
  | Some p => match elems l !! p with
              | Some x => Ok (MkList (<[p := f x]> (elems l)) (alloc l))
              | None => Panic
              end
  | None => Panic
  end.

Definition set_next (n : option nat) : option nat → dlist → res E dlist :=
  update (λ x, MkElem n (prev x) (v x)).
Definition set_prev (n : option nat) : option nat → dlist → res E dlist :=
  update (λ x, MkElem (next x) n (v x)).
Definition set_v (k : K) : option nat → dlist → res E dlist :=
  update (λ x, MkElem (next x) (prev x) k).

(** [new(listElem)]. *)
Definition newElem (l : dlist) : option nat * dlist :=
  (Some (alloc l), MkList (<[alloc l := MkElem None None inhabitant]> (elems l)) (S (alloc l))).

Definition pushElem (e : option nat) (l : dlist) : res E dlist :=
  l ← set_prev (Some root) e l;
  r ← load l (Some root);
  l ← set_next (next r) e l;
  l ← set_next e (Some root) l;
  x ← load l e;
  set_prev e (next x) l.

(** [e.prev.next = e.next; e.next.prev = e.prev]. *)
Definition unlink (e : option nat) (l : dlist) : res E dlist :=
  x ← load l e;
  l ← set_next (next x) (prev x) l;
  x ← load l e;
  set_prev (prev x) (next x) l.

Definition moveToFront (e : option nat) (l : dlist) : res E dlist :=
  l ← unlink e l;
  pushElem e l.

Definition remove (e : option nat) (l : dlist) : res E dlist :=
  l ← unlink e l;
  l ← set_next None e l;
  set_prev None e l.

Definition last_elem (l : dlist) : res E (option nat) :=
  r ← load l (Some root);
  if decide (prev r = Some root) then Ok None else Ok (prev r).

Definition removeLast (l : dlist) : res E (option nat * dlist) :=
  e ← last_elem l;
  match e with
  | None => Ok (None, l)
  | Some _ => l ← remove e l; Ok (e, l)
  end.

(** [appendTo]: from the least recently used element towards the root; [fuel]
    bounds the number of elements visited. *)
Fixpoint appendTo_loop (fuel : nat) (e : option nat) (l : dlist) (slice : list K) : res E (list K) :=
  if decide (e = Some root) then Ok slice
  else match fuel with
       | O => Panic
       | S fuel => x ← load l e; appendTo_loop fuel (prev x) l (slice ++ [v x])
       end.

Definition appendTo (l : dlist) (slice : list K) : res E (list K) :=
  r ← load l (Some root);
  appendTo_loop (size (elems l)) (prev r) l slice.

(** ** The cache *)

Record BasicLRU : Type := MkLRU {
  lst : dlist;
  items : gmap K (option nat * V);
  cap : Z
}.

Definition NewBasicLRU (capacity : Z) : BasicLRU :=
  MkLRU newList ∅ (if decide (capacity <= 0) then 1 else capacity).

Definition Len (c : BasicLRU) : Z := Z.of_nat (size (items c)).

(** [c.items[key].value]: the zero value when the key is absent. *)
Definition value_of (c : BasicLRU) (key : K) : V :=
  match items c !! key with Some (_, x) => x | None => inhabitant end.

Definition Add3 (key : K) (value : V) (c : BasicLRU) : res E (option (K * V) * BasicLRU) :=
  match items c !! key with
  | Some (e, _) =>
      l ← moveToFront e (lst c);
      Ok (None, MkLRU l (<[key := (e, value)]> (items c)) (cap c))
  | None =>
      '(elem, evicted, l, its) ←
        (if decide (cap c <= Len c) then
           '(elem, l) ← removeLast (lst c);
           x ← load l elem;
           Ok (elem, Some (v x, value_of c (v x)), l, base.delete (v x) (items c))
         else
           let '(elem, l) := newElem (lst c) in
           Ok (elem, None, l, items c));
      l ← set_v key elem l;
      l ← pushElem elem l;
      Ok (evicted, MkLRU l (<[key := (elem, value)]> its) (cap c))
  end.

Definition Add (key : K) (value : V) (c : BasicLRU) : res E (bool * BasicLRU) :=
  '(evicted, c) ← Add3 key value c;
  Ok (bool_decide (is_Some evicted), c).

Definition Contains (key : K) (c : BasicLRU) : bool := bool_decide (is_Some (items c !! key)).

Definition Get (key : K) (c : BasicLRU) : res E (option V * BasicLRU) :=
  match items c !! key with
  | None => Ok (None, c)
  | Some (e, x) => l ← moveToFront e (lst c); Ok (Some x, MkLRU l (items c) (cap c))
  end.

Definition GetOldest (c : BasicLRU) : res E (option (K * V)) :=
  e ← last_elem (lst c);
  match e with
  | None => Ok None
  | Some _ => x ← load (lst c) e; Ok (Some (v x, value_of c (v x)))
  end.

Definition Peek (key : K) (c : BasicLRU) : option V := snd <$> items c !! key.

Definition Purge (c : BasicLRU) : BasicLRU := MkLRU (init (lst c)) ∅ (cap c).

Definition Remove (key : K) (c : BasicLRU) : res E (bool * BasicLRU) :=
  match items c !! key with
  | None => Ok (false, c)
  | Some (e, _) =>
      l ← remove e (lst c);
      Ok (true, MkLRU l (base.delete key (items c)) (cap c))
  end.

Definition RemoveOldest (c : BasicLRU) : res E (option (K * V) * BasicLRU) :=
  e ← last_elem (lst c);
  match e with
  | None => Ok (None, c)
  | Some _ =>
      x ← load (lst c) e;
      l ← remove e (lst c);
      Ok (Some (v x, value_of c (v x)), MkLRU l (base.delete (v x) (items c)) (cap c))
  end.

Definition Keys (c : BasicLRU) : res E (list K) := appendTo (lst c) [].

(** ** The ring of the list *)

Definition nxt (l : dlist) (p : nat) : option nat := elems l !! p ≫= next.
Definition prv (l : dlist) (p : nat) : option nat := elems l !! p ≫= prev.
Definition vof (l : dlist) (p : nat) : option K := v <$> elems l !! p.

(** Consecutive addresses of [c] point to each other. *)
Fixpoint chain (l : dlist) (c : list nat) : Prop :=
  match c with
  | a :: (b :: _) as c' => nxt l a = Some b ∧ prv l b = Some a ∧ chain l c'
  | _ => True
  end.

Definition ring (l : dlist) (locs : list nat) : Prop := chain l (root :: locs ++ [root]).

Lemma load_ok l p :
  is_Some (vof l p) →
  ∃ x, load l (Some p) = Ok x ∧ next x = nxt l p ∧ prev x = prv l p ∧ vof l p = Some (v x).
Proof.
  unfold load, vof, nxt, prv. destruct (elems l !! p) as [x|]; intros [k Hk]; [|done].
  exists x. done.
Qed.

(** What an assignment through a live pointer changes. *)
Definition frame (l l' : dlist) (N P : nat → option nat) (W : nat → option K) : Prop :=
  (∀ x, nxt l' x = N x) ∧ (∀ x, prv l' x = P x) ∧ (∀ x, vof l' x = W x) ∧ alloc l' = alloc l.

Definition upd {A} (f : nat → A) (p : nat) (a : A) (x : nat) : A := if decide (x = p) then a else f x.

Lemma upd_eq {A} (f : nat → A) p a : upd f p a p = a.
Proof. unfold upd. by rewrite decide_True. Qed.

Lemma upd_ne {A} (f : nat → A) p a x : x ≠ p → upd f p a x = f x.
Proof. intros. unfold upd. by rewrite decide_False. Qed.

Ltac solve_update p :=
  unfold update, frame, vof, nxt, prv, upd; destruct (elems _ !! p) as [y|] eqn:?; [|by intros []];
  intros _; eexists; split; [done|]; cbn; repeat split; intros z; destruct (decide (z = p)) as [->|];
  rewrite ?lookup_insert_eq, ?lookup_insert_ne by done; simplify_option_eq; done.

Lemma set_next_ok n p l :
  is_Some (vof l p) →
  ∃ l', set_next n (Some p) l = Ok l' ∧ frame l l' (upd (nxt l) p n) (prv l) (vof l).
Proof. unfold set_next. solve_update p. Qed.

Lemma set_prev_ok n p l :
  is_Some (vof l p) →
  ∃ l', set_prev n (Some p) l = Ok l' ∧ frame l l' (nxt l) (upd (prv l) p n) (vof l).
Proof. unfold set_prev. solve_update p. Qed.

Lemma set_v_ok k p l :
  is_Some (vof l p) →
  ∃ l', set_v k (Some p) l = Ok l' ∧ frame l l' (nxt l) (prv l) (upd (vof l) p (Some k)).
Proof. unfold set_v. solve_update p. Qed.

Lemma chain_cons l a b c :
  chain l (a :: b :: c) ↔ nxt l a = Some b ∧ prv l b = Some a ∧ chain l (b :: c).
Proof. done. Qed.

Lemma chain_app l A x B : chain l (A ++ x :: B) ↔ chain l (A ++ [x]) ∧ chain l (x :: B).
Proof.
  induction A as [|a [|a' A] IH]; cbn [app chain] in *; [tauto..|]. rewrite IH. tauto.
Qed.

Lemma chain_frame l l' c :
  chain l c → (∀ x, x ∈ removelast c → nxt l' x = nxt l x) →
  (∀ x, x ∈ tail c → prv l' x = prv l x) → chain l' c.
Proof.
  induction c as [|a [|b c] IH]; cbn [chain]; [done..|].
  intros (Hn & Hp & Hc) HN HP. cbn [tail] in *. repeat split.
  - rewrite HN; [done|]. cbn. set_solver.
  - rewrite HP; [done|]. set_solver.
  - apply IH; [done| |]; intros x Hx; [apply HN | apply HP].
    + cbn [removelast]. set_solver.
    + by apply list_elem_of_further.
Qed.

Lemma removelast_pre (A : list nat) x B : removelast (A ++ x :: B) = A ++ removelast (x :: B).
Proof. by apply removelast_app. Qed.

(** A ring splits at any of its elements. *)
Lemma ring_split l l1 e l2 :
  ring l (l1 ++ e :: l2) → NoDup (root :: l1 ++ e :: l2) →
  ∃ A p n B, root :: l1 = A ++ [p] ∧ l2 ++ [root] = n :: B ∧
    chain l (A ++ p :: e :: n :: B) ∧ nxt l e = Some n ∧ prv l e = Some p ∧
    NoDup (A ++ p :: e :: removelast (n :: B)) ∧ NoDup (tail (A ++ [p]) ++ e :: n :: B) ∧ e ≠ p ∧ e ≠ n.
Proof.
  intros Hr Hnd.
  assert (∃ A p, root :: l1 = A ++ [p]) as (A & p & HA).
  { destruct l1 as [|y l1 _] using rev_ind; [by exists [], root|]. by exists (root :: l1), y. }
  assert (∃ n B, l2 ++ [root] = n :: B) as (n & B & HB) by (destruct l2; cbn; eauto).
  assert (chain l (A ++ p :: e :: n :: B)) as Hc.
  { unfold ring in Hr. rewrite <-app_assoc in Hr. cbn [app] in Hr. rewrite HB in Hr.
    change (root :: l1 ++ ?x) with ((root :: l1) ++ x) in Hr. rewrite HA, <-app_assoc in Hr. done. }
  assert (NoDup (A ++ p :: e :: removelast (n :: B))) as Hnd1.
  { rewrite <-HB, removelast_last. change (root :: l1 ++ ?x) with ((root :: l1) ++ x) in Hnd.
    rewrite HA, <-app_assoc in Hnd. done. }
  assert (NoDup (tail (A ++ [p]) ++ e :: n :: B)) as Hnd2.
  { rewrite <-HA, <-HB. cbn [tail]. rewrite app_comm_cons, (assoc app).
    rewrite NoDup_app. apply NoDup_cons in Hnd as [H1' H2']. split; [done|]. split; [set_solver|].
    apply NoDup_singleton. }
  exists A, p, n, B. split_and!; try done.
  - apply chain_app in Hc as [_ Hc]. cbn in Hc. tauto.
  - apply chain_app in Hc as [_ Hc]. cbn in Hc. tauto.
  - intros ->. apply NoDup_app in Hnd1 as (_ & _ & Hnd1). apply NoDup_cons in Hnd1 as [Hx _]. set_solver.
  - intros ->. apply NoDup_app in Hnd2 as (_ & _ & Hnd2). apply NoDup_cons in Hnd2 as [Hx _]. set_solver.
Qed.

Lemma nxt_vof l p q : nxt l p = Some q → is_Some (vof l p).
Proof. unfold nxt, vof. destruct (elems l !! p); cbn; [eauto|done]. Qed.

Lemma prv_vof l p q : prv l p = Some q → is_Some (vof l p).
Proof. unfold prv, vof. destruct (elems l !! p); cbn; [eauto|done]. Qed.

Lemma chain_inv l A x y B : chain l (A ++ x :: y :: B) → nxt l x = Some y ∧ prv l y = Some x.
Proof. intros Hc. apply chain_app in Hc as [_ Hc]. cbn in Hc. tauto. Qed.

(** The neighbours of an element are live. *)
Lemma chain_live_pre l A x y B : chain l (A ++ x :: y :: B) → is_Some (vof l x).
Proof. intros Hc. eapply nxt_vof, (chain_inv _ _ _ _ _ Hc). Qed.

Lemma unlink_ok l l1 e l2 :
  ring l (l1 ++ e :: l2) → NoDup (root :: l1 ++ e :: l2) →
  ∃ l', unlink (Some e) l = Ok l' ∧ ring l' (l1 ++ l2) ∧ (∀ x, vof l' x = vof l x) ∧ alloc l' = alloc l.
Proof.
  intros Hr Hnd.
  destruct (ring_split _ _ _ _ Hr Hnd) as (A & p & n & B & HA & HB & Hc & Hn & Hp & N1 & N2 & Hep & Hen).
  assert (is_Some (vof l p)) as Lp by (eapply chain_live_pre; exact Hc).
  assert (is_Some (vof l n)) as Ln.
  { eapply prv_vof, (chain_inv l (A ++ [p]) e n B). by rewrite <-app_assoc. }
  destruct (load_ok l e) as (x & E1 & Nx & Px & _); [by eapply nxt_vof|].
  unfold unlink. rewrite E1. cbn [mbind res_bind]. rewrite Nx, Px, Hn, Hp.
  destruct (set_next_ok (Some n) p l Lp) as (la & E2 & Na & Pa & Wa & Aa). rewrite E2. cbn [mbind res_bind].
  destruct (load_ok la e) as (x' & E3 & Nx' & Px' & _); [rewrite Wa; by eapply nxt_vof|].
  rewrite E3. cbn [mbind res_bind]. rewrite Nx', Px', Na, upd_ne, Pa, Hn, Hp by done.
  destruct (set_prev_ok (Some p) n la) as (lb & E4 & Nb & Pb & Wb & Ab); [by rewrite Wa|].
  rewrite E4. exists lb. split_and!; [done| |intros y; by rewrite Wb, Wa|congruence].
  unfold ring. rewrite <-app_assoc.
  replace (root :: l1 ++ l2 ++ [root]) with (A ++ p :: n :: B)
    by (rewrite HB; change (root :: l1 ++ n :: B) with ((root :: l1) ++ n :: B);
        by rewrite HA, <-app_assoc).
  apply chain_app. apply chain_app in Hc as [Hc1 Hc2]. split; [|rewrite chain_cons; split_and!].
  - eapply chain_frame; [exact Hc1| |]; intros y Hy.
    + rewrite removelast_last in Hy. rewrite Nb, Na, upd_ne; [done|]. intros ->.
      apply NoDup_app in N1 as (_ & N1 & _). apply (N1 p Hy). set_solver.
    + rewrite Pb, upd_ne, Pa; [done|]. intros ->.
      apply NoDup_app in N2 as (_ & N2 & _). apply (N2 n Hy). set_solver.
  - by rewrite Nb, Na, upd_eq.
  - by rewrite Pb, upd_eq.
  - rewrite !chain_cons in Hc2. destruct Hc2 as (_ & _ & _ & _ & Hc2).
    eapply chain_frame; [exact Hc2| |]; intros y Hy.
    + rewrite Nb, Na, upd_ne; [done|]. intros ->. apply NoDup_app in N1 as (_ & _ & N1).
      apply NoDup_cons in N1 as [N1 _]. apply N1. by right.
    + rewrite Pb, upd_ne, Pa; [done|]. intros ->. apply NoDup_app in N2 as (_ & _ & N2).
      apply NoDup_cons in N2 as [_ N2]. apply NoDup_cons in N2 as [N2 _]. done.
Qed.

Lemma ring_head l locs :
  ring l locs → ∃ n B, locs ++ [root] = n :: B ∧ nxt l root = Some n ∧ prv l n = Some root.
Proof.
  unfold ring. assert (∃ n B, locs ++ [root] = n :: B) as (n & B & HB) by (destruct locs; cbn; eauto).
  rewrite HB, chain_cons. intros (? & ? & _). by exists n, B.
Qed.

Lemma pushElem_ok l locs e :
  ring l locs → NoDup (root :: e :: locs) → is_Some (vof l e) →
  ∃ l', pushElem (Some e) l = Ok l' ∧ ring l' (e :: locs) ∧ (∀ x, vof l' x = vof l x) ∧ alloc l' = alloc l.
Proof.
  intros Hr Hnd Le. destruct (ring_head _ _ Hr) as (n & B & HB & Hn & Hp).
  assert (e ≠ root) as He by (intros ->; apply NoDup_cons in Hnd as [Hnd _]; set_solver).
  assert (e ∉ n :: B) as HeB.
  { rewrite <-HB. apply NoDup_cons in Hnd as [_ Hnd]. apply NoDup_cons in Hnd as [Hnd _]. set_solver. }
  assert (NoDup (n :: B)) as HnB.
  { rewrite <-HB, NoDup_app. apply NoDup_cons in Hnd as [Hx Hnd]. apply NoDup_cons in Hnd as [_ Hnd].
    split_and!; [done|set_solver|apply NoDup_singleton]. }
  assert (root ∉ removelast (n :: B)) as Hroot.
  { rewrite <-HB, removelast_last. apply NoDup_cons in Hnd as [Hnd _]. set_solver. }
  unfold pushElem.
  destruct (set_prev_ok (Some root) e l Le) as (la & -> & Na & Pa & Wa & Aa). cbn [mbind res_bind].
  destruct (load_ok la root) as (r & -> & Nr & _); [rewrite Wa; by eapply nxt_vof|]. cbn [mbind res_bind].
  rewrite Nr, Na, Hn.
  destruct (set_next_ok (Some n) e la) as (lb & -> & Nb & Pb & Wb & Ab); [by rewrite Wa|]. cbn [mbind res_bind].
  destruct (set_next_ok (Some e) root lb) as (lc & -> & Nc & Pc & Wc & Ac).
  { rewrite Wb, Wa. by eapply nxt_vof. } cbn [mbind res_bind].
  destruct (load_ok lc e) as (x & -> & Nx & _); [by rewrite Wc, Wb, Wa|]. cbn [mbind res_bind].
  rewrite Nx, Nc, upd_ne, Nb, upd_eq by done.
  destruct (set_prev_ok (Some e) n lc) as (ld & -> & Nd & Pd & Wd & Ad).
  { rewrite Wc, Wb, Wa. by eapply prv_vof. }
  exists ld. split_and!; [done| |intros y; by rewrite Wd, Wc, Wb, Wa|congruence].
  unfold ring in *. cbn [app]. rewrite HB in *. rewrite !chain_cons in *. destruct Hr as (_ & _ & Hr).
  split_and!.
  - by rewrite Nd, Nc, upd_eq.
  - rewrite Pd, upd_ne, Pc, Pb, Pa, upd_eq; [done|]. set_solver.
  - by rewrite Nd, Nc, upd_ne, Nb, upd_eq.
  - by rewrite Pd, upd_eq.
  - eapply chain_frame; [exact Hr| |]; intros y Hy.
    + rewrite Nd, Nc, upd_ne, Nb, upd_ne, Na; [done| |by intros ->].
      intros ->. apply HeB. rewrite <-HB in *. rewrite removelast_last in Hy. set_solver.
    + cbn [tail] in Hy. apply NoDup_cons in HnB as [HnB _].
      rewrite Pd, upd_ne, Pc, Pb, Pa, upd_ne; [done| |]; intros ->; [set_solver|done].
Qed.

(** What every operation on the list keeps: the keys stored and the allocator. *)
Definition keeps (l l' : dlist) : Prop := (∀ x, vof l' x = vof l x) ∧ alloc l' = alloc l.

Lemma ring_live l locs x : ring l locs → x ∈ root :: locs → is_Some (vof l x).
Proof.
  unfold ring. intros Hr [A [B HAB]]%list_elem_of_split.
  assert (∃ y C, B ++ [root] = y :: C) as (y & C & HC) by (destruct B; cbn; eauto).
  rewrite app_comm_cons, HAB, <-app_assoc in Hr. cbn [app] in Hr. rewrite HC in Hr.
  by eapply chain_live_pre.
Qed.

Lemma NoDup_middle (l1 : list nat) e l2 :
  NoDup (root :: l1 ++ e :: l2) → NoDup (root :: e :: l1 ++ l2).
Proof. intros Hnd. eapply NoDup_Permutation_proper; [|exact Hnd]. by rewrite Permutation_middle. Qed.

Lemma moveToFront_ok l l1 e l2 :
  ring l (l1 ++ e :: l2) → NoDup (root :: l1 ++ e :: l2) →
  ∃ l', moveToFront (Some e) l = Ok l' ∧ ring l' (e :: l1 ++ l2) ∧ keeps l l'.
Proof.
  intros Hr Hnd. destruct (unlink_ok _ _ _ _ Hr Hnd) as (la & Ea & Ra & Wa & Aa).
  destruct (pushElem_ok la (l1 ++ l2) e Ra) as (lb & Eb & Rb & Wb & Ab).
  - by apply NoDup_middle.
  - rewrite Wa. eapply ring_live; [exact Hr|]. set_solver.
  - exists lb. unfold moveToFront. rewrite Ea. cbn [mbind res_bind]. split_and!; [done..|].
    split; [intros x; by rewrite Wb, Wa|congruence].
Qed.

Lemma remove_ok l l1 e l2 :
  ring l (l1 ++ e :: l2) → NoDup (root :: l1 ++ e :: l2) →
  ∃ l', remove (Some e) l = Ok l' ∧ ring l' (l1 ++ l2) ∧ keeps l l'.
Proof.
  intros Hr Hnd. destruct (unlink_ok _ _ _ _ Hr Hnd) as (la & Ea & Ra & Wa & Aa).
  assert (is_Some (vof l e)) as Le by (eapply ring_live; [exact Hr|set_solver]).
  unfold remove. rewrite Ea. cbn [mbind res_bind].
  destruct (set_next_ok None e la) as (lb & -> & Nb & Pb & Wb & Ab); [by rewrite Wa|]. cbn [mbind res_bind].
  destruct (set_prev_ok None e lb) as (lc & -> & Nc & Pc & Wc & Ac); [by rewrite Wb, Wa|].
  exists lc. split_and!; [done| |split; [intros x; by rewrite Wc, Wb, Wa|congruence]].
  apply NoDup_middle, NoDup_cons in Hnd as [Hre Hnd]. apply NoDup_cons in Hnd as [He _].
  assert (e ∉ root :: (l1 ++ l2) ++ [root]) as He' by set_solver.
  eapply chain_frame; [exact Ra| |]; intros x Hx.
  - rewrite Nc, Nb, upd_ne; [done|]. intros ->. apply He'.
    rewrite app_comm_cons, removelast_last in Hx. set_solver.
  - rewrite Pc, upd_ne, Pb; [done|]. intros ->. apply He'. set_solver.
Qed.

Lemma ring_last l locs :
  ring l locs → prv l root = Some (List.last (root :: locs) root).
Proof.
  unfold ring. destruct locs as [|y locs _] using rev_ind.
  - intros (_ & Hp & _). done.
  - rewrite <-app_assoc. cbn [app]. change (root :: locs ++ [y]) with ((root :: locs) ++ [y]).
    rewrite List.last_last. intros Hc. by apply (chain_inv l (root :: locs) y root []).
Qed.

Lemma last_elem_ok l locs :
  ring l locs → NoDup (root :: locs) →
  last_elem l = Ok (list.last locs).
Proof.
  intros Hr Hnd. unfold last_elem.
  destruct (load_ok l root) as (r & -> & _ & Pr & _); [eapply ring_live; [exact Hr|set_solver]|].
  cbn [mbind res_bind]. rewrite Pr, (ring_last _ _ Hr).
  destruct locs as [|y locs _] using rev_ind.
  - cbn. by rewrite decide_True.
  - change (root :: locs ++ [y]) with ((root :: locs) ++ [y]). rewrite List.last_last, last_snoc.
    rewrite decide_False; [done|]. intros [= ->]. apply NoDup_cons in Hnd as [Hnd _]. set_solver.
Qed.

Lemma appendTo_loop_ok l l1 l2 ks fuel slice :
  ring l (l1 ++ l2) → NoDup (root :: l1 ++ l2) → Forall2 (λ p k, vof l p = Some k) l1 ks →
  (length l1 <= fuel)%nat →
  appendTo_loop fuel (Some (List.last (root :: l1) root)) l slice = Ok (slice ++ reverse ks).
Proof.
  revert l2 ks fuel slice. induction l1 as [|y l1 IH] using rev_ind; intros l2 ks fuel slice Hr Hnd HF Hfuel.
  - inversion HF; subst. destruct fuel; cbn; by rewrite app_nil_r.
  - change (root :: l1 ++ [y]) with ((root :: l1) ++ [y]). rewrite List.last_last.
    rewrite <-app_assoc in *. cbn [app] in *.
    apply Forall2_app_inv_l in HF as (ks1 & ks2 & HF1 & HF2 & ->).
    inversion HF2 as [|? k ? ? Hk HF3]; subst. inversion HF3; subst.
    rewrite length_app in Hfuel. cbn in Hfuel. destruct fuel as [|fuel]; [lia|].
    cbn [appendTo_loop]. rewrite decide_False
      by (intros [= ->]; apply NoDup_cons in Hnd as [Hnd _]; set_solver).
    destruct (load_ok l y) as (x & -> & _ & Px & Wx); [by rewrite Hk|]. cbn [mbind res_bind].
    destruct (ring_split _ _ _ _ Hr Hnd) as (A & p & n & B & HA & _ & _ & _ & Hp & _).
    rewrite Px, Hp. rewrite Hk in Wx. injection Wx as <-.
    rewrite HA in IH. rewrite List.last_last in IH. rewrite (IH (y :: l2) ks1); [|done..|lia].
    rewrite reverse_app. cbn. by rewrite <-app_assoc.
Qed.

(** ** The specification: an association list, most recent first *)

Definition assoc (k : K) (l : list (K * V)) : option V := snd <$> List.find (λ kv, bool_decide (kv.1 = k)) l.

Definition del (k : K) (l : list (K * V)) : list (K * V) := filter (λ kv, kv.1 ≠ k) l.

Definition spec_get (k : K) (l : list (K * V)) : option V * list (K * V) :=
  match assoc k l with None => (None, l) | Some x => (Some x, (k, x) :: del k l) end.

Definition spec_add (capacity : Z) (k : K) (x : V) (l : list (K * V)) : option (K * V) * list (K * V) :=
  match assoc k l with
  | Some _ => (None, (k, x) :: del k l)
  | None => if decide (capacity <= Z.of_nat (length l))
            then (list.last l, (k, x) :: removelast l) else (None, (k, x) :: l)
  end.

(** ** The relation between a cache and its contents *)

Definition entry (c : BasicLRU) (p : nat) (kv : K * V) : Prop :=
  vof (lst c) p = Some kv.1 ∧ items c !! kv.1 = Some (Some p, kv.2).

Record rel_at (locs : list nat) (c : BasicLRU) (l : list (K * V)) : Prop := {
  rel_ring : ring (lst c) locs;
  rel_nodup : NoDup (root :: locs);
  rel_entries : Forall2 (entry c) locs l;
  rel_keys : NoDup l.*1;
  rel_dom : ∀ k, is_Some (items c !! k) → k ∈ l.*1;
  rel_alloc : ∀ p, is_Some (vof (lst c) p) → (p < alloc (lst c))%nat;
  rel_cap : 0 < cap c ∧ Z.of_nat (length l) <= cap c
}.

Definition Rel (c : BasicLRU) (l : list (K * V)) : Prop := ∃ locs, rel_at locs c l.

Lemma assoc_app_ne k l1 l2 : k ∉ l1.*1 → assoc k (l1 ++ l2) = assoc k l2.
Proof.
  unfold assoc. induction l1 as [|[k' x'] l1 IH]; cbn; [done|]. intros Hk.
  apply not_elem_of_cons in Hk as [Hk1 Hk2]. rewrite bool_decide_eq_false_2 by congruence. auto.
Qed.

Lemma assoc_hit k x l1 l2 : k ∉ l1.*1 → assoc k (l1 ++ (k, x) :: l2) = Some x.
Proof. intros. rewrite assoc_app_ne by done. unfold assoc. cbn. by rewrite bool_decide_eq_true_2. Qed.

Lemma assoc_miss k l : k ∉ l.*1 → assoc k l = None.
Proof. intros. rewrite <-(app_nil_r l). by rewrite assoc_app_ne. Qed.

Lemma del_miss k l : k ∉ l.*1 → del k l = l.
Proof.
  unfold del. induction l as [|[k' x'] l IH]; [done|]. cbn [fmap list_fmap fst]. intros Hk.
  apply not_elem_of_cons in Hk as [Hk1 Hk2]. rewrite filter_cons_True by (cbn; congruence). by rewrite IH.
Qed.

Lemma del_hit k x l1 l2 :
  NoDup (l1 ++ (k, x) :: l2).*1 → del k (l1 ++ (k, x) :: l2) = l1 ++ l2.
Proof.
  rewrite fmap_app. cbn [fmap list_fmap fst]. intros (_ & H1' & [H2' _]%NoDup_cons)%NoDup_app.
  unfold del. rewrite filter_app, filter_cons_False by (cbn; tauto).
  change (del k l1 ++ del k l2 = l1 ++ l2). rewrite !del_miss; [done..|]. intros Hk. apply (H1' k Hk). by left.
Qed.

Lemma NoDup_keys_split (l1 : list (K * V)) k x l2 :
  NoDup (l1 ++ (k, x) :: l2).*1 → (k ∉ l1.*1) ∧ (k ∉ l2.*1) ∧ NoDup (l1 ++ l2).*1.
Proof.
  rewrite !fmap_app. cbn [fmap list_fmap fst]. intros (N1 & N2 & [N3 N4]%NoDup_cons)%NoDup_app.
  split_and!; [|done|].
  - intros Hk. apply (N2 k Hk). by left.
  - apply NoDup_app. split_and!; [done| |done]. intros y Hy Hy2. apply (N2 y Hy). by right.
Qed.

(** A key of the map is an entry of the list, at the address the map records. *)
Lemma rel_at_split locs c l k e x :
  rel_at locs c l → items c !! k = Some (e, x) →
  ∃ p1 p p2 l1 l2, e = Some p ∧ locs = p1 ++ p :: p2 ∧ l = l1 ++ (k, x) :: l2 ∧
    Forall2 (entry c) p1 l1 ∧ Forall2 (entry c) p2 l2 ∧ entry c p (k, x).
Proof.
  intros R Hk. assert (k ∈ l.*1) as Hin by (apply (rel_dom _ _ _ R); eauto).
  apply list_elem_of_fmap in Hin as ([k' x'] & Hkk & Hin). cbn in Hkk. subst k'.
  apply list_elem_of_split in Hin as (l1 & l2 & ->).
  pose proof (rel_entries _ _ _ R) as HF.
  apply Forall2_app_inv_r in HF as (p1 & ps & HF1 & HF2 & ->).
  apply Forall2_cons_inv_r in HF2 as (p & p2 & He & HF2 & ->).
  pose proof He as [_ He2]. cbn in He2. rewrite Hk in He2. injection He2 as -> ->.
  by exists p1, p, p2, l1, l2.
Qed.

Lemma rel_at_None locs c l k : rel_at locs c l → items c !! k = None → k ∉ l.*1.
Proof.
  intros R Hk ([k' x] & -> & Hin)%list_elem_of_fmap.
  apply list_elem_of_lookup in Hin as [i Hi].
  destruct (Forall2_lookup_r _ _ _ _ _ (rel_entries _ _ _ R) Hi) as (p & _ & _ & He). cbn in *. congruence.
Qed.

Lemma rel_Len locs c l : rel_at locs c l → Len c = Z.of_nat (length l).
Proof.
  intros R. unfold Len. f_equal. rewrite <-size_dom.
  assert (dom (items c) = list_to_set l.*1) as ->.
  { apply set_eq. intros k. rewrite elem_of_list_to_set, elem_of_dom. split; [by apply (rel_dom _ _ _ R)|].
    intros Hin. destruct (items c !! k) eqn:Hk; [eauto|]. by eapply rel_at_None in Hk. }
  rewrite size_list_to_set by apply (rel_keys _ _ _ R). by rewrite length_fmap.
Qed.

Lemma entries_frame c c' locs l :
  Forall2 (entry c) locs l →
  (∀ p, p ∈ locs → vof (lst c') p = vof (lst c) p) →
  (∀ k, k ∈ l.*1 → items c' !! k = items c !! k) →
  Forall2 (entry c') locs l.
Proof.
  intros HF HV HI. induction HF as [|p kv locs l [He1 He2] HF IH]; [constructor|].
  constructor.
  - split; [rewrite HV by set_solver; done|]. rewrite HI; [done|]. cbn. set_solver.
  - apply IH; intros; [apply HV|apply HI; cbn]; set_solver.
Qed.

Lemma NewBasicLRU_Rel capacity : Rel (NewBasicLRU capacity) [].
Proof.
  exists []. unfold NewBasicLRU. constructor; cbn.
  - repeat split.
  - apply NoDup_singleton.
  - constructor.
  - constructor.
  - intros k [? Hk]. by rewrite lookup_empty in Hk.
  - intros p. unfold vof. cbn. destruct (decide (p = root)) as [->|]; [unfold root; lia|].
    rewrite lookup_insert_ne, lookup_empty by done. by intros [].
  - destruct (decide (capacity <= 0)); lia.
Qed.

(** Moving an entry to the front, with the value the map holds afterwards. *)
Lemma rel_front c l1 k x l2 p1 p p2 l' its x' :
  rel_at (p1 ++ p :: p2) c (l1 ++ (k, x) :: l2) →
  Forall2 (entry c) p1 l1 → Forall2 (entry c) p2 l2 → entry c p (k, x) →
  ring l' (p :: p1 ++ p2) → keeps (lst c) l' → its = <[k := (Some p, x')]> (items c) →
  rel_at (p :: p1 ++ p2) (MkLRU l' its (cap c)) ((k, x') :: l1 ++ l2).
Proof.
  intros R HF1 HF2 [He _] Hr [HW HA] ->.
  destruct (NoDup_keys_split _ _ _ _ (rel_keys _ _ _ R)) as (Hk1 & Hk2 & Hnd).
  pose proof (rel_cap _ _ _ R) as [Hc1 Hc2]. rewrite length_app in Hc2. cbn [length] in Hc2.
  constructor; cbn [lst items cap].
  - done.
  - by apply NoDup_middle, (rel_nodup _ _ _ R).
  - constructor; [split; cbn; [by rewrite HW|by rewrite lookup_insert_eq]|].
    apply Forall2_app; [eapply entries_frame; [exact HF1|..]|eapply entries_frame; [exact HF2|..]];
      cbn; intros; rewrite ?HW; try done; rewrite lookup_insert_ne; [done|set_solver|done|set_solver].
  - cbn [fmap list_fmap fst]. constructor; [|done]. rewrite fmap_app. set_solver.
  - intros k' Hk'. cbn. destruct (decide (k' = k)) as [->|]; [by left|].
    rewrite lookup_insert_ne in Hk' by done. apply (rel_dom _ _ _ R) in Hk'.
    rewrite fmap_app in *. cbn [fmap list_fmap fst] in *. set_solver.
  - intros q. rewrite HW, HA. apply (rel_alloc _ _ _ R).
  - cbn [length]. rewrite length_app. lia.
Qed.

(** [Get] never panics, returns what the association list holds for the key and
    moves that entry to the front. *)
Lemma Get_spec c l k :
  Rel c l →
  ∃ c', Get k c = Ok (fst (spec_get k l), c') ∧ Rel c' (snd (spec_get k l)) ∧ cap c' = cap c.
Proof.
  intros [locs R]. unfold Get, spec_get. destruct (items c !! k) as [[e x]|] eqn:Hk.
  - destruct (rel_at_split _ _ _ _ _ _ R Hk) as (p1 & p & p2 & l1 & l2 & -> & -> & -> & HF1 & HF2 & He).
    destruct (NoDup_keys_split _ _ _ _ (rel_keys _ _ _ R)) as (Hk1 & _).
    rewrite assoc_hit by done. rewrite del_hit by apply (rel_keys _ _ _ R).
    destruct (moveToFront_ok _ _ _ _ (rel_ring _ _ _ R) (rel_nodup _ _ _ R)) as (l' & -> & Hr & HK).
    eexists. split; [done|]. split; [|done]. exists (p :: p1 ++ p2).
    eapply rel_front; [exact R|done..|]. symmetry. by apply insert_id.
  - rewrite assoc_miss by (by eapply rel_at_None). exists c. split_and!; [done| |done]. by exists locs.
Qed.

(** A new key at the front of the list. *)
Lemma rel_push c locs l e k x l0 l1 its :
  rel_at locs c l → (Z.of_nat (length l) < cap c) → k ∉ l.*1 → e ∉ root :: locs →
  ring l0 locs → is_Some (vof l0 e) → (∀ p, p ∈ locs → vof l0 p = vof (lst c) p) →
  (∀ p, is_Some (vof l0 p) → (p < alloc l0)%nat) →
  set_v k (Some e) l0 = Ok l1 → its = items c →
  ∃ l', pushElem (Some e) l1 = Ok l' ∧
    rel_at (e :: locs) (MkLRU l' (<[k := (Some e, x)]> its) (cap c)) ((k, x) :: l).
Proof.
  intros R Hcap Hk He Hr Le HV HAl Hset ->.
  destruct (set_v_ok k e l0 Le) as (l1' & Hset' & N1 & P1 & W1 & A1). rewrite Hset in Hset'. injection Hset' as <-.
  assert (NoDup (root :: e :: locs)) as Hnd.
  { pose proof (rel_nodup _ _ _ R) as Hnd. apply NoDup_cons in Hnd as [Hx Hnd].
    apply NoDup_cons. split; [set_solver|]. apply NoDup_cons. split; [set_solver|done]. }
  destruct (pushElem_ok l1 locs e) as (l' & Hpush & Hr' & W' & A'); [|done|by rewrite W1, upd_eq|].
  { eapply chain_frame; [exact Hr|intros; by rewrite N1|intros; by rewrite P1]. }
  exists l'. split; [done|]. pose proof (rel_cap _ _ _ R). constructor; cbn [lst items cap].
  - done.
  - done.
  - constructor; [split; cbn; [by rewrite W', W1, upd_eq|by rewrite lookup_insert_eq]|].
    eapply entries_frame; [apply (rel_entries _ _ _ R)| |]; cbn; intros y Hy.
    + rewrite W', W1, upd_ne; [by apply HV|]. intros ->. set_solver.
    + rewrite lookup_insert_ne; [done|]. by intros ->.
  - cbn. constructor; [done|apply (rel_keys _ _ _ R)].
  - intros k' Hk'. cbn. destruct (decide (k' = k)) as [->|]; [by left|].
    rewrite lookup_insert_ne in Hk' by done. right. by apply (rel_dom _ _ _ R).
  - intros q. rewrite W', W1, A', A1. unfold upd. destruct (decide (q = e)) as [->|]; [intros _; by apply HAl|apply HAl].
  - cbn [length]. lia.
Qed.

(** Removing the entry of a key. *)
Lemma rel_remove c l1 k x l2 p1 p p2 l' :
  rel_at (p1 ++ p :: p2) c (l1 ++ (k, x) :: l2) →
  Forall2 (entry c) p1 l1 → Forall2 (entry c) p2 l2 →
  ring l' (p1 ++ p2) → keeps (lst c) l' →
  rel_at (p1 ++ p2) (MkLRU l' (base.delete k (items c)) (cap c)) (l1 ++ l2).
Proof.
  intros R HF1 HF2 Hr [HW HA].
  destruct (NoDup_keys_split _ _ _ _ (rel_keys _ _ _ R)) as (Hk1 & Hk2 & Hnd).
  pose proof (rel_cap _ _ _ R) as [Hc1 Hc2]. rewrite length_app in Hc2. cbn [length] in Hc2.
  constructor; cbn [lst items cap].
  - done.
  - pose proof (NoDup_middle _ _ _ (rel_nodup _ _ _ R)) as Hx.
    apply NoDup_cons in Hx as [Hx1 Hx2]. apply NoDup_cons in Hx2 as [_ Hx2].
    apply NoDup_cons. split; [set_solver|done].
  - apply Forall2_app; [eapply entries_frame; [exact HF1|..]|eapply entries_frame; [exact HF2|..]];
      cbn; intros; rewrite ?HW; try done; rewrite lookup_delete_ne; [done|set_solver|done|set_solver].
  - done.
  - intros k' Hk'. destruct (decide (k' = k)) as [->|];
      [rewrite lookup_delete_eq in Hk'; by destruct Hk'|].
    rewrite lookup_delete_ne in Hk' by done. apply (rel_dom _ _ _ R) in Hk'.
    rewrite fmap_app in *. cbn [fmap list_fmap fst] in *. set_solver.
  - intros q. rewrite HW, HA. apply (rel_alloc _ _ _ R).
  - rewrite length_app. lia.
Qed.

Lemma rel_snoc locs c l k x :
  rel_at locs c (l ++ [(k, x)]) →
  ∃ ps p, locs = ps ++ [p] ∧ Forall2 (entry c) ps l ∧ entry c p (k, x).
Proof.
  intros R. pose proof (rel_entries _ _ _ R) as HF. apply Forall2_app_inv_r in HF as (ps & qs & HF1 & HF2 & ->).
  apply Forall2_cons_inv_r in HF2 as (p & p2 & He & HF2 & ->). inversion HF2. by exists ps, p.
Qed.

(** Adding a key that is absent while there is room. *)
Lemma rel_add_room c locs l k x :
  rel_at locs c l → Z.of_nat (length l) < cap c → k ∉ l.*1 →
  let '(e, l0) := newElem (lst c) in
  ∃ l', (set_v k e l0 ≫= pushElem e) = Ok l' ∧
    Rel (MkLRU l' (<[k := (e, x)]> (items c)) (cap c)) ((k, x) :: l).
Proof.
  intros R Hroom Hk. unfold newElem. set (l0 := MkList _ _). set (e := alloc (lst c)).
  assert (∀ p, vof l0 p = if decide (p = e) then Some inhabitant else vof (lst c) p) as HV.
  { intros p. unfold vof, l0. cbn. destruct (decide (p = e)) as [->|].
    - by rewrite lookup_insert_eq.
    - by rewrite lookup_insert_ne. }
  assert (∀ q, q ∈ root :: locs → q ≠ e) as Hfresh.
  { intros q Hq ->. eapply ring_live in Hq; [|apply (rel_ring _ _ _ R)].
    apply (rel_alloc _ _ _ R) in Hq. unfold e in Hq. lia. }
  assert (is_Some (vof l0 e)) as Le by (rewrite HV, decide_True; eauto).
  destruct (set_v_ok k e l0 Le) as (l1 & Hset & _). rewrite Hset. cbn [mbind res_bind].
  destruct (rel_push c locs l e k x l0 l1 (items c)) as (l' & -> & R'); try done.
  - intros He. by apply (Hfresh e).
  - unfold ring. eapply chain_frame; [apply (rel_ring _ _ _ R)| |]; intros q Hq.
    + assert (q ≠ e) by (apply Hfresh; rewrite app_comm_cons, removelast_last in Hq; set_solver).
      unfold nxt, l0. cbn. by rewrite lookup_insert_ne.
    + assert (q ≠ e) by (apply Hfresh; cbn in Hq; set_solver).
      unfold prv, l0. cbn. by rewrite lookup_insert_ne.
  - intros q Hq. rewrite HV, decide_False; [done|]. apply Hfresh. by right.
  - intros q. rewrite HV. cbn. destruct (decide (q = e)) as [->|]; [unfold e; lia|].
    intros Hq. apply (rel_alloc _ _ _ R) in Hq. lia.
  - exists l'. split; [done|]. by exists (e :: locs).
Qed.

Lemma value_of_hit c p k x : entry c p (k, x) → value_of c k = x.
Proof. intros [_ He]. unfold value_of. cbn in He. by rewrite He. Qed.

(** [removeLast] unlinks the least recently used entry and keeps its element. *)
Lemma removeLast_spec locs c l k x :
  rel_at locs c (l ++ [(k, x)]) →
  ∃ ps p la, locs = ps ++ [p] ∧ removeLast (lst c) = Ok (Some p, la) ∧ remove (Some p) (lst c) = Ok la ∧
    (∃ y, load la (Some p) = Ok y ∧ v y = k) ∧ (∃ y, load (lst c) (Some p) = Ok y ∧ v y = k) ∧
    value_of c k = x ∧ keeps (lst c) la ∧
    rel_at ps (MkLRU la (base.delete k (items c)) (cap c)) l.
Proof.
  intros R. destruct (rel_snoc _ _ _ _ _ R) as (ps & p & -> & HF & He).
  destruct (remove_ok _ _ _ _ (rel_ring _ _ _ R) (rel_nodup _ _ _ R)) as (la & Hrem & Hr & HK).
  exists ps, p, la. split; [done|].
  pose proof HK as [HW HA]. pose proof He as [He1 _]. cbn in He1.
  unfold removeLast. rewrite (last_elem_ok _ _ (rel_ring _ _ _ R) (rel_nodup _ _ _ R)), last_snoc.
  cbn [mbind res_bind]. rewrite Hrem. cbn [mbind res_bind].
  destruct (load_ok la p) as (y & Hy & _ & _ & Wy); [rewrite HW, He1; eauto|].
  destruct (load_ok (lst c) p) as (z & Hz & _ & _ & Wz); [rewrite He1; eauto|].
  split_and!; [done|done| | |by eapply value_of_hit|done|].
  - exists y. split; [done|]. congruence.
  - exists z. split; [done|]. congruence.
  - rewrite <-(app_nil_r ps), <-(app_nil_r l). by eapply rel_remove.
Qed.

(** [Add3] never panics; it replaces the value of a known key, otherwise evicts
    the least recently used entry exactly when the cache is full. *)
Lemma Add3_spec c l k x :
  Rel c l →
  ∃ c', Add3 k x c = Ok (fst (spec_add (cap c) k x l), c') ∧ Rel c' (snd (spec_add (cap c) k x l)) ∧
    cap c' = cap c.
Proof.
  intros [locs R]. unfold Add3, spec_add. destruct (items c !! k) as [[e x0]|] eqn:Hk.
  - destruct (rel_at_split _ _ _ _ _ _ R Hk) as (p1 & p & p2 & l1 & l2 & -> & -> & -> & HF1 & HF2 & He).
    destruct (NoDup_keys_split _ _ _ _ (rel_keys _ _ _ R)) as (Hk1 & _).
    rewrite assoc_hit by done. rewrite del_hit by apply (rel_keys _ _ _ R).
    destruct (moveToFront_ok _ _ _ _ (rel_ring _ _ _ R) (rel_nodup _ _ _ R)) as (l' & -> & Hr & HK).
    eexists. split; [done|]. split; [|done]. exists (p :: p1 ++ p2). by eapply rel_front.
  - pose proof (rel_at_None _ _ _ _ R Hk) as Hmiss. rewrite assoc_miss by done.
    rewrite (rel_Len _ _ _ R). pose proof (rel_cap _ _ _ R) as [Hc1 Hc2].
    destruct (decide (cap c <= Z.of_nat (length l))) as [Hfull|Hroom].
    + destruct l as [|[k1 x1] l _] using rev_ind; [cbn in Hfull; lia|].
      destruct (removeLast_spec _ _ _ _ _ R)
        as (ps & p & la & -> & -> & _ & (y & Ey & <-) & _ & <- & [HW HA] & R1).
      cbn [mbind res_bind]. rewrite Ey. cbn [mbind res_bind]. rewrite last_snoc, removelast_last.
      rewrite length_app in Hc2. cbn [length] in Hc2. rewrite fmap_app in Hmiss.
      assert (is_Some (vof la p)) as Lp.
      { rewrite HW. eapply ring_live; [apply (rel_ring _ _ _ R)|]. set_solver. }
      destruct (set_v_ok k p la Lp) as (l1 & Hset & _). rewrite Hset. cbn [mbind res_bind].
      pose proof (NoDup_middle _ _ _ (rel_nodup _ _ _ R)) as Hnd. rewrite app_nil_r in Hnd.
      apply NoDup_cons in Hnd as [Hnd1 Hnd2]. apply NoDup_cons in Hnd2 as [Hnd2 _].
      destruct (rel_push _ ps l p k x la l1 (base.delete (v y) (items c)) R1) as (l' & -> & R'); try done;
        [cbn; lia|set_solver|set_solver|apply (rel_ring _ _ _ R1)|apply (rel_alloc _ _ _ R1)|].
      eexists. split; [done|]. split; [|done]. by eexists.
    + pose proof (rel_add_room c locs l k x R ltac:(lia) Hmiss) as Hadd.
      destruct (newElem (lst c)) as [e l0]. destruct Hadd as (l' & Hpush & R'). cbn [mbind res_bind] in *.
      destruct (set_v k e l0) as [l1| |]; cbn [mbind res_bind] in *; [|done..]. rewrite Hpush.
      eexists. split; [done|]. by split.
Qed.

Lemma Remove_spec c l k :
  Rel c l →
  ∃ c', Remove k c = Ok (bool_decide (is_Some (assoc k l)), c') ∧ Rel c' (del k l) ∧ cap c' = cap c.
Proof.
  intros [locs R]. unfold Remove. destruct (items c !! k) as [[e x]|] eqn:Hk.
  - destruct (rel_at_split _ _ _ _ _ _ R Hk) as (p1 & p & p2 & l1 & l2 & -> & -> & -> & HF1 & HF2 & He).
    destruct (NoDup_keys_split _ _ _ _ (rel_keys _ _ _ R)) as (Hk1 & _).
    rewrite assoc_hit by done. rewrite del_hit by apply (rel_keys _ _ _ R).
    destruct (remove_ok _ _ _ _ (rel_ring _ _ _ R) (rel_nodup _ _ _ R)) as (l' & -> & Hr & HK).
    eexists. split; [done|]. split; [|done]. exists (p1 ++ p2). by eapply rel_remove.
  - pose proof (rel_at_None _ _ _ _ R Hk) as Hmiss. rewrite assoc_miss by done.
    exists c. split; [done|]. split; [|done]. rewrite del_miss by done. by exists locs.
Qed.

Lemma RemoveOldest_spec c l :
  Rel c l → ∃ c', RemoveOldest c = Ok (list.last l, c') ∧ Rel c' (removelast l) ∧ cap c' = cap c.
Proof.
  intros [locs R]. unfold RemoveOldest. rewrite (last_elem_ok _ _ (rel_ring _ _ _ R) (rel_nodup _ _ _ R)).
  cbn [mbind res_bind]. destruct l as [|[k x] l _] using rev_ind.
  - pose proof (rel_entries _ _ _ R) as HF. apply Forall2_nil_inv_r in HF as ->. cbn.
    exists c. split; [done|]. split; [by exists []|done].
  - destruct (removeLast_spec _ _ _ _ _ R) as (ps & p & la & -> & _ & Hrem & _ & (y & Ey & <-) & <- & _ & R1).
    rewrite !last_snoc, removelast_last, Ey. cbn [mbind res_bind]. rewrite Hrem. cbn [mbind res_bind].
    eexists. split; [done|]. split; [by exists ps|done].
Qed.

Lemma GetOldest_spec c l : Rel c l → GetOldest c = Ok (list.last l).
Proof.
  intros [locs R]. unfold GetOldest. rewrite (last_elem_ok _ _ (rel_ring _ _ _ R) (rel_nodup _ _ _ R)).
  cbn [mbind res_bind]. destruct l as [|[k x] l _] using rev_ind.
  - pose proof (rel_entries _ _ _ R) as HF. apply Forall2_nil_inv_r in HF as ->. done.
  - destruct (removeLast_spec _ _ _ _ _ R) as (ps & p & la & -> & _ & _ & _ & (y & Ey & <-) & <- & _ & R1).
    by rewrite !last_snoc, Ey.
Qed.

Lemma Purge_spec c l : Rel c l → Rel (Purge c) [].
Proof.
  intros [locs R]. exists []. unfold Purge, init. constructor; cbn.
  - unfold nxt, prv. cbn. by rewrite !lookup_insert_eq.
  - apply NoDup_singleton.
  - constructor.
  - constructor.
  - intros k [? Hk]. by rewrite lookup_empty in Hk.
  - intros p Hp. apply (rel_alloc _ _ _ R). unfold vof in *. cbn in Hp.
    destruct (decide (p = root)) as [->|];
      [eapply ring_live; [apply (rel_ring _ _ _ R)|by left] | by rewrite lookup_insert_ne in Hp].
  - pose proof (rel_cap _ _ _ R). lia.
Qed.

Lemma Keys_spec c l : Rel c l → Keys c = Ok (reverse l.*1).
Proof.
  intros [locs R]. unfold Keys, appendTo.
  destruct (load_ok (lst c) root) as (r & -> & _ & Pr & _);
    [eapply ring_live; [apply (rel_ring _ _ _ R)|by left]|].
  cbn [mbind res_bind]. rewrite Pr, (ring_last _ _ (rel_ring _ _ _ R)).
  change (reverse l.*1) with ([] ++ reverse l.*1). apply (appendTo_loop_ok _ locs []); rewrite ?app_nil_r; [apply (rel_ring _ _ _ R)|apply (rel_nodup _ _ _ R)|..].
  - apply Forall2_fmap_r. eapply Forall2_impl; [apply (rel_entries _ _ _ R)|]. by intros p [k x] [? _].
  - rewrite <-(size_list_to_set (C := gset nat) locs), <-size_dom
      by (pose proof (rel_nodup _ _ _ R) as Hnd; by apply NoDup_cons in Hnd as [_ Hnd]).
    apply subseteq_size. intros p Hp%elem_of_list_to_set. apply elem_of_dom.
    assert (is_Some (vof (lst c) p)) as Hv by (eapply ring_live; [apply (rel_ring _ _ _ R)|by right]).
    unfold vof in Hv. by apply fmap_is_Some in Hv.
Qed.

Lemma Peek_spec c l k : Rel c l → Peek k c = assoc k l.
Proof.
  intros [locs R]. unfold Peek. destruct (items c !! k) as [[e x]|] eqn:Hk.
  - destruct (rel_at_split _ _ _ _ _ _ R Hk) as (p1 & p & p2 & l1 & l2 & -> & -> & -> & HF1 & HF2 & He).
    destruct (NoDup_keys_split _ _ _ _ (rel_keys _ _ _ R)) as (Hk1 & _). by rewrite assoc_hit.
  - by rewrite assoc_miss by (by eapply rel_at_None).
Qed.

(** ** Every history of calls *)

(** The calls of the cache's interface and what they return. *)
Inductive op : Type :=
| OAdd (k : K) (x : V) | OGet (k : K) | OContains (k : K) | OPeek (k : K) | OGetOldest
| ORemove (k : K) | ORemoveOldest | OLen | OKeys | OPurge.

Inductive out : Type :=
| RUnit | RBool (b : bool) | RVal (x : option V) | REntry (kx : option (K * V)) | RInt (z : Z) | RKeys (ks : list K).

Definition exec (o : op) (c : BasicLRU) : res E (out * BasicLRU) :=
  match o with
  | OAdd k x => '(ev, c) ← Add k x c; Ok (RBool ev, c)
  | OGet k => '(x, c) ← Get k c; Ok (RVal x, c)
  | OContains k => Ok (RBool (Contains k c), c)
  | OPeek k => Ok (RVal (Peek k c), c)
  | OGetOldest => kx ← GetOldest c; Ok (REntry kx, c)
  | ORemove k => '(b, c) ← Remove k c; Ok (RBool b, c)
  | ORemoveOldest => '(kx, c) ← RemoveOldest c; Ok (REntry kx, c)
  | OLen => Ok (RInt (Len c), c)
  | OKeys => ks ← Keys c; Ok (RKeys ks, c)
  | OPurge => Ok (RUnit, Purge c)
  end.

Definition spec_exec (capacity : Z) (o : op) (l : list (K * V)) : out * list (K * V) :=
  match o with
  | OAdd k x => let '(ev, l) := spec_add capacity k x l in (RBool (bool_decide (is_Some ev)), l)
  | OGet k => let '(x, l) := spec_get k l in (RVal x, l)
  | OContains k => (RBool (bool_decide (is_Some (assoc k l))), l)
  | OPeek k => (RVal (assoc k l), l)
  | OGetOldest => (REntry (list.last l), l)
  | ORemove k => (RBool (bool_decide (is_Some (assoc k l))), del k l)
  | ORemoveOldest => (REntry (list.last l), removelast l)
  | OLen => (RInt (Z.of_nat (length l)), l)
  | OKeys => (RKeys (reverse l.*1), l)
  | OPurge => (RUnit, [])
  end.

Fixpoint run (ops : list op) (c : BasicLRU) : res E (list out) :=
  match ops with
  | [] => Ok []
  | o :: ops => '(r, c) ← exec o c; rs ← run ops c; Ok (r :: rs)
  end.

Fixpoint spec_run (capacity : Z) (ops : list op) (l : list (K * V)) : list out :=
  match ops with
  | [] => []
  | o :: ops => let '(r, l) := spec_exec capacity o l in r :: spec_run capacity ops l
  end.

Lemma exec_spec o c l :
  Rel c l →
  ∃ c', exec o c = Ok (fst (spec_exec (cap c) o l), c') ∧ Rel c' (snd (spec_exec (cap c) o l)) ∧ cap c' = cap c.
Proof.
  intros R. destruct o; cbn [exec spec_exec].
  - destruct (Add3_spec _ _ k x R) as (c' & Ha & R' & Hc). unfold Add. rewrite Ha.
    destruct (spec_add _ _ _ _). by exists c'.
  - destruct (Get_spec _ _ k R) as (c' & -> & R' & Hc). destruct (spec_get _ _). by exists c'.
  - exists c. rewrite <-(Peek_spec _ _ _ R). unfold Contains, Peek.
    split_and!; [|done|done]. cbn. do 3 f_equal. apply bool_decide_ext. by rewrite fmap_is_Some.
  - exists c. by rewrite (Peek_spec _ _ _ R).
  - exists c. by rewrite (GetOldest_spec _ _ R).
  - destruct (Remove_spec _ _ k R) as (c' & -> & R' & Hc). by exists c'.
  - destruct (RemoveOldest_spec _ _ R) as (c' & -> & R' & Hc). by exists c'.
  - exists c. destruct R as [locs R]. rewrite (rel_Len _ _ _ R). split_and!; [done|by exists locs|done].
  - exists c. by rewrite (Keys_spec _ _ R).
  - exists (Purge c). split_and!; [done|by eapply Purge_spec|done].
Qed.

Lemma run_spec ops c l : Rel c l → run ops c = Ok (spec_run (cap c) ops l).
Proof.
  revert c l. induction ops as [|o ops IH]; intros c l R; [done|]. cbn [run spec_run].
  destruct (exec_spec o c l R) as (c' & -> & R' & Hc). cbn [mbind res_bind].
  destruct (spec_exec _ _ _) as [r l']. rewrite (IH _ _ R'), Hc. done.
Qed.

(** C34: the pointer-based cache of [common/lru] refines an association list kept in
    order of use: on every sequence of calls from a new cache it never follows a nil
    pointer and returns exactly what the list of bounded length returns (the values,
    the evictions, the key order, the length). *)
Theorem lru_refines (capacity : Z) (ops : list op) :
  run ops (NewBasicLRU capacity) = Ok (spec_run (Z.max 1 capacity) ops []).
Proof.
  rewrite (run_spec _ _ [] (NewBasicLRU_Rel capacity)). do 2 f_equal.
  cbn. destruct (decide (capacity <= 0)); lia.
Qed.
End lru.

Arguments listElem : clear implicits.
Arguments dlist : clear implicits.
Arguments BasicLRU K V {_ _}.
Arguments op : clear implicits.
Arguments out : clear implicits.
End LRU.
