(* ===== verification/Seal.v ===== *)
(** * Clique seals: what is signed and who signed it

    [consensus/clique/clique.go] ([encodeSigHeader], [CliqueRLP], [SealHash],
    [ecrecover]) with the Go side of [crypto/secp256k1/secp256.go]
    ([RecoverPubkey], [checkSignature]). The elliptic-curve recovery itself is C
    code behind cgo: it is the argument [ext_recover] of every definition that
    reaches it. The signature cache of the engine is threaded through. *)
From Stdlib Require Import ZArith Lia.
From Stdlib Require Strings.Byte.
From stdpp Require Import base tactics decidable list numbers gmap.
From S2P Require Import Prelude Keccak Common Rlp Types Fees Lru.

(** ** Errors of the engine *)
Inductive clique_error : Type :=
| errUnknownBlock | errInvalidCheckpointBeneficiary | errInvalidVote | errInvalidCheckpointVote
| errMissingVanity | errMissingSignature | errExtraSigners | errInvalidCheckpointSigners
| errMismatchingCheckpointSigners | errInvalidMixDigest | errInvalidUncleHash | errInvalidDifficulty
| errWrongDifficulty | errInvalidTimestamp | errInvalidVotingChain | errUnauthorizedSigner
| errRecentlySigned
| ErrFutureBlock | ErrUnknownAncestor
| ErrInvalidMsgLen | ErrInvalidSignatureLen | ErrInvalidRecoveryID | ErrRecoverFailed
| ErrGasLimitTooLarge | ErrShanghai | ErrWithdrawalsHash | ErrCancun
| ErrExcessBlobGas | ErrBlobGasUsed | ErrParentBeaconRoot | ErrSlotNumber
| ErrGasUsed | ErrBaseFeeBeforeFork | ErrFee (e : fee_error)
| ErrUncles | ErrWithdrawals | ErrDatabase | ErrFuel.

(** ** Protocol constants *)
Definition checkpointInterval : Z := 1024.
Definition epochLength : Z := 30000.
Definition extraVanity : nat := 32.
Definition SignatureLength : nat := 65.
Definition extraSeal : nat := SignatureLength.
Definition nonceAuthVote : bytes := replicate 8 Byte.xff.
Definition nonceDropVote : bytes := replicate 8 Byte.x00.
Definition diffInTurn : Z := 2.
Definition diffNoTurn : Z := 1.

(** [CalcUncleHash(nil)], the hash of the empty RLP list. *)
Definition uncleHash : Hash := Keccak256 [EncodeToBytes (Lst [])].

(** ** The signed part of a header *)

(** [encodeSigHeader]: the writer receives the bytes; every failure is a panic. *)
Definition encodeSigHeader (header : Header) : res clique_error bytes :=
  if decide (length (Extra header) < SignatureLength)%nat then Panic
  else if isSome (WithdrawalsHash header) then Panic
  else if isSome (ExcessBlobGas header) then Panic
  else if isSome (BlobGasUsed header) then Panic
  else if isSome (ParentBeaconRoot header) then Panic
  else if isSome (SlotNumber header) then Panic
  else
    let '(w, lh) := eb_list reset in
    let encoded :=
      let w := writeBytes (ParentHash header) w in
      let w := writeBytes (UncleHash header) w in
      let w := writeBytes (Coinbase header) w in
      let w := writeBytes (Root header) w in
      let w := writeBytes (TxHash header) w in
      let w := writeBytes (ReceiptHash header) w in
      let w := writeBytes (Bloom header) w in
      w ← writeBigIntPtr (Difficulty header) w;
      w ← writeBigIntPtr (Number header) w;
      let w := writeUint64 (GasLimit header) w in
      let w := writeUint64 (GasUsed header) w in
      let w := writeUint64 (Time header) w in
      let w := writeBytes (take (length (Extra header) - SignatureLength) (Extra header)) w in
      let w := writeBytes (MixDigest header) w in
      let w := writeBytes (Nonce header) w in
      w ← (match BaseFee header with
           | Some _ => writeBigIntPtr (BaseFee header) w
           | None => Ok w
           end);
      Ok (makeBytes (listEnd lh w)) in
    match encoded with Ok b => Ok b | _ => Panic end.

Definition CliqueRLP (header : Header) : res clique_error bytes := encodeSigHeader header.

Definition SealHash (header : Header) : res clique_error Hash :=
  b ← encodeSigHeader header;
  Ok (Keccak256 [b]).

(** ** Signature recovery *)

Definition checkSignature (sig : bytes) : res clique_error () :=
  if decide (length sig ≠ 65%nat) then Err ErrInvalidSignatureLen
  else if decide (4 <= b2z (nth 64 sig Byte.x00)) then Err ErrInvalidRecoveryID
  else Ok ().

Abbreviation sigLRU := (LRU.BasicLRU Hash Address).

Section recover.
(** [secp256k1_ext_ecdsa_recover sig msg]: the 65-byte public key, if any. *)
Context (ext_recover : bytes → bytes → option bytes).

Definition RecoverPubkey (msg sig : bytes) : res clique_error bytes :=
  if decide (length msg ≠ 32%nat) then Err ErrInvalidMsgLen
  else
    _ ← checkSignature sig;
    match ext_recover sig msg with None => Err ErrRecoverFailed | Some pubkey => Ok pubkey end.

Definition Ecrecover (hash sig : bytes) : res clique_error bytes := RecoverPubkey hash sig.

(** The recovery that [ecrecover] performs when the cache has no entry. *)
Definition recover_signer (header : Header) : res clique_error Address :=
  if decide (length (Extra header) < extraSeal)%nat then Err errMissingSignature
  else
    let signature := drop (length (Extra header) - extraSeal) (Extra header) in
    sealed ← SealHash header;
    pubkey ← Ecrecover sealed signature;
    Ok (drop 12 (Keccak256 [drop 1 pubkey])).

(** [ecrecover]: the outcome and the cache afterwards. *)
Definition ecrecover (header : Header) (sigcache : sigLRU) : res clique_error Address * sigLRU :=
  let hash := Header_Hash header in
  match LRU.Get hash sigcache with
  | Ok (Some address, sigcache) => (Ok address, sigcache)
  | Ok (None, sigcache) =>
      match recover_signer header with
      | Ok signer =>
          match LRU.Add hash signer sigcache with
          | Ok (_, sigcache) => (Ok signer, sigcache)
          | Err e => (Err e, sigcache)
          | Panic => (Panic, sigcache)
          end
      | Err e => (Err e, sigcache)
      | Panic => (Panic, sigcache)
      end
  | Err e => (Err e, sigcache)
  | Panic => (Panic, sigcache)
  end.
End recover.

(** ** What the seal covers *)

Definition sig_items (h : Header) : list item :=
  [Str (ParentHash h); Str (UncleHash h); Str (Coinbase h); Str (Root h); Str (TxHash h);
   Str (ReceiptHash h); Str (Bloom h); enc_big (Difficulty h); enc_big (Number h);
   enc_num (GasLimit h); enc_num (GasUsed h); enc_num (Time h);
   Str (take (length (Extra h) - SignatureLength) (Extra h));
   Str (MixDigest h); Str (Nonce h)] ++
  match BaseFee h with Some z => [enc_num z] | None => [] end.

(** A header of the Clique era: the fields the seal refuses are absent and the
    extra data holds a signature. *)
Definition clique_header (h : Header) : Prop :=
  Header_ok h ∧ (SignatureLength <= length (Extra h))%nat ∧
  WithdrawalsHash h = None ∧ ExcessBlobGas h = None ∧ BlobGasUsed h = None ∧
  ParentBeaconRoot h = None ∧ SlotNumber h = None ∧
  Z.of_nat (length (enc_seq (sig_items h))) < two64.

Lemma encodeSigHeader_items h :
  clique_header h → encodeSigHeader h = Ok (enc (Lst (sig_items h))).
Proof.
  intros ((HD & HN & HB & HL & HU & HT & _) & Hx & E1 & E2 & E3 & E4 & E5 & Hlen).
  unfold encodeSigHeader. rewrite decide_False by lia. rewrite E1, E2, E3, E4, E5. cbn [isSome].
  rewrite <-list_of_items by done. 
  change (eb_list reset) with (fst (eb_list reset), 0%nat). cbv beta iota zeta.
  repeat first [ rewrite writeBytes_enc | rewrite writeBigIntPtr_enc by done
               | rewrite writeUint64_enc by done | progress cbn [mbind res_bind] ].
  unfold sig_items. destruct (BaseFee h) as [z|]; cbn [mbind res_bind];
    try change (enc_big (Some z)) with (enc_num z);
    do 3 f_equal; change (enc_str ?b) with (enc (Str b)); change (enc_uint ?i) with (enc (enc_num i));
    rewrite !eb_Write_one, !eb_Write_seq; reflexivity.
Qed.

(** The value a nil [*big.Int] has in an encoding. *)
Definition big_val (x : option Z) : Z := default 0 x.

Lemma enc_big_inj x y :
  opt_all (λ z, 0 <= z) x → opt_all (λ z, 0 <= z) y → enc_big x = enc_big y → big_val x = big_val y.
Proof.
  assert (∀ x, opt_all (λ z, 0 <= z) x →
    SetBytes (match x with Some z => big_Bytes z | None => [] end) = big_val x) as H.
  { intros [z|]; [apply SetBytes_big_Bytes | done]. }
  intros Hx Hy [= E]. rewrite <-(H x Hx), <-(H y Hy), E. done.
Qed.

Lemma enc_num_inj x y : 0 <= x → 0 <= y → enc_num x = enc_num y → x = y.
Proof. intros Hx Hy E. by apply (enc_big_inj (Some x) (Some y)). Qed.

(** The part of the extra data before the signature. *)
Definition unsigned_extra (h : Header) : bytes := take (length (Extra h) - SignatureLength) (Extra h).

(** Two headers agree on everything the seal covers. *)
Definition same_sealed (h1 h2 : Header) : Prop :=
  ParentHash h1 = ParentHash h2 ∧ UncleHash h1 = UncleHash h2 ∧ Coinbase h1 = Coinbase h2 ∧
  Root h1 = Root h2 ∧ TxHash h1 = TxHash h2 ∧ ReceiptHash h1 = ReceiptHash h2 ∧ Bloom h1 = Bloom h2 ∧
  big_val (Difficulty h1) = big_val (Difficulty h2) ∧ big_val (Number h1) = big_val (Number h2) ∧
  GasLimit h1 = GasLimit h2 ∧ GasUsed h1 = GasUsed h2 ∧ Time h1 = Time h2 ∧
  unsigned_extra h1 = unsigned_extra h2 ∧ MixDigest h1 = MixDigest h2 ∧ Nonce h1 = Nonce h2 ∧
  BaseFee h1 = BaseFee h2.

Lemma Lst_inj l1 l2 : Lst l1 = Lst l2 → l1 = l2.
Proof. congruence. Qed.

(** the bytes that a Clique signer signs determine every covered field: two
    headers of the Clique era with the same [CliqueRLP] agree on all of them (a nil
    difficulty or number counting as zero), so a seal cannot be moved to a header with
    a different parent, state, vote, gas, time, signer list or base fee. *)
Theorem CliqueRLP_binds h1 h2 :
  clique_header h1 → clique_header h2 → Z.of_nat (length (enc (Lst (sig_items h1)))) < two64 →
  CliqueRLP h1 = CliqueRLP h2 → same_sealed h1 h2.
Proof.
  intros C1 C2 Hlen. unfold CliqueRLP.
  rewrite (encodeSigHeader_items _ C1), (encodeSigHeader_items _ C2). intros E%Ok_inj.
  apply enc_inj in E; [|done]. apply Lst_inj in E. clear Hlen.
  destruct C1 as ((HD1 & HN1 & HB1 & HL1 & HU1 & HT1 & _) & _).
  destruct C2 as ((HD2 & HN2 & HB2 & HL2 & HU2 & HT2 & _) & _).
  unfold sig_items in E. cbn [app] in E. unfold is_u64 in *.
  injection E as P1 P2 P3 P4 P5 P6 P7 P8 P9 P10 P11 P12 P13 P14 P15 P16.
  unfold same_sealed. split_and!; try done.
  - by apply enc_big_inj; [..|unfold enc_big; f_equal].
  - by apply enc_big_inj; [..|unfold enc_big; f_equal].
  - apply enc_num_inj; [lia..|]. unfold enc_num. by f_equal.
  - apply enc_num_inj; [lia..|]. unfold enc_num. by f_equal.
  - apply enc_num_inj; [lia..|]. unfold enc_num. by f_equal.
  - destruct (BaseFee h1) as [b1|], (BaseFee h2) as [b2|]; cbn in HB1, HB2; try done.
    f_equal. injection P16 as P16. apply enc_num_inj; [lia..|]. unfold enc_num. by f_equal.
Qed.

(** A sealed block 7 of a Clique chain, with a given signature and requests hash. *)
Definition sealed_header (sig : byte) (requests : option Hash) : Header :=
  MkHeader Hash0 uncleHash Address0 Hash0 Hash0 Hash0 (replicate 256 Byte.x00) (Some 2) (Some 7)
    8000000 21000 100 (replicate 32 Byte.x00 ++ replicate 65 sig) Hash0 nonceDropVote
    (Some 7) None None None None requests None.

Lemma sealed_header_clique sig r : clique_header (sealed_header sig r).
Proof.
  unfold clique_header, Header_ok, opt_all, is_u64. rewrite !two64_val. cbn.
  split_and!; first [done | unfold SignatureLength; lia | vm_compute; reflexivity].
Qed.

Lemma CliqueRLP_binds_witness :
  same_sealed (sealed_header Byte.x01 None) (sealed_header Byte.x02 None).
Proof.
  apply CliqueRLP_binds; [apply sealed_header_clique..|vm_compute; reflexivity|vm_compute; reflexivity].
Defined.

(** the seal does not cover the requests hash: there are two headers, equal in
    every other field, signature included, with different block hashes and the same
    seal hash, so one signature authenticates both. *)
Theorem seal_ignores_RequestsHash :
  ∃ h1 h2, is_ok (SealHash h1) = true ∧ SealHash h1 = SealHash h2 ∧ Extra h1 = Extra h2 ∧
    Header_Hash h1 ≠ Header_Hash h2.
Proof.
  exists (sealed_header Byte.x01 None), (sealed_header Byte.x01 (Some Hash0)).
  split_and!; [vm_compute; reflexivity..|]. vm_compute. congruence.
Qed.

(** ** The signature cache is transparent *)

Section cache.
Context (ext_recover : bytes → bytes → option bytes).

(** The cache's entries for the headers [H] are what recovery gives. *)
Definition sig_ok (H : list Header) (c : sigLRU) : Prop :=
  ∃ l, LRU.Rel c l ∧ ∀ h a, h ∈ H → (Header_Hash h, a) ∈ l → recover_signer ext_recover h = Ok a.

Definition collision_free (H : list Header) : Prop :=
  ∀ h1 h2, h1 ∈ H → h2 ∈ H → Header_Hash h1 = Header_Hash h2 → h1 = h2.

Lemma assoc_elem {K V} `{Countable K} (k : K) (x : V) l : LRU.assoc k l = Some x → (k, x) ∈ l.
Proof.
  unfold LRU.assoc. induction l as [|[k' x'] l IH]; cbn; [done|].
  destruct (decide (k' = k)) as [->|Hne].
  - rewrite bool_decide_eq_true_2 by done. cbn. intros [= ->]. by left.
  - rewrite bool_decide_eq_false_2 by done. intros E. right. by apply IH.
Qed.

Lemma del_elem {K V} `{Countable K} (k : K) (kx : K * V) l : kx ∈ LRU.del k l → kx ∈ l.
Proof. unfold LRU.del. intros [_ Hin]%list_elem_of_filter. done. Qed.

Lemma removelast_elem {A} (x : A) l : x ∈ removelast l → x ∈ l.
Proof.
  destruct l as [|y l _] using rev_ind; [done|]. rewrite removelast_last. intros. apply elem_of_app. by left.
Qed.

Lemma spec_add_elem {K V} `{Countable K} cap (k : K) (x : V) kx l :
  kx ∈ snd (LRU.spec_add cap k x l) → kx = (k, x) ∨ kx ∈ l.
Proof.
  unfold LRU.spec_add. destruct (LRU.assoc k l); cbn; [|destruct (decide _); cbn];
    intros [->|Hin]%elem_of_cons; eauto using del_elem, removelast_elem.
Qed.

Lemma ecrecover_ok H h c :
  collision_free H → h ∈ H → sig_ok H c →
  fst (ecrecover ext_recover h c) = recover_signer ext_recover h ∧ sig_ok H (snd (ecrecover ext_recover h c)).
Proof.
  intros Hcf Hh (l & R & Hl). unfold ecrecover.
  destruct (LRU.Get_spec (E := clique_error) c l (Header_Hash h) R) as (c' & -> & R' & _).
  unfold LRU.spec_get in *. destruct (LRU.assoc (Header_Hash h) l) as [a|] eqn:Ea; cbn [fst snd] in *.
  - pose proof (assoc_elem _ _ _ Ea) as Hin. split; [symmetry; by eapply Hl|].
    eexists. split; [exact R'|]. intros h' a' Hh' [E|Hin']%elem_of_cons;
      [|by eapply Hl, del_elem].
    injection E as E ->. eapply Hcf in E; [|done..]. subst h'. by eapply Hl.
  - destruct (recover_signer ext_recover h) as [a| |] eqn:Er; cbn [fst snd];
      [|split; [done|]; exists l; done..].
    unfold LRU.Add. destruct (LRU.Add3_spec (E := clique_error) c' l (Header_Hash h) a R') as (c2 & -> & R2 & _).
    cbn. split; [done|]. eexists. split; [exact R2|].
    intros h' a' Hh' [[= E ->]|Hin]%spec_add_elem; [|by eauto].
    eapply Hcf in E; [by subst|done..].
Qed.

(** Recovering the signers of a sequence of headers with one cache. *)
Fixpoint ecrecover_all (hs : list Header) (c : sigLRU) : list (res clique_error Address) :=
  match hs with
  | [] => []
  | h :: hs => let '(r, c) := ecrecover ext_recover h c in r :: ecrecover_all hs c
  end.

Lemma ecrecover_all_ok H hs c :
  collision_free H → Forall (λ h, h ∈ H) hs → sig_ok H c →
  ecrecover_all hs c = recover_signer ext_recover <$> hs.
Proof.
  intros Hcf HF. revert c. induction HF as [|h hs Hh HF IH]; intros c Hc; [done|].
  cbn [ecrecover_all fmap list_fmap].
  destruct (ecrecover_ok H h c Hcf Hh Hc) as [E1 E2]. destruct (ecrecover ext_recover h c) as [r c'].
  cbn in *. by rewrite E1, IH.
Qed.

(** the signature cache is transparent: whatever headers are looked up, in
    whatever order and however often, with the engine's cache of 4096 entries, each
    lookup returns the signer (or the error) that recovering from the header itself
    gives, provided no two of the headers have the same hash. *)
Theorem sigcache_transparent hs :
  collision_free hs →
  ecrecover_all hs (LRU.NewBasicLRU 4096) = recover_signer ext_recover <$> hs.
Proof.
  intros Hcf. apply (ecrecover_all_ok hs); [done|apply Forall_forall; done|].
  exists []. split; [apply LRU.NewBasicLRU_Rel|]. intros h a _ Hin. by apply elem_of_nil in Hin.
Qed.
End cache.

(** A recovery function: the "public key" is built from the message. *)
Definition toy_recover (sig msg : bytes) : option bytes := Some (Byte.x04 :: msg ++ take 32 sig).

Lemma collision_free_pair h1 h2 : Header_Hash h1 ≠ Header_Hash h2 → collision_free [h1; h2; h1].
Proof.
  intros Hne x y Hx Hy. assert (x = h1 ∨ x = h2) as [->| ->] by set_solver;
    assert (y = h1 ∨ y = h2) as [->| ->] by set_solver; congruence.
Qed.

Lemma sigcache_transparent_witness :
  let h1 := sealed_header Byte.x01 None in
  let h2 := sealed_header Byte.x02 None in
  ecrecover_all toy_recover [h1; h2; h1] (LRU.NewBasicLRU 4096) = recover_signer toy_recover <$> [h1; h2; h1].
Proof.
  cbv zeta. apply sigcache_transparent, collision_free_pair. vm_compute. congruence.
Defined.
