(* ===== verification/Snapshot.v ===== *)
(** * Clique authorization snapshots

    [consensus/clique/snapshot.go]: the set of authorized signers at a block, the
    signers of the most recent blocks, the pending votes in chronological order and
    their tally. [apply] replays headers on a copy of a snapshot, so the record is
    passed functionally; the signature cache that [ecrecover] fills is threaded.
    Maps are [gmap]s and sets [gset]s: the code's loops over maps only look for an
    element or collect and sort, so they do not depend on Go's iteration order.

    The invariant [votes_ok] says that the tally counts the pending votes, that each
    signer has at most one vote per account and that votes are meaningful;
    [recents_ok] that the recent signers are those of distinct blocks of the current
    window. Both are preserved by every accepted header. *)
From Stdlib Require Import ZArith Lia.
From Stdlib Require Strings.Byte.
From stdpp Require Import base tactics decidable countable list numbers gmap fin_maps fin_sets sorting.
From S2P Require Import Prelude Keccak Common Rlp Types Fees Lru Seal.

Record CliqueConfig : Type := MkCliqueConfig {
  Period : Z;
  Epoch : Z
}.

Record Vote : Type := MkVote {
  vSigner : Address;
  vBlock : Z;
  vAddress : Address;
  vAuthorize : bool
}.

Record Tally : Type := MkTally {
  tAuthorize : bool;
  tVotes : Z
}.

#[export] Instance Vote_eq_dec : EqDecision Vote.
Proof. solve_decision. Defined.

#[export] Instance Tally_eq_dec : EqDecision Tally.
Proof. solve_decision. Defined.

(** The exported fields and the configuration; the signature cache is shared with
    the engine and passed separately. *)
Record Snapshot : Type := MkSnapshot {
  config : CliqueConfig;
  sNumber : Z;
  sHash : Hash;
  Signers : gset Address;
  Recents : gmap Z Address;
  Votes : list Vote;
  sTally : gmap Address Tally
}.

#[export] Instance Snapshot_inhabited : Inhabited Snapshot :=
  populate (MkSnapshot (MkCliqueConfig 0 0) 0 Hash0 ∅ ∅ [] ∅).

Definition set_Signers (x : gset Address) (s : Snapshot) : Snapshot :=
  MkSnapshot (config s) (sNumber s) (sHash s) x (Recents s) (Votes s) (sTally s).
Definition set_Recents (x : gmap Z Address) (s : Snapshot) : Snapshot :=
  MkSnapshot (config s) (sNumber s) (sHash s) (Signers s) x (Votes s) (sTally s).
Definition set_Votes (x : list Vote) (s : Snapshot) : Snapshot :=
  MkSnapshot (config s) (sNumber s) (sHash s) (Signers s) (Recents s) x (sTally s).
Definition set_Tally (x : gmap Address Tally) (s : Snapshot) : Snapshot :=
  MkSnapshot (config s) (sNumber s) (sHash s) (Signers s) (Recents s) (Votes s) x.

Definition newSnapshot (config : CliqueConfig) (number : Z) (hash : Hash) (signers : list Address) : Snapshot :=
  MkSnapshot config number hash
    (foldl (λ acc signer, {[signer]} ∪ acc) ∅ signers) ∅ [] ∅.

(** [len(s.Signers)/2 + 1]. *)
Definition limit_of (s : Snapshot) : Z := Z.of_nat (size (Signers s)) / 2 + 1.

Definition validVote (s : Snapshot) (address : Address) (authorize : bool) : bool :=
  let signer := bool_decide (address ∈ Signers s) in
  (signer && negb authorize) || (negb signer && authorize).

Definition cast (address : Address) (authorize : bool) (s : Snapshot) : bool * Snapshot :=
  if negb (validVote s address authorize) then (false, s)
  else match sTally s !! address with
       | Some old => (true, set_Tally (<[address := MkTally (tAuthorize old) (tVotes old + 1)]> (sTally s)) s)
       | None => (true, set_Tally (<[address := MkTally authorize 1]> (sTally s)) s)
       end.

Definition uncast (address : Address) (authorize : bool) (s : Snapshot) : bool * Snapshot :=
  match sTally s !! address with
  | None => (false, s)
  | Some tally =>
      if decide (tAuthorize tally ≠ authorize) then (false, s)
      else if decide (1 < tVotes tally)
      then (true, set_Tally (<[address := MkTally (tAuthorize tally) (tVotes tally - 1)]> (sTally s)) s)
      else (true, set_Tally (base.delete address (sTally s)) s)
  end.

(** The loop that discards the signer's previous vote on the account: the first
    match is uncast and cut out of the list. *)
Fixpoint discard_previous (signer coinbase : Address) (before votes : list Vote) (snap : Snapshot) : Snapshot :=
  match votes with
  | [] => snap
  | vote :: after =>
      if decide (vSigner vote = signer ∧ vAddress vote = coinbase)
      then set_Votes (before ++ after) (snd (uncast (vAddress vote) (vAuthorize vote) snap))
      else discard_previous signer coinbase (before ++ [vote]) after snap
  end.

(** The loop that discards the votes a deauthorized signer cast. *)
Fixpoint discard_cast_by (coinbase : Address) (before votes : list Vote) (snap : Snapshot) : Snapshot :=
  match votes with
  | [] => set_Votes before snap
  | vote :: after =>
      if decide (vSigner vote = coinbase)
      then discard_cast_by coinbase before after (snd (uncast (vAddress vote) (vAuthorize vote) snap))
      else discard_cast_by coinbase (before ++ [vote]) after snap
  end.

(** The loop that discards the votes around the changed account. *)
Fixpoint discard_about (coinbase : Address) (before votes : list Vote) (snap : Snapshot) : Snapshot :=
  match votes with
  | [] => set_Votes before snap
  | vote :: after =>
      if decide (vAddress vote = coinbase) then discard_about coinbase before after snap
      else discard_about coinbase (before ++ [vote]) after snap
  end.

(** [if limit := ...; number >= limit { delete(snap.Recents, number-limit) }]. *)
Definition shift_recents (number : Z) (snap : Snapshot) : Snapshot :=
  if decide (limit_of snap <= number)
  then set_Recents (base.delete (number - limit_of snap) (Recents snap)) snap else snap.

(** The head of the loop body, before the signer is known. *)
Definition begin_block (cfg : CliqueConfig) (number : Z) (snap : Snapshot) : res clique_error Snapshot :=
  if decide (Epoch cfg = 0) then Panic
  else
    let snap := if decide (number mod Epoch cfg = 0) then set_Tally ∅ (set_Votes [] snap) else snap in
    Ok (shift_recents number snap).

Definition vote_of_nonce (nonce : bytes) : res clique_error bool :=
  if decide (nonce = nonceAuthVote) then Ok true
  else if decide (nonce = nonceDropVote) then Ok false
  else Err errInvalidVote.

(** [snap.Tally[header.Coinbase]]: the zero tally when there is none. *)
Definition tally_at (snap : Snapshot) (a : Address) : Tally := default (MkTally false 0) (sTally snap !! a).

(** The update of the signer set when a vote has passed. *)
Definition resolve_vote (number : Z) (coinbase : Address) (snap : Snapshot) : Snapshot :=
  let tally := tally_at snap coinbase in
  if decide (Z.of_nat (size (Signers snap)) / 2 < tVotes tally) then
    let snap :=
      if tAuthorize tally then set_Signers ({[coinbase]} ∪ Signers snap) snap
      else
        let snap := set_Signers (Signers snap ∖ {[coinbase]}) snap in
        let snap := shift_recents number snap in
        discard_cast_by coinbase [] (Votes snap) snap in
    let snap := discard_about coinbase [] (Votes snap) snap in
    set_Tally (base.delete coinbase (sTally snap)) snap
  else snap.

(** The rest of the loop body, for the recovered signer. *)
Definition seal_block (number : Z) (signer : Address) (header : Header) (snap : Snapshot) : res clique_error Snapshot :=
  if negb (bool_decide (signer ∈ Signers snap)) then Err errUnauthorizedSigner
  else if bool_decide (map_Exists (λ _ recent, recent = signer) (Recents snap)) then Err errRecentlySigned
  else
    let snap := set_Recents (<[number := signer]> (Recents snap)) snap in
    let snap := discard_previous signer (Coinbase header) [] (Votes snap) snap in
    authorize ← vote_of_nonce (Nonce header);
    let '(counted, snap) := cast (Coinbase header) authorize snap in
    let snap := if counted
                then set_Votes (Votes snap ++ [MkVote signer number (Coinbase header) authorize]) snap
                else snap in
    Ok (resolve_vote number (Coinbase header) snap).

Section apply.
Context (ext_recover : bytes → bytes → option bytes).

Fixpoint apply_loop (cfg : CliqueConfig) (headers : list Header) (snap : Snapshot) (sigcache : sigLRU)
    : res clique_error Snapshot * sigLRU :=
  match headers with
  | [] => (Ok snap, sigcache)
  | header :: headers =>
      match (number ← Uint64 (Number header); snap ← begin_block cfg number snap; Ok (number, snap)) with
      | Ok (number, snap) =>
          match ecrecover ext_recover header sigcache with
          | (Ok signer, sigcache) =>
              match seal_block number signer header snap with
              | Ok snap => apply_loop cfg headers snap sigcache
              | Err e => (Err e, sigcache)
              | Panic => (Panic, sigcache)
              end
          | (Err e, sigcache) => (Err e, sigcache)
          | (Panic, sigcache) => (Panic, sigcache)
          end
      | Err e => (Err e, sigcache)
      | Panic => (Panic, sigcache)
      end
  end.

(** The check that consecutive headers have consecutive numbers. *)
Fixpoint contiguous (headers : list Header) : res clique_error () :=
  match headers with
  | h1 :: (h2 :: _) as rest =>
      n2 ← Uint64 (Number h2);
      n1 ← Uint64 (Number h1);
      if decide (n2 ≠ u64 (n1 + 1)) then Err errInvalidVotingChain else contiguous rest
  | _ => Ok ()
  end.

Definition apply (s : Snapshot) (headers : list Header) (sigcache : sigLRU) : res clique_error Snapshot * sigLRU :=
  match headers with
  | [] => (Ok s, sigcache)
  | first :: _ =>
      match (_ ← contiguous headers;
             n ← Uint64 (Number first);
             if decide (n ≠ u64 (sNumber s + 1)) then Err errInvalidVotingChain else Ok ()) with
      | Ok _ =>
          match apply_loop (config s) headers s sigcache with
          | (Ok snap, sigcache) =>
              (Ok (MkSnapshot (config snap) (u64 (sNumber snap + Z.of_nat (length headers)))
                     (Header_Hash (List.last headers first)) (Signers snap) (Recents snap)
                     (Votes snap) (sTally snap)), sigcache)
          | r => r
          end
      | Err e => (Err e, sigcache)
      | Panic => (Panic, sigcache)
      end
  end.
End apply.

(** [slices.SortFunc] with [Address.Cmp]. *)
Definition addr_le (x y : Address) : Prop := Address_Cmp x y ≠ Gt.

#[export] Instance addr_le_dec x y : Decision (addr_le x y).
Proof. unfold addr_le. apply _. Defined.

Definition signers (s : Snapshot) : list Address := merge_sort addr_le (elements (Signers s)).

(** The loop that finds the signer's index; the length when it is absent. *)
Fixpoint offset_of (signer : Address) (l : list Address) : nat :=
  match l with
  | [] => 0
  | x :: l => if decide (x = signer) then 0 else S (offset_of signer l)
  end.

Definition inturn (s : Snapshot) (number : Z) (signer : Address) : res clique_error bool :=
  let l := signers s in
  if decide (l = []) then Panic
  else Ok (bool_decide (number mod Z.of_nat (length l) = Z.of_nat (offset_of signer l))).

(** ** The votes invariant *)

(** Pending votes about an account. *)
Definition votes_on (a : Address) (V : list Vote) : nat := length (filter (λ v, vAddress v = a) V).

(** [T] counts the votes of [V], with the direction [dir] for each account. *)
Definition tally_ok (dir : Address → bool) (V : list Vote) (T : gmap Address Tally) : Prop :=
  ∀ a, T !! a = if decide (votes_on a V = 0%nat) then None
                else Some (MkTally (dir a) (Z.of_nat (votes_on a V))).

(** The direction a meaningful vote has: to add a stranger, to drop a signer. *)
Definition dir_of (S : gset Address) (a : Address) : bool := bool_decide (a ∉ S).

Definition vote_key (v : Vote) : Address * Address := (vSigner v, vAddress v).

Record votes_ok (s : Snapshot) : Prop := {
  vo_tally : tally_ok (dir_of (Signers s)) (Votes s) (sTally s);
  vo_dir : Forall (λ v, vAuthorize v = dir_of (Signers s) (vAddress v)) (Votes s);
  vo_once : NoDup (vote_key <$> Votes s);
  vo_signer : Forall (λ v, vSigner v ∈ Signers s) (Votes s)
}.

Lemma votes_on_cons a v V :
  votes_on a (v :: V) = ((if decide (vAddress v = a) then 1 else 0) + votes_on a V)%nat.
Proof. unfold votes_on. rewrite filter_cons. by destruct (decide _). Qed.

Lemma votes_on_app a V1 V2 : votes_on a (V1 ++ V2) = (votes_on a V1 + votes_on a V2)%nat.
Proof. unfold votes_on. by rewrite filter_app, length_app. Qed.

Lemma votes_on_perm a V1 V2 : V1 ≡ₚ V2 → votes_on a V1 = votes_on a V2.
Proof. intros H. unfold votes_on. by rewrite H. Qed.

Lemma tally_ok_nil dir : tally_ok dir [] ∅.
Proof. intros a. by rewrite lookup_empty. Qed.

Lemma tally_ok_perm dir V1 V2 T : V1 ≡ₚ V2 → tally_ok dir V1 T → tally_ok dir V2 T.
Proof. intros HP HT a. by rewrite HT, (votes_on_perm a _ _ HP). Qed.

(** The fields a tally update leaves alone. *)
Definition only_tally (s s' : Snapshot) : Prop := s' = set_Tally (sTally s') s.

Lemma only_tally_refl s : only_tally s s.
Proof. by destruct s. Qed.

(** [uncast] of a counted vote removes it from the tally and nothing else. *)
Lemma uncast_spec dir v V s :
  tally_ok dir (v :: V) (sTally s) → vAuthorize v = dir (vAddress v) →
  let s' := snd (uncast (vAddress v) (vAuthorize v) s) in
  only_tally s s' ∧ tally_ok dir V (sTally s').
Proof.
  intros HT Hv. unfold uncast. pose proof (HT (vAddress v)) as Ha.
  rewrite votes_on_cons, (decide_True (P := vAddress v = vAddress v)) in Ha by done. rewrite decide_False in Ha by lia.
  rewrite Ha. cbn [tAuthorize tVotes]. rewrite decide_False by (rewrite Hv; tauto).
  assert (∀ a, a ≠ vAddress v → votes_on a (v :: V) = votes_on a V) as Hne.
  { intros a Hne. rewrite votes_on_cons, decide_False by congruence. lia. }
  destruct (decide (1 < _)) as [Hm|Hm]; cbn [snd sTally]; (split; [done|]); intros a;
    destruct (decide (a = vAddress v)) as [->|Hx].
  - cbn. rewrite lookup_insert_eq, decide_False by lia. do 2 f_equal. lia.
  - cbn. rewrite lookup_insert_ne, HT, Hne by done. done.
  - cbn. rewrite lookup_delete_eq, decide_True by lia. done.
  - cbn. rewrite lookup_delete_ne, HT, Hne by done. done.
Qed.

(** [cast] counts a meaningful vote and refuses the others. *)
Lemma cast_spec v s :
  tally_ok (dir_of (Signers s)) (Votes s) (sTally s) →
  let '(counted, s') := cast (vAddress v) (vAuthorize v) s in
  counted = bool_decide (vAuthorize v = dir_of (Signers s) (vAddress v)) ∧ only_tally s s' ∧
  tally_ok (dir_of (Signers s)) (if counted then Votes s ++ [v] else Votes s) (sTally s').
Proof.
  intros HT. unfold cast.
  assert (validVote s (vAddress v) (vAuthorize v) =
          bool_decide (vAuthorize v = dir_of (Signers s) (vAddress v))) as ->.
  { unfold validVote, dir_of. destruct (decide (vAddress v ∈ Signers s)) as [Hin|Hin].
    - rewrite bool_decide_eq_true_2 by done. rewrite (bool_decide_eq_false_2 (_ ∉ _)) by tauto.
      by destruct (vAuthorize v).
    - rewrite bool_decide_eq_false_2 by done. rewrite (bool_decide_eq_true_2 (_ ∉ _)) by tauto.
      by destruct (vAuthorize v). }
  destruct (decide (vAuthorize v = dir_of (Signers s) (vAddress v))) as [Hd|Hd].
  2: { rewrite bool_decide_eq_false_2 by done. cbn. split_and!; [done|apply only_tally_refl|done]. }
  rewrite bool_decide_eq_true_2 by done. cbn [negb].
  assert (∀ a, votes_on a (Votes s ++ [v]) = (votes_on a (Votes s) + if decide (vAddress v = a) then 1 else 0)%nat) as Hc.
  { intros a. rewrite votes_on_app, votes_on_cons. cbn. lia. }
  pose proof (HT (vAddress v)) as Ha.
  destruct (sTally s !! vAddress v) as [old|]; (split_and!; [done..|]); intros a; rewrite Hc; cbn [sTally set_Tally];
    (destruct (decide (vAddress v = a)) as [<-|Hx]; [rewrite lookup_insert_eq|rewrite lookup_insert_ne by done]).
  - destruct (decide (votes_on _ _ = 0%nat)); [done|]. injection Ha as ->. cbn.
    rewrite decide_False by lia. do 2 f_equal. lia.
  - by rewrite Nat.add_0_r.
  - destruct (decide (votes_on _ _ = 0%nat)) as [H0|]; [|done]. rewrite H0. cbn. by rewrite Hd.
  - by rewrite Nat.add_0_r.
Qed.

(** ** The discarding loops are filters *)

Lemma filter_all {A} (P : A → Prop) `{∀ x, Decision (P x)} l : Forall P l → filter P l = l.
Proof. induction 1; [done|]. rewrite filter_cons_True by done. by f_equal. Qed.

Lemma only_tally_fields s s' :
  only_tally s s' → Signers s' = Signers s ∧ Recents s' = Recents s ∧ Votes s' = Votes s ∧
    config s' = config s ∧ sNumber s' = sNumber s ∧ sHash s' = sHash s.
Proof. intros ->. done. Qed.

(** Same signers, recents and identity; votes and tally may differ. *)
Definition same_frame (s s' : Snapshot) : Prop :=
  Signers s' = Signers s ∧ Recents s' = Recents s ∧
  config s' = config s ∧ sNumber s' = sNumber s ∧ sHash s' = sHash s.

Lemma same_frame_trans s1 s2 s3 : same_frame s1 s2 → same_frame s2 s3 → same_frame s1 s3.
Proof. unfold same_frame. intros (-> & -> & -> & -> & ->) (-> & -> & -> & -> & ->). done. Qed.

Lemma only_tally_frame s s' : only_tally s s' → same_frame s s'.
Proof. intros ->. done. Qed.

Lemma set_Votes_frame V s : same_frame s (set_Votes V s).
Proof. done. Qed.

Lemma discard_previous_spec dir signer coinbase before votes s :
  tally_ok dir (before ++ votes) (sTally s) → Forall (λ v, vAuthorize v = dir (vAddress v)) (before ++ votes) →
  NoDup (vote_key <$> before ++ votes) → Forall (λ v, vote_key v ≠ (signer, coinbase)) before →
  Votes s = before ++ votes →
  let s' := discard_previous signer coinbase before votes s in
  same_frame s s' ∧ Votes s' = filter (λ v, vote_key v ≠ (signer, coinbase)) (before ++ votes) ∧
  tally_ok dir (Votes s') (sTally s').
Proof.
  revert before s. induction votes as [|v votes IH]; intros before s HT HD HN HB HV; cbn [discard_previous].
  - rewrite app_nil_r in *. rewrite filter_all by done. by rewrite HV.
  - destruct (decide (vSigner v = signer ∧ vAddress v = coinbase)) as [[Hs Ha]|Hne].
    + apply Forall_app in HD as [HD1 HD2]. apply Forall_cons in HD2 as [Hv HD2].
      eapply tally_ok_perm in HT; [|symmetry; apply Permutation_middle].
      destruct (uncast_spec dir v (before ++ votes) s HT Hv) as [HO HT'].
      split_and!; [by eapply same_frame_trans; [apply only_tally_frame|apply set_Votes_frame]| |done].
      rewrite filter_app, filter_cons_False by (unfold vote_key; naive_solver). cbn [Votes set_Votes].
      rewrite !filter_all; [done| |done].
      rewrite fmap_app in HN. cbn in HN. apply NoDup_app in HN as (_ & _ & HN).
      apply NoDup_cons in HN as [HN _]. apply List.Forall_forall. intros w Hw%list_elem_of_In Hk. apply HN, list_elem_of_fmap.
      exists w. split; [|done]. rewrite Hk. unfold vote_key. by rewrite Hs, Ha.
    + rewrite (cons_middle v before votes), (assoc_L (++)) in *. apply IH; try done.
      apply Forall_app. split; [done|]. apply Forall_singleton. unfold vote_key. naive_solver.
Qed.

Lemma discard_cast_by_spec dir coinbase before votes s :
  tally_ok dir (before ++ votes) (sTally s) → Forall (λ v, vAuthorize v = dir (vAddress v)) (before ++ votes) →
  let s' := discard_cast_by coinbase before votes s in
  same_frame s s' ∧ Votes s' = before ++ filter (λ v, vSigner v ≠ coinbase) votes ∧
  tally_ok dir (Votes s') (sTally s').
Proof.
  revert before s. induction votes as [|v votes IH]; intros before s HT HD; cbn [discard_cast_by].
  - rewrite app_nil_r in *. done.
  - destruct (decide (vSigner v = coinbase)) as [Hs|Hs].
    + apply Forall_app in HD as [HD1 HD2]. apply Forall_cons in HD2 as [Hv HD2].
      eapply tally_ok_perm in HT; [|symmetry; apply Permutation_middle].
      destruct (uncast_spec dir v (before ++ votes) s HT Hv) as [HO HT'].
      destruct (IH before _ HT') as (HF & HV & HT2); [by apply Forall_app|].
      split_and!; [by eapply same_frame_trans; [apply only_tally_frame|]| |done].
      rewrite filter_cons_False by tauto. done.
    + rewrite (cons_middle v before votes), (assoc_L (++)) in HT, HD.
      destruct (IH (before ++ [v]) s HT HD) as (HF & HV & HT2). split_and!; [done| |done].
      rewrite filter_cons_True by done. rewrite HV, <-app_assoc. done.
Qed.

Lemma discard_about_spec coinbase before votes s :
  discard_about coinbase before votes s = set_Votes (before ++ filter (λ v, vAddress v ≠ coinbase) votes) s.
Proof.
  revert before. induction votes as [|v votes IH]; intros before; cbn [discard_about].
  - by rewrite app_nil_r.
  - destruct (decide (vAddress v = coinbase)) as [Ha|Ha]; rewrite IH.
    + by rewrite filter_cons_False by tauto.
    + by rewrite filter_cons_True, <-app_assoc by done.
Qed.

Lemma votes_on_filter a c V : a ≠ c → votes_on a (filter (λ v, vAddress v ≠ c) V) = votes_on a V.
Proof.
  intros Hne. induction V as [|v V IH]; [done|]. rewrite filter_cons.
  destruct (decide (vAddress v ≠ c)) as [H|H]; rewrite !votes_on_cons, IH; [done|].
  rewrite decide_False; [done|]. intros <-. tauto.
Qed.

Lemma votes_on_filter_0 c V : votes_on c (filter (λ v, vAddress v ≠ c) V) = 0%nat.
Proof.
  induction V as [|v V IH]; [done|]. rewrite filter_cons. destruct (decide _) as [H|H]; [|done].
  by rewrite votes_on_cons, IH, decide_False.
Qed.

(** Clearing an account, when only its direction may have changed. *)
Lemma tally_ok_clear dir dir' c V T :
  tally_ok dir V T → (∀ a, a ≠ c → dir' a = dir a) →
  tally_ok dir' (filter (λ v, vAddress v ≠ c) V) (base.delete c T).
Proof.
  intros HT Hd a. destruct (decide (a = c)) as [->|Hne].
  - by rewrite lookup_delete_eq, votes_on_filter_0, decide_True.
  - by rewrite lookup_delete_ne, votes_on_filter, HT, Hd by done.
Qed.

Lemma NoDup_fmap_filter {A B} (f : A → B) (P : A → Prop) `{∀ x, Decision (P x)} l :
  NoDup (f <$> l) → NoDup (f <$> filter P l).
Proof.
  induction l as [|x l IH]; [done|]. cbn. intros [Hx HN]%NoDup_cons. destruct (decide (P x)); [|by apply IH].
  cbn. constructor; [|by apply IH]. intros (y & Hxy & [_ Hy]%list_elem_of_filter)%list_elem_of_fmap.
  apply Hx. apply list_elem_of_fmap. eauto.
Qed.

(** ** Every accepted header preserves the votes invariant *)

Lemma newSnapshot_votes_ok cfg n h l : votes_ok (newSnapshot cfg n h l).
Proof. constructor; cbn; [apply tally_ok_nil|constructor..]. Qed.

Lemma shift_recents_votes number s :
  let s' := shift_recents number s in
  Signers s' = Signers s ∧ Votes s' = Votes s ∧ sTally s' = sTally s ∧ config s' = config s ∧
  sNumber s' = sNumber s ∧ sHash s' = sHash s.
Proof. unfold shift_recents. by destruct (decide _). Qed.

Lemma begin_block_votes_ok cfg number s s' :
  votes_ok s → begin_block cfg number s = Ok s' → votes_ok s' ∧ Signers s' = Signers s.
Proof.
  intros HV. unfold begin_block. destruct (decide (Epoch cfg = 0)); [done|]. intros [= <-].
  set (t := if decide (_ = 0) then _ else _).
  destruct (shift_recents_votes number t) as (E1 & E2 & E3 & _).
  assert (votes_ok t ∧ Signers t = Signers s) as [[H1 H2 H3 H4] HS].
  { unfold t. destruct (decide _); [|done]. split; [|done]. constructor; cbn; [apply tally_ok_nil|constructor..]. }
  split; [|congruence]. constructor; rewrite ?E1, ?E2, ?E3; done.
Qed.

Lemma Forall_filter_impl {A} (P Q R : A → Prop) `{∀ x, Decision (R x)} l :
  Forall P l → (∀ x, P x → R x → Q x) → Forall Q (filter R l).
Proof.
  rewrite !Forall_forall. intros HP HQ x [Hr Hx]%list_elem_of_filter. by apply HQ; [apply HP|].
Qed.

(** The signer set after a passed vote, and the votes that survive. *)
Lemma resolve_vote_ok number c s :
  votes_ok s → votes_ok (resolve_vote number c s).
Proof.
  intros [HT HD HN HS]. unfold resolve_vote. destruct (decide (_ < _)) as [Hpass|]; [|done].
  rewrite !discard_about_spec. destruct (tAuthorize (tally_at s c)) eqn:Hauth; cbn [app].
  - constructor; cbn.
    + eapply tally_ok_clear; [exact HT|]. intros a Ha. unfold dir_of. apply bool_decide_ext. set_solver.
    + eapply Forall_filter_impl; [exact HD|]. intros v -> Hc. unfold dir_of. apply bool_decide_ext. set_solver.
    + by apply NoDup_fmap_filter.
    + eapply Forall_filter_impl; [exact HS|]. set_solver.
  - set (s1 := shift_recents number _).
    destruct (shift_recents_votes number (set_Signers (Signers s ∖ {[c]}) s)) as (E1 & E2 & E3 & _).
    fold s1 in E1, E2, E3. cbn in E1, E2, E3. rewrite E2.
    destruct (discard_cast_by_spec (dir_of (Signers s)) c [] (Votes s) s1) as ((F1 & F2 & _) & HV & HT');
      [by rewrite E3|done|].
    set (s2 := discard_cast_by c [] (Votes s) s1) in *. cbn [app] in HV.
    constructor; cbn; rewrite ?F1, ?E1, ?HV.
    + rewrite HV in HT'. eapply tally_ok_clear; [exact HT'|]. intros a Ha. unfold dir_of. apply bool_decide_ext. set_solver.
    + eapply Forall_filter_impl; [eapply Forall_filter_impl; [exact HD|intros v Hv _; exact Hv]|].
      intros v -> Hc. unfold dir_of. apply bool_decide_ext. set_solver.
    + by do 2 apply NoDup_fmap_filter.
    + eapply Forall_filter_impl; [eapply Forall_filter_impl; [exact HS|intros v Hv Hx; exact (conj Hv Hx)]|].
      set_solver.
Qed.

Lemma seal_block_votes_ok number signer header s s' :
  votes_ok s → seal_block number signer header s = Ok s' → votes_ok s'.
Proof.
  intros [HT HD HN HS]. unfold seal_block.
  destruct (bool_decide (signer ∈ Signers s)) eqn:Hin; [|done]. cbn [negb]. apply bool_decide_eq_true in Hin.
  destruct (bool_decide (map_Exists _ _)); [done|].
  set (s1 := set_Recents _ s).
  destruct (discard_previous_spec (dir_of (Signers s)) signer (Coinbase header) [] (Votes s) s1)
    as ((F1 & _) & HV & HT1); [done..|constructor|done|]. cbn [app] in HV. change (Votes s1) with (Votes s).
  set (s2 := discard_previous _ _ _ _ s1) in *. change (Signers s1) with (Signers s) in F1.
  destruct (vote_of_nonce (Nonce header)) as [authorize| |]; [|done..]. cbn [mbind res_bind].
  rewrite <-F1 in HT1, HD, HS, Hin.
  pose proof (cast_spec (MkVote signer number (Coinbase header) authorize) s2 HT1) as HC. cbn [vAddress vAuthorize] in HC.
  destruct (cast (Coinbase header) authorize s2) as [counted s3]. destruct HC as (Hc & HO & HT3).
  destruct (only_tally_fields _ _ HO) as (G1 & _ & G3 & _). intros [= <-]. apply resolve_vote_ok.
  assert (NoDup (vote_key <$> Votes s2)) as HN2 by (rewrite HV; by apply NoDup_fmap_filter).
  assert (Forall (λ v, vAuthorize v = dir_of (Signers s2) (vAddress v)) (Votes s2)) as HD2
    by (rewrite HV; eapply Forall_filter_impl; [exact HD|auto]).
  assert (Forall (λ v, vSigner v ∈ Signers s2) (Votes s2)) as HS2
    by (rewrite HV; eapply Forall_filter_impl; [exact HS|auto]).
  destruct counted; constructor; cbn; rewrite ?G1, ?G3; try done.
  - apply Forall_app. split; [done|]. apply Forall_singleton. symmetry in Hc. by apply bool_decide_eq_true in Hc.
  - rewrite fmap_app. apply NoDup_app. split_and!; [done| |apply NoDup_singleton].
    intros k Hk Hk2. apply list_elem_of_singleton in Hk2 as ->. cbn in Hk.
    apply list_elem_of_fmap in Hk as (v & Hk & Hin2). rewrite HV in Hin2.
    apply list_elem_of_filter in Hin2 as [Hne _]. by apply Hne.
  - apply Forall_app. split; [done|]. by apply Forall_singleton.
Qed.

(** ** The recent signers *)

(** After block [N], the recent signers are those of distinct blocks of the window. *)
Definition recents_ok (N : Z) (s : Snapshot) : Prop :=
  (∀ k a, Recents s !! k = Some a → 0 <= k <= N ∧ N < k + limit_of s) ∧
  (∀ k1 k2 a, Recents s !! k1 = Some a → Recents s !! k2 = Some a → k1 = k2).

Lemma limit_pos s : 1 <= limit_of s.
Proof. unfold limit_of. pose proof (Z.div_pos (Z.of_nat (size (Signers s))) 2). lia. Qed.

Lemma shift_recents_sub number s k a :
  Recents (shift_recents number s) !! k = Some a → Recents s !! k = Some a.
Proof.
  unfold shift_recents. destruct (decide (limit_of s <= number)); [|done]. cbn.
  by intros [_ H]%lookup_delete_Some.
Qed.

(** An entry leaves the window only when it falls out of it. *)
Lemma shift_recents_keep number s k a :
  Recents s !! k = Some a → k ≠ number - limit_of s → Recents (shift_recents number s) !! k = Some a.
Proof.
  unfold shift_recents. destruct (decide (limit_of s <= number)); [|done]. cbn.
  intros H Hne. by rewrite lookup_delete_ne.
Qed.

Lemma shift_recents_window number s k a :
  Recents (shift_recents number s) !! k = Some a → 0 <= k → number <= k + limit_of s → number < k + limit_of s.
Proof.
  unfold shift_recents. destruct (decide (limit_of s <= number)) as [Hl|Hl]; cbn; [|lia].
  intros [Hne _]%lookup_delete_Some. lia.
Qed.

Lemma begin_block_recents cfg N s s1 :
  begin_block cfg (N + 1) s = Ok s1 →
  Signers s1 = Signers s ∧ ∃ t, s1 = shift_recents (N + 1) t ∧ Recents t = Recents s ∧ Signers t = Signers s.
Proof.
  unfold begin_block. destruct (decide (Epoch cfg = 0)); [done|]. intros [= <-].
  set (t := if decide (_ = 0) then _ else _).
  assert (Recents t = Recents s ∧ Signers t = Signers s) as [H1 H2] by (unfold t; by destruct (decide _)).
  split; [|by exists t]. rewrite (proj1 (shift_recents_votes _ _)). done.
Qed.

Lemma limit_of_Signers s t : Signers s = Signers t → limit_of s = limit_of t.
Proof. unfold limit_of. by intros ->. Qed.

Lemma uncast_frame a b s : same_frame s (snd (uncast a b s)).
Proof. unfold uncast. repeat case_match; done. Qed.

Lemma cast_frame a b s : same_frame s (snd (cast a b s)).
Proof. unfold cast. repeat case_match; done. Qed.

Lemma discard_previous_frame a c V1 V2 s : same_frame s (discard_previous a c V1 V2 s).
Proof.
  revert V1. induction V2 as [|v V2 IH]; intros V1; cbn [discard_previous]; [done|].
  destruct (decide _); [|apply IH]. eapply same_frame_trans; [apply uncast_frame|apply set_Votes_frame].
Qed.

Lemma discard_cast_by_frame c V1 V2 s : same_frame s (discard_cast_by c V1 V2 s).
Proof.
  revert V1 s. induction V2 as [|v V2 IH]; intros V1 s; cbn [discard_cast_by]; [done|].
  destruct (decide _); [|apply IH]. eapply same_frame_trans; [apply uncast_frame|apply IH].
Qed.

(** A passed vote changes the window by at most one block, and clears what falls
    out of it. *)
Lemma resolve_vote_recents number c s :
  let s' := resolve_vote number c s in
  (Recents s' = Recents s ∧ limit_of s <= limit_of s') ∨
  ∃ t, Recents s' = Recents (shift_recents number t) ∧ Recents t = Recents s ∧
    limit_of s' = limit_of t ∧ limit_of s - 1 <= limit_of t.
Proof.
  unfold resolve_vote. destruct (decide (_ < _)); [|by left]. rewrite !discard_about_spec.
  destruct (tAuthorize _).
  - left. split; [done|]. unfold limit_of. cbn.
    assert (size (Signers s) <= size ({[c]} ∪ Signers s))%nat by (apply subseteq_size; set_solver).
    apply Zplus_le_compat_r, Z.div_le_mono; lia.
  - right. set (t := set_Signers (Signers s ∖ {[c]}) s). exists t.
    destruct (discard_cast_by_frame c [] (Votes (shift_recents number t)) (shift_recents number t)) as (F1 & F2 & _).
    cbn. split_and!; [done|done| |].
    + apply limit_of_Signers. cbn. rewrite F1. apply (shift_recents_votes number t).
    + unfold t, limit_of. cbn.
      assert (size (Signers s) <= size (Signers s ∖ {[c]}) + 1)%nat.
      { rewrite <-(size_singleton (C := gset Address) c). rewrite <-size_union by set_solver.
        apply subseteq_size. intros x Hx. destruct (decide (x = c)); set_solver. }
      Z.div_mod_to_equations. lia.
Qed.

(** What the acceptance of a block does to the recent signers. *)
Lemma seal_block_recents number a h s s' :
  seal_block number a h s = Ok s' →
  a ∈ Signers s ∧ (∀ k, Recents s !! k ≠ Some a) ∧
  (Recents s' = <[number := a]> (Recents s) ∧ limit_of s <= limit_of s' ∨
   ∃ t, Recents s' = Recents (shift_recents number t) ∧ Recents t = <[number := a]> (Recents s) ∧
     limit_of s' = limit_of t ∧ limit_of s - 1 <= limit_of t).
Proof.
  unfold seal_block. destruct (bool_decide (a ∈ Signers s)) eqn:Hin; [|done]. cbn [negb].
  apply bool_decide_eq_true in Hin.
  destruct (bool_decide (map_Exists _ _)) eqn:Hex; [done|]. apply bool_decide_eq_false in Hex.
  set (s1 := set_Recents _ s).
  destruct (discard_previous_frame a (Coinbase h) [] (Votes s1) s1) as (D1 & D2 & _).
  set (s2 := discard_previous _ _ _ _ s1) in *.
  destruct (vote_of_nonce (Nonce h)) as [auth| |]; [|done..]. cbn [mbind res_bind].
  destruct (cast_frame (Coinbase h) auth s2) as (C1 & C2 & _).
  destruct (cast (Coinbase h) auth s2) as [counted s3]. cbn [snd] in C1, C2.
  intros [= <-]. split_and!; [done| |].
  { intros k Hk. apply Hex. by exists k, a. }
  set (s4 := if counted then _ else _).
  assert (Signers s4 = Signers s ∧ Recents s4 = <[number := a]> (Recents s)) as [E1 E2].
  { assert (Signers s3 = Signers s ∧ Recents s3 = <[number := a]> (Recents s)) by (rewrite C1, C2, D1, D2; done).
    unfold s4. by destruct counted. }
  pose proof (resolve_vote_recents number (Coinbase h) s4) as HR. rewrite E2, (limit_of_Signers s4 s E1) in HR. exact HR.
Qed.

(** The loop body leaves the configuration and the identity of the snapshot alone. *)
Lemma begin_block_frame cfg number s s1 :
  begin_block cfg number s = Ok s1 → config s1 = config s ∧ sNumber s1 = sNumber s ∧ sHash s1 = sHash s.
Proof.
  unfold begin_block. destruct (decide (Epoch cfg = 0)); [done|]. intros [= <-].
  unfold shift_recents. repeat case_decide; done.
Qed.

Lemma resolve_vote_frame number c s :
  config (resolve_vote number c s) = config s ∧ sNumber (resolve_vote number c s) = sNumber s ∧
  sHash (resolve_vote number c s) = sHash s.
Proof.
  unfold resolve_vote. destruct (decide (_ < _)); [|done]. rewrite !discard_about_spec.
  destruct (tAuthorize _); [done|]. set (t := set_Signers _ s).
  destruct (discard_cast_by_frame c [] (Votes (shift_recents number t)) (shift_recents number t)) as (_ & _ & F).
  destruct (shift_recents_votes number t) as (_ & _ & _ & G). cbn. destruct F as (-> & -> & ->). done.
Qed.

Lemma seal_block_frame number a h s s' :
  seal_block number a h s = Ok s' → config s' = config s ∧ sNumber s' = sNumber s ∧ sHash s' = sHash s.
Proof.
  unfold seal_block. destruct (negb _); [done|]. destruct (bool_decide _); [done|].
  set (s1 := set_Recents _ s).
  destruct (discard_previous_frame a (Coinbase h) [] (Votes s1) s1) as (_ & _ & D).
  set (s2 := discard_previous _ _ _ _ s1) in *.
  destruct (vote_of_nonce (Nonce h)) as [auth| |]; [|done..]. cbn [mbind res_bind].
  destruct (cast_frame (Coinbase h) auth s2) as (_ & _ & C).
  destruct (cast (Coinbase h) auth s2) as [counted s3]. cbn [snd] in C.
  intros [= <-]. set (s4 := if counted then _ else _).
  destruct (resolve_vote_frame number (Coinbase h) s4) as (-> & -> & ->).
  destruct C as (C1 & C2 & C3), D as (D1 & D2 & D3). unfold s4. destruct counted; cbn; by rewrite C1, C2, C3, D1, D2, D3.
Qed.

Lemma begin_block_window cfg N s s1 :
  0 <= N → recents_ok N s → begin_block cfg (N + 1) s = Ok s1 →
  (∀ k a, Recents s1 !! k = Some a → 0 <= k <= N ∧ N + 1 < k + limit_of s1) ∧
  (∀ k1 k2 a, Recents s1 !! k1 = Some a → Recents s1 !! k2 = Some a → k1 = k2).
Proof.
  intros HN [HW HI] Hb. destruct (begin_block_recents _ _ _ _ Hb) as (HS & t & -> & HR & HS').
  split.
  - intros k a Hk. pose proof Hk as Hk2. apply shift_recents_sub in Hk2. rewrite HR in Hk2.
    destruct (HW k a Hk2) as [Hr Hw]. split; [done|].
    rewrite (limit_of_Signers _ t) by (by rewrite HS'). rewrite (limit_of_Signers t s HS') in *.
    rewrite <-(limit_of_Signers t s HS') in *. eapply shift_recents_window; [done|lia|lia].
  - intros k1 k2 a H1%shift_recents_sub H2%shift_recents_sub. rewrite HR in *. by eapply HI.
Qed.

Lemma block_recents_ok cfg N s s1 a h s2 :
  0 <= N → recents_ok N s → begin_block cfg (N + 1) s = Ok s1 → seal_block (N + 1) a h s1 = Ok s2 →
  recents_ok (N + 1) s2.
Proof.
  intros HN HR Hb Hs. destruct (begin_block_window _ _ _ _ HN HR Hb) as [HW HI].
  destruct (seal_block_recents _ _ _ _ _ Hs) as (_ & Hfresh & Hcase).
  assert (∀ k1 k2 b, <[N + 1 := a]> (Recents s1) !! k1 = Some b →
                     <[N + 1 := a]> (Recents s1) !! k2 = Some b → k1 = k2) as HI'.
  { intros k1 k2 b [[<- <-]|[Hk1 H1]]%lookup_insert_Some [[<- Hb2]|[Hk2 H2]]%lookup_insert_Some.
    - done.
    - by apply Hfresh in H2.
    - subst b. by apply Hfresh in H1.
    - by eapply HI. }
  assert (∀ k b, <[N + 1 := a]> (Recents s1) !! k = Some b → 0 <= k <= N + 1 ∧ N + 1 < k + limit_of s1) as HW'.
  { intros k b [[<- _]|[_ Hk]]%lookup_insert_Some; [pose proof (limit_pos s1); lia|].
    apply HW in Hk. lia. }
  destruct Hcase as [[E HL]|(t & E & Et & EL & HL)]; split; rewrite ?E.
  - intros k b Hk. apply HW' in Hk. lia.
  - done.
  - intros k b Hk. pose proof Hk as Hk2%shift_recents_sub. rewrite Et in Hk2. apply HW' in Hk2.
    split; [lia|]. rewrite EL. eapply shift_recents_window; [done|lia|lia].
  - intros k1 k2 b H1%shift_recents_sub H2%shift_recents_sub. rewrite Et in *. by eapply HI'.
Qed.

(** ** Replaying blocks *)

(** [replay cfg N s headers tr]: from [s], the snapshot of block [N], the headers of the
    blocks [N+1], ... are accepted; [tr] lists their signers and the snapshots after them. *)
Inductive replay (cfg : CliqueConfig) : Z → Snapshot → list Header → list (Address * Snapshot) → Prop :=
| replay_nil N s : replay cfg N s [] []
| replay_cons N s s1 a h s2 headers tr :
    begin_block cfg (N + 1) s = Ok s1 → seal_block (N + 1) a h s1 = Ok s2 →
    replay cfg (N + 1) s2 headers tr → replay cfg N s (h :: headers) ((a, s2) :: tr).

Definition final (s : Snapshot) (tr : list (Address * Snapshot)) : Snapshot := List.last tr.*2 s.

Lemma final_cons s a s2 tr : final s ((a, s2) :: tr) = final s2 tr.
Proof.
  unfold final. cbn [fmap list_fmap snd]. destruct tr as [|[b s3] tr]; [done|].
  cbn [fmap list_fmap snd]. revert s3. induction tr as [|[c s4] tr IH]; intros s3; [done|]. cbn in *. apply IH.
Qed.

Lemma final_take s tr k x : tr !! k = Some x → final s (take (S k) tr) = x.2.
Proof. intros Hk. unfold final. rewrite (take_S_r _ _ _ Hk), fmap_app. apply last_last. Qed.

Lemma replay_ok cfg N s headers tr :
  replay cfg N s headers tr → 0 <= N → votes_ok s → recents_ok N s →
  votes_ok (final s tr) ∧ recents_ok (N + Z.of_nat (length tr)) (final s tr).
Proof.
  induction 1 as [N s|N s s1 a h s2 headers tr Hb Hs HR IH]; intros HN HV Hrec.
  - cbn. by rewrite Z.add_0_r.
  - rewrite final_cons. destruct IH as [IH1 IH2]; [lia| | |].
    + eapply seal_block_votes_ok; [|done]. by eapply begin_block_votes_ok.
    + by eapply block_recents_ok.
    + split; [done|]. cbn [length]. by replace (N + Z.of_nat (S (length tr))) with (N + 1 + Z.of_nat (length tr)) by lia.
Qed.

Lemma replay_frame cfg N s headers tr : replay cfg N s headers tr → sNumber (final s tr) = sNumber s.
Proof.
  induction 1 as [|N s s1 a h s2 headers tr Hb Hs HR IH]; [done|]. rewrite final_cons, IH.
  apply begin_block_frame in Hb as (_ & Hb & _). apply seal_block_frame in Hs as (_ & Hs & _). congruence.
Qed.

(** The recent entry of a block stays while the window covers it. *)
Lemma replay_retains cfg N s headers tr k a m j sj :
  replay cfg N s headers tr → Recents s !! k = Some a → k <= N → m <= Z.of_nat (size (Signers s)) →
  Forall (λ x, m <= Z.of_nat (size (Signers x.2))) tr → tr !! j = Some (a, sj) →
  m / 2 + 1 <= N + 1 + Z.of_nat j - k.
Proof.
  intros HR. revert j. induction HR as [N s|N s s1 b h s2 headers tr Hb Hs HR IH]; intros j Hk Hle Hm HF Hj; [done|].
  assert (∀ x, m <= Z.of_nat (size (Signers x)) → m / 2 + 1 <= limit_of x) as Hlim.
  { intros x Hx. unfold limit_of. apply Zplus_le_compat_r, Z.div_le_mono; lia. }
  apply Forall_cons in HF as [Hm2 HF]. cbn in Hm2.
  destruct (begin_block_recents _ _ _ _ Hb) as (HS1 & t & -> & HRt & HSt).
  destruct (decide (k = N + 1 - limit_of t)) as [->|Hk1].
  { rewrite (limit_of_Signers t s HSt). specialize (Hlim s Hm). lia. }
  assert (Recents (shift_recents (N + 1) t) !! k = Some a) as Hk2 by (apply shift_recents_keep; congruence).
  destruct (seal_block_recents _ _ _ _ _ Hs) as (_ & Hfresh & Hcase).
  destruct j as [|j]; [cbn in Hj; injection Hj as -> _; by apply Hfresh in Hk2|]. cbn in Hj.
  assert (<[N + 1 := b]> (Recents (shift_recents (N + 1) t)) !! k = Some a) as Hk3
    by (rewrite lookup_insert_ne by lia; done).
  destruct (decide (k = N + 1 - limit_of s2)) as [->|Hk4]; [specialize (Hlim s2 Hm2); lia|].
  assert (Recents s2 !! k = Some a) as Hk5.
  { destruct Hcase as [[-> _]|(u & -> & Hu & EL & _)]; [done|]. apply shift_recents_keep; congruence. }
  specialize (IH j Hk5 ltac:(lia) Hm2 HF Hj). lia.
Qed.

(** Two blocks of a replay by the same signer are a window apart. *)
Lemma replay_spacing cfg N s headers tr m i j a si sj :
  replay cfg N s headers tr → Forall (λ x, m <= Z.of_nat (size (Signers x.2))) tr →
  tr !! i = Some (a, si) → tr !! j = Some (a, sj) → (i < j)%nat → m / 2 + 1 <= Z.of_nat j - Z.of_nat i.
Proof.
  intros HR. revert i j. induction HR as [N s|N s s1 b h s2 headers tr Hb Hs HR IH]; intros i j HF Hi Hj Hij; [done|].
  apply Forall_cons in HF as [Hm HF]. cbn in Hm. destruct j as [|j]; [lia|]. cbn in Hj.
  destruct i as [|i]; [|specialize (IH i j HF Hi Hj ltac:(lia)); lia].
  cbn in Hi. injection Hi as -> ->.
  assert (Recents si !! (N + 1) = Some a) as Hk.
  { destruct (seal_block_recents _ _ _ _ _ Hs) as (_ & _ & [[-> _]|(u & -> & Hu & _)]).
    - by rewrite lookup_insert_eq.
    - apply shift_recents_keep; [by rewrite Hu, lookup_insert_eq|]. pose proof (limit_pos u). lia. }
  pose proof (replay_retains _ _ _ _ _ _ _ m j sj HR Hk ltac:(lia) Hm HF Hj). lia.
Qed.

(** ** From the code's loop to the replay *)

Lemma u64_succ n i : u64 (u64 n + i) = u64 (n + i).
Proof. unfold u64. by rewrite Zplus_mod_idemp_l. Qed.

(** Consecutive numbers from [n] on. *)
Fixpoint numbered (n : Z) (headers : list Header) : Prop :=
  match headers with
  | [] => True
  | h :: headers => Uint64 (E := clique_error) (Number h) = Ok (u64 n) ∧ numbered (n + 1) headers
  end.

Lemma numbered_app n l1 l2 : numbered n (l1 ++ l2) ↔ numbered n l1 ∧ numbered (n + Z.of_nat (length l1)) l2.
Proof.
  revert n. induction l1 as [|h l1 IH]; intros n; cbn [numbered app length].
  - rewrite Z.add_0_r. tauto.
  - rewrite IH. replace (n + 1 + Z.of_nat (length l1)) with (n + Z.of_nat (S (length l1))) by lia. tauto.
Qed.

Lemma contiguous_cons h1 h2 headers :
  contiguous (h1 :: h2 :: headers) =
    (n2 ← Uint64 (Number h2); n1 ← Uint64 (Number h1);
     if decide (n2 ≠ u64 (n1 + 1)) then Err errInvalidVotingChain else contiguous (h2 :: headers)).
Proof. done. Qed.

Lemma contiguous_numbered h headers n :
  Uint64 (Number h) = Ok (E := clique_error) (u64 n) →
  contiguous (h :: headers) = Ok () ↔ numbered n (h :: headers).
Proof.
  revert h n. induction headers as [|h2 headers IH]; intros h n Hn; [by cbn; tauto|].
  rewrite contiguous_cons. cbn [numbered]. destruct (Uint64 (Number h2)) as [n2| |] eqn:E2; cbn [mbind res_bind];
    [|split; [done|by intros (_ & ? & _)]..].
  rewrite Hn. cbn [mbind res_bind]. rewrite u64_succ.
  destruct (decide (n2 ≠ u64 (n + 1))) as [Hne|Heq].
  - split; [done|]. intros (_ & [= ->] & _). done.
  - apply dec_stable in Heq as ->. rewrite (IH h2 (n + 1) E2). cbn [numbered]. rewrite E2. tauto.
Qed.

(** The tests that [apply] makes before the loop. *)
Lemma apply_guard s h headers :
  (_ ← contiguous (h :: headers);
   n ← Uint64 (E := clique_error) (Number h);
   if decide (n ≠ u64 (sNumber s + 1)) then Err errInvalidVotingChain else Ok ()) = Ok () ↔
  numbered (sNumber s + 1) (h :: headers).
Proof.
  split.
  - intros ([] & Hc & Hn)%bind_Ok. apply bind_Ok in Hn as (n & Hn & Hd).
    destruct (decide _) as [|Heq]; [done|]. apply dec_stable in Heq as ->.
    by apply (contiguous_numbered h headers).
  - intros HN. pose proof HN as [Hn _]. apply contiguous_numbered in HN as ->; [|done].
    cbn [mbind res_bind]. rewrite Hn. cbn [mbind res_bind]. rewrite decide_False by tauto. done.
Qed.

Section apply_facts.
Context (ext_recover : bytes → bytes → option bytes).
Abbreviation apply := (apply ext_recover).
Abbreviation apply_loop := (apply_loop ext_recover).

(** The identity of the result: block number and hash of the last header. *)
Definition stamp (n : Z) (h : Hash) (s : Snapshot) : Snapshot :=
  MkSnapshot (config s) n h (Signers s) (Recents s) (Votes s) (sTally s).

Lemma apply_Ok s h headers c s' c' :
  apply s (h :: headers) c = (Ok s', c') ↔
  numbered (sNumber s + 1) (h :: headers) ∧
  ∃ s1, apply_loop (config s) (h :: headers) s c = (Ok s1, c') ∧
    s' = stamp (u64 (sNumber s1 + Z.of_nat (length (h :: headers)))) (Header_Hash (List.last (h :: headers) h)) s1.
Proof.
  rewrite <-apply_guard. unfold apply.
  destruct (_ ≫= _) as [[]| |]; [|split; [done|by intros [? _]]..].
  destruct (apply_loop _ _ _ _) as [[s1| |] c1]; (split; [intros H|intros (_ & s2 & H & ->)]);
    simplify_eq; [|done|..]; try by destruct H as (_ & ? & ? & _).
  split; [done|]. by eexists.
Qed.

Lemma apply_loop_replay cfg headers s c s' c' N :
  apply_loop cfg headers s c = (Ok s', c') → numbered (N + 1) headers → 0 <= N →
  N + Z.of_nat (length headers) < two64 →
  ∃ tr, replay cfg N s headers tr ∧ final s tr = s' ∧ length tr = length headers ∧
    ecrecover_all ext_recover headers c = Ok <$> tr.*1 ∧
    ∀ k, ∃ ck, apply_loop cfg (take k headers) s c = (Ok (final s (take k tr)), ck).
Proof.
  revert s c N. induction headers as [|h headers IH]; intros s c N; cbn [Snapshot.apply_loop numbered].
  - intros [= <- <-] _ _ _. exists []. split_and!; [constructor|done..|]. intros k. exists c. by destruct k.
  - intros Hl [Hn HN] H0 Hmax. cbn [length] in Hmax. rewrite Hn in Hl. rewrite u64_small in Hl by word_lia.
    cbn [mbind res_bind ecrecover_all] in *.
    destruct (begin_block cfg (N + 1) s) as [s1| |] eqn:Hb; cbn [mbind res_bind] in Hl; [|done..].
    destruct (ecrecover ext_recover h c) as [[a| |] c1] eqn:He; [|done..].
    destruct (seal_block (N + 1) a h s1) as [s2| |] eqn:Hs; [|done..].
    destruct (IH s2 c1 (N + 1) Hl HN) as (tr & HR & HF & HL & HE & HP); [lia|lia|].
    exists ((a, s2) :: tr). split_and!.
    + by econstructor.
    + by rewrite final_cons.
    + cbn. by rewrite HL.
    + cbn. by rewrite HE.
    + intros [|k]; [by exists c|]. destruct (HP k) as [ck Hk]. exists ck. cbn [take Snapshot.apply_loop].
      rewrite Hn, u64_small by word_lia. cbn [mbind res_bind]. rewrite Hb. cbn [mbind res_bind].
      by rewrite He, Hs, Hk, final_cons.
Qed.
End apply_facts.

(** ** A concrete chain *)

(** A recovery function for evaluation: the public key is the signature's body. *)
Definition demo_recover (sig msg : bytes) : option bytes := Some (Byte.x04 :: take 64 sig).

(** The account of the demo key [k], and a block sealed with it. *)
Definition demo_addr (k : byte) : Address := drop 12 (Keccak256 [replicate 64 k]).

Definition demo_block (k : byte) (number : Z) (coinbase : Address) (nonce : bytes) : Header :=
  MkHeader Hash0 uncleHash coinbase Hash0 Hash0 Hash0 (replicate 256 Byte.x00) (Some 2) (Some number)
    8000000 21000 (100 * number) (replicate 32 Byte.x00 ++ replicate 64 k ++ [Byte.x00]) Hash0 nonce
    None None None None None None None.

Definition demo_config : CliqueConfig := MkCliqueConfig 15 30000.

Definition demo_genesis : Snapshot :=
  newSnapshot demo_config 0 Hash0 [demo_addr Byte.x01; demo_addr Byte.x02; demo_addr Byte.x03].

(** Three blocks: two votes that authorize a fourth signer, then its first block. *)
Definition demo_chain : list Header :=
  [demo_block Byte.x01 1 (demo_addr Byte.x04) nonceAuthVote;
   demo_block Byte.x02 2 (demo_addr Byte.x04) nonceAuthVote;
   demo_block Byte.x04 3 Address0 nonceDropVote].

Definition demo_cache : sigLRU := LRU.NewBasicLRU 4096.

(** Whether a run of [apply] accepted the headers. *)
Definition accepted {A B} (r : res clique_error A * B) : bool := is_ok (fst r).

Lemma accepted_Ok {A B} (r : res clique_error A * B) : accepted r = true → ∃ a, r = (Ok a, snd r).
Proof. destruct r as [[a| |] b]; [by exists a|done..]. Qed.

Example demo_accepts : accepted (apply demo_recover demo_genesis demo_chain demo_cache) = true.
Proof. vm_compute. reflexivity. Qed.

(** ** What [apply] guarantees *)

Section apply_theorems.
Context (ext_recover : bytes → bytes → option bytes).

Lemma apply_keeps s headers c s' c' :
  apply ext_recover s headers c = (Ok s', c') →
  0 <= sNumber s → sNumber s + Z.of_nat (length headers) < two64 →
  votes_ok s → recents_ok (sNumber s) s →
  votes_ok s' ∧ recents_ok (sNumber s') s' ∧ sNumber s' = sNumber s + Z.of_nat (length headers).
Proof.
  intros HA H0 Hmax HV HR. destruct headers as [|h headers].
  - injection HA as <- <-. split_and!; [done..|]. cbn. lia.
  - apply apply_Ok in HA as (HN & s1 & Hl & ->).
    destruct (apply_loop_replay _ _ _ _ _ _ _ _ Hl HN H0 Hmax) as (tr & Hrep & <- & Hlen & _ & _).
    destruct (replay_ok _ _ _ _ _ Hrep H0 HV HR) as [[V1 V2 V3 V4] HR'].
    cbn [sNumber stamp]. rewrite (replay_frame _ _ _ _ _ Hrep), u64_small by (cbn [length] in *; word_lia).
    split_and!; [by constructor| |done]. by rewrite Hlen in HR'.
Qed.

(** C8: from a consistent snapshot, and as long as block numbers stay below 2^64,
    whatever headers [apply] accepts, the snapshot it returns is consistent: the
    tally counts exactly the pending votes, each signer has at most one pending vote
    per account, pending votes were cast by current signers and propose a change, and
    the recent signers are those of distinct blocks of the current window. *)
Theorem apply_invariant s headers c s' c' :
  apply ext_recover s headers c = (Ok s', c') →
  0 <= sNumber s → sNumber s + Z.of_nat (length headers) < two64 →
  votes_ok s → recents_ok (sNumber s) s →
  votes_ok s' ∧ recents_ok (sNumber s') s' ∧ sNumber s' = sNumber s + Z.of_nat (length headers).
Proof. apply apply_keeps. Qed.

(** A prefix of an accepted run is accepted, with the snapshot of the replay. *)
Lemma apply_prefix s headers c tr k :
  numbered (sNumber s + 1) headers → length tr = length headers →
  (∀ k, ∃ ck, apply_loop ext_recover (config s) (take k headers) s c = (Ok (final s (take k tr)), ck)) →
  ∃ sk ck, apply ext_recover s (take k headers) c = (Ok sk, ck) ∧ (0 < k → Signers sk = Signers (final s (take k tr)))%nat.
Proof.
  intros HN Hlen Hk. destruct (Hk k) as [ck Hl]. destruct headers as [|h headers].
  { exists s, c. rewrite take_nil. split; [done|]. destruct tr; [|done]. by rewrite take_nil. }
  destruct k as [|k]; [exists s, c; split; [done|lia]|]. cbn [take] in *.
  assert (numbered (sNumber s + 1) (h :: take k headers)) as HN'.
  { rewrite <-(take_drop (S k) (h :: headers)) in HN. by apply numbered_app in HN as [? _]. }
  eexists _, ck. split; [apply apply_Ok; split; [done|]; eexists; split; [exact Hl|done]|]. done.
Qed.

(** C19: no signer signs too often: if [apply] accepts a run of headers, and after each of
    them, in the snapshot that [apply] has reached there, at least [m] accounts are
    authorized, then the signers recovered from two headers of the run at distance at most
    m/2 are different. ([apply] accepts every prefix of the run, so these snapshots exist;
    the block numbers stay below 2^64.) *)
Theorem apply_spacing s headers c s' c' m i j a b :
  apply ext_recover s headers c = (Ok s', c') →
  0 <= sNumber s → sNumber s + Z.of_nat (length headers) < two64 →
  (∀ k sk ck, (0 < k <= length headers)%nat → apply ext_recover s (take k headers) c = (Ok sk, ck) →
     m <= Z.of_nat (size (Signers sk))) →
  ecrecover_all ext_recover headers c !! i = Some (Ok a) → ecrecover_all ext_recover headers c !! j = Some (Ok b) →
  0 < Z.of_nat j - Z.of_nat i <= m / 2 →
  a ≠ b ∧ ∀ k, ∃ sk ck, apply ext_recover s (take k headers) c = (Ok sk, ck).
Proof.
  intros HA H0 Hmax Hsize Hi Hj Hij. destruct headers as [|h headers]; [by destruct i|].
  apply apply_Ok in HA as (HN & s1 & Hl & ->).
  destruct (apply_loop_replay _ _ _ _ _ _ _ _ Hl HN H0 Hmax) as (tr & Hrep & _ & Hlen & HE & HP).
  pose proof (λ k, apply_prefix s (h :: headers) c tr k HN Hlen HP) as Hpre.
  split; [|intros k; destruct (Hpre k) as (sk & ck & Hk & _); by exists sk, ck].
  intros <-. rewrite HE, !list_lookup_fmap in Hi, Hj.
  destruct (tr !! i) as [[a1 si]|] eqn:Ei; [|done]. destruct (tr !! j) as [[a2 sj]|] eqn:Ej; [|done].
  cbn in Hi, Hj. injection Hi as ->. injection Hj as ->.
  assert (Forall (λ x, m <= Z.of_nat (size (Signers x.2))) tr) as HF.
  { apply Forall_lookup. intros k x Hx. destruct (Hpre (S k)) as (sk & ck & Hk & HS). rewrite (final_take _ _ _ _ Hx) in HS.
    rewrite <-HS by lia. eapply Hsize; [|exact Hk]. apply lookup_lt_Some in Hx. lia. }
  pose proof (replay_spacing _ _ _ _ _ m i j _ _ _ Hrep HF Ei Ej ltac:(lia)). lia.
Qed.
End apply_theorems.

Lemma demo_genesis_ok : votes_ok demo_genesis ∧ recents_ok 0 demo_genesis.
Proof. split; [apply newSnapshot_votes_ok|]. by split. Qed.

Lemma apply_invariant_witness :
  ∃ s', fst (apply demo_recover demo_genesis demo_chain demo_cache) = Ok s' ∧
    votes_ok s' ∧ recents_ok (sNumber s') s' ∧ sNumber s' = 3.
Proof.
  destruct (accepted_Ok _ demo_accepts) as [s' E]. exists s'. rewrite E. split; [reflexivity|].
  apply (apply_invariant _ _ _ _ _ _ E); [vm_compute; congruence|vm_compute; reflexivity|apply demo_genesis_ok..].
Defined.

(** Whether the prefixes of a run have at least [m] signers. *)
Definition enough (m : nat) (r : res clique_error Snapshot * sigLRU) : bool :=
  match fst r with Ok s => (m <=? size (Signers s))%nat | _ => true end.

Lemma enough_spec m r s c : enough m r = true → r = (Ok s, c) → Z.of_nat m <= Z.of_nat (size (Signers s)).
Proof. intros Hr ->. apply Nat.leb_le in Hr. lia. Qed.

Lemma apply_spacing_witness : demo_addr Byte.x01 ≠ demo_addr Byte.x02.
Proof.
  destruct (accepted_Ok (apply demo_recover demo_genesis (take 2 demo_chain) demo_cache) ltac:(by vm_compute)) as [s' E].
  apply (apply_spacing demo_recover demo_genesis (take 2 demo_chain) demo_cache s' _ 3 0 1 _ _ E); [by vm_compute|by vm_compute| |..].
  - intros k sk ck Hk. change (length (take 2 demo_chain)) with 2%nat in Hk. apply (enough_spec 3).
    do 3 (destruct k as [|k]; [lia || by vm_compute|]). exfalso. lia.
  - clear E. by vm_compute.
  - clear E. by vm_compute.
  - clear. split; vm_compute; [reflexivity|discriminate].
Defined.
