(* ===== verification/Turns.v ===== *)
(** * Turns, availability and composition of snapshots

    Consequences of the snapshot rules of [consensus/clique/snapshot.go]: the sorted
    signer list and whose turn it is, that some signer can always continue the chain,
    and that applying headers in one go or in several steps gives the same snapshot. *)
From Stdlib Require Import ZArith Lia.
From Stdlib Require Strings.Byte.
From stdpp Require Import base tactics decidable countable list numbers gmap fin_maps fin_sets sorting.
From S2P Require Import Prelude Keccak Common Rlp Types Fees Lru Seal Snapshot.

(** ** Availability *)

Lemma size_nonzero (X : gset Address) : X ≠ ∅ → size X ≠ 0%nat.
Proof. intros HX H. apply size_empty_inv in H. apply HX, leibniz_equiv, H. Qed.

(** The signers blocked at the next block are fewer than half. *)
Lemma recents_few cfg N s s1 :
  0 <= N → recents_ok N s → begin_block cfg (N + 1) s = Ok s1 →
  Z.of_nat (size (Recents s1)) <= limit_of s1 - 1.
Proof.
  intros HN HR Hb. destruct (begin_block_window _ _ _ _ HN HR Hb) as [HW _].
  rewrite <-size_dom. pose proof (limit_pos s1).
  set (L := seqZ (N + 2 - limit_of s1) (limit_of s1 - 1)).
  assert (dom (Recents s1) ⊆ list_to_set L) as Hsub.
  { intros k [a Hk]%elem_of_dom. apply elem_of_list_to_set, elem_of_seqZ. apply HW in Hk. lia. }
  apply subseteq_size in Hsub. rewrite size_list_to_set in Hsub by apply NoDup_seqZ.
  unfold L in Hsub. rewrite length_seqZ in Hsub. lia.
Qed.

Lemma unblocked_signer s :
  Signers s ≠ ∅ → Z.of_nat (size (Recents s)) <= limit_of s - 1 →
  ∃ a, a ∈ Signers s ∧ ∀ k, Recents s !! k ≠ Some a.
Proof.
  intros Hne Hfew. set (vals := (map_to_list (Recents s)).*2).
  destruct (set_choose_or_empty (Signers s ∖ list_to_set vals)) as [[a Ha]|Hsub].
  2: { exfalso. assert (Signers s ⊆ list_to_set vals) as Hsub2.
    { intros x Hx. destruct (decide (x ∈ (list_to_set vals : gset Address))); [done|]. set_solver. }
    apply subseteq_size in Hsub2.
    assert (size (list_to_set vals : gset Address) <= length vals)%nat as Hv.
    { clear. induction vals as [|v vals IH]; [done|]. cbn.
      rewrite size_union_alt, size_singleton.
      assert (size (list_to_set vals ∖ {[v]} : gset Address) <= size (list_to_set vals : gset Address))%nat
        by (apply subseteq_size; set_solver). lia. }
    assert (length vals = size (Recents s)) as Hlen by (unfold vals; by rewrite length_fmap, length_map_to_list).
    assert (size (Signers s) ≠ 0%nat) by (by apply size_nonzero).
    unfold limit_of in Hfew. Z.div_mod_to_equations. lia. }
  apply elem_of_difference in Ha as [Ha Hv]. exists a. split; [done|].
    intros k Hk. apply Hv. apply elem_of_list_to_set. apply list_elem_of_fmap. exists (k, a).
    split; [done|]. by apply elem_of_map_to_list.
Qed.

(** A signer outside the recent list passes, whatever its well-formed vote. *)
Lemma seal_block_free number a header s :
  a ∈ Signers s → (∀ k, Recents s !! k ≠ Some a) →
  Nonce header = nonceAuthVote ∨ Nonce header = nonceDropVote →
  ∃ s', seal_block number a header s = Ok s'.
Proof.
  intros Ha Hfree Hnonce. unfold seal_block. rewrite bool_decide_eq_true_2 by done. cbn [negb].
  rewrite bool_decide_eq_false_2 by (intros (k & b & Hk & ->); by apply Hfree in Hk).
  unfold vote_of_nonce. set (x := if decide (Nonce header = nonceAuthVote) then _ else _).
  assert (∃ auth, x = Ok auth) as [auth ->].
  { unfold x. destruct (decide _); [eauto|]. rewrite decide_True; [eauto|]. tauto. }
  cbn [mbind res_bind]. destruct (cast _ _ _) as [counted s3]. by eexists.
Qed.

(** C33: a Clique chain cannot block itself: in every consistent snapshot with at least
    one signer there is a signer whose next block passes the authorization rules,
    whatever the (well-formed) vote it carries. *)
Theorem some_signer_can_seal cfg N s header :
  0 <= N → Epoch cfg ≠ 0 → Signers s ≠ ∅ → recents_ok N s →
  Nonce header = nonceAuthVote ∨ Nonce header = nonceDropVote →
  ∃ a s1 s2, a ∈ Signers s ∧ begin_block cfg (N + 1) s = Ok s1 ∧ seal_block (N + 1) a header s1 = Ok s2.
Proof.
  intros HN HE Hne HR Hnonce.
  destruct (begin_block cfg (N + 1) s) as [s1| |] eqn:Hb;
    [|unfold begin_block in Hb; by rewrite decide_False in Hb by done..].
  destruct (begin_block_recents _ _ _ _ Hb) as (HS & _).
  destruct (unblocked_signer s1) as (a & Ha & Hfree); [by rewrite HS|by eapply recents_few|].
  destruct (seal_block_free (N + 1) a header s1 Ha Hfree Hnonce) as [s2 Hs2].
  exists a, s1, s2. by rewrite <-HS.
Qed.

Lemma some_signer_can_seal_witness :
  ∃ a s1 s2, a ∈ Signers demo_genesis ∧ begin_block demo_config (0 + 1) demo_genesis = Ok s1 ∧
    seal_block (0 + 1) a (demo_block Byte.x01 1 Address0 nonceDropVote) s1 = Ok s2.
Proof.
  apply some_signer_can_seal; [lia|vm_compute; congruence| |apply demo_genesis_ok|right; reflexivity].
  intros E. apply (f_equal size) in E. vm_compute in E. congruence.
Defined.

(** ** The sorted signer list *)

Lemma bytes_Compare_trans x y z : bytes_Compare x y ≠ Gt → bytes_Compare y z ≠ Gt → bytes_Compare x z ≠ Gt.
Proof.
  revert y z. induction x as [|a x IH]; intros [|b y] [|c z]; cbn; try done.
  destruct (Z.compare_spec (b2z a) (b2z b)) as [E1|E1|E1]; [| |done];
    destruct (Z.compare_spec (b2z b) (b2z c)) as [E2|E2|E2]; try done;
    destruct (Z.compare_spec (b2z a) (b2z c)) as [E3|E3|E3]; try lia; try done. apply IH.
Qed.

#[export] Instance addr_le_trans : Transitive addr_le.
Proof. intros x y z. apply bytes_Compare_trans. Qed.

#[export] Instance addr_le_total : Total addr_le.
Proof.
  intros x y. unfold addr_le, Address_Cmp. rewrite (bytes_Compare_antisym x y).
  destruct (bytes_Compare x y); cbn; [left|left|right]; done.
Qed.

#[export] Instance addr_le_antisym : AntiSymm (=) addr_le.
Proof.
  intros x y. unfold addr_le, Address_Cmp. rewrite (bytes_Compare_antisym x y).
  destruct (bytes_Compare x y) eqn:E; cbn; try done. intros _ _. by apply bytes_Compare_eq.
Qed.

Lemma signers_perm s : signers s ≡ₚ elements (Signers s).
Proof. apply merge_sort_Permutation. Qed.

Lemma elem_of_signers s a : a ∈ signers s ↔ a ∈ Signers s.
Proof. by rewrite signers_perm, elem_of_elements. Qed.

Lemma NoDup_signers s : NoDup (signers s).
Proof. rewrite signers_perm. apply NoDup_elements. Qed.

Lemma signers_sorted s : StronglySorted addr_le (signers s).
Proof. unfold signers. apply StronglySorted_merge_sort; apply _. Qed.

Lemma offset_of_lookup a l i : NoDup l → l !! i = Some a ↔ (i = offset_of a l ∧ a ∈ l).
Proof.
  revert i. induction l as [|x l IH]; intros i HN.
  - rewrite lookup_nil. split; [done|]. by intros [_ []%elem_of_nil].
  - apply NoDup_cons in HN as [Hx HN]. cbn. destruct (decide (x = a)) as [->|Hne].
    + split; [|by intros [-> _]]. destruct i as [|i]; [split; [done|by left]|].
      cbn. intros Hi. exfalso. apply Hx. by eapply list_elem_of_lookup_2.
    + destruct i as [|i]; cbn; [split; [congruence|by intros []]|]. rewrite (IH i HN).
      split; intros [Hi Hin]; (split; [lia|]); set_solver.
Qed.

(** the turns: in a snapshot with signers, at every block number exactly one
    account is in turn, it is a signer, and it is the one at position
    number mod (number of signers) of the sorted signer list. *)
Theorem inturn_unique s number :
  Signers s ≠ ∅ → 0 <= number →
  ∃ a, a ∈ Signers s ∧ signers s !! Z.to_nat (number mod Z.of_nat (size (Signers s))) = Some a ∧
    ∀ b, inturn s number b = Ok (bool_decide (b = a)).
Proof.
  intros Hne Hn. assert (length (signers s) = size (Signers s)) as HL by (rewrite signers_perm; done).
  assert (size (Signers s) ≠ 0%nat) as Hsz by (by apply size_nonzero).
  assert (0 <= number mod Z.of_nat (size (Signers s)) < Z.of_nat (size (Signers s))) as Hm
    by (apply Z.mod_pos_bound; lia).
  assert (number mod Z.of_nat (length (signers s)) = number mod Z.of_nat (size (Signers s))) as Hmod by (by rewrite HL).
  set (m := number mod Z.of_nat (size (Signers s))) in *. set (i := Z.to_nat m).
  destruct (lookup_lt_is_Some_2 (signers s) i) as [a Ha]; [unfold i; lia|].
  exists a. split_and!; [apply elem_of_signers; by eapply list_elem_of_lookup_2|done|].
  intros b. unfold inturn. rewrite decide_False by (intros E; rewrite E in HL; cbn in HL; lia).
  f_equal. apply bool_decide_ext. rewrite Hmod.
  pose proof Ha as Ha2. apply offset_of_lookup in Ha2 as [Hi Hin]; [|apply NoDup_signers].
  split.
  - intros Hb. assert (i = offset_of b (signers s)) as Hib by (unfold i; lia).
    assert (b ∈ signers s) as Hinb.
    { destruct (decide (b ∈ signers s)) as [|Hout]; [done|]. exfalso.
      assert (offset_of b (signers s) = length (signers s)) as Hlen.
      { clear -Hout. induction (signers s) as [|x l IH]; [done|]. cbn.
        rewrite decide_False by set_solver. f_equal. apply IH. set_solver. }
      lia. }
    assert (signers s !! i = Some b) as Hb2 by (apply offset_of_lookup; [apply NoDup_signers|done]).
    congruence.
  - intros ->. unfold i in Hi. lia.
Qed.

Lemma inturn_unique_witness :
  ∃ a, a ∈ Signers demo_genesis ∧ inturn demo_genesis 1 a = Ok true.
Proof.
  destruct (inturn_unique demo_genesis 1) as (a & H1 & _ & H2); [|lia|].
  - intros E. apply (f_equal size) in E. vm_compute in E. congruence.
  - exists a. split; [exact H1|]. rewrite H2. by rewrite bool_decide_eq_true_2.
Defined.

(** ** Applying headers in several steps *)

(** Number and hash of a snapshot play no role in the loop. *)
Lemma shift_recents_stamp number n h s : shift_recents number (stamp n h s) = stamp n h (shift_recents number s).
Proof. unfold shift_recents. change (limit_of (stamp n h s)) with (limit_of s). by destruct (decide _). Qed.

Lemma begin_block_stamp cfg number n h s :
  begin_block cfg number (stamp n h s) = stamp n h <$> begin_block cfg number s.
Proof.
  unfold begin_block. destruct (decide (Epoch cfg = 0)); [done|]. cbv zeta.
  destruct (decide (number mod Epoch cfg = 0)); cbn [fmap res_fmap]; f_equal.
  - apply (shift_recents_stamp number n h (set_Tally ∅ (set_Votes [] s))).
  - apply shift_recents_stamp.
Qed.

Lemma uncast_stamp a b n h s : snd (uncast a b (stamp n h s)) = stamp n h (snd (uncast a b s)).
Proof. unfold uncast. cbn [sTally stamp]. repeat case_match; done. Qed.

Lemma cast_stamp a b n h s :
  cast a b (stamp n h s) = (fst (cast a b s), stamp n h (snd (cast a b s))).
Proof.
  unfold cast. change (validVote (stamp n h s) a b) with (validVote s a b). cbn [sTally stamp].
  repeat case_match; done.
Qed.

Lemma discard_previous_stamp a c V1 V2 n h s :
  discard_previous a c V1 V2 (stamp n h s) = stamp n h (discard_previous a c V1 V2 s).
Proof.
  revert V1. induction V2 as [|v V2 IH]; intros V1; cbn [discard_previous]; [done|].
  destruct (decide _); [by rewrite uncast_stamp|apply IH].
Qed.

Lemma discard_cast_by_stamp c V1 V2 n h s :
  discard_cast_by c V1 V2 (stamp n h s) = stamp n h (discard_cast_by c V1 V2 s).
Proof.
  revert V1 s. induction V2 as [|v V2 IH]; intros V1 s; cbn [discard_cast_by]; [done|].
  destruct (decide _); [rewrite uncast_stamp|]; apply IH.
Qed.

Lemma resolve_vote_stamp number c n h s :
  resolve_vote number c (stamp n h s) = stamp n h (resolve_vote number c s).
Proof.
  unfold resolve_vote. change (tally_at (stamp n h s) c) with (tally_at s c).
  change (Signers (stamp n h s)) with (Signers s). destruct (decide (_ < _)); [|done]. rewrite !discard_about_spec.
  destruct (tAuthorize (tally_at s c)); [done|].
  change (set_Signers ?X (stamp n h s)) with (stamp n h (set_Signers X s)).
  rewrite shift_recents_stamp. change (Votes (stamp n h ?x)) with (Votes x).
  by rewrite discard_cast_by_stamp.
Qed.

Lemma seal_block_stamp number a hd n h s :
  seal_block number a hd (stamp n h s) = stamp n h <$> seal_block number a hd s.
Proof.
  unfold seal_block. cbn [Signers Recents Votes stamp set_Recents].
  destruct (negb _); [done|]. destruct (bool_decide _); [done|].
  change (set_Recents ?X (stamp n h s)) with (stamp n h (set_Recents X s)).
  change (set_Recents (<[number := a]> (Recents s)) (stamp n h s))
    with (stamp n h (set_Recents (<[number := a]> (Recents s)) s)).
  rewrite discard_previous_stamp. destruct (vote_of_nonce _) as [auth| |]; [|done..]. cbn [mbind res_bind].
  rewrite cast_stamp. destruct (cast _ _ _) as [[] s3]; cbn [fst snd fmap res_fmap]; rewrite <-resolve_vote_stamp; done.
Qed.

Section compose.
Context (ext_recover : bytes → bytes → option bytes).

Lemma apply_loop_stamp cfg headers n h s c :
  apply_loop ext_recover cfg headers (stamp n h s) c =
  (stamp n h <$> fst (apply_loop ext_recover cfg headers s c), snd (apply_loop ext_recover cfg headers s c)).
Proof.
  revert s c. induction headers as [|hd headers IH]; intros s c; cbn [apply_loop]; [done|].
  destruct (Uint64 (Number hd)) as [k| |]; cbn [mbind res_bind]; [|done..].
  rewrite begin_block_stamp. destruct (begin_block cfg k s) as [s1| |]; cbn [fmap res_fmap mbind res_bind]; [|done..].
  destruct (ecrecover ext_recover hd c) as [[a| |] c1]; [|done..].
  rewrite seal_block_stamp. destruct (seal_block k a hd s1) as [s2| |]; cbn [fmap res_fmap]; [|done..]. apply IH.
Qed.

Lemma apply_loop_app cfg l1 l2 s c :
  apply_loop ext_recover cfg (l1 ++ l2) s c =
    match apply_loop ext_recover cfg l1 s c with
    | (Ok s1, c1) => apply_loop ext_recover cfg l2 s1 c1
    | r => r
    end.
Proof.
  revert s c. induction l1 as [|hd l1 IH]; intros s c; cbn [apply_loop app]; [done|].
  destruct (_ ≫= _) as [[k s1]| |]; [|done..].
  destruct (ecrecover ext_recover hd c) as [[a| |] c1]; [|done..].
  destruct (seal_block k a hd s1) as [s2| |]; [|done..]. apply IH.
Qed.

Lemma apply_loop_frame cfg headers s c s1 c1 :
  apply_loop ext_recover cfg headers s c = (Ok s1, c1) → config s1 = config s ∧ sNumber s1 = sNumber s.
Proof.
  revert s c. induction headers as [|hd headers IH]; intros s c; cbn [apply_loop]; [by intros [= <- _]|].
  destruct (Uint64 (Number hd)) as [k| |]; cbn [mbind res_bind]; [|done..].
  destruct (begin_block cfg k s) as [t1| |] eqn:Hb; cbn [mbind res_bind]; [|done..].
  destruct (ecrecover ext_recover hd c) as [[a| |] c2]; [|done..].
  destruct (seal_block k a hd t1) as [t2| |] eqn:Hs; [|done..]. intros [E1 E2]%IH.
  apply begin_block_frame in Hb as (? & ? & _). apply seal_block_frame in Hs as (? & ? & _). split; congruence.
Qed.

Lemma numbered_u64 n headers : numbered (u64 n) headers ↔ numbered n headers.
Proof.
  assert (∀ m, u64 m = u64 n → numbered m headers ↔ numbered n headers) as H; [|apply H; unfold u64; apply Zmod_mod].
  revert n. induction headers as [|h headers IH]; intros n m E; cbn; [done|].
  rewrite E, (IH (n + 1) (m + 1)); [done|]. rewrite <-(u64_succ m), <-(u64_succ n). by rewrite E.
Qed.

Lemma last_app_cons {A} (l1 : list A) x l2 d : List.last (l1 ++ x :: l2) d = List.last (x :: l2) d.
Proof.
  induction l1 as [|y l1 IH]; [done|]. cbn [app]. rewrite <-IH. by destruct l1.
Qed.

Lemma last_nonempty {A} (x : A) l d d' : List.last (x :: l) d = List.last (x :: l) d'.
Proof. revert x. induction l as [|y l IH]; intros x; [done|]. cbn in *. apply IH. Qed.

(** snapshots compose: if [apply] takes a snapshot over some headers, then it
    accepts further headers on top of the result exactly when it accepts the whole
    sequence on the original snapshot, with the same final snapshot and cache. A
    snapshot computed from any intermediate checkpoint is therefore the one computed
    from the start of the chain. *)
Theorem apply_compose s l1 l2 c s1 c1 s2 c2 :
  apply ext_recover s l1 c = (Ok s1, c1) →
  apply ext_recover s1 l2 c1 = (Ok s2, c2) ↔ apply ext_recover s (l1 ++ l2) c = (Ok s2, c2).
Proof.
  destruct l1 as [|h1 l1]; [intros [= -> ->]; done|].
  destruct l2 as [|h2 l2]; [intros HA; rewrite app_nil_r, HA; by cbn|].
  intros (HN1 & t1 & Hl1 & ->)%apply_Ok. cbn [app]. rewrite !apply_Ok.
  destruct (apply_loop_frame _ _ _ _ _ _ Hl1) as [Hcfg Hnum].
  cbn [sNumber config stamp]. rewrite !app_comm_cons, apply_loop_app, Hl1, apply_loop_stamp, numbered_app, Hnum, Hcfg.
  assert (numbered (u64 (sNumber s + Z.of_nat (length (h1 :: l1))) + 1) (h2 :: l2) ↔
          numbered (sNumber s + 1 + Z.of_nat (length (h1 :: l1))) (h2 :: l2)) as ->.
  { rewrite <-numbered_u64, u64_succ, numbered_u64.
    by replace (sNumber s + Z.of_nat (length (h1 :: l1)) + 1) with (sNumber s + 1 + Z.of_nat (length (h1 :: l1))) by lia. }
  destruct (apply_loop ext_recover (config s) (h2 :: l2) t1 c1) as [[t2| |] c'] eqn:Hl2; cbn [fst snd fmap res_fmap];
    [|split; [intros (_ & ? & [=] & _)|intros (_ & ? & [=] & _)]..].
  pose proof (proj2 (apply_loop_frame _ _ _ _ _ _ Hl2)) as Hnum2.
  assert (∀ h, stamp (u64 (sNumber (stamp (u64 (sNumber s + Z.of_nat (length (h1 :: l1)))) h t2) + Z.of_nat (length (h2 :: l2))))
    (Header_Hash (List.last (h2 :: l2) h2)) (stamp (u64 (sNumber s + Z.of_nat (length (h1 :: l1)))) h t2) =
    stamp (u64 (sNumber t2 + Z.of_nat (length ((h1 :: l1) ++ h2 :: l2))))
      (Header_Hash (List.last ((h1 :: l1) ++ h2 :: l2) h1)) t2) as Heq.
  { intros h. rewrite last_app_cons, (last_nonempty h2 l2 h1 h2), length_app. cbn [sNumber stamp].
    rewrite u64_succ, Hnum2, Hnum, Nat2Z.inj_add, Z.add_assoc. done. }
  split.
  - intros (HN2 & ? & [= <- <-] & ->). split; [done|]. exists t2. split; [done|]. by rewrite Heq.
  - intros ([_ HN2] & ? & [= <- <-] & ->). split; [done|]. eexists. split; [done|]. by rewrite Heq.
Qed.
End compose.

Lemma apply_compose_witness :
  ∃ s1 c1 s2 c2, apply demo_recover demo_genesis (take 2 demo_chain) demo_cache = (Ok s1, c1) ∧
    apply demo_recover s1 (drop 2 demo_chain) c1 = (Ok s2, c2).
Proof.
  assert (accepted (apply demo_recover demo_genesis (take 2 demo_chain) demo_cache) = true) as H1
    by (vm_compute; reflexivity).
  destruct (accepted_Ok _ H1) as [s1 E1]. destruct (accepted_Ok _ demo_accepts) as [s2 E2].
  eexists s1, _, s2, _. split; [exact E1|]. apply (apply_compose _ _ _ _ _ _ _ _ _ E1). exact E2.
Defined.
