(* ===== verification/Clique.v ===== *)
(** * The Clique engine

    [consensus/clique/clique.go]: header verification, the search for a snapshot,
    seal verification, preparation of new headers and the difficulty rule. The engine
    is a record; methods run in a state and error monad [M], because [snapshot] and
    [ecrecover] fill caches and the database while they may fail. What the engine is
    given from outside is an interface: the chain ([ChainHeaderReader]), the snapshot
    store ([SnapshotDB], the database behind [loadSnapshot] and [store]), the clock and
    the random index of [Prepare]. *)
From Stdlib Require Import ZArith Lia.
From Stdlib Require Strings.Byte.
From stdpp Require Import base tactics decidable countable list numbers gmap fin_maps fin_sets sorting.
From S2P Require Import Prelude Keccak Common Rlp Types Fees Lru Seal Snapshot Turns.

(** ** Interfaces *)

(** [consensus.ChainHeaderReader], the part the engine uses. *)
Record ChainHeaderReader : Type := MkChain {
  ChainConf : ChainConfig;
  GetHeader : Hash → Z → option Header;
  GetHeaderByNumber : Z → option Header
}.

(** The database that holds snapshots: a key is the prefix of clique snapshots
    followed by the hash; a value is the JSON of the snapshot's exported fields, here
    the snapshot itself. [db_Put] may fail. *)
Class SnapshotDB (DB : Type) : Type := {
  db_Get : DB → bytes → option Snapshot;
  db_Put : DB → bytes → Snapshot → option DB
}.

(** What a database is expected to do. *)
Class SnapshotDBLaws (DB : Type) `{SnapshotDB DB} : Prop := {
  db_get_put : ∀ db k s db', db_Put db k s = Some db' → db_Get db' k = Some s;
  db_get_put_ne : ∀ db k k' s db', db_Put db k s = Some db' → k' ≠ k → db_Get db' k' = db_Get db k'
}.

(** An in-memory database. *)
#[export] Instance memorydb : SnapshotDB (gmap bytes Snapshot) := {
  db_Get := λ db k, db !! k;
  db_Put := λ db k s, Some (<[k := s]> db)
}.

#[export] Instance memorydb_laws : SnapshotDBLaws (gmap bytes Snapshot).
Proof.
  split.
  - intros db k s db' [= <-]. cbn. apply lookup_insert_eq.
  - intros db k k' s db' [= <-] Hne. cbn. by apply lookup_insert_ne.
Qed.

Definition FullImmutabilityThreshold : Z := 90000.

(** [rawdb.CliqueSnapshotPrefix], the bytes of "clique-". *)
Definition CliqueSnapshotPrefix : bytes := z2b <$> [99; 108; 105; 113; 117; 101; 45].

Section engine.
Context {DB : Type} `{SnapshotDB DB}.
Context (ext_recover : bytes → bytes → option bytes).
Context (chain : ChainHeaderReader).

Record Clique : Type := MkClique {
  c_config : CliqueConfig;
  c_db : DB;
  c_recents : LRU.BasicLRU Hash Snapshot;
  c_signatures : sigLRU;
  c_proposals : gmap Address bool;
  c_signer : Address;
  c_fakeDiff : bool
}.

Definition with_db (db : DB) (c : Clique) : Clique :=
  MkClique (c_config c) db (c_recents c) (c_signatures c) (c_proposals c) (c_signer c) (c_fakeDiff c).
Definition with_recents (r : LRU.BasicLRU Hash Snapshot) (c : Clique) : Clique :=
  MkClique (c_config c) (c_db c) r (c_signatures c) (c_proposals c) (c_signer c) (c_fakeDiff c).
Definition with_signatures (r : sigLRU) (c : Clique) : Clique :=
  MkClique (c_config c) (c_db c) (c_recents c) r (c_proposals c) (c_signer c) (c_fakeDiff c).

(** ** The monad of the methods *)

Definition M (A : Type) : Type := Clique → res clique_error A * Clique.

#[local] Instance M_ret : MRet M := λ A a c, (Ok a, c).
#[local] Instance M_bind : MBind M := λ A B f m c,
  match m c with
  | (Ok a, c) => f a c
  | (Err e, c) => (Err e, c)
  | (Panic, c) => (Panic, c)
  end.

Definition lift {A} (r : res clique_error A) : M A := λ c, (r, c).
Definition throw {A} (e : clique_error) : M A := λ c, (Err e, c).
Definition check (b : bool) (e : clique_error) : M () := λ c, (if b then Ok () else Err e, c).
Definition ask {A} (f : Clique → A) : M A := λ c, (Ok (f c), c).

(** [number % c.config.Epoch]: a zero epoch is a division by zero. *)
Definition epoch_mod (number : Z) : M Z := λ c,
  (if decide (Epoch (c_config c) = 0) then Panic else Ok (number mod Epoch (c_config c)), c).

(** ** Construction and small methods *)

Definition New (config : CliqueConfig) (db : DB) : Clique :=
  let conf := if decide (Epoch config = 0) then MkCliqueConfig (Period config) epochLength else config in
  MkClique conf db (LRU.NewBasicLRU 128) (LRU.NewBasicLRU 4096) ∅ Address0 false.

Definition ecrecoverM (header : Header) : M Address := λ c,
  let '(r, sigs) := ecrecover ext_recover header (c_signatures c) in (r, with_signatures sigs c).

Definition Author (header : Header) : M Address := ecrecoverM header.

Definition Authorize (signer : Address) (c : Clique) : Clique :=
  MkClique (c_config c) (c_db c) (c_recents c) (c_signatures c) (c_proposals c) signer (c_fakeDiff c).

Definition VerifyUncles (uncles : list Header) : res clique_error () :=
  if decide (0 < length uncles)%nat then Err ErrUncles else Ok ().

(** ** Snapshots on disk *)

Definition loadSnapshot (hash : Hash) (c : Clique) : option Snapshot :=
  s ← db_Get (c_db c) (CliqueSnapshotPrefix ++ hash);
  Some (MkSnapshot (c_config c) (sNumber s) (sHash s) (Signers s) (Recents s) (Votes s) (sTally s)).

Definition store (s : Snapshot) : M () := λ c,
  match db_Put (c_db c) (CliqueSnapshotPrefix ++ sHash s) s with
  | Some db => (Ok (), with_db db c)
  | None => (Err ErrDatabase, c)
  end.

(** ** The signer list of a checkpoint header *)

(** [copy(signers[i][:], checkpoint.Extra[extraVanity+i*AddressLength:])]. *)
Definition signer_at (extra : bytes) (i : nat) : Address :=
  let src := drop (extraVanity + i * AddressLength) extra in
  take AddressLength src ++ drop (length (take AddressLength src)) Address0.

(** A negative length of [make] is a panic; Go's division truncates towards zero. *)
Definition checkpoint_signers (extra : bytes) : res clique_error (list Address) :=
  let n := Z.quot (Z.of_nat (length extra) - Z.of_nat extraVanity - Z.of_nat extraSeal) (Z.of_nat AddressLength) in
  if decide (n < 0) then Panic else Ok (signer_at extra <$> seq 0 (Z.to_nat n)).

(** ** The search for a snapshot *)

Definition recents_Get (hash : Hash) : M (option Snapshot) := λ c,
  match LRU.Get hash (c_recents c) with
  | Ok (r, l) => (Ok r, with_recents l c)
  | Err e => (Err e, c)
  | Panic => (Panic, c)
  end.

Definition recents_Add (hash : Hash) (s : Snapshot) : M () := λ c,
  match LRU.Add hash s (c_recents c) with
  | Ok (_, l) => (Ok (), with_recents l c)
  | Err e => (Err e, c)
  | Panic => (Panic, c)
  end.

(** [number == 0 || (number%epoch == 0 && (len(headers) > threshold || no parent))]. *)
Definition trusted_checkpoint (number : Z) (headers : list Header) : M bool :=
  if decide (number = 0) then mret true
  else
    r ← epoch_mod number;
    mret (bool_decide (r = 0) &&
          (bool_decide (FullImmutabilityThreshold < Z.of_nat (length headers)) ||
           negb (isSome (GetHeaderByNumber chain (u64 (number - 1)))))).

(** The next header backwards: the last explicit parent, or the database. *)
Definition previous_header (number : Z) (hash : Hash) (parents : list Header) : M (Header * list Header) :=
  match list.last parents with
  | Some header =>
      if decide (Header_Hash header ≠ hash) then throw ErrUnknownAncestor
      else
        n ← lift (Uint64 (Number header));
        if decide (n ≠ number) then throw ErrUnknownAncestor
        else mret (header, removelast parents)
  | None =>
      match GetHeader chain hash number with
      | None => throw ErrUnknownAncestor
      | Some header => mret (header, [])
      end
  end.

(** The backward loop: it returns the snapshot found and the headers passed on the
    way, newest first. [fuel] bounds the number of headers. *)
Fixpoint gather (fuel : nat) (number : Z) (hash : Hash) (parents headers : list Header)
    : M (Snapshot * list Header) :=
  match fuel with
  | O => throw ErrFuel
  | S fuel =>
      cached ← recents_Get hash;
      match cached with
      | Some s => mret (s, headers)
      | None =>
          disk ← (if decide (number mod checkpointInterval = 0) then ask (loadSnapshot hash) else mret None);
          match disk with
          | Some s => mret (s, headers)
          | None =>
              trusted ← trusted_checkpoint number headers;
              match (if (trusted : bool) then GetHeaderByNumber chain number else None) with
              | Some checkpoint =>
                  signers ← lift (checkpoint_signers (Extra checkpoint));
                  cfg ← ask c_config;
                  let snap := newSnapshot cfg number (Header_Hash checkpoint) signers in
                  _ ← store snap;
                  mret (snap, headers)
              | None =>
                  found ← previous_header number hash parents;
                  let '(header, parents) := found in
                  gather fuel (u64 (number - 1)) (ParentHash header) parents (headers ++ [header])
              end
          end
      end
  end.

Definition applyM (snap : Snapshot) (headers : list Header) : M Snapshot := λ c,
  let '(r, sigs) := apply ext_recover snap headers (c_signatures c) in (r, with_signatures sigs c).

Definition snapshot (fuel : nat) (number : Z) (hash : Hash) (parents : list Header) : M Snapshot :=
  found ← gather fuel number hash parents [];
  let '(snap, headers) := found in
  snap ← applyM snap (reverse headers);
  _ ← recents_Add (sHash snap) snap;
  _ ← (if decide (sNumber snap mod checkpointInterval = 0 ∧ (0 < length headers)%nat)
       then store snap else mret ());
  mret snap.

(** ** Verification *)

Definition verifySeal (snap : Snapshot) (header : Header) : M () :=
  number ← lift (Uint64 (Number header));
  _ ← check (negb (bool_decide (number = 0))) errUnknownBlock;
  signer ← ecrecoverM header;
  _ ← check (bool_decide (signer ∈ Signers snap)) errUnauthorizedSigner;
  _ ← check (negb (bool_decide (map_Exists (λ seen recent, recent = signer ∧
               u64 (number - limit_of snap) < seen) (Recents snap)))) errRecentlySigned;
  fakeDiff ← ask c_fakeDiff;
  if fakeDiff : bool then mret ()
  else
    turn ← lift (inturn snap number signer);
    match Difficulty header with
    | None => lift Panic
    | Some d =>
        _ ← check (negb (turn && negb (bool_decide (d = diffInTurn)))) errWrongDifficulty;
        check (negb (negb turn && negb (bool_decide (d = diffNoTurn)))) errWrongDifficulty
    end.

(** The signer list that a checkpoint header must carry. *)
Definition signer_bytes (snap : Snapshot) : bytes := mjoin (signers snap).

Definition lift_fee (r : res fee_error ()) : M () := λ c,
  (match r with Ok u => Ok u | Err e => Err (ErrFee e) | Panic => Panic end, c).

Definition verifyCascadingFields (fuel : nat) (header : Header) (parents : list Header) : M () :=
  number ← lift (Uint64 (Number header));
  if decide (number = 0) then mret ()
  else
    let parent := match list.last parents with
                  | Some p => Some p
                  | None => GetHeader chain (ParentHash header) (u64 (number - 1))
                  end in
    match parent with
    | None => throw ErrUnknownAncestor
    | Some parent =>
        pn ← lift (Uint64 (Number parent));
        _ ← check (bool_decide (pn = u64 (number - 1))) ErrUnknownAncestor;
        _ ← check (bool_decide (Header_Hash parent = ParentHash header)) ErrUnknownAncestor;
        cfg ← ask c_config;
        _ ← check (negb (bool_decide (Time header < u64 (Time parent + Period cfg)))) errInvalidTimestamp;
        _ ← check (negb (bool_decide (GasLimit header < GasUsed header))) ErrGasUsed;
        _ ← (if negb (IsLondon (ChainConf chain) (Number header)) then
               _ ← check (negb (isSome (BaseFee header))) ErrBaseFeeBeforeFork;
               lift_fee (VerifyGaslimit (GasLimit parent) (GasLimit header))
             else lift_fee (VerifyEIP1559Header (ChainConf chain) parent header));
        snap ← snapshot fuel (u64 (number - 1)) (ParentHash header) parents;
        r ← epoch_mod number;
        _ ← (if decide (r = 0) then
               check (bool_decide (drop extraVanity (take (length (Extra header) - extraSeal) (Extra header)) =
                                   signer_bytes snap)) errMismatchingCheckpointSigners
             else mret ());
        verifySeal snap header
    end.

(** [verifyHeader]; [now] is the clock. *)
Definition verifyHeader (now : Z) (fuel : nat) (header : Header) (parents : list Header) : M () :=
  match Number header with
  | None => throw errUnknownBlock
  | Some _ =>
      number ← lift (Uint64 (Number header));
      _ ← check (negb (bool_decide (u64 now < Time header))) ErrFutureBlock;
      r ← epoch_mod number;
      let checkpoint := bool_decide (r = 0) in
      _ ← check (negb (checkpoint && negb (bool_decide (Coinbase header = Address0)))) errInvalidCheckpointBeneficiary;
      _ ← check (bool_decide (Nonce header = nonceAuthVote) || bool_decide (Nonce header = nonceDropVote)) errInvalidVote;
      _ ← check (negb (checkpoint && negb (bool_decide (Nonce header = nonceDropVote)))) errInvalidCheckpointVote;
      _ ← check (negb (bool_decide (length (Extra header) < extraVanity)%nat)) errMissingVanity;
      _ ← check (negb (bool_decide (length (Extra header) < extraVanity + extraSeal)%nat)) errMissingSignature;
      let signersBytes := (length (Extra header) - extraVanity - extraSeal)%nat in
      _ ← check (negb (negb checkpoint && negb (bool_decide (signersBytes = 0%nat)))) errExtraSigners;
      _ ← check (negb (checkpoint && negb (bool_decide (signersBytes mod AddressLength = 0)%nat))) errInvalidCheckpointSigners;
      _ ← check (bool_decide (MixDigest header = Hash0)) errInvalidMixDigest;
      _ ← check (bool_decide (UncleHash header = uncleHash)) errInvalidUncleHash;
      _ ← check (negb (bool_decide (0 < number) &&
                 negb (bool_decide (Difficulty header = Some diffInTurn) ||
                       bool_decide (Difficulty header = Some diffNoTurn)))) errInvalidDifficulty;
      _ ← check (negb (bool_decide (MaxGasLimit < GasLimit header))) ErrGasLimitTooLarge;
      _ ← check (negb (IsShanghai (ChainConf chain) (Number header) (Time header))) ErrShanghai;
      _ ← check (negb (isSome (WithdrawalsHash header))) ErrWithdrawalsHash;
      _ ← check (negb (IsCancun (ChainConf chain) (Number header) (Time header))) ErrCancun;
      _ ← check (negb (isSome (ExcessBlobGas header))) ErrExcessBlobGas;
      _ ← check (negb (isSome (BlobGasUsed header))) ErrBlobGasUsed;
      _ ← check (negb (isSome (ParentBeaconRoot header))) ErrParentBeaconRoot;
      _ ← check (negb (isSome (SlotNumber header))) ErrSlotNumber;
      verifyCascadingFields fuel header parents
  end.

Definition VerifyHeader (now : Z) (fuel : nat) (header : Header) : M () := verifyHeader now fuel header [].

(** [VerifyHeaders] when it is not aborted: one result per header, each verified with
    the preceding ones as parents, on the shared engine. *)
Fixpoint VerifyHeaders_loop (now : Z) (fuel : nat) (done todo : list Header) (c : Clique)
    : list (res clique_error ()) * Clique :=
  match todo with
  | [] => ([], c)
  | header :: todo =>
      let '(r, c) := verifyHeader now fuel header done c in
      let '(rs, c) := VerifyHeaders_loop now fuel (done ++ [header]) todo c in
      (r :: rs, c)
  end.

Definition VerifyHeaders (now : Z) (fuel : nat) (headers : list Header) (c : Clique)
    : list (res clique_error ()) * Clique := VerifyHeaders_loop now fuel [] headers c.

(** ** Preparation of a header *)

Definition calcDifficulty (snap : Snapshot) (signer : Address) : res clique_error Z :=
  turn ← inturn snap (u64 (sNumber snap + 1)) signer;
  Ok (if turn : bool then diffInTurn else diffNoTurn).

(** A nil result (an error of [snapshot]) is [None]. *)
Definition CalcDifficulty (fuel : nat) (parent : Header) (c : Clique) : res clique_error (option Z) * Clique :=
  match Uint64 (Number parent) with
  | Ok number =>
      match snapshot fuel number (Header_Hash parent) [] c with
      | (Ok snap, c) => (Some <$> calcDifficulty snap (c_signer c), c)
      | (Err _, c) => (Ok None, c)
      | (Panic, c) => (Panic, c)
      end
  | Err e => (Err e, c)
  | Panic => (Panic, c)
  end.

(** The proposals that make sense voting on. *)
Definition valid_proposals (snap : Snapshot) (proposals : gmap Address bool) : list Address :=
  fst <$> filter (λ p, validVote snap p.1 p.2 = true) (map_to_list proposals).

(** The vote of a new header: [rand.Intn(n)] is [Intn n]. *)
Definition choose_vote (Intn : nat → nat) (snap : Snapshot) (proposals : gmap Address bool)
    : res clique_error (Address * bytes) :=
  let addresses := valid_proposals snap proposals in
  if decide (addresses = []) then Ok (Address0, replicate 8 Byte.x00)
  else
    match addresses !! Intn (length addresses) with
    | None => Panic
    | Some a => Ok (a, if default false (proposals !! a) then nonceAuthVote else nonceDropVote)
    end.

(** The extra data: 32 bytes of vanity, the signers on a checkpoint, room for a seal. *)
Definition prepare_extra (extra : bytes) (checkpoint : bool) (snap : Snapshot) : bytes :=
  let extra := if decide (length extra < extraVanity)%nat
               then extra ++ replicate (extraVanity - length extra) Byte.x00 else extra in
  let extra := take extraVanity extra in
  let extra := if checkpoint then extra ++ mjoin (signers snap) else extra in
  extra ++ replicate extraSeal Byte.x00.

Definition Prepare (now : Z) (Intn : nat → nat) (fuel : nat) (header : Header) : M Header :=
  number ← lift (Uint64 (Number header));
  snap ← snapshot fuel (u64 (number - 1)) (ParentHash header) [];
  r ← epoch_mod number;
  proposals ← ask c_proposals;
  vote ← lift (if decide (r ≠ 0) then choose_vote Intn snap proposals else Ok (Address0, replicate 8 Byte.x00));
  signer ← ask c_signer;
  difficulty ← lift (calcDifficulty snap signer);
  cfg ← ask c_config;
  let extra := prepare_extra (Extra header) (bool_decide (r = 0)) snap in
  match GetHeader chain (ParentHash header) (u64 (number - 1)) with
  | None => throw ErrUnknownAncestor
  | Some parent =>
      let time := u64 (Time parent + Period cfg) in
      let time := if decide (time < u64 now) then u64 now else time in
      mret (MkHeader (ParentHash header) (UncleHash header) (fst vote) (Root header) (TxHash header)
              (ReceiptHash header) (Bloom header) (Some difficulty) (Number header) (GasLimit header)
              (GasUsed header) time extra Hash0 (snd vote) (BaseFee header)
              (WithdrawalsHash header) (BlobGasUsed header) (ExcessBlobGas header)
              (ParentBeaconRoot header) (RequestsHash header) (SlotNumber header))
  end.
End engine.
