(* ===== verification/CliqueFacts.v ===== *)
(** * Properties of the Clique engine

    The snapshot search terminates and only ever returns and stores consistent
    snapshots; a checkpoint header carries its signers faithfully; a header whose seal
    verifies can be applied to the snapshot it was verified against. *)
From Stdlib Require Import ZArith Lia.
From Stdlib Require Strings.Byte.
From stdpp Require Import base tactics decidable countable list numbers gmap fin_maps fin_sets sorting.
From S2P Require Import Prelude Keccak Common Rlp Types Fees Lru Seal Snapshot Turns Clique.

#[local] Existing Instance M_ret.
#[local] Existing Instance M_bind.

(** ** Triples over the engine monad *)

Section triples.
Context {DB : Type}.

(** [m] preserves [P]; its value satisfies [Q] and its error [F]. *)
Definition triple {A} (P : Clique (DB := DB) → Prop) (m : M (DB := DB) A) (Q : A → Prop) (F : clique_error → Prop) : Prop :=
  ∀ c, P c → P (snd (m c)) ∧ match fst (m c) with Ok a => Q a | Err e => F e | Panic => True end.

Lemma triple_bind {A B} P (m : M A) (f : A → M B) Q R F :
  triple P m Q F → (∀ a, Q a → triple P (f a) R F) → triple P (m ≫= f) R F.
Proof.
  intros Hm Hf c Hc. specialize (Hm c Hc). unfold mbind, M_bind. destruct (m c) as [[a|e|] c1]; cbn in *; [|done..].
  destruct Hm as [Hc1 Ha]. by apply Hf.
Qed.

Lemma triple_ret {A} P (a : A) (Q : A → Prop) F : Q a → triple P (mret a) Q F.
Proof. by intros Hq c Hc. Qed.

Lemma triple_lift {A} P (r : res clique_error A) Q F :
  (match r with Ok a => Q a | Err e => F e | Panic => True end) → triple P (lift r) Q F.
Proof. by intros Hr c Hc. Qed.

Lemma triple_throw {A} P e (Q : A → Prop) (F : clique_error → Prop) : F e → triple P (throw e) Q F.
Proof. by intros He c Hc. Qed.

Lemma triple_ask {A} (P : Clique → Prop) (f : Clique → A) (Q : A → Prop) F : (∀ c, P c → Q (f c)) → triple P (ask f) Q F.
Proof. intros Hf c Hc. split; [done|]. by apply Hf. Qed.

Lemma triple_mono {A} P (m : M A) (Q Q' : A → Prop) (F F' : clique_error → Prop) :
  triple P m Q F → (∀ a, Q a → Q' a) → (∀ e, F e → F' e) → triple P m Q' F'.
Proof. intros Hm HQ HF c Hc. destruct (Hm c Hc) as [H1 H2]. split; [done|]. destruct (fst (m c)); eauto. Qed.
End triples.

(** ** The engine's invariant *)

Definition snap_ok (s : Snapshot) : Prop :=
  votes_ok s ∧ recents_ok (sNumber s) s ∧ is_u64 (sNumber s).

Lemma newSnapshot_ok cfg n h l : is_u64 n → snap_ok (newSnapshot cfg n h l).
Proof. intros Hn. split_and!; [apply newSnapshot_votes_ok| |done]. by split. Qed.

(** The chain the engine reads from: the genesis header is there, and headers are
    filed under their number. *)
Record chain_ok (chain : ChainHeaderReader) : Prop := {
  chain_genesis : is_Some (GetHeaderByNumber chain 0);
  chain_number : ∀ h n hd, GetHeader chain h n = Some hd → Number hd = Some n
}.

Section snapshot.
Context {DB : Type} `{SnapshotDBLaws DB}.
Context (ext_recover : bytes → bytes → option bytes) (chain : ChainHeaderReader).
Context (Hchain : chain_ok chain).

Record engine_ok (c : Clique (DB := DB)) : Prop := {
  eo_epoch : Epoch (c_config c) ≠ 0;
  eo_recents : ∃ l, LRU.Rel (c_recents c) l ∧ ∀ h s, (h, s) ∈ l → snap_ok s;
  eo_db : ∀ k s, db_Get (c_db c) k = Some s → snap_ok s
}.

Lemma recents_Get_ok F hash :
  triple engine_ok (recents_Get hash) (λ r, ∀ s, r = Some s → snap_ok s) F.
Proof.
  intros c [HE (l & HR & Hl) HD]. unfold recents_Get.
  destruct (LRU.Get_spec (E := clique_error) (c_recents c) l hash HR) as (c' & -> & HR' & _). cbn.
  unfold LRU.spec_get in *. destruct (LRU.assoc hash l) as [s|] eqn:Ea; cbn in *.
  - pose proof (assoc_elem _ _ _ Ea) as Hin. split; [|by intros s' [= <-]; eapply Hl].
    constructor; cbn; [done| |done]. eexists. split; [exact HR'|].
    intros h' s' [[= -> ->]|Hin']%elem_of_cons; [by eapply Hl|]. eapply Hl. by eapply del_elem.
  - split; [|done]. constructor; cbn; [done| |done]. by exists l.
Qed.

Lemma recents_Add_ok (F : clique_error → Prop) hash s : snap_ok s → triple engine_ok (recents_Add hash s) (λ _, True) F.
Proof.
  intros Hs c [HE (l & HR & Hl) HD]. unfold recents_Add, LRU.Add.
  destruct (LRU.Add3_spec (E := clique_error) (c_recents c) l hash s HR) as (c' & -> & HR' & _). cbn.
  split; [|done]. constructor; cbn; [done| |done]. eexists. split; [exact HR'|].
  intros h' s' [[= _ ->]|Hin]%spec_add_elem; [done|]. by eapply Hl.
Qed.

Lemma store_ok (F : clique_error → Prop) s : snap_ok s → F ErrDatabase → triple engine_ok (store s) (λ _, True) F.
Proof.
  intros Hs HF c Hc. unfold store. destruct (db_Put _ _ _) as [db|] eqn:Hp; cbn; [|done]. split; [|done].
  destruct Hc as [HE HR HD]. constructor; cbn; [done..|]. intros k t Hk.
  destruct (decide (k = CliqueSnapshotPrefix ++ sHash s)) as [->|Hne].
  - rewrite (db_get_put _ _ _ _ Hp) in Hk. by injection Hk as <-.
  - rewrite (db_get_put_ne _ _ _ _ _ Hp Hne) in Hk. by eapply HD.
Qed.

Lemma snap_ok_config cfg s :
  snap_ok s → snap_ok (MkSnapshot cfg (sNumber s) (sHash s) (Signers s) (Recents s) (Votes s) (sTally s)).
Proof. intros ([V1 V2 V3 V4] & HR & HN). split_and!; [by constructor|done|done]. Qed.

Lemma loadSnapshot_ok hash c s : engine_ok c → loadSnapshot hash c = Some s → snap_ok s.
Proof.
  intros Hc. unfold loadSnapshot. destruct (db_Get _ _) as [t|] eqn:Hg; cbn; [|done]. intros [= <-].
  apply snap_ok_config. by eapply (eo_db _ Hc).
Qed.

Lemma epoch_mod_ok (F : clique_error → Prop) number : triple engine_ok (epoch_mod (DB := DB) number) (λ _, True) F.
Proof. intros c Hc. unfold epoch_mod. rewrite decide_False by apply (eo_epoch _ Hc). done. Qed.

Lemma trusted_checkpoint_ok (F : clique_error → Prop) number headers :
  triple engine_ok (trusted_checkpoint chain number headers) (λ b, number = 0 → b = true) F.
Proof.
  unfold trusted_checkpoint. destruct (decide (number = 0)); [by apply triple_ret|].
  eapply triple_bind; [apply epoch_mod_ok|]. intros r _. by apply triple_ret.
Qed.

Lemma previous_header_ok (F : clique_error → Prop) number hash parents :
  F ErrUnknownAncestor → is_u64 number →
  triple engine_ok (previous_header chain number hash parents)
    (λ r, Uint64 (E := clique_error) (Number r.1) = Ok number) F.
Proof.
  intros HF Hn. unfold previous_header. destruct (list.last parents) as [hd|].
  - destruct (decide _); [by apply triple_throw|]. eapply triple_bind.
    + apply (triple_lift _ _ (λ n, Uint64 (E := clique_error) (Number hd) = Ok n)). unfold Uint64. by destruct (Number hd).
    + intros k Hu. cbn in Hu. destruct (decide (k ≠ number)) as [|Heq]; [by apply triple_throw|].
      apply dec_stable in Heq as ->. by apply triple_ret.
  - destruct (GetHeader chain hash number) as [hd|] eqn:Hg; [|by apply triple_throw].
    apply triple_ret. cbn. rewrite (chain_number _ Hchain _ _ _ Hg). cbn.
    rewrite Z.abs_eq by (unfold is_u64 in Hn; lia). by rewrite u64_small.
Qed.

(** The headers collected so far, newest first, have the numbers down to [number]. *)
Definition collected (number : Z) (headers : list Header) : Prop :=
  numbered (number + 1) (reverse headers) ∧ number + Z.of_nat (length headers) < two64.

Lemma collected_snoc number headers hd :
  Uint64 (E := clique_error) (Number hd) = Ok number → is_u64 number → collected number headers →
  collected (number - 1) (headers ++ [hd]).
Proof.
  intros Hu Hn [HN HB]. split.
  - rewrite reverse_snoc. cbn [numbered]. rewrite Z.sub_add, u64_small by done. done.
  - rewrite length_app. cbn [length]. lia.
Qed.

Definition found_ok (r : Snapshot * list Header) : Prop :=
  snap_ok r.1 ∧ ∃ number, is_u64 number ∧ collected number r.2.

(** The backward search reaches a snapshot, an error or a panic before the fuel is
    spent, and what it returns is consistent. *)
Lemma gather_ok fuel number hash parents headers :
  is_u64 number → (Z.to_nat number < fuel)%nat → collected number headers →
  triple engine_ok (gather chain fuel number hash parents headers) found_ok (λ e, e ≠ ErrFuel).
Proof.
  revert number hash parents headers.
  induction fuel as [|fuel IH]; intros number hash parents headers Hn Hf HC; [lia|]. cbn [gather].
  eapply triple_bind; [apply recents_Get_ok|]. intros cached Hcached.
  destruct cached as [s|]; [apply triple_ret; split; [by apply Hcached|by exists number]|].
  eapply (triple_bind _ _ _ (λ r, ∀ s, r = Some s → snap_ok s)).
  { destruct (decide _); [|by apply triple_ret]. apply triple_ask. intros c Hc s. by apply loadSnapshot_ok. }
  intros disk Hdisk. destruct disk as [s|]; [apply triple_ret; split; [by apply Hdisk|by exists number]|].
  eapply triple_bind; [apply trusted_checkpoint_ok|]. intros trusted Htr.
  destruct (if trusted : bool then _ else _) as [checkpoint|] eqn:Hcp.
  - eapply triple_bind; [apply (triple_lift _ _ (λ _, True)); unfold checkpoint_signers; by destruct (decide _)|].
    intros signers _. eapply triple_bind; [by apply (triple_ask _ _ (λ _, True))|]. intros cfg _.
    eapply triple_bind; [apply store_ok; [by apply newSnapshot_ok|done]|]. intros _ _.
    apply triple_ret. split; [by apply newSnapshot_ok|by exists number].
  - eapply triple_bind; [by apply previous_header_ok|]. intros [hd parents'] Hu. cbn in Hu.
    assert (number ≠ 0) as Hn0.
    { intros ->. rewrite Htr in Hcp by done. destruct (chain_genesis _ Hchain) as [g Hg]. congruence. }
    assert (is_u64 (number - 1)) as Hn1 by (unfold is_u64 in *; lia).
    rewrite u64_small by done. apply IH; [done|unfold is_u64 in Hn; lia|]. by apply collected_snoc.
Qed.

Lemma numbered_head n h hs s : is_u64 n → is_u64 (sNumber s) →
  numbered (n + 1) (h :: hs) → numbered (sNumber s + 1) (h :: hs) →
  n + Z.of_nat (length (h :: hs)) < two64 → sNumber s + Z.of_nat (length (h :: hs)) < two64.
Proof.
  intros Hn Hs [H1 _] [H2 _] HB. rewrite H1 in H2. injection H2 as E. cbn [length] in *.
  assert (n = sNumber s) as <-; [|done]. word_lia.
Qed.

Lemma applyM_ok (F : clique_error → Prop) snap headers number :
  (∀ e, F e) → snap_ok snap → is_u64 number → collected number headers →
  triple (engine_ok) (applyM (DB := DB) ext_recover snap (reverse headers)) snap_ok F.
Proof.
  intros HF (HV & HR & HN) Hn [HC HB] c [HE HRe HD]. unfold applyM.
  destruct (apply ext_recover snap (reverse headers) (c_signatures c)) as [r sigs] eqn:HA. cbn.
  split; [by constructor|]. destruct r as [s'| |]; [|by apply HF|done].
  assert (sNumber snap + Z.of_nat (length (reverse headers)) < two64) as Hmax.
  { destruct (reverse headers) as [|h hs] eqn:Hrev; [cbn; unfold is_u64 in HN; lia|].
    apply apply_Ok in HA as [Hnum _]. rewrite <-(length_reverse headers), Hrev in HB. by eapply numbered_head. }
  destruct (apply_keeps _ _ _ _ _ _ HA) as (HV' & HR' & HN'); [unfold is_u64 in HN; lia|done..|].
  split_and!; [done|done|]. rewrite HN'. unfold is_u64 in *. lia.
Qed.

(** C21: the search for a snapshot is sound and terminates: on a chain with a genesis
    header, from an engine whose caches and database hold consistent snapshots, with
    fuel above the block number, [snapshot] never stops for lack of fuel in its backward
    loop, it leaves only consistent snapshots in the caches and the database, and the
    snapshot it returns is consistent. *)
Theorem snapshot_sound fuel number hash parents c :
  is_u64 number → (Z.to_nat number < fuel)%nat → engine_ok c →
  fst (gather chain fuel number hash parents [] c) ≠ Err ErrFuel ∧
  engine_ok (snd (snapshot ext_recover chain fuel number hash parents c)) ∧
  ∀ s, fst (snapshot ext_recover chain fuel number hash parents c) = Ok s → snap_ok s.
Proof.
  intros Hn Hf Hc. assert (collected number []) as HC by (split; [done|]; cbn; unfold is_u64 in Hn; lia).
  pose proof (gather_ok fuel number hash parents [] Hn Hf HC) as Hg.
  split. { destruct (Hg c Hc) as [_ Hr]. intros E. rewrite E in Hr. done. }
  assert (triple engine_ok (snapshot ext_recover chain fuel number hash parents) snap_ok (λ _, True)) as Hs.
  { unfold snapshot. eapply triple_bind; [eapply triple_mono; [exact Hg|done|done]|].
    intros [snap headers] (Hsn & n & Hn' & HC'). cbn in *.
    eapply triple_bind; [by eapply applyM_ok|]. intros s Hs.
    eapply triple_bind; [by apply recents_Add_ok|]. intros _ _.
    eapply (triple_bind _ _ _ (λ _, True)); [|intros _ _; by apply triple_ret].
    destruct (decide _); [by apply store_ok|by apply triple_ret]. }
  destruct (Hs c Hc) as [Hc' Hr]. split; [done|]. intros s E. by rewrite E in Hr.
Qed.
End snapshot.

(** ** A concrete engine *)

(** The genesis header of the demo chain carries the demo signers. *)
Definition demo_genesis_header : Header :=
  MkHeader Hash0 uncleHash Address0 Hash0 Hash0 Hash0 (replicate 256 Byte.x00) (Some 1) (Some 0)
    8000000 0 0 (replicate 32 Byte.x00 ++ mjoin (signers demo_genesis) ++ replicate 65 Byte.x00) Hash0 nonceDropVote
    None None None None None None None.

Definition demo_block1 : Header :=
  let h := demo_block Byte.x02 1 Address0 nonceDropVote in
  MkHeader (Header_Hash demo_genesis_header) (UncleHash h) (Coinbase h) (Root h) (TxHash h) (ReceiptHash h) (Bloom h)
    (Difficulty h) (Number h) (GasLimit h) (GasUsed h) (Time h) (Extra h) (MixDigest h) (Nonce h)
    None None None None None None None.

Definition demo_reader : ChainHeaderReader := {|
  ChainConf := MkChainConfig None None None;
  GetHeader := λ h n, if decide (n = 1) then Some demo_block1 else if decide (n = 0) then Some demo_genesis_header else None;
  GetHeaderByNumber := λ n, if decide (n = 0) then Some demo_genesis_header else if decide (n = 1) then Some demo_block1 else None
|}.

Lemma demo_reader_ok : chain_ok demo_reader.
Proof.
  split; [by eexists|]. intros h n hd. cbn. destruct (decide (n = 1)) as [->|]; [by intros [= <-]|].
  destruct (decide (n = 0)) as [->|]; [by intros [= <-]|done].
Qed.

Definition demo_engine : Clique (DB := gmap bytes Snapshot) := New demo_config ∅.

Lemma demo_engine_ok : engine_ok demo_engine.
Proof.
  constructor; cbn; [done| |by intros k s; rewrite lookup_empty].
  exists []. split; [apply LRU.NewBasicLRU_Rel|]. by intros h s Hin%elem_of_nil.
Qed.

Lemma snapshot_sound_witness :
  engine_ok (snd (snapshot demo_recover demo_reader 2 1 (Header_Hash demo_block1) [] demo_engine)) ∧
  is_ok (fst (snapshot demo_recover demo_reader 2 1 (Header_Hash demo_block1) [] demo_engine)) = true.
Proof.
  split; [|vm_compute; reflexivity].
  apply (snapshot_sound demo_recover demo_reader demo_reader_ok 2 1 (Header_Hash demo_block1) [] demo_engine);
    [vm_compute; split; congruence|vm_compute; lia|apply demo_engine_ok].
Defined.

(** ** Checkpoint headers *)

Lemma join_lookup (n : nat) (l : list bytes) i a (rest : bytes) :
  Forall (λ x, length x = n) l → l !! i = Some a → take n (drop (i * n) (mjoin l ++ rest)) = a.
Proof.
  intros HF. revert i. induction HF as [|x l Hx HF IH]; intros i; [done|].
  destruct i as [|i]; cbn [lookup list_lookup].
  - intros [= ->]. rewrite Nat.mul_0_l, drop_0, <-Hx. cbn [mjoin list_join]. rewrite <-app_assoc. by apply take_app_length.
  - intros Hi. cbn [mjoin list_join]. rewrite <-app_assoc. cbn [Nat.mul].
    rewrite <-(IH i Hi), <-drop_drop, <-Hx. by rewrite drop_app_length.
Qed.

Lemma length_mjoin (n : nat) (l : list bytes) : Forall (λ x, length x = n) l → length (mjoin l) = (length l * n)%nat.
Proof. induction 1 as [|x l Hx HF IH]; [done|]. change (mjoin (x :: l)) with (x ++ mjoin l). rewrite length_app, Hx, IH. cbn [length]. lia. Qed.

(** Reading the signer list of a well-formed checkpoint header. *)
Lemma checkpoint_signers_join vanity l (sig : bytes) :
  length vanity = extraVanity → length sig = extraSeal → Forall Address_ok l →
  checkpoint_signers (vanity ++ mjoin l ++ sig) = Ok l.
Proof.
  intros Hv Hs HF. unfold checkpoint_signers.
  rewrite !length_app, Hv, Hs, (length_mjoin AddressLength) by done.
  replace (Z.of_nat (extraVanity + (length l * AddressLength + extraSeal)) - Z.of_nat extraVanity - Z.of_nat extraSeal)
    with (Z.of_nat (length l) * Z.of_nat AddressLength) by lia.
  rewrite Z.quot_mul by done. rewrite decide_False by lia. rewrite Nat2Z.id. f_equal.
  apply list_eq. intros i. rewrite list_lookup_fmap. destruct (decide (i < length l)%nat) as [Hi|Hi].
  - rewrite lookup_seq_lt by done. rewrite Nat.add_0_l. cbn [fmap option_fmap option_map].
    destruct (lookup_lt_is_Some_2 l i Hi) as [a Ha]. rewrite Ha. f_equal. unfold signer_at.
    assert (drop (extraVanity + i * AddressLength) (vanity ++ mjoin l ++ sig) = drop (i * AddressLength) (mjoin l ++ sig)) as ->
      by (rewrite <-Hv, <-drop_drop, drop_app_length; done).
    rewrite (join_lookup AddressLength l i a sig HF Ha).
    assert (length a = AddressLength) as Hla by (eapply Forall_lookup_1 in HF; [|done]; done).
    rewrite Hla. change (drop AddressLength Address0) with (@nil byte). by rewrite app_nil_r.
  - rewrite lookup_seq_ge by lia. by rewrite lookup_ge_None_2 by lia.
Qed.

Lemma newSnapshot_Signers cfg n h l : Signers (newSnapshot cfg n h l) = list_to_set l.
Proof.
  unfold newSnapshot. cbn. 
  assert (∀ acc : gset Address, foldl (λ (acc : gset Address) signer, {[signer]} ∪ acc) acc l = list_to_set l ∪ acc) as HF.
  { induction l as [|x l IH]; intros acc; cbn; [set_solver|]. rewrite IH. set_solver. }
  rewrite HF. set_solver.
Qed.

(** checkpoints round-trip: the extra data that [Prepare] builds for a checkpoint
    block has exactly the signer list that [verifyCascadingFields] compares with, and a
    node that later trusts this header as a checkpoint reads back the same signers, in
    order, and starts from a snapshot with the same signer set. *)
Theorem checkpoint_roundtrip snap extra cfg n h :
  Forall Address_ok (signers snap) →
  let x := prepare_extra extra true snap in
  drop extraVanity (take (length x - extraSeal) x) = signer_bytes snap ∧
  checkpoint_signers x = Ok (signers snap) ∧
  Signers (newSnapshot cfg n h (signers snap)) = Signers snap.
Proof.
  intros HF. cbv zeta. unfold prepare_extra.
  set (v := take extraVanity _). assert (length v = extraVanity) as Hv.
  { unfold v. rewrite length_take. destruct (decide (length extra < extraVanity)%nat); rewrite ?length_app, ?length_replicate; lia. }
  assert (length (replicate extraSeal Byte.x00) = extraSeal) as Hs by apply length_replicate.
  rewrite <-app_assoc. split_and!.
  - rewrite !length_app, Hs.
    replace (length v + (length (mjoin (signers snap)) + extraSeal) - extraSeal)%nat
      with (length v + length (mjoin (signers snap)))%nat by lia.
    rewrite app_assoc, <-length_app, take_app_length, <-Hv, drop_app_length. done.
  - by apply checkpoint_signers_join.
  - rewrite newSnapshot_Signers. apply set_eq. intros a. by rewrite elem_of_list_to_set, elem_of_signers.
Qed.

Lemma checkpoint_roundtrip_witness :
  checkpoint_signers (prepare_extra [Byte.x61] true demo_genesis) = Ok (signers demo_genesis).
Proof.
  apply (checkpoint_roundtrip demo_genesis [Byte.x61] demo_config 0 Hash0).
  apply Forall_forall. intros a Ha. apply elem_of_signers in Ha. unfold demo_genesis in Ha.
  rewrite newSnapshot_Signers in Ha. rewrite elem_of_list_to_set in Ha.
  unfold Address_ok. revert a Ha. apply Forall_forall. unfold demo_addr.
  repeat constructor; by rewrite length_drop, length_Keccak256.
Defined.

(** ** Accepted headers *)

Section accepted.
Context {DB : Type} `{SnapshotDB DB}.
Context (ext_recover : bytes → bytes → option bytes) (chain : ChainHeaderReader).

Lemma M_bind_Ok {A B} (m : M (DB := DB) A) (f : A → M (DB := DB) B) c b c2 :
  (m ≫= f) c = (Ok b, c2) → ∃ a c1, m c = (Ok a, c1) ∧ f a c1 = (Ok b, c2).
Proof. unfold mbind, M_bind. destruct (m c) as [[a| |] c1]; [|done..]. by exists a, c1. Qed.

Lemma check_Ok b e c c2 (u : ()) : check (DB := DB) b e c = (Ok u, c2) → b = true ∧ c2 = c.
Proof. unfold check. destruct b; by intros [= _ <-]. Qed.

Lemma lift_Ok {A} (r : res clique_error A) c a c2 : lift (DB := DB) r c = (Ok a, c2) → r = Ok a ∧ c2 = c.
Proof. unfold lift. by intros [= -> <-]. Qed.

Lemma ask_Ok {A} (f : Clique (DB := DB) → A) c a c2 : ask f c = (Ok a, c2) → a = f c ∧ c2 = c.
Proof. unfold ask. by intros [= <- <-]. Qed.

Lemma epoch_mod_Ok number c r c2 :
  epoch_mod (DB := DB) number c = (Ok r, c2) → r = number mod Epoch (c_config c) ∧ c2 = c.
Proof. unfold epoch_mod. destruct (decide _); by intros [= <- <-]. Qed.

Lemma ecrecoverM_Ok header c a c2 :
  ecrecoverM (DB := DB) ext_recover header c = (Ok a, c2) → fst (ecrecover ext_recover header (c_signatures c)) = Ok a.
Proof. unfold ecrecoverM. destruct (ecrecover _ _ _) as [r sigs]. by intros [= -> _]. Qed.

(** One statement of a method that returned. *)
Ltac next H :=
  let a := fresh "a" in let c := fresh "c" in let E := fresh "E" in
  apply M_bind_Ok in H as (a & c & E & H); cbv beta zeta in H;
  lazymatch type of E with
  | check _ _ _ = _ => apply check_Ok in E as [E ->]
  | lift _ _ = _ => apply lift_Ok in E as [E ->]
  | ask _ _ = _ => apply ask_Ok in E as [-> ->]
  | epoch_mod _ _ = _ => apply epoch_mod_Ok in E as [-> ->]
  | _ => idtac
  end.

(** What a verified seal says of the signer. *)
Lemma verifySeal_inv snap header c c' :
  verifySeal (DB := DB) ext_recover snap header c = (Ok (), c') →
  ∃ n signer, Uint64 (E := clique_error) (Number header) = Ok n ∧ n ≠ 0 ∧
    fst (ecrecover ext_recover header (c_signatures c)) = Ok signer ∧ signer ∈ Signers snap ∧
    (∀ k, Recents snap !! k = Some signer → k <= u64 (n - limit_of snap)) ∧
    (c_fakeDiff c = true ∨ ∃ turn, inturn snap n signer = Ok turn ∧
       Difficulty header = Some (if turn : bool then diffInTurn else diffNoTurn)).
Proof.
  intros HS. unfold verifySeal in HS. next HS. next HS. next HS.
  pose proof (ecrecoverM_Ok _ _ _ _ E1) as Er.
  assert (c_fakeDiff c0 = c_fakeDiff c) as Hfd.
  { unfold ecrecoverM in E1. destruct (ecrecover _ _ _) as [r sigs]. by injection E1 as _ <-. }
  next HS. next HS. next HS. exists a, a1.
  apply negb_true_iff, bool_decide_eq_false in E0. apply bool_decide_eq_true in E2.
  apply negb_true_iff, bool_decide_eq_false in E3.
  split_and!; try done.
  - intros k Hk. destruct (decide (k <= u64 (a - limit_of snap))) as [|Hgt]; [done|]. exfalso.
    apply E3. exists k, a1. split_and!; [done..|lia].
  - rewrite Hfd in HS. destruct (c_fakeDiff c); [by left|]. right. next HS. exists a4. split; [done|].
    destruct (Difficulty header) as [d|]; [|done]. next HS. apply check_Ok in HS as [HS _]. f_equal.
    apply negb_true_iff in E5, HS. destruct a4; cbn in E5, HS; [clear HS|clear E5; rename HS into E5];
      by apply negb_false_iff, bool_decide_eq_true in E5.
Qed.

(** C31: a verified seal is never a dead end: from block number floor(n/2)+1 on (n the
    number of signers), a header whose seal verifies against the snapshot of its parent
    and whose vote is well-formed is accepted by the rules that build the next
    snapshot, for the same recovered signer. *)
Theorem verifySeal_applies snap header c c' cfg :
  verifySeal (DB := DB) ext_recover snap header c = (Ok (), c') →
  Epoch cfg ≠ 0 → Number header = Some (sNumber snap + 1) →
  0 <= sNumber snap → sNumber snap + 1 < two64 → limit_of snap <= sNumber snap + 1 →
  recents_ok (sNumber snap) snap →
  Nonce header = nonceAuthVote ∨ Nonce header = nonceDropVote →
  ∃ signer s1 s2, fst (ecrecover ext_recover header (c_signatures c)) = Ok signer ∧
    begin_block cfg (sNumber snap + 1) snap = Ok s1 ∧
    seal_block (sNumber snap + 1) signer header s1 = Ok s2.
Proof.
  intros HS HE HN H0 Hmax Hlim HR Hnonce.
  destruct (verifySeal_inv _ _ _ _ HS) as (n & signer & Hn & _ & Hsig & Hin & Hrec & _).
  rewrite HN in Hn. cbn in Hn. rewrite Z.abs_eq, u64_small in Hn by word_lia. injection Hn as <-.
  pose proof (limit_pos snap). rewrite u64_small in Hrec by word_lia.
  destruct (begin_block cfg (sNumber snap + 1) snap) as [s1| |] eqn:Hb;
    [|unfold begin_block in Hb; by rewrite decide_False in Hb by done..].
  destruct (begin_block_window _ _ _ _ H0 HR Hb) as [HW _].
  destruct (begin_block_recents _ _ _ _ Hb) as (HSs & t & Hs1 & HRt & HSt).
  assert (∀ k, Recents s1 !! k ≠ Some signer) as Hfree.
  { intros k Hk. pose proof (HW _ _ Hk). rewrite Hs1 in Hk. apply shift_recents_sub in Hk. rewrite HRt in Hk.
    apply Hrec in Hk. rewrite (limit_of_Signers s1 snap HSs) in *. lia. }
  destruct (seal_block_free (sNumber snap + 1) signer header s1) as [s2 Hs2]; [by rewrite HSs|done..|].
  by exists signer, s1, s2.
Qed.

(** An unsigned subtraction that wraps around. *)
Lemma u64_below a b : 0 <= a < b → b <= two64 → u64 (a - b) = a - b + two64.
Proof.
  intros Ha Hb. unfold u64. rewrite <-(Z.mod_add (a - b) 1) by word_lia. rewrite Z.mul_1_l. apply Z.mod_small. lia.
Qed.

(** A signer that is still among the recent ones is turned away. *)
Lemma seal_block_recent N signer header s k :
  signer ∈ Signers s → Recents s !! k = Some signer → seal_block N signer header s = Err errRecentlySigned.
Proof.
  intros Hin Hk. unfold seal_block. rewrite bool_decide_true by done. cbn [negb].
  rewrite bool_decide_true; [done|]. by exists k, signer.
Qed.

(** C40: below block number floor(n/2)+1 (n the number of signers) the seal check and the
    rules that build the next snapshot disagree about every signer that signed recently.
    The subtraction of [verifySeal] wraps around, so that it accepts the next header, if
    the difficulty is right, from a current signer that is among the recent ones of the
    parent's snapshot; [apply] rejects that header as recently signed, and no list of
    headers that starts with it is accepted. *)
Theorem verifySeal_early_gap snap header c signer k :
  0 <= sNumber snap → sNumber snap + 1 < limit_of snap → limit_of snap < two64 →
  Number header = Some (sNumber snap + 1) → recents_ok (sNumber snap) snap → Epoch (config snap) ≠ 0 →
  fst (ecrecover ext_recover header (c_signatures c)) = Ok signer → signer ∈ Signers snap →
  Recents snap !! k = Some signer →
  c_fakeDiff c = true ∨ (∃ turn, inturn snap (sNumber snap + 1) signer = Ok turn ∧
    Difficulty header = Some (if turn : bool then diffInTurn else diffNoTurn)) →
  fst (verifySeal (DB := DB) ext_recover snap header c) = Ok () ∧
  fst (apply ext_recover snap [header] (c_signatures c)) = Err errRecentlySigned ∧
  ∀ headers s, fst (apply ext_recover snap (header :: headers) (c_signatures c)) ≠ Ok s.
Proof.
  intros H0 Hlim Hmax HN [HW _] HE Hsig Hin Hk Hd.
  assert (Uint64 (E := clique_error) (Number header) = Ok (sNumber snap + 1)) as HU
    by (rewrite HN; cbn; by rewrite Z.abs_eq, u64_small by word_lia).
  assert (∀ headers, fst (apply_loop ext_recover (config snap) (header :: headers) snap (c_signatures c)) = Err errRecentlySigned)
    as Hloop.
  { intros headers. cbn [apply_loop]. rewrite HU. cbn [mbind res_bind].
    destruct (begin_block (config snap) (sNumber snap + 1) snap) as [s1| |] eqn:Hb;
      [|unfold begin_block in Hb; by rewrite decide_False in Hb by done..].
    destruct (begin_block_recents _ _ _ _ Hb) as (HSs & t & -> & HRt & HSt). cbn [mbind res_bind].
    destruct (ecrecover ext_recover header (c_signatures c)) as [r sigs]. cbn in Hsig. subst r.
    rewrite (seal_block_recent _ signer header _ k); [done|by rewrite HSs|]. apply shift_recents_keep; [by rewrite HRt|].
    rewrite (limit_of_Signers t snap HSt). destruct (HW _ _ Hk). lia. }
  split_and!.
  - unfold verifySeal. cbv beta iota delta [mbind M_bind lift check ask]. rewrite HU. rewrite bool_decide_false by lia. cbn [negb].
    unfold ecrecoverM. destruct (ecrecover ext_recover header (c_signatures c)) as [r sigs]. cbn in Hsig. subst r.
    rewrite bool_decide_true by done. rewrite (bool_decide_false (map_Exists _ _)).
    2:{ intros (seen & recent & Hr & _ & Hlt). destruct (HW _ _ Hr) as [[_ Hle] _].
        rewrite u64_below in Hlt by lia. lia. }
    cbn [negb]. change (c_fakeDiff (with_signatures sigs c)) with (c_fakeDiff c). destruct (c_fakeDiff c); [done|].
    destruct Hd as [|(turn & Hturn & Hdiff)]; [done|]. rewrite Hturn, Hdiff. destruct turn; done.
  - unfold Snapshot.apply. rewrite HN. specialize (Hloop []). cbn [contiguous mbind res_bind].
    rewrite <-HN, HU. cbn [mbind res_bind]. rewrite u64_small by word_lia. rewrite decide_False by tauto.
    destruct (apply_loop _ _ _ _ _) as [[s1| |] c1]; cbn in Hloop |- *; [discriminate Hloop|by injection Hloop as ->|discriminate Hloop].
  - intros headers s. specialize (Hloop headers). unfold Snapshot.apply. destruct (_ ≫= _) as [[]| |]; [|done..].
    destruct (apply_loop _ _ _ _ _) as [[s1| |] c1]; cbn in Hloop |- *; [discriminate Hloop|discriminate..].
Qed.

(** The tests of the form [if a && b { return err }]. *)
Lemma guard_imp P Q `{Decision P, Decision Q} : negb (bool_decide P && negb (bool_decide Q)) = true ↔ (P → Q).
Proof. repeat case_bool_decide; cbn; naive_solver. Qed.

Lemma guard_not P `{Decision P} : negb (bool_decide P) = true ↔ ¬ P.
Proof. by rewrite negb_true_iff, bool_decide_eq_false. Qed.

Lemma absent {A} (o : option A) : negb (isSome o) = true ↔ o = None.
Proof. by destruct o. Qed.

(** The configuration of the engine never changes. *)
Definition same_config (cfg : CliqueConfig) (fd : bool) (c : Clique (DB := DB)) : Prop :=
  c_config c = cfg ∧ c_fakeDiff c = fd.

Lemma gather_config cfg fd fuel number hash parents headers :
  triple (same_config cfg fd) (gather chain fuel number hash parents headers) (λ _, True) (λ _, True).
Proof.
  revert number hash parents headers. induction fuel as [|fuel IH]; intros number hash parents headers; [by apply triple_throw|].
  cbn [gather]. eapply (triple_bind _ _ _ (λ _, True)).
  { intros c Hc. unfold recents_Get. by destruct (LRU.Get _ _) as [[? ?]| |]. }
  intros [s|] _; [by apply triple_ret|]. eapply (triple_bind _ _ _ (λ _, True)).
  { destruct (decide _); [by apply triple_ask|by apply triple_ret]. }
  intros [s|] _; [by apply triple_ret|]. eapply (triple_bind _ _ _ (λ _, True)).
  { unfold trusted_checkpoint. destruct (decide _); [by apply triple_ret|].
    eapply (triple_bind _ _ _ (λ _, True)); [|intros; by apply triple_ret].
    intros c Hc. unfold epoch_mod. by destruct (decide _). }
  intros trusted _. destruct (if trusted : bool then _ else _) as [cp|].
  - eapply (triple_bind _ _ _ (λ _, True)); [apply triple_lift; by destruct (checkpoint_signers _)|]. intros l _.
    eapply (triple_bind _ _ _ (λ _, True)); [by apply triple_ask|]. intros conf _.
    eapply (triple_bind _ _ _ (λ _, True)); [|intros; by apply triple_ret].
    intros c Hc. unfold store. by destruct (db_Put _ _ _).
  - eapply (triple_bind _ _ _ (λ _, True)); [|intros [hd ps] _; apply IH].
    unfold previous_header. repeat case_match; try by first [apply triple_throw|apply triple_ret].
    eapply (triple_bind _ _ _ (λ _, True)); [apply triple_lift; by destruct (Uint64 _)|].
    intros k _. destruct (decide (k ≠ number)); [by apply triple_throw|by apply triple_ret].
Qed.

Lemma snapshot_config fuel number hash parents c :
  let c1 := snd (snapshot ext_recover chain fuel number hash parents c) in
  c_config c1 = c_config c ∧ c_fakeDiff c1 = c_fakeDiff c.
Proof.
  assert (triple (same_config (c_config c) (c_fakeDiff c)) (snapshot ext_recover chain fuel number hash parents)
            (λ _, True) (λ _, True)) as Ht; [|by destruct (Ht c (conj eq_refl eq_refl))].
  unfold snapshot. eapply (triple_bind _ _ _ (λ _, True)); [apply gather_config|]. intros [snap headers] _.
  eapply (triple_bind _ _ _ (λ _, True)).
  { intros d Hd. unfold applyM. destruct (apply _ _ _ _) as [r sigs]. by destruct r. }
  intros s _. eapply (triple_bind _ _ _ (λ _, True)).
  { intros d Hd. unfold recents_Add. by destruct (LRU.Add _ _ _) as [[? ?]| |]. }
  intros _ _. eapply (triple_bind _ _ _ (λ _, True)); [|intros; by apply triple_ret].
  destruct (decide _); [|by apply triple_ret]. intros d Hd. unfold store. by destruct (db_Put _ _ _).
Qed.

(** The conditions of [verifyCascadingFields] on the parent and the snapshot. *)
Lemma verifyCascadingFields_inv fuel header parents c c' n :
  verifyCascadingFields ext_recover chain fuel header parents c = (Ok (), c') →
  Uint64 (E := clique_error) (Number header) = Ok n → n ≠ 0 →
  GasUsed header <= GasLimit header ∧
  ∃ parent snap signer,
    Header_Hash parent = ParentHash header ∧ Uint64 (E := clique_error) (Number parent) = Ok (u64 (n - 1)) ∧
    u64 (Time parent + Period (c_config c)) <= Time header ∧
    fst (snapshot ext_recover chain fuel (u64 (n - 1)) (ParentHash header) parents c) = Ok snap ∧
    (n mod Epoch (c_config c) = 0 →
       drop extraVanity (take (length (Extra header) - extraSeal) (Extra header)) = signer_bytes snap) ∧
    fst (ecrecover ext_recover header
      (c_signatures (snd (snapshot ext_recover chain fuel (u64 (n - 1)) (ParentHash header) parents c)))) = Ok signer ∧
    signer ∈ Signers snap ∧
    (c_fakeDiff c = true ∨ ∃ turn, inturn snap n signer = Ok turn ∧
       Difficulty header = Some (if turn : bool then diffInTurn else diffNoTurn)).
Proof.
  intros HV Hn Hn0. unfold verifyCascadingFields in HV. next HV. rewrite Hn in E. injection E as <-.
  rewrite decide_False in HV by done. destruct (match list.last parents with Some p => _ | None => _ end) as [parent|]; [|done].
  do 6 (next HV). apply M_bind_Ok in HV as (u & c1 & Ef & HV).
  assert (c1 = c) as ->.
  { destruct (negb _) in Ef; [next Ef|]; unfold lift_fee in Ef; by injection Ef as _ <-. }
  apply M_bind_Ok in HV as (snap & c1 & Es & HV).
  pose proof (snapshot_config fuel (u64 (n - 1)) (ParentHash header) parents c) as [Hcfg Hfd].
  rewrite Es in Hcfg, Hfd. cbn [snd] in Hcfg, Hfd. next HV. apply M_bind_Ok in HV as (u2 & c2 & Ec & HV).
  rewrite Hcfg in Ec.
  assert (c2 = c1 ∧ (n mod Epoch (c_config c) = 0 →
    drop extraVanity (take (length (Extra header) - extraSeal) (Extra header)) = signer_bytes snap)) as [-> Hck].
  { destruct (decide (n mod Epoch (c_config c) = 0)) as [H0|H0].
    - apply check_Ok in Ec as [Ec ->]. split; [done|]. by apply bool_decide_eq_true in Ec.
    - by injection Ec as _ <-. }
  destruct (verifySeal_inv _ _ _ _ HV) as (k & signer & Hk & _ & Hsig & Hin & _ & Hd).
  rewrite Hn in Hk. injection Hk as <-. rewrite Hfd in Hd.
  apply bool_decide_eq_true in E0, E1. apply negb_true_iff, bool_decide_eq_false in E2, E3.
  split; [lia|]. exists parent, snap, signer. rewrite E0 in E. rewrite Es. cbn [fst snd].
  split_and!; try done. lia.
Qed.

(** C20: what acceptance means: a header past genesis that [verifyHeader] accepts is not
    from the future, has a valid vote, 97 bytes of extra data (plus the signer list, equal
    to the sorted signers of its parent's snapshot, on a checkpoint), no uncles, no mix
    digest, none of the fields of later forks, gas within limits, a known parent by number
    and hash at least a period older, and a seal by an authorized signer of the parent's
    snapshot whose turn determines the difficulty. *)
Theorem verifyHeader_accepts now fuel header parents c c' n :
  verifyHeader ext_recover chain now fuel header parents c = (Ok (), c') →
  Uint64 (E := clique_error) (Number header) = Ok n → n ≠ 0 →
  Time header <= u64 now ∧
  (Nonce header = nonceAuthVote ∨ Nonce header = nonceDropVote) ∧
  (extraVanity + extraSeal <= length (Extra header))%nat ∧
  (n mod Epoch (c_config c) ≠ 0 → length (Extra header) = (extraVanity + extraSeal)%nat) ∧
  (n mod Epoch (c_config c) = 0 → Coinbase header = Address0 ∧ Nonce header = nonceDropVote) ∧
  MixDigest header = Hash0 ∧ UncleHash header = uncleHash ∧
  WithdrawalsHash header = None ∧ ExcessBlobGas header = None ∧ BlobGasUsed header = None ∧
  ParentBeaconRoot header = None ∧ SlotNumber header = None ∧
  GasUsed header <= GasLimit header <= MaxGasLimit ∧
  ∃ parent snap signer,
    Header_Hash parent = ParentHash header ∧ Uint64 (E := clique_error) (Number parent) = Ok (u64 (n - 1)) ∧
    u64 (Time parent + Period (c_config c)) <= Time header ∧
    fst (snapshot ext_recover chain fuel (u64 (n - 1)) (ParentHash header) parents c) = Ok snap ∧
    (n mod Epoch (c_config c) = 0 →
       drop extraVanity (take (length (Extra header) - extraSeal) (Extra header)) = signer_bytes snap) ∧
    fst (ecrecover ext_recover header
      (c_signatures (snd (snapshot ext_recover chain fuel (u64 (n - 1)) (ParentHash header) parents c)))) = Ok signer ∧
    signer ∈ Signers snap ∧
    (c_fakeDiff c = true ∨ ∃ turn, inturn snap n signer = Ok turn ∧
       Difficulty header = Some (if turn : bool then diffInTurn else diffNoTurn)).
Proof.
  intros HV Hn Hn0. unfold verifyHeader in HV. destruct (Number header) as [num|] eqn:Enum; [|done].
  rewrite <-Enum in *. next HV. rewrite Hn in E. injection E as <-. do 20 (next HV).
  destruct (verifyCascadingFields_inv _ _ _ _ _ _ HV Hn Hn0) as [HG Hsnap].
  clear HV Hn. rewrite guard_imp in E0, E2. apply guard_not in E, E4, E10.
  apply absent in E12, E14, E15, E16, E17. apply bool_decide_eq_true in E7, E8.
  rewrite orb_true_iff, !bool_decide_eq_true in E1.
  rewrite negb_true_iff, andb_false_iff, !negb_false_iff, !bool_decide_eq_true in E5.
  repeat match goal with
  | |- ?A ∧ _ => split; [first [exact E1 | exact E7 | exact E8 | exact E12 | exact E14 | exact E15 | exact E16
                              | exact E17 | clear Hsnap; lia | idtac]|]
  | |- ex _ => exact Hsnap
  end.
  intros Hm. exact (conj (E0 Hm) (E2 Hm)).
Qed.
End accepted.

Definition demo_verify : res clique_error () * Clique (DB := gmap bytes Snapshot) :=
  verifyHeader demo_recover demo_reader 1000 2 demo_block1 [] demo_engine.

Lemma unit_Ok {B} (r : res clique_error () * B) : accepted r = true → r = (Ok (), snd r).
Proof. by destruct r as [[[]| |] b]. Qed.

Lemma demo_verify_ok : accepted demo_verify = true.
Proof. vm_compute. reflexivity. Qed.

Lemma verifyHeader_accepts_witness :
  ∃ snap signer, fst (snapshot demo_recover demo_reader 2 (u64 (1 - 1)) (ParentHash demo_block1) [] demo_engine) = Ok snap ∧
    signer ∈ Signers snap.
Proof.
  destruct (verifyHeader_accepts _ _ _ _ _ _ _ _ 1 (unit_Ok _ demo_verify_ok))
    as (_ & _ & _ & _ & _ & _ & _ & _ & _ & _ & _ & _ & _ & parent & snap & signer & _ & _ & _ & Hs & _ & _ & Hin & _);
    [vm_compute; reflexivity|lia|].
  exists snap, signer. exact (conj Hs Hin).
Defined.

(** The snapshot of an accepted run, evaluated. *)
Definition get_snap {B} (r : res clique_error Snapshot * B) : Snapshot :=
  match fst r with Ok s => s | _ => demo_genesis end.

(** The demo chain's snapshot after three blocks, and a fourth by the signer in turn. *)
Definition demo_snap3 : Snapshot :=
  Eval vm_compute in get_snap (apply demo_recover demo_genesis demo_chain demo_cache).

Definition demo_block4 : Header := demo_block Byte.x03 4 Address0 nonceDropVote.

(** [recents_ok] can be evaluated. *)
Lemma recents_ok_alt N s :
  map_Forall (λ k _, 0 <= k <= N ∧ N < k + limit_of s) (Recents s) ∧
  map_Forall (λ k1 a, map_Forall (λ k2 b, a = b → k1 = k2) (Recents s)) (Recents s) → recents_ok N s.
Proof. intros [HW HI]. split; [exact HW|]. intros k1 k2 a H1 H2. by eapply HI. Qed.

Lemma demo_snap3_recents : recents_ok (sNumber demo_snap3) demo_snap3.
Proof. apply recents_ok_alt. apply (bool_decide_unpack _). vm_compute. exact I. Qed.

Lemma demo_seal4 : accepted (verifySeal demo_recover demo_snap3 demo_block4 demo_engine) = true.
Proof. vm_compute. reflexivity. Qed.

Lemma verifySeal_applies_witness :
  ∃ signer s1 s2, fst (ecrecover demo_recover demo_block4 (c_signatures demo_engine)) = Ok signer ∧
    begin_block demo_config (sNumber demo_snap3 + 1) demo_snap3 = Ok s1 ∧
    seal_block (sNumber demo_snap3 + 1) signer demo_block4 s1 = Ok s2.
Proof.
  apply (verifySeal_applies demo_recover demo_snap3 demo_block4 demo_engine _ demo_config (unit_Ok _ demo_seal4));
    [discriminate|reflexivity|vm_compute; discriminate|vm_compute; reflexivity
    |vm_compute; discriminate|apply demo_snap3_recents|right; reflexivity].
Defined.

(** Five signers, and the first block by the one who will be in turn for the second. *)
Definition early_genesis : Snapshot :=
  newSnapshot demo_config 0 Hash0 (demo_addr <$> [Byte.x01; Byte.x02; Byte.x03; Byte.x04; Byte.x05]).

Definition early_snap : Snapshot :=
  Eval vm_compute in
    get_snap (apply demo_recover early_genesis [demo_block Byte.x04 1 Address0 nonceDropVote] demo_cache).

Lemma early_recents : recents_ok (sNumber early_snap) early_snap.
Proof. apply recents_ok_alt. apply (bool_decide_unpack _). vm_compute. exact I. Qed.

Lemma verifySeal_early_gap_witness :
  fst (verifySeal demo_recover early_snap (demo_block Byte.x04 2 Address0 nonceDropVote) demo_engine) = Ok () ∧
  fst (apply demo_recover early_snap [demo_block Byte.x04 2 Address0 nonceDropVote] (c_signatures demo_engine)) =
    Err errRecentlySigned.
Proof.
  destruct (verifySeal_early_gap demo_recover early_snap (demo_block Byte.x04 2 Address0 nonceDropVote) demo_engine
    (demo_addr Byte.x04) 1) as (Hv & Ha & _);
    [vm_compute; discriminate | vm_compute; reflexivity | vm_compute; reflexivity | reflexivity | exact early_recents
    | discriminate | vm_compute; reflexivity | apply (bool_decide_unpack _); vm_compute; exact I | vm_compute; reflexivity
    | right; exists true; split; vm_compute; reflexivity | exact (conj Hv Ha)].
Defined.

(** A single signer voting itself out. *)
Definition lone_genesis : Snapshot := newSnapshot demo_config 0 Hash0 [demo_addr Byte.x01].

Definition lone_block : Header := demo_block Byte.x01 1 (demo_addr Byte.x01) nonceDropVote.

Definition lone_snap : Snapshot :=
  Eval vm_compute in get_snap (apply demo_recover lone_genesis [lone_block] demo_cache).

(** the signer set can become empty: a lone signer that votes to drop itself is
    removed, [apply] accepts the block, and from then on computing the difficulty of a
    block divides by zero. *)
Theorem lone_signer_leaves :
  ∃ header s, fst (apply demo_recover lone_genesis [header] demo_cache) = Ok s ∧
    Signers s = ∅ ∧ ∀ signer, calcDifficulty s signer = Panic.
Proof.
  exists lone_block, lone_snap. split_and!; [vm_compute; reflexivity|vm_compute; reflexivity|].
  intros signer. reflexivity.
Qed.
