(* ===== verification/Precompiles.v ===== *)
(** * Precompiled contracts: registry and gas

    [core/vm/contracts.go]: which native contract an address has under each fork,
    [RunPrecompiledContract], and the gas functions, with the saturating 64-bit
    arithmetic of the modular-exponentiation prices; [getData] of [core/vm/common.go].
    H-ZKA's addition is [groth16Verify] at address 0x20. *)
From Stdlib Require Import ZArith Lia.
From Stdlib Require Strings.Byte.
From stdpp Require Import base tactics decidable countable list numbers gmap fin_maps.
From S2P Require Import Prelude Keccak Common Rlp.

(** ** Input data *)

(** [data[start:end]]: a slice outside the bounds is a panic. *)
Definition slice {E} (data : bytes) (start stop : Z) : res E bytes :=
  if decide (0 <= start <= stop ∧ stop <= Z.of_nat (length data))
  then Ok (take (Z.to_nat (stop - start)) (drop (Z.to_nat start) data)) else Panic.

(** [common.RightPadBytes(slice, int(size))] for a size that may exceed the range of
    [int]: a negative length returns the slice. *)
Definition RightPadInt (s : bytes) (l : Z) : bytes :=
  if decide (l <= Z.of_nat (length s)) then s else RightPadBytes s (Z.to_nat l).

Definition getData {E} (data : bytes) (start size : Z) : res E bytes :=
  let length := Z.of_nat (length data) in
  let start := if decide (length < start) then length else start in
  let stop := u64 (start + size) in
  let stop := if decide (length < stop) then length else stop in
  s ← slice data start stop;
  Ok (RightPadInt s (i64 size)).

(** ** The price of modular exponentiation *)

Definition MaxUint64 : Z := two64 - 1.

(** [bits.Mul64] (high, low) and [bits.Add64] (sum, carry). *)
Definition Mul64 (x y : Z) : Z * Z := (x * y / two64, u64 (x * y)).
Definition Add64 (x y : Z) : Z * Z := (u64 (x + y), (x + y) / two64).

Definition byzantiumMultComplexity (x : Z) : Z :=
  if decide (x <= 64) then u64 (x * x)
  else if decide (x <= 1024) then u64 (u64 (u64 (x * x) / 4 + u64 (96 * x)) - 3072)
  else
    let '(carry, xSqr) := Mul64 x x in
    if decide (carry ≠ 0) then MaxUint64
    else
      let xSqr := Z.shiftr xSqr 4 in
      let x480 := u64 (x * 480) in
      let x480 := u64 (x480 - 199680) in
      let '(sum, carry) := Add64 xSqr x480 in
      if decide (carry ≠ 0) then MaxUint64 else sum.

Definition berlinMultComplexity (x : Z) : Z :=
  let '(x, carry) := Add64 x 7 in
  if decide (carry ≠ 0) then MaxUint64
  else
    let x := x / 8 in
    let '(carry, x) := Mul64 x x in
    if decide (carry ≠ 0) then MaxUint64 else x.

Definition osakaMultComplexity (x : Z) : Z :=
  if decide (x <= 32) then 16
  else
    let result := berlinMultComplexity x in
    let '(carry, result) := Mul64 result 2 in
    if decide (carry ≠ 0) then MaxUint64 else result.

Definition modexpIterationCount (expLen expHead multiplier : Z) : Z :=
  let add_head (iterationCount : Z) : Z :=
    let bitLen := Len64 expHead in
    if decide (0 < bitLen) then
      let '(count, carry) := Add64 iterationCount (bitLen - 1) in
      if decide (0 < carry) then MaxUint64 else Z.max count 1
    else Z.max iterationCount 1 in
  if decide (32 < expLen) then
    let '(carry, count) := Mul64 (expLen - 32) multiplier in
    if decide (0 < carry) then MaxUint64 else add_head count
  else add_head 0.

Definition byzantiumModexpGas (baseLen expLen modLen expHead : Z) : Z :=
  let maxLen := Z.max baseLen modLen in
  let multComplexity := byzantiumMultComplexity maxLen in
  if decide (multComplexity = MaxUint64) then MaxUint64
  else
    let iterationCount := modexpIterationCount expLen expHead 8 in
    let '(carry, gas) := Mul64 iterationCount multComplexity in
    let gas := gas / 20 in
    if decide (carry ≠ 0) then MaxUint64 else gas.

Definition berlinModexpGas (baseLen expLen modLen expHead : Z) : Z :=
  let maxLen := Z.max baseLen modLen in
  let multComplexity := berlinMultComplexity maxLen in
  if decide (multComplexity = MaxUint64) then MaxUint64
  else
    let iterationCount := modexpIterationCount expLen expHead 8 in
    let '(carry, gas) := Mul64 iterationCount multComplexity in
    let gas := gas / 3 in
    if decide (carry ≠ 0) then MaxUint64 else Z.max gas 200.

Definition osakaModexpGas (baseLen expLen modLen expHead : Z) : Z :=
  let maxLen := Z.max baseLen modLen in
  let multComplexity := osakaMultComplexity maxLen in
  if decide (multComplexity = MaxUint64) then MaxUint64
  else
    let iterationCount := modexpIterationCount expLen expHead 16 in
    let '(carry, gas) := Mul64 iterationCount multComplexity in
    if decide (carry ≠ 0) then MaxUint64 else Z.max gas 500.

(** A length word, capped at the largest [uint64]. *)
Definition cap64 (z : Z) : Z := if decide (z < two64) then z else MaxUint64.

Definition bigModExp_RequiredGas {E} (eip2565 eip7823 eip7883 : bool) (input : bytes) : res E Z :=
  baseLenBig ← getData input 0 32;
  expLenBig ← getData input 32 32;
  modLenBig ← getData input 64 32;
  let baseLen := cap64 (SetBytes baseLenBig) in
  let expLen := cap64 (SetBytes expLenBig) in
  let modLen := cap64 (SetBytes modLenBig) in
  let input := if decide (96 < length input)%nat then drop 96 input else [] in
  expHead ← (if decide (baseLen < Z.of_nat (length input)) then
               if decide (32 < expLen) then SetBytes <$> getData input baseLen 32
               else SetBytes <$> getData input baseLen expLen
             else Ok 0);
  Ok (if eip7883 then osakaModexpGas baseLen expLen modLen expHead
      else if eip2565 then berlinModexpGas baseLen expLen modLen expHead
      else byzantiumModexpGas baseLen expLen modLen expHead).

(** ** The contracts *)

Inductive PrecompiledContract : Type :=
| ecrecoverC | sha256hash | ripemd160hash | dataCopy
| bigModExp (eip2565 eip7823 eip7883 : bool)
| bn256AddByzantium | bn256AddIstanbul
| bn256ScalarMulByzantium | bn256ScalarMulIstanbul
| bn256PairingByzantium | bn256PairingIstanbul
| blake2F | kzgPointEvaluation
| bls12381G1Add | bls12381G1MultiExp | bls12381G2Add | bls12381G2MultiExp
| bls12381Pairing | bls12381MapG1 | bls12381MapG2
| p256Verify | groth16Verify.

#[export] Instance PrecompiledContract_eq_dec : EqDecision PrecompiledContract.
Proof. solve_decision. Defined.

Definition Groth16VerifyGas : Z := 440000.

(** [uint64(len(input)+31)/32*perWord + base]. *)
Definition word_gas (input : bytes) (perWord base : Z) : Z :=
  u64 (u64 ((Z.of_nat (length input) + 31) / 32 * perWord) + base).

Definition G1MultiExpDiscountTable : list Z :=
  [1000; 949; 848; 797; 764; 750; 738; 728; 719; 712; 705; 698; 692; 687; 682; 677; 673; 669; 665; 661; 658; 654; 651; 648; 645; 642; 640; 637; 635; 632; 630; 627; 625; 623; 621; 619; 617; 615; 613; 611; 609; 608; 606; 604; 603; 601; 599; 598; 596; 595; 593; 592; 591; 589; 588; 586; 585; 584; 582; 581; 580; 579; 577; 576; 575; 574; 573; 572; 570; 569; 568; 567; 566; 565; 564; 563; 562; 561; 560; 559; 558; 557; 556; 555; 554; 553; 552; 551; 550; 549; 548; 547; 547; 546; 545; 544; 543; 542; 541; 540; 540; 539; 538; 537; 536; 536; 535; 534; 533; 532; 532; 531; 530; 529; 528; 528; 527; 526; 525; 525; 524; 523; 522; 522; 521; 520; 520; 519].

Definition G2MultiExpDiscountTable : list Z :=
  [1000; 1000; 923; 884; 855; 832; 812; 796; 782; 770; 759; 749; 740; 732; 724; 717; 711; 704; 699; 693; 688; 683; 679; 674; 670; 666; 663; 659; 655; 652; 649; 646; 643; 640; 637; 634; 632; 629; 627; 624; 622; 620; 618; 615; 613; 611; 609; 607; 606; 604; 602; 600; 598; 597; 595; 593; 592; 590; 589; 587; 586; 584; 583; 582; 580; 579; 578; 576; 575; 574; 573; 571; 570; 569; 568; 567; 566; 565; 563; 562; 561; 560; 559; 558; 557; 556; 555; 554; 553; 552; 552; 551; 550; 549; 548; 547; 546; 545; 545; 544; 543; 542; 541; 541; 540; 539; 538; 537; 537; 536; 535; 535; 534; 533; 532; 532; 531; 530; 530; 529; 528; 528; 527; 526; 526; 525; 524; 524].

(** The multi-exponentiation price: [k] pairs with a discount by table. *)
Definition multiexp_gas (table : list Z) (pair mulGas : Z) (input : bytes) : Z :=
  let k := Z.of_nat (length input) / pair in
  if decide (k = 0) then 0
  else
    let dLen := Z.of_nat (length table) in
    let discount := if decide (k < dLen) then nth (Z.to_nat (k - 1)) table 0 else nth (Z.to_nat (dLen - 1)) table 0 in
    u64 (u64 (k * mulGas) * discount) / 1000.

Definition RequiredGas {E} (p : PrecompiledContract) (input : bytes) : res E Z :=
  match p with
  | ecrecoverC => Ok 3000
  | sha256hash => Ok (word_gas input 12 60)
  | ripemd160hash => Ok (word_gas input 120 600)
  | dataCopy => Ok (word_gas input 3 15)
  | bigModExp eip2565 eip7823 eip7883 => bigModExp_RequiredGas eip2565 eip7823 eip7883 input
  | bn256AddByzantium => Ok 500
  | bn256AddIstanbul => Ok 150
  | bn256ScalarMulByzantium => Ok 40000
  | bn256ScalarMulIstanbul => Ok 6000
  | bn256PairingByzantium => Ok (u64 (100000 + u64 (Z.of_nat (length input) / 192 * 80000)))
  | bn256PairingIstanbul => Ok (u64 (45000 + u64 (Z.of_nat (length input) / 192 * 34000)))
  | blake2F => Ok (if decide (length input ≠ 213%nat) then 0 else SetBytes (take 4 input))
  | kzgPointEvaluation => Ok 50000
  | bls12381G1Add => Ok 375
  | bls12381G1MultiExp => Ok (multiexp_gas G1MultiExpDiscountTable 160 12000 input)
  | bls12381G2Add => Ok 600
  | bls12381G2MultiExp => Ok (multiexp_gas G2MultiExpDiscountTable 288 22500 input)
  | bls12381Pairing => Ok (u64 (37700 + u64 (Z.of_nat (length input) / 384 * 32600)))
  | bls12381MapG1 => Ok 5500
  | bls12381MapG2 => Ok 23800
  | p256Verify => Ok 6900
  | groth16Verify => Ok Groth16VerifyGas
  end.

(** ** The registry *)

Definition PrecompiledContracts : Type := gmap Address PrecompiledContract.

(** [common.BytesToAddress([]byte{...})]. *)
Definition addr (bs : list Z) : Address := BytesToAddress (z2b <$> bs).

Definition PrecompiledContractsHomestead : PrecompiledContracts := list_to_map [
  (addr [0x1], ecrecoverC); (addr [0x2], sha256hash); (addr [0x3], ripemd160hash); (addr [0x4], dataCopy)].

Definition PrecompiledContractsByzantium : PrecompiledContracts := list_to_map [
  (addr [0x1], ecrecoverC); (addr [0x2], sha256hash); (addr [0x3], ripemd160hash); (addr [0x4], dataCopy);
  (addr [0x5], bigModExp false false false);
  (addr [0x6], bn256AddByzantium); (addr [0x7], bn256ScalarMulByzantium); (addr [0x8], bn256PairingByzantium)].

Definition PrecompiledContractsIstanbul : PrecompiledContracts := list_to_map [
  (addr [0x1], ecrecoverC); (addr [0x2], sha256hash); (addr [0x3], ripemd160hash); (addr [0x4], dataCopy);
  (addr [0x5], bigModExp false false false);
  (addr [0x6], bn256AddIstanbul); (addr [0x7], bn256ScalarMulIstanbul); (addr [0x8], bn256PairingIstanbul);
  (addr [0x9], blake2F)].

Definition PrecompiledContractsBerlin : PrecompiledContracts := list_to_map [
  (addr [0x1], ecrecoverC); (addr [0x2], sha256hash); (addr [0x3], ripemd160hash); (addr [0x4], dataCopy);
  (addr [0x5], bigModExp true false false);
  (addr [0x6], bn256AddIstanbul); (addr [0x7], bn256ScalarMulIstanbul); (addr [0x8], bn256PairingIstanbul);
  (addr [0x9], blake2F); (addr [0x20], groth16Verify)].

Definition PrecompiledContractsCancun : PrecompiledContracts := list_to_map [
  (addr [0x1], ecrecoverC); (addr [0x2], sha256hash); (addr [0x3], ripemd160hash); (addr [0x4], dataCopy);
  (addr [0x5], bigModExp true false false);
  (addr [0x6], bn256AddIstanbul); (addr [0x7], bn256ScalarMulIstanbul); (addr [0x8], bn256PairingIstanbul);
  (addr [0x9], blake2F); (addr [0xa], kzgPointEvaluation); (addr [0x20], groth16Verify)].

Definition PrecompiledContractsPrague : PrecompiledContracts := list_to_map [
  (addr [0x1], ecrecoverC); (addr [0x2], sha256hash); (addr [0x3], ripemd160hash); (addr [0x4], dataCopy);
  (addr [0x5], bigModExp true false false);
  (addr [0x6], bn256AddIstanbul); (addr [0x7], bn256ScalarMulIstanbul); (addr [0x8], bn256PairingIstanbul);
  (addr [0x9], blake2F); (addr [0xa], kzgPointEvaluation);
  (addr [0xb], bls12381G1Add); (addr [0xc], bls12381G1MultiExp); (addr [0xd], bls12381G2Add);
  (addr [0xe], bls12381G2MultiExp); (addr [0xf], bls12381Pairing);
  (addr [0x10], bls12381MapG1); (addr [0x11], bls12381MapG2); (addr [0x20], groth16Verify)].

Definition PrecompiledContractsVerkle : PrecompiledContracts := PrecompiledContractsBerlin.

Definition PrecompiledContractsOsaka : PrecompiledContracts := list_to_map [
  (addr [0x1], ecrecoverC); (addr [0x2], sha256hash); (addr [0x3], ripemd160hash); (addr [0x4], dataCopy);
  (addr [0x5], bigModExp true true true);
  (addr [0x6], bn256AddIstanbul); (addr [0x7], bn256ScalarMulIstanbul); (addr [0x8], bn256PairingIstanbul);
  (addr [0x9], blake2F); (addr [0xa], kzgPointEvaluation);
  (addr [0xb], bls12381G1Add); (addr [0xc], bls12381G1MultiExp); (addr [0xd], bls12381G2Add);
  (addr [0xe], bls12381G2MultiExp); (addr [0xf], bls12381Pairing);
  (addr [0x10], bls12381MapG1); (addr [0x11], bls12381MapG2);
  (addr [0x1; 0x0], p256Verify); (addr [0x20], groth16Verify)].

(** The fork flags the registry looks at. *)
Record Rules : Type := MkRules {
  RIsByzantium : bool; RIsIstanbul : bool; RIsBerlin : bool; RIsCancun : bool;
  RIsPrague : bool; RIsOsaka : bool; RIsVerkle : bool
}.

Definition activePrecompiledContracts (rules : Rules) : PrecompiledContracts :=
  if RIsVerkle rules then PrecompiledContractsVerkle
  else if RIsOsaka rules then PrecompiledContractsOsaka
  else if RIsPrague rules then PrecompiledContractsPrague
  else if RIsCancun rules then PrecompiledContractsCancun
  else if RIsBerlin rules then PrecompiledContractsBerlin
  else if RIsIstanbul rules then PrecompiledContractsIstanbul
  else if RIsByzantium rules then PrecompiledContractsByzantium
  else PrecompiledContractsHomestead.

Definition ActivePrecompiles (rules : Rules) : gset Address :=
  dom (if RIsOsaka rules then PrecompiledContractsOsaka
       else if RIsPrague rules then PrecompiledContractsPrague
       else if RIsCancun rules then PrecompiledContractsCancun
       else if RIsBerlin rules then PrecompiledContractsBerlin
       else if RIsIstanbul rules then PrecompiledContractsIstanbul
       else if RIsByzantium rules then PrecompiledContractsByzantium
       else PrecompiledContractsHomestead).

(** ** Running a contract *)

Inductive vm_error (E : Type) : Type := ErrOutOfGas | ErrRun (e : E).
Arguments ErrOutOfGas {E}.
Arguments ErrRun {E} e.

(** [RunPrecompiledContract]: the outcome and the remaining gas; [None] when the
    process panics. *)
Definition RunPrecompiledContract {E} (Run : PrecompiledContract → bytes → res E bytes)
    (p : PrecompiledContract) (input : bytes) (suppliedGas : Z) : option (res (vm_error E) bytes * Z) :=
  match RequiredGas (E := E) p input with
  | Ok gasCost =>
      if decide (suppliedGas < gasCost) then Some (Err ErrOutOfGas, 0)
      else
        let suppliedGas := u64 (suppliedGas - gasCost) in
        match Run p input with
        | Ok output => Some (Ok output, suppliedGas)
        | Err e => Some (Err (ErrRun e), suppliedGas)
        | Panic => None
        end
  | Err _ => None
  | Panic => None
  end.

(** ** The Groth16 contract in the registry *)

(** the Groth16 verifier is reachable exactly from the Berlin fork on: under every
    combination of fork flags, address 0x20 is [groth16Verify] when one of the Berlin,
    Cancun, Prague, Osaka or Verkle sets is active and no contract otherwise, and no
    other address runs it. *)
Theorem groth16_registered rules :
  activePrecompiledContracts rules !! addr [0x20] =
    (if RIsBerlin rules || RIsCancun rules || RIsPrague rules || RIsOsaka rules || RIsVerkle rules
     then Some groth16Verify else None) ∧
  ∀ a, activePrecompiledContracts rules !! a = Some groth16Verify → a = addr [0x20].
Proof.
  assert (∀ m : PrecompiledContracts, bool_decide (map_Forall (λ a p, p = groth16Verify → a = addr [0x20]) m) = true →
    ∀ a, m !! a = Some groth16Verify → a = addr [0x20]) as Hm.
  { intros m Hm a Ha. apply bool_decide_eq_true in Hm. by apply (Hm _ _ Ha). }
  unfold activePrecompiledContracts. destruct rules as [bz ist be ca pr os ve]. cbn [RIsVerkle RIsOsaka RIsPrague RIsCancun RIsBerlin RIsIstanbul RIsByzantium].
  destruct ve, os, pr, ca, be, ist, bz; (split; [vm_compute; reflexivity|apply Hm; vm_compute; reflexivity]).
Qed.

(** a call to the Groth16 verifier costs 440000 gas whatever its input and outcome:
    with less it fails with out-of-gas and consumes everything, otherwise exactly that
    amount is deducted, for a valid proof, an invalid one and a malformed input alike. *)
Theorem groth16_gas {E} (Run : PrecompiledContract → bytes → res E bytes) input gas :
  is_u64 gas →
  RunPrecompiledContract Run groth16Verify input gas =
    if decide (gas < 440000) then Some (Err ErrOutOfGas, 0)
    else match Run groth16Verify input with
         | Ok out => Some (Ok out, gas - 440000)
         | Err e => Some (Err (ErrRun e), gas - 440000)
         | Panic => None
         end.
Proof.
  intros Hg. unfold RunPrecompiledContract. cbn [RequiredGas]. unfold Groth16VerifyGas.
  destruct (decide (gas < 440000)) as [|Hge]; [done|]. rewrite u64_small by word_lia. done.
Qed.

Lemma groth16_gas_witness :
  RunPrecompiledContract (λ _ _, Err (E := ()) ()) groth16Verify [] 500000 = Some (Err (ErrRun ()), 60000).
Proof. rewrite groth16_gas by (vm_compute; split; congruence). reflexivity. Defined.

(** ** Saturating prices *)

Lemma Mul64_spec x y : is_u64 x → is_u64 y →
  Mul64 x y = if decide (x * y < two64) then (0, x * y) else (x * y / two64, u64 (x * y)).
Proof.
  unfold is_u64, Mul64. intros Hx Hy. destruct (decide _) as [Hlt|Hge]; [|done].
  rewrite Z.div_small by nia. by rewrite u64_small by (unfold is_u64; nia).
Qed.

Lemma Mul64_carry x y : is_u64 x → is_u64 y → two64 <= x * y → x * y / two64 ≠ 0.
Proof. intros Hx Hy Hge H0. assert (1 <= x * y / two64) by (apply Z.div_le_lower_bound; [reflexivity|lia]). lia. Qed.

(** The exact price terms, over unbounded integers. *)
Definition berlin_complexity (x : Z) : Z := ((x + 7) / 8) * ((x + 7) / 8).

Definition modexp_iterations (expLen expHead multiplier : Z) : Z :=
  Z.max 1 ((if decide (32 < expLen) then (expLen - 32) * multiplier else 0) + Z.max 0 (Len64 expHead - 1)).

Lemma berlinMultComplexity_spec x : is_u64 x →
  berlinMultComplexity x = if decide (berlin_complexity x < two64) then berlin_complexity x else MaxUint64.
Proof.
  intros Hx. unfold berlinMultComplexity, berlin_complexity, Add64. unfold is_u64 in Hx.
  destruct (decide (x + 7 < two64)) as [Hs|Hs].
  - rewrite (Z.div_small (x + 7) two64), u64_small by (unfold is_u64; lia). rewrite decide_False by lia.
    assert (is_u64 ((x + 7) / 8)) as Hq by word_lia. rewrite Mul64_spec by done.
    destruct (decide (_ < two64)) as [Hlt|Hge]; [by rewrite decide_False by lia|].
    rewrite decide_True; [done|]. apply Mul64_carry; [done|done|lia].
  - rewrite decide_True by (intros H0; assert (1 <= (x + 7) / two64) by (apply Z.div_le_lower_bound; [reflexivity|lia]); lia).
    rewrite decide_False; [done|]. assert (2 ^ 60 <= (x + 7) / 8) by (apply Z.div_le_lower_bound; [lia|]; rewrite two64_val in Hs; lia).
    rewrite two64_val. nia.
Qed.

Lemma Len64_nonneg z : 0 <= Len64 z.
Proof. unfold Len64. destruct (decide _); [lia|]. pose proof (Z.log2_nonneg z). lia. Qed.

Lemma Len64_256 z : 0 <= z < 2 ^ 256 → Len64 z <= 256.
Proof.
  intros Hz. unfold Len64. destruct (decide _) as [|Hp]; [lia|].
  assert (Z.log2 z < 256) by (apply Z.log2_lt_pow2; lia). lia.
Qed.

Lemma Add64_head count head : is_u64 count → 0 <= head < 2 ^ 256 →
  (let bitLen := Len64 head in
   if decide (0 < bitLen) then
     let '(c, carry) := Add64 count (bitLen - 1) in
     if decide (0 < carry) then MaxUint64 else Z.max c 1
   else Z.max count 1) = Z.min MaxUint64 (Z.max 1 (count + Z.max 0 (Len64 head - 1))).
Proof.
  intros Hc Hh. pose proof (Len64_nonneg head). pose proof (Len64_256 head Hh). cbv zeta. unfold is_u64 in Hc.
  unfold MaxUint64. destruct (decide (0 < Len64 head)) as [Hp|Hp]; [|rewrite two64_val in *; lia].
  unfold Add64. destruct (decide (count + (Len64 head - 1) < two64)) as [Hs|Hs].
  - rewrite Z.div_small, u64_small, decide_False by (unfold is_u64; lia). rewrite two64_val in *. lia.
  - rewrite decide_True by (assert (1 <= (count + (Len64 head - 1)) / two64) by (apply Z.div_le_lower_bound; [reflexivity|lia]); lia).
    rewrite two64_val in *. lia.
Qed.

Lemma modexpIterationCount_spec expLen expHead multiplier :
  is_u64 expLen → 0 <= expHead < 2 ^ 256 → 0 < multiplier < 2 ^ 32 →
  modexpIterationCount expLen expHead multiplier = Z.min MaxUint64 (modexp_iterations expLen expHead multiplier).
Proof.
  intros He Hh Hm. unfold modexpIterationCount, modexp_iterations.
  assert (is_u64 multiplier) as Hmu by word_lia.
  destruct (decide (32 < expLen)) as [Hbig|Hsmall]; [|by rewrite Add64_head by (done || word_lia)].
  assert (is_u64 (expLen - 32)) as He2 by word_lia. rewrite Mul64_spec by done.
  destruct (decide (_ < two64)) as [Hlt|Hge].
  - rewrite decide_False by lia. rewrite Add64_head; [done| |done]. unfold is_u64. nia.
  - rewrite decide_True.
    + unfold MaxUint64. lia.
    + pose proof (Mul64_carry _ _ He2 Hmu ltac:(lia)). assert (0 <= (expLen - 32) * multiplier / two64); [|lia].
      apply Z.div_pos; [nia|reflexivity].
Qed.

(** the Berlin price of modular exponentiation is never computed from wrapped
    arithmetic: for all 64-bit lengths it is the exact EIP-2565 value, the maximum of 200
    and a third of complexity times iterations, whenever that product fits in 64 bits,
    and otherwise at least (2^64-1)/3, beyond any block gas limit. *)
Theorem berlinModexpGas_saturates baseLen expLen modLen expHead :
  is_u64 baseLen → is_u64 expLen → is_u64 modLen → 0 <= expHead < 2 ^ 256 →
  let exact := berlin_complexity (Z.max baseLen modLen) * modexp_iterations expLen expHead 8 in
  let gas := berlinModexpGas baseLen expLen modLen expHead in
  (exact < two64 → gas = Z.max (exact / 3) 200) ∧ (two64 <= exact → MaxUint64 / 3 <= gas).
Proof.
  intros Hb He Hm Hh. unfold berlinModexpGas. cbv zeta.
  assert (is_u64 (Z.max baseLen modLen)) as Hx by (unfold is_u64 in *; lia). set (x := Z.max baseLen modLen) in *.
  rewrite berlinMultComplexity_spec by done. rewrite modexpIterationCount_spec by (done || lia).
  assert (1 <= modexp_iterations expLen expHead 8) as Hi by (unfold modexp_iterations; lia).
  assert (0 <= berlin_complexity x) as Hc by (unfold berlin_complexity; nia).
  set (i := modexp_iterations expLen expHead 8) in *. set (m := berlin_complexity x) in *.
  unfold MaxUint64. destruct (decide (m < two64)) as [Hlt|Hge].
  2: { rewrite decide_True by done. split; [nia|]. intros _. rewrite two64_val. apply Z.div_le_upper_bound; lia. }
  destruct (decide (m = two64 - 1)) as [Heq|Hne].
  { exfalso. unfold m, berlin_complexity in Heq. rewrite two64_val in Heq.
    assert (0 <= (x + 7) / 8) as Hq by (apply Z.div_pos; unfold is_u64 in Hx; lia).
    set (q := (x + 7) / 8) in *. clearbody q.
    assert (q <= 4294967295 ∨ 4294967296 <= q) as [H1|H1] by lia.
    - assert (q * q <= 4294967295 * 4294967295) by (apply Z.mul_le_mono_nonneg; lia). lia.
    - assert (4294967296 * 4294967296 <= q * q) by (apply Z.mul_le_mono_nonneg; lia). lia. }
  assert (is_u64 m) as Hm64 by (unfold is_u64; lia).
  assert (is_u64 (Z.min (two64 - 1) i)) as Hi64 by (unfold is_u64; rewrite two64_val in *; lia).
  rewrite Mul64_spec by done. destruct (decide (Z.min (two64 - 1) i * m < two64)) as [Hp|Hp].
  - rewrite decide_False by lia. split.
    + intros Hex. f_equal. f_equal. destruct (decide (i <= two64 - 1)); [nia|].
      assert (m = 0) by nia. nia.
    + intros Hex. apply Z.le_trans with (Z.min (two64 - 1) i * m / 3); [|lia].
      apply Z.div_le_mono; [lia|]. destruct (decide (i <= two64 - 1)); [nia|]. assert (0 < m) by nia. nia.
  - rewrite decide_True by (apply Mul64_carry; [done|done|lia]). split; [nia|].
    intros _. rewrite two64_val. apply Z.div_le_upper_bound; lia.
Qed.

Lemma berlinModexpGas_saturates_witness :
  berlinModexpGas 64 64 64 3 = Z.max (berlin_complexity 64 * modexp_iterations 64 3 8 / 3) 200.
Proof.
  apply (berlinModexpGas_saturates 64 64 64 3);
    [vm_compute; split; congruence..|vm_compute; split; congruence|vm_compute; reflexivity].
Defined.
