(* ===== verification/Groth16.v ===== *)
(** * The Groth16 precompile and the bn256 contracts

    [core/vm/groth16_verify.go] (with its earlier variant
    [HZKA/geth-patch/groth16_precompile.go]), the bn256 contracts of
    [core/vm/contracts.go] and the wrappers of [crypto/bn256/gnark]. The field and
    curve arithmetic is the third-party library gnark-crypto: it is the class [Bn254],
    whose documented behaviour is the class [Bn254Laws]; points are pairs of
    coordinates, (0,0) is the point at infinity. *)
From Stdlib Require Import ZArith Lia.
From Stdlib Require Strings.Byte.
From stdpp Require Import base tactics decidable countable list numbers gmap fin_maps.
From S2P Require Import Prelude Keccak Common Rlp Precompiles.

(** The BN254 base field modulus, as the source spells it. *)
Definition fieldModulus : Z := 0x30644e72e131a029b85045b68181585d97816a916871ca8d3c208c16d87cfd47.

Definition G1 : Type := Z * Z.
Definition G2 : Type := (Z * Z) * (Z * Z).

(** ** gnark-crypto *)
Class Bn254 : Type := {
  (** [fp.Element.SetBytesCanonical]: an error leaves the element unchanged. *)
  SetBytesCanonical : bytes → option Z;
  g1_IsOnCurve : G1 → bool;
  g1_IsInSubGroup : G1 → bool;
  g1_Add : G1 → G1 → G1;
  g1_ScalarMultiplication : G1 → Z → G1;
  g1_Neg : G1 → G1;
  g2_IsOnCurve : G2 → bool;
  g2_IsInSubGroup : G2 → bool;
  (** [bn254.PairingCheck]: an error or the outcome. *)
  bn254_PairingCheck : list G1 → list G2 → option bool
}.

(** What the callers rely on: [SetBytesCanonical] takes exactly the reduced field
    elements, and the negative of a point has the opposite ordinate. *)
Class Bn254Laws `{Bn254} : Prop := {
  canonical : ∀ b, length b = 32%nat →
    SetBytesCanonical b = if decide (SetBytes b < fieldModulus) then Some (SetBytes b) else None;
  g1_Neg_coords : ∀ x y, g1_Neg (x, y) = (x, (fieldModulus - y) mod fieldModulus)
}.

Inductive bn_error : Type :=
| errPointSize | errNotCanonical | errNotOnCurve | errNotInSubgroup
| errBadPairingInput | errBadGroth16Input.

(** [bitutil.TestBytes], the byte-wise version. *)
Fixpoint TestBytes (p : bytes) : bool :=
  match p with
  | [] => false
  | b :: p => if decide (b2z b ≠ 0) then true else TestBytes p
  end.

Definition true32Byte : bytes := replicate 31 Byte.x00 ++ [Byte.x01].
Definition false32Byte : bytes := replicate 32 Byte.x00.

Section bn256.
Context `{Bn254}.

(** ** The wrappers *)

(** [G1.Unmarshal] on the receiver [g]: the error, and the receiver afterwards, whose
    coordinates are assigned one by one. *)
Definition G1_Unmarshal (g : G1) (buf : bytes) : res bn_error () * G1 :=
  if decide (length buf < 64)%nat then (Err errPointSize, g)
  else if negb (TestBytes (take 64 buf)) then (Ok (), (0, 0))
  else
    match SetBytesCanonical (take 32 buf) with
    | None => (Err errNotCanonical, g)
    | Some x =>
        match SetBytesCanonical (take 32 (drop 32 buf)) with
        | None => (Err errNotCanonical, (x, snd g))
        | Some y =>
            if negb (g1_IsOnCurve (x, y)) then (Err errNotOnCurve, (x, y))
            else if negb (g1_IsInSubGroup (x, y)) then (Err errNotInSubgroup, (x, y))
            else (Ok (), (x, y))
        end
    end.

Definition G1_Marshal (p : G1) : bytes := be_bytes 32 (fst p) ++ be_bytes 32 (snd p).

(** [G2.Unmarshal]: the receiver is only used when there is no error. *)
Definition G2_Unmarshal (buf : bytes) : res bn_error G2 :=
  if decide (length buf < 128)%nat then Err errPointSize
  else if negb (TestBytes (take 128 buf)) then Ok ((0, 0), (0, 0))
  else
    match SetBytesCanonical (take 32 buf), SetBytesCanonical (take 32 (drop 32 buf)),
          SetBytesCanonical (take 32 (drop 64 buf)), SetBytesCanonical (take 32 (drop 96 buf)) with
    | Some xA1, Some xA0, Some yA1, Some yA0 =>
        let g := ((xA0, xA1), (yA0, yA1)) in
        if negb (g2_IsOnCurve g) then Err errNotOnCurve
        else if negb (g2_IsInSubGroup g) then Err errNotInSubgroup
        else Ok g
    | _, _, _, _ => Err errNotCanonical
    end.

Definition PairingCheck (a : list G1) (b : list G2) : bool :=
  if decide (a = []) then true else default false (bn254_PairingCheck a b).

Definition newCurvePoint (blob : bytes) : res bn_error G1 :=
  match G1_Unmarshal (0, 0) blob with
  | (Ok _, p) => Ok p
  | (Err e, _) => Err e
  | (Panic, _) => Panic
  end.

Definition newTwistPoint (blob : bytes) : res bn_error G2 := G2_Unmarshal blob.

(** [input[offset : offset+n]]: a panic when the input ends before. *)
Definition slice (offset n : nat) (input : bytes) : res bn_error bytes :=
  if decide (offset + n <= length input)%nat then Ok (take n (drop offset input)) else Panic.

(** ** The bn256 contracts *)

Definition runBn256Add (input : bytes) : res bn_error bytes :=
  b1 ← getData input 0 64;
  x ← newCurvePoint b1;
  b2 ← getData input 64 64;
  y ← newCurvePoint b2;
  Ok (G1_Marshal (g1_Add x y)).

Definition runBn256ScalarMul (input : bytes) : res bn_error bytes :=
  b1 ← getData input 0 64;
  p ← newCurvePoint b1;
  b2 ← getData input 64 32;
  Ok (G1_Marshal (g1_ScalarMultiplication p (SetBytes b2))).

Fixpoint pairing_points (fuel : nat) (input : bytes) : res bn_error (list G1 * list G2) :=
  match fuel, input with
  | _, [] => Ok ([], [])
  | O, _ => Panic
  | S fuel, _ =>
      b1 ← slice 0 64 input;
      c ← newCurvePoint b1;
      b2 ← slice 64 128 input;
      t ← newTwistPoint b2;
      '(cs, ts) ← pairing_points fuel (drop 192 input);
      Ok (c :: cs, t :: ts)
  end.

Definition runBn256Pairing (input : bytes) : res bn_error bytes :=
  if decide (0 < length input `mod` 192)%nat then Err errBadPairingInput
  else
    '(cs, ts) ← pairing_points (length input / 192) input;
    Ok (if PairingCheck cs ts then true32Byte else false32Byte).

(** ** The Groth16 verifier *)

(** The point at [input[offset:offset+n]], and [ic[0..n]], consecutive G1 points. *)
Definition curve_point_at (offset : nat) (input : bytes) : res bn_error G1 := b ← slice offset 64 input; newCurvePoint b.
Definition twist_point_at (offset : nat) (input : bytes) : res bn_error G2 := b ← slice offset 128 input; newTwistPoint b.

Fixpoint parse_ic (count offset : nat) (input : bytes) : res bn_error (list G1) :=
  match count with
  | O => Ok []
  | S count =>
      p ← curve_point_at offset input;
      ps ← parse_ic count (offset + 64) input;
      Ok (p :: ps)
  end.

Fixpoint parse_inputs (count offset : nat) (input : bytes) : res bn_error (list Z) :=
  match count with
  | O => Ok []
  | S count =>
      b ← slice offset 32 input;
      zs ← parse_inputs count (offset + 32) input;
      Ok (SetBytes b :: zs)
  end.

(** [vkX.Unmarshal(ic[0].Marshal())] followed by the accumulation loop. *)
Fixpoint accumulate (vkX : G1) (ic : list G1) (publicInputs : list Z) : G1 :=
  match ic, publicInputs with
  | p :: ic, s :: publicInputs => accumulate (g1_Add vkX (g1_ScalarMultiplication p s)) ic publicInputs
  | _, _ => vkX
  end.

(** The negation of A through its encoding: the error of [Unmarshal] is ignored. *)
Definition negate_encoded (proofA : G1) : G1 :=
  let marshaledA := G1_Marshal proofA in
  let negY := fieldModulus - SetBytes (take 32 (drop 32 marshaledA)) in
  let negYBytes := big_Bytes negY in
  let negABuf := take 32 marshaledA ++ replicate (32 - length negYBytes) Byte.x00 ++ negYBytes in
  snd (G1_Unmarshal (0, 0) negABuf).

(** The statement parsed from the input. *)
Record groth16_input : Type := MkInput {
  proofA : G1; proofB : G2; proofC : G1;
  vkAlpha : G1; vkBeta : G2; vkGamma : G2; vkDelta : G2;
  ic : list G1; publicInputs : list Z
}.

Definition parse (input : bytes) : res bn_error groth16_input :=
  if decide (length input < 800)%nat then Err errBadGroth16Input
  else
    a ← curve_point_at 0 input;
    b ← twist_point_at 64 input;
    c ← curve_point_at 192 input;
    alpha ← curve_point_at 256 input;
    beta ← twist_point_at 320 input;
    gamma ← twist_point_at 448 input;
    delta ← twist_point_at 576 input;
    if decide (length input < 704 + 32)%nat then Err errBadGroth16Input
    else
      numInputs ← slice 704 32 input;
      let numInputsInt := i64 (SetBytes numInputs) in
      if decide (numInputsInt < 0 ∨ 100 < numInputsInt) then Err errBadGroth16Input
      else
        let n := Z.to_nat numInputsInt in
        if decide (736 + ((n + 1) * 64 + n * 32) ≠ length input)%nat then Err errBadGroth16Input
        else
          points ← parse_ic (n + 1) 736 input;
          inputs ← parse_inputs n (736 + (n + 1) * 64) input;
          Ok (MkInput a b c alpha beta gamma delta points inputs).

Definition groth16_check (neg : G1 → G1) (copy : G1 → G1) (x : groth16_input) : bool :=
  let vkX := match ic x with [] => (0, 0) | ic0 :: rest => accumulate (copy ic0) rest (publicInputs x) end in
  PairingCheck [neg (proofA x); vkAlpha x; vkX; proofC x] [proofB x; vkBeta x; vkGamma x; vkDelta x].

(** [Run] of [core/vm/groth16_verify.go]: negation and copy go through the encoding. *)
Definition Groth16_Run (input : bytes) : res bn_error bytes :=
  x ← parse input;
  Ok (if groth16_check negate_encoded (λ p, snd (G1_Unmarshal (0, 0) (G1_Marshal p))) x
      then true32Byte else false32Byte).

(** [Run] of [HZKA/geth-patch/groth16_precompile.go]: the group operations. *)
Definition Groth16_Run_patch (input : bytes) : res bn_error bytes :=
  x ← parse input;
  Ok (if groth16_check g1_Neg (λ p, p) x then true32Byte else false32Byte).

Definition G2_Marshal (g : G2) : bytes :=
  let '((xA0, xA1), (yA0, yA1)) := g in
  be_bytes 32 xA1 ++ be_bytes 32 xA0 ++ be_bytes 32 yA1 ++ be_bytes 32 yA0.

(** ** Valid points and their encodings *)

Definition in_field (z : Z) : Prop := 0 <= z < fieldModulus.

Definition g1_valid (p : G1) : Prop :=
  in_field (fst p) ∧ in_field (snd p) ∧
  (p = (0, 0) ∨ g1_IsOnCurve p = true ∧ g1_IsInSubGroup p = true).

Definition g2_valid (g : G2) : Prop :=
  in_field g.1.1 ∧ in_field g.1.2 ∧ in_field g.2.1 ∧ in_field g.2.2 ∧
  (g = ((0, 0), (0, 0)) ∨ g2_IsOnCurve g = true ∧ g2_IsInSubGroup g = true).

Context `{!Bn254Laws}.

Lemma field_lt_256 z : in_field z → 0 <= z < 256 ^ Z.of_nat 32.
Proof. unfold in_field. intros Hz. assert (fieldModulus < 256 ^ Z.of_nat 32) by (vm_compute; reflexivity). lia. Qed.

Lemma SetBytes_be32 z : 0 <= z < 256 ^ Z.of_nat 32 → SetBytes (be_bytes 32 z) = z.
Proof. intros Hz. rewrite SetBytes_be_bytes. by apply Z.mod_small. Qed.

Lemma be32_SetBytes b : length b = 32%nat → be_bytes 32 (SetBytes b) = b.
Proof. intros Hb. rewrite <-Hb. apply be_bytes_SetBytes. Qed.

Lemma canonical_be z : in_field z → SetBytesCanonical (be_bytes 32 z) = Some z.
Proof.
  intros Hz. rewrite canonical by apply length_be_bytes. rewrite SetBytes_be32 by (by apply field_lt_256).
  rewrite decide_True by apply Hz. done.
Qed.

Lemma canonical_inv b z : length b = 32%nat → SetBytesCanonical b = Some z → in_field z ∧ b = be_bytes 32 z.
Proof.
  intros Hb. rewrite canonical by done. destruct (decide _) as [Hlt|]; [|done]. intros [= <-].
  split; [split; [apply SetBytes_range|done]|]. by rewrite be32_SetBytes.
Qed.

Lemma TestBytes_zero b : TestBytes b = false ↔ b = replicate (length b) Byte.x00.
Proof.
  induction b as [|x b IH]; [done|]. cbn. destruct (decide (b2z x ≠ 0)) as [Hx|Hx].
  - split; [done|]. intros [= -> _]. done.
  - rewrite IH. assert (x = Byte.x00) as -> by (apply b2z_inj; change (b2z Byte.x00) with 0; lia).
    split; [by intros <-|by intros [= <-]].
Qed.

Lemma TestBytes_app_be z b : TestBytes (be_bytes 32 z ++ b) = false → 0 <= z < 256 ^ Z.of_nat 32 → z = 0 ∧ TestBytes b = false.
Proof.
  intros HT Hz. rewrite TestBytes_zero, length_app, replicate_add in HT.
  apply app_inj_1 in HT as [H1 H2]; [|by rewrite length_replicate]. split.
  - rewrite <-(SetBytes_be32 z Hz), H1. apply SetBytes_replicate_0.
  - by apply TestBytes_zero.
Qed.

Lemma take32_be x b : take 32 (be_bytes 32 x ++ b) = be_bytes 32 x.
Proof. rewrite <-(length_be_bytes 32 x) at 1. apply take_app_length. Qed.

Lemma drop32_be x b : drop 32 (be_bytes 32 x ++ b) = b.
Proof. rewrite <-(length_be_bytes 32 x) at 1. apply drop_app_length. Qed.

Lemma length_G1_Marshal p : length (G1_Marshal p) = 64%nat.
Proof. unfold G1_Marshal. by rewrite length_app, !length_be_bytes. Qed.

Lemma length_G2_Marshal g : length (G2_Marshal g) = 128%nat.
Proof. destruct g as [[? ?] [? ?]]. unfold G2_Marshal. by rewrite !length_app, !length_be_bytes. Qed.

(** [G1_Unmarshal] assigns the coordinates of an encoding even when it fails later. *)
Lemma G1_Unmarshal_coords x y :
  in_field x → 0 <= y < 256 ^ Z.of_nat 32 → (x, y) ≠ (0, 0) →
  snd (G1_Unmarshal (0, 0) (be_bytes 32 x ++ be_bytes 32 y)) = (x, if decide (y < fieldModulus) then y else 0).
Proof.
  intros Hx Hy Hne. unfold G1_Unmarshal. rewrite decide_False by (rewrite length_app, !length_be_bytes; lia).
  rewrite (take_ge (be_bytes 32 x ++ be_bytes 32 y)) by (rewrite length_app, !length_be_bytes; lia).
  destruct (TestBytes (be_bytes 32 x ++ be_bytes 32 y)) eqn:HT; cbn [negb].
  2: { exfalso. apply TestBytes_app_be in HT as [-> HT]; [|by apply field_lt_256].
       rewrite <-(app_nil_r (be_bytes 32 y)) in HT. apply TestBytes_app_be in HT as [-> _]; [|done]. done. }
  rewrite take32_be, drop32_be, canonical_be by done. rewrite (take_ge (be_bytes 32 y)) by (rewrite length_be_bytes; lia).
  rewrite canonical by apply length_be_bytes. rewrite SetBytes_be32 by done.
  destruct (decide (y < fieldModulus)); [|done]. by repeat case_match.
Qed.

Lemma copy_encoded p : in_field (fst p) → in_field (snd p) → snd (G1_Unmarshal (0, 0) (G1_Marshal p)) = p.
Proof.
  destruct p as [x y]. cbn [fst snd]. intros Hx Hy. destruct (decide ((x, y) = (0, 0))) as [[= -> ->]|Hne].
  - unfold G1_Unmarshal. vm_compute. reflexivity.
  - unfold G1_Marshal. cbn [fst snd]. rewrite G1_Unmarshal_coords; [|done|by apply field_lt_256|done].
    by rewrite decide_True by apply Hy.
Qed.

(** The byte-wise negation is the group negation on every reduced point: at
    infinity too, where the ignored error leaves the ordinate at zero. *)
Lemma negate_encoded_Neg p : in_field (fst p) → in_field (snd p) → negate_encoded p = g1_Neg p.
Proof.
  destruct p as [x y]. cbn [fst snd]. intros Hx Hy. rewrite g1_Neg_coords. unfold negate_encoded, G1_Marshal. cbn [fst snd].
  rewrite take32_be, drop32_be, (take_ge (be_bytes 32 y)) by (rewrite length_be_bytes; lia).
  rewrite SetBytes_be32 by (by apply field_lt_256). set (n := fieldModulus - y).
  assert (0 < n <= fieldModulus) as Hn by (unfold n, in_field in *; lia).
  assert (fieldModulus < 256 ^ Z.of_nat 32) as HP by (vm_compute; reflexivity).
  assert (replicate (32 - length (big_Bytes n)) Byte.x00 ++ big_Bytes n = be_bytes 32 n) as ->.
  { pose proof (byte_len_least n 32 ltac:(lia)) as Hl. rewrite <-(Z.abs_eq n), <-length_big_Bytes in Hl by lia.
    apply SetBytes_inj; [rewrite length_app, length_replicate, length_be_bytes; lia|].
    rewrite SetBytes_zero_prefix, SetBytes_big_Bytes, SetBytes_be32 by lia. done. }
  rewrite G1_Unmarshal_coords; [|done|lia|intros [= _ E]; lia]. f_equal.
  destruct (decide (n < fieldModulus)); [by rewrite Z.mod_small by lia|].
  assert (n = fieldModulus) as -> by lia. by rewrite Z.mod_same by (vm_compute; congruence).
Qed.

Lemma newCurvePoint_Marshal p : g1_valid p → newCurvePoint (G1_Marshal p) = Ok p.
Proof.
  intros (Hx & Hy & HV). pose proof (copy_encoded p Hx Hy) as Hc. unfold newCurvePoint.
  destruct (G1_Unmarshal (0, 0) (G1_Marshal p)) as [r q] eqn:E. cbn in Hc. subst q.
  assert (r = Ok ()) as ->; [|done]. destruct HV as [->|[Hon Hsub]]; [vm_compute in E; congruence|].
  unfold G1_Unmarshal in E. rewrite decide_False in E by (rewrite length_G1_Marshal; lia).
  destruct (negb _); [by injection E|]. unfold G1_Marshal in E. rewrite take32_be, drop32_be, canonical_be in E by done.
  rewrite (take_ge (be_bytes 32 (snd p))) in E by (rewrite length_be_bytes; lia). rewrite canonical_be in E by done.
  rewrite <-surjective_pairing, Hon, Hsub in E. by injection E.
Qed.

Lemma split64 (b : bytes) : length b = 64%nat → b = take 32 b ++ take 32 (drop 32 b) ∧
  length (take 32 b) = 32%nat ∧ length (take 32 (drop 32 b)) = 32%nat.
Proof.
  intros Hb. rewrite (take_ge (drop 32 b)) by (rewrite length_drop; lia). rewrite take_drop.
  rewrite length_take, length_drop. split_and!; [done|lia|lia].
Qed.

Lemma newCurvePoint_inv blob p :
  length blob = 64%nat → newCurvePoint blob = Ok p → blob = G1_Marshal p ∧ g1_valid p.
Proof.
  intros Hb. unfold newCurvePoint, G1_Unmarshal. rewrite decide_False by lia. rewrite (take_ge blob) by lia.
  destruct (split64 blob Hb) as (Hs & L1 & L2).
  destruct (TestBytes blob) eqn:HT; cbn [negb].
  - destruct (SetBytesCanonical (take 32 blob)) as [x|] eqn:Ex; [|done].
    destruct (SetBytesCanonical (take 32 (drop 32 blob))) as [y|] eqn:Ey; [|done].
    destruct (g1_IsOnCurve (x, y)) eqn:Eon; [|done]. destruct (g1_IsInSubGroup (x, y)) eqn:Esub; [|done].
    intros [= <-]. apply canonical_inv in Ex as [Hx Ex]; [|done]. apply canonical_inv in Ey as [Hy Ey]; [|done].
    split; [unfold G1_Marshal; cbn [fst snd]; by rewrite <-Ex, <-Ey|]. split_and!; [done..|by right].
  - intros [= <-]. apply TestBytes_zero in HT. rewrite Hb in HT. split; [rewrite HT; reflexivity|].
    split_and!; [by vm_compute..|by left].
Qed.

Lemma split128 (b : bytes) : length b = 128%nat →
  b = take 32 b ++ take 32 (drop 32 b) ++ take 32 (drop 64 b) ++ take 32 (drop 96 b) ∧
  length (take 32 b) = 32%nat ∧ length (take 32 (drop 32 b)) = 32%nat ∧
  length (take 32 (drop 64 b)) = 32%nat ∧ length (take 32 (drop 96 b)) = 32%nat.
Proof.
  intros Hb. rewrite (take_ge (drop 96 b)) by (rewrite length_drop; lia).
  rewrite !length_take, !length_drop. split_and!; try lia.
  change 96%nat with (64 + 32)%nat at 1. rewrite <-drop_drop, take_drop.
  change 64%nat with (32 + 32)%nat at 1. rewrite <-drop_drop, take_drop. by rewrite take_drop.
Qed.

Lemma newTwistPoint_inv blob g :
  length blob = 128%nat → newTwistPoint blob = Ok g → blob = G2_Marshal g ∧ g2_valid g.
Proof.
  intros Hb. unfold newTwistPoint, G2_Unmarshal. rewrite decide_False by lia. rewrite (take_ge blob) by lia.
  destruct (split128 blob Hb) as (Hs & L1 & L2 & L3 & L4).
  destruct (TestBytes blob) eqn:HT; cbn [negb].
  - destruct (SetBytesCanonical (take 32 blob)) as [x1|] eqn:E1; [|done].
    destruct (SetBytesCanonical (take 32 (drop 32 blob))) as [x0|] eqn:E2; [|done].
    destruct (SetBytesCanonical (take 32 (drop 64 blob))) as [y1|] eqn:E3; [|done].
    destruct (SetBytesCanonical (take 32 (drop 96 blob))) as [y0|] eqn:E4; [|done].
    destruct (g2_IsOnCurve _) eqn:Eon; [|done]. destruct (g2_IsInSubGroup _) eqn:Esub; [|done].
    intros [= <-]. apply canonical_inv in E1 as [H1 E1], E2 as [H2 E2], E3 as [H3 E3], E4 as [H4 E4]; [|done..].
    split; [unfold G2_Marshal; by rewrite <-E1, <-E2, <-E3, <-E4|]. split_and!; [done..|by right].
  - intros [= <-]. apply TestBytes_zero in HT. rewrite Hb in HT. split; [rewrite HT; reflexivity|].
    split_and!; [by vm_compute..|by left].
Qed.

Lemma newTwistPoint_Marshal g : g2_valid g → newTwistPoint (G2_Marshal g) = Ok g.
Proof.
  destruct g as [[x0 x1] [y0 y1]]. intros (H1 & H2 & H3 & H4 & HV). cbn [fst snd] in *.
  unfold newTwistPoint, G2_Unmarshal. rewrite length_G2_Marshal, decide_False by lia.
  rewrite (take_ge _ 128) by (rewrite length_G2_Marshal; lia).
  destruct HV as [[= -> -> -> ->]|[Hon Hsub]]; [vm_compute; reflexivity|].
  destruct (TestBytes (G2_Marshal _)) eqn:HT; cbn [negb]; unfold G2_Marshal in *.
  - change 96%nat with (32 + 64)%nat. rewrite <-(drop_drop _ 32 64).
    change 64%nat with (32 + 32)%nat. rewrite <-!(drop_drop _ 32 32).
    rewrite !drop32_be, !take32_be, (take_ge (be_bytes 32 y0)) by (rewrite length_be_bytes; lia).
    rewrite !canonical_be, Hon, Hsub by done. done.
  - apply TestBytes_app_be in HT as [-> HT]; [|by apply field_lt_256].
    apply TestBytes_app_be in HT as [-> HT]; [|by apply field_lt_256].
    apply TestBytes_app_be in HT as [-> HT]; [|by apply field_lt_256].
    rewrite <-(app_nil_r (be_bytes 32 y0)) in HT. apply TestBytes_app_be in HT as [-> _]; [|by apply field_lt_256]. done.
Qed.

(** ** The layout of the input *)

Definition word256 (z : Z) : Prop := 0 <= z < 256 ^ Z.of_nat 32.

Record input_ok (x : groth16_input) : Prop := {
  ok_A : g1_valid (proofA x); ok_B : g2_valid (proofB x); ok_C : g1_valid (proofC x);
  ok_alpha : g1_valid (vkAlpha x); ok_beta : g2_valid (vkBeta x);
  ok_gamma : g2_valid (vkGamma x); ok_delta : g2_valid (vkDelta x);
  ok_ic : Forall g1_valid (ic x); ok_inputs : Forall word256 (publicInputs x);
  ok_len : length (ic x) = S (length (publicInputs x))
}.

(** The bytes of a statement whose count word is [num]. *)
Definition encode (num : Z) (x : groth16_input) : bytes :=
  G1_Marshal (proofA x) ++ G2_Marshal (proofB x) ++ G1_Marshal (proofC x) ++
  G1_Marshal (vkAlpha x) ++ G2_Marshal (vkBeta x) ++ G2_Marshal (vkGamma x) ++ G2_Marshal (vkDelta x) ++
  be_bytes 32 num ++ mjoin (G1_Marshal <$> ic x) ++ mjoin (be_bytes 32 <$> publicInputs x).

Lemma join_cons {A} (f : A → bytes) x l : mjoin (f <$> x :: l) = f x ++ mjoin (f <$> l).
Proof. done. Qed.

(** Inside the input: the bytes of a slice, and what the loops read. *)
Definition chunk (offset n : nat) (input : bytes) : bytes := take n (drop offset input).

Fixpoint ic_at (count offset : nat) (input : bytes) : res bn_error (list G1) :=
  match count with
  | O => Ok []
  | S count => p ← newCurvePoint (chunk offset 64 input); ps ← ic_at count (offset + 64) input; Ok (p :: ps)
  end.

Fixpoint words_at (count offset : nat) (input : bytes) : list Z :=
  match count with
  | O => []
  | S count => SetBytes (chunk offset 32 input) :: words_at count (offset + 32) input
  end.

Lemma slice_chunk o n b : (o + n <= length b)%nat → slice o n b = Ok (chunk o n b).
Proof. intros Hl. unfold slice. by rewrite decide_True. Qed.

Lemma curve_point_chunk o b : (o + 64 <= length b)%nat → curve_point_at o b = newCurvePoint (chunk o 64 b).
Proof. intros Hl. unfold curve_point_at. by rewrite slice_chunk. Qed.

Lemma twist_point_chunk o b : (o + 128 <= length b)%nat → twist_point_at o b = newTwistPoint (chunk o 128 b).
Proof. intros Hl. unfold twist_point_at. by rewrite slice_chunk. Qed.

Lemma parse_ic_at n o b : (o + n * 64 <= length b)%nat → parse_ic n o b = ic_at n o b.
Proof.
  revert o. induction n as [|n IH]; intros o Hl; [done|]. cbn [parse_ic ic_at].
  by rewrite curve_point_chunk, IH by lia.
Qed.

Lemma parse_inputs_at n o b : (o + n * 32 <= length b)%nat → parse_inputs n o b = Ok (words_at n o b).
Proof.
  revert o. induction n as [|n IH]; intros o Hl; [done|]. cbn [parse_inputs words_at].
  rewrite slice_chunk, IH by lia. done.
Qed.

Lemma chunk_at pre mid post o n :
  length pre = o → length mid = n → chunk o n (pre ++ mid ++ post) = mid.
Proof. intros <- <-. unfold chunk. by rewrite drop_app_length, take_app_length. Qed.

Lemma drop_chunk o n (b : bytes) : drop o b = chunk o n b ++ drop (o + n) b.
Proof. unfold chunk. by rewrite <-drop_drop, take_drop. Qed.

Lemma length_chunk o n (b : bytes) : (o + n <= length b)%nat → length (chunk o n b) = n.
Proof. intros Hl. unfold chunk. rewrite length_take, length_drop. lia. Qed.

Lemma ic_at_inv n o b ps :
  (o + n * 64 <= length b)%nat → ic_at n o b = Ok ps →
  length ps = n ∧ Forall g1_valid ps ∧ drop o b = mjoin (G1_Marshal <$> ps) ++ drop (o + n * 64) b.
Proof.
  revert o ps. induction n as [|n IH]; intros o ps Hl; cbn [ic_at].
  - intros [= <-]. rewrite Nat.mul_0_l, Nat.add_0_r. by split_and!.
  - intros (p & Hp & Hps)%bind_Ok. apply bind_Ok in Hps as (ps' & Hps & [= <-]).
    apply newCurvePoint_inv in Hp as [Ep Hv]; [|apply length_chunk; lia].
    apply IH in Hps as (HL & HF & Hd); [|lia]. split_and!; [cbn; lia|by constructor|].
    rewrite join_cons, <-app_assoc, (drop_chunk o 64), Ep. f_equal.
    rewrite Hd. do 2 f_equal. lia.
Qed.

Lemma ic_at_join ps pre post :
  Forall g1_valid ps → ic_at (length ps) (length pre) (pre ++ mjoin (G1_Marshal <$> ps) ++ post) = Ok ps.
Proof.
  intros HF. revert pre. induction HF as [|p ps Hp HF IH]; intros pre; [done|]. cbn [length ic_at]. rewrite join_cons.
  rewrite <-(app_assoc (G1_Marshal p)). rewrite (chunk_at pre (G1_Marshal p)) by (done || apply length_G1_Marshal).
  rewrite newCurvePoint_Marshal by done. cbn [mbind res_bind].
  specialize (IH (pre ++ G1_Marshal p)). rewrite length_app, length_G1_Marshal, <-app_assoc in IH.
  by rewrite IH.
Qed.

Lemma words_at_inv n o b :
  (o + n * 32 <= length b)%nat →
  length (words_at n o b) = n ∧ Forall word256 (words_at n o b) ∧
  drop o b = mjoin (be_bytes 32 <$> words_at n o b) ++ drop (o + n * 32) b.
Proof.
  revert o. induction n as [|n IH]; intros o Hl; cbn [words_at].
  - rewrite Nat.mul_0_l, Nat.add_0_r. by split_and!.
  - destruct (IH (o + 32)%nat ltac:(lia)) as (HL & HF & Hd). pose proof (length_chunk o 32 b ltac:(lia)) as Hc.
    split_and!; [cbn; lia| |].
    + constructor; [|done]. unfold word256. pose proof (SetBytes_range (chunk o 32 b)) as Hr. by rewrite Hc in Hr.
    + rewrite join_cons, be32_SetBytes by done.
      rewrite <-app_assoc, (drop_chunk o 32). f_equal. rewrite Hd. do 2 f_equal. lia.
Qed.

Lemma words_at_join l pre post :
  Forall word256 l → words_at (length l) (length pre) (pre ++ mjoin (be_bytes 32 <$> l) ++ post) = l.
Proof.
  intros HF. revert pre. induction HF as [|z l Hz HF IH]; intros pre; [done|]. cbn [length words_at]. rewrite join_cons.
  rewrite <-(app_assoc (be_bytes 32 z)). rewrite (chunk_at pre (be_bytes 32 z)) by (done || apply length_be_bytes).
  rewrite SetBytes_be32 by done. f_equal.
  specialize (IH (pre ++ be_bytes 32 z)). rewrite length_app, length_be_bytes, <-app_assoc in IH. exact IH.
Qed.

Lemma length_join_const {A} (f : A → bytes) n (l : list A) :
  (∀ x, length (f x) = n) → length (mjoin (f <$> l)) = (length l * n)%nat.
Proof.
  intros Hf. induction l as [|x l IH]; [done|]. cbn [length].
  rewrite join_cons, length_app, Hf, IH. lia.
Qed.

Lemma length_encode num x :
  input_ok x → length (encode num x) = (736 + ((length (publicInputs x) + 1) * 64 + length (publicInputs x) * 32))%nat.
Proof.
  intros Hx. unfold encode. rewrite !length_app, !length_G1_Marshal, !length_G2_Marshal, length_be_bytes.
  rewrite (length_join_const _ 64) by apply length_G1_Marshal.
  rewrite (length_join_const _ 32) by apply length_be_bytes. rewrite (ok_len _ Hx). lia.
Qed.

(** The segments of an encoding, in order. *)
Definition segments (num : Z) (x : groth16_input) : list bytes :=
  [G1_Marshal (proofA x); G2_Marshal (proofB x); G1_Marshal (proofC x); G1_Marshal (vkAlpha x);
   G2_Marshal (vkBeta x); G2_Marshal (vkGamma x); G2_Marshal (vkDelta x); be_bytes 32 num;
   mjoin (G1_Marshal <$> ic x); mjoin (be_bytes 32 <$> publicInputs x)].

Lemma encode_segments num x : encode num x = mjoin (segments num x).
Proof. unfold encode, segments. cbn [mjoin list_join]. by rewrite app_nil_r. Qed.

(** The bytes before segment [k], and the segment itself. *)
Lemma join_split (l : list bytes) k seg :
  l !! k = Some seg → mjoin l = mjoin (take k l) ++ seg ++ mjoin (drop (S k) l).
Proof.
  intros Hk. rewrite <-(take_drop_middle l k seg Hk) at 1. by rewrite join_app.
Qed.

Lemma chunk_segment l k seg n :
  l !! k = Some seg → length seg = n → chunk (length (mjoin (take k l))) n (mjoin l) = seg.
Proof. intros Hk Hn. rewrite (join_split l k seg Hk). by apply chunk_at. Qed.

Lemma offset_segments num x k :
  (k <= 8)%nat → length (mjoin (take k (segments num x))) = nth k [0; 64; 192; 256; 320; 448; 576; 704; 736]%nat 0%nat.
Proof.
  intros Hk. do 9 (destruct k as [|k];
    [cbn [take segments mjoin list_join nth];
     rewrite ?length_app, ?length_G1_Marshal, ?length_G2_Marshal, ?length_be_bytes; reflexivity|]). lia.
Qed.

Lemma chunk_encode num x k seg n :
  (k <= 8)%nat → segments num x !! k = Some seg → length seg = n →
  chunk (nth k [0; 64; 192; 256; 320; 448; 576; 704; 736]%nat 0%nat) n (encode num x) = seg.
Proof.
  intros Hk Hs Hn. rewrite encode_segments, <-(offset_segments num x k Hk). by apply chunk_segment.
Qed.

Lemma ic_at_encode num x : input_ok x → ic_at (length (ic x)) 736 (encode num x) = Ok (ic x).
Proof.
  intros Hx. rewrite encode_segments, (join_split (segments num x) 8 (mjoin (G1_Marshal <$> ic x)) eq_refl).
  change 736%nat with (nth 8 [0; 64; 192; 256; 320; 448; 576; 704; 736]%nat 0%nat).
  rewrite <-(offset_segments num x 8) by lia. apply ic_at_join, (ok_ic _ Hx).
Qed.

Lemma words_at_encode num x :
  input_ok x →
  words_at (length (publicInputs x)) (736 + (length (publicInputs x) + 1) * 64) (encode num x) = publicInputs x.
Proof.
  intros Hx. rewrite encode_segments, (join_split (segments num x) 9 (mjoin (be_bytes 32 <$> publicInputs x)) eq_refl).
  assert (length (mjoin (take 9 (segments num x))) = (736 + (length (publicInputs x) + 1) * 64)%nat) as <-.
  { change (take 9 (segments num x)) with (take 8 (segments num x) ++ [mjoin (G1_Marshal <$> ic x)]).
    rewrite join_app, length_app, offset_segments by lia. cbn [mjoin list_join nth]. rewrite app_nil_r.
    rewrite (length_join_const _ 64) by apply length_G1_Marshal. rewrite (ok_len _ Hx). lia. }
  apply words_at_join, (ok_inputs _ Hx).
Qed.

(** The chunks that [parse] reads. *)
Lemma chunks_encode num x :
  let i := encode num x in
  chunk 0 64 i = G1_Marshal (proofA x) ∧ chunk 64 128 i = G2_Marshal (proofB x) ∧
  chunk 192 64 i = G1_Marshal (proofC x) ∧ chunk 256 64 i = G1_Marshal (vkAlpha x) ∧
  chunk 320 128 i = G2_Marshal (vkBeta x) ∧ chunk 448 128 i = G2_Marshal (vkGamma x) ∧
  chunk 576 128 i = G2_Marshal (vkDelta x) ∧ chunk 704 32 i = be_bytes 32 num.
Proof.
  pose proof (chunk_encode num x) as H1. pose proof length_G1_Marshal as L1. pose proof length_G2_Marshal as L2.
  exact (conj (H1 0%nat _ 64%nat ltac:(lia) eq_refl (L1 _)) (conj (H1 1%nat _ 128%nat ltac:(lia) eq_refl (L2 _))
    (conj (H1 2%nat _ 64%nat ltac:(lia) eq_refl (L1 _)) (conj (H1 3%nat _ 64%nat ltac:(lia) eq_refl (L1 _))
    (conj (H1 4%nat _ 128%nat ltac:(lia) eq_refl (L2 _)) (conj (H1 5%nat _ 128%nat ltac:(lia) eq_refl (L2 _))
    (conj (H1 6%nat _ 128%nat ltac:(lia) eq_refl (L2 _)) (H1 7%nat _ 32%nat ltac:(lia) eq_refl (length_be_bytes _ _))))))))).
Qed.

Lemma parse_encode num x :
  input_ok x → word256 num → i64 num = Z.of_nat (length (publicInputs x)) → (length (publicInputs x) <= 100)%nat →
  parse (encode num x) = Ok x.
Proof.
  intros Hx Hnum Hi Hmax. unfold parse. rewrite (length_encode num x Hx). rewrite decide_False by lia.
  pose proof Hx as [HA HB HC Hal Hbe Hga Hde Hic Hin Hlen].
  rewrite !curve_point_chunk, !twist_point_chunk, slice_chunk by (rewrite (length_encode num x Hx); lia).
  destruct (chunks_encode num x) as (-> & -> & -> & -> & -> & -> & -> & ->).
  rewrite !newCurvePoint_Marshal, !newTwistPoint_Marshal by done. cbn [mbind res_bind].
  repeat (rewrite ?newCurvePoint_Marshal, ?newTwistPoint_Marshal by done; cbn [mbind res_bind]).
  rewrite decide_False by lia. rewrite SetBytes_be32 by done.
  rewrite Hi. rewrite decide_False by lia. rewrite Nat2Z.id. rewrite decide_False by lia.
  replace (length (publicInputs x) + 1)%nat with (length (ic x)) at 1 by lia.
  rewrite parse_ic_at by (rewrite (length_encode num x Hx); lia). rewrite ic_at_encode by done. cbn [mbind res_bind].
  rewrite parse_inputs_at by (rewrite (length_encode num x Hx); lia). rewrite words_at_encode by done. by destruct x.
Qed.

(** Every accepted input is such an encoding. *)
Lemma parse_inv input x :
  parse input = Ok x →
  ∃ num, input = encode num x ∧ input_ok x ∧ word256 num ∧ i64 num = Z.of_nat (length (publicInputs x)) ∧
    (length (publicInputs x) <= 100)%nat.
Proof.
  unfold parse. destruct (decide (length input < 800)%nat) as [|Hl]; [done|].
  rewrite !curve_point_chunk, !twist_point_chunk, slice_chunk by lia.
  intros (a & Ha & H1)%bind_Ok. apply bind_Ok in H1 as (b & Hb & H1). apply bind_Ok in H1 as (c & Hc & H1).
  apply bind_Ok in H1 as (al & Hal & H1). apply bind_Ok in H1 as (be & Hbe & H1).
  apply bind_Ok in H1 as (ga & Hga & H1). apply bind_Ok in H1 as (de & Hde & H1).
  destruct (decide (length input < 704 + 32)%nat) as [|_]; [done|].
  cbn [mbind res_bind] in H1. cbv zeta in H1. set (num := SetBytes (chunk 704 32 input)) in *. set (n := Z.to_nat (i64 num)) in *.
  destruct (decide _) as [|Hn]; [done|]. destruct (decide _) as [|Hlen]; [done|].
  apply dec_stable in Hlen. rewrite parse_ic_at, parse_inputs_at in H1 by lia.
  apply bind_Ok in H1 as (ps & Hps & <-%Ok_inj).
  apply newCurvePoint_inv in Ha as [Ea Va], Hc as [Ec Vc], Hal as [Eal Val]; [|apply length_chunk; lia..].
  apply newTwistPoint_inv in Hb as [Eb Vb], Hbe as [Ebe Vbe], Hga as [Ega Vga], Hde as [Ede Vde]; [|apply length_chunk; lia..].
  apply ic_at_inv in Hps as (Lps & Vps & Hd1); [|lia].
  destruct (words_at_inv n (736 + (n + 1) * 64) input) as (Lin & Vin & Hd2); [lia|].
  rewrite (drop_ge input (736 + (n + 1) * 64 + n * 32)) in Hd2 by lia. rewrite app_nil_r in Hd2.
  pose proof (length_chunk 704 32 input ltac:(lia)) as Lnum.
  pose proof (SetBytes_range (chunk 704 32 input)) as Hnum. rewrite Lnum in Hnum.
  assert (i64 num = Z.of_nat n ∧ (n <= 100)%nat) as [Hi Hmax] by (unfold n; rewrite Z2Nat.id; lia).
  exists num. split_and!; [| |exact Hnum|change (i64 num = Z.of_nat (length (words_at n (736 + (n + 1) * 64) input))); by rewrite Lin
    |change (length (words_at n (736 + (n + 1) * 64) input) <= 100)%nat; by rewrite Lin].
  - unfold encode. cbn [proofA proofB proofC vkAlpha vkBeta vkGamma vkDelta ic publicInputs].
    rewrite <-Ea, <-Eb, <-Ec, <-Eal, <-Ebe, <-Ega, <-Ede, <-Hd2, <-Hd1. unfold num. rewrite be32_SetBytes by done.
    rewrite <-(drop_chunk 704 32), <-(drop_chunk 576 128), <-(drop_chunk 448 128), <-(drop_chunk 320 128),
      <-(drop_chunk 256 64), <-(drop_chunk 192 64), <-(drop_chunk 64 128), <-(drop_chunk 0 64). done.
  - constructor; try done. cbn [ic publicInputs]. rewrite Lin, Lps. lia.
Qed.

(** No slice is out of range: the parser answers or fails. *)
Lemma newCurvePoint_no_panic b : newCurvePoint b ≠ Panic.
Proof. unfold newCurvePoint, G1_Unmarshal. by repeat case_match. Qed.

Lemma newTwistPoint_no_panic b : newTwistPoint b ≠ Panic.
Proof. unfold newTwistPoint, G2_Unmarshal. by repeat case_match. Qed.

Lemma ic_at_no_panic n o b : ic_at n o b ≠ Panic.
Proof.
  revert o. induction n as [|n IH]; intros o; [done|]. cbn [ic_at].
  apply bind_no_panic; [apply newCurvePoint_no_panic|]. intros p. by apply bind_no_panic.
Qed.

Lemma parse_no_panic input : parse input ≠ Panic.
Proof.
  unfold parse. case_decide as Hl; [done|]. rewrite !curve_point_chunk, !twist_point_chunk, slice_chunk by lia.
  repeat (apply bind_no_panic; [apply newCurvePoint_no_panic || apply newTwistPoint_no_panic|intros ?]).
  case_decide; [done|]. cbn [mbind res_bind]. cbv zeta. case_decide; [done|]. case_decide as Hn; [done|].
  rewrite parse_ic_at, parse_inputs_at by lia. apply bind_no_panic; [apply ic_at_no_panic|done].
Qed.

(** ** The verifier *)

(** The accumulated input commitment IC[0] + sum of IC[i+1] * input[i]. *)
Definition vk_x (x : groth16_input) : G1 :=
  match ic x with
  | [] => (0, 0)
  | ic0 :: rest => foldl (λ acc ps, g1_Add acc (g1_ScalarMultiplication ps.1 ps.2)) ic0 (zip rest (publicInputs x))
  end.

Lemma accumulate_fold acc l ins :
  accumulate acc l ins = foldl (λ acc ps, g1_Add acc (g1_ScalarMultiplication ps.1 ps.2)) acc (zip l ins).
Proof. revert acc ins. induction l as [|p l IH]; intros acc [|z ins]; cbn; [done..|]. apply IH. Qed.

(** The Groth16 equation e(-A,B) e(alpha,beta) e(vk_x,gamma) e(C,delta) = 1. *)
Definition groth16_holds (x : groth16_input) : bool :=
  PairingCheck [g1_Neg (proofA x); vkAlpha x; vk_x x; proofC x] [proofB x; vkBeta x; vkGamma x; vkDelta x].

Lemma check_encoded x : input_ok x →
  groth16_check negate_encoded (λ p, snd (G1_Unmarshal (0, 0) (G1_Marshal p))) x = groth16_holds x.
Proof.
  intros Hx. unfold groth16_check, groth16_holds, vk_x. destruct (ok_A _ Hx) as (HA1 & HA2 & _).
  rewrite negate_encoded_Neg by done. pose proof (ok_ic _ Hx) as HF. destruct (ic x) as [|p l]; [done|].
  apply Forall_cons in HF as [(H1 & H2 & _) _]. by rewrite copy_encoded, accumulate_fold.
Qed.

Lemma check_patch x : groth16_check g1_Neg (λ p, p) x = groth16_holds x.
Proof.
  unfold groth16_check, groth16_holds, vk_x. destruct (ic x) as [|p l]; [done|]. by rewrite accumulate_fold.
Qed.

(** C1: the Groth16 precompile answers "valid" exactly on the encodings of true
    statements: [Run] returns the word 1 if and only if the input is, byte for byte, the
    documented layout of seven valid curve points, a count word whose low 64 bits are the
    number n <= 100 of public inputs, n+1 further valid points and n scalars, and the
    pairing equation e(-A,B) e(alpha,beta) e(IC0 + sum IC(i+1) input(i), gamma) e(C,delta) = 1
    holds; it returns the word 0 exactly when the layout is right and the equation fails,
    and an error on every other input, never a panic. *)
Theorem Groth16_Run_iff input :
  let layout num x := input = encode num x ∧ input_ok x ∧ word256 num ∧
    i64 num = Z.of_nat (length (publicInputs x)) ∧ (length (publicInputs x) <= 100)%nat in
  (Groth16_Run input = Ok true32Byte ↔ ∃ num x, layout num x ∧ groth16_holds x = true) ∧
  (Groth16_Run input = Ok false32Byte ↔ ∃ num x, layout num x ∧ groth16_holds x = false) ∧
  ((¬ ∃ num x, layout num x) → ∃ e, Groth16_Run input = Err e).
Proof.
  cbv zeta. unfold Groth16_Run.
  assert (∀ num x, input = encode num x ∧ input_ok x ∧ word256 num ∧
    i64 num = Z.of_nat (length (publicInputs x)) ∧ (length (publicInputs x) <= 100)%nat → parse input = Ok x) as Hp
    by (intros num x (-> & Hx & Hnum & Hi & Hmax); by apply parse_encode).
  assert (true32Byte ≠ false32Byte) as Hne by (vm_compute; congruence).
  destruct (parse input) as [x|err|] eqn:E; cbn [mbind res_bind]; [| |by destruct (parse_no_panic input)].
  2: { split_and!; [split; [done|]..|by exists err]; intros (num & x & Hl & _); by apply Hp in Hl. }
  destruct (parse_inv _ _ E) as (num & Hl). pose proof Hl as (_ & Hx & _). rewrite check_encoded by done.
  split_and!; [split..|].
  - destruct (groth16_holds x) eqn:Hh; [by exists num, x|]. intros Hf%Ok_inj. by symmetry in Hf.
  - intros (num' & x' & Hl' & Hh). apply Hp in Hl'. injection Hl' as <-. by rewrite Hh.
  - destruct (groth16_holds x) eqn:Hh; [|by exists num, x]. intros Hf%Ok_inj. done.
  - intros (num' & x' & Hl' & Hh). apply Hp in Hl'. injection Hl' as <-. by rewrite Hh.
  - intros Hno. exfalso. apply Hno. by exists num, x.
Qed.

(** the two versions of the precompile agree: negating A by rewriting the ordinate in
    its encoding and re-reading it, with the read error ignored, gives the same answer on
    every input as the group negation of the patch file, including for a proof whose A is
    the point at infinity. *)
Theorem Groth16_versions_agree input : Groth16_Run input = Groth16_Run_patch input.
Proof.
  unfold Groth16_Run, Groth16_Run_patch. destruct (parse input) as [x| |] eqn:E; cbn [mbind res_bind]; [|done..].
  destruct (parse_inv _ _ E) as (num & _ & Hx & _). by rewrite check_encoded, check_patch.
Qed.

(** only the low 64 bits of the count word matter: the input with count word
    n + k * 2^64 is accepted and answered like the one with count word n, so a statement
    has many encodings and the documented maximum of 100 does not bound the word. *)
Theorem Groth16_count_truncated x k :
  input_ok x → (length (publicInputs x) <= 100)%nat → 0 <= k < 2 ^ 192 →
  let n := Z.of_nat (length (publicInputs x)) in
  Groth16_Run (encode (n + k * two64) x) = Groth16_Run (encode n x) ∧
  Groth16_Run (encode n x) = Ok (if groth16_holds x then true32Byte else false32Byte) ∧
  (k ≠ 0 → encode (n + k * two64) x ≠ encode n x).
Proof.
  intros Hx Hmax Hk. cbv zeta. set (n := Z.of_nat (length (publicInputs x))).
  assert (0 <= n <= 100) as Hn by (unfold n; lia).
  assert (256 ^ Z.of_nat 32 = two64 * 2 ^ 192) as HP by reflexivity.
  assert (word256 n) as Hw by (unfold word256; rewrite HP, two64_val; lia).
  assert (word256 (n + k * two64)) as Hwk by (unfold word256; rewrite HP, two64_val; nia).
  assert (i64 n = n) as Hi by (apply i64_small; rewrite two63_val; lia).
  assert (i64 (n + k * two64) = n) as Hik.
  { rewrite <-Hi at 2. unfold i64. f_equal. rewrite <-(Z_mod_plus_full (n + two63) k two64). f_equal. lia. }
  unfold Groth16_Run. rewrite (parse_encode n x Hx Hw Hi Hmax), (parse_encode _ x Hx Hwk Hik Hmax).
  cbn [mbind res_bind]. rewrite check_encoded by done. split_and!; [done..|].
  intros Hk0 E. assert (SetBytes (be_bytes 32 (n + k * two64)) = SetBytes (be_bytes 32 n)) as E2.
  { rewrite !encode_segments in E. rewrite !(join_split (segments _ x) 7 _ eq_refl) in E.
    apply app_inj_1 in E as [_ E]; [|done]. apply app_inj_1 in E as [E _]; [by rewrite E|by rewrite !length_be_bytes]. }
  rewrite !SetBytes_be32 in E2 by done. rewrite two64_val in E2. lia.
Qed.
End bn256.

(** ** A concrete instance *)

Module Demo.

Definition P : Z := fieldModulus.

Fixpoint powmod (b : Z) (e : positive) : Z :=
  match e with
  | xH => b mod P
  | xO e => let r := powmod b e in r * r mod P
  | xI e => let r := powmod b e in (r * r mod P) * b mod P
  end.

Definition inv (a : Z) : Z := powmod a (Z.to_pos (P - 2)).

Definition on_curve (p : G1) : bool := bool_decide ((snd p * snd p) mod P = (fst p * fst p * fst p + 3) mod P).

(** The affine group law of y^2 = x^3 + 3, with (0,0) at infinity. *)
Definition add (p q : G1) : G1 :=
  if decide (p = (0, 0)) then q
  else if decide (q = (0, 0)) then p
  else
    let slope :=
      if decide (fst p = fst q) then
        if decide ((snd p + snd q) mod P = 0) then None
        else Some (3 * fst p * fst p * inv (2 * snd p) mod P)
      else Some ((snd q - snd p) * inv (fst q - fst p) mod P) in
    match slope with
    | None => (0, 0)
    | Some l => let x := (l * l - fst p - fst q) mod P in (x, (l * (fst p - x) - snd p) mod P)
    end.

Fixpoint mul_pos (p : G1) (k : positive) : G1 :=
  match k with
  | xH => p
  | xO k => let r := mul_pos p k in add r r
  | xI k => let r := mul_pos p k in add (add r r) p
  end.

Definition mul (p : G1) (k : Z) : G1 := match k with Zpos k => mul_pos p k | _ => (0, 0) end.

(** The pairing on points at infinity, where it is 1 whatever the second argument;
    elsewhere this instance gives no answer. *)
#[global] Instance bn254 : Bn254 := {|
  SetBytesCanonical := λ b, if decide (SetBytes b < fieldModulus) then Some (SetBytes b) else None;
  g1_IsOnCurve := on_curve;
  g1_IsInSubGroup := λ _, true;
  g1_Add := add;
  g1_ScalarMultiplication := mul;
  g1_Neg := λ p, (fst p, (fieldModulus - snd p) mod fieldModulus);
  g2_IsOnCurve := λ _, false;
  g2_IsInSubGroup := λ _, false;
  bn254_PairingCheck := λ a b, if decide (Forall (λ p, p = (0, 0)) a) then Some true else None
|}.

#[global] Instance bn254_laws : Bn254Laws.
Proof. split; done. Qed.

(** A statement with one public input: A, C, alpha at infinity; IC0 = G, IC1 = -G, input 1. *)
Definition G : G1 := (1, 2).

Definition statement : groth16_input :=
  MkInput (0, 0) ((0, 0), (0, 0)) (0, 0) (0, 0) ((0, 0), (0, 0)) ((0, 0), (0, 0)) ((0, 0), (0, 0))
    [G; (1, P - 2)] [1].

Lemma statement_ok : input_ok statement.
Proof.
  assert (∀ p : G1, bool_decide (0 <= fst p < fieldModulus ∧ 0 <= snd p < fieldModulus) = true →
    on_curve p = true → g1_valid p) as Hv.
  { intros p [H1 H2]%bool_decide_eq_true H3. split_and!; [done..|]. right. by split. }
  assert (g1_valid (0, 0)) as H0 by (split_and!; [by vm_compute..|by left]).
  assert (g2_valid ((0, 0), (0, 0))) as H2 by (split_and!; [by vm_compute..|by left]).
  constructor; try done.
  - repeat constructor; apply Hv; vm_compute; reflexivity.
  - repeat constructor; vm_compute; congruence.
Qed.
End Demo.

Lemma Groth16_Run_iff_witness :
  Groth16_Run (encode 1 Demo.statement) = Ok true32Byte.
Proof.
  apply (Groth16_Run_iff (encode 1 Demo.statement)). exists 1, Demo.statement. split; [|vm_compute; reflexivity].
  split; [reflexivity|]. split; [apply Demo.statement_ok|]. split; [vm_compute; split; congruence|].
  split; [vm_compute; reflexivity|vm_compute; lia].
Defined.

Lemma Groth16_versions_agree_witness :
  Groth16_Run_patch (encode 1 Demo.statement) = Ok true32Byte.
Proof. rewrite <-(Groth16_versions_agree (encode 1 Demo.statement)). vm_compute. reflexivity. Defined.

Lemma Groth16_count_truncated_witness :
  Groth16_Run (encode (1 + 5 * two64) Demo.statement) = Groth16_Run (encode 1 Demo.statement) ∧
  encode (1 + 5 * two64) Demo.statement ≠ encode 1 Demo.statement.
Proof.
  destruct (Groth16_count_truncated Demo.statement 5 Demo.statement_ok) as (H1 & _ & H2);
    [vm_compute; lia|vm_compute; split; congruence|].
  exact (conj H1 (H2 ltac:(discriminate))).
Defined.
