(* ===== verification/Transactions.v ===== *)
(** * Transactions and their signatures

    [core/types/transaction.go], the five transaction types ([tx_legacy.go],
    [tx_access_list.go], [tx_dynamic_fee.go], [tx_blob.go], [tx_setcode.go]), the
    signers of [transaction_signing.go] and the key functions of [crypto/crypto.go]
    that the committer uses. A [*big.Int] or [*uint256.Int] of a transaction is an
    integer: the constructors and decoders of the package never leave one nil. The
    secp256k1 library (C code) is an interface with laws. *)
From Stdlib Require Import ZArith Lia.
From Stdlib Require Strings.Byte.
From stdpp Require Import base tactics decidable countable list numbers.
From S2P Require Import Prelude Keccak Common Rlp Types Lru Seal.

(** ** Transaction data *)

Record AccessTuple : Type := MkAccessTuple {
  at_Address : Address;
  at_StorageKeys : list Hash
}.

Record SetCodeAuthorization : Type := MkAuth {
  au_ChainID : Z;
  au_Address : Address;
  au_Nonce : Z;
  au_V : Z;
  au_R : Z;
  au_S : Z
}.

Record BlobTxSidecar : Type := MkSidecar {
  sc_Version : byte;
  sc_Blobs : list bytes;
  sc_Commitments : list bytes;
  sc_Proofs : list bytes
}.

Inductive TxData : Type :=
| LegacyTx (Nonce GasPrice Gas : Z) (To : option Address) (Value : Z) (Data : bytes) (V R S : Z)
| AccessListTx (ChainID Nonce GasPrice Gas : Z) (To : option Address) (Value : Z) (Data : bytes)
    (AccessList : list AccessTuple) (V R S : Z)
| DynamicFeeTx (ChainID Nonce GasTipCap GasFeeCap Gas : Z) (To : option Address) (Value : Z) (Data : bytes)
    (AccessList : list AccessTuple) (V R S : Z)
| BlobTx (ChainID Nonce GasTipCap GasFeeCap Gas : Z) (To : Address) (Value : Z) (Data : bytes)
    (AccessList : list AccessTuple) (BlobFeeCap : Z) (BlobHashes : list Hash)
    (Sidecar : option BlobTxSidecar) (V R S : Z)
| SetCodeTx (ChainID Nonce GasTipCap GasFeeCap Gas : Z) (To : Address) (Value : Z) (Data : bytes)
    (AccessList : list AccessTuple) (AuthList : list SetCodeAuthorization) (V R S : Z).

Definition LegacyTxType : Z := 0.
Definition AccessListTxType : Z := 1.
Definition DynamicFeeTxType : Z := 2.
Definition BlobTxType : Z := 3.
Definition SetCodeTxType : Z := 4.

Definition txType (tx : TxData) : Z :=
  match tx with
  | LegacyTx _ _ _ _ _ _ _ _ _ => LegacyTxType
  | AccessListTx _ _ _ _ _ _ _ _ _ _ _ => AccessListTxType
  | DynamicFeeTx _ _ _ _ _ _ _ _ _ _ _ _ => DynamicFeeTxType
  | BlobTx _ _ _ _ _ _ _ _ _ _ _ _ _ _ _ => BlobTxType
  | SetCodeTx _ _ _ _ _ _ _ _ _ _ _ _ _ => SetCodeTxType
  end.

(** [deriveChainId]: the chain id in the V value of a legacy signature. *)
Definition deriveChainId (v : Z) : Z :=
  if decide (BitLen v <= 64) then
    let v := u64 (Z.abs v) in
    if decide (v = 27 ∨ v = 28) then 0 else u64 (v - 35) / 2
  else Z.shiftr (v - 35) 1.

Definition isProtectedV (V : Z) : bool :=
  if decide (BitLen V <= 8) then
    let v := u64 (Z.abs V) in
    bool_decide (v ≠ 27) && bool_decide (v ≠ 28) && bool_decide (v ≠ 1) && bool_decide (v ≠ 0)
  else true.

Definition tx_chainID (tx : TxData) : Z :=
  match tx with
  | LegacyTx _ _ _ _ _ _ V _ _ => deriveChainId V
  | AccessListTx c _ _ _ _ _ _ _ _ _ _ => c
  | DynamicFeeTx c _ _ _ _ _ _ _ _ _ _ _ => c
  | BlobTx c _ _ _ _ _ _ _ _ _ _ _ _ _ _ => c
  | SetCodeTx c _ _ _ _ _ _ _ _ _ _ _ _ => c
  end.

Definition tx_Nonce (tx : TxData) : Z :=
  match tx with
  | LegacyTx n _ _ _ _ _ _ _ _ => n
  | AccessListTx _ n _ _ _ _ _ _ _ _ _ => n
  | DynamicFeeTx _ n _ _ _ _ _ _ _ _ _ _ => n
  | BlobTx _ n _ _ _ _ _ _ _ _ _ _ _ _ _ => n
  | SetCodeTx _ n _ _ _ _ _ _ _ _ _ _ _ => n
  end.

(** [gasPrice]: the fee cap for the types with a dynamic fee. *)
Definition tx_GasPrice (tx : TxData) : Z :=
  match tx with
  | LegacyTx _ p _ _ _ _ _ _ _ => p
  | AccessListTx _ _ p _ _ _ _ _ _ _ _ => p
  | DynamicFeeTx _ _ _ p _ _ _ _ _ _ _ _ => p
  | BlobTx _ _ _ p _ _ _ _ _ _ _ _ _ _ _ => p
  | SetCodeTx _ _ _ p _ _ _ _ _ _ _ _ _ => p
  end.

Definition tx_Gas (tx : TxData) : Z :=
  match tx with
  | LegacyTx _ _ g _ _ _ _ _ _ => g
  | AccessListTx _ _ _ g _ _ _ _ _ _ _ => g
  | DynamicFeeTx _ _ _ _ g _ _ _ _ _ _ _ => g
  | BlobTx _ _ _ _ g _ _ _ _ _ _ _ _ _ _ => g
  | SetCodeTx _ _ _ _ g _ _ _ _ _ _ _ _ => g
  end.

Definition tx_To (tx : TxData) : option Address :=
  match tx with
  | LegacyTx _ _ _ t _ _ _ _ _ => t
  | AccessListTx _ _ _ _ t _ _ _ _ _ _ => t
  | DynamicFeeTx _ _ _ _ _ t _ _ _ _ _ _ => t
  | BlobTx _ _ _ _ _ t _ _ _ _ _ _ _ _ _ => Some t
  | SetCodeTx _ _ _ _ _ t _ _ _ _ _ _ _ => Some t
  end.

Definition tx_Value (tx : TxData) : Z :=
  match tx with
  | LegacyTx _ _ _ _ v _ _ _ _ => v
  | AccessListTx _ _ _ _ _ v _ _ _ _ _ => v
  | DynamicFeeTx _ _ _ _ _ _ v _ _ _ _ _ => v
  | BlobTx _ _ _ _ _ _ v _ _ _ _ _ _ _ _ => v
  | SetCodeTx _ _ _ _ _ _ v _ _ _ _ _ _ => v
  end.

Definition tx_Data (tx : TxData) : bytes :=
  match tx with
  | LegacyTx _ _ _ _ _ d _ _ _ => d
  | AccessListTx _ _ _ _ _ _ d _ _ _ _ => d
  | DynamicFeeTx _ _ _ _ _ _ _ d _ _ _ _ => d
  | BlobTx _ _ _ _ _ _ _ d _ _ _ _ _ _ _ => d
  | SetCodeTx _ _ _ _ _ _ _ d _ _ _ _ _ => d
  end.

(** [RawSignatureValues]: V, R and S. *)
Definition RawSignatureValues (tx : TxData) : Z * Z * Z :=
  match tx with
  | LegacyTx _ _ _ _ _ _ v r s => (v, r, s)
  | AccessListTx _ _ _ _ _ _ _ _ v r s => (v, r, s)
  | DynamicFeeTx _ _ _ _ _ _ _ _ _ v r s => (v, r, s)
  | BlobTx _ _ _ _ _ _ _ _ _ _ _ _ v r s => (v, r, s)
  | SetCodeTx _ _ _ _ _ _ _ _ _ _ v r s => (v, r, s)
  end.

(** Reduction to 256 bits, as [uint256.Int.SetFromBig] does. *)
Definition u256 (z : Z) : Z := z mod 2 ^ 256.

(** [setSignatureValues]: the set-code type converts its chain id with [MustFromBig],
    which panics when it does not fit. *)
Definition setSignatureValues {E} (chainID v r s : Z) (tx : TxData) : res E TxData :=
  match tx with
  | LegacyTx n p g t x d _ _ _ => Ok (LegacyTx n p g t x d v r s)
  | AccessListTx _ n p g t x d al _ _ _ => Ok (AccessListTx chainID n p g t x d al v r s)
  | DynamicFeeTx _ n tip p g t x d al _ _ _ => Ok (DynamicFeeTx chainID n tip p g t x d al v r s)
  | BlobTx _ n tip p g t x d al bf bh sc _ _ _ =>
      Ok (BlobTx (u256 chainID) n tip p g t x d al bf bh sc (u256 v) (u256 r) (u256 s))
  | SetCodeTx _ n tip p g t x d al au _ _ _ =>
      if decide (0 <= chainID < 2 ^ 256)
      then Ok (SetCodeTx chainID n tip p g t x d al au (u256 v) (u256 r) (u256 s))
      else Panic
  end.

(** [NewTransaction]: a legacy transaction; [copy] sets the nil signature to zero. *)
Definition NewTransaction (nonce : Z) (to : Address) (amount gasLimit gasPrice : Z) (data : bytes) : TxData :=
  LegacyTx nonce gasPrice gasLimit (Some to) amount data 0 0 0.

Definition Protected (tx : TxData) : bool :=
  match tx with LegacyTx _ _ _ _ _ _ V _ _ => isProtectedV V | _ => true end.

(** ** Signature hashes *)

(** A [*big.Int] in a list to encode; negative is an error. *)
Definition big_item (z : Z) : res rlp_error item :=
  if decide (z < 0) then Err ErrNegativeBigInt else Ok (Str (big_Bytes z)).

Definition num_item (i : Z) : res rlp_error item := Ok (enc_num i).
Definition str_item (b : bytes) : res rlp_error item := Ok (Str b).

(** A nil [*common.Address] is the empty string. *)
Definition to_item (t : option Address) : res rlp_error item := Ok (enc_opt t).

Definition access_item (al : list AccessTuple) : res rlp_error item :=
  Ok (Lst ((λ t, Lst [Str (at_Address t); Lst (Str <$> at_StorageKeys t)]) <$> al)).

Definition auth_item (l : list SetCodeAuthorization) : res rlp_error item :=
  Ok (Lst ((λ a, Lst [enc_num (au_ChainID a); Str (au_Address a); enc_num (au_Nonce a);
                      enc_num (au_V a); enc_num (au_R a); enc_num (au_S a)]) <$> l)).

Definition hashes_item (l : list Hash) : res rlp_error item := Ok (Lst (Str <$> l)).

(** [rlp.Encode] of a slice of values. *)
Definition encode_any (l : list (res rlp_error item)) : res rlp_error bytes :=
  items ← mapM id l;
  Ok (EncodeToBytes (Lst items)).

Definition prefixedRlpHash (prefix : Z) (encoded : res rlp_error bytes) : Hash :=
  Keccak256 [[z2b prefix]; match encoded with Ok b => b | _ => [] end].

Definition sigHash (chainID : Z) (tx : TxData) : Hash :=
  match tx with
  | LegacyTx n p g t x d _ _ _ =>
      rlpHash (encode_any [num_item n; big_item p; num_item g; to_item t; big_item x; str_item d;
                           big_item chainID; num_item 0; num_item 0])
  | AccessListTx _ n p g t x d al _ _ _ =>
      prefixedRlpHash AccessListTxType
        (encode_any [big_item chainID; num_item n; big_item p; num_item g; to_item t; big_item x;
                     str_item d; access_item al])
  | DynamicFeeTx _ n tip p g t x d al _ _ _ =>
      prefixedRlpHash DynamicFeeTxType
        (encode_any [big_item chainID; num_item n; big_item tip; big_item p; num_item g; to_item t;
                     big_item x; str_item d; access_item al])
  | BlobTx _ n tip p g t x d al bf bh _ _ _ _ =>
      prefixedRlpHash BlobTxType
        (encode_any [big_item chainID; num_item n; num_item tip; num_item p; num_item g; str_item t;
                     num_item x; str_item d; access_item al; num_item bf; hashes_item bh])
  | SetCodeTx _ n tip p g t x d al au _ _ _ =>
      prefixedRlpHash SetCodeTxType
        (encode_any [big_item chainID; num_item n; num_item tip; num_item p; num_item g; str_item t;
                     num_item x; str_item d; access_item al; auth_item au])
  end.

(** The hash of the Frontier and Homestead rules, without a chain id. *)
Definition Frontier_Hash (tx : TxData) : Hash :=
  rlpHash (encode_any [num_item (tx_Nonce tx); big_item (tx_GasPrice tx); num_item (tx_Gas tx);
                       to_item (tx_To tx); big_item (tx_Value tx); str_item (tx_Data tx)]).

(** ** Errors and keys *)

Inductive tx_error : Type :=
| ErrInvalidSig | ErrTxTypeNotSupported | ErrInvalidChainId | ErrSignatureSize
| ErrInvalidPublicKey | ErrDigestLength | ErrInvalidKey | ErrSignFailed
| ErrHexCharacter | ErrHexLength | ErrKeyLength | ErrKeyTooLarge | ErrKeyZero | ErrKeyPoint
| ErrRecover (e : clique_error).

(** The order of the group and its half. *)
Definition secp256k1N : Z := 0xFFFFFFFFFFFFFFFFFFFFFFFFFFFFFFFEBAAEDCE6AF48A03BBFD25E8CD0364141.
Definition secp256k1halfN : Z := secp256k1N / 2.

(** What Go code calls in the secp256k1 library. *)
Class Secp256k1 : Type := {
  (** [secp256k1_ext_ecdsa_recover sig msg]: the 65-byte public key *)
  ext_recover : bytes → bytes → option bytes;
  (** [secp256k1_ecdsa_sign_recoverable msg key] in the 65-byte form *)
  ext_sign : bytes → bytes → option bytes;
  (** [secp256k1_ec_seckey_verify key] *)
  ext_seckey_verify : bytes → bool;
  (** [secp256k1_ext_scalar_mul] of the base point *)
  ext_base_mul : bytes → option (Z * Z)
}.

(** A private key: the scalar and the coordinates of its public point. *)
Record PrivateKey : Type := MkKey {
  D : Z;
  PubX : Z;
  PubY : Z
}.

(** [PaddedBigBytes]. *)
Definition PaddedBigBytes (bigint : Z) (n : nat) : bytes :=
  if decide (Z.of_nat n <= BitLen bigint / 8) then big_Bytes bigint else ReadBits bigint n.

(** [BitCurve.Marshal]: the uncompressed form of a point. *)
Definition Marshal (x y : Z) : bytes := Byte.x04 :: ReadBits x 32 ++ ReadBits y 32.

Definition PubkeyToAddress (prv : PrivateKey) : Address :=
  let pubBytes := Marshal (PubX prv) (PubY prv) in
  BytesToAddress (drop 12 (Keccak256 [drop 1 pubBytes])).

Definition ValidateSignatureValues (v : byte) (r s : Z) (homestead : bool) : bool :=
  if decide (r < 1 ∨ s < 1) then false
  else if homestead && bool_decide (secp256k1halfN < s) then false
  else bool_decide (r < secp256k1N) && bool_decide (s < secp256k1N) &&
       (bool_decide (v = Byte.x00) || bool_decide (v = Byte.x01)).

Section signing.
Context `{Secp256k1}.

(** [toECDSA d true]. *)
Definition ToECDSA (d : bytes) : res tx_error PrivateKey :=
  if decide (8 * Z.of_nat (length d) ≠ 256) then Err ErrKeyLength
  else
    let k := SetBytes d in
    if decide (secp256k1N <= k) then Err ErrKeyTooLarge
    else if decide (k <= 0) then Err ErrKeyZero
    else match ext_base_mul d with None => Err ErrKeyPoint | Some (x, y) => Ok (MkKey k x y) end.

(** [HexToECDSA]: [hex.DecodeString] reports the first bad character, then an odd length. *)
Definition HexToECDSA (hexkey : bytes) : res tx_error PrivateKey :=
  if negb (forallb isHexCharacter hexkey) then Err ErrHexCharacter
  else if decide (length hexkey mod 2 = 1)%nat then Err ErrHexLength
  else ToECDSA (Hex2Bytes hexkey).

(** [crypto.Sign] and [secp256k1.Sign]. *)
Definition secp256k1_Sign (msg seckey : bytes) : res tx_error bytes :=
  if decide (length msg ≠ 32%nat) then Err ErrDigestLength
  else if decide (length seckey ≠ 32%nat) then Err ErrInvalidKey
  else if negb (ext_seckey_verify seckey) then Err ErrInvalidKey
  else match ext_sign msg seckey with None => Err ErrSignFailed | Some sig => Ok sig end.

Definition Sign (digestHash : bytes) (prv : PrivateKey) : res tx_error bytes :=
  if decide (length digestHash ≠ 32%nat) then Err ErrDigestLength
  else secp256k1_Sign digestHash (PaddedBigBytes (D prv) 32).

(** ** Signers *)

(** A set of transaction types, two 64-bit words. *)
Definition txtypeSet : Type := Z * Z.

Definition txtypeSet_set (t : Z) (v : txtypeSet) : txtypeSet :=
  if decide (t / 64 = 0)
  then (Z.lor (fst v) (u64 (Z.shiftl 1 (t mod 64))), snd v)
  else (fst v, Z.lor (snd v) (u64 (Z.shiftl 1 (t mod 64)))).

Definition txtypeSet_has (t : Z) (v : txtypeSet) : bool :=
  if decide (2 * 64 <= t) then false
  else
    let word := if decide (t / 64 = 0) then fst v else snd v in
    bool_decide (Z.land word (u64 (Z.shiftl 1 (t mod 64))) ≠ 0).

Inductive Signer : Type :=
| FrontierSigner
| HomesteadSigner
| EIP155Signer (chainId : Z)
| modernSigner (txtypes : txtypeSet) (chainID : Z) (legacy : Signer).

#[export] Instance Signer_eq_dec : EqDecision Signer.
Proof. solve_decision. Defined.

(** Network upgrades, numbered as in [params/forks]. *)
Definition Homestead : Z := 2.
Definition SpuriousDragon : Z := 5.
Definition Berlin : Z := 11.
Definition London : Z := 12.
Definition Cancun : Z := 17.
Definition Prague : Z := 18.

Definition NewEIP155Signer (chainId : option Z) : Signer := EIP155Signer (default 0 chainId).

Definition newModernSigner {E} (chainID : option Z) (fork : Z) : res E Signer :=
  match chainID with
  | None => Panic
  | Some c =>
      if decide (c <= 0) then Panic
      else
        let legacy :=
          if decide (SpuriousDragon <= fork) then NewEIP155Signer (Some c)
          else if decide (Homestead <= fork) then HomesteadSigner else FrontierSigner in
        let t := txtypeSet_set LegacyTxType (0, 0) in
        let t := if decide (Berlin <= fork) then txtypeSet_set AccessListTxType t else t in
        let t := if decide (London <= fork) then txtypeSet_set DynamicFeeTxType t else t in
        let t := if decide (Cancun <= fork) then txtypeSet_set BlobTxType t else t in
        let t := if decide (Prague <= fork) then txtypeSet_set SetCodeTxType t else t in
        Ok (modernSigner t c legacy)
  end.

Definition NewPragueSigner {E} (chainId : option Z) : res E Signer := newModernSigner chainId Prague.

Definition LatestSignerForChainID {E} (chainID : option Z) : res E Signer :=
  match chainID with Some c => NewPragueSigner (Some c) | None => Ok HomesteadSigner end.

Definition Signer_ChainID (s : Signer) : option Z :=
  match s with
  | FrontierSigner | HomesteadSigner => None
  | EIP155Signer c => Some c
  | modernSigner _ c _ => Some c
  end.

(** [Equal]: a type test and the comparison of the fields. *)
Fixpoint Signer_Equal (s s2 : Signer) : bool :=
  match s, s2 with
  | FrontierSigner, FrontierSigner => true
  | HomesteadSigner, HomesteadSigner => true
  | EIP155Signer c, EIP155Signer c2 => bool_decide (c2 = c)
  | modernSigner t c l, modernSigner t2 c2 l2 =>
      bool_decide (c = c2) && bool_decide (t = t2) && Signer_Equal l l2
  | _, _ => false
  end.

Definition Signer_Hash (s : Signer) (tx : TxData) : Hash :=
  match s with
  | FrontierSigner | HomesteadSigner => Frontier_Hash tx
  | EIP155Signer c => sigHash c tx
  | modernSigner _ c _ => sigHash c tx
  end.

Definition decodeSignature (sig : bytes) : res tx_error (Z * Z * Z) :=
  if decide (length sig ≠ SignatureLength) then Err ErrSignatureSize
  else
    let r := SetBytes (take 32 sig) in
    let s := SetBytes (take 32 (drop 32 sig)) in
    let v := SetBytes [z2b (b2z (nth 64 sig Byte.x00) + 27)] in
    Ok (r, s, v).

(** [SignatureValues]: R, S and V. *)
Fixpoint SignatureValues (signer : Signer) (tx : TxData) (sig : bytes) : res tx_error (Z * Z * Z) :=
  match signer with
  | FrontierSigner | HomesteadSigner =>
      if decide (txType tx ≠ LegacyTxType) then Err ErrTxTypeNotSupported else decodeSignature sig
  | EIP155Signer chainId =>
      if decide (txType tx ≠ LegacyTxType) then Err ErrTxTypeNotSupported
      else
        '(R, S', V) ← decodeSignature sig;
        Ok (R, S',
            if decide (chainId ≠ 0) then b2z (z2b (b2z (nth 64 sig Byte.x00) + 35)) + chainId + chainId else V)
  | modernSigner txtypes chainID legacy =>
      if negb (txtypeSet_has (txType tx) txtypes) then Err ErrTxTypeNotSupported
      else if decide (txType tx = LegacyTxType) then SignatureValues legacy tx sig
      else if decide (tx_chainID tx ≠ 0 ∧ tx_chainID tx ≠ chainID) then Err ErrInvalidChainId
      else
        '(R, S', _) ← decodeSignature sig;
        Ok (R, S', b2z (nth 64 sig Byte.x00))
  end.

Definition recoverPlain (sighash : Hash) (R S Vb : Z) (homestead : bool) : res tx_error Address :=
  if decide (8 < BitLen Vb) then Err ErrInvalidSig
  else
    let V := z2b (u64 (u64 (Z.abs Vb) - 27)) in
    if negb (ValidateSignatureValues V R S homestead) then Err ErrInvalidSig
    else
      let r := big_Bytes R in
      let s := big_Bytes S in
      if decide (32 < length r ∨ 32 < length s)%nat then Panic
      else
        let sig := replicate (32 - length r) Byte.x00 ++ r ++ replicate (32 - length s) Byte.x00 ++ s ++ [V] in
        match Ecrecover ext_recover sighash sig with
        | Ok pub =>
            match pub with
            | Byte.x04 :: point => Ok (drop 12 (Keccak256 [point]))
            | _ => Err ErrInvalidPublicKey
            end
        | Err e => Err (ErrRecover e)
        | Panic => Panic
        end.

(** The [Sender] method of each signer. *)
Fixpoint Signer_Sender (signer : Signer) (tx : TxData) : res tx_error Address :=
  let '(V, R, S') := RawSignatureValues tx in
  match signer with
  | FrontierSigner =>
      if decide (txType tx ≠ LegacyTxType) then Err ErrTxTypeNotSupported
      else recoverPlain (Frontier_Hash tx) R S' V false
  | HomesteadSigner =>
      if decide (txType tx ≠ LegacyTxType) then Err ErrTxTypeNotSupported
      else recoverPlain (Frontier_Hash tx) R S' V true
  | EIP155Signer chainId =>
      if decide (txType tx ≠ LegacyTxType) then Err ErrTxTypeNotSupported
      else if negb (Protected tx) then recoverPlain (Frontier_Hash tx) R S' V true
      else if decide (tx_chainID tx ≠ chainId) then Err ErrInvalidChainId
      else recoverPlain (sigHash chainId tx) R S' (V - chainId - chainId - 8) true
  | modernSigner txtypes chainID legacy =>
      if negb (txtypeSet_has (txType tx) txtypes) then Err ErrTxTypeNotSupported
      else if decide (txType tx = LegacyTxType) then Signer_Sender legacy tx
      else if decide (tx_chainID tx ≠ chainID) then Err ErrInvalidChainId
      else recoverPlain (sigHash chainID tx) R S' (V + 27) true
  end.

(** ** Transactions: data and the cached sender *)

Record Transaction : Type := MkTx {
  inner : TxData;
  from : option (Signer * Address)
}.

Definition NewTx (data : TxData) : Transaction := MkTx data None.

Definition WithSignature (tx : Transaction) (signer : Signer) (sig : bytes) : res tx_error Transaction :=
  '(r, s, v) ← SignatureValues signer (inner tx) sig;
  cpy ← setSignatureValues (default 0 (Signer_ChainID signer)) v r s (inner tx);
  Ok (MkTx cpy None).

Definition SignTx (tx : Transaction) (s : Signer) (prv : PrivateKey) : res tx_error Transaction :=
  sig ← Sign (Signer_Hash s (inner tx)) prv;
  WithSignature tx s sig.

(** [Sender]: the outcome and the transaction with its cache. *)
Definition Sender (signer : Signer) (tx : Transaction) : res tx_error Address * Transaction :=
  let derive :=
    match Signer_Sender signer (inner tx) with
    | Ok addr => (Ok addr, MkTx (inner tx) (Some (signer, addr)))
    | r => (r, tx)
    end in
  match from tx with
  | Some (s, addr) => if Signer_Equal s signer then (Ok addr, tx) else derive
  | None => derive
  end.
End signing.

(** ** Properties *)

(** What the library documents: a valid secret key has a public point, signing with it
    succeeds with a normalised 65-byte signature (R and S in range, S in the lower half),
    and recovery from that signature returns the public key. *)
Class Secp256k1Laws `{Secp256k1} : Prop := {
  seckey_valid : ∀ key, length key = 32%nat → 0 < SetBytes key < secp256k1N →
    ext_seckey_verify key = true ∧ is_Some (ext_base_mul key);
  sign_valid : ∀ msg key, length msg = 32%nat → length key = 32%nat → 0 < SetBytes key < secp256k1N →
    ∃ sig, ext_sign msg key = Some sig ∧ length sig = 65%nat ∧
      1 <= SetBytes (take 32 sig) < secp256k1N ∧
      1 <= SetBytes (take 32 (drop 32 sig)) <= secp256k1halfN ∧
      b2z (nth 64 sig Byte.x00) < 4;
  recover_sign : ∀ msg key sig x y, length msg = 32%nat → length key = 32%nat →
    0 < SetBytes key < secp256k1N → ext_sign msg key = Some sig → ext_base_mul key = Some (x, y) →
    ext_recover sig msg = Some (Marshal x y)
}.

Lemma BitLen_le z k : 0 <= z → 0 <= k → BitLen z <= k ↔ z < 2 ^ k.
Proof.
  intros Hz Hk. unfold BitLen, Len64. rewrite Z.abs_eq by done. case_decide as E.
  - assert (0 < 2 ^ k) by (apply Z.pow_pos_nonneg; lia). lia.
  - rewrite (Z.log2_lt_pow2 z k) by lia. lia.
Qed.

Lemma pad_big_Bytes n z :
  0 <= z < 256 ^ Z.of_nat n →
  (length (big_Bytes z) <= n)%nat ∧ replicate (n - length (big_Bytes z)) Byte.x00 ++ big_Bytes z = be_bytes n z.
Proof.
  intros Hz. assert (length (big_Bytes z) <= n)%nat as Hl.
  { rewrite length_big_Bytes, Z.abs_eq by lia. by apply byte_len_least. }
  split; [done|]. apply SetBytes_inj.
  - rewrite length_app, length_replicate, length_be_bytes. lia.
  - rewrite SetBytes_zero_prefix, SetBytes_big_Bytes, SetBytes_be_bytes, Z.mod_small by lia. done.
Qed.

Lemma PaddedBigBytes_SetBytes d : length d = 32%nat → PaddedBigBytes (SetBytes d) 32 = d.
Proof.
  intros Hd. pose proof (SetBytes_range d) as Hr. rewrite Hd in Hr. unfold PaddedBigBytes.
  assert (be_bytes 32 (SetBytes d) = d) as Hb by (rewrite <-Hd; apply be_bytes_SetBytes).
  case_decide as E.
  - unfold big_Bytes. rewrite Z.abs_eq by lia.
    replace (byte_len (SetBytes d)) with 32%nat; [done|].
    apply Nat.le_antisymm; [|apply byte_len_least; done].
    assert (~ BitLen (SetBytes d) <= 255) as Hn.
    { intros Hle. assert (BitLen (SetBytes d) / 8 <= 255 / 8) by (apply Z.div_le_mono; lia).
      change (255 / 8) with 31 in *. lia. }
    rewrite BitLen_le in Hn by lia. unfold byte_len. case_decide as E0; [lia|].
    assert (255 <= Z.log2 (SetBytes d)) by (apply Z.log2_le_pow2; lia).
    assert (255 / 8 <= Z.log2 (SetBytes d) / 8) by (apply Z.div_le_mono; lia).
    change (255 / 8) with 31 in *. lia.
  - by rewrite ReadBits_spec, Z.abs_eq by lia.
Qed.

Lemma length_Signer_Hash s tx : length (Signer_Hash s tx) = 32%nat.
Proof. destruct s, tx; apply length_Keccak256. Qed.

Lemma sig_pieces sig :
  length sig = 65%nat → sig = take 32 sig ++ take 32 (drop 32 sig) ++ [nth 64 sig Byte.x00].
Proof.
  intros Hl. rewrite <-(take_drop 32 sig) at 1. f_equal.
  rewrite <-(take_drop 32 (drop 32 sig)) at 1. f_equal. rewrite drop_drop. cbn [Nat.add].
  destruct (drop 64 sig) as [|b rest] eqn:E.
  - apply (f_equal length) in E. rewrite length_drop in E. cbn in E. lia.
  - assert (length (drop 64 sig) = 1%nat) as H1 by (rewrite length_drop; lia).
    rewrite E in H1. destruct rest; [|done]. f_equal.
    rewrite <-(take_drop 64 sig) at 1. rewrite app_nth2 by (rewrite length_take; lia).
    rewrite length_take, E. replace (64 - 64 `min` length sig)%nat with 0%nat by lia. done.
Qed.

Section facts.
Context `{Secp256k1Laws}.

Lemma ToECDSA_Ok d prv :
  ToECDSA d = Ok prv →
  length d = 32%nat ∧ 0 < SetBytes d < secp256k1N ∧ D prv = SetBytes d ∧
  ext_base_mul d = Some (PubX prv, PubY prv).
Proof.
  unfold ToECDSA. repeat (case_decide; [done|]). intros Hk.
  destruct (ext_base_mul d) as [[x y]|]; [|done]. injection Hk as <-. cbn.
  split_and!; [lia|lia|lia|done|done].
Qed.

(** Signing with a key from [ToECDSA] succeeds, and [recoverPlain] undoes it. *)
Lemma Sign_recoverPlain d prv msg homestead :
  ToECDSA d = Ok prv → length msg = 32%nat →
  ∃ sig, Sign msg prv = Ok sig ∧ ext_sign msg d = Some sig ∧ length sig = 65%nat ∧
    1 <= SetBytes (take 32 sig) < 2 ^ 256 ∧ 1 <= SetBytes (take 32 (drop 32 sig)) < 2 ^ 256 ∧
    (b2z (nth 64 sig Byte.x00) < 2 →
     recoverPlain msg (SetBytes (take 32 sig)) (SetBytes (take 32 (drop 32 sig)))
       (b2z (nth 64 sig Byte.x00) + 27) homestead = Ok (PubkeyToAddress prv)).
Proof.
  intros (Hd & Hrange & HD & Hpub)%ToECDSA_Ok Hmsg.
  destruct (sign_valid msg d Hmsg Hd Hrange) as (sig & Hsig & Hl & Hr & Hs & Hv).
  destruct (seckey_valid d Hd Hrange) as [Hok _].
  assert (secp256k1N < 2 ^ 256 ∧ secp256k1halfN < secp256k1N) as [HN Hhalf] by (split; vm_compute; reflexivity).
  exists sig. split_and!; [|done|done|lia..|].
  { unfold Sign, secp256k1_Sign. rewrite HD, PaddedBigBytes_SetBytes by done.
    by rewrite !decide_False, Hok, Hsig by lia. }
  intros Hv2. set (v := nth 64 sig Byte.x00) in *.
  set (r := SetBytes (take 32 sig)) in *. set (s := SetBytes (take 32 (drop 32 sig))) in *.
  pose proof (b2z_range v) as Hv0.
  assert (z2b (u64 (u64 (Z.abs (b2z v + 27)) - 27)) = v) as HV.
  { rewrite Z.abs_eq, (u64_small (_ + 27)) by word_lia.
    replace (b2z v + 27 - 27) with (b2z v) by lia. rewrite u64_small by word_lia. apply z2b_b2z. }
  unfold recoverPlain. rewrite decide_False
    by (apply Z.nlt_ge, (BitLen_le _ 8); [lia..|]; lia).
  rewrite HV. cbv zeta.
  assert (ValidateSignatureValues v r s homestead = true) as ->.
  { unfold ValidateSignatureValues. rewrite decide_False by lia.
    rewrite (bool_decide_eq_false_2 (secp256k1halfN < s)), andb_false_r by lia.
    rewrite !(bool_decide_eq_true_2 (_ < secp256k1N)) by lia. cbn [andb].
    assert (b2z v = 0 ∨ b2z v = 1) as [E|E] by lia.
    - by rewrite (bool_decide_eq_true_2 (v = Byte.x00)) by (apply b2z_inj; done).
    - by rewrite (bool_decide_eq_true_2 (v = Byte.x01)), orb_true_r by (apply b2z_inj; done). }
  cbn [negb].
  destruct (pad_big_Bytes 32 r) as [Hrl Hrp]; [change (256 ^ Z.of_nat 32) with (2 ^ 256); lia|].
  destruct (pad_big_Bytes 32 s) as [Hsl Hsp]; [change (256 ^ Z.of_nat 32) with (2 ^ 256); lia|].
  rewrite decide_False by lia.
  replace (replicate _ _ ++ _) with sig; cycle 1.
  { rewrite (app_assoc (replicate _ _) (big_Bytes r)), Hrp, (app_assoc (replicate _ _) (big_Bytes s)), Hsp.
    rewrite (sig_pieces sig Hl) at 1. f_equal; [|f_equal].
    - replace (take 32 sig) with (be_bytes (length (take 32 sig)) r); [by rewrite length_take, Hl|].
      apply be_bytes_SetBytes.
    - replace (take 32 (drop 32 sig)) with (be_bytes (length (take 32 (drop 32 sig))) s).
      + by rewrite length_take, length_drop, Hl.
      + apply be_bytes_SetBytes. }
  unfold Ecrecover, RecoverPubkey, checkSignature. rewrite decide_False by lia.
  rewrite (decide_False (P := length sig ≠ 65%nat)) by lia. fold v.
  rewrite (decide_False (P := 4 <= b2z v)) by lia. cbn [mbind res_bind].
  rewrite (recover_sign msg d sig _ _ Hmsg Hd Hrange Hsig Hpub). cbn.
  unfold PubkeyToAddress. cbn [drop Marshal]. f_equal. symmetry. apply BytesToAddress_id.
  unfold Address_ok, AddressLength. rewrite length_drop, length_Keccak256. done.
Qed.

(** The transactions a signer can sign. The modern signer hashes with its chain id,
    so its legacy signer has to be the EIP-155 one for the same chain. *)
Definition can_sign (s : Signer) (tx : TxData) : Prop :=
  match s with
  | FrontierSigner | HomesteadSigner => txType tx = LegacyTxType
  | EIP155Signer c => txType tx = LegacyTxType ∧ 0 < c
  | modernSigner types c legacy =>
      txtypeSet_has (txType tx) types = true ∧ 0 < c < 2 ^ 256 ∧
      (if decide (txType tx = LegacyTxType) then legacy = EIP155Signer c
       else tx_chainID tx = 0 ∨ tx_chainID tx = c)
  end.

Lemma u256_small z : 0 <= z < 2 ^ 256 → u256 z = z.
Proof. apply Z.mod_small. Qed.

(** Setting the signature values: what it keeps and what it sets. *)
Lemma setSignatureValues_spec {E} c v r s tx :
  0 <= c < 2 ^ 256 → 0 <= v < 2 ^ 256 → 0 <= r < 2 ^ 256 → 0 <= s < 2 ^ 256 →
  txType tx ≠ LegacyTxType →
  ∃ tx', setSignatureValues (E := E) c v r s tx = Ok tx' ∧ RawSignatureValues tx' = (v, r, s) ∧
    txType tx' = txType tx ∧ tx_chainID tx' = c ∧ (∀ k, sigHash k tx' = sigHash k tx).
Proof.
  intros Hc Hv Hr Hs Ht. destruct tx; [done|..]; cbn [setSignatureValues].
  - eexists; split_and!; done.
  - eexists; split_and!; done.
  - eexists; split_and!; [done|cbn; by rewrite !u256_small|done|cbn; by rewrite u256_small|done].
  - rewrite decide_True by done. eexists; split_and!; [done|cbn; by rewrite !u256_small|done..].
Qed.

Lemma EIP155_values v c :
  0 < c → 0 <= v < 2 →
  isProtectedV (v + 35 + c + c) = true ∧ deriveChainId (v + 35 + c + c) = c.
Proof.
  intros Hc Hv. split.
  - unfold isProtectedV. case_decide as E; [|done]. apply (BitLen_le _ 8) in E; [|lia..].
    rewrite Z.abs_eq, u64_small by word_lia.
    by rewrite !bool_decide_eq_true_2 by lia.
  - unfold deriveChainId. case_decide as E.
    + apply (BitLen_le _ 64) in E; [|lia..]. rewrite Z.abs_eq, u64_small by word_lia.
      rewrite decide_False by lia. rewrite u64_small by word_lia. Z.div_mod_to_equations; lia.
    + rewrite Z.shiftr_div_pow2 by lia. change (2 ^ 1) with 2. Z.div_mod_to_equations; lia.
Qed.

Lemma recid_27 b : b2z b < 2 → SetBytes [z2b (b2z b + 27)] = b2z b + 27.
Proof.
  intros. pose proof (b2z_range b). unfold SetBytes. cbn [foldl]. rewrite b2z_z2b, Z.mod_small; lia.
Qed.

Lemma legacy_of tx : txType tx = LegacyTxType →
  ∃ n p g t x d v r s, tx = LegacyTx n p g t x d v r s.
Proof. destruct tx; intros Ht; [by repeat eexists|discriminate Ht..]. Qed.

(** The transaction that results from a signature: accepted by its signer as sent by
    the owner of the key. *)
Definition sent_by (s : Signer) (tx : TxData) (prv : PrivateKey) (signed : res tx_error Transaction) : Prop :=
  ∃ tx', signed = Ok tx' ∧ from tx' = None ∧ (∀ c, sigHash c (inner tx') = sigHash c tx) ∧
    Signer_Sender s (inner tx') = Ok (PubkeyToAddress prv).

Lemma SignTx_legacy s tx d prv sig :
  can_sign s tx → txType tx = LegacyTxType →
  ToECDSA d = Ok prv → ext_sign (Signer_Hash s tx) d = Some sig → b2z (nth 64 sig Byte.x00) < 2 →
  sent_by s tx prv (SignTx (NewTx tx) s prv).
Proof.
  intros Hcan Ht Hkey Hsig Hv. pose proof (b2z_range (nth 64 sig Byte.x00)) as Hv0.
  destruct (Sign_recoverPlain d prv (Signer_Hash s tx) (bool_decide (s ≠ FrontierSigner)) Hkey (length_Signer_Hash s _))
    as (sig' & HSign & Hsig' & Hl & Hr & Hs & Hrec).
  destruct (legacy_of tx Ht) as (n & p & g & t & x & da & v & r & sv & ->).
  rewrite Hsig in Hsig'. injection Hsig' as <-. specialize (Hrec Hv).
  unfold SignTx, NewTx. cbn [inner]. rewrite HSign. cbn [mbind res_bind]. unfold WithSignature. cbn [inner].
  assert (decodeSignature sig = Ok (SetBytes (take 32 sig), SetBytes (take 32 (drop 32 sig)), b2z (nth 64 sig Byte.x00) + 27)) as Hdec.
  { unfold decodeSignature, SignatureLength. rewrite decide_False by lia. cbv zeta. by rewrite recid_27. }
  destruct s as [| |c|types c legacy]; cbn [SignatureValues txType]; rewrite ?(decide_False (P := LegacyTxType ≠ _)) by (intros []; done).
  - rewrite Hdec. cbn. eexists; split_and!; [done..|]. exact Hrec.
  - rewrite Hdec. cbn. eexists; split_and!; [done..|]. exact Hrec.
  - destruct Hcan as [_ Hc]. destruct (EIP155_values (b2z (nth 64 sig Byte.x00)) c Hc) as [HP HD]; [lia|].
    rewrite Hdec. cbn [mbind res_bind]. rewrite decide_True by lia.
    rewrite b2z_z2b, Z.mod_small by lia. eexists; split_and!; [done..|].
    cbn [Signer_Sender inner RawSignatureValues txType Protected tx_chainID].
    rewrite decide_False by (intros []; done). rewrite HP, HD. cbn [negb]. rewrite decide_False by (intros []; done).
    replace (_ - c - c - 8) with (b2z (nth 64 sig Byte.x00) + 27) by lia. exact Hrec.
  - destruct Hcan as (Hhas & Hc & Hleg). cbn [txType] in Hhas, Hleg. rewrite decide_True in Hleg by done. subst legacy.
    destruct (EIP155_values (b2z (nth 64 sig Byte.x00)) c) as [HP HD]; [lia..|].
    rewrite Hhas. cbn [negb]. rewrite decide_True by done. cbn [SignatureValues txType].
    rewrite decide_False by (intros []; done). rewrite Hdec. cbn [mbind res_bind]. rewrite decide_True by lia.
    rewrite b2z_z2b, Z.mod_small by lia. eexists; split_and!; [done..|].
    cbn [Signer_Sender inner RawSignatureValues txType Protected tx_chainID].
    rewrite Hhas. cbn [negb]. rewrite (decide_True (P := LegacyTxType = LegacyTxType)) by done.
    rewrite decide_False by (intros []; done). rewrite HP, HD. cbn [negb]. rewrite decide_False by (intros []; done).
    replace (_ - c - c - 8) with (b2z (nth 64 sig Byte.x00) + 27) by lia. exact Hrec.
Qed.

Lemma SignTx_typed s tx d prv sig :
  can_sign s tx → txType tx ≠ LegacyTxType →
  ToECDSA d = Ok prv → ext_sign (Signer_Hash s tx) d = Some sig → b2z (nth 64 sig Byte.x00) < 2 →
  sent_by s tx prv (SignTx (NewTx tx) s prv).
Proof.
  intros Hcan Ht Hkey Hsig Hv. pose proof (b2z_range (nth 64 sig Byte.x00)) as Hv0.
  destruct (Sign_recoverPlain d prv (Signer_Hash s tx) true Hkey (length_Signer_Hash s _))
    as (sig' & HSign & Hsig' & Hl & Hr & Hs & Hrec).
  rewrite Hsig in Hsig'. injection Hsig' as <-. specialize (Hrec Hv).
  destruct s as [| |c|types c legacy]; [by destruct Ht|by destruct Ht|by destruct Ht, Hcan|].
  destruct Hcan as (Hhas & Hc & Hid). rewrite decide_False in Hid by done.
  unfold SignTx, NewTx. cbn [inner]. rewrite HSign. cbn [mbind res_bind]. unfold WithSignature.
  cbn [inner SignatureValues]. rewrite Hhas. cbn [negb]. rewrite decide_False by done. rewrite decide_False by naive_solver.
  unfold decodeSignature, SignatureLength. rewrite decide_False by lia. cbn [mbind res_bind Signer_ChainID]. change (default 0 (Some c)) with c.
  destruct (setSignatureValues_spec (E := tx_error) c (b2z (nth 64 sig Byte.x00)) (SetBytes (take 32 sig))
    (SetBytes (take 32 (drop 32 sig))) tx) as (tx' & -> & Hraw & Hty & Hch & Hh); [lia..|done|].
  eexists; split_and!; [done|done|done|]. cbn [inner Signer_Sender]. rewrite Hraw, Hty, Hch, Hhas, Hh. cbn [negb].
  rewrite decide_False by done. rewrite decide_False by (intros []; done). exact Hrec.
Qed.

Lemma SignTx_sent_by s tx d prv sig :
  can_sign s tx → ToECDSA d = Ok prv → ext_sign (Signer_Hash s tx) d = Some sig → b2z (nth 64 sig Byte.x00) < 2 →
  sent_by s tx prv (SignTx (NewTx tx) s prv).
Proof. intros. destruct (decide (txType tx = LegacyTxType)); [eapply SignTx_legacy|eapply SignTx_typed]; done. Qed.

(** [Sender] never panics: the copies into the signature's 64 bytes are in range once the
    values have been validated. *)
Lemma recoverPlain_no_panic sighash R S Vb homestead : recoverPlain sighash R S Vb homestead ≠ Panic.
Proof.
  unfold recoverPlain. case_decide; [done|]. destruct (ValidateSignatureValues _ R S homestead) eqn:E; [|done]. cbn [negb].
  unfold ValidateSignatureValues in E. case_decide; [done|]. destruct (homestead && _); [done|].
  apply andb_prop in E as [[HR%bool_decide_eq_true HS%bool_decide_eq_true]%andb_prop _].
  rewrite decide_False.
  - cbv zeta. assert (∀ sig, Ecrecover ext_recover sighash sig ≠ Panic) as HE.
    { intros sig. unfold Ecrecover, RecoverPubkey, checkSignature. repeat (case_decide; cbn [mbind res_bind]); try done.
      by destruct (ext_recover _ _). }
    destruct (Ecrecover _ _ _) as [pub| |] eqn:Ee; [|done|by apply HE in Ee]. destruct pub as [|[] ?]; done.
  - rewrite !length_big_Bytes, !Z.abs_eq by lia.
    assert (secp256k1N <= 256 ^ Z.of_nat 32) by (vm_compute; discriminate).
    pose proof (byte_len_least R 32 ltac:(lia)). pose proof (byte_len_least S 32 ltac:(lia)). lia.
Qed.

Lemma Sender_no_panic s tx : fst (Sender s (NewTx tx)) ≠ Panic.
Proof.
  unfold Sender. cbn [NewTx from inner].
  assert (Signer_Sender s tx ≠ Panic) as Hs.
  { induction s as [| | |? ? legacy IH]; cbn [Signer_Sender]; destruct (RawSignatureValues tx) as [[V R] S'];
      repeat case_match; done || apply recoverPlain_no_panic. }
  by destruct (Signer_Sender s tx).
Qed.

(** C24: signing and recovering the sender round-trip for all five transaction types and
    every kind of signer: a transaction that the signer can sign, signed with a key read
    by [ToECDSA], is accepted by [Sender] with the address of that key, and its signed
    content is unchanged (for the recovery ids 0 and 1; the library gives 2 or 3 only when
    an abscissa exceeds the group order). *)
Theorem SignTx_Sender s tx d prv sig :
  can_sign s tx → ToECDSA d = Ok prv →
  ext_sign (Signer_Hash s tx) d = Some sig → b2z (nth 64 sig Byte.x00) < 2 →
  ∃ tx', SignTx (NewTx tx) s prv = Ok tx' ∧ (∀ c, sigHash c (inner tx') = sigHash c tx) ∧
    fst (Sender s tx') = Ok (PubkeyToAddress prv).
Proof.
  intros Hcan Hkey Hsig Hv. destruct (SignTx_sent_by s tx d prv sig) as (tx' & Htx & Hfrom & Hh & Hs); [done..|].
  exists tx'. split_and!; [done..|]. unfold Sender. by rewrite Hfrom, Hs.
Qed.
End facts.

Section protection.
Context `{Secp256k1}.

(** A signer for chain [c], as the constructors build it. *)
Definition signer_for (c : Z) (s : Signer) : Prop :=
  match s with
  | EIP155Signer c' => c' = c
  | modernSigner _ c' legacy => c' = c ∧ legacy = EIP155Signer c
  | _ => False
  end.

(** replay protection: whatever its signature, a protected transaction (every typed
    one, and a legacy one whose V is not 27, 28, 0 or 1) that a signer for chain [c]
    attributes to a sender carries the chain id [c]; the same transaction is refused by
    every signer for another chain. *)
Theorem Sender_chain_bound c c' s s' tx a :
  signer_for c s → signer_for c' s' → c ≠ c' → Protected tx = true →
  Signer_Sender s tx = Ok a →
  tx_chainID tx = c ∧ is_ok (Signer_Sender s' tx) = false.
Proof.
  assert (∀ c s, signer_for c s → Protected tx = true → is_ok (Signer_Sender s tx) = true → tx_chainID tx = c) as Hone.
  { clear. intros c s Hs HP Hok. destruct (decide (tx_chainID tx = c)) as [|Hne]; [done|exfalso].
    assert (∀ c', c' = c → is_ok (Signer_Sender (EIP155Signer c') tx) = false) as Hleg.
    { intros c' ->. cbn [Signer_Sender]. destruct (RawSignatureValues tx) as [[? ?] ?].
      case_decide; [done|]. rewrite HP. cbn [negb]. by rewrite decide_True by done. }
    destruct s as [| |c'|types c' legacy]; [done|done| |].
    - by rewrite Hleg in Hok.
    - destruct Hs as [-> ->]. cbn [Signer_Sender] in Hok. destruct (RawSignatureValues tx) as [[? ?] ?] eqn:E.
      destruct (txtypeSet_has _ _); [|done]. cbn [negb] in Hok. case_decide.
      + specialize (Hleg c eq_refl). cbn [Signer_Sender] in Hleg. rewrite E in Hleg. congruence.
      + by rewrite decide_True in Hok by done. }
  intros Hs Hs' Hne HP Hok. assert (tx_chainID tx = c) as Hc by (eapply Hone; [done..|]; by rewrite Hok).
  split; [done|]. destruct (is_ok _) eqn:E; [|done]. by rewrite (Hone c' s' Hs' HP E) in Hc.
Qed.

Lemma Signer_Equal_spec s s2 : Signer_Equal s s2 = true ↔ s = s2.
Proof.
  revert s2. induction s as [| |c|t c l IH]; intros [| |c2|t2 c2 l2]; cbn; try (split; [done|congruence]).
  - rewrite bool_decide_eq_true. split; congruence.
  - rewrite !andb_true_iff, !bool_decide_eq_true, IH. split; [intros [[-> ->] ->]; done|].
    intros [= -> -> ->]. done.
Qed.

(** Calls of [Sender] on one transaction object, which carries its cache along. *)
Fixpoint Sender_all (signers : list Signer) (tx : Transaction) : list (res tx_error Address) :=
  match signers with
  | [] => []
  | s :: signers => let '(r, tx) := Sender s tx in r :: Sender_all signers tx
  end.

(** the sender cache of a transaction is transparent: for every sequence of signers
    asked in turn about one transaction object, each call returns what that signer
    derives from the signature, never an address cached for a different signer. *)
Theorem Sender_cache_transparent signers tx :
  Sender_all signers (NewTx tx) = (λ s, Signer_Sender s tx) <$> signers.
Proof.
  assert (∀ cache, (∀ s a, cache = Some (s, a) → Signer_Sender s tx = Ok a) →
    Sender_all signers (MkTx tx cache) = (λ s, Signer_Sender s tx) <$> signers) as Hall.
  { induction signers as [|s signers IH]; intros cache Hc; [done|].
    assert (∃ cache', Sender s (MkTx tx cache) = (Signer_Sender s tx, MkTx tx cache') ∧
      (∀ s a, cache' = Some (s, a) → Signer_Sender s tx = Ok a)) as (cache' & HS & Hc').
    { unfold Sender. cbn [inner from].
      assert (∃ cache', match Signer_Sender s tx with
        | Ok addr => (Ok addr, MkTx tx (Some (s, addr))) | r => (r, MkTx tx cache) end =
        (Signer_Sender s tx, MkTx tx cache') ∧ (∀ s a, cache' = Some (s, a) → Signer_Sender s tx = Ok a)) as Hd.
      { destruct (Signer_Sender s tx) eqn:E; eexists; (split; [done|]); [by intros ?? [= <- <-]|done..]. }
      destruct cache as [[s0 a0]|]; [|exact Hd]. destruct (Signer_Equal s0 s) eqn:E; [|exact Hd].
      apply Signer_Equal_spec in E as ->. exists (Some (s, a0)). by rewrite (Hc s a0 eq_refl). }
    cbn [Sender_all fmap list_fmap]. rewrite HS. f_equal. by apply IH. }
  by apply Hall.
Qed.
End protection.

(** ** A concrete library

    A signature that carries its key: it satisfies the laws (and hides nothing), which
    is all that the examples need. *)
Module ToySecp.

#[export] Instance toy_secp : Secp256k1 := {|
  ext_recover := λ sig msg, Some (Marshal (SetBytes (take 32 sig)) 7);
  ext_sign := λ msg key, Some (key ++ be_bytes 32 1 ++ [Byte.x00]);
  ext_seckey_verify := λ key, true;
  ext_base_mul := λ key, Some (SetBytes key, 7)
|}.

#[export] Instance toy_secp_laws : Secp256k1Laws.
Proof.
  split; cbn [ext_recover ext_sign ext_seckey_verify ext_base_mul toy_secp].
  - intros key _ _. split; [done|by eexists].
  - intros msg key _ Hk Hr. eexists; split; [done|].
    rewrite take_app_length' by lia. rewrite drop_app_length' by lia.
    rewrite take_app_length' by (by rewrite length_be_bytes).
    split_and!; [rewrite !length_app, length_be_bytes; cbn; lia|lia|lia|vm_compute; discriminate|vm_compute; discriminate|].
    rewrite app_nth2, app_nth2 by (rewrite ?length_be_bytes; lia). rewrite length_be_bytes, Hk. reflexivity.
  - intros msg key sig x y _ Hk _ [= <-] [= <- <-]. rewrite take_app_length' by lia. done.
Qed.

Definition toy_key : bytes := be_bytes 32 5.
Definition toy_prv : PrivateKey := MkKey 5 5 7.

(** The signer of chain 1337 under the latest rules. *)
Definition toy_signer : Signer := modernSigner (31, 0) 1337 (EIP155Signer 1337).

Definition toy_tx : TxData :=
  DynamicFeeTx 0 3 1 2 21000 (Some Address0) 10 [] [MkAccessTuple Address0 [Hash0]] 0 0 0.

Example toy_signer_latest : LatestSignerForChainID (E := ()) (Some 1337) = Ok toy_signer.
Proof. reflexivity. Qed.
End ToySecp.

Import ToySecp.

Lemma SignTx_Sender_witness :
  ∃ tx', SignTx (NewTx toy_tx) toy_signer toy_prv = Ok tx' ∧
    (∀ c, sigHash c (inner tx') = sigHash c toy_tx) ∧
    fst (Sender toy_signer tx') = Ok (PubkeyToAddress toy_prv).
Proof.
  apply (SignTx_Sender toy_signer toy_tx toy_key toy_prv (toy_key ++ be_bytes 32 1 ++ [Byte.x00])).
  - split; [vm_compute; reflexivity|]. split; [lia|]. left. reflexivity.
  - vm_compute. reflexivity.
  - reflexivity.
  - vm_compute. reflexivity.
Defined.

(** A legacy transaction signed for chain 1. *)
Lemma Sender_chain_bound_witness :
  tx_chainID (LegacyTx 0 1 21000 None 0 [] 37 5 1) = 1 ∧
  is_ok (Signer_Sender (EIP155Signer 2) (LegacyTx 0 1 21000 None 0 [] 37 5 1)) = false.
Proof.
  apply (Sender_chain_bound 1 2 (EIP155Signer 1) (EIP155Signer 2) _
    (drop 12 (Keccak256 [drop 1 (Marshal 5 7)]))); [reflexivity|reflexivity|lia|reflexivity|].
  vm_compute. reflexivity.
Defined.
