(* ===== verification/Stream.v ===== *)
(** * The streaming RLP decoder

    [rlp/decode.go], type [Stream]: a reader with an input limit, a stack of list limits
    and the cached header of the value ahead. The reader is the [sliceReader] of
    [DecodeBytes]. Methods run in a state and error monad [D], because an error leaves the
    stream in a state that callers go on using ([EOL] ends a loop). The auxiliary buffer
    [uintbuf] is always written before it is read and is not part of the state.

    The facts at the end say what each reading method consumes: [sound] (what was read is
    an encoding of the result, the limits are charged for it) and [complete] (an encoding
    that fits is read). *)
From Stdlib Require Import ZArith Lia.
From Stdlib Require Strings.Byte.
From stdpp Require Import base tactics decidable list numbers.
From S2P Require Import Prelude Rlp.

(** ** Errors and state *)

(** The messages of [decodeError]; its type and context are text for the reader. *)
Inductive decode_msg : Type :=
| MsgCanonInt | MsgCanonSize | MsgExpectedList | MsgExpectedString | MsgTooLong | MsgTooShort
| MsgTooManyElements | MsgTooFewListElements | MsgTooFewElements | MsgWrongEmpty.

Inductive stream_error : Type :=
| EOL
| io_EOF
| RlpErr (e : rlp_error)
| ErrElemTooLarge
| ErrMoreThanOneValue
| errNotInList
| errNotAtEOL
| errUint256Large
| errWrongSize
| errInvalidBool
| DecodeError (m : decode_msg).

#[export] Instance decode_msg_eq_dec : EqDecision decode_msg.
Proof. solve_decision. Defined.
#[export] Instance rlp_error_eq_dec : EqDecision rlp_error.
Proof. solve_decision. Defined.
#[export] Instance stream_error_eq_dec : EqDecision stream_error.
Proof. solve_decision. Defined.

Record Stream : Type := MkStream {
  s_r : bytes;                      (** the input not yet read *)
  s_remaining : Z;                  (** number of bytes remaining to be read from r *)
  s_size : Z;                       (** size of value ahead *)
  s_kinderr : option stream_error;  (** error from last readKind *)
  s_stack : list Z;                 (** list sizes, the innermost first *)
  s_kind : option Kind;             (** kind of value ahead, None for -1 *)
  s_byteval : byte;                 (** value of single byte in type tag *)
  s_limited : bool                  (** true if input limit is in effect *)
}.

Definition set_r (r : bytes) (s : Stream) : Stream :=
  MkStream r (s_remaining s) (s_size s) (s_kinderr s) (s_stack s) (s_kind s) (s_byteval s) (s_limited s).
Definition set_remaining (n : Z) (s : Stream) : Stream :=
  MkStream (s_r s) n (s_size s) (s_kinderr s) (s_stack s) (s_kind s) (s_byteval s) (s_limited s).
Definition set_stack (l : list Z) (s : Stream) : Stream :=
  MkStream (s_r s) (s_remaining s) (s_size s) (s_kinderr s) l (s_kind s) (s_byteval s) (s_limited s).
Definition set_byteval (b : byte) (s : Stream) : Stream :=
  MkStream (s_r s) (s_remaining s) (s_size s) (s_kinderr s) (s_stack s) (s_kind s) b (s_limited s).
Definition set_ahead (k : option Kind) (size : Z) (err : option stream_error) (s : Stream) : Stream :=
  MkStream (s_r s) (s_remaining s) size err (s_stack s) k (s_byteval s) (s_limited s).

(** [s.kind = -1]: the next call of [Kind] reads a header. *)
Definition rearm (s : Stream) : Stream := set_ahead None (s_size s) (s_kinderr s) s.

(** [Reset] with the reader of a byte slice, which has no length to discover: without an
    explicit limit the stream is not limited. *)
Definition stream_Reset (r : bytes) (inputLimit : Z) (s : Stream) : Stream :=
  MkStream r (if decide (0 < inputLimit) then inputLimit else s_remaining s) 0 None [] None Byte.x00
    (bool_decide (0 < inputLimit)).

(** [new(Stream)]. *)
Definition zero_Stream : Stream := MkStream [] 0 0 None [] (Some KByte) Byte.x00 false.

Definition NewStream (r : bytes) (inputLimit : Z) : Stream := stream_Reset r inputLimit zero_Stream.

Definition NewListStream (r : bytes) (len : Z) : Stream :=
  set_ahead (Some KList) len None (stream_Reset r len zero_Stream).

(** ** The monad *)

Definition D (A : Type) : Type := Stream → res stream_error A * Stream.

#[export] Instance D_ret : MRet D := λ A a s, (Ok a, s).
#[export] Instance D_bind : MBind D := λ A B f m s,
  match m s with
  | (Ok a, s) => f a s
  | (Err e, s) => (Err e, s)
  | (Panic, s) => (Panic, s)
  end.

Definition throw {A} (e : stream_error) : D A := λ s, (Err e, s).
Definition ask {A} (f : Stream → A) : D A := λ s, (Ok (f s), s).
Definition panic {A} : D A := λ s, (Panic, s).
Definition update (f : Stream → Stream) : D () := λ s, (Ok (), f s).

(** The error of [m] goes through [f]. *)
Definition map_err {A} (f : stream_error → stream_error) (m : D A) : D A := λ s,
  match m s with
  | (Err e, s) => (Err (f e), s)
  | o => o
  end.

(** [make([]byte, size)]: the runtime refuses more than its address space. *)
Definition maxAlloc : Z := 2 ^ 48.
Definition make_bytes (size : Z) : D () := λ s, (if decide (maxAlloc < size) then Panic else Ok (), s).

(** ** Reading *)

(** [sliceReader.Read] into [n] bytes; [None] is [io.EOF]. *)
Definition sliceReader_Read (n : Z) (sr : bytes) : option (bytes * bytes) :=
  match sr with
  | [] => None
  | _ => let k := Z.to_nat (n `min` Z.of_nat (length sr)) in Some (take k sr, drop k sr)
  end.

Definition listLimit (s : Stream) : bool * Z :=
  match s_stack s with
  | [] => (false, 0)
  | limit :: _ => (true, limit)
  end.

Definition willRead (n : Z) : D () := λ s,
  let s := rearm s in
  let input (s : Stream) :=
    if s_limited s then
      if decide (s_remaining s < n) then (Err (RlpErr ErrValueTooLarge), s)
      else (Ok (), set_remaining (s_remaining s - n) s)
    else (Ok (), s) in
  match s_stack s with
  | [] => input s
  | limit :: outer =>
      if decide (limit < n) then (Err ErrElemTooLarge, s)
      else input (set_stack (limit - n :: outer) s)
  end.

(** [sliceReader.ReadByte], its [io.EOF] turned into [io.ErrUnexpectedEOF]. *)
Definition sliceReader_ReadByte : D byte := λ s,
  match s_r s with
  | [] => (Err (RlpErr ErrUnexpectedEOF), s)
  | b :: r => (Ok b, set_r r s)
  end.

Definition readByte : D byte := willRead 1;; sliceReader_ReadByte.

(** The loop of [readFull]: [buf] is what has been read, the last component says whether
    the reader reported [io.EOF]. *)
Fixpoint readFull_loop (fuel : nat) (n : Z) (buf r : bytes) : option (bytes * bytes * bool) :=
  if decide (Z.of_nat (length buf) < n) then
    match fuel with
    | O => None
    | S fuel =>
        match sliceReader_Read (n - Z.of_nat (length buf)) r with
        | None => Some (buf, r, true)
        | Some (b, r) => readFull_loop fuel n (buf ++ b) r
        end
    end
  else Some (buf, r, false).

Definition fill (n : Z) : D bytes := λ s,
  match readFull_loop (S (length (s_r s))) n [] (s_r s) with
  | None => (Panic, s)
  | Some (buf, r, eof) =>
      (if eof && bool_decide (Z.of_nat (length buf) < n) then Err (RlpErr ErrUnexpectedEOF) else Ok buf, set_r r s)
  end.

Definition readFull (n : Z) : D bytes := willRead n;; fill n.

Definition readUint (size : Z) : D Z :=
  if decide (size = 0) then update rearm;; mret 0
  else if decide (size = 1) then b ← readByte; mret (b2z b)
  else if decide (8 < size) then panic
  else
    b ← readFull size;
    match b with
    | [] => mret 0
    | b0 :: _ =>
        if decide (b2z b0 = 0) then throw (RlpErr ErrCanonSize)
        else mret (or_bytes (replicate (8 - Z.to_nat size) Byte.x00 ++ b))
    end.

(** The size behind a long tag. *)
Definition readLong (k : Kind) (n : Z) : D (Kind * Z * option stream_error) := λ s,
  match readUint n s with
  | (Ok size, s) => (Ok (k, size, if decide (size < 56) then Some (RlpErr ErrCanonSize) else None), s)
  | (Err e, s) => (Ok (k, 0, Some e), s)
  | (Panic, s) => (Panic, s)
  end.

(** [readKind]: kind, size and error of the header. *)
Definition stream_readKind : D (Kind * Z * option stream_error) := λ s,
  match readByte s with
  | (Panic, s) => (Panic, s)
  | (Err err, s) =>
      let err :=
        match s_stack s, err with
        | [], RlpErr ErrUnexpectedEOF | [], RlpErr ErrValueTooLarge => io_EOF
        | _, _ => err
        end in
      (Ok (KByte, 0, Some err), s)
  | (Ok tag, s) =>
      let s := set_byteval Byte.x00 s in
      let b := b2z tag in
      if decide (b < 0x80) then (Ok (KByte, 0, None), set_byteval tag s)
      else if decide (b < 0xB8) then (Ok (KString, b - 0x80, None), s)
      else if decide (b < 0xC0) then readLong KString (b - 0xB7) s
      else if decide (b < 0xF8) then (Ok (KList, b - 0xC0, None), s)
      else readLong KList (b - 0xF7) s
  end.

(** The header of the next value, with its size checked against the limits. *)
Definition readAhead (inList : bool) (limit : Z) : D (Kind * Z) := λ s,
  match stream_readKind s with
  | (Ok (k, size, err), s) =>
      let err :=
        match err with
        | Some e => Some e
        | None =>
            if inList && bool_decide (limit < size) then Some ErrElemTooLarge
            else if s_limited s && bool_decide (s_remaining s < size) then Some (RlpErr ErrValueTooLarge)
            else None
        end in
      (match err with None => Ok (k, size) | Some e => Err e end, set_ahead (Some k) size err s)
  | (Err e, s) => (Err e, s)
  | (Panic, s) => (Panic, s)
  end.

(** [Kind]. The limit that the size is compared with is the one before the header was
    read. *)
Definition stream_Kind : D (Kind * Z) := λ s,
  match s_kind s with
  | Some k => (match s_kinderr s with None => Ok (k, s_size s) | Some e => Err e end, s)
  | None =>
      let '(inList, limit) := listLimit s in
      if inList && bool_decide (limit = 0) then (Err EOL, s) else readAhead inList limit s
  end.

(** ** Values *)

(** [s.kind = -1] after the value of a single byte was taken. *)
Definition take_byteval : D byte := λ s, (Ok (s_byteval s), rearm s).

(** A single byte below 128 behind a string header is not canonical. *)
Definition small1 (size : Z) (b : bytes) : bool :=
  match b with b0 :: _ => bool_decide (size = 1) && bool_decide (b2z b0 < 128) | [] => false end.

Definition stream_Bytes : D bytes :=
  '(kind, size) ← stream_Kind;
  match kind with
  | KByte => b ← take_byteval; mret [b]
  | KString =>
      make_bytes size;;
      b ← readFull size;
      if small1 size b then throw (RlpErr ErrCanonSize) else mret b
  | KList => throw (RlpErr ErrExpectedString)
  end.

(** [ReadBytes] into a slice of [n] bytes. *)
Definition ReadBytes (n : Z) : D bytes :=
  '(kind, size) ← stream_Kind;
  match kind with
  | KByte => if decide (n ≠ 1) then throw errWrongSize else b ← take_byteval; mret [b]
  | KString =>
      if decide (n ≠ size) then throw errWrongSize
      else
        b ← readFull n;
        if small1 size b then throw (RlpErr ErrCanonSize) else mret b
  | KList => throw (RlpErr ErrExpectedString)
  end.

Definition Raw : D bytes :=
  '(kind, size) ← stream_Kind;
  match kind with
  | KByte => b ← take_byteval; mret [b]
  | _ =>
      make_bytes (Z.of_nat (headsize size) + size);;
      b ← readFull size;
      mret (match kind with
            | KString => puthead 0x80 0xB7 size
            | _ => puthead 0xC0 0xF7 size
            end ++ b)
  end.

(** [uint(maxbits)]. *)
Definition stream_uint (maxbits : Z) : D Z :=
  '(kind, size) ← stream_Kind;
  match kind with
  | KByte =>
      b ← ask s_byteval;
      if decide (b2z b = 0) then throw (RlpErr ErrCanonInt) else b ← take_byteval; mret (b2z b)
  | KString =>
      if decide (maxbits / 8 < size) then throw (RlpErr errUintOverflow)
      else
        v ← map_err (λ e, if decide (e = RlpErr ErrCanonSize) then RlpErr ErrCanonInt else e) (readUint size);
        if decide (0 < size ∧ v < 128) then throw (RlpErr ErrCanonSize) else mret v
  | KList => throw (RlpErr ErrExpectedString)
  end.

Definition stream_Uint64 : D Z := stream_uint 64.
Definition stream_Uint32 : D Z := stream_uint 32.
Definition stream_Uint16 : D Z := stream_uint 16.
Definition stream_Uint8 : D Z := stream_uint 8.

Definition stream_Bool : D bool :=
  num ← stream_uint 8;
  if decide (num = 0) then mret false
  else if decide (num = 1) then mret true
  else throw errInvalidBool.

(** [List]. The subtraction is on [uint64]. *)
Definition enter (size : Z) (s : Stream) : Stream :=
  let stack := match s_stack s with [] => [] | limit :: outer => u64 (limit - size) :: outer end in
  set_ahead None 0 (s_kinderr s) (set_stack (size :: stack) s).

Definition stream_List : D Z :=
  '(kind, size) ← stream_Kind;
  match kind with
  | KList => update (enter size);; mret size
  | _ => throw (RlpErr ErrExpectedList)
  end.

Definition stream_ListEnd : D () := λ s,
  match s_stack s with
  | [] => (Err errNotInList, s)
  | limit :: outer =>
      if decide (0 < limit) then (Err errNotAtEOL, s)
      else (Ok (), set_ahead None 0 (s_kinderr s) (set_stack outer s))
  end.

Definition MoreDataInList (s : Stream) : bool := bool_decide (0 < snd (listLimit s)).

(** The bytes of an integer: no leading zero. *)
Definition big_content (buffer : bytes) : D Z :=
  match buffer with
  | b0 :: _ => if decide (b2z b0 = 0) then throw (RlpErr ErrCanonInt) else mret (SetBytes buffer)
  | [] => mret 0
  end.

Definition stream_decodeBigInt : D Z :=
  '(kind, size) ← stream_Kind;
  buffer ←
    match kind with
    | KList => throw (RlpErr ErrExpectedString)
    | KByte => b ← take_byteval; mret [b]
    | KString =>
        if decide (size = 0) then update rearm;; mret []
        else if decide (size <= 32) then
          b ← readFull size;
          if small1 size b then throw (RlpErr ErrCanonSize) else mret b
        else make_bytes size;; readFull size
    end;
  big_content buffer.

Definition stream_BigInt : D Z := stream_decodeBigInt.

Definition ReadUint256 : D Z :=
  '(kind, size) ← stream_Kind;
  buffer ←
    match kind with
    | KList => throw (RlpErr ErrExpectedString)
    | KByte => b ← take_byteval; mret [b]
    | KString =>
        if decide (size = 0) then update rearm;; mret []
        else if decide (size <= 32) then
          b ← readFull size;
          if small1 size b then throw (RlpErr ErrCanonSize) else mret b
        else throw errUint256Large
    end;
  big_content buffer.

Example stream_uint_1024 :
  fst (stream_uint 16 (NewStream (z2b <$> [0x82; 0x04; 0x00]) 3)) = Ok 1024.
Proof. vm_compute. reflexivity. Qed.
