(* ===== verification/StreamFacts.v ===== *)
(** * What the stream methods read

    [Pos s r stk]: the stream stands before the input [r] inside lists with the remaining
    sizes [stk], and nothing of [r] was read. [Ahead s k size r stk]: the header of a value
    was read and cached. [At]: either. A reading method is [sound] for a relation between
    values and bytes when its results are related to the bytes it consumed and the limits
    were charged for them, it never panics and reports [EOL] only at the end of a list; it
    is [complete] when it reads every related encoding that fits into the current list. *)
From Stdlib Require Import ZArith Lia.
From Stdlib Require Strings.Byte.
From stdpp Require Import base tactics decidable list numbers sets.
From S2P Require Import Prelude Rlp Stream.

(** ** Positions *)

Definition blen (b : bytes) : Z := Z.of_nat (length b).

(** [lia] on lengths of concrete blocks. *)
Ltac blen_lia := unfold blen in *; cbn [length app] in *; rewrite ?length_app in *; cbn [length] in *; lia.

(** Charging the innermost list for [n] bytes, on [uint64]. *)
Definition charge (n : Z) (stk : list Z) : list Z :=
  match stk with [] => [] | l :: stk => u64 (l - n) :: stk end.

Definition fits (n : Z) (stk : list Z) : Prop :=
  match stk with [] => True | l :: _ => n <= l end.

(** Input, limit and list sizes, whatever is cached. *)
Record Lim (s : Stream) (r : bytes) (stk : list Z) : Prop := {
  lim_r : s_r s = r;
  lim_limited : s_limited s = true;
  lim_remaining : s_remaining s = blen r;
  lim_stack : s_stack s = stk;
  lim_alloc : blen r <= maxAlloc;
  lim_u64 : Forall is_u64 stk
}.

Definition Pos (s : Stream) (r : bytes) (stk : list Z) : Prop := s_kind s = None ∧ Lim s r stk.

Record Ahead (s : Stream) (k : Kind) (size : Z) (r : bytes) (stk : list Z) : Prop := {
  ahead_kind : s_kind s = Some k;
  ahead_err : s_kinderr s = None;
  ahead_size : s_size s = size;
  ahead_fits : size <= blen r;
  ahead_lim : Lim s r stk
}.

(** The header of a value of kind [k] and content size [size]. *)
Definition header (h : bytes) (k : Kind) (size : Z) (x : byte) : Prop :=
  0 <= size < two64 ∧
  match k with
  | KByte => size = 0 ∧ h = [x] ∧ b2z x < 128
  | KString => h = puthead 0x80 0xB7 size
  | KList => h = puthead 0xC0 0xF7 size
  end.

Inductive At (s : Stream) (r : bytes) (stk : list Z) : Prop :=
| at_pos : Pos s r stk → At s r stk
| at_ahead k size h r' : r = h ++ r' → header h k size (s_byteval s) →
    Ahead s k size r' (charge (blen h) stk) → Forall is_u64 stk → blen r <= maxAlloc → At s r stk.

Definition sound {A} (d : D A) (P : A → bytes → Prop) : Prop :=
  ∀ s r stk, At s r stk →
  match d s with
  | (Ok v, s') => ∃ b rest, r = b ++ rest ∧ P v b ∧ b ≠ [] ∧ Pos s' rest (charge (blen b) stk)
  | (Err e, s') => e = EOL → Pos s' r stk ∧ ∃ outer, stk = 0 :: outer
  | (Panic, _) => False
  end.

Definition complete {A} (d : D A) (P : A → bytes → Prop) : Prop :=
  ∀ s v b rest stk, At s (b ++ rest) stk → P v b → fits (blen b) stk →
  ∃ s', d s = (Ok v, s') ∧ Pos s' rest (charge (blen b) stk).

(** At the end of a list every reading method reports [EOL] and changes nothing. *)
Definition ends {A} (d : D A) : Prop :=
  ∀ s r outer, Pos s r (0 :: outer) → d s = (Err EOL, s).

(** ** Arithmetic of limits *)

Lemma maxAlloc_two64 : maxAlloc < two64.
Proof. reflexivity. Qed.

Lemma blen_app b1 b2 : blen (b1 ++ b2) = blen b1 + blen b2.
Proof. unfold blen. rewrite length_app. lia. Qed.

Lemma blen_nonneg b : 0 <= blen b.
Proof. unfold blen. lia. Qed.

Lemma charge_charge n m stk : charge m (charge n stk) = charge (n + m) stk.
Proof.
  destruct stk as [|l stk]; [done|]. cbn. f_equal. unfold u64.
  rewrite Zminus_mod_idemp_l. f_equal. lia.
Qed.

Lemma charge_0 stk : Forall is_u64 stk → charge 0 stk = stk.
Proof. intros H. destruct H; [done|]. cbn. rewrite Z.sub_0_r, u64_small; done. Qed.

Lemma charge_u64 n stk : Forall is_u64 stk → Forall is_u64 (charge n stk).
Proof. intros H. destruct H; [done|]. constructor; [apply u64_range | done]. Qed.

Lemma fits_charge n m stk :
  0 <= n → 0 <= m → Forall is_u64 stk → fits (n + m) stk → fits m (charge n stk).
Proof.
  intros Hn Hm H. destruct H as [|l stk Hl]; [done|]. cbn. unfold is_u64 in Hl. intros Hf.
  rewrite u64_small; unfold is_u64; lia.
Qed.

Lemma fits_le n m stk : n <= m → fits m stk → fits n stk.
Proof. destruct stk; cbn; [done | lia]. Qed.

Lemma fits_dec n stk : fits n stk ∨ ¬ fits n stk.
Proof. destruct stk; cbn; [tauto | lia]. Qed.

Lemma Lim_update s s' r stk :
  s_r s' = s_r s → s_remaining s' = s_remaining s → s_stack s' = s_stack s → s_limited s' = s_limited s →
  Lim s r stk → Lim s' r stk.
Proof. intros E1 E2 E3 E4 []. split; congruence. Qed.

Lemma Lim_rearm s r stk : Lim s r stk → Pos (rearm s) r stk.
Proof. intros H. split; [done|]. by apply (Lim_update s). Qed.

(** ** Reading bytes *)

Lemma willRead_ok s c r stk :
  Lim s (c ++ r) stk → fits (blen c) stk →
  ∃ s', willRead (blen c) s = (Ok (), s') ∧ s_kind s' = None ∧ s_r s' = c ++ r ∧ s_limited s' = true ∧
    s_remaining s' = blen r ∧ s_stack s' = charge (blen c) stk ∧ s_byteval s' = s_byteval s.
Proof.
  intros [Hr Hl Hm Hs Ha Hu] Hf. unfold willRead. cbn. rewrite Hs.
  rewrite blen_app in Hm. pose proof (blen_nonneg r). pose proof (blen_nonneg c).
  destruct Hu as [|l stk Hu _]; cbn in Hf |- *.
  - rewrite Hl, decide_False by lia. eexists. split; [done|]. cbn. repeat split; [done..|lia|done].
  - rewrite decide_False by lia. cbn. rewrite Hl, decide_False by lia.
    eexists. split; [done|]. cbn. repeat split; [done..|lia|].
    rewrite u64_small; [done|]. unfold is_u64 in *. lia.
Qed.

(** Otherwise an error that is neither [EOL] nor a canonicity error. *)
Definition limit_error (e : stream_error) : Prop :=
  e = ErrElemTooLarge ∨ e = RlpErr ErrValueTooLarge.

Lemma willRead_err s r stk n :
  Lim s r stk → ¬ (n <= blen r ∧ fits n stk) →
  ∃ e s', willRead n s = (Err e, s') ∧ limit_error e.
Proof.
  intros [Hr Hl Hm Hs Ha Hu] Hn. unfold willRead, limit_error. cbn. rewrite Hs.
  destruct Hu as [|l stk Hu _]; cbn in Hn |- *; [|case_decide; [by eauto|]; cbn];
    rewrite Hl; (case_decide; [by eauto | lia]).
Qed.

Lemma fill_ok s c r :
  s_r s = c ++ r → fill (blen c) s = (Ok c, set_r r s).
Proof.
  intros Hr. unfold fill. rewrite Hr. cbn [readFull_loop length].
  destruct c as [|x c]; [done|].
  rewrite decide_True by (unfold blen; cbn; lia).
  unfold sliceReader_Read. cbn [app].
  replace (Z.to_nat _) with (length (x :: c)) by (unfold blen; cbn [length]; rewrite length_app; lia).
  rewrite app_comm_cons, take_app_length, drop_app_length. cbn [app length].
  cbn [readFull_loop]. rewrite decide_False by (unfold blen; cbn [length]; lia). done.
Qed.

Lemma readFull_ok s c r stk :
  Lim s (c ++ r) stk → fits (blen c) stk →
  ∃ s', readFull (blen c) s = (Ok c, s') ∧ Pos s' r (charge (blen c) stk) ∧ s_byteval s' = s_byteval s.
Proof.
  intros HL Hf. destruct (willRead_ok s c r stk HL Hf) as (s1 & E & Hk & Hr & Hl & Hm & Hs & Hb).
  unfold readFull, mbind, D_bind. rewrite E, (fill_ok s1 c r Hr). eexists. split; [done|].
  split; [|done]. split; [done|]. destruct HL as [_ _ _ _ Ha Hu]. rewrite blen_app in Ha.
  pose proof (blen_nonneg c). split; cbn; try done; [lia | by apply charge_u64].
Qed.

Lemma readFull_err s r stk n :
  Lim s r stk → ¬ (n <= blen r ∧ fits n stk) →
  ∃ e s', readFull n s = (Err e, s') ∧ limit_error e.
Proof.
  intros HL Hn. destruct (willRead_err s r stk n HL Hn) as (e & s' & E & He).
  unfold readFull, mbind, D_bind. rewrite E. eauto.
Qed.

Lemma readByte_ok s x r stk :
  Lim s (x :: r) stk → fits 1 stk →
  ∃ s', readByte s = (Ok x, s') ∧ Pos s' r (charge 1 stk) ∧ s_byteval s' = s_byteval s.
Proof.
  intros HL Hf. destruct (willRead_ok s [x] r stk HL Hf) as (s1 & E & Hk & Hr & Hl & Hm & Hs & Hb).
  unfold readByte, mbind, D_bind. change (blen [x]) with 1 in *. rewrite E.
  unfold sliceReader_ReadByte. rewrite Hr. cbn [app]. eexists. split; [done|]. split; [|done]. split; [done|].
  destruct HL as [_ _ _ _ Ha Hu]. change (x :: r) with ([x] ++ r) in Ha. rewrite blen_app in Ha.
  change (blen [x]) with 1 in Ha. split; cbn; try done; [lia | by apply charge_u64].
Qed.

Lemma readByte_err s r stk :
  Lim s r stk → r = [] ∨ ¬ fits 1 stk → ∃ e s', readByte s = (Err e, s') ∧ limit_error e.
Proof.
  intros HL Hn. destruct (willRead_err s r stk 1 HL) as (e & s' & E & He).
  { destruct Hn as [->|]; [|tauto]. unfold blen. cbn. lia. }
  unfold readByte, mbind, D_bind. rewrite E. eauto.
Qed.

(** A block of [n] bytes of the input that fits, or not. *)
Lemma block_cases (r : bytes) stk n :
  0 <= n → (∃ c r', r = c ++ r' ∧ blen c = n ∧ fits n stk) ∨ ¬ (n <= blen r ∧ fits n stk).
Proof.
  intros Hn. destruct (decide (n <= blen r)) as [Hle|]; [|right; tauto].
  destruct (fits_dec n stk); [left|right; tauto].
  exists (take (Z.to_nat n) r), (drop (Z.to_nat n) r). rewrite take_drop. split; [done|]. split; [|done].
  unfold blen in *. rewrite length_take. lia.
Qed.

(** ** Integers of a given width *)

Lemma SetBytes_padded n c : SetBytes (replicate n Byte.x00 ++ c) = SetBytes c.
Proof. rewrite SetBytes_app, SetBytes_replicate_0. lia. Qed.

(** [readUint] on a block that fits: its value, or a canonicity error for a leading zero. *)
Lemma readUint_ok s c r stk :
  Lim s (c ++ r) stk → fits (blen c) stk → 1 <= blen c <= 8 →
  ∃ s', Pos s' r (charge (blen c) stk) ∧ s_byteval s' = s_byteval s ∧
    readUint (blen c) s =
      (match c with
       | b0 :: _ :: _ => if decide (b2z b0 = 0) then Err (RlpErr ErrCanonSize) else Ok (SetBytes c)
       | _ => Ok (SetBytes c)
       end, s').
Proof.
  intros HL Hf Hn. destruct c as [|b0 [|b1 c]]; [blen_lia|..].
  - destruct (readByte_ok s b0 r stk HL Hf) as (s' & E & Hp & Hb). exists s'. split; [done|]. split; [done|].
    unfold readUint. change (blen [b0]) with 1. rewrite decide_False, decide_True by done.
    unfold mbind, D_bind. rewrite E. unfold mret, D_ret. done.
  - destruct (readFull_ok s _ r stk HL Hf) as (s' & E & Hp & Hb). exists s'. split; [done|]. split; [done|].
    assert (2 <= blen (b0 :: b1 :: c)) by (unfold blen; cbn [length]; lia).
    unfold readUint. rewrite !decide_False by lia. unfold mbind, D_bind. rewrite E.
    case_decide; [done|]. rewrite or_bytes_SetBytes, SetBytes_padded. done.
Qed.

Lemma readUint_err s r stk n :
  Lim s r stk → 1 <= n <= 8 → ¬ (n <= blen r ∧ fits n stk) →
  ∃ e s', readUint n s = (Err e, s') ∧ limit_error e.
Proof.
  intros HL Hn Hno. unfold readUint. rewrite decide_False by lia.
  destruct (decide (n = 1)) as [->|].
  - destruct (readByte_err s r stk HL) as (e & s' & E & He).
    { destruct r; [by left|right]. intros Hf. apply Hno. split; [unfold blen; cbn; lia | done]. }
    unfold mbind, D_bind. rewrite E. eauto.
  - rewrite decide_False by lia. destruct (readFull_err s r stk n HL Hno) as (e & s' & E & He).
    unfold mbind, D_bind. rewrite E. eauto.
Qed.

(** ** Headers *)

Lemma header_nonempty h k size x : header h k size x → h ≠ [].
Proof.
  intros [_ H]. destruct k; [destruct H as (_ & -> & _); done|..]; subst h;
    [destruct (puthead_nonempty 0x80 0xB7 size) as (? & ? & ->) |
     destruct (puthead_nonempty 0xC0 0xF7 size) as (? & ? & ->)]; done.
Qed.

Lemma header_size h k size x : header h k size x → 0 <= size < two64.
Proof. by intros [? _]. Qed.

(** The bytes of a long size. *)
Lemma long_size c : 1 <= blen c <= 8 →
  match c with b0 :: _ :: _ => b2z b0 ≠ 0 | _ => True end → 56 <= SetBytes c →
  SetBytes c < two64 ∧ putint (SetBytes c) = c.
Proof.
  intros Hl Hz H56. unfold blen in Hl. destruct c as [|b0 c]; [cbn [length] in Hl; lia|].
  assert (b2z b0 ≠ 0) as H0. { destruct c; [|done]. cbn in H56. lia. }
  destruct (putint_canonical b0 c H0) as [? ?]; [lia|]. split; [lia | done].
Qed.

(** [readLong] and the tag byte before it make up a header. *)
Lemma readLong_sound s (k : Kind) n tag r stk st lt :
  (k, st, lt) ∈ [(KString, 0x80, 0xB7); (KList, 0xC0, 0xF7)] → b2z tag = lt + n → 1 <= n <= 8 →
  Lim s r stk →
  match readLong k n s with
  | (Ok (k', size, None), s') => k' = k ∧ ∃ c r', r = c ++ r' ∧ tag :: c = puthead st lt size ∧ 0 <= size < two64 ∧
      Pos s' r' (charge (blen c) stk)
  | (Ok (_, _, Some e), _) => e ≠ EOL
  | _ => False
  end.
Proof.
  intros Hk Ht Hn HL. unfold readLong.
  destruct (block_cases r stk n ltac:(lia)) as [(c & r' & -> & Hc & Hf)|Hno].
  - subst n. destruct (readUint_ok s c r' stk HL Hf Hn) as (s' & Hp & _ & ->).
    assert (∀ v, v = SetBytes c → match c with b0 :: _ :: _ => b2z b0 ≠ 0 | _ => True end →
      56 <= v → tag :: c = puthead st lt v ∧ 0 <= v < two64) as Hlong.
    { intros v -> Hz H56. destruct (long_size c Hn Hz H56) as [Hlt Hp'].
      split; [|lia]. unfold puthead. rewrite decide_False by lia. rewrite Hp'. f_equal.
      apply b2z_inj. rewrite b2z_tag; [unfold blen in Ht; lia|]. pose proof (b2z_range tag). unfold blen in *. lia. }
    destruct c as [|b0 [|b1 c]].
    + blen_lia.
    + case_decide; [done|]. split; [done|]. exists [b0], r'. split; [done|].
      destruct (Hlong _ eq_refl I ltac:(lia)). done.
    + case_decide; [done|]. case_decide; [done|]. split; [done|]. exists (b0 :: b1 :: c), r'. split; [done|].
      destruct (Hlong _ eq_refl ltac:(done) ltac:(lia)). done.
  - destruct (readUint_err s r stk n HL Hn Hno) as (e & s' & -> & He).
    destruct He as [-> | ->]; done.
Qed.

Lemma readLong_complete s (k : Kind) size r stk c :
  56 <= size < two64 → c = putint size → Lim s (c ++ r) stk → fits (blen c) stk →
  ∃ s', readLong k (blen c) s = (Ok (k, size, None), s') ∧ Pos s' r (charge (blen c) stk).
Proof.
  intros Hs -> HL Hf. pose proof (intsize_range size ltac:(lia)) as Hi. rewrite <-length_putint in Hi by lia.
  destruct (readUint_ok s _ r stk HL Hf) as (s' & Hp & _ & E); [unfold blen; lia|].
  exists s'. split; [|done]. unfold readLong. rewrite E.
  destruct (putint_head size ltac:(lia)) as (b0 & bs & Ep & H0).
  assert (match putint size with
          | b0 :: _ :: _ => if decide (b2z b0 = 0) then Err (RlpErr ErrCanonSize) else Ok (SetBytes (putint size))
          | _ => Ok (SetBytes (putint size))
          end = Ok (E := stream_error) (SetBytes (putint size))) as ->.
  { rewrite Ep. destruct bs; [done|]. by rewrite decide_False. }
  rewrite SetBytes_putint by lia. by rewrite decide_False by lia.
Qed.

(** The first byte of a header determines its shape. *)
Lemma puthead_tag st lt size :
  (st, lt) ∈ [(0x80, 0xB7); (0xC0, 0xF7)] → 0 <= size < two64 →
  ∃ tag tail, puthead st lt size = tag :: tail ∧
    (size < 56 ∧ b2z tag = st + size ∧ tail = [] ∨
     56 <= size ∧ b2z tag = lt + blen tail ∧ tail = putint size ∧ 1 <= blen tail <= 8).
Proof.
  intros Hst Hs. assert (st = 0x80 ∧ lt = 0xB7 ∨ st = 0xC0 ∧ lt = 0xF7) as Hst'.
  { rewrite !elem_of_cons, elem_of_nil in Hst. destruct Hst as [[= -> ->]|[[= -> ->]|[]]]; auto. }
  clear Hst. unfold puthead. case_decide as H56.
  - eexists _, _. split; [done|]. left. rewrite b2z_tag by lia. done.
  - eexists _, _. split; [done|]. right. pose proof (intsize_range size Hs) as Hi.
    rewrite <-length_putint in Hi by lia. unfold blen. rewrite b2z_tag by lia. split; [lia|]. split; [done|].
    split; [done | lia].
Qed.

Lemma header_tag h k size x :
  header h k size x → ∃ tag tail, h = tag :: tail ∧ 0 <= size < two64 ∧
    match k with
    | KByte => b2z tag < 128 ∧ tail = [] ∧ size = 0
    | KString => size < 56 ∧ b2z tag = 0x80 + size ∧ tail = [] ∨
        56 <= size ∧ b2z tag = 0xB7 + blen tail ∧ tail = putint size ∧ 1 <= blen tail <= 8
    | KList => size < 56 ∧ b2z tag = 0xC0 + size ∧ tail = [] ∨
        56 <= size ∧ b2z tag = 0xF7 + blen tail ∧ tail = putint size ∧ 1 <= blen tail <= 8
    end.
Proof.
  intros [Hs H]. destruct k.
  - destruct H as (-> & -> & Hx). exists x, []. split; [done|]. split; [done|]. split; [lia | done].
  - subst h. destruct (puthead_tag 0x80 0xB7 size) as (tag & tail & -> & Ht); [set_solver | done|].
    exists tag, tail. done.
  - subst h. destruct (puthead_tag 0xC0 0xF7 size) as (tag & tail & -> & Ht); [set_solver | done|].
    exists tag, tail. done.
Qed.

Lemma header_inj h k size x r h' k' size' x' r' :
  header h k size x → header h' k' size' x' → h ++ r = h' ++ r' → k = k' ∧ size = size' ∧ h = h' ∧ r = r'.
Proof.
  intros (t & l & -> & Hs & H)%header_tag (t' & l' & -> & Hs' & H')%header_tag.
  cbn [app]. intros [= <- E].
  assert (∀ n, 56 <= size → 56 <= size' → b2z t = n + blen l → b2z t = n + blen l' →
    l = putint size → l' = putint size' → size = size' ∧ t :: l = t :: l' ∧ r = r') as Hlong.
  { intros n ?? Hl Hl' -> ->. apply app_inj_1 in E as [Ep ->]; [|unfold blen in *; lia].
    rewrite <-(SetBytes_putint size), <-(SetBytes_putint size'), Ep by lia. done. }
  assert (∀ n, b2z t = n + size → b2z t = n + size' → l = [] → l' = [] →
    size = size' ∧ t :: l = t :: l' ∧ r = r') as Hshort.
  { intros n ?? -> ->. cbn in E. split; [lia | done]. }
  destruct k, k'; try (split; [done|]); try (exfalso; lia).
  - destruct H as (_ & -> & ->), H' as (_ & -> & ->). done.
  - destruct H as [(? & ? & ?)|(? & ? & ? & ?)], H' as [(? & ? & ?)|(? & ? & ? & ?)]; try (exfalso; lia); eauto.
  - destruct H as [(? & ? & ?)|(? & ? & ? & ?)], H' as [(? & ? & ?)|(? & ? & ? & ?)]; try (exfalso; lia); eauto.
Qed.

(** ** The value ahead *)

Lemma Lim_byteval s x r stk : Lim s r stk → Lim (set_byteval x s) r stk.
Proof. by apply Lim_update. Qed.

Lemma readKind_err s r stk :
  Lim s r stk → r = [] ∨ ¬ fits 1 stk →
  ∃ e s', stream_readKind s = (Ok (KByte, 0, Some e), s') ∧ e ≠ EOL.
Proof.
  intros HL Hno. destruct (readByte_err s r stk HL Hno) as (e & s' & E & He).
  unfold stream_readKind. rewrite E. eexists _, _. split; [done|].
  destruct He as [-> | ->]; destruct (s_stack s'); done.
Qed.

Lemma readKind_sound s r stk :
  Pos s r stk →
  match stream_readKind s with
  | (Ok (k, size, None), s') =>
      ∃ h r', r = h ++ r' ∧ header h k size (s_byteval s') ∧ Pos s' r' (charge (blen h) stk)
  | (Ok (_, _, Some e), _) => e ≠ EOL
  | _ => False
  end.
Proof.
  intros [_ HL]. destruct r as [|tag r].
  { destruct (readKind_err s [] stk HL) as (e & s' & -> & He); [by left | done]. }
  destruct (fits_dec 1 stk) as [Hf|Hf]; cycle 1.
  { destruct (readKind_err s _ stk HL) as (e & s' & -> & He); [by right | done]. }
  unfold stream_readKind.
  destruct (readByte_ok s tag r stk HL Hf) as (s1 & -> & [Hk HL1] & _).
  pose proof (b2z_range tag) as Hb.
  assert (∀ k st lt n, (k, st, lt) ∈ [(KString, 0x80, 0xB7); (KList, 0xC0, 0xF7)] →
    b2z tag = lt + n → 1 <= n <= 8 → (∀ size x, tag :: size = puthead st lt x → 0 <= x < two64 →
       header (tag :: size) k x Byte.x00 ∧ k ≠ KByte) →
    match readLong k n (set_byteval Byte.x00 s1) with
    | (Ok (k, size, None), s') =>
        ∃ h r', tag :: r = h ++ r' ∧ header h k size (s_byteval s') ∧ Pos s' r' (charge (blen h) stk)
    | (Ok (_, _, Some e), _) => e ≠ EOL
    | _ => False
    end) as Hlong.
  { intros k st lt n Hin Ht Hn Hh.
    pose proof (readLong_sound (set_byteval Byte.x00 s1) k n tag r (charge 1 stk) st lt Hin Ht Hn
      (Lim_byteval _ _ _ _ HL1)) as H.
    destruct (readLong k n _) as [[[[k' size] [e|]]|?|] s']; try done.
    destruct H as (-> & c & r' & -> & Ep & Hsz & Hp). exists (tag :: c), r'. split; [done|].
    destruct (Hh c size Ep Hsz) as [Hh' Hkb]. split.
    - destruct Hh' as [? Hk']. split; [done|]. destruct k; done.
    - rewrite charge_charge in Hp. replace (blen (tag :: c)) with (1 + blen c) by blen_lia. done. }
  assert (∀ k size x s', Pos s' r (charge 1 stk) → s_byteval s' = x → header [tag] k size x →
    ∃ h r', tag :: r = h ++ r' ∧ header h k size (s_byteval s') ∧ Pos s' r' (charge (blen h) stk)) as Hshort.
  { intros k size x s' Hp <- Hh. exists [tag], r. done. }
  assert (∀ x, Pos (set_byteval x s1) r (charge 1 stk)) as Hp1.
  { intros x. split; [done|]. by apply Lim_byteval. }
  repeat case_decide.
  - eapply Hshort; [apply Hp1 | done |]. split; [done|]. split; [done|]. split; [done | cbn; lia].
  - eapply Hshort; [apply Hp1 | done |]. split; [rewrite two64_val; lia|]. unfold puthead.
    rewrite decide_True by lia. f_equal. replace (128 + (b2z tag - 128)) with (b2z tag) by lia. by rewrite z2b_b2z.
  - apply (Hlong KString 0x80 0xB7); [set_solver | lia | lia |]. intros c x -> Hx. split; [by split | done].
  - eapply Hshort; [apply Hp1 | done |]. split; [rewrite two64_val; lia|]. unfold puthead.
    rewrite decide_True by lia. f_equal. replace (192 + (b2z tag - 192)) with (b2z tag) by lia. by rewrite z2b_b2z.
  - apply (Hlong KList 0xC0 0xF7); [set_solver | lia | lia |]. intros c x -> Hx. split; [by split | done].
Qed.

Lemma readKind_complete s h r stk k size x :
  Pos s (h ++ r) stk → header h k size x → fits (blen h) stk →
  ∃ s', stream_readKind s = (Ok (k, size, None), s') ∧ header h k size (s_byteval s') ∧
    Pos s' r (charge (blen h) stk).
Proof.
  intros [_ HL] Hh Hf. pose proof (header_tag _ _ _ _ Hh) as (tag & tail & -> & Hs & Ht).
  assert (fits 1 stk) as Hf1 by (eapply fits_le; [|done]; blen_lia).
  assert (Forall is_u64 stk) as Hu by apply HL.
  destruct (readByte_ok s tag (tail ++ r) stk HL Hf1) as (s1 & E & [Hk HL1] & _).
  unfold stream_readKind. rewrite E. pose proof (b2z_range tag) as Hb.
  assert (∀ x, Pos (set_byteval x s1) (tail ++ r) (charge 1 stk)) as Hp1.
  { intros y. split; [done|]. by apply Lim_byteval. }
  assert (tail = [] → ∀ y, (k = KByte → y = tag) → header (tag :: tail) k size (s_byteval (set_byteval y s1)) ∧
    Pos (set_byteval y s1) r (charge (blen (tag :: tail)) stk)) as Hshort.
  { intros -> y Hy. split; [|apply Hp1]. destruct Hh as [? Hh]. split; [done|].
    destruct k; [|done..]. destruct Hh as (-> & [= ->] & ?). cbn. rewrite (Hy eq_refl). done. }
  assert (∀ k', k' = k → k ≠ KByte → 56 <= size → tail = putint size →
    ∃ s', readLong k' (blen tail) (set_byteval Byte.x00 s1) = (Ok (k, size, None), s') ∧
      header (tag :: tail) k size (s_byteval s') ∧ Pos s' r (charge (blen (tag :: tail)) stk)) as Hlong.
  { intros k' -> Hkb H56 Et.
    destruct (readLong_complete (set_byteval Byte.x00 s1) k size r (charge 1 stk) tail) as (s' & E' & Hp');
      [lia | done | apply Hp1 | |].
    { apply fits_charge; [lia | apply blen_nonneg | done |]. eapply fits_le; [|exact Hf]. blen_lia. }
    exists s'. split; [done|]. split.
    - destruct Hh as [? Hh]. split; [done|]. by destruct k.
    - rewrite charge_charge in Hp'. replace (blen (tag :: tail)) with (1 + blen tail) by blen_lia. done. }
  destruct k.
  - destruct Ht as (? & ? & ->). rewrite decide_True by lia. eexists. split; [done|]. by apply Hshort.
  - destruct Ht as [(? & ? & ?)|(? & Htag & ? & ?)].
    + rewrite decide_False, decide_True by lia. eexists.
      replace (b2z tag - 128) with size by lia. split; [done|]. by apply Hshort.
    + rewrite decide_False, decide_False, decide_True by lia.
      replace (b2z tag - 183) with (blen tail) by lia. by apply Hlong.
  - destruct Ht as [(? & ? & ?)|(? & Htag & ? & ?)].
    + rewrite decide_False, decide_False, decide_False, decide_True by lia. eexists.
      replace (b2z tag - 192) with size by lia. split; [done|]. by apply Hshort.
    + rewrite !decide_False by lia.
      replace (b2z tag - 247) with (blen tail) by lia. by apply Hlong.
Qed.

Lemma Lim_ahead s k size err r stk : Lim s r stk → Lim (set_ahead k size err s) r stk.
Proof. by apply Lim_update. Qed.

Lemma At_u64 s r stk : At s r stk → Forall is_u64 stk ∧ blen r <= maxAlloc.
Proof. intros [[_ []]|]; done. Qed.

Lemma readAhead_sound inList limit s r stk :
  Pos s r stk →
  match readAhead inList limit s with
  | (Ok (k, size), s') => ∃ h r', r = h ++ r' ∧ header h k size (s_byteval s') ∧
      Ahead s' k size r' (charge (blen h) stk)
  | (Err e, s') => e ≠ EOL
  | (Panic, _) => False
  end.
Proof.
  intros Hp. pose proof (readKind_sound s r stk Hp) as H. unfold readAhead.
  destruct (stream_readKind s) as [[[[k size] [e|]]|?|] s']; try done.
  destruct H as (h & r' & -> & Hh & [Hk' HL']). cbv zeta.
  destruct (inList && bool_decide (limit < size)); [done|].
  destruct (s_limited s' && bool_decide (s_remaining s' < size)) eqn:Em; [done|].
  exists h, r'. split; [done|]. split; [done|]. split; try done; [|by apply Lim_ahead].
  rewrite (lim_limited _ _ _ HL'), (lim_remaining _ _ _ HL') in Em. cbn in Em.
  apply bool_decide_eq_false in Em. lia.
Qed.

Lemma Kind_sound s r stk :
  At s r stk →
  match stream_Kind s with
  | (Ok (k, size), s') => ∃ h r', r = h ++ r' ∧ header h k size (s_byteval s') ∧
      Ahead s' k size r' (charge (blen h) stk)
  | (Err e, s') => e = EOL → Pos s' r stk ∧ ∃ outer, stk = 0 :: outer
  | (Panic, _) => False
  end.
Proof.
  intros [Hp|k size h r' -> Hh HA _ _]; unfold stream_Kind; cycle 1.
  { rewrite (ahead_kind _ _ _ _ _ HA), (ahead_err _ _ _ _ _ HA), (ahead_size _ _ _ _ _ HA).
    exists h, r'. done. }
  pose proof Hp as [Hk HL]. rewrite Hk. unfold listLimit. rewrite (lim_stack _ _ _ HL).
  destruct stk as [|l stk]; cbn [andb].
  - pose proof (readAhead_sound false 0 s r [] Hp) as H.
    destruct (readAhead false 0 s) as [[[k size]|e|] s']; done.
  - case_bool_decide as Hl; [subst l; eauto|].
    pose proof (readAhead_sound true l s r _ Hp) as H.
    destruct (readAhead true l s) as [[[k size]|e|] s']; done.
Qed.

Lemma Kind_complete s h r stk k size x :
  At s (h ++ r) stk → header h k size x → size <= blen r → fits (blen h + size) stk →
  ∃ s', stream_Kind s = (Ok (k, size), s') ∧ header h k size (s_byteval s') ∧
    Ahead s' k size r (charge (blen h) stk).
Proof.
  intros [Hp|k' size' h' r' E Hh' HA _ _] Hh Hsz Hf; cycle 1.
  { destruct (header_inj _ _ _ _ _ _ _ _ _ _ Hh Hh' E) as (<- & <- & <- & <-).
    exists s. split; [|done]. unfold stream_Kind. by rewrite (ahead_kind _ _ _ _ _ HA), (ahead_err _ _ _ _ _ HA), (ahead_size _ _ _ _ _ HA). }
  pose proof (header_size _ _ _ _ Hh).
  assert (fits (blen h) stk) as Hfh by (eapply fits_le; [|done]; lia).
  destruct (readKind_complete s h r stk k size x Hp Hh Hfh) as (s' & E & Hh' & [Hk' HL']).
  exists (set_ahead (Some k) size None s'). destruct Hp as [Hk HL]. split; [|split; [done|]].
  - unfold stream_Kind. rewrite Hk. unfold listLimit. rewrite (lim_stack _ _ _ HL).
    pose proof (header_nonempty _ _ _ _ Hh). assert (0 < blen h) by (destruct h; [done | blen_lia]).
    destruct stk as [|l stk]; cbn [andb]; cbn in Hf.
    + unfold readAhead. rewrite E. cbv zeta. rewrite (lim_remaining _ _ _ HL'), (bool_decide_eq_false_2 (blen r < size)) by lia.
      by rewrite andb_false_r.
    + rewrite bool_decide_eq_false_2 by lia. unfold readAhead. rewrite E. cbv zeta.
      rewrite (bool_decide_eq_false_2 (l < size)) by lia. cbn [andb].
      rewrite (lim_remaining _ _ _ HL'), (bool_decide_eq_false_2 (blen r < size)) by lia.
      by rewrite andb_false_r.
  - split; try done. by apply Lim_ahead.
Qed.

Lemma Kind_ends : ends stream_Kind.
Proof.
  intros s r outer [Hk HL]. unfold stream_Kind, listLimit.
  by rewrite Hk, (lim_stack _ _ _ HL).
Qed.

(** ** Readers that start with [Kind] *)

(** What [body] may do once the header [h] was read. *)
Definition reads {A} (P : A → bytes → Prop) (h r : bytes) (stk : list Z) (o : res stream_error A * Stream) : Prop :=
  match o with
  | (Ok v, s') => ∃ c rest, r = c ++ rest ∧ P v (h ++ c) ∧ Pos s' rest (charge (blen (h ++ c)) stk)
  | (Err e, _) => e ≠ EOL
  | (Panic, _) => False
  end.

Lemma sound_Kind {A} (body : Kind * Z → D A) (P : A → bytes → Prop) :
  (∀ s h k size r stk, header h k size (s_byteval s) → Ahead s k size r (charge (blen h) stk) →
     blen (h ++ r) <= maxAlloc → reads P h r stk (body (k, size) s)) →
  sound (stream_Kind ≫= body) P.
Proof.
  intros Hbody s r stk Hat. pose proof (Kind_sound s r stk Hat) as H.
  pose proof (At_u64 _ _ _ Hat) as [_ Ha]. unfold mbind, D_bind.
  destruct (stream_Kind s) as [[[k size]|e|] s']; [|done|done].
  destruct H as (h & r' & -> & Hh & HA). specialize (Hbody s' h k size r' stk Hh HA Ha).
  destruct (body (k, size) s') as [[v|e|] s'']; [|done..].
  destruct Hbody as (c & rest & -> & HP & Hp). exists (h ++ c), rest. split; [by rewrite app_assoc|].
  split; [done|]. split; [|done]. apply header_nonempty in Hh. by destruct h.
Qed.

Lemma complete_Kind {A} (body : Kind * Z → D A) (P : A → bytes → Prop) :
  (∀ v b, P v b → blen b <= maxAlloc → ∃ h c k x, b = h ++ c ∧ header h k (blen c) x ∧
     ∀ s r stk, header h k (blen c) (s_byteval s) → Ahead s k (blen c) (c ++ r) stk → fits (blen c) stk →
     ∃ s', body (k, blen c) s = (Ok v, s') ∧ Pos s' r (charge (blen c) stk)) →
  complete (stream_Kind ≫= body) P.
Proof.
  intros Hbody s v b rest stk Hat HP Hf. pose proof (At_u64 _ _ _ Hat) as [Hu Ha].
  rewrite blen_app in Ha. pose proof (blen_nonneg rest).
  destruct (Hbody v b HP ltac:(lia)) as (h & c & k & x & -> & Hh & Hrun).
  rewrite <-app_assoc in Hat. rewrite blen_app in Hf |- *.
  pose proof (blen_nonneg c). pose proof (blen_nonneg h).
  destruct (Kind_complete s h (c ++ rest) stk k (blen c) x Hat Hh) as (s1 & E & Hh1 & HA);
    [rewrite blen_app; lia | done |].
  destruct (Hrun s1 rest _ Hh1 HA) as (s' & E' & Hp); [by apply fits_charge|].
  exists s'. unfold mbind, D_bind. rewrite E. split; [done|]. by rewrite charge_charge in Hp.
Qed.

Lemma ends_Kind {A} (body : Kind * Z → D A) : ends (stream_Kind ≫= body).
Proof. intros s r outer Hp. unfold mbind, D_bind. by rewrite (Kind_ends s r outer Hp). Qed.

(** ** Strings *)

Lemma header_byte_enc h size x : header h KByte size x → h = enc_str [x] ∧ h = [x] ∧ size = 0 ∧ b2z x < 128.
Proof.
  intros (_ & -> & -> & Hx). split; [|done]. cbn. rewrite decide_True; [done | lia].
Qed.

Lemma enc_str_long c : ¬ small_single c → enc_str c = puthead 0x80 0xB7 (blen c) ++ c.
Proof.
  destruct c as [|x [|y c]]; try done. cbn. intros. by rewrite decide_False by lia.
Qed.

(** The header and content of a string. *)
Lemma enc_str_view c : blen c < two64 →
  ∃ h c' k x, enc_str c = h ++ c' ∧ header h k (blen c') x ∧
    (k = KByte ∧ c = [x] ∧ h = [x] ∧ c' = [] ∧ b2z x < 128 ∨ k = KString ∧ c' = c ∧ ¬ small_single c).
Proof.
  intros Hc. pose proof (blen_nonneg c).
  assert (small_single c ∨ ¬ small_single c) as [Hs|Hs] by (destruct c as [|x [|]]; cbn; [tauto | lia | tauto]).
  - destruct c as [|x [|]]; try done. cbn in Hs. exists [x], [], KByte, x. cbn. rewrite decide_True by lia.
    split; [done|]. split; [done|]. left. done.
  - exists (puthead 0x80 0xB7 (blen c)), c, KString, Byte.x00. split; [by apply enc_str_long|].
    split; [split; [lia | done]|]. right. done.
Qed.

(** The content of a string, or an error of the limits. *)
Lemma content_cases s k size r stk :
  Ahead s k size r stk → 0 <= size →
  (∃ c rest s', r = c ++ rest ∧ blen c = size ∧ readFull size s = (Ok c, s') ∧ Pos s' rest (charge size stk)) ∨
  (∃ e s', readFull size s = (Err e, s') ∧ limit_error e).
Proof.
  intros HA Hs. pose proof (ahead_lim _ _ _ _ _ HA) as HL.
  destruct (block_cases r stk size Hs) as [(c & r' & -> & Hc & Hf)|Hno].
  - left. subst size. destruct (readFull_ok s c r' stk HL Hf) as (s' & E & Hp & _). eauto 10.
  - right. by apply (readFull_err s r stk).
Qed.

Lemma content_ok s k c r stk :
  Ahead s k (blen c) (c ++ r) stk → fits (blen c) stk →
  ∃ s', readFull (blen c) s = (Ok c, s') ∧ Pos s' r (charge (blen c) stk).
Proof.
  intros HA Hf. destruct (readFull_ok s c r stk (ahead_lim _ _ _ _ _ HA) Hf) as (s' & E & Hp & _). eauto.
Qed.

Lemma limit_not_EOL e : limit_error e → e ≠ EOL.
Proof. intros [-> | ->]; done. Qed.

Lemma small1_single c : small1 (blen c) c = false ↔ ¬ small_single c.
Proof.
  destruct c as [|x [|y c]]; cbn [small1 small_single]; [tauto|..].
  - change (blen [x]) with 1. rewrite bool_decide_eq_true_2 by done. cbn. rewrite bool_decide_eq_false. tauto.
  - rewrite bool_decide_eq_false_2 by blen_lia. tauto.
Qed.

Lemma make_bytes_ok size s : size <= maxAlloc → make_bytes size s = (Ok (), s).
Proof. intros. unfold make_bytes. by rewrite decide_False by lia. Qed.

(** The single byte of the header. *)
Lemma byte_reads {A} (P : A → bytes → Prop) s h size r stk v :
  header h KByte size (s_byteval s) → Ahead s KByte size r (charge (blen h) stk) → P v h →
  reads P h r stk (Ok v, rearm s).
Proof.
  intros Hh HA HP. exists [], r. rewrite app_nil_r. split; [done|]. split; [done|].
  apply Lim_rearm, (ahead_lim _ _ _ _ _ HA).
Qed.

(** A string content [c] behind its header. *)
Lemma string_reads {A} (P : A → bytes → Prop) s h size r rest stk v c x :
  header h KString size x → r = c ++ rest → blen c = size → Pos s rest (charge size (charge (blen h) stk)) →
  (¬ small_single c → P v (enc_str c)) → ¬ small_single c → reads P h r stk (Ok v, s).
Proof.
  intros [_ ->] -> <- Hp HP Hs. exists c, rest. rewrite charge_charge, <-blen_app in Hp.
  split; [done|]. rewrite <-enc_str_long by done. rewrite <-enc_str_long in Hp by done. auto.
Qed.

Definition str_repr (v b : bytes) : Prop := b = enc_str v.

(** Run a reader one step. *)
Ltac run := unfold mbind, D_bind, mret, D_ret, throw, update, take_byteval, ask.

Lemma Bytes_sound : sound stream_Bytes str_repr.
Proof.
  apply sound_Kind. intros s h k size r stk Hh HA Ha. pose proof (header_size _ _ _ _ Hh) as Hs.
  destruct k; cbn.
  - apply (byte_reads _ s h size); [done..|]. by apply header_byte_enc in Hh as [? _].
  - run. pose proof (ahead_fits _ _ _ _ _ HA). rewrite blen_app in Ha. pose proof (blen_nonneg h).
    rewrite make_bytes_ok by lia.
    destruct (content_cases s _ _ _ _ HA) as [(c & rest & s' & -> & Hc & -> & Hp)|(e & s' & -> & He)];
      [lia | | by apply limit_not_EOL].
    subst size. destruct (small1 _ c) eqn:E1; [done|]. apply small1_single in E1.
    by apply (string_reads _ _ _ _ _ rest _ _ c (s_byteval s) Hh).
  - done.
Qed.

Lemma str_content v b : str_repr v b → blen b <= maxAlloc → blen v <= maxAlloc ∧ blen v < two64.
Proof.
  intros -> Hb. pose proof maxAlloc_two64. assert (blen v <= blen (enc_str v)); [|lia].
  destruct v as [|x [|y v]]; cbn [enc_str]; [|case_decide|]; rewrite ?blen_app;
    try (pose proof (blen_nonneg (puthead 0x80 0xB7 (Z.of_nat (length [x])))));
    try (pose proof (blen_nonneg (puthead 0x80 0xB7 (Z.of_nat (length (x :: y :: v))))));
    try apply blen_nonneg; lia.
Qed.

(** Completeness of a reader of strings with contents in [Q]: the case of a single byte and
    of a content behind a header. *)
Lemma complete_string {A} (body : Kind * Z → D A) (Q : A → bytes → Prop) :
  (∀ s v x, Q v [x] → b2z x < 128 → s_byteval s = x → body (KByte, 0) s = (Ok v, rearm s)) →
  (∀ s v c r stk, Q v c → ¬ small_single c → blen c <= maxAlloc →
     Ahead s KString (blen c) (c ++ r) stk → fits (blen c) stk →
     ∃ s', body (KString, blen c) s = (Ok v, s') ∧ Pos s' r (charge (blen c) stk)) →
  complete (stream_Kind ≫= body) (λ v b, ∃ c, str_repr c b ∧ Q v c).
Proof.
  intros Hbyte Hstr. apply complete_Kind. intros v b (c & Hb & HQ) Ha.
  destruct (str_content c b Hb Ha) as [Hca Hc]. rewrite Hb.
  destruct (enc_str_view c Hc) as (h & c' & k & x & E & Hh & Hcase).
  exists h, c', k, x. split; [done|]. split; [done|]. intros s r stk Hh' HA Hf.
  destruct Hcase as [(-> & -> & -> & -> & Hx)|(-> & -> & Hs)]; [|by apply Hstr].
  exists (rearm s). split.
  - apply (Hbyte s v x); [done | done |]. destruct Hh' as (_ & _ & [= E'] & _). done.
  - change (blen []) with 0. rewrite charge_0 by apply (ahead_lim _ _ _ _ _ HA).
    apply Lim_rearm. apply (ahead_lim _ _ _ _ _ HA).
Qed.

Lemma complete_ext {A} (d : D A) (P Q : A → bytes → Prop) :
  (∀ v b, P v b → Q v b) → complete d Q → complete d P.
Proof. intros H Hc s v b rest stk Hat HP Hf. eauto. Qed.

Lemma sound_ext {A} (d : D A) (P Q : A → bytes → Prop) :
  (∀ v b, P v b → Q v b) → sound d P → sound d Q.
Proof.
  intros H Hs s r stk Hat. specialize (Hs s r stk Hat). destruct (d s) as [[v|e|] s']; try done.
  destruct Hs as (b & rest & ? & ? & ? & ?). eauto 10.
Qed.

Lemma Bytes_complete : complete stream_Bytes str_repr.
Proof.
  apply complete_ext with (Q := λ v b, ∃ c, str_repr c b ∧ v = c); [eauto|].
  apply complete_string.
  - intros s v x -> Hx <-. done.
  - intros s v c r stk -> Hs Ha HA Hf. run. rewrite make_bytes_ok by done.
    destruct (content_ok _ _ _ _ _ HA Hf) as (s' & -> & Hp). apply small1_single in Hs. rewrite Hs. eauto.
Qed.

Definition bytes_repr (n : Z) (v b : bytes) : Prop := str_repr v b ∧ blen v = n.

Lemma ReadBytes_sound n : sound (ReadBytes n) (bytes_repr n).
Proof.
  apply sound_Kind. intros s h k size r stk Hh HA Ha. pose proof (header_size _ _ _ _ Hh) as Hs.
  destruct k; cbn.
  - case_decide as Hn; [done|]. apply (byte_reads _ s h size); [done..|].
    apply header_byte_enc in Hh as [? _]. split; [done|]. change (blen [s_byteval s]) with 1. lia.
  - case_decide as Hn; [done|]. run. assert (n = size) as -> by lia.
    destruct (content_cases s _ _ _ _ HA) as [(c & rest & s' & -> & Hc & -> & Hp)|(e & s' & -> & He)];
      [lia | | by apply limit_not_EOL].
    subst size. destruct (small1 _ c) eqn:E1; [done|]. apply small1_single in E1.
    by apply (string_reads _ _ _ _ _ rest _ _ c (s_byteval s) Hh).
  - done.
Qed.

Lemma ReadBytes_complete n : complete (ReadBytes n) (bytes_repr n).
Proof.
  apply complete_ext with (Q := λ v b, ∃ c, str_repr c b ∧ (v = c ∧ blen c = n)); [intros v b [??]; eauto|].
  apply complete_string.
  - intros s v x [-> Hn] Hx <-. change (blen [s_byteval s]) with 1 in Hn. cbn. by rewrite decide_False by lia.
  - intros s v c r stk [-> Hn] Hs Ha HA Hf. cbn. rewrite decide_False by lia. run. rewrite <-Hn.
    destruct (content_ok _ _ _ _ _ HA Hf) as (s' & -> & Hp). apply small1_single in Hs. rewrite Hs. eauto.
Qed.

(** A raw value: any header with as many bytes as it announces. *)
Definition raw_repr (v b : bytes) : Prop :=
  v = b ∧ ∃ h c k x, b = h ++ c ∧ header h k (blen c) x.

Lemma header_length h k size x : header h k size x → k ≠ KByte → blen h = Z.of_nat (headsize size).
Proof.
  intros [Hs H] Hk. destruct k; [done|..]; subst h; unfold blen; by rewrite length_puthead.
Qed.

Lemma Raw_body_sound s h k size r stk :
  k ≠ KByte → header h k size (s_byteval s) → Ahead s k size r (charge (blen h) stk) →
  blen (h ++ r) <= maxAlloc →
  reads raw_repr h r stk
    ((make_bytes (Z.of_nat (headsize size) + size);; b ← readFull size; mret (h ++ b)) s).
Proof.
  intros Hk Hh HA Ha. pose proof (header_size _ _ _ _ Hh) as Hs. pose proof (ahead_fits _ _ _ _ _ HA).
  rewrite blen_app in Ha. rewrite <-(header_length _ _ _ _ Hh Hk). run. rewrite make_bytes_ok by lia.
  destruct (content_cases s _ _ _ _ HA) as [(c & rest & s' & -> & Hc & -> & Hp)|(e & s' & -> & He)];
    [lia | | by apply limit_not_EOL].
  subst size. exists c, rest. split; [done|]. split; [split; [done | by eauto 10]|].
  by rewrite charge_charge, <-blen_app in Hp.
Qed.

Lemma Raw_sound : sound Raw raw_repr.
Proof.
  apply sound_Kind. intros s h k size r stk Hh HA Ha. destruct k.
  - apply (byte_reads _ s h size); [done..|]. apply header_byte_enc in Hh as Hh'. destruct Hh' as (_ & -> & -> & _).
    split; [done|]. by exists [s_byteval s], [], KByte, (s_byteval s).
  - pose proof Hh as [_ Eh]. unfold Raw. rewrite <-Eh. by apply Raw_body_sound with (k := KString).
  - pose proof Hh as [_ Eh]. unfold Raw. rewrite <-Eh. by apply Raw_body_sound with (k := KList).
Qed.

Lemma Raw_complete : complete Raw raw_repr.
Proof.
  apply complete_Kind. intros v b (-> & h & c & k & x & -> & Hh) Ha.
  exists h, c, k, x. split; [done|]. split; [done|]. intros s r stk Hh' HA Hf.
  rewrite blen_app in Ha. destruct k.
  - destruct Hh' as (_ & Hc & -> & _). assert (c = []) as -> by (destruct c; [done | blen_lia]).
    exists (rearm s). split; [done|]. change (blen []) with 0.
    rewrite charge_0 by apply (ahead_lim _ _ _ _ _ HA). apply Lim_rearm, (ahead_lim _ _ _ _ _ HA).
  - rewrite (header_length _ _ _ _ Hh) in Ha by done. destruct Hh as [_ ->]. run.
    rewrite make_bytes_ok by lia. destruct (content_ok _ _ _ _ _ HA Hf) as (s' & -> & Hp). eauto.
  - rewrite (header_length _ _ _ _ Hh) in Ha by done. destruct Hh as [_ ->]. run.
    rewrite make_bytes_ok by lia. destruct (content_ok _ _ _ _ _ HA Hf) as (s' & -> & Hp). eauto.
Qed.

(** ** Integers *)

Definition uint_repr (bits v : Z) (b : bytes) : Prop := b = enc_uint v ∧ 0 <= v < 2 ^ bits.
Definition big_repr (v : Z) (b : bytes) : Prop := b = enc_uint v ∧ 0 <= v.

Lemma big_Bytes_SetBytes c :
  match c with b0 :: _ => b2z b0 ≠ 0 | [] => True end → big_Bytes (SetBytes c) = c.
Proof.
  destruct c as [|b0 c]; [done|]. intros H0. pose proof (SetBytes_range (b0 :: c)) as Hr.
  pose proof (SetBytes_head_lower b0 c H0). unfold big_Bytes. rewrite Z.abs_eq by lia.
  rewrite (byte_len_bounds (length c)) by (cbn [length] in *; lia).
  apply (be_bytes_SetBytes (b0 :: c)).
Qed.

Lemma big_Bytes_head v : 0 <= v → match big_Bytes v with b0 :: _ => b2z b0 ≠ 0 | [] => v = 0 end.
Proof.
  intros Hv. destruct (decide (v = 0)) as [->|]; [done|]. unfold big_Bytes. rewrite Z.abs_eq by lia.
  pose proof (byte_len_spec v ltac:(lia)) as Hs.
  destruct (byte_len v) as [|k] eqn:E; [change (256 ^ Z.of_nat 0) with 1 in Hs; lia|].
  destruct (be_bytes_head k v) as (b0 & bs & -> & H0); [|done]. split; [|done].
  destruct (decide (256 ^ Z.of_nat k <= v)); [done|]. pose proof (byte_len_least v k). lia.
Qed.

Lemma pow256_mul m : 0 <= m → 256 ^ m = 2 ^ (8 * m).
Proof. intros. rewrite Z.pow_mul_r by lia. done. Qed.

Lemma content_range c m : blen c <= m → 0 <= SetBytes c < 2 ^ (8 * m).
Proof.
  intros Hc. pose proof (SetBytes_range c) as [H0 H1]. split; [done|].
  rewrite <-pow256_mul by (pose proof (blen_nonneg c); lia).
  eapply Z.lt_le_trans; [exact H1|]. apply Z.pow_le_mono_r; [lia | done].
Qed.

Lemma big_Bytes_len v m : 0 <= m → 0 <= v < 2 ^ (8 * m) → blen (big_Bytes v) <= m.
Proof.
  intros Hm Hv. unfold blen. rewrite length_big_Bytes, Z.abs_eq by lia.
  pose proof (byte_len_least v (Z.to_nat m)). rewrite Z2Nat.id, pow256_mul in H by done. lia.
Qed.

Lemma byte_int x : b2z x ≠ 0 → enc_uint (b2z x) = enc_str [x].
Proof.
  intros H. unfold enc_uint. assert (b2z x = SetBytes [x]) as E by (unfold SetBytes; cbn; lia).
  rewrite E, big_Bytes_SetBytes; [done | exact H].
Qed.

Lemma uint_sound m : 1 <= m <= 8 → sound (stream_uint (8 * m)) (uint_repr (8 * m)).
Proof.
  intros Hm. apply sound_Kind. intros s h k size r stk Hh HA Ha. pose proof (header_size _ _ _ _ Hh) as Hs.
  destruct k; cbn [mbind].
  - run. case_decide as H0; [done|]. apply (byte_reads _ s h size); [done..|].
    apply header_byte_enc in Hh as (-> & _ & _ & Hx). split; [by rewrite byte_int|].
    split; [apply b2z_range|]. eapply Z.lt_le_trans; [exact Hx|].
    change 128 with (2 ^ 7). apply Z.pow_le_mono_r; lia.
  - replace (8 * m / 8) with m by (rewrite Z.mul_comm, Z.div_mul; lia).
    case_decide as Hsz; [done|]. run. unfold map_err.
    destruct (decide (size = 0)) as [->|].
    { unfold readUint. rewrite decide_True by done. run. rewrite decide_False by lia.
      apply (string_reads _ _ _ _ _ r _ _ [] (s_byteval s) Hh); try done.
      - rewrite charge_0 by apply (ahead_lim _ _ _ _ _ HA). apply Lim_rearm, (ahead_lim _ _ _ _ _ HA).
      - intros _. split; [done|]. split; [done|]. apply Z.pow_pos_nonneg; lia.
      - cbn. tauto. }
    pose proof (ahead_lim _ _ _ _ _ HA) as HL.
    destruct (block_cases r (charge (blen h) stk) size ltac:(lia)) as [(c & rest & -> & Hc & Hf)|Hno]; cycle 1.
    { destruct (readUint_err s r _ size HL ltac:(lia) Hno) as (e & s' & -> & He).
      destruct He as [-> | ->]; done. }
    subst size. destruct (readUint_ok s c rest _ HL Hf ltac:(lia)) as (s' & Hp & _ & ->).
    assert (match c with b0 :: _ => b2z b0 ≠ 0 | [] => True end → ¬ SetBytes c < 128 →
      reads (uint_repr (8 * m)) h (c ++ rest) stk (Ok (SetBytes c), s')) as Hgood.
    { intros H0 H128. apply (string_reads _ _ _ _ _ rest _ _ c (s_byteval s) Hh); try done.
      - intros _. unfold uint_repr, enc_uint. rewrite big_Bytes_SetBytes by done.
        split; [done|]. apply content_range. lia.
      - destruct c as [|x [|y c]]; cbn; tauto. }
    destruct c as [|b0 [|b1 c]]; [blen_lia|..].
    + change (blen [b0]) with 1. case_decide as H1; [done|]. apply Hgood; [|lia].
      intros H0. unfold SetBytes in H1. cbn in H1. lia.
    + case_decide as H0; [by rewrite decide_True|]. case_decide as H1; [done|]. apply Hgood; [done|].
      pose proof (blen_nonneg (b0 :: b1 :: c)). lia.
  - done.
Qed.

Lemma uint_complete m : 1 <= m <= 8 → complete (stream_uint (8 * m)) (uint_repr (8 * m)).
Proof.
  intros Hm. apply complete_ext with (Q := λ v b, ∃ c, str_repr c b ∧ (c = big_Bytes v ∧ 0 <= v < 2 ^ (8 * m))).
  { intros v b [-> Hv]. exists (big_Bytes v). done. }
  apply complete_string.
  - intros s v x [Ev Hv] Hx <-. run. pose proof (big_Bytes_head v ltac:(lia)) as H0. rewrite <-Ev in H0.
    rewrite decide_False by done. do 2 f_equal. rewrite <-(SetBytes_big_Bytes v), <-Ev by lia. done.
  - intros s v c r stk [Ev Hv] Hns Ha HA Hf. pose proof (big_Bytes_len v m ltac:(lia) Hv) as Hlen.
    rewrite <-Ev in Hlen. cbn. replace (8 * m / 8) with m by (rewrite Z.mul_comm, Z.div_mul; lia).
    rewrite decide_False by lia. run. unfold map_err. pose proof (ahead_lim _ _ _ _ _ HA) as HL.
    pose proof (SetBytes_big_Bytes v ltac:(lia)) as Hsv. rewrite <-Ev in Hsv.
    pose proof (big_Bytes_head v ltac:(lia)) as H0. rewrite <-Ev in H0.
    destruct (decide (c = [])) as [->|Hne].
    { change (blen []) with 0 in *. unfold readUint. rewrite decide_True by done. run. rewrite decide_False by lia.
      subst v. exists (rearm s). split; [done|]. rewrite charge_0 by apply HL. by apply Lim_rearm. }
    assert (1 <= blen c) by (destruct c; [done | blen_lia]).
    destruct (readUint_ok s c r stk HL Hf ltac:(lia)) as (s' & Hp & _ & ->).
    exists s'. split; [|done]. destruct c as [|b0 [|b1 c]]; [done|..].
    + rewrite Hsv. rewrite decide_False; [done|]. cbn in Hns. rewrite <-Hsv. unfold SetBytes. cbn. lia.
    + rewrite decide_False by done. rewrite Hsv. rewrite decide_False; [done|].
      pose proof (SetBytes_head_lower b0 (b1 :: c) H0) as Hlo. rewrite Hsv in Hlo.
      assert (256 ^ 1 <= 256 ^ Z.of_nat (length (b1 :: c))) by (apply Z.pow_le_mono_r; cbn; lia). lia.
Qed.

Definition bool_repr (v : bool) (b : bytes) : Prop := b = enc_uint (Z.b2z v).

Lemma Bool_sound : sound stream_Bool bool_repr.
Proof.
  intros s r stk Hat. pose proof (uint_sound 1 ltac:(lia) s r stk Hat) as H.
  unfold stream_Bool, mbind, D_bind. change 8 with (8 * 1) at 1.
  destruct (stream_uint (8 * 1) s) as [[v|e|] s']; [|done..].
  destruct H as (b & rest & -> & [Hb Hv] & Hne & Hp).
  repeat case_decide; subst; [exists (enc_uint 0), rest | exists (enc_uint 1), rest | done]; done.
Qed.

Lemma Bool_complete : complete stream_Bool bool_repr.
Proof.
  intros s v b rest stk Hat Hb Hf.
  destruct (uint_complete 1 ltac:(lia) s (Z.b2z v) b rest stk Hat) as (s' & E & Hp);
    [split; [done | by destruct v] | done |].
  exists s'. split; [|done]. unfold stream_Bool, mbind, D_bind. change 8 with (8 * 1) at 1. rewrite E. by destruct v.
Qed.

Lemma Bool_ends : ends stream_Bool.
Proof.
  intros s r outer Hp. unfold stream_Bool, mbind at 1, D_bind at 1.
  by rewrite (ends_Kind _ s r outer Hp : stream_uint 8 s = _).
Qed.

(** The bytes of an integer are canonical exactly when they are those of its value. *)
Lemma big_content_ok v s : 0 <= v → big_content (big_Bytes v) s = (Ok v, s).
Proof.
  intros Hv. pose proof (big_Bytes_head v Hv) as H0. pose proof (SetBytes_big_Bytes v Hv) as E.
  unfold big_content. destruct (big_Bytes v) as [|b0 c]; [by subst|]. rewrite decide_False by done. by rewrite E.
Qed.

Lemma big_content_cases c s :
  (big_content c s = (Ok (SetBytes c), s) ∧ match c with b0 :: _ => b2z b0 ≠ 0 | [] => True end) ∨
  big_content c s = (Err (RlpErr ErrCanonInt), s).
Proof. unfold big_content. destruct c as [|b0 c]; [by left|]. case_decide; [by right | by left]. Qed.

(** The end of both integer readers, on a content [c] without a leading zero. *)
Lemma big_reads s s' h size r rest stk c (P : Z → bytes → Prop) :
  header h KString size (s_byteval s) → r = c ++ rest → blen c = size →
  Pos s' rest (charge size (charge (blen h) stk)) → ¬ small_single c →
  (0 <= SetBytes c → P (SetBytes c) (enc_uint (SetBytes c))) →
  reads P h r stk (big_content c s').
Proof.
  intros Hh Hr Hc Hp Hs HP. destruct (big_content_cases c s') as [[-> H0]| ->]; [|done].
  apply (string_reads _ _ _ _ _ rest _ _ c (s_byteval s) Hh); try done. intros _.
  pose proof (SetBytes_range c). rewrite <-(big_Bytes_SetBytes c H0) at 2. apply HP. lia.
Qed.

Lemma not_small c n : blen c = n → 1 < n → ¬ small_single c.
Proof. destruct c as [|x [|y c]]; cbn [small_single]; [tauto | blen_lia | tauto]. Qed.

Lemma decodeBigInt_sound : sound stream_decodeBigInt big_repr.
Proof.
  apply sound_Kind. intros s h k size r stk Hh HA Ha. pose proof (header_size _ _ _ _ Hh) as Hs.
  pose proof (ahead_fits _ _ _ _ _ HA). rewrite blen_app in Ha. pose proof (blen_nonneg h).
  destruct k; cbn [mbind]; [| |done]; run.
  - destruct (big_content_cases [s_byteval s] (rearm s)) as [[-> Hz]| ->]; [|done].
    apply (byte_reads _ s h size); [done..|]. apply header_byte_enc in Hh as (-> & _ & _ & Hx).
    change (SetBytes [s_byteval s]) with (b2z (s_byteval s)). split; [by rewrite byte_int | apply b2z_range].
  - destruct (decide (size = 0)) as [->|].
    { apply (big_reads s _ h 0 r r stk [] big_repr); try done.
      - rewrite charge_0 by apply (ahead_lim _ _ _ _ _ HA). apply Lim_rearm, (ahead_lim _ _ _ _ _ HA).
      - cbn. tauto. }
    case_decide as H32; run; rewrite ?make_bytes_ok by lia;
      (destruct (content_cases s _ _ _ _ HA) as [(c & rest & s' & -> & Hc & -> & Hp)|(e & s' & -> & He)];
       [lia | | by apply limit_not_EOL]).
    + destruct (small1 _ c) eqn:E1; [done|]. rewrite <-Hc in E1. apply small1_single in E1.
      by apply (big_reads s s' h size (c ++ rest) rest stk c big_repr).
    + apply (big_reads s s' h size (c ++ rest) rest stk c big_repr); try done. apply (not_small c size); [done | lia].
Qed.

Lemma decodeBigInt_complete : complete stream_decodeBigInt big_repr.
Proof.
  apply complete_ext with (Q := λ v b, ∃ c, str_repr c b ∧ (c = big_Bytes v ∧ 0 <= v)).
  { intros v b [-> Hv]. exists (big_Bytes v). done. }
  apply complete_string.
  - intros s v x [Ev Hv] Hx <-. run. rewrite Ev. by rewrite big_content_ok.
  - intros s v c r stk [-> Hv] Hns Ha HA Hf. cbn. run.
    destruct (decide (blen (big_Bytes v) = 0)) as [E0|].
    { assert (big_Bytes v = []) as E by (destruct (big_Bytes v); [done | blen_lia]).
      exists (rearm s). rewrite <-E, big_content_ok by done. split; [done|].
      rewrite E0, E in *. cbn in HA. rewrite charge_0 by apply (ahead_lim _ _ _ _ _ HA).
      apply Lim_rearm, (ahead_lim _ _ _ _ _ HA). }
    case_decide; run; rewrite ?make_bytes_ok by done;
      (destruct (content_ok _ _ _ _ _ HA Hf) as (s' & -> & Hp); exists s'; split; [|done]).
    + apply small1_single in Hns. rewrite Hns. by apply big_content_ok.
    + by apply big_content_ok.
Qed.

Lemma ReadUint256_sound : sound ReadUint256 (uint_repr 256).
Proof.
  apply sound_Kind. intros s h k size r stk Hh HA Ha. pose proof (header_size _ _ _ _ Hh) as Hs.
  destruct k; cbn [mbind]; [| |done]; run.
  - destruct (big_content_cases [s_byteval s] (rearm s)) as [[-> H0]| ->]; [|done].
    apply (byte_reads _ s h size); [done..|]. apply header_byte_enc in Hh as (-> & _ & _ & Hx).
    change (SetBytes [s_byteval s]) with (b2z (s_byteval s)). split; [by rewrite byte_int|].
    pose proof (b2z_range (s_byteval s)). lia.
  - destruct (decide (size = 0)) as [->|].
    { apply (big_reads s _ h 0 r r stk [] (uint_repr 256)); try done.
      - rewrite charge_0 by apply (ahead_lim _ _ _ _ _ HA). apply Lim_rearm, (ahead_lim _ _ _ _ _ HA).
      - cbn. tauto. }
    case_decide as H32; [|done]. run.
    destruct (content_cases s _ _ _ _ HA) as [(c & rest & s' & -> & Hc & -> & Hp)|(e & s' & -> & He)];
      [lia | | by apply limit_not_EOL].
    destruct (small1 _ c) eqn:E1; [done|]. rewrite <-Hc in E1. apply small1_single in E1.
    apply (big_reads s s' h size (c ++ rest) rest stk c (uint_repr 256)); try done.
    intros _. split; [done|]. apply (content_range c 32). lia.
Qed.

Lemma ReadUint256_complete : complete ReadUint256 (uint_repr 256).
Proof.
  apply complete_ext with (Q := λ v b, ∃ c, str_repr c b ∧ (c = big_Bytes v ∧ 0 <= v < 2 ^ 256)).
  { intros v b [-> Hv]. exists (big_Bytes v). done. }
  apply complete_string.
  - intros s v x [Ev Hv] Hx <-. run. rewrite Ev. by rewrite big_content_ok by lia.
  - intros s v c r stk [-> Hv] Hns Ha HA Hf. cbn. run.
    destruct (decide (blen (big_Bytes v) = 0)) as [E0|].
    { assert (big_Bytes v = []) as E by (destruct (big_Bytes v); [done | blen_lia]).
      exists (rearm s). rewrite <-E, big_content_ok by lia. split; [done|].
      rewrite E0, E in *. cbn in HA. rewrite charge_0 by apply (ahead_lim _ _ _ _ _ HA).
      apply Lim_rearm, (ahead_lim _ _ _ _ _ HA). }
    pose proof (big_Bytes_len v 32 ltac:(lia) Hv). rewrite decide_True by done. run.
    destruct (content_ok _ _ _ _ _ HA Hf) as (s' & -> & Hp). exists s'. split; [|done].
    apply small1_single in Hns. rewrite Hns. apply big_content_ok. lia.
Qed.

(** ** Lists *)

(** A body that reads the content of a list whose remaining size is [size]. *)
Definition sound_in {A} (body : Z → D A) (Q : A → bytes → Prop) : Prop :=
  ∀ s r size stk, Pos s r (size :: stk) →
  match body size s with
  | (Ok v, s') => ∃ c rest, r = c ++ rest ∧ Q v c ∧ Pos s' rest (charge (blen c) (size :: stk))
  | (Err e, _) => e ≠ EOL
  | (Panic, _) => False
  end.

Definition complete_in {A} (body : Z → D A) (Q : A → bytes → Prop) : Prop :=
  ∀ s v c rest stk, Pos s (c ++ rest) (blen c :: stk) → Q v c →
  ∃ s', body (blen c) s = (Ok v, s') ∧ Pos s' rest (0 :: stk).

(** [List], the elements, [ListEnd], with the wrapping of errors. *)
Definition list_of {A} (f g : stream_error → stream_error) (body : Z → D A) : D A :=
  size ← map_err f stream_List;
  v ← body size;
  map_err g stream_ListEnd;;
  mret v.

Lemma enter_Pos s size h r stk :
  header h KList size (s_byteval s) → Ahead s KList size r (charge (blen h) stk) →
  Pos (enter size s) r (size :: charge (blen h + size) stk).
Proof.
  intros Hh HA. pose proof (header_size _ _ _ _ Hh) as Hs. pose proof (ahead_lim _ _ _ _ _ HA) as HL.
  pose proof (lim_u64 _ _ _ HL) as Hu. split; [done|].
  assert (s_stack (enter size s) = size :: charge size (charge (blen h) stk)) as E.
  { unfold enter. cbn. rewrite (lim_stack _ _ _ HL). by destruct stk. }
  rewrite charge_charge in E. destruct HL. split; try done.
  constructor; [unfold is_u64; lia|]. rewrite <-charge_charge. by apply charge_u64.
Qed.

Lemma List_sound s r stk :
  At s r stk →
  match stream_List s with
  | (Ok size, s') => ∃ h rest, r = h ++ rest ∧ header h KList size Byte.x00 ∧ size <= blen rest ∧
      Pos s' rest (size :: charge (blen h + size) stk)
  | (Err e, s') => e = EOL → Pos s' r stk ∧ ∃ outer, stk = 0 :: outer
  | (Panic, _) => False
  end.
Proof.
  intros Hat. pose proof (Kind_sound s r stk Hat) as H. unfold stream_List, mbind at 1, D_bind at 1.
  destruct (stream_Kind s) as [[[k size]|e|] s']; [|done|done].
  destruct H as (h & r' & -> & Hh & HA). destruct k; try done. run. exists h, r'. split; [done|].
  split; [done|]. split; [apply (ahead_fits _ _ _ _ _ HA) | by apply enter_Pos].
Qed.

Lemma ListEnd_cases s r l stk :
  Pos s r (l :: stk) →
  (l = 0 ∧ ∃ s', stream_ListEnd s = (Ok (), s') ∧ Pos s' r stk) ∨
  stream_ListEnd s = (Err errNotAtEOL, s).
Proof.
  intros [Hk [Hr Hl Hm Hs Ha Hu]]. unfold stream_ListEnd. rewrite Hs.
  apply Forall_cons_1 in Hu as [Hl0 Hu]. unfold is_u64 in Hl0. case_decide; [by right|].
  left. split; [lia|]. eexists. split; [done|]. split; [done|]. split; done.
Qed.

(** A wrapping that keeps [EOL] apart. *)
Definition keeps_EOL (f : stream_error → stream_error) : Prop := ∀ e, f e = EOL ↔ e = EOL.

Lemma charged_out size c : 0 <= size < two64 → blen c <= maxAlloc → u64 (size - blen c) = 0 → size = blen c.
Proof.
  intros Hs Hc Hz. pose proof maxAlloc_two64. pose proof (blen_nonneg c). unfold u64 in Hz.
  destruct (decide (blen c <= size)).
  - rewrite Z.mod_small in Hz by lia. lia.
  - rewrite <-(Z.mod_add _ 1), Z.mod_small in Hz by lia. lia.
Qed.

Lemma list_sound {A} f g (body : Z → D A) (Q : A → bytes → Prop) :
  keeps_EOL f → keeps_EOL g → sound_in body Q →
  sound (list_of f g body) (λ v b, ∃ c, b = enc_list c ∧ Q v c).
Proof.
  intros Hkf Hkg Hbody s r stk Hat. pose proof (List_sound s r stk Hat) as H.
  pose proof (At_u64 _ _ _ Hat) as [_ Ha]. unfold list_of, mbind, D_bind, map_err.
  destruct (stream_List s) as [[size|e|] s1]; [|intros He; by apply H, (proj1 (Hkf _))|done].
  destruct H as (h & rest & -> & Hh & Hsz & Hp). specialize (Hbody s1 rest size _ Hp).
  destruct (body size s1) as [[v|e|] s2]; [|done..].
  destruct Hbody as (c & rest' & -> & HQ & Hp2). cbn [charge] in Hp2.
  rewrite !blen_app in Ha. pose proof (blen_nonneg h). pose proof (blen_nonneg rest').
  destruct (ListEnd_cases _ _ _ _ Hp2) as [(Hz & s3 & -> & Hp3)| ->]; [|intros He; by apply (proj1 (Hkg _)) in He].
  apply charged_out in Hz as ->; [|by apply (header_size _ _ _ _ Hh)|lia].
  exists (h ++ c), rest'. split; [by rewrite app_assoc|].
  pose proof (header_nonempty _ _ _ _ Hh). destruct Hh as [_ ->].
  split; [by exists c|]. rewrite blen_app. split; [|done]. by destruct (puthead _ _ _).
Qed.

Lemma list_complete {A} f g (body : Z → D A) (Q : A → bytes → Prop) :
  complete_in body Q → complete (list_of f g body) (λ v b, ∃ c, b = enc_list c ∧ Q v c).
Proof.
  intros Hbody s v b rest stk Hat (c & -> & HQ) Hf. pose proof (At_u64 _ _ _ Hat) as [Hu Ha].
  unfold enc_list in *. fold (blen c) in *. rewrite <-app_assoc in Hat.
  rewrite !blen_app in Ha. rewrite !blen_app in Hf.
  pose proof (blen_nonneg c). pose proof (blen_nonneg rest). pose proof maxAlloc_two64.
  pose proof (blen_nonneg (puthead 192 247 (blen c))).
  assert (header (puthead 0xC0 0xF7 (blen c)) KList (blen c) Byte.x00) as Hh by (split; [lia | done]).
  destruct (Kind_complete s _ _ stk _ _ _ Hat Hh) as (s1 & E & Hh1 & HA); [rewrite blen_app; lia | done |].
  pose proof (enter_Pos s1 _ _ _ _ Hh1 HA) as Hp.
  destruct (Hbody _ _ _ _ _ Hp HQ) as (s2 & E2 & Hp2).
  destruct (ListEnd_cases _ _ _ _ Hp2) as [(_ & s3 & E3 & Hp3)|E3].
  - exists s3. unfold list_of, stream_List, mbind, D_bind, map_err, update, mret, D_ret.
    rewrite E. cbn. rewrite E2, E3. rewrite blen_app. done.
  - exfalso. unfold stream_ListEnd in E3. destruct Hp2 as [_ HL2]. rewrite (lim_stack _ _ _ HL2) in E3. done.
Qed.

Lemma list_ends {A} f g (body : Z → D A) : keeps_EOL f → ends (list_of f g body).
Proof.
  intros Hf s r outer Hp. unfold list_of, map_err, mbind at 1, D_bind at 1.
  rewrite (ends_Kind _ s r outer Hp : stream_List s = _). by rewrite (proj2 (Hf EOL) eq_refl).
Qed.

(** ** Nested lists that do not fit *)

(** [Kind] compares the size of a value with what its list had left before the header was
    read. The inner list of [C1 C1 05] does not fit into the outer one by the byte of its
    header: [List] enters it all the same, the rest of the outer list wraps around to
    2^64 - 1, and a stream without input limit goes on to read [06], which lies outside of
    the outer list, as an element of it. *)
Theorem List_limit_wraps :
  let session : D (Z * Z * bool * Z) :=
    (stream_List;; stream_List;; x ← stream_Uint64; stream_ListEnd;;
     limit ← ask (λ s, snd (listLimit s)); more ← ask MoreDataInList; y ← stream_Uint64; mret (x, limit, more, y)) in
  fst (session (NewStream (z2b <$> [0xc1; 0xc1; 5; 6]) 0)) = Ok (5, two64 - 1, true, 6).
Proof. vm_compute. reflexivity. Qed.
