(* ===== verification/Codec.v ===== *)
(** * The type-driven RLP codec

    The reflective part of [rlp/encode.go] and [rlp/decode.go]: for a Go type, described
    here by [Typ], [makeDecoder] builds a decoder on a [Stream] and [makeWriter] a writer on
    an [encBuffer]; [structFields] and [rlpstruct.ProcessFields] interpret the field tags.
    Go values are [val]: nil, a pointer, an integer, a boolean, bytes, a list of elements or
    of the fields of a struct that take part in the encoding.

    Decoding is into a fresh zero value. The type cache, which only remembers the functions
    it built, recursive types, interface values and types with their own [EncodeRLP] or
    [DecodeRLP] are not part of [Typ]. *)
From Stdlib Require Import ZArith Lia.
From Stdlib Require Strings.Byte.
From stdpp Require Import base tactics decidable list numbers.
From S2P Require Import Prelude Rlp Stream.

(** ** Types *)

Inductive Width : Type := W8 | W16 | W32 | W64.

Definition Bits_of (w : Width) : Z := match w with W8 => 8 | W16 => 16 | W32 => 32 | W64 => 64 end.

(** The parts of an [rlp] struct tag. *)
Inductive tag_part : Type :=
| TagEmpty | TagIgnore | TagNil | TagNilString | TagNilList | TagOptional | TagTail | TagUnknown.

Inductive Typ : Type :=
| TRawValue
| TBigInt
| TUint256
| TPtr (t : Typ)
| TUint (w : Width)
| TBool
| TString
| TSlice (t : Typ)
| TArray (n : nat) (t : Typ)
| TStruct (fields : list (bool * list tag_part * Typ))  (** exported, tag, type *)
| TOther.                                               (** signed, float, map, channel, function *)

Inductive type_error : Type := TagError | NotSerializable.

Record Tags : Type := MkTags {
  NilKind : Kind;
  NilOK : bool;
  Optional : bool;
  Tail : bool;
  Ignored : bool
}.

Definition no_Tags : Tags := MkTags KString false false false false.

(** [DefaultNilValue]. *)
Definition DefaultNilValue (t : Typ) : Kind :=
  match t with
  | TUint _ | TString | TBool | TSlice (TUint W8) | TArray _ (TUint W8) | TRawValue => KString
  | _ => KList
  end.

Definition typeNilKind (t : Typ) (ts : Tags) : Kind :=
  if NilOK ts then NilKind ts else DefaultNilValue t.

(** One part of the tag. *)
Definition parse_part (t : Typ) (isLast : bool) (ts : Tags) (p : tag_part) : res type_error Tags :=
  let nil_tag (k : Kind) :=
    match t with
    | TPtr _ => Ok (MkTags k true (Optional ts) (Tail ts) (Ignored ts))
    | _ => Err TagError
    end in
  match p with
  | TagEmpty => Ok ts
  | TagIgnore => Ok (MkTags (NilKind ts) (NilOK ts) (Optional ts) (Tail ts) true)
  | TagNil => nil_tag (match t with TPtr e => DefaultNilValue e | _ => KString end)
  | TagNilString => nil_tag KString
  | TagNilList => nil_tag KList
  | TagOptional =>
      if Tail ts then Err TagError
      else Ok (MkTags (NilKind ts) (NilOK ts) true (Tail ts) (Ignored ts))
  | TagTail =>
      if negb isLast then Err TagError
      else if Optional ts then Err TagError
      else match t with
           | TSlice _ | TRawValue => Ok (MkTags (NilKind ts) (NilOK ts) (Optional ts) true (Ignored ts))
           | _ => Err TagError
           end
  | TagUnknown => Err TagError
  end.

Definition parseTag (t : Typ) (isLast : bool) (tag : list tag_part) : res type_error Tags :=
  foldl (λ acc p, ts ← acc; parse_part t isLast ts p) (Ok no_Tags) tag.

(** [lastPublicField]: whether no field after this one is exported. *)
Definition no_public (fs : list (bool * list tag_part * Typ)) : bool :=
  forallb (λ f, negb f.1.1) fs.

(** The tags of the fields; [None] for a field that does not take part. *)
Fixpoint field_tags (fs : list (bool * list tag_part * Typ)) : res type_error (list (option Tags)) :=
  match fs with
  | [] => Ok []
  | (exported, tag, t) :: fs =>
      if exported then
        ts ← parseTag t (no_public fs) tag;
        rest ← field_tags fs;
        Ok ((if Ignored ts then None else Some ts) :: rest)
      else rest ← field_tags fs; Ok (None :: rest)
  end.

(** All fields after an optional one are optional. *)
Fixpoint optional_ok (anyOptional : bool) (tags : list (option Tags)) : bool :=
  match tags with
  | [] => true
  | None :: tags => optional_ok anyOptional tags
  | Some ts :: tags =>
      if Optional ts || Tail ts then optional_ok true tags
      else negb anyOptional && optional_ok anyOptional tags
  end.

Definition ProcessFields (fs : list (bool * list tag_part * Typ)) : res type_error (list (option Tags)) :=
  tags ← field_tags fs;
  if optional_ok false tags then Ok tags else Err TagError.

(** ** Values *)

Inductive val : Type :=
| VNil                      (** a nil pointer or slice *)
| VPtr (v : val)
| VInt (z : Z)              (** an unsigned integer, [big.Int] or [uint256.Int] *)
| VBool (b : bool)
| VBytes (b : bytes)        (** a string, a byte slice or array, a raw value *)
| VList (l : list val)      (** a slice or an array *)
| VStruct (l : list val).   (** the fields that take part in the encoding *)

Fixpoint zero (t : Typ) : val :=
  match t with
  | TRawValue | TPtr _ | TSlice _ | TOther => VNil
  | TBigInt | TUint256 | TUint _ => VInt 0
  | TBool => VBool false
  | TString => VBytes []
  | TArray n (TUint W8) => VBytes (replicate n Byte.x00)
  | TArray n e => VList (replicate n (zero e))
  | TStruct fs =>
      match ProcessFields fs with
      | Ok tags =>
          VStruct ((fix go (fs : list (bool * list tag_part * Typ)) (tags : list (option Tags)) :=
            match fs, tags with
            | (_, e) :: fs, Some _ :: tags => zero e :: go fs tags
            | _ :: fs, None :: tags => go fs tags
            | _, _ => []
            end) fs tags)
      | _ => VStruct []
      end
  end.

(** [reflect.Value.IsZero]; an empty slice that is not nil is not zero. *)
Fixpoint IsZero (t : Typ) (v : val) : bool :=
  match t, v with
  | _, VNil => true
  | TString, VBytes b => bool_decide (b = [])
  | TArray _ _, VBytes b => forallb (λ x, bool_decide (x = Byte.x00)) b
  | TArray _ e, VList l => forallb (IsZero e) l
  | (TBigInt | TUint256 | TUint _), VInt z => bool_decide (z = 0)
  | TBool, VBool b => negb b
  | TStruct fs, VStruct vs =>
      match ProcessFields fs with
      | Ok tags =>
          (fix go (fs : list (bool * list tag_part * Typ)) (tags : list (option Tags)) (vs : list val) :=
            match fs, tags, vs with
            | (_, e) :: fs, Some _ :: tags, v :: vs => IsZero e v && go fs tags vs
            | _ :: fs, None :: tags, vs => go fs tags vs
            | _, _, _ => true
            end) fs tags vs
      | _ => true
      end
  | _, _ => false
  end.

(** ** Decoders *)

Definition wrapStreamError (err : stream_error) : stream_error :=
  match err with
  | RlpErr ErrCanonInt => DecodeError MsgCanonInt
  | RlpErr ErrCanonSize => DecodeError MsgCanonSize
  | RlpErr ErrExpectedList => DecodeError MsgExpectedList
  | RlpErr ErrExpectedString => DecodeError MsgExpectedString
  | RlpErr errUintOverflow => DecodeError MsgTooLong
  | errNotAtEOL => DecodeError MsgTooManyElements
  | _ => err
  end.

(** A stream method that wraps its errors and stores its result. *)
Definition wrapped {A} (f : A → val) (d : D A) : D val := v ← map_err wrapStreamError d; mret (f v).

Definition decodeRawValue : D val := r ← Raw; mret (VBytes r).
Definition decodeUint (w : Width) : D val := wrapped VInt (stream_uint (Bits_of w)).
Definition decodeBool : D val := wrapped VBool stream_Bool.
Definition decodeString : D val := wrapped VBytes stream_Bytes.
Definition decodeBigIntNoPtr : D val := wrapped VInt stream_decodeBigInt.
Definition decodeBigInt : D val := wrapped (λ z, VPtr (VInt z)) stream_decodeBigInt.
Definition decodeU256NoPtr : D val := wrapped VInt ReadUint256.
Definition decodeU256 : D val := wrapped (λ z, VPtr (VInt z)) ReadUint256.
Definition decodeByteSlice : D val := wrapped VBytes stream_Bytes.

(** The loop over the elements, until [EOL]. *)
Fixpoint decodeSliceElems_loop (fuel : nat) (elemdec : D val) : D (list val) := λ s,
  match fuel with
  | O => (Panic, s)
  | S fuel =>
      match elemdec s with
      | (Err e, s) => if decide (e = EOL) then (Ok [], s) else (Err e, s)
      | (Panic, s) => (Panic, s)
      | (Ok v, s) =>
          match decodeSliceElems_loop fuel elemdec s with
          | (Ok l, s) => (Ok (v :: l), s)
          | o => o
          end
      end
  end.

Definition decodeSliceElems (elemdec : D val) : D (list val) := λ s,
  decodeSliceElems_loop (S (length (s_r s))) elemdec s.

Definition decodeListSlice (elemdec : D val) : D val :=
  size ← map_err wrapStreamError stream_List;
  if decide (size = 0) then stream_ListEnd;; mret (VList [])
  else
    l ← decodeSliceElems elemdec;
    stream_ListEnd;;
    mret (VList l).

Definition decode_tail (elemdec : D val) : D val := l ← decodeSliceElems elemdec; mret (VList l).

(** The first [n] elements of an array. *)
Fixpoint decode_elems (n : nat) (elemdec : D val) : D (list val) := λ s,
  match n with
  | O => (Ok [], s)
  | S n =>
      match elemdec s with
      | (Err e, s) => (Err (if decide (e = EOL) then DecodeError MsgTooFewListElements else e), s)
      | (Panic, s) => (Panic, s)
      | (Ok v, s) =>
          match decode_elems n elemdec s with
          | (Ok l, s) => (Ok (v :: l), s)
          | o => o
          end
      end
  end.

Definition decodeListArray (n : nat) (elemdec : D val) : D val :=
  map_err wrapStreamError stream_List;;
  l ← decode_elems n elemdec;
  map_err wrapStreamError stream_ListEnd;;
  mret (VList l).

Definition decodeByteArray (n : nat) : D val :=
  '(kind, size) ← stream_Kind;
  match kind with
  | KByte =>
      if decide (n = 0)%nat then throw (DecodeError MsgTooLong)
      else if decide (1 < n)%nat then throw (DecodeError MsgTooShort)
      else b ← take_byteval; mret (VBytes [b])
  | KString =>
      if decide (Z.of_nat n < size) then throw (DecodeError MsgTooLong)
      else if decide (size < Z.of_nat n) then throw (DecodeError MsgTooShort)
      else
        b ← readFull (Z.of_nat n);
        if small1 size b then throw (wrapStreamError (RlpErr ErrCanonSize)) else mret (VBytes b)
  | KList => throw (wrapStreamError (RlpErr ErrExpectedString))
  end.

Record field : Type := MkField {
  fd_decoder : D val;
  fd_optional : bool;
  fd_zero : val
}.

Fixpoint decode_fields (fields : list field) : D (list val) := λ s,
  match fields with
  | [] => (Ok [], s)
  | f :: rest =>
      match fd_decoder f s with
      | (Err e, s) =>
          if decide (e = EOL) then
            if fd_optional f then (Ok (fd_zero <$> fields), s) else (Err (DecodeError MsgTooFewElements), s)
          else (Err e, s)
      | (Panic, s) => (Panic, s)
      | (Ok v, s) =>
          match decode_fields rest s with
          | (Ok vs, s) => (Ok (v :: vs), s)
          | o => o
          end
      end
  end.

Definition structDecoder (fields : list field) : D val :=
  map_err wrapStreamError stream_List;;
  vs ← decode_fields fields;
  map_err wrapStreamError stream_ListEnd;;
  mret (VStruct vs).

Definition simplePtrDecoder (etype : D val) : D val := v ← etype; mret (VPtr v).

Definition nilPtrDecoder (nilKind : Kind) (etype : D val) : D val :=
  '(kind, size) ← map_err wrapStreamError stream_Kind;
  if decide (kind ≠ KByte ∧ size = 0) then
    if decide (kind ≠ nilKind) then throw (DecodeError MsgWrongEmpty)
    else update rearm;; mret VNil
  else v ← etype; mret (VPtr v).

Fixpoint makeDecoder (typ : Typ) (tags : Tags) : res type_error (D val) :=
  match typ with
  | TRawValue => Ok decodeRawValue
  | TPtr TBigInt => Ok decodeBigInt
  | TBigInt => Ok decodeBigIntNoPtr
  | TPtr TUint256 => Ok decodeU256
  | TUint256 => Ok decodeU256NoPtr
  | TPtr etype =>
      d ← makeDecoder etype no_Tags;
      Ok (if NilOK tags then nilPtrDecoder (typeNilKind etype tags) d else simplePtrDecoder d)
  | TUint w => Ok (decodeUint w)
  | TBool => Ok decodeBool
  | TString => Ok decodeString
  | TSlice (TUint W8) => Ok decodeByteSlice
  | TArray n (TUint W8) => Ok (decodeByteArray n)
  | TSlice etype =>
      d ← makeDecoder etype no_Tags;
      Ok (if Tail tags then decode_tail d else decodeListSlice d)
  | TArray n etype => d ← makeDecoder etype no_Tags; Ok (decodeListArray n d)
  | TStruct fs =>
      ftags ← ProcessFields fs;
      fields ← (fix go (fs : list (bool * list tag_part * Typ)) (ftags : list (option Tags)) : res type_error (list field) :=
        match fs, ftags with
        | (_, t) :: fs, Some ts :: ftags =>
            d ← makeDecoder t ts;
            rest ← go fs ftags;
            Ok (MkField d (Optional ts) (zero t) :: rest)
        | _ :: fs, None :: ftags => go fs ftags
        | _, _ => Ok []
        end) fs ftags;
      Ok (structDecoder fields)
  | TOther => Err NotSerializable
  end.

(** [DecodeBytes] into a new value of type [typ]. [Reset] leaves of the pooled stream only the
    [remaining] of an unlimited stream, which is never read. *)
Definition DecodeBytes (typ : Typ) (b : bytes) : res stream_error val :=
  match makeDecoder typ no_Tags with
  | Ok decoder =>
      match decoder (stream_Reset b (Z.of_nat (length b)) zero_Stream) with
      | (Ok v, s) => if decide (0 < length (s_r s))%nat then Err ErrMoreThanOneValue else Ok v
      | (Err e, _) => Err e
      | (Panic, _) => Panic
      end
  | _ => Err (RlpErr ErrTypeInfo)
  end.

(** ** Writers *)

Definition writer : Type := val → encBuffer → res rlp_error encBuffer.

(** [writeUint256]: a header and the low bytes of the four words, big-endian. *)
Definition u256_word (z : Z) (i : Z) : Z := Z.shiftr z (64 * i) mod two64.

Definition writeUint256 (z : Z) (buf : encBuffer) : encBuffer :=
  let bitlen := Len64 z in
  if decide (bitlen <= 64) then writeUint64 (u64 z) buf
  else
    let nBytes := (bitlen + 7) / 8 in
    let b := Byte.x00 :: be_bytes 8 (u256_word z 3) ++ be_bytes 8 (u256_word z 2) ++
               be_bytes 8 (u256_word z 1) ++ be_bytes 8 (u256_word z 0) in
    let i := Z.to_nat (32 - nBytes) in
    eb_Write (drop i (<[i := z2b (0x80 + nBytes)]> b)) buf.

Definition writeRawValue : writer := λ v w,
  match v with
  | VNil => Ok w
  | VBytes b => Ok (eb_Write b w)
  | _ => Panic
  end.

Definition write_big (z : Z) (w : encBuffer) : res rlp_error encBuffer :=
  if decide (z < 0) then Err ErrNegativeBigInt else Ok (writeBigInt z w).

Definition write_bigIntPtr : writer := λ v w,
  match v with
  | VNil => Ok (eb_Write [Byte.x80] w)
  | VPtr (VInt z) => write_big z w
  | _ => Panic
  end.

Definition writeBigIntNoPtr : writer := λ v w, match v with VInt z => write_big z w | _ => Panic end.

Definition writeU256IntPtr : writer := λ v w,
  match v with
  | VNil => Ok (eb_Write [Byte.x80] w)
  | VPtr (VInt z) => Ok (writeUint256 z w)
  | _ => Panic
  end.

Definition writeU256IntNoPtr : writer := λ v w, match v with VInt z => Ok (writeUint256 z w) | _ => Panic end.

Definition writeUint : writer := λ v w, match v with VInt z => Ok (writeUint64 z w) | _ => Panic end.

Definition write_bool : writer := λ v w, match v with VBool b => Ok (writeBool b w) | _ => Panic end.

(** [writeString] and [writeBytes] of [encode.go]; a nil slice has no bytes. *)
Definition write_string : writer := λ v w,
  match v with VBytes b => Ok (writeBytes b w) | _ => Panic end.

Definition write_bytes : writer := λ v w,
  match v with
  | VNil => Ok (writeBytes [] w)
  | VBytes b => Ok (writeBytes b w)
  | _ => Panic
  end.

Definition byteArrayWriter (n : nat) : writer := λ v w,
  match v with
  | VBytes b =>
      if decide (n = 0)%nat then Ok (eb_Write [Byte.x80] w)
      else if decide (n = 1)%nat then
        match b with
        | b0 :: _ => Ok (if decide (b2z b0 <= 0x7f) then eb_Write [b0] w else eb_Write [Byte.x81; b0] w)
        | [] => Panic
        end
      else Ok (eb_Write b (encodeStringHeader (Z.of_nat (length b)) w))
  | _ => Panic
  end.

Fixpoint write_elems (ew : writer) (l : list val) (w : encBuffer) : res rlp_error encBuffer :=
  match l with
  | [] => Ok w
  | v :: l => w ← ew v w; write_elems ew l w
  end.

(** A list header around what [content] writes. *)
Definition in_list (content : encBuffer → res rlp_error encBuffer) (w : encBuffer) : res rlp_error encBuffer :=
  let '(w, index) := eb_list w in
  w ← content w;
  Ok (listEnd index w).

Definition elems_of (v : val) : option (list val) :=
  match v with VNil => Some [] | VList l => Some l | _ => None end.

Definition tailWriter (ew : writer) : writer := λ v w,
  match elems_of v with Some l => write_elems ew l w | None => Panic end.

Definition sliceWriter (ew : writer) : writer := λ v w,
  match elems_of v with
  | Some [] => Ok (eb_Write [Byte.xc0] w)
  | Some l => in_list (write_elems ew l) w
  | None => Panic
  end.

Record wfield : Type := MkWField {
  fw_writer : writer;
  fw_optional : bool;
  fw_isZero : val → bool
}.

Fixpoint firstOptionalField (fields : list wfield) : nat :=
  match fields with
  | [] => 0
  | f :: fields => if fw_optional f then 0 else S (firstOptionalField fields)
  end.

(** [lastField + 1]: the fields from the [first] optional one on are dropped from the end
    while they are zero. *)
Fixpoint lastField (first : nat) (fields : list wfield) (vs : list val) : nat :=
  match fields, vs with
  | f :: fields, v :: vs =>
      let n := lastField (pred first) fields vs in
      if decide (n = 0 ∧ first = 0 ∧ fw_isZero f v)%nat then 0 else S n
  | _, _ => 0
  end.

Fixpoint write_fields (fields : list wfield) (vs : list val) (w : encBuffer) : res rlp_error encBuffer :=
  match fields, vs with
  | [], [] => Ok w
  | f :: fields, v :: vs => w ← fw_writer f v w; write_fields fields vs w
  | _, _ => Panic
  end.

Definition structWriter (fields : list wfield) : writer := λ v w,
  match v with
  | VStruct vs =>
      if decide (firstOptionalField fields = length fields) then in_list (write_fields fields vs) w
      else
        let n := lastField (firstOptionalField fields) fields vs in
        in_list (write_fields (take n fields) (take n vs)) w
  | _ => Panic
  end.

Definition ptrWriter (nilKind : Kind) (ew : writer) : writer := λ v w,
  match v with
  | VPtr v => ew v w
  | VNil => Ok (eb_Write [match nilKind with KString => Byte.x80 | _ => Byte.xc0 end] w)
  | _ => Panic
  end.

Fixpoint makeWriter (typ : Typ) (tags : Tags) : res type_error writer :=
  match typ with
  | TRawValue => Ok writeRawValue
  | TPtr TBigInt => Ok write_bigIntPtr
  | TBigInt => Ok writeBigIntNoPtr
  | TPtr TUint256 => Ok writeU256IntPtr
  | TUint256 => Ok writeU256IntNoPtr
  | TPtr etype => ew ← makeWriter etype no_Tags; Ok (ptrWriter (typeNilKind etype tags) ew)
  | TUint _ => Ok writeUint
  | TBool => Ok write_bool
  | TString => Ok write_string
  | TSlice (TUint W8) => Ok write_bytes
  | TArray n (TUint W8) => Ok (byteArrayWriter n)
  | TSlice etype =>
      ew ← makeWriter etype no_Tags;
      Ok (if Tail tags then tailWriter ew else sliceWriter ew)
  | TArray _ etype => ew ← makeWriter etype no_Tags; Ok (sliceWriter ew)
  | TStruct fs =>
      ftags ← ProcessFields fs;
      fields ← (fix go (fs : list (bool * list tag_part * Typ)) (ftags : list (option Tags)) : res type_error (list wfield) :=
        match fs, ftags with
        | (_, t) :: fs, Some ts :: ftags =>
            ew ← makeWriter t ts;
            rest ← go fs ftags;
            Ok (MkWField ew (Optional ts) (IsZero t) :: rest)
        | _ :: fs, None :: ftags => go fs ftags
        | _, _ => Ok []
        end) fs ftags;
      Ok (structWriter fields)
  | TOther => Err NotSerializable
  end.

(** [EncodeToBytes] of a value of type [typ]. *)
Definition EncodeTypedToBytes (typ : Typ) (v : val) : res rlp_error bytes :=
  match makeWriter typ no_Tags with
  | Ok w => buf ← w v reset; Ok (makeBytes buf)
  | _ => Err ErrTypeInfo
  end.

(** ** Examples *)

Definition ex_typ : Typ :=
  TStruct [(true, [], TUint W64); (false, [], TOther); (true, [TagNil], TPtr (TArray 3 (TUint W8)));
           (true, [], TSlice TString); (true, [TagOptional], TPtr TBigInt)].

Definition ex_val : val :=
  VStruct [VInt 1024; VNil; VList [VBytes [Byte.x61]; VBytes []]; VNil].

Example ex_encode : EncodeTypedToBytes ex_typ ex_val = Ok (z2b <$> [0xc7; 0x82; 4; 0; 0x80; 0xc2; 0x61; 0x80]).
Proof. vm_compute. reflexivity. Qed.

Example ex_decode : DecodeBytes ex_typ (z2b <$> [0xc7; 0x82; 4; 0; 0x80; 0xc2; 0x61; 0x80]) = Ok ex_val.
Proof. vm_compute. reflexivity. Qed.
