(* ===== verification/CodecFacts.v ===== *)
(** * What the type-driven decoder accepts and the writer produces

    [repr t ts v b]: the bytes [b] represent the value [v] of type [t] (under the tags of
    its field). The decoder of a type accepts exactly the represented values; the writer
    outputs a representation, the only one for types whose optional fields can be nil. *)
From Stdlib Require Import ZArith Lia.
From Stdlib Require Strings.Byte.
From stdpp Require Import base tactics decidable list numbers sets.
From S2P Require Import Prelude Rlp Stream StreamFacts Codec.

(** ** Representations *)

Fixpoint elems_repr (P : val → bytes → Prop) (l : list val) (c : bytes) : Prop :=
  match l with
  | [] => c = []
  | v :: l => ∃ b c', c = b ++ c' ∧ P v b ∧ elems_repr P l c'
  end.

Record fspec : Type := MkSpec {
  sp_repr : val → bytes → Prop;
  sp_optional : bool;
  sp_zero : val
}.

(** The fields of a struct; from an optional field on all may be missing and are zero. *)
Fixpoint fields_repr (l : list fspec) (vs : list val) (c : bytes) : Prop :=
  match l with
  | [] => vs = [] ∧ c = []
  | f :: rest =>
      (∃ v vs' b c', vs = v :: vs' ∧ c = b ++ c' ∧ sp_repr f v b ∧ fields_repr rest vs' c') ∨
      (sp_optional f ∧ vs = sp_zero <$> l ∧ c = [])
  end.

Definition nil_byte (k : Kind) : byte := match k with KString => Byte.x80 | _ => Byte.xc0 end.

Definition int_repr (P : Z → bytes → Prop) (v : val) (b : bytes) : Prop := ∃ z, v = VInt z ∧ P z b.

Definition ptr_repr (P : val → bytes → Prop) (v : val) (b : bytes) : Prop := ∃ v', v = VPtr v' ∧ P v' b.

Definition nilptr_repr (k : Kind) (P : val → bytes → Prop) (v : val) (b : bytes) : Prop :=
  v = VNil ∧ b = [nil_byte k] ∨ ptr_repr P v b ∧ b ≠ [Byte.x80] ∧ b ≠ [Byte.xc0].

Definition vbytes_repr (P : bytes → bytes → Prop) (v : val) (b : bytes) : Prop := ∃ c, v = VBytes c ∧ P c b.

Definition slice_repr (P : val → bytes → Prop) (v : val) (b : bytes) : Prop :=
  ∃ l c, v = VList l ∧ b = enc_list c ∧ elems_repr P l c.

Definition tail_repr (P : val → bytes → Prop) (v : val) (b : bytes) : Prop :=
  ∃ l, v = VList l ∧ elems_repr P l b.

Definition array_repr (n : nat) (P : val → bytes → Prop) (v : val) (b : bytes) : Prop :=
  ∃ l c, v = VList l ∧ length l = n ∧ b = enc_list c ∧ elems_repr P l c.

Definition struct_repr (specs : list fspec) (v : val) (b : bytes) : Prop :=
  ∃ vs c, v = VStruct vs ∧ b = enc_list c ∧ fields_repr specs vs c.

Fixpoint repr (t : Typ) (ts : Tags) : val → bytes → Prop :=
  match t with
  | TRawValue => vbytes_repr raw_repr
  | TPtr TBigInt => ptr_repr (int_repr big_repr)
  | TBigInt => int_repr big_repr
  | TPtr TUint256 => ptr_repr (int_repr (uint_repr 256))
  | TUint256 => int_repr (uint_repr 256)
  | TPtr e =>
      if NilOK ts then nilptr_repr (typeNilKind e ts) (repr e no_Tags) else ptr_repr (repr e no_Tags)
  | TUint w => int_repr (uint_repr (Bits_of w))
  | TBool => λ v b, ∃ x, v = VBool x ∧ bool_repr x b
  | TString => vbytes_repr str_repr
  | TSlice (TUint W8) => vbytes_repr str_repr
  | TArray n (TUint W8) => vbytes_repr (bytes_repr (Z.of_nat n))
  | TSlice e => if Tail ts then tail_repr (repr e no_Tags) else slice_repr (repr e no_Tags)
  | TArray n e => array_repr n (repr e no_Tags)
  | TStruct fs =>
      match ProcessFields fs with
      | Ok ftags =>
          struct_repr
            ((fix go (fs : list (bool * list tag_part * Typ)) (ftags : list (option Tags)) : list fspec :=
                match fs, ftags with
                | (_, t) :: fs, Some ts :: ftags => MkSpec (repr t ts) (Optional ts) (zero t) :: go fs ftags
                | _ :: fs, None :: ftags => go fs ftags
                | _, _ => []
                end) fs ftags)
      | _ => λ _ _, False
      end
  | TOther => λ _ _, False
  end.

(** The same loop, by name. *)
Fixpoint field_specs (fs : list (bool * list tag_part * Typ)) (ftags : list (option Tags)) : list fspec :=
  match fs, ftags with
  | (_, t) :: fs, Some ts :: ftags => MkSpec (repr t ts) (Optional ts) (zero t) :: field_specs fs ftags
  | _ :: fs, None :: ftags => field_specs fs ftags
  | _, _ => []
  end.

Fixpoint field_decoders (fs : list (bool * list tag_part * Typ)) (ftags : list (option Tags)) : res type_error (list field) :=
  match fs, ftags with
  | (_, t) :: fs, Some ts :: ftags =>
      d ← makeDecoder t ts;
      rest ← field_decoders fs ftags;
      Ok (MkField d (Optional ts) (zero t) :: rest)
  | _ :: fs, None :: ftags => field_decoders fs ftags
  | _, _ => Ok []
  end.

Definition is_byte (t : Typ) : bool := match t with TUint W8 => true | _ => false end.

Lemma repr_TStruct fs ts ftags :
  ProcessFields fs = Ok ftags → repr (TStruct fs) ts = struct_repr (field_specs fs ftags).
Proof. intros H. cbn [repr]. by rewrite H. Qed.

Lemma makeDecoder_TStruct fs ts :
  makeDecoder (TStruct fs) ts =
    (ftags ← ProcessFields fs; fields ← field_decoders fs ftags; Ok (structDecoder fields)).
Proof. reflexivity. Qed.

Lemma repr_TPtr e ts : e ≠ TBigInt → e ≠ TUint256 →
  repr (TPtr e) ts = if NilOK ts then nilptr_repr (typeNilKind e ts) (repr e no_Tags) else ptr_repr (repr e no_Tags).
Proof. by destruct e. Qed.

Lemma makeDecoder_TPtr e ts : e ≠ TBigInt → e ≠ TUint256 →
  makeDecoder (TPtr e) ts =
    (d ← makeDecoder e no_Tags;
     Ok (if NilOK ts then nilPtrDecoder (typeNilKind e ts) d else simplePtrDecoder d)).
Proof. by destruct e. Qed.

Lemma repr_TSlice e ts : is_byte e = false →
  repr (TSlice e) ts = if Tail ts then tail_repr (repr e no_Tags) else slice_repr (repr e no_Tags).
Proof. by destruct e as [| | | |[] | | | | | |]. Qed.

Lemma makeDecoder_TSlice e ts : is_byte e = false →
  makeDecoder (TSlice e) ts =
    (d ← makeDecoder e no_Tags; Ok (if Tail ts then decode_tail d else decodeListSlice d)).
Proof. by destruct e as [| | | |[] | | | | | |]. Qed.

Lemma repr_TArray n e ts : is_byte e = false → repr (TArray n e) ts = array_repr n (repr e no_Tags).
Proof. by destruct e as [| | | |[] | | | | | |]. Qed.

Lemma makeDecoder_TArray n e ts : is_byte e = false →
  makeDecoder (TArray n e) ts = (d ← makeDecoder e no_Tags; Ok (decodeListArray n d)).
Proof. by destruct e as [| | | |[] | | | | | |]. Qed.

Lemma is_byte_inv e : is_byte e = true → e = TUint W8.
Proof. by destruct e as [| | | |[] | | | | | |]. Qed.

(** Induction on types, with the types of the fields. *)
Lemma Typ_ind' (P : Typ → Prop) :
  P TRawValue → P TBigInt → P TUint256 → (∀ t, P t → P (TPtr t)) → (∀ w, P (TUint w)) → P TBool → P TString →
  (∀ t, P t → P (TSlice t)) → (∀ n t, P t → P (TArray n t)) →
  (∀ fs, Forall (λ f, P f.2) fs → P (TStruct fs)) → P TOther → ∀ t, P t.
Proof.
  intros H1 H2 H3 Hptr H4 H5 H6 Hslice Harray Hstruct H7. fix IH 1. intros [| | |t|w| | |t|n t|fs|];
    [exact H1|exact H2|exact H3|apply Hptr, IH|apply H4|exact H5|exact H6|apply Hslice, IH|apply Harray, IH| |exact H7].
  apply Hstruct. induction fs as [|f fs IHfs]; constructor; [apply IH | apply IHfs].
Qed.

(** ** Decoders *)

(** A decoder starts with [Kind]: when that fails, so does the decoder, in the same state,
    and [EOL] stays [EOL]. *)
Definition starts {A} (d : D A) : Prop :=
  ∀ s e s', stream_Kind s = (Err e, s') → ∃ e', d s = (Err e', s') ∧ (e' = EOL ↔ e = EOL).

(** Every representation is one value: a header and the content it announces. *)
Definition framed {A} (P : A → bytes → Prop) : Prop :=
  ∀ v b, P v b → blen b <= maxAlloc → ∃ h c k x, b = h ++ c ∧ header h k (blen c) x.

Record decodes {A} (d : D A) (P : A → bytes → Prop) : Prop := {
  dec_sound : sound d P;
  dec_complete : complete d P;
  dec_starts : starts d;
  dec_framed : framed P
}.

Lemma wrap_keeps : keeps_EOL wrapStreamError.
Proof. intros [| |[]| | | | | | | |]; done. Qed.

Lemma id_keeps : keeps_EOL id.
Proof. done. Qed.

Lemma starts_Kind {A} (body : Kind * Z → D A) : starts (stream_Kind ≫= body).
Proof. intros s e s' E. exists e. unfold mbind, D_bind. by rewrite E. Qed.

Lemma starts_ends {A} (d : D A) : starts d → ends d.
Proof.
  intros Hd s r outer Hp. destruct (Hd s EOL s (Kind_ends s r outer Hp)) as (e' & -> & He).
  by rewrite (proj2 He eq_refl).
Qed.

Lemma starts_map {A} f (d : D A) : keeps_EOL f → starts d → starts (map_err f d).
Proof.
  intros Hf Hd s e s' E. destruct (Hd s e s' E) as (e' & E' & He). exists (f e'). unfold map_err. rewrite E'.
  split; [done|]. rewrite <-He. apply Hf.
Qed.

Lemma starts_bind {A B} (d : D A) (k : A → D B) : starts d → starts (d ≫= k).
Proof.
  intros Hd s e s' E. destruct (Hd s e s' E) as (e' & E' & He). exists e'. unfold mbind, D_bind. by rewrite E'.
Qed.

Lemma sound_map {A} f (d : D A) P : keeps_EOL f → sound d P → sound (map_err f d) P.
Proof.
  intros Hf Hd s r stk Hat. specialize (Hd s r stk Hat). unfold map_err.
  destruct (d s) as [[v|e|] s']; try done. intros He. by apply Hd, (proj1 (Hf _)).
Qed.

Lemma complete_map {A} f (d : D A) P : complete d P → complete (map_err f d) P.
Proof.
  intros Hd s v b rest stk Hat HP Hf. destruct (Hd s v b rest stk Hat HP Hf) as (s' & E & Hp).
  exists s'. unfold map_err. by rewrite E.
Qed.

(** The result goes through a function. *)
Lemma decodes_ret {A B} (d : D A) (P : A → bytes → Prop) (f : A → B) :
  decodes d P → decodes (v ← d; mret (f v)) (λ v b, ∃ a, v = f a ∧ P a b).
Proof.
  intros [Hs Hc Hk Hfr]. split.
  - intros s r stk Hat. specialize (Hs s r stk Hat). run. destruct (d s) as [[v|e|] s']; try done.
    destruct Hs as (b & rest & ? & ? & ? & ?). eauto 10.
  - intros s v b rest stk Hat (a & -> & HP) Hf. destruct (Hc s a b rest stk Hat HP Hf) as (s' & E & Hp).
    exists s'. run. by rewrite E.
  - by apply starts_bind.
  - intros v b (a & -> & HP). by apply (Hfr a).
Qed.

Lemma decodes_wrapped {A} (d : D A) (P : A → bytes → Prop) f :
  decodes d P → decodes (wrapped f d) (λ v b, ∃ a, v = f a ∧ P a b).
Proof.
  intros [Hs Hc Hk Hfr]. apply decodes_ret. pose proof wrap_keeps as Hw.
  split; [by apply sound_map | by apply complete_map | by apply starts_map | done].
Qed.

Lemma decodes_ext {A} (d : D A) (P Q : A → bytes → Prop) :
  (∀ v b, P v b ↔ Q v b) → decodes d P → decodes d Q.
Proof.
  intros H [Hs Hc Hk Hfr]. split.
  - eapply sound_ext; [|exact Hs]. intros v b. apply H.
  - eapply complete_ext; [|exact Hc]. intros v b. apply H.
  - done.
  - intros v b HQ. apply (Hfr v), H, HQ.
Qed.

Lemma decodes_eq {A} (d d' : D A) P : (∀ s, d s = d' s) → decodes d P → decodes d' P.
Proof.
  intros H [Hs Hc Hk Hfr]. split.
  - intros s r stk Hat. rewrite <-H. by apply Hs.
  - intros s v b rest stk Hat HP Hf. rewrite <-H. by apply Hc.
  - intros s e s' E. rewrite <-H. by apply Hk.
  - done.
Qed.

Lemma framed_str c b : str_repr c b → blen b <= maxAlloc → ∃ h c k x, b = h ++ c ∧ header h k (blen c) x.
Proof.
  intros Hb Ha. destruct (str_content c b Hb Ha) as [_ Hc]. rewrite Hb.
  destruct (enc_str_view c Hc) as (h & c' & k & x & E & Hh & _). eauto 10.
Qed.

Lemma framed_list c : blen (enc_list c) <= maxAlloc → ∃ h c' k x, enc_list c = h ++ c' ∧ header h k (blen c') x.
Proof.
  intros Ha. unfold enc_list in *. rewrite blen_app in Ha. pose proof (blen_nonneg c). pose proof maxAlloc_two64.
  pose proof (blen_nonneg (puthead 192 247 (Z.of_nat (length c)))).
  eexists _, c, KList, Byte.x00. split; [done|]. split; [lia | done].
Qed.

Lemma decodes_Bytes : decodes stream_Bytes str_repr.
Proof. split; [apply Bytes_sound | apply Bytes_complete | apply starts_Kind | intros v; apply framed_str]. Qed.

Lemma decodes_uint w : decodes (stream_uint (Bits_of w)) (uint_repr (Bits_of w)).
Proof.
  assert (∃ m, Bits_of w = 8 * m ∧ 1 <= m <= 8) as (m & -> & Hm).
  { destruct w; [exists 1 | exists 2 | exists 4 | exists 8]; cbn; lia. }
  split; [by apply uint_sound | by apply uint_complete | apply starts_Kind|].
  intros v b [Hb _]. by apply (framed_str (big_Bytes v)).
Qed.

Lemma decodes_Bool : decodes stream_Bool bool_repr.
Proof.
  split; [apply Bool_sound | apply Bool_complete | apply starts_bind, starts_Kind|].
  intros v b Hb. by apply (framed_str (big_Bytes (Z.b2z v))).
Qed.

Lemma decodes_BigInt : decodes stream_decodeBigInt big_repr.
Proof.
  split; [apply decodeBigInt_sound | apply decodeBigInt_complete | apply starts_Kind|].
  intros v b [Hb _]. by apply (framed_str (big_Bytes v)).
Qed.

Lemma decodes_U256 : decodes ReadUint256 (uint_repr 256).
Proof.
  split; [apply ReadUint256_sound | apply ReadUint256_complete | apply starts_Kind|].
  intros v b [Hb _]. by apply (framed_str (big_Bytes v)).
Qed.

Lemma decodes_Raw : decodes Raw raw_repr.
Proof.
  split; [apply Raw_sound | apply Raw_complete | apply starts_Kind|].
  intros v b [_ Hb] _. done.
Qed.

(** [decodeByteArray] is [ReadBytes] up to its errors. *)
Lemma decodeByteArray_ReadBytes n s :
  match decodeByteArray n s, ReadBytes (Z.of_nat n) s with
  | (Ok v, s1), (Ok b, s2) => v = VBytes b ∧ s1 = s2
  | (Err e, s1), (Err e', s2) => s1 = s2 ∧ (e = EOL ↔ e' = EOL)
  | (Panic, s1), (Panic, s2) => s1 = s2
  | _, _ => False
  end.
Proof.
  unfold decodeByteArray, ReadBytes. run. destruct (stream_Kind s) as [[[k size]|e|] s']; [|done..].
  destruct k.
  - destruct (decide (n = 0)%nat); [by rewrite decide_True by lia|].
    destruct (decide (1 < n)%nat); [by rewrite decide_True by lia|]. by rewrite decide_False by lia.
  - destruct (decide (Z.of_nat n < size)); [by rewrite decide_True by lia|].
    destruct (decide (size < Z.of_nat n)); [by rewrite decide_True by lia|]. rewrite decide_False by lia.
    destruct (readFull (Z.of_nat n) s') as [[b|e|] s2]; [|done..]. by destruct (small1 size b).
  - done.
Qed.

Lemma decodes_ByteArray n : decodes (decodeByteArray n) (vbytes_repr (bytes_repr (Z.of_nat n))).
Proof.
  split; [| |apply starts_Kind|intros v b (c & _ & Hc & _); by apply (framed_str c)].
  - intros s r stk Hat. pose proof (ReadBytes_sound (Z.of_nat n) s r stk Hat) as H.
    pose proof (decodeByteArray_ReadBytes n s) as E.
    destruct (decodeByteArray n s) as [[v|e|] s1], (ReadBytes (Z.of_nat n) s) as [[b|e'|] s2]; try done.
    + destruct E as [-> ->]. destruct H as (b' & rest & ? & ? & ? & ?). exists b', rest.
      split; [done|]. split; [by exists b | done].
    + destruct E as [-> E]. by rewrite E.
  - intros s v b rest stk Hat (c & -> & Hc) Hf.
    destruct (ReadBytes_complete (Z.of_nat n) s c b rest stk Hat Hc Hf) as (s' & E & Hp).
    pose proof (decodeByteArray_ReadBytes n s) as H. rewrite E in H.
    destruct (decodeByteArray n s) as [[v|e|] s1]; try done. destruct H as [-> ->]. eauto.
Qed.

(** ** Lists of elements *)

Lemma charge_cons n l stk : charge n (l :: stk) = u64 (l - n) :: stk.
Proof. reflexivity. Qed.

Lemma elems_loop_sound d P fuel s r size stk :
  sound d P → (length r < fuel)%nat → Pos s r (size :: stk) →
  match decodeSliceElems_loop fuel d s with
  | (Ok l, s') => ∃ c rest, r = c ++ rest ∧ elems_repr P l c ∧ Pos s' rest (charge (blen c) (size :: stk))
  | (Err e, _) => e ≠ EOL
  | (Panic, _) => False
  end.
Proof.
  intros Hd. revert s r size. induction fuel as [|fuel IH]; intros s r size Hl Hp; [lia|].
  cbn [decodeSliceElems_loop]. specialize (Hd s r (size :: stk) (at_pos _ _ _ Hp)).
  destruct (d s) as [[v|e|] s1]; [|case_decide as He|done].
  - destruct Hd as (b & rest & -> & HP & Hne & Hp1). rewrite length_app in Hl.
    assert (0 < length b)%nat by (destruct b; [done | cbn; lia]).
    specialize (IH s1 rest _ ltac:(lia) Hp1).
    destruct (decodeSliceElems_loop fuel d s1) as [[l|e|] s2]; [|done..].
    destruct IH as (c & rest' & -> & Hc & Hp2). exists (b ++ c), rest'. split; [by rewrite app_assoc|].
    split; [by exists b, c|]. by rewrite blen_app, <-charge_charge.
  - destruct (Hd He) as [Hp1 _]. exists [], r. split; [done|]. split; [done|].
    change (blen []) with 0. rewrite charge_0; [done | apply Hp1].
  - done.
Qed.

Lemma elems_loop_complete d P fuel s l c rest stk :
  complete d P → ends d → (∀ v b, P v b → b ≠ []) → (length (c ++ rest) < fuel)%nat → elems_repr P l c →
  Pos s (c ++ rest) (blen c :: stk) →
  ∃ s', decodeSliceElems_loop fuel d s = (Ok l, s') ∧ Pos s' rest (0 :: stk).
Proof.
  intros Hd He Hne. revert s l c. induction fuel as [|fuel IH]; intros s l c Hl HP Hp; [lia|].
  cbn [decodeSliceElems_loop]. destruct l as [|v l]; cbn [elems_repr] in HP.
  - subst c. rewrite (He s rest stk Hp). rewrite decide_True by done. eauto.
  - destruct HP as (b & c' & -> & HPv & HP). rewrite <-app_assoc in Hp, Hl. rewrite blen_app in Hp.
    pose proof (blen_nonneg c'). assert (0 < length b)%nat by (pose proof (Hne v b HPv); destruct b; [done | cbn; lia]).
    destruct (Hd s v b (c' ++ rest) _ (at_pos _ _ _ Hp) HPv) as (s1 & -> & Hp1); [unfold fits; lia|].
    rewrite charge_cons in Hp1. replace (blen b + blen c' - blen b) with (blen c') in Hp1 by lia.
    assert (is_u64 (blen c')) as Hu.
    { split; [done|]. pose proof (lim_alloc _ _ _ (proj2 Hp1)) as Ha. rewrite blen_app in Ha.
      pose proof (blen_nonneg rest). pose proof maxAlloc_two64. lia. }
    rewrite u64_small in Hp1 by done. rewrite length_app in Hl.
    destruct (IH s1 l c' ltac:(lia) HP Hp1) as (s2 & -> & Hp2). eauto.
Qed.

Lemma P_nonempty {A} (d : D A) P v b : complete d P → starts d → P v b → b ≠ [].
Proof.
  intros Hc Hs HP ->.
  set (s := MkStream [] 0 0 None [0] None Byte.x00 true).
  assert (Pos s [] [0]) as Hp by (repeat split; [done | by repeat constructor]).
  destruct (Hc s v [] [] [0] (at_pos _ _ _ Hp) HP) as (s' & E & _); [done|].
  by rewrite (starts_ends d Hs s [] [] Hp) in E.
Qed.

Lemma tail_in d P : decodes d P →
  sound_in (λ _, decode_tail d) (tail_repr P) ∧ complete_in (λ _, decode_tail d) (tail_repr P).
Proof.
  intros [Hs Hc Hk _]. split.
  - intros s r size stk Hp. unfold decode_tail, decodeSliceElems. run.
    pose proof (elems_loop_sound d P (S (length (s_r s))) s r size stk Hs) as H.
    rewrite (lim_r _ _ _ (proj2 Hp)) in H |- *. specialize (H ltac:(lia) Hp).
    destruct (decodeSliceElems_loop _ d s) as [[l|e|] s']; [|done..].
    destruct H as (c & rest & -> & HP & Hp'). exists c, rest. split; [done|]. split; [by exists l | done].
  - intros s v c rest stk Hp (l & -> & HP). unfold decode_tail, decodeSliceElems. run.
    destruct (elems_loop_complete d P (S (length (s_r s))) s l c rest stk) as (s' & -> & Hp'); try done.
    + by apply starts_ends.
    + intros v b. by apply (P_nonempty d).
    + rewrite (lim_r _ _ _ (proj2 Hp)). lia.
    + eauto.
Qed.

Lemma decodes_Slice d P : decodes d P → decodes (decodeListSlice d) (slice_repr P).
Proof.
  intros Hd. destruct (tail_in d P Hd) as [Hs Hc].
  set (body := λ size : Z, if decide (size = 0) then mret (VList []) else decode_tail d : D val).
  apply decodes_eq with (d := list_of wrapStreamError id body).
  { intros s. unfold list_of, decodeListSlice, body, decode_tail. run.
    destruct (map_err wrapStreamError stream_List s) as [[size|e|] s1]; [|done..].
    destruct (decide (size = 0)); unfold map_err.
    - by destruct (stream_ListEnd s1) as [[[]|?|] s2].
    - destruct (decodeSliceElems d s1) as [[l|?|] s2]; [|done..]. by destruct (stream_ListEnd s2) as [[[]|?|] s3]. }
  apply decodes_ext with (P := λ v b, ∃ c, b = enc_list c ∧ tail_repr P v c).
  { intros v b. unfold slice_repr, tail_repr. naive_solver. }
  split.
  - apply list_sound; [apply wrap_keeps | apply id_keeps |]. intros s r size stk Hp. unfold body. case_decide; [|exact (Hs s r size stk Hp)].
    exists [], r. split; [done|]. split; [by exists []|]. change (blen []) with 0.
    rewrite charge_0; [done | apply Hp].
  - apply list_complete. intros s v c rest stk Hp HP. unfold body. case_decide as Hz; [|exact (Hc s v c rest stk Hp HP)].
    assert (c = []) as -> by (destruct c; [done | blen_lia]). destruct HP as (l & -> & HP).
    assert (l = []) as ->.
    { destruct l as [|v l]; [done|]. destruct HP as (b & c' & E & HP & _). symmetry in E.
      apply app_nil in E as [-> ->]. by apply (P_nonempty d) in HP; try apply Hd. }
    exists s. done.
  - apply starts_bind, starts_map; [apply wrap_keeps | apply starts_Kind].
  - intros v b (c & -> & _). apply framed_list.
Qed.

(** ** Arrays *)

Lemma charged c rest (x : Z) s stk :
  Pos s (c ++ rest) (u64 x :: stk) → x = blen c → Pos s (c ++ rest) (blen c :: stk).
Proof.
  intros Hp ->. rewrite u64_small in Hp; [done|]. split; [apply blen_nonneg|].
  pose proof (lim_alloc _ _ _ (proj2 Hp)) as Ha. rewrite blen_app in Ha.
  pose proof (blen_nonneg rest). pose proof maxAlloc_two64. lia.
Qed.

Definition elems_n_repr (n : nat) (P : val → bytes → Prop) (l : list val) (c : bytes) : Prop :=
  length l = n ∧ elems_repr P l c.

Lemma decode_elems_sound d P n : sound d P → sound_in (λ _, decode_elems n d) (elems_n_repr n P).
Proof.
  intros Hd s r size stk. revert s r size. induction n as [|n IH]; intros s r size Hp; cbn [decode_elems].
  { exists [], r. split; [done|]. split; [done|]. change (blen []) with 0. rewrite charge_0; [done | apply Hp]. }
  specialize (Hd s r (size :: stk) (at_pos _ _ _ Hp)).
  destruct (d s) as [[v|e|] s1]; [|by case_decide|done].
  destruct Hd as (b & rest & -> & HP & Hne & Hp1). specialize (IH s1 rest _ Hp1).
  destruct (decode_elems n d s1) as [[l|e|] s2]; [|done..].
  destruct IH as (c & rest' & -> & [Hl Hc] & Hp2). exists (b ++ c), rest'. split; [by rewrite app_assoc|].
  split; [split; [cbn; lia | by exists b, c]|]. by rewrite blen_app, <-charge_charge.
Qed.

Lemma decode_elems_complete d P n : complete d P → complete_in (λ _, decode_elems n d) (elems_n_repr n P).
Proof.
  intros Hd s l c rest stk Hp [Hl HP]. revert s l c Hp Hl HP.
  induction n as [|n IH]; intros s l c Hp Hl HP; destruct l as [|v l]; try done; cbn [decode_elems elems_repr] in *.
  { subst c. exists s. done. }
  destruct HP as (b & c' & -> & HPv & HP). rewrite <-app_assoc in Hp. rewrite blen_app in Hp.
  pose proof (blen_nonneg c').
  destruct (Hd s v b (c' ++ rest) _ (at_pos _ _ _ Hp) HPv) as (s1 & -> & Hp1); [unfold fits; lia|].
  rewrite charge_cons in Hp1. apply charged in Hp1; [|lia].
  destruct (IH s1 l c' Hp1) as (s2 & -> & Hp2); [cbn in Hl; lia | done | eauto].
Qed.

(** A list around a body whose result goes through [f]. *)
Lemma decodes_list {A} g (body : Z → D A) (Q : A → bytes → Prop) (f : A → val) :
  keeps_EOL g → sound_in body Q → complete_in body Q →
  decodes (size ← map_err wrapStreamError stream_List; l ← body size; map_err g stream_ListEnd;; mret (f l))
    (λ v b, ∃ l c, v = f l ∧ b = enc_list c ∧ Q l c).
Proof.
  intros Hg Hs Hc. apply decodes_eq with (d := v ← list_of wrapStreamError g body; mret (f v)).
  { intros s. unfold list_of. run. destruct (map_err wrapStreamError stream_List s) as [[size|?|] s1]; [|done..].
    destruct (body size s1) as [[l|?|] s2]; [|done..]. by destruct (map_err g stream_ListEnd s2) as [[?|?|] s3]. }
  apply decodes_ext with (P := λ v b, ∃ l, v = f l ∧ ∃ c, b = enc_list c ∧ Q l c).
  { intros v b. naive_solver. }
  apply decodes_ret. split.
  - by apply list_sound; [apply wrap_keeps|..].
  - by apply list_complete.
  - apply starts_bind, starts_map; [apply wrap_keeps | apply starts_Kind].
  - intros v b (c & -> & _). apply framed_list.
Qed.

Lemma decodes_Array n d P : decodes d P → decodes (decodeListArray n d) (array_repr n P).
Proof.
  intros [Hs Hc _ _]. eapply decodes_ext; [|apply (decodes_list wrapStreamError (λ _, decode_elems n d)
    (elems_n_repr n P) VList); [apply wrap_keeps | by apply decode_elems_sound | by apply decode_elems_complete]].
  intros v b. unfold array_repr, elems_n_repr. naive_solver.
Qed.

(** ** Structs *)

Inductive fields_ok : list field → list fspec → Prop :=
| fields_ok_nil : fields_ok [] []
| fields_ok_cons f p fs ps :
    decodes (fd_decoder f) (sp_repr p) → fd_optional f = sp_optional p → fd_zero f = sp_zero p →
    fields_ok fs ps → fields_ok (f :: fs) (p :: ps)
| fields_ok_tail f p :
    sound_in (λ _, fd_decoder f) (sp_repr p) → complete_in (λ _, fd_decoder f) (sp_repr p) →
    sp_optional p = false → fd_zero f = sp_zero p → fields_ok [f] [p].

Lemma fields_ok_zero fs ps : fields_ok fs ps → fd_zero <$> fs = sp_zero <$> ps.
Proof. induction 1 as [|f p fs ps _ _ Hz _ IH|f p _ _ _ Hz]; cbn; [done | by rewrite Hz, IH | by rewrite Hz]. Qed.

Lemma decode_fields_sound fs ps :
  fields_ok fs ps → sound_in (λ _, decode_fields fs) (fields_repr ps).
Proof.
  intros Hok s r size stk. revert s r size.
  induction Hok as [|f p fs ps [Hs _ _ _] Ho Hz Hok IH|f p Hs _ _ _]; intros s r size Hp; cbn [decode_fields].
  - exists [], r. split; [done|]. split; [done|]. change (blen []) with 0. rewrite charge_0; [done | apply Hp].
  - specialize (Hs s r (size :: stk) (at_pos _ _ _ Hp)).
    destruct (fd_decoder f s) as [[v|e|] s1]; [|case_decide as He|done].
    + destruct Hs as (b & rest & -> & HP & Hne & Hp1). specialize (IH s1 rest _ Hp1).
      destruct (decode_fields fs s1) as [[l|e|] s2]; [|done..].
      destruct IH as (c & rest' & -> & Hc & Hp2). exists (b ++ c), rest'. split; [by rewrite app_assoc|].
      split; [left; by exists v, l, b, c|]. by rewrite blen_app, <-charge_charge.
    + destruct (fd_optional f); [|done]. destruct (Hs He) as [Hp1 _]. exists [], r. split; [done|].
      split; [right; split; [by rewrite <-Ho|]; split; [|done]; cbn; by rewrite Hz, (fields_ok_zero fs ps)|].
      change (blen []) with 0. rewrite charge_0; [done | apply Hp1].
    + done.
  - specialize (Hs s r size stk Hp). cbv beta in Hs.
    destruct (fd_decoder f s) as [[v|e|] s1]; [|by rewrite decide_False|done].
    destruct Hs as (c & rest & -> & HP & Hp1). exists c, rest. split; [done|]. split; [|done].
    left. exists v, [], c, []. by rewrite app_nil_r.
Qed.

Lemma decode_fields_complete fs ps :
  fields_ok fs ps → complete_in (λ _, decode_fields fs) (fields_repr ps).
Proof.
  intros Hok s vs c rest stk Hp HP. revert s vs c Hp HP.
  induction Hok as [|f p fs ps [_ Hc Hk _] Ho Hz Hok IH|f p _ Hc Ho Hz]; intros s vs c Hp HP;
    cbn [decode_fields fields_repr] in *.
  - destruct HP as [-> ->]. exists s. done.
  - destruct HP as [(v & vs' & b & c' & -> & -> & HPv & HP)|(Hopt & -> & ->)].
    + rewrite <-app_assoc in Hp. rewrite blen_app in Hp. pose proof (blen_nonneg c').
      destruct (Hc s v b (c' ++ rest) _ (at_pos _ _ _ Hp) HPv) as (s1 & -> & Hp1); [unfold fits; lia|].
      rewrite charge_cons in Hp1. apply charged in Hp1; [|lia].
      destruct (IH s1 vs' c' Hp1 HP) as (s2 & -> & Hp2). eauto.
    + rewrite (starts_ends _ Hk s rest stk Hp), decide_True by done. rewrite <-Ho in Hopt.
      destruct (fd_optional f); [|done]. exists s. split; [|done]. cbn. by rewrite Hz, (fields_ok_zero fs ps).
  - destruct HP as [(v & vs' & b & c' & -> & -> & HPv & -> & ->)|(Hopt & _)]; [|by rewrite Ho in Hopt].
    rewrite app_nil_r in Hp. destruct (Hc s v b rest stk Hp HPv) as (s1 & -> & Hp1). eauto.
Qed.

Lemma decodes_Struct fs ps : fields_ok fs ps → decodes (structDecoder fs) (struct_repr ps).
Proof.
  intros Hok. apply (decodes_list wrapStreamError (λ _, decode_fields fs) (fields_repr ps) VStruct);
    [apply wrap_keeps | by apply decode_fields_sound | by apply decode_fields_complete].
Qed.

(** ** Pointers *)

Lemma nil_header k x : k ≠ KByte → header [nil_byte k] k 0 x.
Proof. intros. split; [done|]. by destruct k. Qed.

Lemma header_zero h k x : header h k 0 x → k ≠ KByte → h = [nil_byte k].
Proof. intros [_ H] Hk. destruct k; [done|by subst h..]. Qed.

Lemma At_Kind s r stk k size s' h r' :
  At s r stk → r = h ++ r' → header h k size (s_byteval s') → Ahead s' k size r' (charge (blen h) stk) →
  At s' r stk.
Proof.
  intros Hat -> Hh HA. apply At_u64 in Hat as [Hu Ha]. eapply at_ahead; try done.
Qed.

Lemma empty_prefix b rest k size (s' : Stream) h r' :
  b ++ rest = h ++ r' → header h k size (s_byteval s') → (k ≠ KByte ∧ size = 0) →
  ∀ h' c' k' x', b = h' ++ c' → header h' k' (blen c') x' → b = [nil_byte k].
Proof.
  intros E Hh [Hk ->] h' c' k' x' -> Hh'. rewrite <-app_assoc in E.
  destruct (header_inj _ _ _ _ _ _ _ _ _ _ Hh' Hh E) as (-> & Hz & -> & _).
  assert (c' = []) as -> by (destruct c'; [done | blen_lia]). rewrite app_nil_r. by apply (header_zero _ _ _ Hh).
Qed.

Lemma decodes_nilPtr k d P :
  k ≠ KByte → decodes d P → decodes (nilPtrDecoder k d) (nilptr_repr k P).
Proof.
  intros Hk [Hs Hc Hst Hfr]. split.
  - intros s r stk Hat. unfold nilPtrDecoder, map_err. run. pose proof (Kind_sound s r stk Hat) as HK.
    destruct (stream_Kind s) as [[[k' size]|e|] s1]; [|intros He; by apply HK, (proj1 (wrap_keeps _))|done].
    destruct HK as (h & r' & Er & Hh & HA). case_decide as Hem.
    + case_decide as Hk'; [done|]. assert (k' = k) as -> by (destruct (decide (k' = k)); tauto).
      destruct Hem as [_ ->]. exists h, r'. split; [done|]. split; [left; split; [done | by apply (header_zero _ _ _ Hh)]|].
      split; [by apply (header_nonempty _ _ _ _ Hh)|]. apply Lim_rearm, (ahead_lim _ _ _ _ _ HA).
    + pose proof (Hs s1 r stk (At_Kind _ _ _ _ _ _ _ _ Hat Er Hh HA)) as H.
      destruct (d s1) as [[v|e|] s2]; [|done..]. destruct H as (b & rest & Er' & HP & Hne & Hp).
      exists b, rest. split; [done|]. split; [|done]. right. split; [by exists v|].
      assert (b = [Byte.x80] ∨ b = [Byte.xc0] → False) as Hno; [|split; intros ->; tauto].
      intros Hb. assert (∃ k0, k0 ≠ KByte ∧ b = [nil_byte k0]) as (k0 & Hk0 & ->).
      { destruct Hb as [-> | ->]; [by exists KString | by exists KList]. }
      rewrite Er' in Er. destruct (header_inj _ _ _ _ _ _ _ _ _ _ (nil_header k0 Byte.x00 Hk0) Hh Er) as (-> & <- & _).
      tauto.
  - intros s v b rest stk Hat [[-> ->]|[(v' & -> & HP) [H80 Hc0]]] Hf; unfold nilPtrDecoder, map_err; run.
    + destruct (Kind_complete s [nil_byte k] rest stk k 0 Byte.x00) as (s1 & -> & Hh & HA);
        [done | by apply nil_header | apply blen_nonneg | done |].
      rewrite decide_True, decide_False by tauto. exists (rearm s1). split; [done|].
      apply Lim_rearm, (ahead_lim _ _ _ _ _ HA).
    + destruct (Hc s v' b rest stk Hat HP Hf) as (s2 & E & _).
      pose proof (Kind_sound s _ stk Hat) as HK.
      destruct (stream_Kind s) as [[[k' size]|e|] s1] eqn:EK;
        [|destruct (Hst s e s1 EK) as (e' & E' & _); by rewrite E' in E|done].
      destruct HK as (h & r' & Er & Hh & HA). case_decide as Hem.
      { exfalso. pose proof (At_u64 _ _ _ Hat) as [_ Ha]. rewrite blen_app in Ha. pose proof (blen_nonneg rest).
        destruct (Hfr v' b HP ltac:(lia)) as (h' & c' & k0 & x & Eb & Hh').
        pose proof (empty_prefix b rest k' size s1 h r' Er Hh Hem h' c' k0 x Eb Hh').
        destruct Hem as [Hk' _]. destruct k'; done. }
      destruct (Hc s1 v' b rest stk (At_Kind _ _ _ _ _ _ _ _ Hat Er Hh HA) HP Hf) as (s3 & -> & Hp). eauto.
  - intros s e s' E. exists (wrapStreamError e). unfold nilPtrDecoder, map_err. run. rewrite E.
    split; [done | apply wrap_keeps].
  - intros v b [[-> ->]|[(v' & -> & HP) _]] Ha; [|by apply (Hfr v')].
    exists [nil_byte k], [], k, Byte.x00. split; [done|]. by apply nil_header.
Qed.

Lemma decodes_simplePtr d P : decodes d P → decodes (simplePtrDecoder d) (ptr_repr P).
Proof. apply (decodes_ret d P VPtr). Qed.

(** ** The decoder of a type *)

Lemma DefaultNilValue_kind t : DefaultNilValue t ≠ KByte.
Proof. destruct t as [| | | | | | |[| | | |[] | | | | | |] |? [| | | |[] | | | | | |]| |]; done. Qed.

(** What parsing a tag guarantees. *)
Definition tags_ok (isLast : bool) (ts : Tags) : Prop :=
  (NilOK ts = true → NilKind ts ≠ KByte) ∧ (Tail ts = true → isLast = true ∧ Optional ts = false).

Lemma parse_part_ok t isLast ts p ts' :
  tags_ok isLast ts → parse_part t isLast ts p = Ok ts' → tags_ok isLast ts'.
Proof.
  intros [H1 H2] E. destruct p; cbn in E; try done; repeat case_match; try done; injection E as <-;
    split; cbn; try done; intros; simplify_eq; auto using DefaultNilValue_kind.
  all: by destruct isLast.
Qed.

Lemma parseTag_ok t isLast tag ts : parseTag t isLast tag = Ok ts → tags_ok isLast ts.
Proof.
  unfold parseTag. revert ts. induction tag as [|p tag IH] using rev_ind; intros ts; [by intros [= <-]|].
  rewrite foldl_app. cbn. intros E. apply bind_Ok in E as (ts0 & E0 & E1).
  by apply (parse_part_ok t isLast ts0 p); [apply IH|].
Qed.

Definition is_tail (t : Typ) (ts : Tags) : bool :=
  Tail ts && match t with TSlice e => negb (is_byte e) | _ => false end.

Lemma typeNilKind_kind t ts isLast : tags_ok isLast ts → typeNilKind t ts ≠ KByte.
Proof.
  intros [H _]. unfold typeNilKind. destruct (NilOK ts); [by apply H | apply DefaultNilValue_kind].
Qed.

Definition decoder_ok (t : Typ) (ts : Tags) (d : D val) : Prop :=
  if is_tail t ts
  then sound_in (λ _, d) (repr t ts) ∧ complete_in (λ _, d) (repr t ts)
  else decodes d (repr t ts).

Lemma no_public_none fs ftags :
  no_public fs = true → field_tags fs = Ok ftags →
  field_specs fs ftags = [] ∧ field_decoders fs ftags = Ok [].
Proof.
  revert ftags. induction fs as [|[[ex tag] t] fs IH]; intros ftags Hp E; [by injection E as <-|].
  cbn in Hp, E. apply andb_true_iff in Hp as [Hex Hp]. destruct ex; [done|].
  apply bind_Ok in E as (rest & E & [= <-]). cbn. by apply IH.
Qed.

Lemma fields_decoders_ok fs ftags fields :
  Forall (λ f, ∀ ts isLast d, tags_ok isLast ts → makeDecoder f.2 ts = Ok d → decoder_ok f.2 ts d) fs →
  field_tags fs = Ok ftags → field_decoders fs ftags = Ok fields → fields_ok fields (field_specs fs ftags).
Proof.
  intros Hfs. revert ftags fields. induction Hfs as [|[[ex tag] t] fs Ht Hfs IH]; intros ftags fields Et Ed.
  { injection Et as <-. injection Ed as <-. constructor. }
  cbn in Et. destruct ex.
  - apply bind_Ok in Et as (ts & Ets & Et). apply bind_Ok in Et as (rest & Er & [= <-]).
    destruct (Ignored ts); [by apply IH|]. cbn in Ed |- *.
    apply bind_Ok in Ed as (d & Edec & Ed). apply bind_Ok in Ed as (drest & Edr & [= <-]).
    pose proof (parseTag_ok _ _ _ _ Ets) as Hok. specialize (Ht ts _ d Hok Edec). unfold decoder_ok in Ht. cbn in Ht.
    destruct (is_tail t ts) eqn:Etl; [|constructor; [done..|by apply IH]].
    apply andb_true_iff in Etl as [Htl _]. apply Hok in Htl as [Hlast Hopt].
    destruct (no_public_none fs rest Hlast Er) as [-> E]. rewrite E in Edr. injection Edr as <-.
    by destruct Ht; constructor.
  - apply bind_Ok in Et as (rest & Er & [= <-]). by apply IH.
Qed.

Lemma makeDecoder_ok t : ∀ ts isLast d,
  tags_ok isLast ts → makeDecoder t ts = Ok d → decoder_ok t ts d.
Proof.
  unfold decoder_ok, is_tail. induction t as [| | |t IH|w| | |e IH|n e IH|fs IH|] using Typ_ind';
    intros ts isLast d Hts E; rewrite ?andb_false_r.
  - injection E as <-. apply (decodes_ret Raw raw_repr VBytes), decodes_Raw.
  - injection E as <-. apply (decodes_wrapped _ big_repr VInt), decodes_BigInt.
  - injection E as <-. apply (decodes_wrapped _ (uint_repr 256) VInt), decodes_U256.
  - assert (t = TBigInt ∨ t = TUint256 ∨ t ≠ TBigInt ∧ t ≠ TUint256) as [->|[->|[Hb Hu]]]
      by (destruct t; tauto || (right; right; split; discriminate)).
    + injection E as <-. eapply decodes_ext; [|apply (decodes_wrapped _ big_repr (λ z, VPtr (VInt z))), decodes_BigInt].
      intros v b. cbn. unfold ptr_repr, int_repr. naive_solver.
    + injection E as <-. eapply decodes_ext; [|apply (decodes_wrapped _ (uint_repr 256) (λ z, VPtr (VInt z))), decodes_U256].
      intros v b. cbn. unfold ptr_repr, int_repr. naive_solver.
    + rewrite makeDecoder_TPtr in E by done. apply bind_Ok in E as (d' & Ed & [= <-]).
      rewrite repr_TPtr by done. specialize (IH no_Tags true d' ltac:(done) Ed).
      cbn [no_Tags Tail andb] in IH. destruct (NilOK ts).
      * apply decodes_nilPtr; [by apply (typeNilKind_kind _ _ isLast) | done].
      * by apply decodes_simplePtr.
  - injection E as <-. apply (decodes_wrapped _ (uint_repr (Bits_of w)) VInt), decodes_uint.
  - injection E as <-. apply (decodes_wrapped _ bool_repr VBool), decodes_Bool.
  - injection E as <-. apply (decodes_wrapped _ str_repr VBytes), decodes_Bytes.
  - destruct (is_byte e) eqn:Eb; cbn [negb]; rewrite ?andb_false_r, ?andb_true_r.
    + apply is_byte_inv in Eb as ->. injection E as <-. apply (decodes_wrapped _ str_repr VBytes), decodes_Bytes.
    + rewrite makeDecoder_TSlice in E by done. apply bind_Ok in E as (d' & Ed & [= <-]).
      rewrite repr_TSlice by done. specialize (IH no_Tags true d' ltac:(done) Ed). cbn [no_Tags Tail andb] in IH.
      destruct (Tail ts); [by apply tail_in | by apply decodes_Slice].
  - destruct (is_byte e) eqn:Eb.
    + apply is_byte_inv in Eb as ->. injection E as <-. apply decodes_ByteArray.
    + rewrite makeDecoder_TArray in E by done. apply bind_Ok in E as (d' & Ed & [= <-]).
      rewrite repr_TArray by done. specialize (IH no_Tags true d' ltac:(done) Ed). cbn [no_Tags Tail andb] in IH.
      by apply decodes_Array.
  - rewrite makeDecoder_TStruct in E. apply bind_Ok in E as (ftags & Ep & E).
    apply bind_Ok in E as (fields & Ef & [= <-]). rewrite (repr_TStruct _ _ ftags) by done.
    unfold ProcessFields in Ep. apply bind_Ok in Ep as (tags & Et & Ep). destruct (optional_ok false tags); [|done].
    injection Ep as ->. apply decodes_Struct. by apply fields_decoders_ok.
  - done.
Qed.

(** ** [DecodeBytes] *)

Lemma Reset_Pos b : b ≠ [] → blen b <= maxAlloc → Pos (stream_Reset b (blen b) zero_Stream) b [].
Proof.
  intros Hb Ha. assert (0 < blen b) by (destruct b; [done | blen_lia]). unfold stream_Reset.
  rewrite decide_True, bool_decide_eq_true_2 by done. by repeat split.
Qed.

Lemma empty_input d (P : val → bytes → Prop) :
  decodes d P → ∃ e s', d (stream_Reset [] 0 zero_Stream) = (Err e, s').
Proof.
  intros Hd. assert (∃ s', stream_Kind (stream_Reset [] 0 zero_Stream) = (Err io_EOF, s')) as [s' E] by (eexists; reflexivity).
  destruct (dec_starts _ _ Hd _ _ _ E) as (e' & E' & _). eauto.
Qed.

Lemma top_decodes t d : makeDecoder t no_Tags = Ok d → decodes d (repr t no_Tags).
Proof. apply (makeDecoder_ok t no_Tags true). done. Qed.

Lemma complete_all {A} (d : D A) P s v b :
  complete d P → At s b [] → P v b → ∃ s', d s = (Ok v, s') ∧ s_r s' = [].
Proof.
  intros Hd Hat HP. destruct (Hd s v b [] [] ltac:(by rewrite app_nil_r) HP ltac:(done)) as (s' & E & [_ HL]).
  exists s'. split; [done | apply HL].
Qed.

Lemma DecodeBytes_cases t b d :
  makeDecoder t no_Tags = Ok d → blen b <= maxAlloc →
  (∃ v, DecodeBytes t b = Ok v ∧ repr t no_Tags v b) ∨
  (∃ e, DecodeBytes t b = Err e ∧ ∀ v, ¬ repr t no_Tags v b).
Proof.
  intros Ed Ha. pose proof (top_decodes t d Ed) as Hd. unfold DecodeBytes. rewrite Ed. fold (blen b).
  destruct (decide (b = [])) as [->|Hb].
  { right. destruct (empty_input d _ Hd) as (e & s' & E). change (blen []) with 0. rewrite E. exists e. split; [done|].
    intros v Hv. by apply (P_nonempty d) in Hv; try apply Hd. }
  pose proof (at_pos _ _ _ (Reset_Pos b Hb Ha)) as Hat. pose proof (dec_sound _ _ Hd _ _ _ Hat) as Hs.
  assert (∀ v, repr t no_Tags v b → ∃ s', d (stream_Reset b (blen b) zero_Stream) = (Ok v, s') ∧ s_r s' = []) as Hc.
  { intros v Hv. by apply (complete_all d (repr t no_Tags) _ v b (dec_complete _ _ Hd)). }
  destruct (d (stream_Reset b (blen b) zero_Stream)) as [[v|e|] s'].
  - destruct Hs as (b' & rest & -> & HP & _ & [_ HL]). rewrite (lim_r _ _ _ HL).
    destruct rest as [|x rest].
    + rewrite decide_False by (cbn; lia). left. exists v. by rewrite app_nil_r.
    + rewrite decide_True by (cbn; lia). right. eexists. split; [done|]. intros v' Hv'.
      destruct (Hc v' Hv') as (s2 & [= -> <-] & Hr). by rewrite (lim_r _ _ _ HL) in Hr.
  - right. exists e. split; [done|]. intros v Hv. by destruct (Hc v Hv) as (s2 & ? & _).
  - done.
Qed.

(** The bytes determine the value. *)
Lemma repr_functional t b v v' :
  is_ok (makeDecoder t no_Tags) → blen b <= maxAlloc → repr t no_Tags v b → repr t no_Tags v' b → v = v'.
Proof.
  intros Hok Ha Hv Hv'. destruct (makeDecoder t no_Tags) as [d| |] eqn:Ed; [|done..].
  pose proof (top_decodes t d Ed) as Hd. assert (b ≠ []) as Hb by (intros ->; by apply (P_nonempty d) in Hv; try apply Hd).
  pose proof (at_pos _ _ _ (Reset_Pos b Hb Ha)) as Hat.
  destruct (complete_all d _ _ _ _ (dec_complete _ _ Hd) Hat Hv) as (s1 & E1 & _).
  destruct (complete_all d _ _ _ _ (dec_complete _ _ Hd) Hat Hv') as (s2 & E2 & _). congruence.
Qed.

Lemma decoded_repr t b v :
  is_ok (makeDecoder t no_Tags) → blen b <= maxAlloc → DecodeBytes t b = Ok v → repr t no_Tags v b.
Proof.
  intros Hok Ha E. destruct (makeDecoder t no_Tags) as [d| |] eqn:Ed; [|done..].
  destruct (DecodeBytes_cases t b d Ed Ha) as [(v' & E' & Hv')|(e & E' & _)]; rewrite E' in E; [|done].
  by injection E as ->.
Qed.

Lemma repr_decoded t b v :
  is_ok (makeDecoder t no_Tags) → blen b <= maxAlloc → repr t no_Tags v b → DecodeBytes t b = Ok v.
Proof.
  intros Hok Ha Hv. destruct (makeDecoder t no_Tags) as [d| |] eqn:Ed; [|done..].
  destruct (DecodeBytes_cases t b d Ed Ha) as [(v' & -> & Hv')|(e & _ & Hno)]; [|by destruct (Hno v)].
  f_equal. apply (repr_functional t b); [by rewrite Ed | done..].
Qed.

(** C10: for every type with a decoder, [DecodeBytes] accepts an input and yields [v] exactly
    when the input represents [v]: integers without leading zeros and within their width,
    byte arrays of the exact length, canonical headers, the fields of structs in order with
    trailing optional fields possibly missing, nil pointers only where the tags allow it,
    and no trailing bytes. The limits that [Kind] and [List] keep on [uint64], one of which
    can wrap around, never let another input through. *)
Theorem DecodeBytes_iff t b v :
  is_ok (makeDecoder t no_Tags) → blen b <= maxAlloc →
  DecodeBytes t b = Ok v ↔ repr t no_Tags v b.
Proof. intros Hok Ha. split; [by apply decoded_repr | by apply repr_decoded]. Qed.

(** C28: [DecodeBytes] returns a value or an error on every input and every type; it never
    panics, although the sizes it allocates come from the input. *)
Theorem DecodeBytes_total t b : blen b <= maxAlloc → DecodeBytes t b ≠ Panic.
Proof.
  intros Ha. destruct (makeDecoder t no_Tags) as [d| |] eqn:Ed; [|by unfold DecodeBytes; rewrite Ed..].
  destruct (DecodeBytes_cases t b d Ed Ha) as [(v & -> & _)|(e & -> & _)]; done.
Qed.

(** ** Witnesses *)

Definition ex_bytes : bytes := z2b <$> [0xc7; 0x82; 4; 0; 0x80; 0xc2; 0x61; 0x80].

Lemma DecodeBytes_iff_witness :
  DecodeBytes ex_typ ex_bytes = Ok ex_val ∧ (DecodeBytes ex_typ ex_bytes = Ok ex_val ↔ repr ex_typ no_Tags ex_val ex_bytes).
Proof. split; [exact ex_decode|]. apply DecodeBytes_iff; by vm_compute. Defined.

Lemma DecodeBytes_total_witness : DecodeBytes ex_typ (drop 1 ex_bytes) ≠ Panic.
Proof. apply DecodeBytes_total. by vm_compute. Defined.
