(* ===== verification/CodecTypes.v ===== *)
(** * Decoded values have the type they were decoded for

    [has_type] says what a Go value of a type can be: integers within their width, arrays of
    their length, structs with their fields. The decoder fills values through reflection,
    where nothing but its own checks keeps them so. *)
From Stdlib Require Import ZArith Lia.
From Stdlib Require Strings.Byte.
From stdpp Require Import base tactics decidable list numbers.
From S2P Require Import Prelude Keccak Common Rlp Stream StreamFacts Codec CodecFacts.

Definition in_range (bits z : Z) : bool := bool_decide (0 <= z < 2 ^ bits).

Fixpoint has_type (t : Typ) (v : val) : bool :=
  match t, v with
  | TRawValue, (VBytes _ | VNil) => true
  | TBigInt, VInt z => bool_decide (0 <= z)
  | TUint256, VInt z => in_range 256 z
  | TUint w, VInt z => in_range (Bits_of w) z
  | TBool, VBool _ => true
  | TString, VBytes _ => true
  | TPtr _, VNil => true
  | TPtr e, VPtr v => has_type e v
  | TSlice _, VNil => true
  | TSlice (TUint W8), VBytes _ => true
  | TSlice (TUint W8), _ => false
  | TSlice e, VList l => forallb (has_type e) l
  | TArray n (TUint W8), VBytes b => bool_decide (length b = n)
  | TArray _ (TUint W8), _ => false
  | TArray n e, VList l => bool_decide (length l = n) && forallb (has_type e) l
  | TStruct fs, VStruct vs =>
      match ProcessFields fs with
      | Ok ftags =>
          (fix go (fs : list (bool * list tag_part * Typ)) (ftags : list (option Tags)) (vs : list val) : bool :=
            match fs, ftags, vs with
            | (_, e) :: fs, Some _ :: ftags, v :: vs => has_type e v && go fs ftags vs
            | _ :: fs, None :: ftags, vs => go fs ftags vs
            | _ :: _, Some _ :: _, [] => false
            | _, _, vs => bool_decide (length vs = 0%nat)
            end) fs ftags vs
      | _ => false
      end
  | _, _ => false
  end.

(** The fields of a struct. *)
Fixpoint fields_typed (fs : list (bool * list tag_part * Typ)) (ftags : list (option Tags)) (vs : list val) : bool :=
  match fs, ftags, vs with
  | (_, e) :: fs, Some _ :: ftags, v :: vs => has_type e v && fields_typed fs ftags vs
  | _ :: fs, None :: ftags, vs => fields_typed fs ftags vs
  | _ :: _, Some _ :: _, [] => false
  | _, _, vs => bool_decide (length vs = 0%nat)
  end.

Lemma has_type_TStruct fs vs ftags :
  ProcessFields fs = Ok ftags → has_type (TStruct fs) (VStruct vs) = fields_typed fs ftags vs.
Proof. intros H. cbn [has_type]. by rewrite H. Qed.

Lemma has_type_TSlice e l : is_byte e = false → has_type (TSlice e) (VList l) = forallb (has_type e) l.
Proof. by destruct e as [| | | |[] | | | | | |]. Qed.

Lemma has_type_TArray n e l :
  is_byte e = false → has_type (TArray n e) (VList l) = bool_decide (length l = n) && forallb (has_type e) l.
Proof. by destruct e as [| | | |[] | | | | | |]. Qed.

Lemma forallb_typed e l : (∀ v, v ∈ l → has_type e v = true) → forallb (has_type e) l = true.
Proof. intros H. apply forallb_forall. intros v Hv. apply H. by apply list_elem_of_In. Qed.

Lemma elems_repr_typed (P : val → bytes → Prop) e l : ∀ c,
  (∀ v b, P v b → has_type e v = true) → elems_repr P l c → forallb (has_type e) l = true.
Proof.
  induction l as [|v l IH]; intros c HP Hl; [done|]. destruct Hl as (b & c' & _ & Hv & Hl). cbn [forallb].
  by rewrite (HP _ _ Hv), (IH c').
Qed.

(** Types that have a decoder. *)
Definition decodable (t : Typ) (ts : Tags) : Prop := is_ok (makeDecoder t ts).

Lemma decodable_bind {A B} (r : res type_error A) (f : A → res type_error B) : is_ok (r ≫= f) → is_ok r.
Proof. by destruct r. Qed.

Lemma zero_TStruct fs ftags :
  ProcessFields fs = Ok ftags → zero (TStruct fs) = VStruct (sp_zero <$> field_specs fs ftags).
Proof.
  intros Ep. cbn [zero]. rewrite Ep. f_equal. clear Ep. revert ftags.
  induction fs as [|[[x tag] e] fs IH]; intros ftags; [done|].
  destruct ftags as [|[tg|] ftags]; cbn [field_specs fmap list_fmap sp_zero]; [done | f_equal; apply IH | apply IH].
Qed.

(** A struct whose fields are all missing. *)
Lemma fields_zero fs : Forall (λ f, ∀ ts, decodable f.2 ts → has_type f.2 (zero f.2) = true) fs →
  ∀ ftags, is_ok (field_decoders fs ftags) → fields_typed fs ftags (sp_zero <$> field_specs fs ftags) = true.
Proof.
  induction 1 as [|[[x tag] e] fs He _ IH]; intros ftags Hd; [done|]. cbn [snd] in He.
  destruct ftags as [|[tg|] ftags]; cbn [field_decoders field_specs fields_typed] in *; [done | | by apply IH].
  destruct (makeDecoder e tg) as [d| |] eqn:Ed; [|done..]. cbn [mbind res_bind] in Hd. apply decodable_bind in Hd.
  rewrite fmap_cons. cbn [fields_typed sp_zero]. rewrite (He tg) by (unfold decodable; by rewrite Ed). by apply IH.
Qed.

Lemma zero_typed t : ∀ ts, decodable t ts → has_type t (zero t) = true.
Proof.
  induction t as [| | |t IH|w| | |e IH|n e IH|fs IH|] using Typ_ind'; intros ts Hd; try done.
  - cbn. unfold in_range. apply bool_decide_true. split; [done|]. by destruct w.
  - by destruct e as [| | | |[] | | | | | |].
  - destruct (is_byte e) eqn:Eb.
    + apply is_byte_inv in Eb as ->. apply bool_decide_true, length_replicate.
    + unfold decodable in Hd. rewrite makeDecoder_TArray in Hd by done. apply decodable_bind in Hd.
      assert (zero (TArray n e) = VList (replicate n (zero e))) as -> by by destruct e as [| | | |[] | | | | | |].
      rewrite has_type_TArray, length_replicate, bool_decide_true by done. apply forallb_typed.
      intros v [-> _]%elem_of_replicate. by apply (IH no_Tags).
  - unfold decodable in Hd. rewrite makeDecoder_TStruct in Hd. destruct (ProcessFields fs) as [ftags| |] eqn:Ep; [|done..].
    cbn [mbind res_bind] in Hd. apply decodable_bind in Hd. rewrite (zero_TStruct _ ftags), (has_type_TStruct _ _ ftags) by done.
    by apply fields_zero.
Qed.

(** The fields that were decoded, followed by missing ones. *)
Lemma fields_repr_typed fs :
  Forall (λ f, ∀ ts v b, decodable f.2 ts → repr f.2 ts v b → has_type f.2 v = true) fs →
  ∀ ftags vs c, is_ok (field_decoders fs ftags) → fields_repr (field_specs fs ftags) vs c → fields_typed fs ftags vs = true.
Proof.
  induction 1 as [|[[x tag] e] fs He _ IH]; intros ftags vs c Hd Hf; [by destruct Hf as [-> _]|]. cbn [snd] in He.
  destruct ftags as [|[tg|] ftags]; [by destruct Hf as [-> _] | |by apply (IH ftags vs c)].
  destruct Hf as [(v & vs' & b' & c' & -> & _ & Hv & Hf)|(_ & -> & _)].
  - cbn [field_decoders fields_typed sp_repr] in *. destruct (makeDecoder e tg) as [d| |] eqn:Ed; [|done..].
    cbn [mbind res_bind] in Hd. apply decodable_bind in Hd.
    rewrite (He tg v b') by (done || unfold decodable; by rewrite Ed). by apply (IH ftags vs' c').
  - apply (fields_zero ((x, tag, e) :: fs)); [|done]. apply list.Forall_forall. intros f _ ts. apply zero_typed.
Qed.

Lemma repr_typed t : ∀ ts v b, decodable t ts → repr t ts v b → has_type t v = true.
Proof.
  induction t as [| | |t IH|w| | |e IH|n e IH|fs IH|] using Typ_ind'; intros ts v b Hd Hr.
  - by destruct Hr as (c & -> & _).
  - destruct Hr as (z & -> & _ & Hz). by apply bool_decide_true.
  - destruct Hr as (z & -> & _ & Hz). by apply bool_decide_true.
  - assert (t = TBigInt ∨ t = TUint256 ∨ t ≠ TBigInt ∧ t ≠ TUint256) as [->|[->|[Hnb Hnu]]]
      by (destruct t; tauto || (right; right; split; discriminate)).
    + destruct Hr as (v' & -> & z & -> & _ & Hz). by apply bool_decide_true.
    + destruct Hr as (v' & -> & z & -> & _ & Hz). by apply bool_decide_true.
    + unfold decodable in Hd. rewrite makeDecoder_TPtr in Hd by done. apply decodable_bind in Hd. rewrite repr_TPtr in Hr by done.
      destruct (NilOK ts); [destruct Hr as [[-> _]|[(v' & -> & Hv) _]]; [done|] | destruct Hr as (v' & -> & Hv)];
        by apply (IH no_Tags v' b).
  - destruct Hr as (z & -> & _ & Hz). by apply bool_decide_true.
  - by destruct Hr as (x & -> & _).
  - by destruct Hr as (c & -> & _).
  - destruct (is_byte e) eqn:Eb; [apply is_byte_inv in Eb as ->; by destruct Hr as (c & -> & _)|].
    unfold decodable in Hd. rewrite makeDecoder_TSlice in Hd by done. apply decodable_bind in Hd. rewrite repr_TSlice in Hr by done.
    destruct (Tail ts); [destruct Hr as (l & -> & Hl) | destruct Hr as (l & c & -> & _ & Hl)]; rewrite has_type_TSlice by done;
      by eapply elems_repr_typed; [intros; by apply (IH no_Tags v b0)|].
  - destruct (is_byte e) eqn:Eb.
    { apply is_byte_inv in Eb as ->. destruct Hr as (c & -> & _ & Hl). apply bool_decide_true. unfold blen in Hl. lia. }
    unfold decodable in Hd. rewrite makeDecoder_TArray in Hd by done. apply decodable_bind in Hd. rewrite repr_TArray in Hr by done.
    destruct Hr as (l & c & -> & Hl & _ & Hel). rewrite has_type_TArray, bool_decide_true by done.
    by eapply elems_repr_typed; [intros; by apply (IH no_Tags v b0)|].
  - unfold decodable in Hd. rewrite makeDecoder_TStruct in Hd. destruct (ProcessFields fs) as [ftags| |] eqn:Ep; [|done..].
    cbn [mbind res_bind] in Hd. apply decodable_bind in Hd. rewrite (repr_TStruct _ _ ftags) in Hr by done.
    destruct Hr as (vs & c & -> & _ & Hf). rewrite (has_type_TStruct _ _ ftags) by done. by apply (fields_repr_typed fs IH ftags vs c).
  - done.
Qed.

(** C29: The decoder is type safe: what [DecodeBytes] returns for a type is a value of that
    type, down to the integers, array lengths and fields of nested structs, whatever the
    input, although it writes through reflection. *)
Theorem DecodeBytes_typed t b v :
  is_ok (makeDecoder t no_Tags) → blen b <= maxAlloc → DecodeBytes t b = Ok v → has_type t v = true.
Proof. intros Hok Ha E. apply (repr_typed t no_Tags v b); [done | by apply decoded_repr]. Qed.

Lemma DecodeBytes_typed_witness : DecodeBytes ex_typ ex_bytes = Ok ex_val ∧ has_type ex_typ ex_val = true.
Proof. split; [exact ex_decode|]. apply (DecodeBytes_typed ex_typ ex_bytes ex_val); by vm_compute. Defined.

(** Values outside the type are told apart. *)
Example ex_untyped : has_type (TArray 2 (TUint W16)) (VList [VInt 1; VInt 65536]) = false.
Proof. reflexivity. Qed.
