(* ===== verification/WriterFacts.v ===== *)
(** * The writers produce the representation

    A writer appends to the buffer what stands for the bytes of the value ([writes]). For
    [strict] types, whose optional fields are nil when they are missing, the writer's output
    is the only representation of a value: decoding and encoding are inverse to each other. *)
From Stdlib Require Import ZArith Lia.
From Stdlib Require Strings.Byte.
From stdpp Require Import base tactics decidable list numbers.
From S2P Require Import Prelude Rlp Stream StreamFacts Codec CodecFacts.

(** ** Appending to the buffer *)

Definition writes (w : encBuffer → res rlp_error encBuffer) (b : bytes) : Prop :=
  ∃ content, represents content b ∧ ∀ buf, w buf = Ok (eb_app buf content).

Lemma writes_Write (w : encBuffer → res rlp_error encBuffer) b :
  (∀ buf, w buf = Ok (eb_Write b buf)) → writes w b.
Proof.
  intros H. exists (eb_Write b reset). split; [apply represents_Write|]. intros buf. by rewrite H, eb_Write_app.
Qed.

Lemma writes_nil : writes Ok [].
Proof. exists reset. split; [apply represents_reset|]. intros buf. by rewrite eb_app_reset_r. Qed.

Lemma writes_bind f g b1 b2 : writes f b1 → writes g b2 → writes (λ w, w ← f w; g w) (b1 ++ b2).
Proof.
  intros (c1 & H1 & E1) (c2 & H2 & E2). exists (eb_app c1 c2). split; [by apply represents_app|].
  intros buf. rewrite E1. cbn. by rewrite E2, eb_app_assoc.
Qed.

Lemma writes_in_list f c : writes f c → blen c < two64 → writes (in_list f) (enc_list c).
Proof.
  intros (content & H & E) Hc. eexists. split; [by apply represents_list|].
  intros buf. unfold in_list. cbn [eb_list]. rewrite E. cbn [mbind res_bind]. f_equal. apply (listEnd_frame content buf).
Qed.

Lemma writes_result w b : writes w b → ∃ buf, w reset = Ok buf ∧ makeBytes buf = b.
Proof.
  intros (content & (_ & Hm & _) & E). exists content. rewrite E, eb_app_reset_l. done.
Qed.

(** ** Integers of 256 bits *)

Lemma words_be z :
  be_bytes 8 (u256_word z 3) ++ be_bytes 8 (u256_word z 2) ++ be_bytes 8 (u256_word z 1) ++
    be_bytes 8 (u256_word z 0) = be_bytes 32 z.
Proof.
  assert (∀ i, 0 <= i → be_bytes 8 (u256_word z i) = be_bytes 8 (z / 256 ^ (8 * i))) as Hw.
  { intros i Hi. unfold u256_word. change two64 with (256 ^ 8). rewrite be_bytes_mod by lia.
    rewrite Z.shiftr_div_pow2 by lia. f_equal. f_equal. change 256 with (2 ^ 8). rewrite <-Z.pow_mul_r by lia.
    f_equal. lia. }
  rewrite !Hw by lia. change 32%nat with (8 + (8 + (8 + 8)))%nat. rewrite !be_bytes_add.
  do 3 (apply (f_equal2 app); [reflexivity|]). by rewrite Z.mul_0_r, Z.div_1_r.
Qed.

Lemma writeUint256_enc z buf : 0 <= z < 2 ^ 256 → writeUint256 z buf = eb_Write (enc_uint z) buf.
Proof.
  intros Hz. unfold writeUint256. destruct (decide (z < two64)) as [Hlt|Hge].
  - rewrite decide_True.
    + rewrite u64_small by (unfold is_u64; lia). apply writeUint64_enc. unfold is_u64. lia.
    + unfold Len64. case_decide; [lia|]. assert (Z.log2 z < 64); [|lia]. apply Z.log2_lt_pow2; [lia | done].
  - rewrite two64_val in Hge. assert (64 < Len64 z) as HL.
    { unfold Len64. rewrite decide_False by lia. assert (64 <= Z.log2 z); [|lia]. apply Z.log2_le_pow2; lia. }
    rewrite decide_False by lia. rewrite words_be.
    assert ((Len64 z + 7) / 8 = Z.of_nat (byte_len z)) as ->.
    { unfold byte_len, Len64. rewrite !decide_False by lia. pose proof (Z.log2_nonneg z).
      rewrite Z2Nat.id by (pose proof (Z.div_pos (Z.log2 z) 8); lia).
      replace (Z.log2 z + 1 + 7) with (Z.log2 z + 1 * 8) by lia. apply Z.div_add. lia. }
    assert (byte_len z <= 32)%nat as H32 by (apply byte_len_least; done).
    assert (8 < byte_len z)%nat as H8.
    { destruct (decide (byte_len z <= 8)%nat) as [H8|]; [|lia]. exfalso.
      pose proof (byte_len_spec z ltac:(lia)). assert (256 ^ Z.of_nat (byte_len z) <= 256 ^ 8); [|lia].
      apply Z.pow_le_mono_r; lia. }
    set (n := byte_len z) in *. replace (Z.to_nat (32 - Z.of_nat n)) with (32 - n)%nat by lia. f_equal.
    assert (be_bytes 32 z = be_bytes (32 - n) (z / 256 ^ Z.of_nat n) ++ be_bytes n z) as ->
      by (rewrite <-be_bytes_add; f_equal; lia).
    rewrite app_comm_cons.
    set (pre := Byte.x00 :: be_bytes (32 - n) _).
    assert (length pre = S (32 - n)) as Hpre by (unfold pre; cbn [length]; by rewrite length_be_bytes).
    rewrite insert_app_l by lia. rewrite drop_app_le by (rewrite length_insert; lia).
    assert (drop (32 - n) (<[(32 - n)%nat:=z2b (128 + Z.of_nat n)]> pre) = [z2b (128 + Z.of_nat n)]) as ->.
    { rewrite <-(take_drop (32 - n) pre) at 1. rewrite insert_app_r_alt by (rewrite length_take; lia).
      rewrite drop_app_length' by (rewrite length_take; lia). rewrite length_take, Hpre.
      replace (32 - n - (32 - n) `min` S (32 - n))%nat with 0%nat by lia.
      assert (length (drop (32 - n) pre) = 1%nat) as Hd by (rewrite length_drop; lia).
      destruct (drop (32 - n) pre) as [|x [|]]; cbn in Hd; try lia. done. }
    unfold enc_uint, big_Bytes. rewrite Z.abs_eq by lia. fold n.
    pose proof (length_be_bytes n z) as Hlen.
    rewrite enc_str_long by (apply (not_small _ (Z.of_nat n)); [unfold blen; lia | lia]).
    unfold blen. rewrite Hlen. unfold puthead. by rewrite decide_True by lia.
Qed.

(** ** Strict types *)

(** Types whose decoded values are never zero and whose zero value is nil. *)
Definition nilable (t : Typ) (ts : Tags) : bool :=
  match t with
  | TPtr _ => negb (NilOK ts)
  | TSlice _ | TRawValue => true
  | _ => false
  end.

(** Fields that may be left out, or follow such a field, are nilable. *)
Fixpoint strict (t : Typ) : bool :=
  match t with
  | TPtr e | TSlice e | TArray _ e => strict e
  | TStruct fs =>
      match ProcessFields fs with
      | Ok ftags =>
          (fix go (fs : list (bool * list tag_part * Typ)) (ftags : list (option Tags)) : bool :=
             match fs, ftags with
             | (_, t) :: fs, Some ts :: ftags =>
                 strict t && (if Optional ts || Tail ts then nilable t ts else true) && go fs ftags
             | _ :: fs, None :: ftags => go fs ftags
             | _, _ => true
             end) fs ftags
      | _ => false
      end
  | _ => true
  end.

Fixpoint strict_fields (fs : list (bool * list tag_part * Typ)) (ftags : list (option Tags)) : bool :=
  match fs, ftags with
  | (_, t) :: fs, Some ts :: ftags =>
      strict t && (if Optional ts || Tail ts then nilable t ts else true) && strict_fields fs ftags
  | _ :: fs, None :: ftags => strict_fields fs ftags
  | _, _ => true
  end.

Fixpoint field_writers (fs : list (bool * list tag_part * Typ)) (ftags : list (option Tags)) : res type_error (list wfield) :=
  match fs, ftags with
  | (_, t) :: fs, Some ts :: ftags =>
      ew ← makeWriter t ts;
      rest ← field_writers fs ftags;
      Ok (MkWField ew (Optional ts) (IsZero t) :: rest)
  | _ :: fs, None :: ftags => field_writers fs ftags
  | _, _ => Ok []
  end.

Lemma makeWriter_TStruct fs ts :
  makeWriter (TStruct fs) ts =
    (ftags ← ProcessFields fs; fields ← field_writers fs ftags; Ok (structWriter fields)).
Proof. reflexivity. Qed.

Lemma makeWriter_TPtr e ts : e ≠ TBigInt → e ≠ TUint256 →
  makeWriter (TPtr e) ts = (ew ← makeWriter e no_Tags; Ok (ptrWriter (typeNilKind e ts) ew)).
Proof. by destruct e. Qed.

Lemma makeWriter_TSlice e ts : is_byte e = false →
  makeWriter (TSlice e) ts =
    (ew ← makeWriter e no_Tags; Ok (if Tail ts then tailWriter ew else sliceWriter ew)).
Proof. by destruct e as [| | | |[] | | | | | |]. Qed.

Lemma makeWriter_TArray n e ts : is_byte e = false →
  makeWriter (TArray n e) ts = (ew ← makeWriter e no_Tags; Ok (sliceWriter ew)).
Proof. by destruct e as [| | | |[] | | | | | |]. Qed.

Lemma nilable_zero t ts : nilable t ts = true → zero t = VNil.
Proof. by destruct t. Qed.

Lemma nilable_IsZero t ts v b : nilable t ts = true → repr t ts v b → IsZero t v = false.
Proof.
  destruct t as [| | |e| | | |e| | |]; try done.
  - intros _ (c & -> & _). done.
  - intros Hn. cbn in Hn. destruct (NilOK ts) eqn:En; [done|].
    assert (repr (TPtr e) ts v b → ∃ v', v = VPtr v') as H.
    { destruct e; cbn; rewrite ?En; intros (v' & -> & _); eauto. }
    intros (v' & ->)%H. done.
  - intros _. assert (repr (TSlice e) ts v b → (∃ l, v = VList l) ∨ (∃ c, v = VBytes c)) as H.
    { destruct (is_byte e) eqn:Eb.
      - apply is_byte_inv in Eb as ->. intros (c & -> & _). eauto.
      - rewrite repr_TSlice by done. destruct (Tail ts); [intros (l & -> & _) | intros (l & c & -> & _)]; eauto. }
    intros [[l ->]|[c ->]]%H; done.
Qed.

(** ** Fields *)

(** [late]: a field before these is optional. *)
Inductive wfields_ok : bool → list wfield → list fspec → Prop :=
| wfields_ok_nil late : wfields_ok late [] []
| wfields_ok_cons late f p fs ps :
    (∀ v b, sp_repr p v b → blen b < two64 → writes (fw_writer f v) b) → fw_optional f = sp_optional p →
    (late || sp_optional p = true →
       (∀ v b, sp_repr p v b → fw_isZero f v = false) ∧ fw_isZero f (sp_zero p) = true) →
    wfields_ok (late || sp_optional p) fs ps → wfields_ok late (f :: fs) (p :: ps).

Lemma fields_repr_length ps vs c : fields_repr ps vs c → length vs = length ps.
Proof.
  revert vs c. induction ps as [|p ps IH]; intros vs c; cbn [fields_repr]; [by intros [-> _]|].
  intros [(v & vs' & b & c' & -> & -> & _ & H)|(_ & -> & _)]; [|cbn; by rewrite length_fmap].
  cbn. by rewrite (IH _ _ H).
Qed.

Lemma wfields_ok_length late fs ps : wfields_ok late fs ps → length fs = length ps.
Proof. induction 1; cbn; congruence. Qed.

Lemma lastField_full first fields vs :
  (length fields <= first)%nat → length vs = length fields → lastField first fields vs = length fields.
Proof.
  revert first vs. induction fields as [|f fields IH]; intros first [|v vs] Hf Hl; try done.
  cbn in *. rewrite decide_False by lia. rewrite IH; lia.
Qed.

Lemma lastField_zeros fs ps : wfields_ok true fs ps → lastField 0 fs (sp_zero <$> ps) = 0%nat.
Proof.
  remember true as late eqn:E. induction 1 as [|late f p fs ps _ _ Hz _ IH]; [done|]. subst late. cbn.
  rewrite IH by done. destruct (Hz eq_refl) as [_ ->]. by rewrite decide_True.
Qed.

Lemma fields_written late fs ps vs c :
  wfields_ok late fs ps → fields_repr ps vs c → blen c < two64 →
  let n := lastField (if late then 0 else firstOptionalField fs) fs vs in
  writes (write_fields (take n fs) (take n vs)) c.
Proof.
  intros Hok. revert vs c. induction Hok as [late|late f p fs ps Hw Ho Hz Hok IH]; intros vs c HP Hc.
  { destruct HP as [-> ->]. apply writes_nil. }
  cbn zeta. set (first := if late then 0%nat else firstOptionalField (f :: fs)).
  assert (first = 0%nat ↔ late || sp_optional p = true) as Hfirst.
  { unfold first. rewrite <-Ho. destruct late; [done|]. cbn. destruct (fw_optional f); [done|]. split; [lia | done]. }
  assert (pred first = if late || sp_optional p then 0%nat else firstOptionalField fs) as Hpred.
  { unfold first. rewrite <-Ho. destruct late; [done|]. cbn. by destruct (fw_optional f). }
  destruct HP as [(v & vs' & b & c' & -> & -> & HPv & HP)|(Hopt & -> & ->)].
  - rewrite blen_app in Hc. pose proof (blen_nonneg b). pose proof (blen_nonneg c').
    cbn [lastField]. rewrite Hpred. specialize (IH vs' c' HP ltac:(lia)). cbn zeta in IH.
    rewrite decide_False.
    + cbn [take write_fields]. apply writes_bind; [apply Hw; [done | lia] | done].
    + intros (_ & Hf0 & Hzero). apply Hfirst, Hz in Hf0 as [Hnz _]. by rewrite (Hnz v b HPv) in Hzero.
  - assert (late || sp_optional p = true) as Hl by (destruct (sp_optional p), late; done).
    rewrite (proj2 Hfirst Hl). rewrite lastField_zeros; [apply writes_nil|]. rewrite Hl in Hz, Hok.
    constructor; [done..|]. by destruct (sp_optional p).
Qed.

Lemma struct_written fs ps v b :
  wfields_ok false fs ps → struct_repr ps v b → blen b < two64 → writes (structWriter fs v) b.
Proof.
  intros Hok (vs & c & -> & -> & HP) Hb. assert (blen c < two64) as Hc.
  { unfold enc_list in Hb. rewrite blen_app in Hb. pose proof (blen_nonneg (puthead 192 247 (Z.of_nat (length c)))). lia. }
  pose proof (fields_written false fs ps vs c Hok HP Hc) as H. cbn zeta in H. unfold structWriter.
  case_decide as Hf; [|by apply writes_in_list].
  pose proof (fields_repr_length _ _ _ HP). pose proof (wfields_ok_length _ _ _ Hok).
  rewrite lastField_full, !take_ge in H by lia. by apply writes_in_list.
Qed.

(** ** Elements *)

Lemma elems_written ew P l c :
  (∀ v b, P v b → blen b < two64 → writes (ew v) b) → elems_repr P l c → blen c < two64 →
  writes (write_elems ew l) c.
Proof.
  intros Hw. revert c. induction l as [|v l IH]; intros c HP Hc; cbn [elems_repr write_elems] in *.
  { subst c. apply writes_nil. }
  destruct HP as (b & c' & -> & HPv & HP). rewrite blen_app in Hc. pose proof (blen_nonneg b). pose proof (blen_nonneg c').
  apply (writes_bind (ew v)); [apply Hw; [done | lia] | apply IH; [done | lia]].
Qed.

Lemma slice_written ew P l c :
  (∀ v b, P v b → blen b < two64 → writes (ew v) b) → elems_repr P l c → blen (enc_list c) < two64 →
  writes (sliceWriter ew (VList l)) (enc_list c).
Proof.
  intros Hw HP Hb. assert (blen c < two64) as Hc.
  { unfold enc_list in Hb. rewrite blen_app in Hb. pose proof (blen_nonneg (puthead 192 247 (Z.of_nat (length c)))). lia. }
  unfold sliceWriter. cbn [elems_of]. destruct l as [|v l].
  - cbn in HP. subst c. by apply writes_Write.
  - apply writes_in_list; [by apply (elems_written _ P) | done].
Qed.

Lemma byteArray_written n c b :
  bytes_repr (Z.of_nat n) c b → writes (byteArrayWriter n (VBytes c)) b.
Proof.
  intros [-> Hn]. apply writes_Write. intros buf. cbn. unfold blen in Hn.
  case_decide; [by destruct c; [|cbn in Hn; lia]|]. case_decide.
  - destruct c as [|x [|]]; cbn in Hn; try lia. cbn. by case_decide.
  - rewrite encodeStringHeader_puthead, eb_Write_Write. f_equal. f_equal. symmetry. apply enc_str_long.
    apply (not_small c (Z.of_nat n)); [done | lia].
Qed.

(** ** The writer of a type *)

Lemma fields_writers_ok fs ftags ws late anyOptional :
  Forall (λ f, ∀ ts w, strict f.2 = true → makeWriter f.2 ts = Ok w →
    ∀ v b, repr f.2 ts v b → blen b < two64 → writes (w v) b) fs →
  strict_fields fs ftags = true → optional_ok anyOptional ftags = true → (late = true → anyOptional = true) →
  field_writers fs ftags = Ok ws → wfields_ok late ws (field_specs fs ftags).
Proof.
  intros Hfs. revert ftags ws late anyOptional.
  induction Hfs as [|[x t] fs Ht Hfs IH]; intros ftags ws late anyo Hs Ho Hl Ew.
  { injection Ew as <-. constructor. }
  destruct ftags as [|[ts|] ftags]; [injection Ew as <-; constructor| |by eapply IH].
  cbn in Hs, Ho, Ew |- *. apply andb_true_iff in Hs as [[Hst Hn]%andb_true_iff Hs].
  apply bind_Ok in Ew as (w & Ew & E). apply bind_Ok in E as (ws' & Ews & [= <-]).
  constructor; cbn.
  - intros v b. by apply (Ht ts w).
  - done.
  - intros Hlate. assert (nilable t ts = true) as Hnil.
    { destruct (Optional ts || Tail ts) eqn:Eo; [done|]. apply orb_false_iff in Eo as [Eo _].
      rewrite Eo in Hlate. destruct late; [|done]. rewrite Hl in Ho by done. done. }
    split; [intros v b; by apply nilable_IsZero|]. rewrite (nilable_zero t ts Hnil). by destruct t.
  - destruct (Optional ts || Tail ts) eqn:Eo.
    + by apply (IH ftags ws' _ true).
    + apply andb_true_iff in Ho as [_ Ho]. apply orb_false_iff in Eo as [-> _]. rewrite orb_false_r.
      by apply (IH ftags ws' _ anyo).
Qed.

Lemma makeWriter_writes t : ∀ ts w, strict t = true → makeWriter t ts = Ok w →
  ∀ v b, repr t ts v b → blen b < two64 → writes (w v) b.
Proof.
  induction t as [| | |t IH|w0| | |e IH|n e IH|fs IH|] using Typ_ind'; intros ts w Hst Ew v b HP Hb.
  - injection Ew as <-. destruct HP as (c & -> & -> & _). by apply writes_Write.
  - injection Ew as <-. destruct HP as (z & -> & -> & Hz). apply writes_Write. intros buf. cbn. unfold write_big.
    by rewrite decide_False, writeBigInt_enc by lia.
  - injection Ew as <-. destruct HP as (z & -> & -> & Hz). apply writes_Write. intros buf. cbn. by rewrite writeUint256_enc.
  - assert (t = TBigInt ∨ t = TUint256 ∨ t ≠ TBigInt ∧ t ≠ TUint256) as [->|[->|[Hnb Hnu]]]
      by (destruct t; tauto || (right; right; split; discriminate)).
    + injection Ew as <-. destruct HP as (v' & -> & z & -> & -> & Hz). apply writes_Write. intros buf. cbn. unfold write_big.
      by rewrite decide_False, writeBigInt_enc by lia.
    + injection Ew as <-. destruct HP as (v' & -> & z & -> & -> & Hz). apply writes_Write. intros buf. cbn.
      by rewrite writeUint256_enc.
    + rewrite makeWriter_TPtr in Ew by done. apply bind_Ok in Ew as (ew & Ee & [= <-]). rewrite repr_TPtr in HP by done.
      destruct (NilOK ts).
      * destruct HP as [[-> ->]|[(v' & -> & HP) _]]; [|by apply (IH no_Tags ew)]. by apply writes_Write.
      * destruct HP as (v' & -> & HP). by apply (IH no_Tags ew).
  - injection Ew as <-. destruct HP as (z & -> & -> & Hz). apply writes_Write. intros buf. cbn.
    rewrite writeUint64_enc; [done|]. split; [lia|]. eapply Z.lt_le_trans; [apply Hz|].
    change two64 with (2 ^ 64). apply Z.pow_le_mono_r; [lia | by destruct w0].
  - injection Ew as <-. destruct HP as (x & -> & ->). apply writes_Write. intros buf. by destruct x.
  - injection Ew as <-. destruct HP as (c & -> & ->). apply writes_Write. intros buf. cbn. by rewrite writeBytes_enc.
  - destruct (is_byte e) eqn:Eb.
    + apply is_byte_inv in Eb as ->. injection Ew as <-. destruct HP as (c & -> & ->).
      apply writes_Write. intros buf. cbn. by rewrite writeBytes_enc.
    + rewrite makeWriter_TSlice in Ew by done. apply bind_Ok in Ew as (ew & Ee & [= <-]). rewrite repr_TSlice in HP by done.
      destruct (Tail ts).
      * destruct HP as (l & -> & HP). eapply elems_written; [|done|done]. intros v' b'. by apply (IH no_Tags ew).
      * destruct HP as (l & c & -> & -> & HP). eapply slice_written; [|done|done]. intros v' b'. by apply (IH no_Tags ew).
  - destruct (is_byte e) eqn:Eb.
    + apply is_byte_inv in Eb as ->. injection Ew as <-. destruct HP as (c & -> & HP). by apply byteArray_written.
    + rewrite makeWriter_TArray in Ew by done. apply bind_Ok in Ew as (ew & Ee & [= <-]). rewrite repr_TArray in HP by done.
      destruct HP as (l & c & -> & _ & -> & HP). eapply slice_written; [|done|done]. intros v' b'. by apply (IH no_Tags ew).
  - rewrite makeWriter_TStruct in Ew. apply bind_Ok in Ew as (ftags & Ep & Ew).
    apply bind_Ok in Ew as (ws & Ef & [= <-]). rewrite (repr_TStruct _ _ ftags) in HP by done.
    cbn in Hst. rewrite Ep in Hst. change (strict_fields fs ftags = true) in Hst.
    assert (optional_ok false ftags = true) as Ho.
    { unfold ProcessFields in Ep. apply bind_Ok in Ep as (tags & Et & Ep).
      destruct (optional_ok false tags) eqn:Eo; [|done]. by injection Ep as <-. }
    by apply (struct_written ws (field_specs fs ftags)); [apply (fields_writers_ok fs ftags ws false false)|..].
  - done.
Qed.

(** A type with a decoder has a writer. *)
Lemma makeWriter_exists t : ∀ ts d, makeDecoder t ts = Ok d → ∃ w, makeWriter t ts = Ok w.
Proof.
  induction t as [| | |t IH|w0| | |e IH|n e IH|fs IH|] using Typ_ind'; intros ts d Ed; try (done || by eexists).
  - assert (t = TBigInt ∨ t = TUint256 ∨ t ≠ TBigInt ∧ t ≠ TUint256) as [->|[->|[Hnb Hnu]]]
      by (destruct t; tauto || (right; right; split; discriminate)); [by eexists..|].
    rewrite makeDecoder_TPtr in Ed by done. apply bind_Ok in Ed as (d' & Ed & _).
    destruct (IH _ _ Ed) as [w Ew]. rewrite makeWriter_TPtr, Ew by done. by eexists.
  - destruct (is_byte e) eqn:Eb; [apply is_byte_inv in Eb as ->; by eexists|].
    rewrite makeDecoder_TSlice in Ed by done. apply bind_Ok in Ed as (d' & Ed & _).
    destruct (IH _ _ Ed) as [w Ew]. rewrite makeWriter_TSlice, Ew by done. by eexists.
  - destruct (is_byte e) eqn:Eb; [apply is_byte_inv in Eb as ->; by eexists|].
    rewrite makeDecoder_TArray in Ed by done. apply bind_Ok in Ed as (d' & Ed & _).
    destruct (IH _ _ Ed) as [w Ew]. rewrite makeWriter_TArray, Ew by done. by eexists.
  - rewrite makeDecoder_TStruct in Ed. apply bind_Ok in Ed as (ftags & Ep & Ed).
    apply bind_Ok in Ed as (fields & Ef & _). rewrite makeWriter_TStruct, Ep. cbn [mbind res_bind].
    assert (∃ ws, field_writers fs ftags = Ok ws) as [ws ->]; [|by eexists].
    clear Ep. revert ftags fields Ef. induction IH as [|[x t] fs Ht Hfs IHfs]; intros ftags fields Ef; [by eexists|].
    destruct ftags as [|[ts'|] ftags]; [by eexists| |by eapply IHfs]. cbn in Ef |- *.
    apply bind_Ok in Ef as (d' & Ed & Ef). apply bind_Ok in Ef as (rest & Er & _).
    destruct (Ht _ _ Ed) as [w Ew]. cbn in Ew. rewrite Ew. destruct (IHfs _ _ Er) as [ws ->]. by eexists.
Qed.

Lemma repr_encoded t v b :
  is_ok (makeDecoder t no_Tags) → strict t = true → repr t no_Tags v b → blen b < two64 →
  EncodeTypedToBytes t v = Ok b.
Proof.
  intros Hok Hst HP Hb. destruct (makeDecoder t no_Tags) as [d| |] eqn:Ed; [|done..].
  destruct (makeWriter_exists t no_Tags d Ed) as [w Ew]. unfold EncodeTypedToBytes. rewrite Ew.
  destruct (writes_result _ _ (makeWriter_writes t no_Tags w Hst Ew v b HP Hb)) as (buf & -> & <-). done.
Qed.

(** C30: for strict types an accepted input is the encoding of the decoded value, so no two
    inputs decode to the same value. *)
Theorem DecodeBytes_canonical t b v :
  is_ok (makeDecoder t no_Tags) → strict t = true → blen b <= maxAlloc →
  DecodeBytes t b = Ok v → EncodeTypedToBytes t v = Ok b.
Proof.
  intros Hok Hst Ha E. apply repr_encoded; [done | done | by apply decoded_repr |]. pose proof maxAlloc_two64. lia.
Qed.

Lemma DecodeBytes_canonical_witness : EncodeTypedToBytes ex_typ ex_val = Ok ex_bytes.
Proof. apply (DecodeBytes_canonical ex_typ ex_bytes ex_val); by vm_compute. Defined.

(** An optional field that is not a pointer is the same value missing or zero: such types
    are not strict, and two inputs decode to one value. *)
Example optional_two_encodings :
  let t := TStruct [(true, [], TUint W64); (true, [TagOptional], TUint W64)] in
  DecodeBytes t (z2b <$> [0xc1; 5]) = DecodeBytes t (z2b <$> [0xc2; 5; 0x80]) ∧
  DecodeBytes t (z2b <$> [0xc1; 5]) = Ok (VStruct [VInt 5; VInt 0]) ∧ strict t = false.
Proof. vm_compute. done. Qed.
