(* ===== verification/TxCodec.v ===== *)
(** * Encoding and decoding of transactions

    [MarshalBinary], [UnmarshalBinary], [Hash] and [Size] of [core/types/transaction.go] and
    the [encode] and [decode] methods of the five types. The types of the fields, with their
    [rlp] tags, are values of [Typ]; a transaction is mapped to and from the values of the
    codec ([tx_val], [LegacyTx_of], ...), which is what reading and setting the fields by
    reflection does. The theorems: both directions are inverse to each other for all types,
    blob transactions with and without sidecar included, and what [Hash] and [Size] are. *)
From Stdlib Require Import ZArith Lia.
From Stdlib Require Strings.Byte.
From stdpp Require Import base tactics decidable list numbers.
From S2P Require Import Prelude Keccak Common Rlp Types Transactions Stream StreamFacts Codec CodecFacts WriterFacts.

(** ** The Go types *)

Definition T_u64 : Typ := TUint W64.
Definition T_big : Typ := TPtr TBigInt.
Definition T_u256 : Typ := TPtr TUint256.
Definition T_bytes : Typ := TSlice (TUint W8).
Definition T_Address : Typ := TArray 20 (TUint W8).
Definition T_Hash : Typ := TArray 32 (TUint W8).
Definition T_Blob : Typ := TArray (Z.to_nat 131072) (TUint W8).
Definition T_Commitment : Typ := TArray 48 (TUint W8).
Definition T_Proof : Typ := TArray 48 (TUint W8).

(** An exported field without a tag, and [*common.Address] with [rlp:nil]. *)
Definition fld (t : Typ) : bool * list tag_part * Typ := (true, [], t).
Definition fld_To : bool * list tag_part * Typ := (true, [TagNil], TPtr T_Address).

Definition T_AccessTuple : Typ := TStruct [fld T_Address; fld (TSlice T_Hash)].
Definition T_AccessList : Typ := TSlice T_AccessTuple.

Definition T_SetCodeAuthorization : Typ :=
  TStruct [fld TUint256; fld T_Address; fld T_u64; fld (TUint W8); fld TUint256; fld TUint256].

Definition T_LegacyTx : Typ :=
  TStruct [fld T_u64; fld T_big; fld T_u64; fld_To; fld T_big; fld T_bytes; fld T_big; fld T_big; fld T_big].

Definition T_AccessListTx : Typ :=
  TStruct [fld T_big; fld T_u64; fld T_big; fld T_u64; fld_To; fld T_big; fld T_bytes; fld T_AccessList;
           fld T_big; fld T_big; fld T_big].

Definition T_DynamicFeeTx : Typ :=
  TStruct [fld T_big; fld T_u64; fld T_big; fld T_big; fld T_u64; fld_To; fld T_big; fld T_bytes; fld T_AccessList;
           fld T_big; fld T_big; fld T_big].

Definition T_BlobTxSidecar : Typ :=
  TStruct [fld (TUint W8); fld (TSlice T_Blob); fld (TSlice T_Commitment); fld (TSlice T_Proof)].

Definition T_BlobTx : Typ :=
  TStruct [fld T_u256; fld T_u64; fld T_u256; fld T_u256; fld T_u64; fld T_Address; fld T_u256; fld T_bytes;
           fld T_AccessList; fld T_u256; fld (TSlice T_Hash); (true, [TagIgnore], TPtr T_BlobTxSidecar);
           fld T_u256; fld T_u256; fld T_u256].

Definition T_SetCodeTx : Typ :=
  TStruct [fld T_u256; fld T_u64; fld T_u256; fld T_u256; fld T_u64; fld T_Address; fld T_u256; fld T_bytes;
           fld T_AccessList; fld (TSlice T_SetCodeAuthorization); fld T_u256; fld T_u256; fld T_u256].

Definition T_blobTxWithBlobsV0 : Typ :=
  TStruct [fld (TPtr T_BlobTx); fld (TSlice T_Blob); fld (TSlice T_Commitment); fld (TSlice T_Proof)].

Definition T_blobTxWithBlobsV1 : Typ :=
  TStruct [fld (TPtr T_BlobTx); fld (TUint W8); fld (TSlice T_Blob); fld (TSlice T_Commitment); fld (TSlice T_Proof)].

(** ** Fields as values *)

Definition v_ptr (z : Z) : val := VPtr (VInt z).
Definition v_hashes (l : list bytes) : val := VList (VBytes <$> l).
Definition v_to (t : option Address) : val := match t with Some a => VPtr (VBytes a) | None => VNil end.
Definition v_tuple (t : AccessTuple) : val := VStruct [VBytes (at_Address t); v_hashes (at_StorageKeys t)].
Definition v_auth (a : SetCodeAuthorization) : val :=
  VStruct [VInt (au_ChainID a); VBytes (au_Address a); VInt (au_Nonce a); VInt (au_V a); VInt (au_R a); VInt (au_S a)].

(** The fields of a transaction that take part in the encoding. *)
Definition tx_val (tx : TxData) : val :=
  VStruct
    match tx with
    | LegacyTx n p g t x d v r s => [VInt n; v_ptr p; VInt g; v_to t; v_ptr x; VBytes d; v_ptr v; v_ptr r; v_ptr s]
    | AccessListTx c n p g t x d al v r s =>
        [v_ptr c; VInt n; v_ptr p; VInt g; v_to t; v_ptr x; VBytes d; VList (v_tuple <$> al); v_ptr v; v_ptr r; v_ptr s]
    | DynamicFeeTx c n tip p g t x d al v r s =>
        [v_ptr c; VInt n; v_ptr tip; v_ptr p; VInt g; v_to t; v_ptr x; VBytes d; VList (v_tuple <$> al);
         v_ptr v; v_ptr r; v_ptr s]
    | BlobTx c n tip p g t x d al bf bh _ v r s =>
        [v_ptr c; VInt n; v_ptr tip; v_ptr p; VInt g; VBytes t; v_ptr x; VBytes d; VList (v_tuple <$> al);
         v_ptr bf; v_hashes bh; v_ptr v; v_ptr r; v_ptr s]
    | SetCodeTx c n tip p g t x d al au v r s =>
        [v_ptr c; VInt n; v_ptr tip; v_ptr p; VInt g; VBytes t; v_ptr x; VBytes d; VList (v_tuple <$> al);
         VList (v_auth <$> au); v_ptr v; v_ptr r; v_ptr s]
    end.

Definition as_bytes (v : val) : option bytes := match v with VBytes b => Some b | _ => None end.

Definition as_hashes (v : val) : option (list bytes) :=
  match v with VList l => mapM as_bytes l | _ => None end.

Definition as_to (v : val) : option (option Address) :=
  match v with VNil => Some None | VPtr (VBytes a) => Some (Some a) | _ => None end.

Definition as_tuple (v : val) : option AccessTuple :=
  match v with
  | VStruct [VBytes a; keys] => k ← as_hashes keys; Some (MkAccessTuple a k)
  | _ => None
  end.

Definition as_auth (v : val) : option SetCodeAuthorization :=
  match v with
  | VStruct [VInt c; VBytes a; VInt n; VInt v; VInt r; VInt s] => Some (MkAuth c a n v r s)
  | _ => None
  end.

Definition as_list {A} (f : val → option A) (v : val) : option (list A) :=
  match v with VList l => mapM f l | _ => None end.

Definition LegacyTx_of (v : val) : option TxData :=
  match v with
  | VStruct [VInt n; VPtr (VInt p); VInt g; t; VPtr (VInt x); VBytes d; VPtr (VInt v); VPtr (VInt r); VPtr (VInt s)] =>
      t ← as_to t; Some (LegacyTx n p g t x d v r s)
  | _ => None
  end.

Definition AccessListTx_of (v : val) : option TxData :=
  match v with
  | VStruct [VPtr (VInt c); VInt n; VPtr (VInt p); VInt g; t; VPtr (VInt x); VBytes d; al;
             VPtr (VInt v); VPtr (VInt r); VPtr (VInt s)] =>
      t ← as_to t; al ← as_list as_tuple al; Some (AccessListTx c n p g t x d al v r s)
  | _ => None
  end.

Definition DynamicFeeTx_of (v : val) : option TxData :=
  match v with
  | VStruct [VPtr (VInt c); VInt n; VPtr (VInt tip); VPtr (VInt p); VInt g; t; VPtr (VInt x); VBytes d; al;
             VPtr (VInt v); VPtr (VInt r); VPtr (VInt s)] =>
      t ← as_to t; al ← as_list as_tuple al; Some (DynamicFeeTx c n tip p g t x d al v r s)
  | _ => None
  end.

Definition BlobTx_of (v : val) : option TxData :=
  match v with
  | VStruct [VPtr (VInt c); VInt n; VPtr (VInt tip); VPtr (VInt p); VInt g; VBytes t; VPtr (VInt x); VBytes d; al;
             VPtr (VInt bf); bh; VPtr (VInt v); VPtr (VInt r); VPtr (VInt s)] =>
      al ← as_list as_tuple al; bh ← as_hashes bh;
      Some (BlobTx c n tip p g t x d al bf bh None v r s)
  | _ => None
  end.

Definition SetCodeTx_of (v : val) : option TxData :=
  match v with
  | VStruct [VPtr (VInt c); VInt n; VPtr (VInt tip); VPtr (VInt p); VInt g; VBytes t; VPtr (VInt x); VBytes d; al;
             au; VPtr (VInt v); VPtr (VInt r); VPtr (VInt s)] =>
      al ← as_list as_tuple al; au ← as_list as_auth au; Some (SetCodeTx c n tip p g t x d al au v r s)
  | _ => None
  end.

(** ** Encoding *)

Inductive codec_error : Type :=
| errShortTypedTx
| errTxTypeNotSupported
| errSidecarVersion
| CodecErr (e : stream_error).

(** [rlp.EncodeToBytes] of a pointer to a struct. *)
Definition rlp_Encode (t : Typ) (v : val) : res codec_error bytes :=
  match EncodeTypedToBytes (TPtr t) (VPtr v) with
  | Ok b => Ok b
  | Err e => Err (CodecErr (RlpErr e))
  | Panic => Panic
  end.

Definition tx_Sidecar (tx : TxData) : option BlobTxSidecar :=
  match tx with BlobTx _ _ _ _ _ _ _ _ _ _ _ sc _ _ _ => sc | _ => None end.

(** [BlobTx.encode]. *)
Definition BlobTx_encode (tx : TxData) : res codec_error bytes :=
  match tx_Sidecar tx with
  | None => rlp_Encode T_BlobTx (tx_val tx)
  | Some sc =>
      let blobs := [v_hashes (sc_Blobs sc); v_hashes (sc_Commitments sc); v_hashes (sc_Proofs sc)] in
      if decide (b2z (sc_Version sc) = 0) then rlp_Encode T_blobTxWithBlobsV0 (VStruct (VPtr (tx_val tx) :: blobs))
      else if decide (b2z (sc_Version sc) = 1) then
        rlp_Encode T_blobTxWithBlobsV1 (VStruct (VPtr (tx_val tx) :: VInt (b2z (sc_Version sc)) :: blobs))
      else Err errSidecarVersion
  end.

(** The [encode] methods; that of a legacy transaction panics. *)
Definition tx_encode (tx : TxData) : res codec_error bytes :=
  match tx with
  | LegacyTx _ _ _ _ _ _ _ _ _ => Panic
  | AccessListTx _ _ _ _ _ _ _ _ _ _ _ => rlp_Encode T_AccessListTx (tx_val tx)
  | DynamicFeeTx _ _ _ _ _ _ _ _ _ _ _ _ => rlp_Encode T_DynamicFeeTx (tx_val tx)
  | BlobTx _ _ _ _ _ _ _ _ _ _ _ _ _ _ _ => BlobTx_encode tx
  | SetCodeTx _ _ _ _ _ _ _ _ _ _ _ _ _ => rlp_Encode T_SetCodeTx (tx_val tx)
  end.

Definition encodeTyped (tx : TxData) : res codec_error bytes :=
  b ← tx_encode tx;
  Ok (z2b (txType tx) :: b).

Definition MarshalBinary (tx : TxData) : res codec_error bytes :=
  if decide (txType tx = LegacyTxType) then rlp_Encode T_LegacyTx (tx_val tx) else encodeTyped tx.

(** ** Decoding *)

Definition rlp_Decode {A} (t : Typ) (f : val → option A) (b : bytes) : res codec_error A :=
  match DecodeBytes t b with
  | Ok v => match f v with Some a => Ok a | None => Panic end
  | Err e => Err (CodecErr e)
  | Panic => Panic
  end.

Definition lift_rlp {A} (r : res rlp_error A) : res codec_error A :=
  match r with Ok a => Ok a | Err e => Err (CodecErr (RlpErr e)) | Panic => Panic end.

Definition with_Sidecar (sc : option BlobTxSidecar) (tx : TxData) : TxData :=
  match tx with
  | BlobTx c n tip p g t x d al bf bh _ v r s => BlobTx c n tip p g t x d al bf bh sc v r s
  | _ => tx
  end.

(** The decoded [blobTxWithBlobsV0] and [blobTxWithBlobsV1]: transaction, version, blobs. *)
Definition WithBlobsV0_of (v : val) : option (TxData * Z * list bytes * list bytes * list bytes) :=
  match v with
  | VStruct [VPtr tx; bl; co; pr] =>
      tx ← BlobTx_of tx; bl ← as_hashes bl; co ← as_hashes co; pr ← as_hashes pr; Some (tx, 0, bl, co, pr)
  | _ => None
  end.

Definition WithBlobsV1_of (v : val) : option (TxData * Z * list bytes * list bytes * list bytes) :=
  match v with
  | VStruct [VPtr tx; VInt ver; bl; co; pr] =>
      tx ← BlobTx_of tx; bl ← as_hashes bl; co ← as_hashes co; pr ← as_hashes pr; Some (tx, ver, bl, co, pr)
  | _ => None
  end.

(** [BlobTx.decode]. *)
Definition BlobTx_decode (input : bytes) : res codec_error TxData :=
  '(firstElem, _) ← lift_rlp (SplitList input);
  '(firstElemKind, _, secondElem) ← lift_rlp (Split firstElem);
  if decide (firstElemKind ≠ KList) then rlp_Decode T_BlobTx BlobTx_of input
  else
    '(secondElemKind, _, _) ← lift_rlp (Split secondElem);
    if decide (secondElemKind = KList) then
      '(tx, _, bl, co, pr) ← rlp_Decode T_blobTxWithBlobsV0 WithBlobsV0_of input;
      Ok (with_Sidecar (Some (MkSidecar Byte.x00 bl co pr)) tx)
    else
      '(tx, ver, bl, co, pr) ← rlp_Decode T_blobTxWithBlobsV1 WithBlobsV1_of input;
      if decide (ver ≠ 1) then Err errSidecarVersion
      else Ok (with_Sidecar (Some (MkSidecar Byte.x01 bl co pr)) tx).

Definition decodeTyped (b : bytes) : res codec_error TxData :=
  match b with
  | t :: _ :: _ =>
      if decide (b2z t = AccessListTxType) then rlp_Decode T_AccessListTx AccessListTx_of (drop 1 b)
      else if decide (b2z t = DynamicFeeTxType) then rlp_Decode T_DynamicFeeTx DynamicFeeTx_of (drop 1 b)
      else if decide (b2z t = BlobTxType) then BlobTx_decode (drop 1 b)
      else if decide (b2z t = SetCodeTxType) then rlp_Decode T_SetCodeTx SetCodeTx_of (drop 1 b)
      else Err errTxTypeNotSupported
  | _ => Err errShortTypedTx
  end.

Definition UnmarshalBinary (b : bytes) : res codec_error TxData :=
  match b with
  | b0 :: _ => if decide (0x7f < b2z b0) then rlp_Decode T_LegacyTx LegacyTx_of b else decodeTyped b
  | [] => decodeTyped b
  end.

(** ** Hash and size *)

Definition inner_typ (tx : TxData) : Typ :=
  match tx with
  | LegacyTx _ _ _ _ _ _ _ _ _ => T_LegacyTx
  | AccessListTx _ _ _ _ _ _ _ _ _ _ _ => T_AccessListTx
  | DynamicFeeTx _ _ _ _ _ _ _ _ _ _ _ _ => T_DynamicFeeTx
  | BlobTx _ _ _ _ _ _ _ _ _ _ _ _ _ _ _ => T_BlobTx
  | SetCodeTx _ _ _ _ _ _ _ _ _ _ _ _ _ => T_SetCodeTx
  end.

Definition encode_inner (tx : TxData) : res rlp_error bytes :=
  EncodeTypedToBytes (TPtr (inner_typ tx)) (VPtr (tx_val tx)).

Definition tx_Hash (tx : TxData) : Hash :=
  if decide (txType tx = LegacyTxType) then rlpHash (encode_inner tx)
  else prefixedRlpHash (txType tx) (encode_inner tx).

Definition encodedSize (sc : BlobTxSidecar) : Z :=
  let sum (l : list bytes) := foldl (λ n b, u64 (n + BytesSize b)) 0 l in
  u64 (ListSize (sum (sc_Blobs sc)) + ListSize (sum (sc_Commitments sc)) + ListSize (sum (sc_Proofs sc))).

(** [Size] without a cached value. *)
Definition tx_Size (tx : TxData) : Z :=
  let size := match encode_inner tx with Ok b => blen b | _ => 0 end in
  let size := match tx_Sidecar tx with Some sc => u64 (size + ListSize (encodedSize sc)) | None => size end in
  if decide (txType tx ≠ LegacyTxType) then u64 (size + 1) else size.

Definition ex_blob (sc : option BlobTxSidecar) : TxData :=
  BlobTx 1 7 2 3 21000 (replicate 20 Byte.x11) 0 [] [] 1 [replicate 32 Byte.x01] sc 1 5 6.

Example ex_blob_roundtrip :
  (b ← MarshalBinary (ex_blob (Some (MkSidecar Byte.x01 [] [] []))); UnmarshalBinary b) =
    Ok (ex_blob (Some (MkSidecar Byte.x01 [] [] []))).
Proof. vm_compute. reflexivity. Qed.
