(* ===== verification/TxCodecFacts.v ===== *)
(** * Transactions and their bytes

    A field of a Go type that takes part in the encoding is described by [field_iff]: which
    values it has ([f]), what they are in the model ([ok]) and the RLP item they are written
    as ([g]). From the fields follow the five transaction types, the round trip and the
    uniqueness of encodings. *)
From Stdlib Require Import ZArith Lia.
From Stdlib Require Strings.Byte.
From stdpp Require Import base tactics decidable list numbers sets.
From S2P Require Import Prelude Keccak Common Rlp Types Transactions Stream StreamFacts Codec CodecFacts WriterFacts TxCodec.

(** ** Fields *)

Definition field_iff {A} (P : val → bytes → Prop) (f : A → val) (g : A → item) (ok : A → Prop) : Prop :=
  ∀ v b, P v b ↔ ∃ a, v = f a ∧ ok a ∧ b = enc (g a).

Definition is_uint (bits z : Z) : Prop := 0 <= z < 2 ^ bits.
Definition is_big (z : Z) : Prop := 0 <= z.
Definition is_len (n : nat) (b : bytes) : Prop := length b = n.
Definition any_bytes (b : bytes) : Prop := True.

Lemma uint_field w ts : field_iff (repr (TUint w) ts) VInt enc_num (is_uint (Bits_of w)).
Proof. intros v b. cbn. unfold int_repr, uint_repr, is_uint, enc_uint. cbn. naive_solver. Qed.

Lemma big_field ts : field_iff (repr T_big ts) v_ptr enc_num is_big.
Proof. intros v b. cbn. unfold ptr_repr, int_repr, big_repr, is_big, enc_uint, v_ptr. cbn. naive_solver. Qed.

Lemma u256_field ts : field_iff (repr TUint256 ts) VInt enc_num (is_uint 256).
Proof. intros v b. cbn. unfold int_repr, uint_repr, is_uint, enc_uint. cbn. naive_solver. Qed.

Lemma u256p_field ts : field_iff (repr T_u256 ts) v_ptr enc_num (is_uint 256).
Proof. intros v b. cbn. unfold ptr_repr, int_repr, uint_repr, is_uint, enc_uint, v_ptr. cbn. naive_solver. Qed.

Lemma bytes_field ts : field_iff (repr T_bytes ts) VBytes Str any_bytes.
Proof. intros v b. cbn. unfold vbytes_repr, str_repr, any_bytes. cbn. naive_solver. Qed.

Lemma array_field n ts : field_iff (repr (TArray n (TUint W8)) ts) VBytes Str (is_len n).
Proof.
  intros v b. cbn [repr]. unfold vbytes_repr, bytes_repr, str_repr, is_len, blen. split.
  - intros (c & -> & -> & Hl). exists c. split; [done|]. split; [lia | done].
  - intros (c & -> & <- & ->). exists c. done.
Qed.

(** [*common.Address] with the tag [nil]. *)
Definition is_to (t : option Address) : Prop := match t with Some a => is_len 20 a | None => True end.

Definition to_Tags : Tags := MkTags KString true false false false.

Lemma to_field : field_iff (repr (TPtr T_Address) to_Tags) v_to enc_opt is_to.
Proof.
  intros v b. change (repr (TPtr T_Address) to_Tags) with (nilptr_repr KString (repr T_Address no_Tags)).
  unfold nilptr_repr, ptr_repr. split.
  - intros [[-> ->]|[(v' & -> & Hv') _]]; [by exists None|].
    apply array_field in Hv' as (a & -> & Ha & ->). by exists (Some a).
  - intros ([a|] & -> & Ha & ->); [|by left]. right. split; [exists (VBytes a); split; [done|]; apply array_field; by exists a|].
    unfold is_to, is_len in Ha. destruct a as [|x [|y a]]; [done..|].
    change (enc (enc_opt (Some (x :: y :: a)))) with (puthead 0x80 0xB7 (Z.of_nat (length (x :: y :: a))) ++ x :: y :: a).
    destruct (puthead_nonempty 0x80 0xB7 (Z.of_nat (length (x :: y :: a)))) as (? & ? & ->). split; destruct x1; done.
Qed.

(** Slices of fields. *)
Lemma elems_iff {A} P (f : A → val) g ok l c :
  field_iff P f g ok → elems_repr P l c ↔ ∃ la, l = f <$> la ∧ Forall ok la ∧ c = enc_seq (g <$> la).
Proof.
  intros Hf. revert c. induction l as [|v l IH]; intros c; cbn [elems_repr].
  - split; [intros ->; exists []; by split; [|split]|]. intros (la & E & _ & ->). by destruct la.
  - split.
    + intros (b & c' & -> & (a & -> & Ha & ->)%Hf & (la & -> & Hla & ->)%IH). exists (a :: la).
      split; [done|]. split; [by constructor|]. by rewrite fmap_cons, enc_seq_cons.
    + intros ([|a la] & E & Hok & ->); [done|]. injection E as -> ->. apply Forall_cons_1 in Hok as [Ha Hla].
      rewrite fmap_cons, enc_seq_cons. eexists _, _. split; [done|]. split; [apply Hf; eauto|]. apply IH. eauto.
Qed.

Lemma slice_field {A} e (f : A → val) g ok :
  is_byte e = false → field_iff (repr e no_Tags) f g ok →
  field_iff (repr (TSlice e) no_Tags) (λ l, VList (f <$> l)) (λ l, Lst (g <$> l)) (Forall ok).
Proof.
  intros He Hf v b. rewrite repr_TSlice by done. cbn [no_Tags Tail]. unfold slice_repr. split.
  - intros (l & c & -> & -> & (la & -> & Hok & ->)%(elems_iff _ f g ok)); [|done]. exists la. by rewrite enc_Lst.
  - intros (la & -> & Hok & ->). exists (f <$> la), (enc_seq (g <$> la)). split; [done|]. split; [by rewrite enc_Lst|].
    apply (elems_iff _ f g ok); [done|]. by exists la.
Qed.

Lemma ptr_field {A} e (f : A → val) g ok ts :
  e ≠ TBigInt → e ≠ TUint256 → NilOK ts = false → field_iff (repr e no_Tags) f g ok →
  field_iff (repr (TPtr e) ts) (λ a, VPtr (f a)) g ok.
Proof.
  intros H1 H2 Hn Hf v b. rewrite repr_TPtr, Hn by done. unfold ptr_repr. split.
  - intros (v' & -> & (a & -> & Ha & ->)%Hf). by exists a.
  - intros (a & -> & Ha & ->). exists (f a). split; [done|]. apply Hf. by exists a.
Qed.

(** ** Structs *)

Lemma fields_cons {A} P (f : A → val) g ok z ps vs c :
  field_iff P f g ok →
  fields_repr (MkSpec P false z :: ps) vs c ↔
    ∃ a vs' c', vs = f a :: vs' ∧ ok a ∧ c = enc (g a) ++ c' ∧ fields_repr ps vs' c'.
Proof.
  intros Hf. cbn [fields_repr sp_repr sp_optional]. split.
  - intros [(v & vs' & b & c' & -> & -> & (a & -> & Ha & ->)%Hf & H)|(? & _)]; [|done]. eauto 10.
  - intros (a & vs' & c' & -> & Ha & -> & H). left. eexists _, _, _, _. split; [done|]. split; [done|].
    split; [apply Hf; eauto | done].
Qed.

Lemma struct_iff fs ts ftags v b :
  ProcessFields fs = Ok ftags →
  repr (TStruct fs) ts v b ↔ ∃ vs c, v = VStruct vs ∧ b = enc_list c ∧ fields_repr (field_specs fs ftags) vs c.
Proof. intros H. by rewrite (repr_TStruct fs ts ftags H). Qed.

(** Open the fields of a struct from left to right, and close them again. *)
Ltac open_field H L :=
  let a := fresh "a" in let Ha := fresh "Ha" in let E := fresh "E" in let F := fresh "F" in
  apply (fields_cons _ _ _ _ _ _ _ _ L) in H as (a & ? & ? & E & Ha & F & H); subst.
Ltac close_field L a :=
  apply (fields_cons _ _ _ _ _ _ _ _ L); exists a; eexists _, _; split; [reflexivity|]; split; [assumption || done|];
  split; [reflexivity|].

Definition tuple_item (t : AccessTuple) : item := Lst [Str (at_Address t); Lst (Str <$> at_StorageKeys t)].
Definition is_tuple (t : AccessTuple) : Prop := is_len 20 (at_Address t) ∧ Forall (is_len 32) (at_StorageKeys t).

Lemma hashes_field n : field_iff (repr (TSlice (TArray n (TUint W8))) no_Tags) v_hashes (λ l, Lst (Str <$> l)) (Forall (is_len n)).
Proof. apply (slice_field _ VBytes Str); [done | apply array_field]. Qed.

Lemma tuple_field ts : field_iff (repr T_AccessTuple ts) v_tuple tuple_item is_tuple.
Proof.
  intros v b. unfold T_AccessTuple. rewrite (struct_iff _ _ [Some no_Tags; Some no_Tags]) by done. cbn [field_specs fld].
  split.
  - intros (vs & c & -> & -> & H). open_field H (array_field 20 no_Tags). open_field H (hashes_field 32).
    destruct H as [-> ->]. exists (MkAccessTuple a a0). split; [done|]. split; [done|].
    symmetry. apply enc_Lst.
  - intros ([a k] & -> & [Ha Hk] & ->). eexists _, _. split; [done|]. split; [apply enc_Lst|].
    close_field (array_field 20 no_Tags) a. close_field (hashes_field 32) k. done.
Qed.

Definition auth_fields (a : SetCodeAuthorization) : item :=
  Lst [enc_num (au_ChainID a); Str (au_Address a); enc_num (au_Nonce a); enc_num (au_V a); enc_num (au_R a); enc_num (au_S a)].
Definition is_auth (a : SetCodeAuthorization) : Prop :=
  is_uint 256 (au_ChainID a) ∧ is_len 20 (au_Address a) ∧ is_uint 64 (au_Nonce a) ∧ is_uint 8 (au_V a) ∧
  is_uint 256 (au_R a) ∧ is_uint 256 (au_S a).

Lemma auth_field ts : field_iff (repr T_SetCodeAuthorization ts) v_auth auth_fields is_auth.
Proof.
  intros v b. unfold T_SetCodeAuthorization. rewrite (struct_iff _ _ (replicate 6 (Some no_Tags))) by done.
  cbn [field_specs fld replicate]. split.
  - intros (vs & c & -> & -> & H). open_field H (u256_field no_Tags). open_field H (array_field 20 no_Tags).
    open_field H (uint_field W64 no_Tags). open_field H (uint_field W8 no_Tags). open_field H (u256_field no_Tags).
    open_field H (u256_field no_Tags). destruct H as [-> ->]. exists (MkAuth a a0 a1 a2 a3 a4).
    split; [done|]. split; [done|]. symmetry. apply enc_Lst.
  - intros ([c a n v' r s] & -> & (?&?&?&?&?&?) & ->). eexists _, _. split; [done|]. split; [apply enc_Lst|].
    close_field (u256_field no_Tags) c. close_field (array_field 20 no_Tags) a. close_field (uint_field W64 no_Tags) n.
    close_field (uint_field W8 no_Tags) v'. close_field (u256_field no_Tags) r. close_field (u256_field no_Tags) s. done.
Qed.

Definition al_item (al : list AccessTuple) : item := Lst (tuple_item <$> al).
Definition au_item (l : list SetCodeAuthorization) : item := Lst (auth_fields <$> l).

Lemma al_field : field_iff (repr T_AccessList no_Tags) (λ l, VList (v_tuple <$> l)) al_item (Forall is_tuple).
Proof. apply (slice_field _ v_tuple tuple_item); [done | apply tuple_field]. Qed.

Lemma au_field :
  field_iff (repr (TSlice T_SetCodeAuthorization) no_Tags) (λ l, VList (v_auth <$> l)) au_item (Forall is_auth).
Proof. apply (slice_field _ v_auth auth_fields); [done | apply auth_field]. Qed.

(** ** The five types *)

#[local] Opaque repr zero enc.

(** The payload of a transaction as an RLP list. *)
Definition tx_items (tx : TxData) : list item :=
  match tx with
  | LegacyTx n p g t x d v r s =>
      [enc_num n; enc_num p; enc_num g; enc_opt t; enc_num x; Str d; enc_num v; enc_num r; enc_num s]
  | AccessListTx c n p g t x d al v r s =>
      [enc_num c; enc_num n; enc_num p; enc_num g; enc_opt t; enc_num x; Str d; al_item al; enc_num v; enc_num r; enc_num s]
  | DynamicFeeTx c n tip p g t x d al v r s =>
      [enc_num c; enc_num n; enc_num tip; enc_num p; enc_num g; enc_opt t; enc_num x; Str d; al_item al;
       enc_num v; enc_num r; enc_num s]
  | BlobTx c n tip p g t x d al bf bh _ v r s =>
      [enc_num c; enc_num n; enc_num tip; enc_num p; enc_num g; Str t; enc_num x; Str d; al_item al;
       enc_num bf; Lst (Str <$> bh); enc_num v; enc_num r; enc_num s]
  | SetCodeTx c n tip p g t x d al au v r s =>
      [enc_num c; enc_num n; enc_num tip; enc_num p; enc_num g; Str t; enc_num x; Str d; al_item al;
       au_item au; enc_num v; enc_num r; enc_num s]
  end.

(** What the Go types of the fields say, and that [big.Int] fields are not negative. *)
Definition tx_fields_ok (tx : TxData) : Prop :=
  match tx with
  | LegacyTx n p g t x d v r s =>
      is_uint 64 n ∧ is_big p ∧ is_uint 64 g ∧ is_to t ∧ is_big x ∧ is_big v ∧ is_big r ∧ is_big s
  | AccessListTx c n p g t x d al v r s =>
      is_big c ∧ is_uint 64 n ∧ is_big p ∧ is_uint 64 g ∧ is_to t ∧ is_big x ∧ Forall is_tuple al ∧
      is_big v ∧ is_big r ∧ is_big s
  | DynamicFeeTx c n tip p g t x d al v r s =>
      is_big c ∧ is_uint 64 n ∧ is_big tip ∧ is_big p ∧ is_uint 64 g ∧ is_to t ∧ is_big x ∧ Forall is_tuple al ∧
      is_big v ∧ is_big r ∧ is_big s
  | BlobTx c n tip p g t x d al bf bh _ v r s =>
      is_uint 256 c ∧ is_uint 64 n ∧ is_uint 256 tip ∧ is_uint 256 p ∧ is_uint 64 g ∧ is_len 20 t ∧ is_uint 256 x ∧
      Forall is_tuple al ∧ is_uint 256 bf ∧ Forall (is_len 32) bh ∧ is_uint 256 v ∧ is_uint 256 r ∧ is_uint 256 s
  | SetCodeTx c n tip p g t x d al au v r s =>
      is_uint 256 c ∧ is_uint 64 n ∧ is_uint 256 tip ∧ is_uint 256 p ∧ is_uint 64 g ∧ is_len 20 t ∧ is_uint 256 x ∧
      Forall is_tuple al ∧ Forall is_auth au ∧ is_uint 256 v ∧ is_uint 256 r ∧ is_uint 256 s
  end.

(** The fields of each type in order, for the two tactics. *)
Ltac open_fields H :=
  repeat first
    [ open_field H (uint_field W64 no_Tags) | open_field H (big_field no_Tags) | open_field H to_field
    | open_field H (u256p_field no_Tags) | open_field H (bytes_field no_Tags) | open_field H (array_field 20 no_Tags)
    | open_field H al_field | open_field H au_field | open_field H (hashes_field 32) ].
Lemma fields_cons_2 {A} P (f : A → val) g ok z ps a vs l :
  field_iff P f g ok → ok a → fields_repr ps vs (enc_seq l) →
  fields_repr (MkSpec P false z :: ps) (f a :: vs) (enc_seq (g a :: l)).
Proof. intros Hf Ha H. apply (fields_cons P f g ok); [done|]. eexists _, _, _. by rewrite enc_seq_cons. Qed.

Ltac close_with L := refine (fields_cons_2 _ _ _ _ _ _ _ _ _ L _ _); [assumption || exact I|].
Ltac close_fields :=
  repeat first
    [ close_with (uint_field W64 no_Tags) | close_with (big_field no_Tags) | close_with to_field
    | close_with (u256p_field no_Tags) | close_with (bytes_field no_Tags) | close_with (array_field 20 no_Tags)
    | close_with al_field | close_with au_field | close_with (hashes_field 32) ].

Definition tx_payload (tx : TxData) : bytes := enc (Lst (tx_items tx)).

Lemma tx_repr tx : tx_fields_ok tx → repr (inner_typ tx) no_Tags (tx_val tx) (tx_payload tx).
Proof.
  intros H. destruct tx; cbn [inner_typ tx_fields_ok] in *; destruct_and?; eapply struct_iff; [reflexivity| |reflexivity| |reflexivity| |reflexivity| |reflexivity|].
  all: eexists _, _; (split; [done|]); (split; [apply enc_Lst|]); cbn [field_specs fld fld_To tx_items]; close_fields; done.
Qed.

(** A represented value of one of the types is the value of a transaction of that type. *)
Ltac invert_struct ftags :=
  intros H; eapply (struct_iff _ no_Tags ftags) in H as (vs & c & -> & -> & H); [|reflexivity];
  cbn [field_specs fld fld_To] in H; open_fields H; destruct H as [-> ->].

#[local] Notation F := (Some no_Tags).

Lemma legacy_inv v b : repr T_LegacyTx no_Tags v b →
  ∃ n p g t x d v' r s, let tx := LegacyTx n p g t x d v' r s in
    v = tx_val tx ∧ tx_fields_ok tx ∧ b = tx_payload tx.
Proof.
  invert_struct [F; F; F; Some to_Tags; F; F; F; F; F]. eexists _, _, _, _, _, _, _, _, _. split; [reflexivity|].
  split; [cbn; tauto|]. symmetry. apply enc_Lst.
Qed.

Lemma accesslist_inv v b : repr T_AccessListTx no_Tags v b →
  ∃ c n p g t x d al v' r s, let tx := AccessListTx c n p g t x d al v' r s in
    v = tx_val tx ∧ tx_fields_ok tx ∧ b = tx_payload tx.
Proof.
  invert_struct [F; F; F; F; Some to_Tags; F; F; F; F; F; F]. eexists _, _, _, _, _, _, _, _, _, _, _.
  split; [reflexivity|]. split; [cbn; tauto|]. symmetry. apply enc_Lst.
Qed.

Lemma dynamicfee_inv v b : repr T_DynamicFeeTx no_Tags v b →
  ∃ c n tip p g t x d al v' r s, let tx := DynamicFeeTx c n tip p g t x d al v' r s in
    v = tx_val tx ∧ tx_fields_ok tx ∧ b = tx_payload tx.
Proof.
  invert_struct [F; F; F; F; F; Some to_Tags; F; F; F; F; F; F]. eexists _, _, _, _, _, _, _, _, _, _, _, _.
  split; [reflexivity|]. split; [cbn; tauto|]. symmetry. apply enc_Lst.
Qed.

Lemma blob_inv v b : repr T_BlobTx no_Tags v b →
  ∃ c n tip p g t x d al bf bh v' r s, let tx := BlobTx c n tip p g t x d al bf bh None v' r s in
    v = tx_val tx ∧ tx_fields_ok tx ∧ b = tx_payload tx.
Proof.
  invert_struct [F; F; F; F; F; F; F; F; F; F; F; None; F; F; F].
  eexists _, _, _, _, _, _, _, _, _, _, _, _, _, _. split; [reflexivity|]. split; [cbn; tauto|].
  symmetry. apply enc_Lst.
Qed.

Lemma setcode_inv v b : repr T_SetCodeTx no_Tags v b →
  ∃ c n tip p g t x d al au v' r s, let tx := SetCodeTx c n tip p g t x d al au v' r s in
    v = tx_val tx ∧ tx_fields_ok tx ∧ b = tx_payload tx.
Proof.
  invert_struct [F; F; F; F; F; F; F; F; F; F; F; F; F].
  eexists _, _, _, _, _, _, _, _, _, _, _, _, _. split; [reflexivity|]. split; [cbn; tauto|]. symmetry. apply enc_Lst.
Qed.

(** Reading the fields back. *)
Lemma mapM_fmap {A B} (f : A → B) (g : B → option A) l : (∀ a, g (f a) = Some a) → mapM g (f <$> l) = Some l.
Proof. intros H. induction l as [|a l IH]; [done|]. cbn. rewrite H. cbn. by rewrite IH. Qed.

Lemma as_hashes_v l : as_hashes (v_hashes l) = Some l.
Proof. by apply mapM_fmap. Qed.

Lemma as_tuples l : as_list as_tuple (VList (v_tuple <$> l)) = Some l.
Proof. apply mapM_fmap. intros [a k]. cbn. change (mapM as_bytes (VBytes <$> k)) with (as_hashes (v_hashes k)). by rewrite as_hashes_v. Qed.

Lemma as_auths l : as_list as_auth (VList (v_auth <$> l)) = Some l.
Proof. apply mapM_fmap. by intros []. Qed.

Lemma as_to_v t : as_to (v_to t) = Some t.
Proof. by destruct t. Qed.

(** The reader of the fields of each type. *)
Definition inner_of (tx : TxData) : val → option TxData :=
  match tx with
  | LegacyTx _ _ _ _ _ _ _ _ _ => LegacyTx_of
  | AccessListTx _ _ _ _ _ _ _ _ _ _ _ => AccessListTx_of
  | DynamicFeeTx _ _ _ _ _ _ _ _ _ _ _ _ => DynamicFeeTx_of
  | BlobTx _ _ _ _ _ _ _ _ _ _ _ _ _ _ _ => BlobTx_of
  | SetCodeTx _ _ _ _ _ _ _ _ _ _ _ _ _ => SetCodeTx_of
  end.

Lemma inner_of_val tx : inner_of tx (tx_val tx) = Some (with_Sidecar None tx).
Proof.
  destruct tx; unfold inner_of, tx_val, LegacyTx_of, AccessListTx_of, DynamicFeeTx_of, BlobTx_of, SetCodeTx_of, v_ptr;
    rewrite ?as_to_v, ?as_tuples, ?as_auths, ?as_hashes_v; cbn [mbind option_bind]; rewrite ?as_tuples; cbn [mbind option_bind];
    rewrite ?as_hashes_v, ?as_auths; done.
Qed.

(** ** Blob transactions with sidecar *)

Definition is_blob (tx : TxData) : Prop := txType tx = BlobTxType ∧ tx_Sidecar tx = None ∧ tx_fields_ok tx.

Lemma blob_field : field_iff (repr (TPtr T_BlobTx) no_Tags) (λ tx, VPtr (tx_val tx)) (λ tx, Lst (tx_items tx)) is_blob.
Proof.
  apply ptr_field; [done..|]. intros v b. split.
  - intros (c & n & tip & p & g & t & x & d & al & bf & bh & v' & r & s & -> & Hok & ->)%blob_inv.
    eexists. split; [reflexivity|]. by split.
  - intros (tx & -> & (Ht & _ & Hok) & ->). destruct tx; try discriminate Ht. by apply (tx_repr _ Hok).
Qed.

Definition blob_lists (sc : BlobTxSidecar) : list item :=
  [Lst (Str <$> sc_Blobs sc); Lst (Str <$> sc_Commitments sc); Lst (Str <$> sc_Proofs sc)].

Definition sidecar_ok (sc : BlobTxSidecar) : Prop :=
  Forall (is_len (Z.to_nat 131072)) (sc_Blobs sc) ∧ Forall (is_len 48) (sc_Commitments sc) ∧
  Forall (is_len 48) (sc_Proofs sc).

Definition v_blobs (sc : BlobTxSidecar) : list val :=
  [v_hashes (sc_Blobs sc); v_hashes (sc_Commitments sc); v_hashes (sc_Proofs sc)].

Lemma v0_iff v b :
  repr T_blobTxWithBlobsV0 no_Tags v b ↔
  ∃ tx sc, is_blob tx ∧ sidecar_ok sc ∧ v = VStruct (VPtr (tx_val tx) :: v_blobs sc) ∧
    b = enc (Lst (Lst (tx_items tx) :: blob_lists sc)) ∧ sc_Version sc = Byte.x00.
Proof.
  unfold T_blobTxWithBlobsV0. rewrite (struct_iff _ _ [F; F; F; F]) by reflexivity. cbn [field_specs fld]. split.
  - intros (vs & c & -> & -> & H). open_field H blob_field. open_field H (hashes_field (Z.to_nat 131072)).
    open_field H (hashes_field 48). open_field H (hashes_field 48). destruct H as [-> ->].
    exists a, (MkSidecar Byte.x00 a0 a1 a2). split; [done|]. split; [done|]. split; [done|]. split; [|done].
    symmetry. apply enc_Lst.
  - intros (tx & [ver bl co pr] & Htx & (Hb & Hc & Hp) & -> & -> & _). eexists _, _. split; [done|].
    split; [apply enc_Lst|]. close_field blob_field tx. close_field (hashes_field (Z.to_nat 131072)) bl.
    close_field (hashes_field 48) co. close_field (hashes_field 48) pr. done.
Qed.

Lemma v1_iff v b :
  repr T_blobTxWithBlobsV1 no_Tags v b ↔
  ∃ tx ver sc, is_blob tx ∧ is_uint 8 ver ∧ sidecar_ok sc ∧ v = VStruct (VPtr (tx_val tx) :: VInt ver :: v_blobs sc) ∧
    b = enc (Lst (Lst (tx_items tx) :: enc_num ver :: blob_lists sc)) ∧ sc_Version sc = Byte.x01.
Proof.
  unfold T_blobTxWithBlobsV1. rewrite (struct_iff _ _ [F; F; F; F; F]) by reflexivity. cbn [field_specs fld]. split.
  - intros (vs & c & -> & -> & H). open_field H blob_field. open_field H (uint_field W8 no_Tags).
    open_field H (hashes_field (Z.to_nat 131072)).
    open_field H (hashes_field 48). open_field H (hashes_field 48). destruct H as [-> ->].
    exists a, a0, (MkSidecar Byte.x01 a1 a2 a3). split; [done|]. split; [done|]. split; [done|]. split; [done|]. split; [|done].
    symmetry. apply enc_Lst.
  - intros (tx & ver & [ver' bl co pr] & Htx & Hver & (Hb & Hc & Hp) & -> & -> & _). eexists _, _. split; [done|].
    split; [apply enc_Lst|]. close_field blob_field tx. close_field (uint_field W8 no_Tags) ver.
    close_field (hashes_field (Z.to_nat 131072)) bl.
    close_field (hashes_field 48) co. close_field (hashes_field 48) pr. done.
Qed.

(** ** The codec on structs *)

(** The types that are encoded behind a pointer. *)
Definition codec_typ (t : Typ) : bool :=
  is_ok (makeDecoder t no_Tags) && is_ok (makeDecoder (TPtr t) no_Tags) && strict (TPtr t) &&
  match t with TStruct _ => true | _ => false end.

Lemma codec_types :
  forallb codec_typ [T_LegacyTx; T_AccessListTx; T_DynamicFeeTx; T_BlobTx; T_SetCodeTx;
                     T_blobTxWithBlobsV0; T_blobTxWithBlobsV1] = true.
Proof. vm_compute. reflexivity. Qed.

Lemma codec_typ_in t :
  t ∈ [T_LegacyTx; T_AccessListTx; T_DynamicFeeTx; T_BlobTx; T_SetCodeTx; T_blobTxWithBlobsV0; T_blobTxWithBlobsV1] →
  codec_typ t = true.
Proof. intros Ht. pose proof codec_types as H. rewrite forallb_forall in H. apply H. by apply list_elem_of_In. Qed.

Lemma rlp_Encode_repr t v b :
  codec_typ t = true → repr t no_Tags v b → blen b <= maxAlloc → rlp_Encode t v = Ok b.
Proof.
  intros [[[_ Hd]%andb_true_iff Hs]%andb_true_iff Ht]%andb_true_iff Hv Hb. unfold rlp_Encode.
  rewrite (repr_encoded (TPtr t) (VPtr v) b); [done | by rewrite Hd | done | | pose proof maxAlloc_two64; lia].
  rewrite repr_TPtr by (by destruct t). by exists v.
Qed.

Lemma rlp_Decode_repr {A} t (f : val → option A) v b a :
  codec_typ t = true → repr t no_Tags v b → blen b <= maxAlloc → f v = Some a → rlp_Decode t f b = Ok a.
Proof.
  intros [[[Hd _]%andb_true_iff _]%andb_true_iff _]%andb_true_iff Hv Hb Hf. unfold rlp_Decode.
  rewrite (repr_decoded t b v) by (try rewrite Hd; done). by rewrite Hf.
Qed.

Lemma rlp_Decode_inv {A} t (f : val → option A) b a :
  codec_typ t = true → blen b <= maxAlloc → rlp_Decode t f b = Ok a → ∃ v, repr t no_Tags v b ∧ f v = Some a.
Proof.
  intros [[[Hd _]%andb_true_iff _]%andb_true_iff _]%andb_true_iff Hb E. unfold rlp_Decode in E.
  destruct (DecodeBytes t b) as [v| |] eqn:Ed; [|done..]. destruct (f v) as [a'|] eqn:Ef; [|done]. injection E as <-.
  exists v. split; [|done]. apply decoded_repr; [by rewrite Hd | done..].
Qed.

Lemma SplitList_enc l : blen (enc (Lst l)) < two64 → SplitList (enc (Lst l)) = Ok (enc_seq l, []).
Proof.
  intros H. unfold SplitList. rewrite <-(app_nil_r (enc (Lst l))) in H |- *. rewrite Split_enc by done. done.
Qed.

(** ** The specification of the bytes *)

(** A transaction as its Go type allows it. *)
Definition tx_ok (tx : TxData) : Prop :=
  tx_fields_ok tx ∧
  match tx_Sidecar tx with
  | Some sc => sidecar_ok sc ∧ (sc_Version sc = Byte.x00 ∨ sc_Version sc = Byte.x01)
  | None => True
  end.

(** The payload of a typed transaction: a list of the transaction and its blobs when there
    is a sidecar. *)
Definition tx_body (tx : TxData) : bytes :=
  match tx_Sidecar tx with
  | None => tx_payload tx
  | Some sc =>
      enc (Lst (Lst (tx_items tx) ::
        (if decide (sc_Version sc = Byte.x01) then enc_num 1 :: blob_lists sc else blob_lists sc)))
  end.

(** EIP-2718: the list for a legacy transaction, else the type byte and the payload. *)
Definition tx_bytes (tx : TxData) : bytes :=
  if decide (txType tx = LegacyTxType) then tx_payload tx else z2b (txType tx) :: tx_body tx.

(** A list is never taken for a typed transaction. *)
Lemma enc_Lst_head l : blen (enc (Lst l)) <= maxAlloc → ∃ b0 r, enc (Lst l) = b0 :: r ∧ 0x7f < b2z b0.
Proof.
  intros Ha. rewrite enc_Lst in Ha |- *. unfold enc_list in *. rewrite blen_app in Ha.
  pose proof (blen_nonneg (enc_seq l)). pose proof (blen_nonneg (puthead 192 247 (Z.of_nat (length (enc_seq l))))).
  pose proof maxAlloc_two64.
  destruct (puthead_tag 0xC0 0xF7 (Z.of_nat (length (enc_seq l)))) as (tag & tail & -> & Ht);
    [set_solver | unfold blen in *; lia|].
  exists tag, (tail ++ enc_seq l). split; [done|]. pose proof (blen_nonneg tail). lia.
Qed.

Lemma z2b_type n : 0 <= n < 128 → b2z (z2b n) = n.
Proof. intros. apply b2z_tag. lia. Qed.

Lemma inner_typ_codec tx : codec_typ (inner_typ tx) = true.
Proof. apply codec_typ_in. destruct tx; set_solver. Qed.

Lemma with_None tx : tx_Sidecar tx = None → with_Sidecar None tx = tx.
Proof. by destruct tx; cbn; intros; subst. Qed.

Lemma tx_val_sidecar sc tx : tx_val (with_Sidecar sc tx) = tx_val tx.
Proof. by destruct tx. Qed.

Lemma is_blob_without tx : txType tx = BlobTxType → tx_fields_ok tx → is_blob (with_Sidecar None tx).
Proof. by destruct tx. Qed.

Lemma tx_items_sidecar sc tx : tx_items (with_Sidecar sc tx) = tx_items tx.
Proof. by destruct tx. Qed.

Lemma blen_cons x (b : bytes) : blen (x :: b) = 1 + blen b.
Proof. blen_lia. Qed.

(** The sidecar as the two network formats hold it. *)
Lemma sidecar_repr tx sc :
  txType tx = BlobTxType → tx_fields_ok tx → sidecar_ok sc →
  (sc_Version sc = Byte.x00 →
     repr T_blobTxWithBlobsV0 no_Tags (VStruct (VPtr (tx_val tx) :: v_blobs sc)) (enc (Lst (Lst (tx_items tx) :: blob_lists sc)))) ∧
  (sc_Version sc = Byte.x01 →
     repr T_blobTxWithBlobsV1 no_Tags (VStruct (VPtr (tx_val tx) :: VInt 1 :: v_blobs sc))
       (enc (Lst (Lst (tx_items tx) :: enc_num 1 :: blob_lists sc)))).
Proof.
  intros Ht Hok Hsc. pose proof (is_blob_without tx Ht Hok) as Hb.
  rewrite <-(tx_val_sidecar None tx), <-(tx_items_sidecar None tx). split; intros Hv.
  - apply v0_iff. by exists (with_Sidecar None tx), sc.
  - apply v1_iff. exists (with_Sidecar None tx), 1, sc. by unfold is_uint.
Qed.

Lemma MarshalBinary_bytes tx :
  tx_ok tx → blen (tx_bytes tx) <= maxAlloc → MarshalBinary tx = Ok (tx_bytes tx).
Proof.
  intros [Hok Hsc] Ha. unfold MarshalBinary, tx_bytes, tx_body in *.
  case_decide as Hl.
  { assert (inner_typ tx = T_LegacyTx) as E by by destruct tx. rewrite <-E.
    apply rlp_Encode_repr; [apply inner_typ_codec | by apply tx_repr | done]. }
  rewrite blen_cons in Ha. unfold encodeTyped.
  destruct (tx_Sidecar tx) as [sc|] eqn:Es.
  - destruct Hsc as [Hsc Hver]. assert (txType tx = BlobTxType) as Ht by by destruct tx.
    assert (tx_encode tx = BlobTx_encode tx) as -> by by destruct tx. unfold BlobTx_encode. rewrite Es.
    fold (v_blobs sc).
    destruct (sidecar_repr tx sc Ht Hok Hsc) as [H0 H1]. destruct Hver as [Hv|Hv]; rewrite Hv in Ha |- *.
    + rewrite decide_True by done. rewrite decide_False in Ha |- * by done.
      rewrite (rlp_Encode_repr _ _ _ (codec_typ_in T_blobTxWithBlobsV0 ltac:(set_solver)) (H0 Hv)); [done | lia].
    + rewrite decide_False, decide_True by done. rewrite decide_True in Ha |- * by done.
      change (b2z Byte.x01) with 1.
      rewrite (rlp_Encode_repr _ _ _ (codec_typ_in T_blobTxWithBlobsV1 ltac:(set_solver)) (H1 Hv)); [done | lia].
  - assert (tx_encode tx = rlp_Encode (inner_typ tx) (tx_val tx)) as ->.
    { destruct tx; try done. unfold tx_encode, BlobTx_encode. by rewrite Es. }
    by rewrite (rlp_Encode_repr _ _ (tx_payload tx)); [|apply inner_typ_codec | by apply tx_repr | lia].
Qed.

(** The switch on the type byte. *)
Lemma UnmarshalBinary_typed tx payload :
  txType tx ≠ LegacyTxType → payload ≠ [] →
  UnmarshalBinary (z2b (txType tx) :: payload) =
    if decide (txType tx = BlobTxType) then BlobTx_decode payload
    else rlp_Decode (inner_typ tx) (inner_of tx) payload.
Proof.
  intros Ht Hp. unfold UnmarshalBinary, decodeTyped. destruct payload as [|x payload]; [done|].
  destruct tx; try done; cbn [txType]; rewrite z2b_type by done; reflexivity.
Qed.

(** The switch on the kinds of the first two elements. *)
Lemma BlobTx_decode_kinds x y l :
  blen (enc (Lst (x :: y :: l))) < two64 →
  BlobTx_decode (enc (Lst (x :: y :: l))) =
    if decide (item_kind x ≠ KList) then rlp_Decode T_BlobTx BlobTx_of (enc (Lst (x :: y :: l)))
    else if decide (item_kind y = KList) then
      '(tx, _, bl, co, pr) ← rlp_Decode T_blobTxWithBlobsV0 WithBlobsV0_of (enc (Lst (x :: y :: l)));
      Ok (with_Sidecar (Some (MkSidecar Byte.x00 bl co pr)) tx)
    else
      '(tx, ver, bl, co, pr) ← rlp_Decode T_blobTxWithBlobsV1 WithBlobsV1_of (enc (Lst (x :: y :: l)));
      if decide (ver ≠ 1) then Err errSidecarVersion
      else Ok (with_Sidecar (Some (MkSidecar Byte.x01 bl co pr)) tx).
Proof.
  intros Ha. unfold BlobTx_decode. rewrite SplitList_enc by done. cbn [lift_rlp mbind res_bind].
  rewrite enc_Lst in Ha. unfold enc_list in Ha. rewrite blen_app in Ha.
  match type of Ha with blen ?h + _ < _ => pose proof (blen_nonneg h) as Hh end. unfold blen in Ha, Hh.
  rewrite !enc_seq_cons in Ha. rewrite (enc_seq_cons x), Split_enc by (rewrite enc_seq_cons; lia).
  cbn [lift_rlp mbind res_bind]. case_decide; [done|].
  rewrite (enc_seq_cons y), Split_enc by (rewrite length_app in Ha; lia). done.
Qed.

Lemma WithBlobsV0_of_val tx sc :
  txType tx = BlobTxType →
  WithBlobsV0_of (VStruct (VPtr (tx_val tx) :: v_blobs sc)) =
    Some (with_Sidecar None tx, 0, sc_Blobs sc, sc_Commitments sc, sc_Proofs sc).
Proof.
  intros Ht. cbn [WithBlobsV0_of v_blobs]. assert (inner_of tx = BlobTx_of) as <- by by destruct tx.
  rewrite inner_of_val, !as_hashes_v. done.
Qed.

Lemma WithBlobsV1_of_val tx ver sc :
  txType tx = BlobTxType →
  WithBlobsV1_of (VStruct (VPtr (tx_val tx) :: VInt ver :: v_blobs sc)) =
    Some (with_Sidecar None tx, ver, sc_Blobs sc, sc_Commitments sc, sc_Proofs sc).
Proof.
  intros Ht. cbn [WithBlobsV1_of v_blobs]. assert (inner_of tx = BlobTx_of) as <- by by destruct tx.
  rewrite inner_of_val, !as_hashes_v. done.
Qed.

Lemma with_own_sidecar tx sc : tx_Sidecar tx = Some sc → with_Sidecar (Some sc) (with_Sidecar None tx) = tx.
Proof. destruct tx; cbn; intros; by simplify_eq. Qed.

Lemma BlobTx_decode_sidecar tx sc :
  txType tx = BlobTxType → tx_fields_ok tx → tx_Sidecar tx = Some sc → sidecar_ok sc →
  (sc_Version sc = Byte.x00 → blen (enc (Lst (Lst (tx_items tx) :: blob_lists sc))) <= maxAlloc →
     BlobTx_decode (enc (Lst (Lst (tx_items tx) :: blob_lists sc))) = Ok tx) ∧
  (sc_Version sc = Byte.x01 → blen (enc (Lst (Lst (tx_items tx) :: enc_num 1 :: blob_lists sc))) <= maxAlloc →
     BlobTx_decode (enc (Lst (Lst (tx_items tx) :: enc_num 1 :: blob_lists sc))) = Ok tx).
Proof.
  intros Ht Hok Es Hsc. destruct (sidecar_repr tx sc Ht Hok Hsc) as [H0 H1]. pose proof maxAlloc_two64.
  pose proof (with_own_sidecar tx sc Es) as Hid. destruct sc as [ver bl co pr]. cbn [sc_Version] in *.
  split; intros -> Ha.
  - change (blob_lists ?s) with (Lst (Str <$> bl) :: [Lst (Str <$> co); Lst (Str <$> pr)]) in Ha |- *.
    rewrite BlobTx_decode_kinds by lia. rewrite decide_False by tauto. rewrite decide_True by done.
    erewrite rlp_Decode_repr; [|by apply codec_typ_in; set_solver | by apply H0 | done | by apply WithBlobsV0_of_val].
    cbn. by rewrite Hid.
  - rewrite BlobTx_decode_kinds by lia. rewrite decide_False by tauto. rewrite decide_False by done.
    erewrite rlp_Decode_repr; [|by apply codec_typ_in; set_solver | by apply H1 | done | by apply WithBlobsV1_of_val].
    cbn. by rewrite Hid.
Qed.

Lemma decode_inner tx :
  tx_fields_ok tx → tx_Sidecar tx = None → blen (tx_payload tx) <= maxAlloc →
  rlp_Decode (inner_typ tx) (inner_of tx) (tx_payload tx) = Ok tx.
Proof.
  intros Hok Hs Ha. apply (rlp_Decode_repr _ _ (tx_val tx)); [apply inner_typ_codec | by apply tx_repr | done |].
  by rewrite inner_of_val, with_None.
Qed.

(** The first field of a payload is a number. *)
Lemma BlobTx_decode_inner tx :
  txType tx = BlobTxType → blen (tx_payload tx) <= maxAlloc →
  BlobTx_decode (tx_payload tx) = rlp_Decode (inner_typ tx) (inner_of tx) (tx_payload tx).
Proof.
  intros Ht Ha. pose proof maxAlloc_two64. destruct tx as [| | |c n tip p g t x d al bf bh sc v r s|]; try done.
  unfold tx_payload in *. cbn [tx_items inner_typ inner_of] in *. rewrite BlobTx_decode_kinds by lia.
  rewrite decide_True; [done|]. unfold enc_num. cbn. by repeat case_match.
Qed.

Lemma payload_nonempty l : enc (Lst l) ≠ [].
Proof. intros E. pose proof (enc_nonempty (Lst l)) as H. rewrite E in H. cbn in H. lia. Qed.

Lemma UnmarshalBinary_bytes tx :
  tx_ok tx → blen (tx_bytes tx) <= maxAlloc → UnmarshalBinary (tx_bytes tx) = Ok tx.
Proof.
  intros [Hok Hsc] Ha. unfold tx_bytes, tx_body in *. case_decide as Hl.
  { destruct (enc_Lst_head (tx_items tx) Ha) as (b0 & r & E & Hb). unfold UnmarshalBinary.
    change (enc (Lst (tx_items tx))) with (tx_payload tx) in E. rewrite E, decide_True, <-E by done.
    assert (inner_typ tx = T_LegacyTx ∧ inner_of tx = LegacyTx_of) as [<- <-] by by destruct tx.
    apply decode_inner; [done | by destruct tx | done]. }
  rewrite blen_cons in Ha. destruct (tx_Sidecar tx) as [sc|] eqn:Es.
  - assert (txType tx = BlobTxType) as Ht by by destruct tx. rewrite UnmarshalBinary_typed by (done || apply payload_nonempty).
    rewrite decide_True by done. destruct Hsc as [Hsc Hver]. destruct (BlobTx_decode_sidecar tx sc Ht Hok Es Hsc) as [H0 H1].
    destruct Hver as [Hv|Hv]; rewrite Hv in Ha |- *; [rewrite decide_False in Ha |- * by done | rewrite decide_True in Ha |- * by done];
      [apply H0 | apply H1]; (done || lia).
  - rewrite UnmarshalBinary_typed by (done || apply payload_nonempty).
    case_decide; [rewrite BlobTx_decode_inner by (done || lia)|]; apply decode_inner; (done || lia).
Qed.

(** ** What the decoder accepts *)

Lemma sidecarless_ok tx : tx_fields_ok tx → tx_Sidecar tx = None → tx_ok tx.
Proof. intros H Hs. split; [done|]. by rewrite Hs. Qed.

Lemma sidecarless_bytes tx :
  tx_Sidecar tx = None →
  tx_bytes tx = if decide (txType tx = LegacyTxType) then tx_payload tx else z2b (txType tx) :: tx_payload tx.
Proof. intros Hs. unfold tx_bytes, tx_body. by rewrite Hs. Qed.

(** A reader of fields applied to a value of its type. *)
Lemma rlp_Decode_inner t (f : val → option TxData) b tx :
  codec_typ t = true → blen b <= maxAlloc →
  (∀ v, repr t no_Tags v b → ∃ tx', v = tx_val tx' ∧ tx_fields_ok tx' ∧ b = tx_payload tx' ∧
     tx_Sidecar tx' = None ∧ inner_typ tx' = t ∧ inner_of tx' = f) →
  rlp_Decode t f b = Ok tx →
  tx_fields_ok tx ∧ tx_Sidecar tx = None ∧ inner_typ tx = t ∧ b = tx_payload tx.
Proof.
  intros Ht Hb Hinv (v & (tx' & -> & Hok & -> & Hs & <- & <-)%Hinv & Hf)%rlp_Decode_inv; [|done..].
  rewrite inner_of_val, with_None in Hf by done. by injection Hf as <-.
Qed.

Lemma decoded_payload tx0 b tx :
  blen b <= maxAlloc → rlp_Decode (inner_typ tx0) (inner_of tx0) b = Ok tx →
  tx_fields_ok tx ∧ tx_Sidecar tx = None ∧ inner_typ tx = inner_typ tx0 ∧ b = tx_payload tx.
Proof.
  intros Hb. apply rlp_Decode_inner; [apply inner_typ_codec | done|]. intros v Hv.
  destruct tx0; cbn [inner_typ inner_of] in *.
  - apply legacy_inv in Hv as (? & ? & ? & ? & ? & ? & ? & ? & ? & -> & Hok & ->); by eexists.
  - apply accesslist_inv in Hv as (? & ? & ? & ? & ? & ? & ? & ? & ? & ? & ? & -> & Hok & ->); by eexists.
  - apply dynamicfee_inv in Hv as (? & ? & ? & ? & ? & ? & ? & ? & ? & ? & ? & ? & -> & Hok & ->); by eexists.
  - apply blob_inv in Hv as (? & ? & ? & ? & ? & ? & ? & ? & ? & ? & ? & ? & ? & ? & -> & Hok & ->); by eexists.
  - apply setcode_inv in Hv as (? & ? & ? & ? & ? & ? & ? & ? & ? & ? & ? & ? & ? & -> & Hok & ->); by eexists.
Qed.

Lemma inner_typ_inj tx tx0 : inner_typ tx = inner_typ tx0 → txType tx = txType tx0.
Proof. intros E. by destruct tx, tx0. Qed.

Lemma is_blob_with_sidecar tx sc :
  is_blob tx → sidecar_ok sc → sc_Version sc = Byte.x00 ∨ sc_Version sc = Byte.x01 →
  tx_ok (with_Sidecar (Some sc) tx) ∧ txType (with_Sidecar (Some sc) tx) = BlobTxType ∧
  tx_Sidecar (with_Sidecar (Some sc) tx) = Some sc.
Proof. intros (Ht & _ & Hok) Hsc Hv. by destruct tx. Qed.

Lemma is_blob_None tx : is_blob tx → with_Sidecar None tx = tx.
Proof. intros (_ & Hs & _). by apply with_None. Qed.

Lemma BlobTx_decode_inv b tx :
  blen b <= maxAlloc → BlobTx_decode b = Ok tx → tx_ok tx ∧ txType tx = BlobTxType ∧ b = tx_body tx.
Proof.
  intros Hb E. unfold BlobTx_decode in E. destruct (SplitList b) as [[c1 r1]| |]; try done. cbn in E.
  destruct (Split c1) as [[[k1 d1] r2]| |]; try done. cbn in E. case_decide.
  { apply (decoded_payload (ex_blob None)) in E as (Hok & Hs & Ht & ->); [|done]. split; [by apply sidecarless_ok|].
    split; [by apply (inner_typ_inj _ (ex_blob None))|]. unfold tx_body. by rewrite Hs. }
  destruct (Split r2) as [[[k2 d2] r3]| |]; try done. cbn in E. case_decide.
  - destruct (rlp_Decode T_blobTxWithBlobsV0 _ b) as [[[[[tx0 ver] bl] co] pr]| |] eqn:Ed; try done. cbn in E.
    injection E as <-. apply rlp_Decode_inv in Ed as (v & Hv & Hf); [|by apply codec_typ_in; set_solver | done].
    apply v0_iff in Hv as (tx1 & sc & Htx & Hsc & -> & -> & Hver).
    rewrite WithBlobsV0_of_val, is_blob_None in Hf by (done || apply Htx). injection Hf as <- <- <- <- <-.
    destruct sc as [ver' bl co pr]. cbn in Hver |- *. subst ver'.
    destruct (is_blob_with_sidecar _ _ Htx Hsc (or_introl eq_refl)) as (? & ? & Hs). split; [done|]. split; [done|].
    unfold tx_body. by rewrite Hs, tx_items_sidecar, decide_False.
  - destruct (rlp_Decode T_blobTxWithBlobsV1 _ b) as [[[[[tx0 ver] bl] co] pr]| |] eqn:Ed; try done. cbn in E.
    case_decide as Hv1; [done|].
    injection E as <-. apply rlp_Decode_inv in Ed as (v & Hv & Hf); [|by apply codec_typ_in; set_solver | done].
    apply v1_iff in Hv as (tx1 & ver1 & sc & Htx & _ & Hsc & -> & -> & Hver).
    rewrite WithBlobsV1_of_val, is_blob_None in Hf by (done || apply Htx). injection Hf as <- <- <- <- <-.
    assert (ver1 = 1) as -> by lia.
    destruct sc as [ver' bl co pr]. cbn in Hver |- *. subst ver'.
    destruct (is_blob_with_sidecar _ _ Htx Hsc (or_intror eq_refl)) as (? & ? & Hs). split; [done|]. split; [done|].
    unfold tx_body. by rewrite Hs, tx_items_sidecar, decide_True.
Qed.

Lemma typed_bytes t tx b :
  txType tx = b2z t → b2z t ≠ LegacyTxType → b = tx_body tx → t :: b = tx_bytes tx.
Proof.
  intros Ht Hl ->. unfold tx_bytes. rewrite decide_False by congruence. by rewrite Ht, z2b_b2z.
Qed.

Lemma decodeTyped_inv b tx : blen b <= maxAlloc → decodeTyped b = Ok tx → tx_ok tx ∧ b = tx_bytes tx.
Proof.
  intros Hb E. destruct b as [|t [|x b]]; [done..|]. rewrite blen_cons in Hb. unfold decodeTyped in E.
  cbn [drop] in E.
  assert (∀ tx0, b2z t = txType tx0 → b2z t ≠ LegacyTxType → rlp_Decode (inner_typ tx0) (inner_of tx0) (x :: b) = Ok tx →
            tx_ok tx ∧ t :: x :: b = tx_bytes tx) as Hgen.
  { intros tx0 Ht Hl (Hok & Hs & Hty & Hp)%decoded_payload; [|lia]. split; [by apply sidecarless_ok|].
    apply typed_bytes; [by rewrite Ht; apply inner_typ_inj | done|]. unfold tx_body. by rewrite Hs. }
  repeat case_decide; [| | | |done].
  - by apply (Hgen (AccessListTx 0 0 0 0 None 0 [] [] 0 0 0)); [|rewrite H|].
  - by apply (Hgen (DynamicFeeTx 0 0 0 0 0 None 0 [] [] 0 0 0)); [|rewrite H0|].
  - apply BlobTx_decode_inv in E as (Hok & Ht & Hp); [|lia]. split; [done|]. apply typed_bytes; [congruence | by rewrite H1 | done].
  - by apply (Hgen (SetCodeTx 0 0 0 0 0 [] 0 [] [] [] 0 0 0)); [|rewrite H2|].
Qed.

Lemma UnmarshalBinary_inv b tx : blen b <= maxAlloc → UnmarshalBinary b = Ok tx → tx_ok tx ∧ b = tx_bytes tx.
Proof.
  intros Hb E. unfold UnmarshalBinary in E. destruct b as [|b0 b]; [by apply decodeTyped_inv|].
  case_decide; [|by apply decodeTyped_inv].
  apply (decoded_payload (LegacyTx 0 0 0 None 0 [] 0 0 0)) in E as (Hok & Hs & Ht & Hp); [|done].
  split; [by apply sidecarless_ok|]. rewrite sidecarless_bytes, decide_True by (done || by apply inner_typ_inj in Ht). done.
Qed.
