(* ===== verification/TxWire.v ===== *)
(** * Transactions on the wire

    What the bytes of a transaction mean for its users: [MarshalBinary] and
    [UnmarshalBinary] are inverse to each other, the hash commits to the whole transaction,
    a signed transaction is attributed to its signer by the node that receives it, and what
    [Size] returns. *)
From Stdlib Require Import ZArith Lia.
From Stdlib Require Strings.Byte.
From stdpp Require Import base tactics decidable list numbers.
From S2P Require Import Prelude Keccak Common Rlp Types Transactions Stream StreamFacts Codec CodecFacts WriterFacts TxCodec TxCodecFacts.

(** ** Encoding without the sidecar *)

Lemma encode_inner_payload tx :
  tx_fields_ok tx → blen (tx_payload tx) <= maxAlloc → encode_inner tx = Ok (tx_payload tx).
Proof.
  intros Hok Ha. pose proof (rlp_Encode_repr _ _ _ (inner_typ_codec tx) (tx_repr tx Hok) Ha) as E.
  unfold rlp_Encode in E. unfold encode_inner. by case_match; simplify_eq.
Qed.

Lemma tx_payload_sidecar sc tx : tx_payload (with_Sidecar sc tx) = tx_payload tx.
Proof. unfold tx_payload. by rewrite tx_items_sidecar. Qed.

Lemma txType_sidecar sc tx : txType (with_Sidecar sc tx) = txType tx.
Proof. by destruct tx. Qed.

Lemma Sidecar_None tx : tx_Sidecar (with_Sidecar None tx) = None.
Proof. by destruct tx. Qed.

Lemma tx_fields_ok_sidecar sc tx : tx_fields_ok tx → tx_fields_ok (with_Sidecar sc tx).
Proof. by destruct tx. Qed.

Lemma canonical_ok tx : tx_ok tx → tx_ok (with_Sidecar None tx).
Proof. intros [Hok _]. apply sidecarless_ok; [by apply tx_fields_ok_sidecar | apply Sidecar_None]. Qed.

Lemma canonical_bytes tx :
  tx_bytes (with_Sidecar None tx) =
    if decide (txType tx = LegacyTxType) then tx_payload tx else z2b (txType tx) :: tx_payload tx.
Proof. by rewrite sidecarless_bytes, txType_sidecar, tx_payload_sidecar by apply Sidecar_None. Qed.

Lemma payload_le_bytes tx : blen (tx_payload tx) <= blen (tx_bytes (with_Sidecar None tx)).
Proof. rewrite canonical_bytes. case_decide; [done|]. rewrite blen_cons. lia. Qed.

Lemma tx_Hash_bytes tx :
  tx_ok tx → blen (tx_bytes (with_Sidecar None tx)) <= maxAlloc →
  tx_Hash tx = Keccak256 [tx_bytes (with_Sidecar None tx)].
Proof.
  intros [Hok _] Ha. pose proof (payload_le_bytes tx). unfold tx_Hash. rewrite encode_inner_payload by (done || lia).
  rewrite canonical_bytes. case_decide; [done|]. unfold prefixedRlpHash. rewrite Keccak256_join. cbn [mjoin list_join].
  by rewrite app_nil_r.
Qed.

(** ** Signed transactions *)

Lemma SetBytes_nonneg b : 0 <= SetBytes b.
Proof. pose proof (SetBytes_range b). lia. Qed.

Lemma setSignatureValues_ok {E} c v r s tx tx' :
  0 <= c → 0 <= v → 0 <= r → 0 <= s → tx_ok tx → setSignatureValues (E := E) c v r s tx = Ok tx' → tx_ok tx'.
Proof.
  intros Hc Hv Hr Hs [Hok Hsc] E'. assert (∀ z, is_uint 256 (u256 z)) as Hu by (intros; apply Z.mod_pos_bound; lia).
  destruct tx; cbn [setSignatureValues] in E'; try case_decide; try done; injection E' as <-; (split; [|exact Hsc]);
    cbn [tx_fields_ok] in *; destruct_and?; split_and?; done || apply Hu.
Qed.

Lemma SignatureValues_nonneg s tx sig r s' v :
  can_sign s tx → SignatureValues s tx sig = Ok (r, s', v) → 0 <= r ∧ 0 <= s' ∧ 0 <= v.
Proof.
  assert (∀ r s' v, decodeSignature sig = Ok (r, s', v) → 0 <= r ∧ 0 <= s' ∧ 0 <= v) as Hdec.
  { intros ???. unfold decodeSignature. case_decide; [done|]. intros [= <- <- <-]. split_and!; apply SetBytes_nonneg. }
  assert (∀ c r s' v, 0 < c → SignatureValues (EIP155Signer c) tx sig = Ok (r, s', v) → 0 <= r ∧ 0 <= s' ∧ 0 <= v) as Heip.
  { clear r s' v. intros c r s' v Hc. cbn [SignatureValues]. case_decide; [done|].
    destruct (decodeSignature sig) as [[[r0 s0] v0]| |]; try done. cbn. destruct (Hdec _ _ _ eq_refl) as (? & ? & ?).
    pose proof (b2z_range (z2b (b2z (nth 64 sig Byte.x00) + 35))). intros [= <- <- <-]. case_decide; lia. }
  intros Hcan E. destruct s as [| |c|types c legacy].
  - cbn in E. case_decide; [done|]. eauto.
  - cbn in E. case_decide; [done|]. eauto.
  - destruct Hcan. eauto.
  - destruct Hcan as (Hhas & Hc & Hleg). cbn [SignatureValues] in E. rewrite Hhas in E. cbn [negb] in E.
    case_decide; [subst legacy; apply (Heip c); [lia | done]|]. case_decide; [done|].
    destruct (decodeSignature sig) as [[[r0 s0] v0]| |]; try done. cbn in E. injection E as <- <- <-.
    destruct (Hdec _ _ _ eq_refl) as (? & ? & ?). pose proof (b2z_range (nth 64 sig Byte.x00)). lia.
Qed.

Lemma SignTx_ok `{Secp256k1} s tx prv tx' :
  can_sign s tx → tx_ok tx → SignTx (NewTx tx) s prv = Ok tx' → tx_ok (inner tx').
Proof.
  intros Hcan Hok E. unfold SignTx in E. destruct (Sign _ prv) as [sig| |]; try done. cbn in E.
  unfold WithSignature in E. cbn [inner NewTx] in E.
  destruct (SignatureValues s tx sig) as [[[r s'] v]| |] eqn:Ev; try done. cbn in E.
  destruct (setSignatureValues _ v r s' tx) as [cpy| |] eqn:Es; try done. injection E as <-.
  destruct (SignatureValues_nonneg _ _ _ _ _ _ Hcan Ev) as (? & ? & ?).
  refine (setSignatureValues_ok _ _ _ _ _ _ _ _ _ _ Hok Es); try done. destruct s; cbn in *; lia.
Qed.

(** ** Size *)

Lemma tx_Size_payload tx :
  tx_fields_ok tx → blen (tx_payload tx) <= maxAlloc → tx_Sidecar tx = None → tx_Size tx = blen (tx_bytes tx).
Proof.
  intros Hok Ha Hs. unfold tx_Size. rewrite encode_inner_payload, Hs, sidecarless_bytes by done.
  pose proof maxAlloc_two64. pose proof (blen_nonneg (tx_payload tx)). unfold maxAlloc, two64 in *.
  repeat case_decide; try done. rewrite blen_cons, u64_small by word_lia. lia.
Qed.

(** ** Properties *)

(** C26: a transaction whose fields are in the range of their Go types is encoded by
    [MarshalBinary] as EIP-2718 (and, with a sidecar, EIP-4844 and EIP-7594) lay it out, and
    [UnmarshalBinary] of these bytes is the transaction again: for all five types, with and
    without a blob sidecar of either version. *)
Theorem UnmarshalBinary_MarshalBinary tx :
  tx_ok tx → blen (tx_bytes tx) <= maxAlloc →
  MarshalBinary tx = Ok (tx_bytes tx) ∧ UnmarshalBinary (tx_bytes tx) = Ok tx.
Proof. intros Hok Ha. split; [by apply MarshalBinary_bytes | by apply UnmarshalBinary_bytes]. Qed.

(** C27: transactions have one encoding: whatever bytes [UnmarshalBinary] accepts are the
    bytes that [MarshalBinary] writes for the result, and the result is in the range of its
    Go types. No transaction is malleable through its encoding. *)
Theorem UnmarshalBinary_canonical b tx :
  blen b <= maxAlloc → UnmarshalBinary b = Ok tx → tx_ok tx ∧ MarshalBinary tx = Ok b.
Proof.
  intros Ha (Hok & ->)%UnmarshalBinary_inv; [|done]. split; [done|]. by apply MarshalBinary_bytes.
Qed.

(** [Hash] of a transaction is the Keccak-256 hash of its encoding without the
    sidecar, and it commits to every other field: two transactions of the same hash are
    equal up to the sidecar, or their encodings are a collision of Keccak-256. *)
Theorem tx_Hash_binds tx1 tx2 :
  tx_ok tx1 → tx_ok tx2 →
  blen (tx_bytes (with_Sidecar None tx1)) <= maxAlloc → blen (tx_bytes (with_Sidecar None tx2)) <= maxAlloc →
  tx_Hash tx1 = tx_Hash tx2 →
  with_Sidecar None tx1 = with_Sidecar None tx2 ∨
  ∃ b1 b2, MarshalBinary (with_Sidecar None tx1) = Ok b1 ∧ MarshalBinary (with_Sidecar None tx2) = Ok b2 ∧
    b1 ≠ b2 ∧ Keccak256 [b1] = Keccak256 [b2].
Proof.
  intros H1 H2 Ha1 Ha2 E. rewrite !tx_Hash_bytes in E by done.
  destruct (decide (tx_bytes (with_Sidecar None tx1) = tx_bytes (with_Sidecar None tx2))) as [Eb|Hne].
  - left. pose proof (UnmarshalBinary_bytes _ (canonical_ok tx1 H1) Ha1) as U1.
    pose proof (UnmarshalBinary_bytes _ (canonical_ok tx2 H2) Ha2) as U2. rewrite Eb, U2 in U1. by injection U1 as ->.
  - right. eexists _, _. split; [by apply MarshalBinary_bytes; [apply canonical_ok|]|].
    split; [by apply MarshalBinary_bytes; [apply canonical_ok|]|]. done.
Qed.

(** C25: what a receiving node sees of a signed transaction: for every type and kind of
    signer, the transaction [SignTx] returns is encoded, decoded back to the same
    transaction, and attributed by [Sender] to the owner of the key. The recovery id of
    the signature is 0 or 1 (the library gives 2 or 3 only when an abscissa exceeds the
    group order), and the encoding is within the decoder's allocation bound. *)
Theorem SignTx_received `{Secp256k1Laws} s tx d prv sig :
  can_sign s tx → tx_ok tx → ToECDSA d = Ok prv →
  ext_sign (Signer_Hash s tx) d = Some sig → b2z (nth 64 sig Byte.x00) < 2 →
  (∀ tx', SignTx (NewTx tx) s prv = Ok tx' → blen (tx_bytes (inner tx')) <= maxAlloc) →
  ∃ tx' b data, SignTx (NewTx tx) s prv = Ok tx' ∧ MarshalBinary (inner tx') = Ok b ∧
    UnmarshalBinary b = Ok data ∧ data = inner tx' ∧ fst (Sender s (NewTx data)) = Ok (PubkeyToAddress prv).
Proof.
  intros Hcan Hok Hkey Hsig Hv Ha. destruct (SignTx_sent_by s tx d prv sig) as (tx' & Htx & Hfrom & Hh & Hs); [done..|].
  pose proof (SignTx_ok s tx prv tx' Hcan Hok Htx) as Hok'. specialize (Ha _ Htx).
  exists tx', (tx_bytes (inner tx')), (inner tx'). split; [done|]. split; [by apply MarshalBinary_bytes|].
  split; [by apply UnmarshalBinary_bytes|]. split; [done|]. unfold Sender. cbn [NewTx from inner]. by rewrite Hs.
Qed.

(** [Size] of a transaction without sidecar is the length of its encoding. *)
Theorem tx_Size_encoded tx :
  tx_ok tx → tx_Sidecar tx = None → blen (tx_bytes tx) <= maxAlloc →
  ∃ b, MarshalBinary tx = Ok b ∧ tx_Size tx = blen b.
Proof.
  intros Hok Hs Ha. exists (tx_bytes tx). split; [by apply MarshalBinary_bytes|]. apply tx_Size_payload; [apply Hok | | done].
  pose proof (payload_le_bytes tx). rewrite with_None in * by done. lia.
Qed.

(** With a sidecar it is not: the version byte of a version 1 sidecar is left out, and the
    header of the outer list is counted for the sidecar alone. *)
Theorem tx_Size_sidecar :
  tx_Size (ex_blob (Some (MkSidecar Byte.x00 [] [] []))) = 76 ∧
  blen <$> MarshalBinary (ex_blob (Some (MkSidecar Byte.x00 [] [] []))) = Ok 77 ∧
  tx_Size (ex_blob (Some (MkSidecar Byte.x01 [] [] []))) = 76 ∧
  blen <$> MarshalBinary (ex_blob (Some (MkSidecar Byte.x01 [] [] []))) = Ok 78.
Proof. vm_compute. repeat split. Qed.

(** ** Witnesses *)

(** A blob transaction with a version 1 sidecar of one commitment. *)
Definition ex_sidecar : BlobTxSidecar := MkSidecar Byte.x01 [] [replicate 48 Byte.x02] [].

Ltac solve_fields := repeat split; repeat constructor; cbn; try done; try lia.

Lemma ex_blob_ok : tx_ok (ex_blob (Some ex_sidecar)).
Proof. split; [|split; [|by right]]; solve_fields. Qed.

Lemma ex_blob_None_ok : tx_ok (ex_blob None).
Proof. split; [|done]. solve_fields. Qed.

Lemma UnmarshalBinary_MarshalBinary_witness :
  MarshalBinary (ex_blob (Some ex_sidecar)) = Ok (tx_bytes (ex_blob (Some ex_sidecar))) ∧
  UnmarshalBinary (tx_bytes (ex_blob (Some ex_sidecar))) = Ok (ex_blob (Some ex_sidecar)).
Proof.
  apply (UnmarshalBinary_MarshalBinary (ex_blob (Some ex_sidecar))); [exact ex_blob_ok | by vm_compute].
Defined.

Lemma UnmarshalBinary_canonical_witness :
  tx_ok (ex_blob (Some ex_sidecar)) ∧
  MarshalBinary (ex_blob (Some ex_sidecar)) = Ok (tx_bytes (ex_blob (Some ex_sidecar))).
Proof. apply UnmarshalBinary_canonical; by vm_compute. Defined.

(** A transaction and the same with a sidecar have the same hash. *)
Lemma tx_Hash_binds_witness :
  with_Sidecar None (ex_blob None) = with_Sidecar None (ex_blob (Some ex_sidecar)) ∨
  ∃ b1 b2, MarshalBinary (with_Sidecar None (ex_blob None)) = Ok b1 ∧
    MarshalBinary (with_Sidecar None (ex_blob (Some ex_sidecar))) = Ok b2 ∧
    b1 ≠ b2 ∧ Keccak256 [b1] = Keccak256 [b2].
Proof.
  apply (tx_Hash_binds (ex_blob None) (ex_blob (Some ex_sidecar)));
    [exact ex_blob_None_ok | exact ex_blob_ok | by vm_compute | by vm_compute | vm_compute; reflexivity].
Defined.

Import ToySecp.

Lemma SignTx_received_witness :
  ∃ tx' b data, SignTx (NewTx toy_tx) toy_signer toy_prv = Ok tx' ∧ MarshalBinary (inner tx') = Ok b ∧
    UnmarshalBinary b = Ok data ∧ data = inner tx' ∧
    fst (Sender toy_signer (NewTx data)) = Ok (PubkeyToAddress toy_prv).
Proof.
  apply (SignTx_received toy_signer toy_tx toy_key toy_prv (toy_key ++ be_bytes 32 1 ++ [Byte.x00])).
  - split; [vm_compute; reflexivity|]. split; [lia|]. left. reflexivity.
  - split; [|done]. solve_fields.
  - vm_compute. reflexivity.
  - reflexivity.
  - vm_compute. reflexivity.
  - intros tx' E. vm_compute in E. injection E as <-. by vm_compute.
Defined.

Lemma tx_Size_encoded_witness : ∃ b, MarshalBinary (ex_blob None) = Ok b ∧ tx_Size (ex_blob None) = blen b.
Proof. apply tx_Size_encoded; [exact ex_blob_None_ok | reflexivity | by vm_compute]. Defined.
