(* ===== verification/HexKeys.v ===== *)
(** * Trie keys

    [trie/encoding.go]: the three encodings of keys. A key in hex form is a list of nibbles,
    one per byte, with the terminator 16 at the end of the key of a value. Theorems: the
    compact form is read back to the hex form it was made from, the in-place conversion,
    which overwrites the buffer it is reading, computes the same bytes as the one with a
    fresh buffer, and keys survive the conversion to hex and back. *)
From Stdlib Require Import ZArith Lia.
From Stdlib Require Strings.Byte.
From stdpp Require Import base tactics decidable list numbers.
From S2P Require Import Prelude Rlp.

(** ** Operations *)

Definition hasTerm (s : bytes) : bool :=
  match list.last s with Some b => bool_decide (b = Byte.x10) | None => false end.

(** Two nibbles, in byte arithmetic. *)
Definition nibble_pair (a b : byte) : byte := z2b (Z.lor (Z.shiftl (b2z a) 4) (b2z b)).

(** The bytes written by [decodeNibbles]; an odd number of nibbles is an index out of
    range. *)
Fixpoint decodeNibbles (nibbles : bytes) : res () bytes :=
  match nibbles with
  | [] => Ok []
  | a :: b :: rest => bs ← decodeNibbles rest; Ok (nibble_pair a b :: bs)
  | [_] => Panic
  end.

(** The flag byte [terminator << 5], with the odd flag and the first nibble. *)
Definition flag_byte (terminator : bool) (first : option byte) : byte :=
  let t := if terminator then 32 else 0 in
  match first with
  | None => z2b t
  | Some n => z2b (Z.lor (Z.lor t 16) (b2z n))
  end.

Definition hexToCompact (hex : bytes) : res () bytes :=
  let terminator := hasTerm hex in
  let hex := if terminator then take (length hex - 1) hex else hex in
  let '(first, hex) :=
    match hex with
    | n :: rest => if Nat.odd (length hex) then (Some n, rest) else (None, hex)
    | [] => (None, hex)
    end in
  bs ← decodeNibbles hex;
  Ok (flag_byte terminator first :: bs).

(** The loop of [hexToCompactInPlace]: [ni] reads and [bi] writes the same buffer. *)
Fixpoint inPlace_loop (fuel hexLen ni bi : nat) (hex : bytes) : res () bytes :=
  if decide (hexLen <= ni)%nat then Ok hex
  else
    match fuel with
    | O => Panic
    | S fuel =>
        match hex !! ni, hex !! S ni with
        | Some a, Some b =>
            if decide (bi < length hex)%nat
            then inPlace_loop fuel hexLen (ni + 2) (bi + 1) (<[bi := nibble_pair a b]> hex)
            else Panic
        | _, _ => Panic
        end
    end.

Definition hexToCompactInPlace (hex : bytes) : res () bytes :=
  let term := hasTerm hex in
  let hexLen := if term then (length hex - 1)%nat else length hex in
  let binLen := (hexLen / 2 + 1)%nat in
  let first := if Nat.odd hexLen then hex !! 0%nat else None in
  let ni := if Nat.odd hexLen then 1%nat else 0%nat in
  hex ← inPlace_loop hexLen hexLen ni 1 hex;
  match hex with
  | [] => Panic
  | _ :: rest => Ok (take binLen (flag_byte term first :: rest))
  end.

Definition nibbles_of (b : byte) : bytes := [z2b (b2z b / 16); z2b (b2z b mod 16)].

Definition keybytesToHex (str : bytes) : bytes := (str ≫= nibbles_of) ++ [Byte.x10].

(** [writeHexKey] without its buffer, which [grow] makes large enough. *)
Definition writeHexKey (key : bytes) : bytes := key ≫= nibbles_of.

Definition compactToHex (compact : bytes) : bytes :=
  if decide (compact = []) then compact
  else
    let base := keybytesToHex compact in
    let b0 := b2z (hd Byte.x00 base) in
    let base := if decide (b0 < 2) then take (length base - 1) base else base in
    drop (Z.to_nat (2 - Z.land b0 1)) base.

Definition hexToKeybytes (hex : bytes) : res () bytes :=
  let hex := if hasTerm hex then take (length hex - 1) hex else hex in
  if Nat.odd (length hex) then Panic else decodeNibbles hex.

Fixpoint prefixLen (a b : bytes) : nat :=
  match a, b with
  | x :: a, y :: b => if decide (x = y) then S (prefixLen a b) else 0
  | _, _ => 0
  end.

(** ** Well-formed keys *)

Definition is_nibble (b : byte) : Prop := b2z b < 16.

(** The hex form of a key: nibbles and, for a value, the terminator. *)
Definition hex_ok (term : bool) (l : bytes) : Prop :=
  ∃ ns, Forall is_nibble ns ∧ l = ns ++ (if term then [Byte.x10] else []).

Lemma hasTerm_snoc l : hasTerm (l ++ [Byte.x10]) = true.
Proof. unfold hasTerm. by rewrite last_snoc. Qed.

Lemma hasTerm_nibbles l : Forall is_nibble l → hasTerm l = false.
Proof.
  intros H. unfold hasTerm. destruct (list.last l) as [b|] eqn:E; [|done].
  apply last_Some_elem_of in E. rewrite list.Forall_forall in H. specialize (H _ E). apply bool_decide_eq_false_2. by intros ->.
Qed.

Lemma hasTerm_hex term l : hex_ok term l → hasTerm l = term.
Proof.
  intros (ns & H & ->). destruct term; [apply hasTerm_snoc|]. rewrite app_nil_r. by apply hasTerm_nibbles.
Qed.

Lemma chop_term {A} (l : list A) x : take (length (l ++ [x]) - 1) (l ++ [x]) = l.
Proof. rewrite length_app. cbn. replace (length l + 1 - 1)%nat with (length l) by lia. apply take_app_length. Qed.

(** ** Nibbles and bytes *)

Lemma is_nibble_dec b : is_nibble b ∨ 16 <= b2z b.
Proof. unfold is_nibble. lia. Qed.

Lemma nibble_pair_val a b : is_nibble a → is_nibble b → b2z (nibble_pair a b) = b2z a * 16 + b2z b.
Proof.
  unfold is_nibble, nibble_pair. intros. pose proof (b2z_range a). pose proof (b2z_range b).
  rewrite b2z_z2b, lor_shiftl_add by (cbn; lia). change (2 ^ 4) with 16. apply Z.mod_small. lia.
Qed.

Lemma nibbles_of_pair a b : is_nibble a → is_nibble b → nibbles_of (nibble_pair a b) = [a; b].
Proof.
  intros Ha Hb. unfold nibbles_of. rewrite nibble_pair_val by done. unfold is_nibble in *.
  pose proof (b2z_range a). pose proof (b2z_range b).
  rewrite Z.div_add_l, (Z.div_small (b2z b)), Z.add_0_r by lia. rewrite (Z.add_comm (b2z a * 16)), Z.mod_add, Z.mod_small by lia.
  by rewrite !z2b_b2z.
Qed.

Lemma pair_nibbles_of x : ∃ a b, nibbles_of x = [a; b] ∧ is_nibble a ∧ is_nibble b ∧ nibble_pair a b = x.
Proof.
  pose proof (b2z_range x). exists (z2b (b2z x / 16)), (z2b (b2z x mod 16)). split; [done|].
  assert (b2z x / 16 < 16) by (apply Z.div_lt_upper_bound; lia). assert (0 <= b2z x / 16) by (apply Z.div_pos; lia).
  pose proof (Z.mod_pos_bound (b2z x) 16 ltac:(lia)).
  assert (is_nibble (z2b (b2z x / 16))) by (unfold is_nibble; rewrite b2z_z2b, Z.mod_small; lia).
  assert (is_nibble (z2b (b2z x mod 16))) by (unfold is_nibble; rewrite b2z_z2b, (Z.mod_small _ 256); lia).
  split; [done|]. split; [done|]. apply b2z_inj. rewrite nibble_pair_val, !b2z_z2b by done.
  rewrite !(Z.mod_small _ 256) by lia. pose proof (Z.div_mod (b2z x) 16 ltac:(lia)). lia.
Qed.

Lemma decodeNibbles_ok l :
  Forall is_nibble l → Nat.even (length l) = true → ∃ bs, decodeNibbles l = Ok bs ∧ bs ≫= nibbles_of = l.
Proof.
  revert l. fix IH 1. intros [|a [|b l]] Hl He; [by exists []|done|].
  apply Forall_cons_1 in Hl as [Ha Hl]. apply Forall_cons_1 in Hl as [Hb Hl].
  destruct (IH l Hl He) as (bs & E & Hbs). exists (nibble_pair a b :: bs). cbn. rewrite E. split; [done|].
  change (nibbles_of (nibble_pair a b) ++ (bs ≫= nibbles_of) = a :: b :: l). by rewrite nibbles_of_pair, Hbs.
Qed.

Lemma decodeNibbles_nibbles str : decodeNibbles (str ≫= nibbles_of) = Ok str.
Proof.
  induction str as [|x str IH]; [done|]. cbn [mbind list_bind]. destruct (pair_nibbles_of x) as (a & b & -> & _ & _ & Hx).
  cbn. rewrite IH. cbn. by rewrite Hx.
Qed.

Lemma keybytes_nibbles str : Forall is_nibble (str ≫= nibbles_of).
Proof.
  induction str as [|x str IH]; [done|]. cbn [mbind list_bind]. destruct (pair_nibbles_of x) as (a & b & -> & Ha & Hb & _).
  by repeat constructor.
Qed.

Lemma keybytesToHex_ok str : hex_ok true (keybytesToHex str).
Proof. exists (str ≫= nibbles_of). split; [apply keybytes_nibbles | done]. Qed.

Lemma length_keybytes str : length (str ≫= nibbles_of) = (2 * length str)%nat.
Proof. induction str as [|x str IH]; [done|]. cbn [mbind list_bind]. rewrite length_app, IH. cbn. lia. Qed.

Lemma keybytesToHex_inj k1 k2 : keybytesToHex k1 = keybytesToHex k2 → k1 = k2.
Proof.
  unfold keybytesToHex. intros E. apply app_inj_2 in E as [E _]; [|done].
  pose proof (decodeNibbles_nibbles k1) as H1. rewrite E, decodeNibbles_nibbles in H1. by injection H1.
Qed.

(** ** The compact form *)

Lemma flag_byte_even t : b2z (flag_byte t None) = if t then 32 else 0.
Proof. by destruct t. Qed.

Lemma flag_byte_odd t n : is_nibble n → b2z (flag_byte t (Some n)) = (if t then 48 else 16) + b2z n.
Proof.
  unfold is_nibble, flag_byte. intros Hn. pose proof (b2z_range n).
  replace (Z.lor (if t then 32 else 0) 16) with (Z.shiftl (if t then 3 else 1) 4) by (by destruct t).
  rewrite b2z_z2b, lor_shiftl_add by (cbn; lia). change (2 ^ 4) with 16. destruct t; rewrite Z.mod_small; lia.
Qed.

(** The compact form: the flag byte, and the remaining nibbles in pairs. *)
Lemma hexToCompact_shape (term : bool) ns :
  Forall is_nibble ns →
  ∃ first rest bs, ns = option_list first ++ rest ∧ Nat.even (length rest) = true ∧
    bs ≫= nibbles_of = rest ∧
    hexToCompact (ns ++ (if term then [Byte.x10] else [])) = Ok (flag_byte term first :: bs).
Proof.
  intros Hns. unfold hexToCompact. rewrite (hasTerm_hex term) by (by exists ns).
  replace (if term then take _ _ else _) with ns by (destruct term; [by rewrite chop_term | by rewrite app_nil_r]).
  destruct ns as [|n ns]; [exists (@None byte), ([] : bytes), ([] : bytes); by repeat split|].
  destruct (Nat.odd (length (n :: ns))) eqn:Ho.
  - apply Forall_cons_1 in Hns as [Hn Hns]. rewrite <-Nat.even_succ in Ho.
    assert (Nat.even (length ns) = true) as He by done.
    destruct (decodeNibbles_ok ns Hns He) as (bs & Hd & Hbs). exists (Some n), ns, bs. by rewrite Hd.
  - assert (Nat.even (length (n :: ns)) = true) as He by (rewrite <-Nat.negb_odd, Ho; done).
    destruct (decodeNibbles_ok (n :: ns) Hns He) as (bs & Hd & Hbs). exists (@None byte), (n :: ns), bs. by rewrite Hd.
Qed.

Lemma compactToHex_flag flag bs h lo :
  nibbles_of flag = [h; lo] →
  compactToHex (flag :: bs) =
    drop (Z.to_nat (2 - Z.land (b2z h) 1))
      ((h :: lo :: (bs ≫= nibbles_of)) ++ (if decide (b2z h < 2) then [] else [Byte.x10])).
Proof.
  intros E. unfold compactToHex. rewrite decide_False by done.
  replace (keybytesToHex (flag :: bs)) with ((h :: lo :: (bs ≫= nibbles_of)) ++ [Byte.x10]).
  - cbn [hd app]. case_decide; [|done]. f_equal.
    change (h :: lo :: ?l) with ((h :: lo :: (bs ≫= nibbles_of)) ++ [Byte.x10]) at 1 2.
    rewrite app_nil_r. apply (chop_term (h :: lo :: _)).
  - unfold keybytesToHex. cbn [mbind list_bind]. by rewrite E.
Qed.

Lemma flag_nibbles (term : bool) (first : option byte) :
  (∀ n, first = Some n → is_nibble n) →
  ∃ h lo, nibbles_of (flag_byte term first) = [h; lo] ∧
    b2z h = (if term then 2 else 0) + (if first then 1 else 0) ∧
    (∀ n, first = Some n → lo = n).
Proof.
  intros Hf. destruct first as [n|].
  - specialize (Hf n eq_refl). unfold is_nibble in Hf. pose proof (b2z_range n).
    eexists _, _. split; [done|]. rewrite flag_byte_odd, b2z_z2b by done. split.
    + destruct term; [change 48 with (3 * 16) | change 16 with (1 * 16) at 1];
        rewrite Z.div_add_l, (Z.div_small (b2z n)) by lia; done.
    + intros ? [= <-]. apply b2z_inj. rewrite b2z_z2b.
      destruct term; [change 48 with (3 * 16) | change 16 with (1 * 16) at 1];
        rewrite Z.add_comm, Z.mod_add, !Z.mod_small by (try rewrite Z.mod_small; lia); done.
  - eexists _, _. split; [done|]. rewrite flag_byte_even. by destruct term.
Qed.

Lemma compact_roundtrip term l :
  hex_ok term l → ∃ c, hexToCompact l = Ok c ∧ c ≠ [] ∧ compactToHex c = l.
Proof.
  intros (ns & Hns & ->). destruct (hexToCompact_shape term ns Hns) as (first & rest & bs & Hsp & He & Hbs & ->).
  eexists. split; [done|]. split; [done|].
  assert (∀ n, first = Some n → is_nibble n) as Hf.
  { intros n ->. rewrite Hsp in Hns. cbn in Hns. by apply Forall_cons_1 in Hns as [? _]. }
  destruct (flag_nibbles term first Hf) as (h & lo & En & Eh & Elo).
  rewrite (compactToHex_flag _ _ h lo En), Eh, Hbs, Hsp.
  destruct first as [n|]; [rewrite (Elo n eq_refl)|]; destruct term; done.
Qed.

(** ** The in-place conversion *)

Lemma decodeNibbles_cons2 a b l bs :
  decodeNibbles (a :: b :: l) = Ok bs → ∃ bs', bs = nibble_pair a b :: bs' ∧ decodeNibbles l = Ok bs'.
Proof. intros (bs' & E & [= <-])%bind_Ok. eauto. Qed.

(** The writes stay behind the reads: at [bi <= ni + 1] the nibbles that are still to be
    read, [ns], are where they were. *)
Lemma inPlace_loop_spec ns : ∀ fuel bi ni hex bs tail,
  decodeNibbles ns = Ok bs → (length ns <= fuel)%nat → (bi <= ni + 1)%nat → (bi <= length hex)%nat →
  drop ni hex = ns ++ tail →
  ∃ hex', inPlace_loop fuel (ni + length ns) ni bi hex = Ok hex' ∧ take bi hex' = take bi hex ∧
    take (length bs) (drop bi hex') = bs ∧ length hex' = length hex.
Proof.
  induction ns as [ns IH] using (induction_ltof1 _ length). unfold ltof in IH.
  intros fuel bi ni hex bs tail Hd Hf Hbi Hlen Hdrop. destruct ns as [|a [|b ns]]; [|done|].
  { injection Hd as <-. exists hex. split; [|done]. unfold inPlace_loop. destruct fuel; rewrite decide_True by (cbn; lia); done. }
  apply decodeNibbles_cons2 in Hd as (bs' & -> & Hd). destruct fuel as [|fuel]; [cbn in Hf; lia|].
  assert (hex !! ni = Some a) as Ha by (rewrite <-(Nat.add_0_r ni), <-lookup_drop, Hdrop; done).
  assert (hex !! S ni = Some b) as Hb by (rewrite <-Nat.add_1_r, <-lookup_drop, Hdrop; done).
  assert (length hex = ni + length (a :: b :: ns ++ tail))%nat as Hlh.
  { assert (length (drop ni hex) = length (a :: b :: ns ++ tail)) as E by by rewrite Hdrop.
    rewrite length_drop in E. apply lookup_lt_Some in Ha. cbn in *. lia. }
  cbn [inPlace_loop]. rewrite decide_False by (cbn; lia). rewrite Ha, Hb. cbn [length] in *. rewrite decide_True by lia.
  destruct (IH ns ltac:(cbn; lia) fuel (bi + 1)%nat (ni + 2)%nat (<[bi:=nibble_pair a b]> hex) bs' tail)
    as (hex' & E & Htake & Hbs & Hl); [done|lia|lia|rewrite length_insert; lia| |].
  { rewrite drop_insert_lt by lia. replace (ni + 2)%nat with (2 + ni)%nat by lia. rewrite Nat.add_comm, <-drop_drop, Hdrop. done. }
  exists hex'. rewrite length_insert in Hl. split; [|split; [|split; [|done]]].
  - rewrite <-E. f_equal. lia.
  - assert (take bi (take (bi + 1) hex') = take bi (take (bi + 1) (<[bi:=nibble_pair a b]> hex))) as Et by by rewrite Htake.
    rewrite !take_take, !Nat.min_l in Et by lia. rewrite Et. apply take_insert_ge. lia.
  - assert (hex' !! bi = Some (nibble_pair a b)) as Hbi'.
    { rewrite <-(lookup_take_lt _ (bi + 1)), Htake, lookup_take_lt by lia. apply list_lookup_insert_eq. lia. }
    rewrite (drop_S _ _ _ Hbi'). cbn [length take]. f_equal. by rewrite <-Nat.add_1_r.
Qed.

Lemma inPlace_compact hex c :
  hex ≠ [] → hexToCompact hex = Ok c → hexToCompactInPlace hex = Ok c.
Proof.
  intros Hne Hc. unfold hexToCompactInPlace. unfold hexToCompact in Hc.
  set (body := if hasTerm hex then take (length hex - 1) hex else hex) in *.
  assert (∃ tail, hex = body ++ tail) as [tail Hbody].
  { unfold body. destruct (hasTerm hex); [|exists []; by rewrite app_nil_r]. eexists. symmetry. apply take_drop. }
  assert ((if hasTerm hex then (length hex - 1)%nat else length hex) = length body) as ->.
  { unfold body. destruct (hasTerm hex); [rewrite length_take; lia | done]. }
  assert ((if Nat.odd (length body) then hex !! 0%nat else None) = (if Nat.odd (length body) then body !! 0%nat else None)) as ->.
  { rewrite Hbody. by destruct body. }
  clearbody body. destruct (match body with [] => _ | _ => _ end) as [first ns] eqn:Esp.
  apply bind_Ok in Hc as (bs & Hd & [= <-]).
  set (ni := if Nat.odd (length body) then 1%nat else 0%nat).
  assert (first = (if Nat.odd (length body) then body !! 0%nat else None) ∧ ns = drop ni body ∧
          length body = ni + length ns)%nat as (-> & Hns & Hlb).
  { unfold ni. destruct body as [|n body]; [by injection Esp as <- <-|].
    destruct (Nat.odd (length (n :: body))); injection Esp as <- <-; done. }
  rewrite Hlb at 2. destruct (inPlace_loop_spec ns (length body) 1 ni hex bs tail) as (hex' & E & _ & Hbs & Hl).
  - done.
  - lia.
  - lia.
  - destruct hex; [done | cbn; lia].
  - rewrite Hbody, drop_app_le by lia. by rewrite <-Hns.
  - rewrite E. cbn [mbind res_bind]. destruct hex' as [|x hex']; [by destruct hex|].
    assert (length ns = 2 * length bs)%nat as Hln.
    { clear -Hd. revert ns bs Hd. fix IH 1. intros [|a [|b ns]] bs Hd; [by injection Hd as <-|done|].
      apply decodeNibbles_cons2 in Hd as (bs' & -> & Hd). cbn. rewrite (IH _ _ Hd). lia. }
    assert (length body / 2 = length bs)%nat as Hhalf.
    { rewrite Hlb, Hln. unfold ni. destruct (Nat.odd (length body)).
      - rewrite Nat.add_comm, Nat.mul_comm, Nat.div_add_l by lia. cbn. lia.
      - rewrite Nat.mul_comm, Nat.add_0_l, Nat.div_mul by lia. done. }
    rewrite Nat.add_1_r, Hhalf. cbn [take]. cbn in Hbs. rewrite drop_0 in Hbs. by rewrite Hbs.
Qed.

(** ** Properties *)

(** The compact form of a key is read back to the key it was made from, and the
    conversion that writes into the buffer it reads gives the same bytes as the one that
    allocates: its writes never overtake its reads. *)
Theorem hexToCompact_roundtrip term l :
  hex_ok term l → l ≠ [] →
  ∃ c, hexToCompact l = Ok c ∧ hexToCompactInPlace l = Ok c ∧ compactToHex c = l.
Proof.
  intros Hl Hne. destruct (compact_roundtrip term l Hl) as (c & Hc & _ & Hr). exists c. split; [done|].
  split; [by apply inPlace_compact | done].
Qed.

Lemma hexToCompact_roundtrip_witness :
  ∃ c, hexToCompact [Byte.x01; Byte.x0f; Byte.x05; Byte.x10] = Ok c ∧
    hexToCompactInPlace [Byte.x01; Byte.x0f; Byte.x05; Byte.x10] = Ok c ∧
    compactToHex c = [Byte.x01; Byte.x0f; Byte.x05; Byte.x10].
Proof.
  apply (hexToCompact_roundtrip true); [|done]. exists [Byte.x01; Byte.x0f; Byte.x05]. split; [|done].
  by repeat constructor.
Defined.

(** Keys in hex form determine the key. *)
Theorem hexToKeybytes_roundtrip key : hexToKeybytes (keybytesToHex key) = Ok key.
Proof.
  unfold hexToKeybytes. rewrite (hasTerm_hex true) by apply keybytesToHex_ok. unfold keybytesToHex.
  rewrite chop_term, length_keybytes, decodeNibbles_nibbles. by rewrite Nat.odd_mul.
Qed.
