(* ===== verification/RadixTree.v ===== *)
(** * Radix trees with sixteen-way branches

    The specification side of the Merkle Patricia trie: a tree without cached hashes and
    without references into a database, what it maps keys to ([find]), insertion and
    removal as [trie/trie.go] performs them on nodes in memory ([tinsert], [tdelete]), and
    the canonical form ([wf]). The theorems: the two operations act on the mapping as on a
    finite map and keep the canonical form, and the canonical form is determined by the
    mapping, so that a tree does not remember its history. *)
From Stdlib Require Import ZArith Lia.
From Stdlib Require Strings.Byte.
From stdpp Require Import base tactics decidable list numbers.
From S2P Require Import Prelude HexKeys.

(** ** Trees *)

Inductive tree : Type :=
| TNil
| TValue (v : bytes)
| TShort (k : bytes) (t : tree)
| TFull (ch : list tree).

Section tree_induction.
Context (P : tree → Prop).
Context (Hnil : P TNil) (Hvalue : ∀ v, P (TValue v)) (Hshort : ∀ k t, P t → P (TShort k t)).
Context (Hfull : ∀ ch, Forall P ch → P (TFull ch)).

Fixpoint tree_ind' (t : tree) : P t :=
  match t with
  | TNil => Hnil
  | TValue v => Hvalue v
  | TShort k t => Hshort k t (tree_ind' t)
  | TFull ch => Hfull ch ((fix go (l : list tree) : Forall P l :=
      match l with
      | [] => Forall_nil_2 P
      | t :: l => Forall_cons_2 P t l (tree_ind' t) (go l)
      end) ch)
  end.
End tree_induction.

#[export] Instance tree_eq_dec : EqDecision tree.
Proof.
  refine (fix go (t1 t2 : tree) : Decision (t1 = t2) :=
    match t1, t2 with
    | TNil, TNil => left eq_refl
    | TValue v1, TValue v2 => cast_if (decide (v1 = v2))
    | TShort k1 t1, TShort k2 t2 => cast_if_and (decide (k1 = k2)) (go t1 t2)
    | TFull l1, TFull l2 => cast_if ((fix gol (l1 l2 : list tree) : Decision (l1 = l2) :=
        match l1, l2 with
        | [], [] => left eq_refl
        | t1 :: l1, t2 :: l2 => cast_if_and (go t1 t2) (gol l1 l2)
        | _, _ => right _
        end) l1 l2)
    | _, _ => right _
    end); clear gol go || idtac; abstract congruence.
Defined.

(** The index of a nibble among the children. *)
Definition nib (x : byte) : nat := Z.to_nat (b2z x).

Definition key_prefix (k key : bytes) : bool := bool_decide (take (length k) key = k).

Fixpoint find (t : tree) (key : bytes) : option bytes :=
  match t with
  | TNil => None
  | TValue v => Some v
  | TShort k t => if key_prefix k key then find t (drop (length k) key) else None
  | TFull ch =>
      match key with
      | [] => None
      | x :: key =>
          (fix go (l : list tree) (i : nat) : option bytes :=
            match l, i with
            | [], _ => None
            | t :: _, O => find t key
            | _ :: l, S i => go l i
            end) ch (nib x)
      end
  end.

Definition is_TNil (t : tree) : bool := match t with TNil => true | _ => false end.

(** What [insert] makes of a part of a split key: the subtree itself when no key is left. *)
Definition short_of (k : bytes) (t : tree) : tree := match k with [] => t | _ => TShort k t end.

Definition empty_ch : list tree := replicate 17 TNil.

(** A branch below [k] at the first difference [m] of the keys [k] and [key]. *)
Definition branch_of (m : nat) (k : bytes) (t : tree) (key : bytes) (v : bytes) : tree :=
  match k !! m, key !! m with
  | Some x, Some y =>
      short_of (take m key)
        (TFull (<[nib y := short_of (drop (S m) key) (TValue v)]>
                 (<[nib x := short_of (drop (S m) k) t]> empty_ch)))
  | _, _ => TNil
  end.

Fixpoint tinsert (t : tree) (key : bytes) (v : bytes) : tree :=
  match key with
  | [] => TValue v
  | x :: key' =>
      match t with
      | TNil => TShort key (TValue v)
      | TValue _ => t
      | TShort k t' =>
          let m := prefixLen key k in
          if decide (m = length k) then TShort k (tinsert t' (drop m key) v)
          else branch_of m k t' key v
      | TFull ch => TFull (alter (λ c, tinsert c key' v) (nib x) ch)
      end
  end.

(** A short node above [t]: keys of nested short nodes are joined. *)
Definition short_above (k : bytes) (t : tree) : tree :=
  match t with
  | TShort k' t' => TShort (k ++ k') t'
  | _ => TShort k t
  end.

(** The children that are left. *)
Fixpoint entries (i : nat) (ch : list tree) : list (nat * tree) :=
  match ch with
  | [] => []
  | t :: ch => if is_TNil t then entries (S i) ch else (i, t) :: entries (S i) ch
  end.

(** A branch after a removal: with one child left it becomes a short node. *)
Definition reduce (ch : list tree) : tree :=
  match entries 0 ch with
  | [(i, t)] => if decide (i = 16%nat) then TShort [Byte.x10] t else short_above [z2b (Z.of_nat i)] t
  | _ => TFull ch
  end.

Fixpoint tdelete (t : tree) (key : bytes) : tree :=
  match t with
  | TNil => TNil
  | TValue _ => TNil
  | TShort k t' =>
      let m := prefixLen key k in
      if decide (m < length k)%nat then t
      else if decide (m = length key) then TNil
      else short_above k (tdelete t' (drop (length k) key))
  | TFull ch =>
      match key with
      | [] => t
      | x :: key' =>
          let ch' := alter (λ c, tdelete c key') (nib x) ch in
          if is_TNil (default TNil (ch' !! nib x)) then reduce ch' else TFull ch'
      end
  end.

(** ** Canonical form *)

Definition is_full (t : tree) : Prop := match t with TFull _ => True | _ => False end.
Definition is_value (t : tree) : Prop := match t with TValue v => v ≠ [] | _ => False end.

Definition leaf_key (k : bytes) : Prop := ∃ ns, Forall is_nibble ns ∧ k = ns ++ [Byte.x10].

Fixpoint wf (t : tree) : Prop :=
  match t with
  | TNil | TValue _ => False
  | TShort k t' => (leaf_key k ∧ is_value t') ∨ (k ≠ [] ∧ Forall is_nibble k ∧ is_full t' ∧ wf t')
  | TFull ch =>
      length ch = 17%nat ∧ (2 <= length (entries 0 ch))%nat ∧
      (fix go (l : list tree) (n : nat) : Prop :=
        match l with
        | [] => True
        | t :: l =>
            (t = TNil ∨ (if decide (n = 16%nat) then is_value t else wf t)) ∧ go l (S n)
        end) ch 0%nat
  end.

(** A child of a branch: a value at the last place, a tree elsewhere. *)
Definition slot_ok (i : nat) (t : tree) : Prop :=
  t = TNil ∨ (if decide (i = 16%nat) then is_value t else wf t).

Definition root_ok (t : tree) : Prop := t = TNil ∨ wf t.

(** Keys: nibbles and the terminator; [key_ok] are the keys of a tree at a branch. *)
Definition key_ok (key : bytes) : Prop := leaf_key key.

Lemma wf_TFull ch :
  wf (TFull ch) ↔ length ch = 17%nat ∧ (2 <= length (entries 0 ch))%nat ∧ (∀ i t, ch !! i = Some t → slot_ok i t).
Proof.
  cbn [wf]. set (go := fix go (l : list tree) (n : nat) : Prop := _).
  assert (∀ l n, go l n ↔ ∀ i t, l !! i = Some t → slot_ok (n + i) t) as Hgo.
  { induction l as [|t l IH]; intros n; cbn [go]; [split; [done|]; intros; done|]. rewrite IH. split.
    - intros [Ht Hl] [|i] t' E.
      + injection E as <-. by rewrite Nat.add_0_r.
      + replace (n + S i)%nat with (S n + i)%nat by lia. by apply Hl.
    - intros H. split.
      + specialize (H 0%nat t eq_refl). by rewrite Nat.add_0_r in H.
      + intros i t' E. replace (S n + i)%nat with (n + S i)%nat by lia. by apply H. }
  rewrite Hgo. naive_solver.
Qed.

(** ** Keys *)

Lemma nib_inj x y : nib x = nib y → x = y.
Proof. unfold nib. intros H. pose proof (b2z_range x). pose proof (b2z_range y). apply b2z_inj. lia. Qed.

Lemma nib_nibble x : is_nibble x → (nib x < 16)%nat.
Proof. unfold is_nibble, nib. pose proof (b2z_range x). lia. Qed.

Lemma nib_z2b i : (i < 256)%nat → nib (z2b (Z.of_nat i)) = i.
Proof. intros. unfold nib. rewrite b2z_z2b, Z.mod_small; lia. Qed.

Lemma nib_term : nib Byte.x10 = 16%nat.
Proof. reflexivity. Qed.

Lemma term_not_nibble : ¬ is_nibble Byte.x10.
Proof. done. Qed.

Lemma key_ok_cons x key : key_ok (x :: key) ↔ (is_nibble x ∧ key_ok key) ∨ (x = Byte.x10 ∧ key = []).
Proof.
  split.
  - intros ([|n ns] & Hns & E); [right; by injection E as -> ->|]. injection E as -> ->.
    apply Forall_cons_1 in Hns as [Hn Hns]. left. split; [done|]. by exists ns.
  - intros [[Hx (ns & Hns & ->)]|[-> ->]]; [exists (x :: ns) | exists []]; by repeat constructor.
Qed.

Lemma key_ok_nonempty key : key_ok key → key ≠ [].
Proof. intros (ns & _ & ->). by destruct ns. Qed.

Lemma key_ok_app ns key : Forall is_nibble ns → key_ok (ns ++ key) ↔ key_ok key.
Proof.
  induction 1 as [|n ns Hn Hns IH]; [done|]. cbn. rewrite key_ok_cons, IH. split; [|by left].
  intros [[_ ?]|[-> _]]; [done | by destruct term_not_nibble].
Qed.

(** No key extends another one. *)
Lemma key_ok_prefix key r : key_ok key → key_ok (key ++ r) → r = [].
Proof.
  induction key as [|x key IH]; [by intros ?%key_ok_nonempty|]. intros H1 H2. cbn in H2.
  rewrite key_ok_cons in H1, H2. destruct H1 as [[Hx H1]|[-> ->]], H2 as [[Hx' H2]|[E H2]].
  - by apply IH.
  - subst. by destruct term_not_nibble.
  - by destruct term_not_nibble.
  - done.
Qed.

Lemma key_prefix_spec k key : key_prefix k key = true ↔ ∃ r, key = k ++ r.
Proof.
  unfold key_prefix. rewrite bool_decide_eq_true. split.
  - intros E. exists (drop (length k) key). rewrite <-E at 1. by rewrite take_drop.
  - intros [r ->]. apply take_app_length.
Qed.

Lemma key_prefix_app k r : key_prefix k (k ++ r) = true.
Proof. apply key_prefix_spec. by exists r. Qed.

Lemma key_prefix_false k key : (∀ r, key ≠ k ++ r) → key_prefix k key = false.
Proof. intros H. destruct (key_prefix k key) eqn:E; [|done]. apply key_prefix_spec in E as [r E]. by destruct (H r). Qed.

(** The common prefix: all of [b], or up to a difference, or all of [a]. *)
Lemma prefixLen_cases a b :
  (prefixLen a b = length b ∧ ∃ r, a = b ++ r) ∨
  (∃ p x y ra rb, a = p ++ x :: ra ∧ b = p ++ y :: rb ∧ x ≠ y ∧ prefixLen a b = length p) ∨
  (∃ y rb, b = a ++ y :: rb ∧ prefixLen a b = length a).
Proof.
  revert b. induction a as [|x a IH]; intros b.
  - destruct b as [|y b]; [left; split; [done|]; by exists [] | right; right; by exists y, b].
  - destruct b as [|y b]; [left; split; [done|]; by exists (x :: a)|]. cbn [prefixLen]. case_decide as E.
    + subst y. destruct (IH b) as [[E [r ->]]|[(p & x' & y' & ra & rb & -> & -> & Hne & E)|(y' & rb & -> & E)]]; rewrite E.
      * left. split; [done|]. by exists r.
      * right. left. by exists (x :: p), x', y', ra, rb.
      * right. right. by exists y', rb.
    + right. left. by exists [], x, y, a, b.
Qed.

Lemma prefixLen_full a b : prefixLen a b = length b → ∃ r, a = b ++ r.
Proof.
  destruct (prefixLen_cases a b) as [[_ ?]|[(p & ? & ? & ? & ? & _ & -> & _ & ->)|(? & ? & -> & ->)]]; [done|..];
    rewrite length_app; cbn; lia.
Qed.

Lemma prefixLen_app b r : prefixLen (b ++ r) b = length b.
Proof. induction b as [|x b IH]; [by destruct r|]. cbn. by rewrite decide_True, IH. Qed.

(** ** Lookups *)

Lemma find_TFull ch x key : find (TFull ch) (x :: key) = ch !! nib x ≫= λ t, find t key.
Proof.
  cbn [find]. generalize (nib x). induction ch as [|t ch IH]; intros [|i]; cbn; done || apply IH.
Qed.

Lemma find_TShort_app k t r : find (TShort k t) (k ++ r) = find t r.
Proof. cbn. by rewrite key_prefix_app, drop_app_length. Qed.

Lemma find_TShort_None k t key : (∀ r, key ≠ k ++ r) → find (TShort k t) key = None.
Proof. intros H. cbn. by rewrite key_prefix_false. Qed.

Lemma find_short_of k t key : find (short_of k t) key = find (TShort k t) key.
Proof. destruct k; [|done]. cbn. by rewrite drop_0. Qed.

Lemma find_short_above k t key : find (short_above k t) key = find (TShort k t) key.
Proof.
  destruct t as [| |k' t|]; try done. cbn [short_above].
  destruct (key_prefix k key) eqn:E1; cycle 1.
  { cbn [find]. rewrite E1. destruct (key_prefix (k ++ k') key) eqn:E2; [|done].
    apply key_prefix_spec in E2 as [r ->]. by rewrite <-app_assoc, key_prefix_app in E1. }
  apply key_prefix_spec in E1 as [r ->]. rewrite find_TShort_app. destruct (key_prefix k' r) eqn:E2.
  - apply key_prefix_spec in E2 as [r' ->]. rewrite find_TShort_app. rewrite app_assoc. by rewrite find_TShort_app.
  - cbn [find]. rewrite E2. destruct (key_prefix (k ++ k') (k ++ r)) eqn:E3; [|done].
    apply key_prefix_spec in E3 as [r' E3]. rewrite <-app_assoc in E3. apply app_inv_head in E3 as ->.
    by rewrite key_prefix_app in E2.
Qed.

(** ** Entries of a branch *)

Lemma is_TNil_spec t : is_TNil t = true ↔ t = TNil.
Proof. by destruct t. Qed.

Lemma entries_spec n ch i t : (i, t) ∈ entries n ch ↔ (n <= i)%nat ∧ ch !! (i - n)%nat = Some t ∧ t ≠ TNil.
Proof.
  revert n. induction ch as [|u ch IH]; intros n; cbn [entries].
  - rewrite lookup_nil. split; [by intros ?%elem_of_nil | naive_solver].
  - assert ((S n <= i)%nat ∧ ch !! (i - S n)%nat = Some t ∧ t ≠ TNil ↔
            (n <= i)%nat ∧ i ≠ n ∧ (u :: ch) !! (i - n)%nat = Some t ∧ t ≠ TNil) as Hs.
    { destruct (decide (i = n)) as [->|]; [split; [lia | naive_solver]|].
      destruct (decide (n <= i)%nat); [|split; [intros (? & _) | intros (? & _)]; lia].
      replace (i - n)%nat with (S (i - S n)) by lia. cbn. split; [intros (_ & ? & ?) | intros (_ & _ & ? & ?)]; split_and!; (done || lia). }
    destruct (is_TNil u) eqn:Eu.
    + apply is_TNil_spec in Eu as ->. rewrite IH, Hs. split; [naive_solver|]. intros (? & E & ?). split; [done|].
      split; [|done]. intros ->. rewrite Nat.sub_diag in E. cbn in E. naive_solver.
    + rewrite elem_of_cons, IH, Hs. split.
      * intros [[= -> ->]|(? & ? & ? & ?)]; [|done]. rewrite Nat.sub_diag. cbn. split; [done|]. split; [done|]. by intros ->.
      * intros (? & E & ?). destruct (decide (i = n)) as [->|]; [left|by right]. rewrite Nat.sub_diag in E. cbn in E. congruence.
Qed.

Lemma entries_0 ch i t : (i, t) ∈ entries 0 ch ↔ ch !! i = Some t ∧ t ≠ TNil.
Proof. rewrite entries_spec, Nat.sub_0_r. split; [naive_solver|]. intros []. split; [lia | done]. Qed.

Lemma entries_NoDup n ch : NoDup (entries n ch).
Proof.
  revert n. induction ch as [|u ch IH]; intros n; cbn; [constructor|]. destruct (is_TNil u); [done|].
  constructor; [|done]. intros (? & _)%entries_spec. lia.
Qed.

Lemma entries_two ch :
  (2 <= length (entries 0 ch))%nat ↔
  ∃ i j t u, i ≠ j ∧ ch !! i = Some t ∧ ch !! j = Some u ∧ t ≠ TNil ∧ u ≠ TNil.
Proof.
  split.
  - pose proof (entries_NoDup 0 ch) as Hnd. destruct (entries 0 ch) as [|[i t] [|[j u] l]] eqn:E; cbn; [lia..|]. intros _.
    assert ((i, t) ∈ entries 0 ch ∧ (j, u) ∈ entries 0 ch) as [[H1 ?]%entries_0 [H2 ?]%entries_0].
    { rewrite E, !elem_of_cons. tauto. }
    exists i, j, t, u. split_and!; try done. intros ->. rewrite H1 in H2. injection H2 as ->.
    apply NoDup_cons_1_1 in Hnd. apply Hnd. by left.
  - intros (i & j & t & u & Hne & Hi & Hj & Ht & Hu).
    assert ((i, t) ∈ entries 0 ch) as H1 by by apply entries_0. assert ((j, u) ∈ entries 0 ch) as H2 by by apply entries_0.
    destruct (entries 0 ch) as [|a [|b l]]; cbn; [by apply elem_of_nil in H1| |lia].
    apply list_elem_of_singleton in H1, H2. congruence.
Qed.

Lemma entries_one ch i t :
  entries 0 ch = [(i, t)] → ch !! i = Some t ∧ t ≠ TNil ∧ ∀ j u, j ≠ i → ch !! j = Some u → u = TNil.
Proof.
  intros E. assert ((i, t) ∈ entries 0 ch) as [? ?]%entries_0 by (rewrite E; by left). split_and!; [done..|].
  intros j u Hne Hj. destruct (decide (u = TNil)) as [|Hu]; [done|].
  assert ((j, u) ∈ entries 0 ch) as H1 by by apply entries_0. rewrite E in H1. apply list_elem_of_singleton in H1. congruence.
Qed.

(** Removing from a branch leaves at least one child. *)
Lemma entries_alter_one ch i f :
  (2 <= length (entries 0 ch))%nat → (1 <= length (entries 0 (alter f i ch)))%nat.
Proof.
  intros (a & b & ta & tb & Hne & Ha & Hb & Hta & Htb)%entries_two.
  assert (∃ j t, j ≠ i ∧ ch !! j = Some t ∧ t ≠ TNil) as (j & t & Hj & Ht & Hn).
  { destruct (decide (a = i)); [exists b, tb | exists a, ta]; naive_solver. }
  assert ((j, t) ∈ entries 0 (alter f i ch)) as H. { apply entries_0. by rewrite list_lookup_alter_ne. }
  destruct (entries 0 (alter f i ch)); [by apply elem_of_nil in H | cbn; lia].
Qed.

Lemma entries_alter_two ch i f t :
  (2 <= length (entries 0 ch))%nat → alter f i ch !! i = Some t → t ≠ TNil →
  (2 <= length (entries 0 (alter f i ch)))%nat.
Proof.
  intros (a & b & ta & tb & Hne & Ha & Hb & Hta & Htb)%entries_two Hi Ht. apply entries_two.
  assert (∀ j tj, ch !! j = Some tj → tj ≠ TNil → ∃ tj', alter f i ch !! j = Some tj' ∧ tj' ≠ TNil) as Hal.
  { intros j tj Hj Htj. destruct (decide (j = i)) as [->|]; [by exists t|]. exists tj. by rewrite list_lookup_alter_ne. }
  destruct (Hal a ta Ha Hta) as (? & ? & ?), (Hal b tb Hb Htb) as (? & ? & ?). by eexists a, b, _, _.
Qed.

(** ** Insertion *)

Lemma slot_lookup ch x key :
  wf (TFull ch) → key_ok (x :: key) →
  ∃ t, ch !! nib x = Some t ∧
    ((is_nibble x ∧ key_ok key ∧ root_ok t) ∨ (x = Byte.x10 ∧ key = [] ∧ (t = TNil ∨ is_value t))).
Proof.
  intros (Hlen & _ & Hs)%wf_TFull Hk. rewrite key_ok_cons in Hk.
  assert (nib x < 17)%nat as Hx.
  { destruct Hk as [[Hx _]|[-> _]]; [pose proof (nib_nibble x Hx); lia | rewrite nib_term; lia]. }
  destruct (lookup_lt_is_Some_2 ch (nib x)) as [t Ht]; [lia|]. exists t. split; [done|]. specialize (Hs _ _ Ht).
  unfold slot_ok in Hs. destruct Hk as [[Hn Hk]|[-> ->]].
  - left. pose proof (nib_nibble x Hn). rewrite decide_False in Hs by lia. done.
  - right. rewrite decide_True in Hs by done. done.
Qed.

(** A key of a leaf is no proper prefix of the key of a value, nor the other way round. *)
Lemma leaf_app_key k r : leaf_key k → key_ok (k ++ r) → r = [].
Proof. apply key_ok_prefix. Qed.

(** The parts of a short node that a key diverges from. *)
Lemma short_split k t key :
  wf (TShort k t) → key_ok key → prefixLen key k ≠ length k →
  ∃ p x y rk rkey, k = p ++ x :: rk ∧ key = p ++ y :: rkey ∧ x ≠ y ∧ prefixLen key k = length p ∧
    Forall is_nibble p ∧ key_ok (y :: rkey) ∧
    ((key_ok (x :: rk) ∧ is_value t) ∨ (Forall is_nibble (x :: rk) ∧ is_full t ∧ wf t)).
Proof.
  intros Hwf Hkey Hm. destruct (prefixLen_cases key k) as [[? _]|[(p & y & x & rkey & rk & -> & -> & Hne & E)|(x & rk & -> & _)]].
  - done.
  - exists p, x, y, rk, rkey. assert (Forall is_nibble p) as Hp.
    { destruct Hkey as (ns & Hns & Ek). destruct (list.last (y :: rkey)) as [l|] eqn:El.
      - apply last_Some in El as [l' El]. rewrite El, app_assoc in Ek. apply app_inj_2 in Ek as [<- _]; [|done].
        by apply Forall_app in Hns as [? _].
      - by apply last_None in El. }
    rewrite key_ok_app in Hkey by done. split_and!; try done. destruct Hwf as [[Hk Hv]|(_ & Hk & Hf)].
    + left. split; [|done]. rewrite <-(key_ok_app p); done.
    + right. apply Forall_app in Hk as [_ Hk]. done.
  - exfalso. destruct Hwf as [[Hk _]|(_ & Hk & _)].
    + apply key_ok_prefix in Hk; done.
    + apply Forall_app in Hk as [Hk _]. destruct Hkey as (ns & _ & ->). apply Forall_app in Hk as [_ Hk].
      apply Forall_cons_1 in Hk as [Hk _]. done.
Qed.

Lemma branch_of_eq p x y rk rkey t v :
  branch_of (length p) (p ++ x :: rk) t (p ++ y :: rkey) v =
    short_of p (TFull (<[nib y := short_of rkey (TValue v)]> (<[nib x := short_of rk t]> empty_ch))).
Proof.
  unfold branch_of. rewrite !list_lookup_middle by done. rewrite take_app_length.
  replace (S (length p)) with (length p + 1)%nat by lia. rewrite !drop_app_add. done.
Qed.

Lemma nib_lt17 x key : key_ok (x :: key) → (nib x < 17)%nat.
Proof. rewrite key_ok_cons. intros [[Hx _]|[-> _]]; [pose proof (nib_nibble x Hx); lia | rewrite nib_term; lia]. Qed.

(** The new branch: two entries. *)
Lemma branch_lookup x y a b i :
  (nib x < 17)%nat → (nib y < 17)%nat → x ≠ y →
  (<[nib y := b]> (<[nib x := a]> empty_ch)) !! i =
    if decide (i = nib y) then Some b else if decide (i = nib x) then Some a
    else if decide (i < 17)%nat then Some TNil else None.
Proof.
  intros Hx Hy Hne. unfold empty_ch. case_decide as E1.
  { subst. apply list_lookup_insert_eq. by rewrite length_insert, length_replicate. }
  rewrite list_lookup_insert_ne by done. case_decide as E2; [subst; apply list_lookup_insert_eq; by rewrite length_replicate|].
  rewrite list_lookup_insert_ne by done. case_decide; [by apply lookup_replicate_2 | apply lookup_replicate_None; lia].
Qed.

Lemma wf_leaf_short rk t x : key_ok (x :: rk) → is_value t → slot_ok (nib x) (short_of rk t).
Proof.
  intros Hk Ht. right. rewrite key_ok_cons in Hk. destruct Hk as [[Hx Hk]|[-> ->]].
  - pose proof (nib_nibble x Hx). rewrite decide_False by lia. destruct rk as [|z rk]; [by destruct (key_ok_nonempty _ Hk)|].
    left. done.
  - by rewrite decide_True.
Qed.

Lemma wf_ext_short rk t x : Forall is_nibble (x :: rk) → is_full t → wf t → slot_ok (nib x) (short_of rk t).
Proof.
  intros [Hx Hk]%Forall_cons_1 Hf Hw. pose proof (nib_nibble x Hx). right. rewrite decide_False by lia.
  destruct rk as [|z rk]; [done|]. right. done.
Qed.

Lemma short_of_nil k t : t ≠ TNil → short_of k t ≠ TNil.
Proof. by destruct k. Qed.

Lemma wf_branch p x y a b :
  Forall is_nibble p → (nib x < 17)%nat → (nib y < 17)%nat → x ≠ y → slot_ok (nib x) a → slot_ok (nib y) b →
  a ≠ TNil → b ≠ TNil → wf (short_of p (TFull (<[nib y := b]> (<[nib x := a]> empty_ch)))).
Proof.
  intros Hp Hx Hy Hne Ha Hb Hna Hnb.
  assert (wf (TFull (<[nib y := b]> (<[nib x := a]> empty_ch)))) as Hw.
  { apply wf_TFull. split; [by rewrite !length_insert|]. split.
    - apply entries_two. exists (nib y), (nib x), b, a. rewrite !branch_lookup by done.
      rewrite decide_True, decide_False, decide_True by (done || by intros ?%nib_inj). split_and!; try done. by intros ?%nib_inj.
    - intros i t. rewrite branch_lookup by done. repeat case_decide; intros [= <-]; subst; try done. by left. }
  destruct p as [|z p]; [done|]. right. done.
Qed.

Lemma wf_not_nil t : wf t → t ≠ TNil.
Proof. by intros H ->. Qed.

Lemma value_not_nil t : is_value t → t ≠ TNil.
Proof. by intros H ->. Qed.

Lemma wf_tinsert t : ∀ key v, root_ok t → key_ok key → v ≠ [] →
  wf (tinsert t key v) ∧ (is_full t → is_full (tinsert t key v)).
Proof.
  induction t as [|v0|k t IH|ch IH] using tree_ind'; intros key v Hr Hk Hv;
    (destruct key as [|x key]; [by destruct (key_ok_nonempty _ Hk)|]); (destruct Hr as [?|Hw]; [try done|]); try done.
  - split; [left; done | done].
  - split; [|done]. cbn [tinsert]. case_decide as Em.
    + destruct (prefixLen_full _ _ Em) as [r Er].
      rewrite Em, Er, drop_app_length. destruct Hw as [[Hl Ht]|(Hne & Hn & Hf & Hw)].
      * rewrite Er in Hk. apply leaf_app_key in Hk as ->; [|done]. left. by destruct t.
      * rewrite Er, key_ok_app in Hk by done. destruct (IH r v) as [Hw' Hf']; [by right|done|done|]. right. auto.
    + destruct (short_split k t (x :: key) Hw Hk Em) as (p & a & b & rk & rkey & -> & E & Hne & E2 & Hp & Hb & Ha).
      rewrite E2, E, branch_of_eq. assert (slot_ok (nib a) (short_of rk t) ∧ (nib a < 17)%nat ∧ t ≠ TNil) as (Hs & Hl & Hnn).
      { destruct Ha as [[Ha Ht]|(Ha & Ht & Hwt)].
        - split; [by apply wf_leaf_short|]. split; [by eapply nib_lt17 | by apply value_not_nil].
        - split; [by apply wf_ext_short|]. split; [|by apply wf_not_nil]. apply Forall_cons_1 in Ha as [Ha _].
          pose proof (nib_nibble a Ha). lia. }
      apply wf_branch; try done; [by eapply nib_lt17 | by apply wf_leaf_short | by apply short_of_nil..].
  - split; [|done]. cbn [tinsert]. destruct (slot_lookup ch x key Hw Hk) as (t & Ht & Hc).
    assert (slot_ok (nib x) (tinsert t key v) ∧ tinsert t key v ≠ TNil) as [Hs Hnn].
    { destruct Hc as [(Hx & Hk' & Hr)|(-> & -> & _)].
      - rewrite list.Forall_lookup in IH. destruct (IH _ _ Ht key v Hr Hk' Hv) as [Hw' _]. pose proof (nib_nibble x Hx).
        split; [|by apply wf_not_nil]. right. by rewrite decide_False by lia.
      - destruct t; (split; [right; by rewrite decide_True|done]). }
    apply wf_TFull in Hw as (Hlen & Htwo & Hslots). apply wf_TFull. split; [by rewrite length_alter|]. split.
    + eapply entries_alter_two; [done | by rewrite list_lookup_alter_eq, Ht | done].
    + intros i ti. destruct (decide (i = nib x)) as [->|].
      * rewrite list_lookup_alter_eq, Ht. intros [= <-]. done.
      * rewrite list_lookup_alter_ne by done. apply Hslots.
Qed.

(** Lookups in a tree are for keys that end with the terminator. *)
Lemma find_leaf k v key : leaf_key k → key_ok key → find (TShort k (TValue v)) key = if decide (k = key) then Some v else None.
Proof.
  intros Hk Hkey. case_decide as E.
  - subst. rewrite <-(app_nil_r key) at 2. by rewrite find_TShort_app.
  - apply find_TShort_None. intros r ->. apply leaf_app_key in Hkey as ->; [|done]. by rewrite app_nil_r in E.
Qed.

Lemma app_cons_neq {A} (p : list A) x y r r' : x ≠ y → p ++ x :: r ≠ p ++ y :: r'.
Proof. intros Hne E. apply app_inv_head in E. congruence. Qed.

(** The mapping of a split short node. *)
Lemma find_branch p x y rk rkey t v key' :
  (nib x < 17)%nat → (nib y < 17)%nat → x ≠ y → Forall is_nibble p → key_ok (y :: rkey) → key_ok key' →
  find (short_of p (TFull (<[nib y := short_of rkey (TValue v)]> (<[nib x := short_of rk t]> empty_ch)))) key' =
    if decide (p ++ y :: rkey = key') then Some v else find (TShort (p ++ x :: rk) t) key'.
Proof.
  intros Hx Hy Hne Hp Hk Hk'. rewrite find_short_of. destruct (key_prefix p key') eqn:Ep; cycle 1.
  { cbn [find]. rewrite Ep, decide_False.
    - rewrite key_prefix_false; [done|]. intros r ->. by rewrite <-app_assoc, key_prefix_app in Ep.
    - intros <-. by rewrite key_prefix_app in Ep. }
  apply key_prefix_spec in Ep as [r ->]. rewrite find_TShort_app. rewrite key_ok_app in Hk' by done.
  destruct r as [|z r]; [by destruct (key_ok_nonempty _ Hk')|]. rewrite find_TFull, branch_lookup by done.
  case_decide as E1.
  { apply nib_inj in E1 as ->. cbn [mbind option_bind]. rewrite find_short_of. rewrite (find_TShort_None (p ++ x :: rk)).
    2: { intros r'. rewrite <-app_assoc. cbn. apply app_cons_neq. done. }
    rewrite key_ok_cons in Hk, Hk'. destruct Hk as [[Hn Hk]|[-> ->]], Hk' as [[Hn' Hk']|[E ->]]; subst; try (by destruct term_not_nibble).
    - rewrite find_leaf by done. repeat case_decide; naive_solver.
    - by rewrite decide_True. }
  rewrite (decide_False (P := p ++ _ = _)) by (intros E; apply app_inv_head in E; naive_solver).
  case_decide as E2.
  - apply nib_inj in E2 as ->. cbn [mbind option_bind]. rewrite find_short_of. cbn [find].
    destruct (key_prefix rk r) eqn:Er.
    + apply key_prefix_spec in Er as [r' ->]. rewrite drop_app_length.
      change (p ++ x :: rk ++ r') with (p ++ (x :: rk) ++ r'). rewrite app_assoc, key_prefix_app, drop_app_length. done.
    + rewrite key_prefix_false; [done|]. intros r' E. rewrite <-app_assoc in E. apply app_inv_head in E. injection E as ->.
      by rewrite key_prefix_app in Er.
  - rewrite (find_TShort_None (p ++ x :: rk)).
    + by case_decide.
    + intros r'. rewrite <-app_assoc. cbn. apply app_cons_neq. naive_solver.
Qed.

Lemma find_tinsert t : ∀ key key' v, root_ok t → key_ok key → key_ok key' →
  find (tinsert t key v) key' = if decide (key = key') then Some v else find t key'.
Proof.
  induction t as [|v0|k t IH|ch IH] using tree_ind'; intros key key' v Hr Hk Hk';
    (destruct key as [|x key]; [by destruct (key_ok_nonempty _ Hk)|]); (destruct Hr as [?|Hw]; [try done|]); try done.
  - by apply find_leaf.
  - cbn [tinsert]. case_decide as Em.
    + destruct (prefixLen_full _ _ Em) as [r Er]. rewrite Em, Er, drop_app_length. destruct Hw as [[Hl Ht]|(Hne & Hn & Hf & Hw)].
      * rewrite Er in Hk. assert (r = []) as -> by by apply (leaf_app_key k). rewrite app_nil_r.
        destruct t as [|v1| |]; try done. cbn [tinsert]. rewrite !find_leaf by done. by case_decide.
      * rewrite Er, key_ok_app in Hk by done. destruct (key_prefix k key') eqn:Ep.
        -- apply key_prefix_spec in Ep as [r' ->]. rewrite !find_TShort_app. rewrite key_ok_app in Hk' by done.
           rewrite IH by (done || by right). repeat case_decide; naive_solver.
        -- cbn [find]. rewrite Ep. rewrite decide_False; [done|]. intros <-. by rewrite key_prefix_app in Ep.
    + destruct (short_split k t (x :: key) Hw Hk Em) as (p & a & b & rk & rkey & -> & E & Hne & E2 & Hp & Hb & Ha).
      rewrite E2, E, branch_of_eq. apply find_branch; try done; [|by eapply nib_lt17].
      destruct Ha as [[Ha _]|(Ha & _)]; [by eapply nib_lt17|]. apply Forall_cons_1 in Ha as [Ha _]. pose proof (nib_nibble a Ha). lia.
  - cbn [tinsert]. destruct key' as [|x' key']; [by destruct (key_ok_nonempty _ Hk')|]. rewrite !find_TFull.
    destruct (decide (x = x')) as [<-|Hne].
    + destruct (slot_lookup ch x key Hw Hk) as (t & Ht & Hc). rewrite list_lookup_alter_eq, Ht. cbn [fmap option_fmap option_map mbind option_bind].
      destruct Hc as [(Hx & Hk1 & Hr)|(-> & -> & _)].
      * rewrite key_ok_cons in Hk'. destruct Hk' as [[_ Hk']|[-> _]]; [|by destruct term_not_nibble].
        rewrite list.Forall_lookup in IH. rewrite (IH _ _ Ht) by done. repeat case_decide; naive_solver.
      * rewrite key_ok_cons in Hk'. destruct Hk' as [[Hx _]|[_ ->]]; [by destruct term_not_nibble|].
        rewrite decide_True by done. by destruct t.
    + rewrite list_lookup_alter_ne by (by intros ?%nib_inj). rewrite decide_False by congruence. done.
Qed.

(** ** Removal *)

Lemma find_reduce ch key :
  length ch = 17%nat → key_ok key → find (reduce ch) key = find (TFull ch) key.
Proof.
  intros Hlen Hk. unfold reduce. destruct (entries 0 ch) as [|[i t] [|]] eqn:E; try done.
  apply entries_one in E as (Hi & Ht & Hother). destruct key as [|x key]; [by destruct (key_ok_nonempty _ Hk)|].
  rewrite find_TFull. assert (i < 17)%nat as Hi17 by (apply lookup_lt_Some in Hi; lia).
  transitivity (find (TShort [z2b (Z.of_nat i)] t) (x :: key)).
  { case_decide as E16; [by subst|]. apply find_short_above. }
  destruct (decide (nib x = i)) as [<-|Hne].
  - rewrite Hi. assert (z2b (Z.of_nat (nib x)) = x) as -> by (apply nib_inj, nib_z2b; lia). apply (find_TShort_app [x]).
  - rewrite find_TShort_None.
    + destruct (lookup_lt_is_Some_2 ch (nib x)) as [u Hu]; [apply nib_lt17 in Hk; lia|].
      rewrite Hu. by rewrite (Hother _ _ Hne Hu).
    + intros r [= E _]. apply Hne. rewrite E. apply nib_z2b. lia.
Qed.

Lemma wf_short_above k t : k ≠ [] → Forall is_nibble k → wf t → wf (short_above k t) ∧ short_above k t ≠ TNil.
Proof.
  intros Hne Hk Hw. destruct t as [| |k' t|ch]; try done; (split; [|done]).
  - destruct Hw as [[Hk' Ht]|(Hne' & Hk' & Hf & Hw)]; [left|right].
    + split; [|done]. apply (key_ok_app k); [done|done].
    + split_and!; try done; [by destruct k | by apply Forall_app].
  - right. done.
Qed.

Lemma wf_reduce ch :
  length ch = 17%nat → (1 <= length (entries 0 ch))%nat → (∀ i t, ch !! i = Some t → slot_ok i t) → wf (reduce ch).
Proof.
  intros Hlen Hone Hs. unfold reduce. destruct (entries 0 ch) as [|[i t] [|e l]] eqn:E; [cbn in Hone; lia| |].
  - apply entries_one in E as (Hi & Ht & _). specialize (Hs _ _ Hi). destruct Hs as [|Hs]; [done|].
    assert (i < 17)%nat by (apply lookup_lt_Some in Hi; lia). case_decide.
    + left. split; [by exists []|done].
    + apply wf_short_above; [done| |done]. constructor; [|done]. unfold is_nibble. rewrite b2z_z2b, Z.mod_small; lia.
  - apply wf_TFull. rewrite E. split_and!; [done | cbn; lia | done].
Qed.

Lemma tdelete_ok t : ∀ key, wf t → key_ok key →
  root_ok (tdelete t key) ∧ (is_full t → wf (tdelete t key)) ∧
  ∀ key', key_ok key' → find (tdelete t key) key' = if decide (key = key') then None else find t key'.
Proof.
  induction t as [|v0|k t IH|ch IH] using tree_ind'; intros key Hw Hk; try done.
  - cbn [tdelete]. destruct (decide (prefixLen key k = length k)) as [Em|Em]; cycle 1.
    { destruct (short_split k t key Hw Hk Em) as (p & a & b & rk & rkey & -> & -> & Hne & E2 & _).
      rewrite E2, decide_True by (rewrite length_app; cbn; lia). split; [by right|]. split; [done|]. intros key' Hk'.
      case_decide as E; [|done]. subst key'. apply find_TShort_None. intros r. rewrite <-app_assoc. cbn. by apply app_cons_neq. }
    destruct (prefixLen_full _ _ Em) as [r ->]. rewrite Em, decide_False by lia. rewrite drop_app_length.
    destruct Hw as [[Hl Ht]|(Hne & Hn & Hf & Hw)].
    + assert (r = []) as -> by by apply (leaf_app_key k). rewrite app_nil_r, decide_True by done.
      split; [by left|]. split; [done|]. intros key' Hk'. destruct t as [|v1| |]; try done. rewrite find_leaf by done. by case_decide.
    + rewrite key_ok_app in Hk by done. rewrite decide_False.
      2: { rewrite length_app. destruct r; [by destruct (key_ok_nonempty _ Hk) | cbn; lia]. }
      destruct (IH r Hw Hk) as (_ & Hwt & Hfind). specialize (Hwt Hf).
      destruct (wf_short_above k _ Hne Hn Hwt) as [Hws _]. split; [by right|]. split; [done|]. intros key' Hk'.
      rewrite find_short_above. destruct (key_prefix k key') eqn:Ep.
      * apply key_prefix_spec in Ep as [r' ->]. rewrite !find_TShort_app. rewrite key_ok_app in Hk' by done.
        rewrite Hfind by done. repeat case_decide; naive_solver.
      * cbn [find]. rewrite Ep. by case_decide.
  - destruct key as [|x key]; [by destruct (key_ok_nonempty _ Hk)|]. cbn [tdelete].
    destruct (slot_lookup ch x key Hw Hk) as (t & Ht & Hc). rewrite list_lookup_alter_eq, Ht. cbn [fmap option_fmap option_map default].
    assert (slot_ok (nib x) (tdelete t key) ∧ ∀ key', (x :: key) = x :: key' ∨ key_ok (x :: key') →
              find (tdelete t key) key' = if decide (key = key') then None else find t key') as [Hs Hfind].
    { destruct Hc as [(Hx & Hk1 & Hr)|(-> & -> & Hr)].
      - pose proof (nib_nibble x Hx). destruct Hr as [->|Hwt].
        + split; [by left|]. intros. cbn. by case_decide.
        + rewrite list.Forall_lookup in IH. destruct (IH _ _ Ht key Hwt Hk1) as (Hr' & _ & Hf'). split.
          * destruct Hr' as [?|?]; [by left|right]. by rewrite decide_False by lia.
          * intros key' [[= <-]|Hk2]; [by apply Hf'|]. rewrite key_ok_cons in Hk2.
            destruct Hk2 as [[_ ?]|[-> _]]; [by apply Hf' | by destruct term_not_nibble].
      - destruct Hr as [->|Hv]; [|destruct t; try done]; (split; [by left|]); intros key' [[= <-]|Hk2]; cbn; try done;
          rewrite key_ok_cons in Hk2; (destruct Hk2 as [[? _]|[_ ->]]; [by destruct term_not_nibble | done]). }
    apply wf_TFull in Hw as (Hlen & Htwo & Hslots). set (ch' := alter (λ c, tdelete c key) (nib x) ch).
    assert (∀ i u, ch' !! i = Some u → slot_ok i u) as Hslots'.
    { intros i u. unfold ch'. destruct (decide (i = nib x)) as [->|].
      - rewrite list_lookup_alter_eq, Ht. by intros [= <-].
      - rewrite list_lookup_alter_ne by done. apply Hslots. }
    assert (length ch' = 17%nat) as Hlen' by (unfold ch'; by rewrite length_alter).
    assert (wf (if is_TNil (tdelete t key) then reduce ch' else TFull ch') ∧
      ∀ key', key_ok key' → find (if is_TNil (tdelete t key) then reduce ch' else TFull ch') key' = find (TFull ch') key') as [Hw' Hred].
    { destruct (is_TNil (tdelete t key)) eqn:En.
      - split; [|intros; by apply find_reduce]. apply wf_reduce; [done | by apply entries_alter_one | done].
      - split; [|done]. apply wf_TFull. split_and!; [done| |done]. eapply entries_alter_two; [done | by rewrite list_lookup_alter_eq, Ht |].
        intros E. by rewrite E in En. }
    split; [by right|]. split; [done|]. intros key' Hk'. rewrite Hred by done.
    destruct key' as [|x' key']; [by destruct (key_ok_nonempty _ Hk')|]. rewrite !find_TFull. unfold ch'.
    destruct (decide (x = x')) as [<-|Hne].
    + rewrite list_lookup_alter_eq, Ht. cbn [fmap option_fmap option_map mbind option_bind]. rewrite Hfind by by right.
      repeat case_decide; naive_solver.
    + rewrite list_lookup_alter_ne by (by intros ?%nib_inj). rewrite decide_False by congruence. done.
Qed.

(** ** Canonicity *)

Definition finds (t : tree) (key : bytes) : Prop := key_ok key ∧ is_Some (find t key).

(** An entry of a branch is the start of a key. *)
Lemma entry_finds ch i t :
  wf (TFull ch) → ch !! i = Some t → t ≠ TNil → (∀ u, u = t → wf u → ∃ key, finds u key) →
  ∃ x key, nib x = i ∧ finds (TFull ch) (x :: key).
Proof.
  intros (Hlen & _ & Hs)%wf_TFull Hi Ht Hsub. assert (i < 17)%nat by (apply lookup_lt_Some in Hi; lia).
  assert (nib (z2b (Z.of_nat i)) = i) as Hn by (apply nib_z2b; lia). specialize (Hs _ _ Hi). destruct Hs as [|Hs]; [done|].
  exists (z2b (Z.of_nat i)). case_decide as E.
  - exists []. split; [done|]. split; [subst i; apply key_ok_cons; by right|]. rewrite find_TFull, Hn, Hi. destruct t; try done.
  - destruct (Hsub t eq_refl Hs) as (key & Hk & Hf). exists key. split; [done|]. split.
    + apply key_ok_cons. left. split; [|done]. unfold is_nibble. rewrite b2z_z2b, Z.mod_small; lia.
    + by rewrite find_TFull, Hn, Hi.
Qed.

Lemma wf_finds t : wf t → ∃ key, finds t key.
Proof.
  induction t as [|v0|k t IH|ch IH] using tree_ind'; intros Hw; try done.
  - destruct Hw as [[Hl Hv]|(Hne & Hn & Hf & Hw)].
    + exists k. split; [done|]. destruct t; try done. rewrite find_leaf, decide_True by done. by eexists.
    + destruct (IH Hw) as (key & Hk & Hs). exists (k ++ key). split; [by apply key_ok_app|]. by rewrite find_TShort_app.
  - pose proof Hw as (_ & Htwo & _)%wf_TFull. apply entries_two in Htwo as (i & j & t & u & _ & Hi & _ & Ht & _).
    destruct (entry_finds ch i t Hw Hi Ht) as (x & key & _ & H); [|eauto].
    intros ? ->. rewrite list.Forall_lookup in IH. by apply (IH _ _ Hi).
Qed.

Lemma wf_two_heads ch : wf (TFull ch) → ∃ x y r s, x ≠ y ∧ finds (TFull ch) (x :: r) ∧ finds (TFull ch) (y :: s).
Proof.
  intros Hw. pose proof Hw as (_ & Htwo & _)%wf_TFull. apply entries_two in Htwo as (i & j & t & u & Hne & Hi & Hj & Ht & Hu).
  destruct (entry_finds ch i t Hw Hi Ht) as (x & r & Hx & H1); [intros ? _; apply wf_finds|].
  destruct (entry_finds ch j u Hw Hj Hu) as (y & s & Hy & H2); [intros ? _; apply wf_finds|].
  exists x, y, r, s. split; [|done]. congruence.
Qed.

Lemma finds_TShort k t key : finds (TShort k t) key → ∃ r, key = k ++ r.
Proof. intros [_ [v Hv]]. cbn in Hv. destruct (key_prefix k key) eqn:E; [|done]. by apply key_prefix_spec. Qed.

(** Keys of a branch start with different nibbles, those of a short node do not. *)
Lemma branch_not_short ch k t :
  wf (TFull ch) → k ≠ [] → (∀ key, finds (TFull ch) key → finds (TShort k t) key) → False.
Proof.
  intros Hw Hk H. destruct (wf_two_heads ch Hw) as (x & y & r & s & Hne & H1 & H2).
  destruct (finds_TShort _ _ _ (H _ H1)) as [r1 E1], (finds_TShort _ _ _ (H _ H2)) as [r2 E2]. destruct k; [done|]. cbn in E1, E2. congruence.
Qed.

Lemma wf_TShort_key k t : wf (TShort k t) → k ≠ [].
Proof. intros [[Hk _]|[? _]]; [by apply key_ok_nonempty | done]. Qed.

Definition same_map (t1 t2 : tree) : Prop := ∀ key, key_ok key → find t1 key = find t2 key.

Lemma same_map_finds t1 t2 key : same_map t1 t2 → finds t1 key → finds t2 key.
Proof. intros H [Hk Hs]. split; [done|]. by rewrite <-H. Qed.

(** The key of a short node is not a proper prefix of the key of another one with the
    same mapping. *)
Lemma short_key_le k1 t1 k2 t2 :
  wf (TShort k1 t1) → wf (TShort k2 t2) → same_map (TShort k1 t1) (TShort k2 t2) → (∃ r, k2 = k1 ++ r) → k1 = k2.
Proof.
  intros H1 H2 Hsame [r ->]. destruct r as [|z r]; [by rewrite app_nil_r|]. exfalso. destruct H1 as [[Hl Hv]|(Hne & Hn & Hf & Hw)].
  - destruct (wf_finds _ H2) as (key & Hkey). destruct (finds_TShort _ _ _ Hkey) as [r' ->].
    destruct Hkey as [Hk _]. rewrite <-app_assoc in Hk. by apply leaf_app_key in Hk.
  - destruct t1 as [| | |ch]; try done. apply (branch_not_short ch (z :: r) t2 Hw); [done|].
    intros key Hk. assert (finds (TShort k1 (TFull ch)) (k1 ++ key)) as Hk1.
    { destruct Hk. split; [by apply key_ok_app | by rewrite find_TShort_app]. }
    pose proof (same_map_finds _ _ _ Hsame Hk1) as Hk2. split; [apply Hk|]. destruct Hk2 as [_ Hk2].
    destruct (finds_TShort _ _ _ (same_map_finds _ _ _ Hsame Hk1)) as [r' E]. rewrite <-app_assoc in E. apply app_inv_head in E as ->.
    rewrite app_assoc, find_TShort_app in Hk2. by rewrite find_TShort_app.
Qed.

Lemma key_prefixes (k1 k2 r1 r2 : bytes) : k1 ++ r1 = k2 ++ r2 → (∃ r, k2 = k1 ++ r) ∨ (∃ r, k1 = k2 ++ r).
Proof. intros E. apply app_eq_inv in E as [(k & -> & _)|(k & -> & _)]; [right|left]; by exists k. Qed.

Lemma canonical t1 : ∀ t2, wf t1 → wf t2 → same_map t1 t2 → t1 = t2.
Proof.
  induction t1 as [|v0|k1 t1 IH|ch1 IH] using tree_ind'; intros t2 H1 H2 Hsame; try done; destruct t2 as [| |k2 t2|ch2]; try done.
  - assert (same_map (TShort k2 t2) (TShort k1 t1)) as Hsame' by (intros ??; by rewrite Hsame).
    assert (k1 = k2) as ->.
    { destruct (wf_finds _ H1) as (key & Hkey). destruct (finds_TShort _ _ _ Hkey) as [r1 E1].
      destruct (finds_TShort _ _ _ (same_map_finds _ _ _ Hsame Hkey)) as [r2 E2]. rewrite E1 in E2.
      destruct (key_prefixes _ _ _ _ E2) as [Hp|Hp]; [by eapply short_key_le | symmetry; by eapply short_key_le]. }
    f_equal. destruct H1 as [[Hl Hv]|(Hne & Hn & Hf & Hw)], H2 as [[Hl2 Hv2]|(Hne2 & Hn2 & Hf2 & Hw2)].
    + specialize (Hsame k2 Hl). destruct t1, t2; try done. rewrite !find_leaf, !decide_True in Hsame by done. congruence.
    + exfalso. destruct Hl as (ns & _ & ->). apply Forall_app in Hn2 as [_ Hn2]. apply Forall_cons_1 in Hn2 as [Hn2 _]. done.
    + exfalso. destruct Hl2 as (ns & _ & ->). apply Forall_app in Hn as [_ Hn]. apply Forall_cons_1 in Hn as [Hn _]. done.
    + apply IH; [done..|]. intros key Hk. specialize (Hsame (k2 ++ key)). rewrite !find_TShort_app in Hsame.
      apply Hsame. by apply key_ok_app.
  - exfalso. apply (branch_not_short ch2 k1 t1 H2); [by eapply wf_TShort_key|]. intros key Hk.
    eapply same_map_finds; [|exact Hk]. intros ??. by rewrite Hsame.
  - exfalso. apply (branch_not_short ch1 k2 t2 H1); [by eapply wf_TShort_key|]. intros key Hk. by eapply same_map_finds.
  - f_equal. pose proof H1 as (Hl1 & _ & Hs1)%wf_TFull. pose proof H2 as (Hl2 & _ & Hs2)%wf_TFull.
    apply list_eq_same_length with 17%nat; [done..|]. intros i a b Hi Ha Hb.
    assert (nib (z2b (Z.of_nat i)) = i) as Hn by (apply nib_z2b; lia). set (x := z2b (Z.of_nat i)) in *.
    assert (∀ key, key_ok (x :: key) → find a key = find b key) as Hab.
    { intros key Hk. specialize (Hsame _ Hk). rewrite !find_TFull, Hn, Ha, Hb in Hsame. done. }
    specialize (Hs1 _ _ Ha). specialize (Hs2 _ _ Hb). destruct (decide (i = 16%nat)) as [E16|Hne16].
    + specialize (Hab []). unfold slot_ok in Hs1, Hs2. rewrite !decide_True in Hs1, Hs2 by done.
      assert (find a [] = find b []) as E by (apply Hab, key_ok_cons; right; split; [|done]; unfold x; by rewrite E16).
      destruct Hs1 as [->|?], Hs2 as [->|?]; try (destruct a; try done); try (destruct b; try done). all: cbn in E; congruence.
    + unfold slot_ok in Hs1, Hs2. rewrite !decide_False in Hs1, Hs2 by done.
      assert (same_map a b) as Hsab.
      { intros key Hk. apply Hab, key_ok_cons. left. split; [|done]. unfold x, is_nibble. rewrite b2z_z2b, Z.mod_small; lia. }
      assert (same_map b a) as Hsba by (intros ??; by rewrite Hsab).
      destruct Hs1 as [->|Hw1], Hs2 as [->|Hw2]; [done|..].
      * destruct (wf_finds _ Hw2) as (key & Hk). apply (same_map_finds _ _ _ Hsba) in Hk. by destruct Hk as [_ [? ?]].
      * destruct (wf_finds _ Hw1) as (key & Hk). apply (same_map_finds _ _ _ Hsab) in Hk. by destruct Hk as [_ [? ?]].
      * rewrite list.Forall_lookup in IH. by apply (IH _ _ Ha).
Qed.

Lemma canonical_root t1 t2 : root_ok t1 → root_ok t2 → same_map t1 t2 → t1 = t2.
Proof.
  intros [->|H1] [->|H2] Hsame; [done|..].
  - destruct (wf_finds _ H2) as (key & Hk & [? E]). by rewrite <-Hsame in E.
  - destruct (wf_finds _ H1) as (key & Hk & [? E]). by rewrite Hsame in E.
  - by apply canonical.
Qed.
