(* ===== verification/Trie.v ===== *)
(** * The Merkle Patricia trie

    [trie/trie.go], [trie/node.go], [trie/hasher.go], [trie/node_enc.go] and
    [trie/tracer.go]: nodes with their cached hashes, the decoder of stored nodes, the
    hasher, [Get], [Update], [Delete] and [Hash] of a [Trie] on top of a node database.

    Nodes are values here: the trie owns its nodes, and an operation that returns gives back
    the node it was called on, changed in place or not. Only [delete] can fail after it has
    changed a node that stays linked in the trie, so its outcome carries that state. The
    calls that only feed the tracers are a list of events, in order. The database is the
    operation of the class [NodeDatabase]. Hashing the children of a branch in parallel
    works on disjoint nodes and is the sequential loop. *)
From Stdlib Require Import ZArith Lia.
From Stdlib Require Strings.Byte.
From stdpp Require Import base tactics decidable list numbers gmap.
From S2P Require Import Prelude Keccak Common Rlp HexKeys RadixTree.

(** ** Nodes *)

Record nodeFlag : Type := MkFlag {
  nf_hash : option bytes;  (** cached hash of the node (may be nil) *)
  nf_dirty : bool          (** whether the node has changes that must be written to the database *)
}.

Inductive node : Type :=
| nilNode
| fullNode (Children : list node) (flags : nodeFlag)
| shortNode (Key : bytes) (Val : node) (flags : nodeFlag)
| hashNode (hash : bytes)
| valueNode (v : bytes).

Inductive trie_error : Type :=
| ErrCommitted
| MissingNodeError
| NodeDecodeError
| OversizedNode
| InvalidRef
| NodeRlp (e : rlp_error).

Definition newFlag : nodeFlag := MkFlag None true.

Definition cache (n : node) : option bytes * bool :=
  match n with
  | fullNode _ fl | shortNode _ _ fl => (nf_hash fl, nf_dirty fl)
  | _ => (None, true)
  end.

(** ** Decoding of stored nodes *)

Definition node_rlp {A} (r : res rlp_error A) : res trie_error A :=
  match r with Ok a => Ok a | Err e => Err (NodeRlp e) | Panic => Panic end.

Definition hashLen : nat := 32.

(** The decoders call each other for embedded nodes: [fuel] bounds the nesting. *)
Section decoding.
Context (decode_embedded : bytes → res trie_error node).

Definition decodeRef (buf : bytes) : res trie_error (node * bytes) :=
  '(kind, val, rest) ← node_rlp (Split buf);
  if decide (kind = KList) then
    if decide (hashLen <= length buf - length rest)%nat then Err OversizedNode
    else n ← decode_embedded buf; Ok (n, rest)
  else if decide (kind = KString ∧ length val = 0%nat) then Ok (nilNode, rest)
  else if decide (kind = KString ∧ length val = 32%nat) then Ok (hashNode val, rest)
  else Err InvalidRef.

Definition decodeShort (hash : option bytes) (elems : bytes) : res trie_error node :=
  '(kbuf, rest) ← node_rlp (SplitString elems);
  let flag := MkFlag hash false in
  let key := compactToHex kbuf in
  if hasTerm key then
    '(val, _) ← node_rlp (SplitString rest);
    Ok (shortNode key (valueNode val) flag)
  else
    '(r, _) ← decodeRef rest;
    Ok (shortNode key r flag).

Fixpoint decode_children (n : nat) (elems : bytes) : res trie_error (list node * bytes) :=
  match n with
  | O => Ok ([], elems)
  | S n =>
      '(cld, rest) ← decodeRef elems;
      '(l, elems) ← decode_children n rest;
      Ok (cld :: l, elems)
  end.

Definition decodeFull (hash : option bytes) (elems : bytes) : res trie_error node :=
  '(ch, elems) ← decode_children 16 elems;
  '(val, _) ← node_rlp (SplitString elems);
  Ok (fullNode (ch ++ [if decide (0 < length val)%nat then valueNode val else nilNode]) (MkFlag hash false)).

Definition decode_node (hash : option bytes) (buf : bytes) : res trie_error node :=
  match buf with
  | [] => Err (NodeRlp ErrUnexpectedEOF)
  | _ =>
      '(elems, _) ← node_rlp (SplitList buf);
      match CountValues elems with
      | Ok (c, None) =>
          if decide (c = 2) then decodeShort hash elems
          else if decide (c = 17) then decodeFull hash elems
          else Err NodeDecodeError
      | Ok (_, Some e) => Err (NodeRlp e)
      | _ => Panic
      end
  end.
End decoding.

Fixpoint decodeNode_fuel (fuel : nat) (hash : option bytes) (buf : bytes) : res trie_error node :=
  match fuel with
  | O => Panic
  | S fuel => decode_node (decodeNode_fuel fuel None) hash buf
  end.

(** An embedded node is part of the list that holds it, so it is shorter. *)
Definition decodeNodeUnsafe (hash : option bytes) (buf : bytes) : res trie_error node :=
  decodeNode_fuel (S (length buf)) hash buf.

(** ** Hashing *)

(** [leafNodeEncoder.encode] and [extNodeEncoder.encode]. *)
Definition leafNodeEncoder_encode (Key Val : bytes) : bytes :=
  let '(w, offset) := eb_list reset in
  makeBytes (listEnd offset (writeBytes Val (writeBytes Key w))).

(** A reference: a small node itself, or the hash of a larger one. *)
Definition write_ref (Val : bytes) (w : encBuffer) : encBuffer :=
  if decide (length Val < 32)%nat then eb_Write Val w else writeBytes Val w.

Definition extNodeEncoder_encode (Key Val : bytes) : bytes :=
  let '(w, offset) := eb_list reset in
  let w := writeBytes Key w in
  makeBytes (listEnd offset (if decide (Val = []) then eb_Write [Byte.x80] w else write_ref Val w)).

(** The loop of [fullnodeEncoder.encode] from child [i] on. *)
Fixpoint write_children (i : nat) (Children : list bytes) (w : encBuffer) : encBuffer :=
  match Children with
  | [] => w
  | c :: rest =>
      write_children (S i) rest
        (if decide (length c = 0%nat) then eb_Write [Byte.x80] w
         else if decide (i = 16%nat) then writeBytes c w else write_ref c w)
  end.

Definition fullnodeEncoder_encode (Children : list bytes) : bytes :=
  let '(w, offset) := eb_list reset in
  makeBytes (listEnd offset (write_children 0 Children w)).

Definition hashData (data : bytes) : bytes := Keccak256 [data].

(** The result of hashing [n] and [n] with the hashes it now caches. A type assertion or a
    node of an unexpected type is a panic. *)
Definition finish_hash (enc : bytes) (force : bool) (with_flags : nodeFlag → node) (fl : nodeFlag) : bytes * node :=
  if decide (length enc < 32)%nat then
    if force then (hashData enc, with_flags (MkFlag (Some (hashData enc)) (nf_dirty fl))) else (enc, with_flags fl)
  else (hashData enc, with_flags (MkFlag (Some (hashData enc)) (nf_dirty fl))).

Fixpoint hash (n : node) (force : bool) : res trie_error (bytes * node) :=
  match n with
  | shortNode k v fl =>
      match nf_hash fl with
      | Some h => Ok (h, n)
      | None =>
          match hexToCompact k with
          | Ok ck =>
              if hasTerm k then
                match v with
                | valueNode b => Ok (finish_hash (leafNodeEncoder_encode ck b) force (shortNode k v) fl)
                | _ => Panic
                end
              else
                '(r, v) ← hash v false;
                Ok (finish_hash (extNodeEncoder_encode ck r) force (shortNode k v) fl)
          | _ => Panic
          end
      end
  | fullNode ch fl =>
      match nf_hash fl with
      | Some h => Ok (h, n)
      | None =>
          '(refs, ch) ← (fix go (i : nat) (l : list node) : res trie_error (list bytes * list node) :=
            match l with
            | [] => Ok ([], [])
            | c :: l =>
                '(r, c) ← (if decide (i = 16%nat) then
                             match c with nilNode => Ok ([], c) | valueNode b => Ok (b, c) | _ => Panic end
                           else match c with nilNode => Ok ([], c) | _ => hash c false end);
                '(rs, l) ← go (S i) l;
                Ok (r :: rs, c :: l)
            end) 0%nat ch;
          Ok (finish_hash (fullnodeEncoder_encode refs) force (fullNode ch) fl)
      end
  | hashNode h => Ok (h, n)
  | _ => Panic
  end.

(** ** Lookup, insertion and removal *)

Inductive event : Type :=
| OnInsert (path : bytes)
| OnDelete (path : bytes)
| Loaded (path blob : bytes).

(** An outcome and the events on the way to it. *)
Definition W (A : Type) : Type := res trie_error A * list event.

#[export] Instance W_ret : MRet W := λ A a, (Ok a, []).
#[export] Instance W_bind : MBind W := λ A B f m,
  match m with
  | (Ok a, ev) => let '(r, ev') := f a in (r, ev ++ ev')
  | (Err e, ev) => (Err e, ev)
  | (Panic, ev) => (Panic, ev)
  end.

Definition fail {A} (e : trie_error) : W A := (Err e, []).
Definition crash {A} : W A := (Panic, []).
Definition tell (e : event) : W () := (Ok (), [e]).

(** The node database, for one owner: [database.NodeReader.Node]. *)
Class NodeDatabase : Type := reader_Node : bytes → Hash → option bytes.

(** The outcome of [delete]; [Failed] carries the node it was called on, as it is then. *)
Inductive outcome : Type :=
| Done (dirty : bool) (n : node)
| Failed (e : trie_error) (orig : node)
| Crashed.

(** The position of the only child that is left. *)
Definition is_nilNode (n : node) : bool := match n with nilNode => true | _ => false end.

Fixpoint children_left (i : nat) (ch : list node) : list nat :=
  match ch with
  | [] => []
  | c :: ch => if is_nilNode c then children_left (S i) ch else i :: children_left (S i) ch
  end.

Definition only_child (ch : list node) : option nat :=
  match children_left 0 ch with [pos] => Some pos | _ => None end.

Definition is_shortNode (n : node) : option (bytes * node) :=
  match n with shortNode k v _ => Some (k, v) | _ => None end.

Section operations.
Context `{NodeDatabase}.

(** [Reader.Node]. *)
Definition Reader_Node (path : bytes) (hash : Hash) : res trie_error bytes :=
  match reader_Node path hash with
  | None | Some [] => Err MissingNodeError
  | Some blob => Ok blob
  end.

Definition resolveAndTrack (h : bytes) (prefix : bytes) : W node :=
  match Reader_Node prefix (BytesToHash h) with
  | Ok blob => tell (Loaded prefix blob);; (decodeNodeUnsafe (Some h) blob, [])
  | Err e => fail e
  | Panic => crash
  end.

Definition resolve (n : node) (prefix : bytes) : W node :=
  match n with hashNode h => resolveAndTrack h prefix | _ => mret n end.

(** [get]: the value, the node and whether something was loaded. The key is split at [pos]:
    [prefix] is [key[:pos]] and [key] is [key[pos:]]. *)
Fixpoint get (fuel : nat) (n : node) (prefix key : bytes) : W (option bytes * node * bool) :=
  match fuel with
  | O => crash
  | S fuel =>
      match n with
      | nilNode => mret (None, nilNode, false)
      | valueNode v => mret (Some v, n, false)
      | shortNode k v fl =>
          if negb (key_prefix k key) then mret (None, n, false)
          else
            '(value, newnode, didResolve) ← get fuel v (prefix ++ k) (drop (length k) key);
            mret (value, if (didResolve : bool) then shortNode k newnode fl else n, didResolve)
      | fullNode ch fl =>
          match key with
          | [] => crash
          | x :: key =>
              match ch !! nib x with
              | None => crash
              | Some c =>
                  '(value, newnode, didResolve) ← get fuel c (prefix ++ [x]) key;
                  mret (value, if (didResolve : bool) then fullNode (<[nib x := newnode]> ch) fl else n, didResolve)
              end
          end
      | hashNode h =>
          child ← resolveAndTrack h prefix;
          '(value, newnode, _) ← get fuel child prefix key;
          mret (value, newnode, true)
      end
  end.

(** [insert] into nothing. *)
Definition insert_nil (prefix key : bytes) (value : node) : W node :=
  match key with
  | [] => mret value
  | _ => tell (OnInsert prefix);; mret (shortNode key value newFlag)
  end.

(** [insert]: whether the node changed, and the new node. *)
Fixpoint insert (fuel : nat) (n : node) (prefix key : bytes) (value : bytes) : W (bool * node) :=
  match fuel with
  | O => crash
  | S fuel =>
      match key with
      | [] =>
          match n with
          | valueNode v => mret (negb (bool_decide (v = value)), valueNode value)
          | _ => mret (true, valueNode value)
          end
      | x :: key' =>
          match n with
          | shortNode k v fl =>
              let matchlen := prefixLen key k in
              if decide (matchlen = length k) then
                '(dirty, nn) ← insert fuel v (prefix ++ take matchlen key) (drop matchlen key) value;
                mret (if (dirty : bool) then (true, shortNode k nn newFlag) else (false, n))
              else
                match k !! matchlen, key !! matchlen with
                | Some kx, Some y =>
                    c1 ← insert_nil (prefix ++ take (S matchlen) k) (drop (S matchlen) k) v;
                    c2 ← insert_nil (prefix ++ take (S matchlen) key) (drop (S matchlen) key) (valueNode value);
                    if decide (nib kx < 17 ∧ nib y < 17)%nat then
                      let branch := fullNode (<[nib y := c2]> (<[nib kx := c1]> (replicate 17 nilNode))) newFlag in
                      if decide (matchlen = 0%nat) then mret (true, branch)
                      else
                        tell (OnInsert (prefix ++ take matchlen key));;
                        mret (true, shortNode (take matchlen key) branch newFlag)
                    else crash
                | _, _ => crash
                end
          | fullNode ch fl =>
              match ch !! nib x with
              | None => crash
              | Some c =>
                  '(dirty, nn) ← insert fuel c (prefix ++ [x]) key' value;
                  mret (if (dirty : bool) then (true, fullNode (<[nib x := nn]> ch) newFlag) else (false, n))
              end
          | nilNode => tell (OnInsert prefix);; mret (true, shortNode key (valueNode value) newFlag)
          | hashNode h =>
              rn ← resolveAndTrack h prefix;
              '(dirty, nn) ← insert fuel rn prefix key value;
              mret (if (dirty : bool) then (true, nn) else (false, rn))
          | valueNode _ => crash
          end
      end
  end.

(** A full node [n'] of which child [x] was just set to nil. *)
Definition reduce_full (n' : node) (ch : list node) (prefix : bytes) : outcome * list event :=
  match only_child ch with
  | None => (Done true n', [])
  | Some pos =>
      let p := z2b (Z.of_nat pos) in
      let c := default nilNode (ch !! pos) in
      if decide (pos = 16%nat) then (Done true (shortNode [p] c newFlag), [])
      else
        match resolve c (prefix ++ [p]) with
        | (Err e, ev) => (Failed e n', ev)
        | (Panic, ev) => (Crashed, ev)
        | (Ok cnode, ev) =>
            match is_shortNode cnode with
            | Some (k, v) => (Done true (shortNode (p :: k) v newFlag), ev ++ [OnDelete (prefix ++ [p])])
            | None => (Done true (shortNode [p] c newFlag), ev)
            end
        end
  end.

Definition more_events (ev : list event) (o : outcome * list event) : outcome * list event := (fst o, ev ++ snd o).

Fixpoint delete (fuel : nat) (n : node) (prefix key : bytes) : outcome * list event :=
  match fuel with
  | O => (Crashed, [])
  | S fuel =>
      match n with
      | shortNode k v fl =>
          let matchlen := prefixLen key k in
          if decide (matchlen < length k)%nat then (Done false n, [])
          else if decide (matchlen = length key) then (Done true nilNode, [OnDelete prefix])
          else
            match delete fuel v (prefix ++ take (length k) key) (drop (length k) key) with
            | (Failed e v, ev) => (Failed e (shortNode k v fl), ev)
            | (Crashed, ev) => (Crashed, ev)
            | (Done false _, ev) => (Done false n, ev)
            | (Done true child, ev) =>
                match is_shortNode child with
                | Some (k', v') => (Done true (shortNode (k ++ k') v' newFlag), ev ++ [OnDelete (prefix ++ k)])
                | None => (Done true (shortNode k child newFlag), ev)
                end
            end
      | fullNode ch fl =>
          match key with
          | [] => (Crashed, [])
          | x :: key =>
              match ch !! nib x with
              | None => (Crashed, [])
              | Some c =>
                  match delete fuel c (prefix ++ [x]) key with
                  | (Failed e c, ev) => (Failed e (fullNode (<[nib x := c]> ch) fl), ev)
                  | (Crashed, ev) => (Crashed, ev)
                  | (Done false _, ev) => (Done false n, ev)
                  | (Done true nn, ev) =>
                      let ch' := <[nib x := nn]> ch in
                      let n' := fullNode ch' newFlag in
                      if is_nilNode nn then more_events ev (reduce_full n' ch' prefix) else (Done true n', ev)
                  end
              end
          end
      | valueNode _ => (Done true nilNode, [])
      | nilNode => (Done false nilNode, [])
      | hashNode h =>
          match resolveAndTrack h prefix with
          | (Err e, ev) => (Failed e n, ev)
          | (Panic, ev) => (Crashed, ev)
          | (Ok rn, ev) =>
              match delete fuel rn prefix key with
              | (Failed e _, ev') => (Failed e n, ev ++ ev')
              | (Done false _, ev') => (Done false rn, ev ++ ev')
              | (o, ev') => (o, ev ++ ev')
              end
          end
      end
  end.
End operations.

(** ** The trie *)

Record Trie : Type := MkTrie {
  root : node;
  committed : bool;
  unhashed : Z;
  uncommitted : Z;
  inserts : gset bytes;        (** [opTracer] *)
  deletes : gset bytes;
  prevalues : gmap bytes bytes (** [PrevalueTracer] *)
}.

Definition empty_Trie : Trie := MkTrie nilNode false 0 0 ∅ ∅ ∅.

(** [onInsert], [onDelete] and [Put]. *)
Definition track (t : Trie) (e : event) : Trie :=
  let 'MkTrie r c uh uc ins del pre := t in
  match e with
  | OnInsert path =>
      if decide (path ∈ del) then MkTrie r c uh uc ins (del ∖ {[path]}) pre
      else MkTrie r c uh uc (ins ∪ {[path]}) del pre
  | OnDelete path =>
      if decide (path ∈ ins) then MkTrie r c uh uc (ins ∖ {[path]}) del pre
      else MkTrie r c uh uc ins (del ∪ {[path]}) pre
  | Loaded path blob => MkTrie r c uh uc ins del (<[path := blob]> pre)
  end.

Definition set_root (n : node) (t : Trie) : Trie :=
  MkTrie n (committed t) (unhashed t) (uncommitted t) (inserts t) (deletes t) (prevalues t).

Definition count_update (t : Trie) : Trie :=
  MkTrie (root t) (committed t) (unhashed t + 1) (uncommitted t + 1) (inserts t) (deletes t) (prevalues t).

(** Every step that does not consume a part of the key resolves a hash node, and what it
    resolves to is not one. *)
Definition trie_fuel (key : bytes) : nat := (2 * length key + 2)%nat.

Definition EmptyRootHash : Hash :=
  HexToHash (Bytes2Hex (be_bytes 32 0x56e81f171bcc55a6ff8345e692c0f86e5b48e01b996cadc001622fb5e363b421)).

Section trie.
Context `{NodeDatabase}.

Definition Trie_New (rootHash : Hash) : res trie_error Trie :=
  if decide (rootHash = Hash0 ∨ rootHash = EmptyRootHash) then Ok empty_Trie
  else
    match resolveAndTrack rootHash [] with
    | (Ok rootnode, ev) => Ok (set_root rootnode (foldl track empty_Trie ev))
    | (Err e, _) => Err e
    | (Panic, _) => Panic
    end.

Definition Get (t : Trie) (key : bytes) : res trie_error (option bytes) * Trie :=
  if committed t then (Err ErrCommitted, t)
  else
    let k := keybytesToHex key in
    match get (trie_fuel k) (root t) [] k with
    | (Ok (value, newroot, didResolve), ev) =>
        let t := foldl track t ev in
        (Ok value, if (didResolve : bool) then set_root newroot t else t)
    | (Err e, ev) => (Err e, foldl track t ev)
    | (Panic, ev) => (Panic, t)
    end.

(** The part of [update] and [Delete] that removes a key. *)
Definition remove_key (t : Trie) (key : bytes) : res trie_error () * Trie :=
  let k := keybytesToHex key in
  match delete (trie_fuel k) (root t) [] k with
  | (Done dirty n, ev) => (Ok (), set_root n (foldl track t ev))
  | (Failed e orig, ev) => (Err e, set_root orig (foldl track t ev))
  | (Crashed, ev) => (Panic, t)
  end.

Definition update (t : Trie) (key value : bytes) : res trie_error () * Trie :=
  let t := count_update t in
  if decide (length value ≠ 0%nat) then
    let k := keybytesToHex key in
    match insert (trie_fuel k) (root t) [] k value with
    | (Ok (_, n), ev) => (Ok (), set_root n (foldl track t ev))
    | (Err e, ev) => (Err e, foldl track t ev)
    | (Panic, ev) => (Panic, t)
    end
  else remove_key t key.

Definition Update (t : Trie) (key value : bytes) : res trie_error () * Trie :=
  if committed t then (Err ErrCommitted, t) else update t key value.

Definition Delete (t : Trie) (key : bytes) : res trie_error () * Trie :=
  if committed t then (Err ErrCommitted, t) else remove_key (count_update t) key.

(** [hashRoot] and [Hash]. *)
Definition hashRoot (t : Trie) : res trie_error (bytes * Trie) :=
  match root t with
  | nilNode => Ok (EmptyRootHash, t)
  | n =>
      '(h, n) ← hash n true;
      Ok (h, MkTrie n (committed t) 0 (uncommitted t) (inserts t) (deletes t) (prevalues t))
  end.

Definition Trie_Hash (t : Trie) : res trie_error (Hash * Trie) :=
  '(h, t) ← hashRoot t;
  Ok (BytesToHash h, t).
End trie.

(** ** Examples *)

#[local] Instance no_database : NodeDatabase := λ _ _, None.

Definition put (t : Trie) (kv : bytes * bytes) : Trie := snd (Update t kv.1 kv.2).

Definition ex_puts (l : list (bytes * bytes)) : Trie := foldl put empty_Trie l.

Definition ex_key (l : list Z) : bytes := z2b <$> l.

(** The first test vector of [trie_test.go]: dog, horse, dogglesworth. *)
Definition ex_doe : Trie :=
  ex_puts [(ex_key [0x64; 0x6f; 0x65], ex_key [0x72; 0x65; 0x69; 0x6e; 0x64; 0x65; 0x65; 0x72]);
           (ex_key [0x64; 0x6f; 0x67], ex_key [0x70; 0x75; 0x70; 0x70; 0x79]);
           (ex_key [0x64; 0x6f; 0x67; 0x67; 0x6c; 0x65; 0x73; 0x77; 0x6f; 0x72; 0x74; 0x68], ex_key [0x63; 0x61; 0x74])].

Example ex_doe_hash :
  fst <$> Trie_Hash ex_doe = Ok (be_bytes 32 0x8aad789dff2f538bca5d8ea56e8abe10f4c7ba3a5dea95fea4cd6e7c3a1168d3).
Proof. vm_compute. reflexivity. Qed.

Example ex_doe_get : fst (Get ex_doe (ex_key [0x64; 0x6f; 0x67])) = Ok (Some (ex_key [0x70; 0x75; 0x70; 0x70; 0x79])).
Proof. vm_compute. reflexivity. Qed.
