(* ===== verification/TrieFacts.v ===== *)
(** * What the trie computes

    [rep r p n t]: the node [n] at path [p] stands for the tree [t], parts of it in the
    database, with correct cached hashes ([r] for the root, whose hash is cached however
    small the node is). The operations of [Trie] are those of [RadixTree] under this
    relation; the hash of a root is the hash of the encoding of its tree. *)
From Stdlib Require Import ZArith Lia.
From Stdlib Require Strings.Byte.
From stdpp Require Import base tactics decidable list numbers gmap.
From S2P Require Import Prelude Keccak Common Rlp HexKeys RadixTree Trie.

(** ** Encoding of trees *)

Definition compact (k : bytes) : bytes := match hexToCompact k with Ok c => c | _ => [] end.

(** A node inside of another one: itself if it is small, else its hash. *)
Definition ref_item (it : item) : item :=
  if decide (length (enc it) < 32)%nat then it else Str (Keccak256 [enc it]).

Fixpoint titem (t : tree) : item :=
  let child (t : tree) : item :=
    match t with TNil => Str [] | TValue v => Str v | _ => ref_item (titem t) end in
  match t with
  | TNil => Str []
  | TValue v => Str v
  | TShort k t => Lst [Str (compact k); child t]
  | TFull ch => Lst (child <$> ch)
  end.

Definition child_item (t : tree) : item :=
  match t with TNil => Str [] | TValue v => Str v | _ => ref_item (titem t) end.

Lemma titem_TShort k t : titem (TShort k t) = Lst [Str (compact k); child_item t].
Proof. done. Qed.

Lemma titem_TFull ch : titem (TFull ch) = Lst (child_item <$> ch).
Proof. done. Qed.

Definition tenc (t : tree) : bytes := enc (titem t).

Definition thash (t : tree) : bytes := Keccak256 [tenc t].

(** What [hash] returns for a tree. *)
Definition tref (force : bool) (t : tree) : bytes :=
  if decide (length (tenc t) < 32)%nat then if force then thash t else tenc t else thash t.

Definition tree_root (t : tree) : Hash := match t with TNil => EmptyRootHash | _ => thash t end.

(** Trees whose encodings are addressable. *)
Inductive subtree : tree → tree → Prop :=
| sub_refl t : subtree t t
| sub_short s k t : subtree s t → subtree s (TShort k t)
| sub_full s ch i t : ch !! i = Some t → subtree s t → subtree s (TFull ch).

Definition sized (t : tree) : Prop := ∀ s, subtree s t → Z.of_nat (length (tenc s)) < two64.

Lemma sized_short k t : sized (TShort k t) → sized t.
Proof. intros H s Hs. apply H. by constructor. Qed.

Lemma sized_full ch i t : sized (TFull ch) → ch !! i = Some t → sized t.
Proof. intros H Hi s Hs. apply H. by econstructor. Qed.

Lemma hexToCompact_compact term k : hex_ok term k → hexToCompact k = Ok (compact k).
Proof. intros Hk. destruct (compact_roundtrip term k Hk) as (c & E & _). unfold compact. by rewrite E. Qed.

Lemma leaf_hex k : leaf_key k → hex_ok true k.
Proof. done. Qed.

Lemma nibbles_hex k : Forall is_nibble k → hex_ok false k.
Proof. exists k. by rewrite app_nil_r. Qed.

(** ** The encoders *)

Lemma encode_Lst l :
  Z.of_nat (length (enc (Lst l))) < two64 →
  makeBytes (listEnd 0 (eb_Write (enc_seq l) (fst (eb_list reset)))) = enc (Lst l).
Proof.
  intros Hlen. assert (Z.of_nat (length (enc_seq l)) < two64) as Hseq.
  { rewrite enc_Lst in Hlen. unfold enc_list in Hlen. rewrite length_app in Hlen. lia. }
  rewrite enc_Lst. pose proof (represents_list (eb_Write (enc_seq l) reset) (enc_seq l) (represents_Write _) Hseq) as (_ & HM & _).
  rewrite eb_Write_app. exact HM.
Qed.

Lemma enc_seq_2 a b : enc_seq [a; b] = enc a ++ enc b.
Proof. rewrite !enc_seq_cons. unfold enc_seq. cbn. by rewrite app_nil_r. Qed.

Ltac open_list := change (eb_list reset) with (fst (eb_list reset), 0%nat); cbv beta iota zeta.

Lemma leaf_encode k v :
  Z.of_nat (length (enc (Lst [Str k; Str v]))) < two64 → leafNodeEncoder_encode k v = enc (Lst [Str k; Str v]).
Proof.
  intros Hlen. rewrite <-(encode_Lst _ Hlen), enc_seq_2. unfold leafNodeEncoder_encode. open_list.
  rewrite !writeBytes_enc, eb_Write_Write. done.
Qed.

Lemma length_thash t : length (thash t) = 32%nat.
Proof. apply length_Keccak256. Qed.

Definition is_branching (t : tree) : Prop := match t with TShort _ _ | TFull _ => True | _ => False end.

Lemma wf_branching t : wf t → is_branching t.
Proof. by destruct t. Qed.

Lemma tref_nonempty f t : tref f t ≠ [].
Proof.
  intros E. assert (0 < length (tref f t))%nat; [|by rewrite E in *; cbn in *; lia].
  pose proof (enc_nonempty (titem t)). pose proof (length_thash t). unfold tref, tenc in *. repeat case_decide; destruct f; lia.
Qed.

Lemma write_ref_tref t w : is_branching t → write_ref (tref false t) w = eb_Write (enc (child_item t)) w.
Proof.
  intros Ht. assert (child_item t = ref_item (titem t)) as -> by by destruct t. unfold write_ref, tref, ref_item, tenc.
  pose proof (length_thash t). destruct (decide (length (enc (titem t)) < 32)%nat).
  - by rewrite decide_True.
  - rewrite decide_False by lia. apply writeBytes_enc.
Qed.

Lemma ext_encode k t :
  is_branching t → Z.of_nat (length (enc (Lst [Str k; child_item t]))) < two64 →
  extNodeEncoder_encode k (tref false t) = enc (Lst [Str k; child_item t]).
Proof.
  intros Ht Hlen. rewrite <-(encode_Lst _ Hlen), enc_seq_2. unfold extNodeEncoder_encode. open_list.
  rewrite decide_False by apply tref_nonempty. rewrite write_ref_tref, writeBytes_enc, eb_Write_Write by done. done.
Qed.

(** What a child contributes to [fullnodeEncoder]. *)
Definition child_ref (t : tree) : bytes :=
  match t with TNil => [] | TValue v => v | _ => tref false t end.

Lemma write_children_spec ts : ∀ i w,
  (∀ j t, ts !! j = Some t → slot_ok (i + j) t) →
  write_children i (child_ref <$> ts) w = eb_Write (enc_seq (child_item <$> ts)) w.
Proof.
  induction ts as [|t ts IH]; intros i w Hs; cbn [fmap list_fmap write_children].
  - unfold eb_Write. destruct w; cbn. by rewrite app_nil_r.
  - rewrite IH. 2: { intros j u Hj. replace (S i + j)%nat with (i + S j)%nat by lia. by apply Hs. }
    change (child_item <$> t :: ts) with (child_item t :: (child_item <$> ts)). rewrite enc_seq_cons, <-eb_Write_Write. f_equal.
    specialize (Hs 0%nat t eq_refl). rewrite Nat.add_0_r in Hs. destruct Hs as [->|Hs]; [done|]. revert Hs.
    destruct (decide (i = 16%nat)) as [E16|E16]; intros Hs.
    + destruct t; try done. rewrite decide_False by (by intros ?%length_zero_iff_nil). apply writeBytes_enc.
    + pose proof (wf_branching t Hs). replace (child_ref t) with (tref false t) by by destruct t.
      rewrite decide_False by (intros E%length_zero_iff_nil; by apply (tref_nonempty false t)). by apply write_ref_tref.
Qed.

Lemma full_encode ts :
  wf (TFull ts) → Z.of_nat (length (tenc (TFull ts))) < two64 →
  fullnodeEncoder_encode (child_ref <$> ts) = tenc (TFull ts).
Proof.
  intros (_ & _ & Hs)%wf_TFull Hlen. unfold tenc in *. rewrite titem_TFull in *. rewrite <-(encode_Lst _ Hlen).
  unfold fullnodeEncoder_encode. open_list. by rewrite write_children_spec.
Qed.

(** ** Nodes and paths *)

(** [node_at p t q s]: if [t] is at path [p], then [s] is a node of it at path [q]. *)
Inductive node_at : bytes → tree → bytes → tree → Prop :=
| at_here p t : node_at p t p t
| at_short p k t q s : node_at (p ++ k) t q s → node_at p (TShort k t) q s
| at_full p ch i t q s : ch !! i = Some t → node_at (p ++ [z2b (Z.of_nat i)]) t q s → node_at p (TFull ch) q s.

Lemma node_at_prefix p t q s : node_at p t q s → ∃ r, q = p ++ r.
Proof.
  induction 1 as [p t|p k t q s _ [r ->]|p ch i t q s _ _ [r ->]]; [exists []; by rewrite app_nil_r | by eexists (k ++ r); rewrite app_assoc|].
  exists (z2b (Z.of_nat i) :: r). by rewrite <-app_assoc.
Qed.

(** Nodes that are stored on their own: the root and all that are not embedded. *)
Definition own (q : bytes) (s : tree) : Prop := wf s ∧ ((32 <= length (tenc s))%nat ∨ q = []).

(** ** Representation *)

Section representation.
Context `{NodeDatabase}.

(** What the database holds at a path under a hash. *)
Definition stored (p : bytes) (h : bytes) (n : node) : Prop :=
  ∃ blob, Reader_Node p (BytesToHash h) = Ok blob ∧ decodeNodeUnsafe (Some h) blob = Ok n.

(** The database holds the nodes of the tree at path [p]. *)
Definition holds (p : bytes) (t : tree) : Prop :=
  ∀ q s, node_at p t q s → own q s → reader_Node q (thash s) = Some (tenc s).

(** Loaded nodes that are not embedded have their hashes cached. *)
Inductive settled : node → tree → Prop :=
| settled_nil : settled nilNode TNil
| settled_value v : settled (valueNode v) (TValue v)
| settled_hash h t : settled (hashNode h) t
| settled_short k n t fl :
    settled n t → ((32 <= length (tenc (TShort k t)))%nat → nf_hash fl ≠ None) → settled (shortNode k n fl) (TShort k t)
| settled_full ch ts fl :
    (∀ i c t, ch !! i = Some c → ts !! i = Some t → settled c t) →
    ((32 <= length (tenc (TFull ts)))%nat → nf_hash fl ≠ None) → settled (fullNode ch fl) (TFull ts).

(** The flags of a node: a cached hash is that of the node, below the root only large nodes
    have one, and then all below is hashed ([below]); a clean node is in the database with
    all its subtrees, at paths in [D], those that are not deleted. *)
Definition cached (D : bytes → Prop) (r : bool) (p : bytes) (fl : nodeFlag) (t : tree) (below : Prop) : Prop :=
  match nf_hash fl with
  | None => True
  | Some h => h = thash t ∧ (r = true ∨ 32 <= length (tenc t))%nat ∧ below
  end ∧
  (nf_dirty fl = false → holds p t ∧ ∀ q s, node_at p t q s → own q s → D q).

Inductive rep (D : bytes → Prop) : bool → bytes → node → tree → Prop :=
| rep_nil r p : rep D r p nilNode TNil
| rep_value r p v : rep D r p (valueNode v) (TValue v)
| rep_short r p k n t fl :
    rep D false (p ++ k) n t → cached D r p fl (TShort k t) (settled n t) → rep D r p (shortNode k n fl) (TShort k t)
| rep_full r p ch ts fl :
    length ch = length ts →
    (∀ i c t, ch !! i = Some c → ts !! i = Some t → rep D false (p ++ [z2b (Z.of_nat i)]) c t) →
    cached D r p fl (TFull ts) (∀ i c t, ch !! i = Some c → ts !! i = Some t → settled c t) →
    rep D r p (fullNode ch fl) (TFull ts)
| rep_hash r p h n t :
    stored p h n → rep D false p n t → settled n t → holds p t → (∀ q s, node_at p t q s → own q s → D q) →
    is_branching t → h = thash t → (32 <= length (tenc t))%nat →
    rep D r p (hashNode h) t.

Lemma cached_weaken D r p fl t B : cached D false p fl t B → cached D r p fl t B.
Proof.
  intros [Hh Hd]. split; [|done]. destruct (nf_hash fl); [|done]. destruct Hh as (-> & [|] & HB); [done|].
  split; [done|]. split; [by right | done].
Qed.

Lemma rep_weaken D r p n t : rep D false p n t → rep D r p n t.
Proof. inversion 1; subst; econstructor; eauto using cached_weaken. Qed.

Lemma cached_new D r p t B : cached D r p newFlag t B.
Proof. done. Qed.

(** *** Hashing *)

Lemma finish_hash_rep D r p t fl enc (mk : nodeFlag → node) (B : Prop) :
  enc = tenc t → (∀ fl', cached D r p fl' t B → rep D r p (mk fl') t) → nf_hash fl = None → cached D r p fl t B → B →
  (∀ fl', ((32 <= length (tenc t))%nat → nf_hash fl' ≠ None) → settled (mk fl') t) →
  ∃ n', finish_hash enc r mk fl = (tref r t, n') ∧ rep D r p n' t ∧ settled n' t.
Proof.
  intros -> Hmk Hn Hfl HB Hst. unfold finish_hash, tref, hashData. fold (thash t).
  assert ((r = true ∨ 32 <= length (tenc t))%nat → cached D r p (MkFlag (Some (thash t)) (nf_dirty fl)) t B) as Hc.
  { intros Hl. split; [done | apply Hfl]. }
  case_decide; [destruct r|]; eexists; (split; [done|]); (split; [apply Hmk; auto|]); try (by apply Hst).
  - apply Hst. rewrite Hn. lia.
  - apply Hc. right. lia.
Qed.

(** The loop over the children of [encodeFullNode]. *)
Fixpoint hash_children (i : nat) (l : list node) : res trie_error (list bytes * list node) :=
  match l with
  | [] => Ok ([], [])
  | c :: l =>
      '(r, c) ← (if decide (i = 16%nat) then
                   match c with nilNode => Ok ([], c) | valueNode b => Ok (b, c) | _ => Panic end
                 else match c with nilNode => Ok ([], c) | _ => hash c false end);
      '(rs, l) ← hash_children (S i) l;
      Ok (r :: rs, c :: l)
  end.

Lemma hash_full ch fl force :
  nf_hash fl = None →
  hash (fullNode ch fl) force =
    ('(refs, ch) ← hash_children 0 ch; Ok (finish_hash (fullnodeEncoder_encode refs) force (fullNode ch) fl)).
Proof. intros E. cbn [hash]. rewrite E. done. Qed.

Definition hash_ok (D : bytes → Prop) (r : bool) (p : bytes) (n : node) (t : tree) : Prop :=
  wf t → sized t → ∃ n', hash n r = Ok (tref r t, n') ∧ rep D r p n' t ∧ settled n' t.

Lemma hash_children_ok D p ch : ∀ i ts,
  length ch = length ts →
  (∀ j t, ts !! j = Some t → slot_ok (i + j) t ∧ sized t) →
  (∀ j c t, ch !! j = Some c → ts !! j = Some t →
     rep D false (p ++ [z2b (Z.of_nat (i + j))]) c t ∧ hash_ok D false (p ++ [z2b (Z.of_nat (i + j))]) c t) →
  ∃ ch', hash_children i ch = Ok (child_ref <$> ts, ch') ∧ length ch' = length ts ∧
    ∀ j c t, ch' !! j = Some c → ts !! j = Some t → rep D false (p ++ [z2b (Z.of_nat (i + j))]) c t ∧ settled c t.
Proof.
  induction ch as [|c ch IH]; intros i [|t ts] Hlen Hts Hch; try done.
  { exists []. split; [done|]. split; [done|]. intros j ??. by rewrite lookup_nil. }
  destruct (Hch 0%nat c t eq_refl eq_refl) as [Hrep Hhash]. rewrite Nat.add_0_r in Hrep, Hhash.
  destruct (Hts 0%nat t eq_refl) as [Hslot Hsz]. rewrite Nat.add_0_r in Hslot.
  destruct (IH (S i) ts) as (ch' & E & Hlen' & Hch').
  { by injection Hlen. }
  { intros j u Hj. replace (S i + j)%nat with (i + S j)%nat by lia. by apply Hts. }
  { intros j c' u Hc Hj. replace (S i + j)%nat with (i + S j)%nat by lia. by apply Hch. }
  assert (∃ c', (if decide (i = 16%nat) then
                   match c with nilNode => Ok ([], c) | valueNode b => Ok (b, c) | _ => Panic end
                 else match c with nilNode => Ok ([], c) | _ => hash c false end) = Ok (child_ref t, c') ∧
                rep D false (p ++ [z2b (Z.of_nat i)]) c' t ∧ settled c' t) as (c' & Ec & Hc').
  { destruct Hslot as [->|Hslot]; [inversion Hrep; subst; try done; exists nilNode; by case_decide; repeat constructor|]. case_decide.
    - destruct t as [|v| |]; try done. inversion Hrep; subst; [|done]. eexists. by repeat constructor.
    - destruct (Hhash Hslot Hsz) as (c' & Ec & Hc'). exists c'. split; [|done].
      pose proof (wf_branching t Hslot). replace (child_ref t) with (tref false t) by by destruct t.
      destruct c; try done. }
  exists (c' :: ch'). cbn [hash_children]. rewrite Ec. cbn [mbind res_bind]. rewrite E. split; [done|].
  split; [cbn; by rewrite Hlen'|]. intros [|j] c'' u Hc Hu.
  - rewrite Nat.add_0_r. by injection Hc as <-; injection Hu as <-.
  - replace (i + S j)%nat with (S i + j)%nat by lia. by apply Hch'.
Qed.

Lemma cached_tref D r p fl t B h : cached D r p fl t B → nf_hash fl = Some h → h = tref r t ∧ B.
Proof.
  unfold cached, tref. intros [Hc _] E. rewrite E in Hc. destruct Hc as (-> & [->|] & HB); (split; [|done]); case_decide; try done. lia.
Qed.

Lemma hash_rep D r p n t : rep D r p n t → hash_ok D r p n t.
Proof.
  induction 1 as [r p|r p v|r p k n t fl Hrep IH Hc|r p ch ts fl Hlen Hch IH Hc|r p h n t Hst Hrep IH Hset Hh HD Hb -> Hl]; intros Hw Hsz.
  - done.
  - done.
  - destruct (nf_hash fl) as [h|] eqn:Eh.
    { destruct (cached_tref _ _ _ _ _ _ _ Hc Eh) as [-> HB]. cbn [hash]. rewrite Eh. eexists. split; [done|].
      split; [by constructor|]. constructor; [done | by rewrite Eh]. }
    cbn [hash]. rewrite Eh. pose proof (Hsz _ (sub_refl _)) as Hlen. unfold tenc in Hlen. rewrite titem_TShort in Hlen.
    destruct Hw as [[Hk Hv]|(Hne & Hk & Hf & Hw)].
    + rewrite (hexToCompact_compact true), (hasTerm_hex true) by done. destruct t as [|v| |]; try done.
      inversion Hrep; subst; [|done]. destruct (finish_hash_rep D r p (TShort k (TValue v)) fl
        (leafNodeEncoder_encode (compact k) v) (shortNode k (valueNode v)) (settled (valueNode v) (TValue v))) as (n' & -> & Hn');
        [by apply leaf_encode| |done|done|constructor| |by eexists]; intros fl' Hfl'; constructor; done || constructor.
    + rewrite (hexToCompact_compact false), (hasTerm_hex false) by (by apply nibbles_hex).
      destruct (IH Hw (sized_short _ _ Hsz)) as (n' & -> & Hn' & Hs'). cbn [mbind res_bind].
      destruct (finish_hash_rep D r p (TShort k t) fl (extNodeEncoder_encode (compact k) (tref false t)) (shortNode k n') (settled n' t))
        as (n'' & -> & Hn''); [by apply ext_encode; [apply wf_branching|]| |done| |done| |by eexists].
      * intros fl' Hfl'. by constructor.
      * destruct Hc as [_ Hc]. split; [by rewrite Eh | done].
      * intros fl' Hfl'. by constructor.
  - destruct (nf_hash fl) as [h|] eqn:Eh.
    { destruct (cached_tref _ _ _ _ _ _ _ Hc Eh) as [-> HB]. cbn [hash]. rewrite Eh. eexists. split; [done|].
      split; [by constructor|]. constructor; [done | by rewrite Eh]. }
    rewrite hash_full by done. pose proof Hw as (Hl & _ & Hs)%wf_TFull.
    destruct (hash_children_ok D p ch 0 ts) as (ch' & -> & Hlen' & Hch'); [done| |intros; split; auto|].
    { intros j t Hj. split; [by apply Hs | by eapply sized_full]. }
    cbn [mbind res_bind].
    destruct (finish_hash_rep D r p (TFull ts) fl (fullnodeEncoder_encode (child_ref <$> ts)) (fullNode ch')
      (∀ i c t, ch' !! i = Some c → ts !! i = Some t → settled c t)) as (n' & -> & Hn');
      [apply full_encode; [done | apply Hsz; constructor] | | done | | intros; by eapply Hch' | | by eexists].
    + intros fl' Hfl'. constructor; [done | intros; by apply Hch' | done].
    + destruct Hc as [_ Hc]. split; [by rewrite Eh | done].
    + intros fl' Hfl'. constructor; [intros; by eapply Hch' | done].
  - eexists. split; [|split; [by econstructor | constructor]]. cbn. unfold tref. by rewrite decide_False by lia.
Qed.

Definition is_hashNode (n : node) : bool := match n with hashNode _ => true | _ => false end.

(** The root of a hashed trie has its hash cached. *)
Lemma hash_cached n h n' : hash n true = Ok (h, n') → is_hashNode n' = false → fst (cache n') ≠ None.
Proof.
  assert (∀ enc mk fl r, (∀ fl, fst (cache (mk fl)) = nf_hash fl) → finish_hash enc true mk fl = (r, n') → fst (cache n') ≠ None) as Hfin.
  { intros enc mk fl r Hmk. unfold finish_hash. case_decide; intros [= _ <-]; by rewrite Hmk. }
  destruct n as [|ch fl|k v fl|h'|v]; intros E Hn.
  - done.
  - destruct (nf_hash fl) as [h0|] eqn:Eh; [cbn [hash] in E; rewrite Eh in E; injection E as <- <-; cbn; by rewrite Eh|].
    rewrite hash_full in E by done. apply bind_Ok in E as ([refs ch'] & _ & [= E]). by apply Hfin in E.
  - cbn [hash] in E. destruct (nf_hash fl) as [h0|] eqn:Eh; [injection E as <- <-; cbn; by rewrite Eh|].
    destruct (hexToCompact k); try done. destruct (hasTerm k).
    + destruct v; try done. injection E as E. by apply Hfin in E.
    + apply bind_Ok in E as ([ref v'] & _ & [= E]). by apply Hfin in E.
  - by injection E as <- <-.
  - done.
Qed.

(** *** Loading *)

Lemma decoded_not_hash h blob n : decodeNodeUnsafe h blob = Ok n → is_hashNode n = false.
Proof.
  unfold decodeNodeUnsafe. cbn [decodeNode_fuel]. unfold decode_node. destruct blob as [|x blob]; [done|].
  intros ([elems rest] & _ & E)%bind_Ok. destruct (CountValues elems) as [[c [e|]]| |]; try done. repeat case_decide; try done.
  - apply bind_Ok in E as ([kbuf r] & _ & E). cbv zeta in E. destruct (hasTerm (compactToHex kbuf)).
    + by apply bind_Ok in E as ([? ?] & _ & [= <-]).
    + by apply bind_Ok in E as ([? ?] & _ & [= <-]).
  - apply bind_Ok in E as ([ch r] & _ & E). by apply bind_Ok in E as ([? ?] & _ & [= <-]).
Qed.

Lemma resolve_stored p h n : stored p h n → ∃ ev, resolveAndTrack h p = (Ok n, ev) ∧ (∀ q, OnDelete q ∉ ev).
Proof.
  intros (blob & E1 & E2). unfold resolveAndTrack. rewrite E1, <-E2. cbn. eexists. split; [done|]. set_solver.
Qed.

(** Steps that are left for a key: two for every part of it. *)
Definition cost (n : node) (key : bytes) : nat := (2 * length key + if is_hashNode n then 2 else 1)%nat.

Lemma cost_pos n key : (cost n key <= 0)%nat → False.
Proof. unfold cost. destruct (is_hashNode n); lia. Qed.

Lemma cost_child n c k r : k ≠ [] → is_hashNode n = false → (cost c r < cost n (k ++ r))%nat.
Proof.
  intros Hk Hn. unfold cost. rewrite Hn, length_app. destruct k; [done|]. cbn. destruct (is_hashNode c); lia.
Qed.

Lemma cost_loaded h n key : is_hashNode n = false → (cost n key < cost (hashNode h) key)%nat.
Proof. intros Hn. unfold cost. rewrite Hn. cbn. lia. Qed.

(** A tree met with a key: a tree for a key that is not used up, else a value. *)
Definition at_key (t : tree) (key : bytes) : Prop :=
  (key_ok key ∧ root_ok t) ∨ (key = [] ∧ (t = TNil ∨ is_value t)).

Lemma at_key_short k t r : wf (TShort k t) → key_ok (k ++ r) → at_key t r ∧ k ≠ [].
Proof.
  intros Hw Hk. split; [|by eapply wf_TShort_key]. destruct Hw as [[Hl Hv]|(Hne & Hn & Hf & Hw)].
  - right. split; [by apply (leaf_app_key k) | by right].
  - left. rewrite key_ok_app in Hk by done. split; [done | by right].
Qed.

Lemma at_key_full ch x key : wf (TFull ch) → key_ok (x :: key) → ∃ t, ch !! nib x = Some t ∧ at_key t key.
Proof.
  intros Hw Hk. destruct (slot_lookup ch x key Hw Hk) as (t & Ht & [(_ & ? & ?)|(_ & ? & ?)]); exists t; (split; [done|]); [left|right]; done.
Qed.

Lemma at_key_tree t key : is_branching t → at_key t key → key_ok key ∧ wf t.
Proof. intros Hb [[Hk [->|Hw]]|(_ & [->|Hv])]; [done..|]. by destruct t. Qed.

Lemma z2b_nib x : z2b (Z.of_nat (nib x)) = x.
Proof. unfold nib. pose proof (b2z_range x). rewrite Z2Nat.id by lia. apply z2b_b2z. Qed.

Lemma lookup_same {A B} (l1 : list A) (l2 : list B) i y :
  length l1 = length l2 → l2 !! i = Some y → ∃ x, l1 !! i = Some x.
Proof. intros Hl Hy. apply lookup_lt_is_Some_2. rewrite Hl. by eapply lookup_lt_Some. Qed.

(** Replacing a child and its tree. *)
Lemma set_child_cases {A B} (ch : list A) (ts : list B) i j c t c' t' :
  length ch = length ts → <[i := c]> ch !! j = Some c' → <[i := t]> ts !! j = Some t' →
  (j = i ∧ c' = c ∧ t' = t) ∨ (j ≠ i ∧ ch !! j = Some c' ∧ ts !! j = Some t').
Proof.
  intros Hlen Hc Ht. apply list_lookup_insert_Some in Hc as [(<- & <- & Hlt)|(Hne & Hc)].
  - rewrite list_lookup_insert_eq in Ht by lia. injection Ht as <-. by left.
  - rewrite list_lookup_insert_ne in Ht by done. by right.
Qed.

Lemma rep_set_child D r p ch ts x c t fl :
  length ch = length ts →
  (∀ i c t, ch !! i = Some c → ts !! i = Some t → rep D false (p ++ [z2b (Z.of_nat i)]) c t) →
  rep D false (p ++ [x]) c t →
  cached D r p fl (TFull (<[nib x := t]> ts))
    (∀ i c' t', <[nib x := c]> ch !! i = Some c' → <[nib x := t]> ts !! i = Some t' → settled c' t') →
  rep D r p (fullNode (<[nib x := c]> ch) fl) (TFull (<[nib x := t]> ts)).
Proof.
  intros Hlen Hch Hc Hfl. constructor; [by rewrite !length_insert| |done]. intros i c' t' Hc' Ht'.
  destruct (set_child_cases _ _ _ _ _ _ _ _ Hlen Hc' Ht') as [(-> & -> & ->)|(_ & ? & ?)]; [by rewrite z2b_nib | eauto].
Qed.

Lemma cached_below D r p fl t (B B' : Prop) : (B → B') → cached D r p fl t B → cached D r p fl t B'.
Proof. intros HB [Hh Hd]. split; [|done]. destruct (nf_hash fl); [|done]. naive_solver. Qed.

(** *** Lookup *)

Lemma get_rep D r p n t : rep D r p n t → ∀ fuel key, at_key t key → (cost n key <= fuel)%nat →
  ∃ n' d ev, get fuel n p key = (Ok (find t key, n', d), ev) ∧ rep D r p n' t ∧ (d = false → n' = n) ∧
    (settled n t → settled n' t) ∧ (∀ q, OnDelete q ∉ ev).
Proof.
  induction 1 as [r p|r p v|r p k n t fl Hrep IH Hc|r p ch ts fl Hlen Hch IH Hc|r p h n t Hst Hrep IH Hset Hh HD Hb -> Hl];
    intros fuel key Hat Hf; (destruct fuel as [|fuel]; [by destruct (cost_pos _ _ Hf)|]).
  - exists nilNode, false, []. split_and!; try done; [constructor | set_solver].
  - exists (valueNode v), false, []. split_and!; try done; [constructor | set_solver].
  - apply at_key_tree in Hat as [Hk Hw]; [|done]. cbn [get find]. destruct (key_prefix k key) eqn:Ep; cycle 1.
    { eexists _, _, _. split; [done|]. split_and!; try done; [by constructor | set_solver]. }
    apply key_prefix_spec in Ep as [rest ->]. rewrite drop_app_length. destruct (at_key_short k t rest Hw Hk) as [Hat Hne].
    destruct (IH fuel rest Hat) as (n' & d & ev & -> & Hn' & Hd & Hs & Hev).
    { pose proof (cost_child (shortNode k n fl) n k rest Hne eq_refl). lia. }
    eexists _, _, _. split; [done|]. split; [|split; [by destruct d|split; [|set_solver]]].
    + destruct d; [|by constructor]. constructor; [done|]. by apply (cached_below _ _ _ _ _ (settled n t)).
    + destruct d; [|done]. intros Hsn. inversion Hsn; subst. by constructor; [apply Hs|].
  - apply at_key_tree in Hat as [Hk Hw]; [|done]. destruct key as [|x key]; [by destruct (key_ok_nonempty _ Hk)|].
    destruct (at_key_full ts x key Hw Hk) as (t & Ht & Hat). destruct (lookup_same ch ts _ _ Hlen Ht) as [c Hx].
    cbn [get]. rewrite Hx, find_TFull, Ht.
    assert (p ++ [z2b (Z.of_nat (nib x))] = p ++ [x]) as Ep by by rewrite z2b_nib.
    destruct (IH _ _ _ Hx Ht fuel key Hat) as (n' & d & ev & E & Hn' & Hd & Hs & Hev).
    { pose proof (cost_child (fullNode ch fl) c [x] key ltac:(done) eq_refl). cbn [app] in *. lia. }
    rewrite Ep in E, Hn'. rewrite E. eexists _, _, _. split; [done|].
    assert ((∀ i c t, ch !! i = Some c → ts !! i = Some t → settled c t) →
      ∀ i c' t', <[nib x := n']> ch !! i = Some c' → <[nib x := t]> ts !! i = Some t' → settled c' t') as Hset.
    { intros Hall i c' t' Hc' Ht'. destruct (set_child_cases _ _ _ _ _ _ _ _ Hlen Hc' Ht') as [(-> & -> & ->)|(_ & ? & ?)]; eauto. }
    assert (<[nib x := t]> ts = ts) as Eid by by apply list_insert_id.
    split; [|split; [by destruct d|split; [|set_solver]]]; (destruct d; [|done || by constructor]).
    + rewrite <-Eid. apply rep_set_child; [done..|]. rewrite Eid at 1. by apply (cached_below _ _ _ _ _ _ _ Hset).
    + intros Hsn. inversion Hsn as [| | | |? ? ? Hall Hlarge]; subst. constructor; [|done]. intros i c' t' Hc' Ht'.
      rewrite <-Eid in Ht'. by apply (Hset Hall i).
  - destruct (resolve_stored _ _ _ Hst) as [ev1 [E1 Hev1]]. cbn [get]. rewrite E1.
    assert (is_hashNode n = false) as Hnh by (destruct Hst as (blob & _ & Hd); by apply decoded_not_hash in Hd).
    destruct (IH fuel key Hat) as (n' & d & ev & E & Hn' & Hd & Hs & Hev); [pose proof (cost_loaded (thash t) n key Hnh); lia|].
    cbn. rewrite E. eexists _, _, _. split; [done|]. split; [by apply rep_weaken|]. split; [done|]. split; [auto | set_solver].
Qed.

(** *** Insertion *)

Lemma alter_insert {A} (f : A → A) (l : list A) i x : l !! i = Some x → alter f i l = <[i := f x]> l.
Proof.
  intros Hi. apply list_eq. intros j. destruct (decide (i = j)) as [<-|Hne].
  - rewrite list_lookup_alter_eq, Hi, list_lookup_insert_eq by (by eapply lookup_lt_Some). done.
  - by rewrite list_lookup_alter_ne, list_lookup_insert_ne.
Qed.

Lemma insert_nil_rep D p k n t :
  rep D false (p ++ k) n t → ∃ c ev, insert_nil p k n = (Ok c, ev) ∧ rep D false p c (short_of k t) ∧ (∀ q, OnDelete q ∉ ev).
Proof.
  intros Hn. destruct k as [|x k]; cbn.
  - rewrite app_nil_r in Hn. eexists _, _. split; [done|]. split; [done | set_solver].
  - eexists _, _. split; [done|]. split; [by constructor | set_solver].
Qed.

(** The two children of a new branch. *)
Lemma rep_branch D p x y a b ta tb :
  (nib x < 17)%nat → (nib y < 17)%nat → x ≠ y → rep D false (p ++ [x]) a ta → rep D false (p ++ [y]) b tb →
  rep D false p (fullNode (<[nib y := b]> (<[nib x := a]> (replicate 17 nilNode))) newFlag)
    (TFull (<[nib y := tb]> (<[nib x := ta]> empty_ch))).
Proof.
  intros Hx Hy Hne Ha Hb.
  assert (rep D false p (fullNode (<[nib x := a]> (replicate 17 nilNode)) newFlag) (TFull (<[nib x := ta]> empty_ch))) as H1.
  { apply rep_set_child; [done| |done|done]. intros i c t Hc Ht. apply lookup_replicate in Hc as [-> _], Ht as [-> _]. constructor. }
  inversion H1; subst. by apply rep_set_child.
Qed.

(** Splitting a short node. *)
Lemma insert_split_rep D r p q a b rk rkey n t v :
  (nib a < 17)%nat → (nib b < 17)%nat → a ≠ b → rep D false (p ++ q ++ a :: rk) n t →
  ∃ n' ev,
    (c1 ← insert_nil (p ++ q ++ [a]) rk n;
     c2 ← insert_nil (p ++ q ++ [b]) rkey (valueNode v);
     if decide (nib a < 17 ∧ nib b < 17)%nat then
       let branch := fullNode (<[nib b := c2]> (<[nib a := c1]> (replicate 17 nilNode))) newFlag in
       if decide (length q = 0%nat) then mret (true, branch)
       else tell (OnInsert (p ++ q));; mret (true, shortNode q branch newFlag)
     else crash) = (Ok (true, n'), ev) ∧
    rep D r p n' (short_of q (TFull (<[nib b := short_of rkey (TValue v)]> (<[nib a := short_of rk t]> empty_ch)))) ∧
    (∀ x, OnDelete x ∉ ev).
Proof.
  intros Ha17 Hb17 Hne Hn.
  destruct (insert_nil_rep D (p ++ q ++ [a]) rk n t) as (c1 & ev1 & -> & Hc1 & He1); [by rewrite <-!app_assoc|].
  destruct (insert_nil_rep D (p ++ q ++ [b]) rkey (valueNode v) (TValue v)) as (c2 & ev2 & -> & Hc2 & He2); [constructor|].
  cbn. rewrite decide_True by done. rewrite !app_assoc in Hc1, Hc2.
  pose proof (rep_branch D (p ++ q) a b c1 c2 _ _ Ha17 Hb17 Hne Hc1 Hc2) as Hbr.
  destruct q as [|z q]; cbn [length app short_of] in *.
  - eexists _, _. split; [done|]. split; [|set_solver]. rewrite app_nil_r in Hbr. by apply rep_weaken.
  - eexists _, _. split; [done|]. split; [by constructor | set_solver].
Qed.

Lemma insert_rep D r p n t : rep D r p n t → ∀ fuel key v, at_key t key → v ≠ [] → (cost n key <= fuel)%nat →
  ∃ d n' ev, insert fuel n p key v = (Ok (d, n'), ev) ∧ rep D r p n' (tinsert t key v) ∧ (d = false → tinsert t key v = t) ∧
    (∀ q, OnDelete q ∉ ev).
Proof.
  induction 1 as [r p|r p v0|r p k n t fl Hrep IH Hc|r p ch ts fl Hlen Hch IH Hc|r p h n t Hst Hrep IH Hset Hh HD Hb -> Hl];
    intros fuel key v Hat Hv Hf; (destruct fuel as [|fuel]; [by destruct (cost_pos _ _ Hf)|]).
  - destruct key as [|x key]; eexists true, _, _; (split; [done|]); (split; [|split; [done | set_solver]]); [constructor|].
    by constructor; [constructor|].
  - destruct key as [|x key].
    + eexists _, _, _. split; [done|]. split; [constructor|]. split; [|set_solver]. cbn. rewrite negb_false_iff, bool_decide_eq_true. by intros ->.
    + exfalso. destruct Hat as [[_ [?|?]]|[? _]]; done.
  - apply at_key_tree in Hat as [Hk Hw]; [|done]. destruct key as [|x key]; [by destruct (key_ok_nonempty _ Hk)|].
    cbn [insert tinsert]. destruct (decide (prefixLen (x :: key) k = length k)) as [Em|Em].
    + destruct (prefixLen_full _ _ Em) as [rest Er]. rewrite Em, Er, drop_app_length, take_app_length. rewrite Er in Hk.
      destruct (at_key_short k t rest Hw Hk) as [Hat Hne].
      destruct (IH fuel rest v Hat Hv) as (d & n' & ev & -> & Hn' & Hd & Hev).
      { pose proof (cost_child (shortNode k n fl) n k rest Hne eq_refl). rewrite Er in Hf. lia. }
      destruct d; eexists _, _, _; (split; [done|]); (split; [|split; [done || by rewrite Hd | set_solver]]); [by constructor|].
      rewrite Hd by done. by constructor.
    + destruct (short_split k t (x :: key) Hw Hk Em) as (q & a & b & rk & rkey & -> & E & Hne & E2 & Hq & Hb & Ha).
      rewrite E2, E, branch_of_eq. rewrite !list_lookup_middle by done.
      replace (S (length q)) with (length q + 1)%nat by lia. rewrite !drop_app_add, !take_app_add, !take_app_length. cbn [drop take]. rewrite !take_0, !drop_0.
      assert (nib a < 17)%nat as Ha17.
      { destruct Ha as [[Ha _]|(Ha & _)]; [by eapply nib_lt17|]. apply Forall_cons_1 in Ha as [Ha _]. pose proof (nib_nibble a Ha). lia. }
      destruct (insert_split_rep D r p q a b rk rkey n t v Ha17 (nib_lt17 _ _ Hb) Hne Hrep) as (n' & ev & E' & Hn' & Hev).
      exists true, n', ev. split; [exact E' | done].
  - apply at_key_tree in Hat as [Hk Hw]; [|done]. destruct key as [|x key]; [by destruct (key_ok_nonempty _ Hk)|].
    destruct (at_key_full ts x key Hw Hk) as (t & Ht & Hat). destruct (lookup_same ch ts _ _ Hlen Ht) as [c Hx].
    cbn [insert tinsert]. rewrite Hx.
    destruct (IH _ _ _ Hx Ht fuel key v Hat Hv) as (d & n' & ev & E & Hn' & Hd & Hev).
    { pose proof (cost_child (fullNode ch fl) c [x] key ltac:(done) eq_refl). cbn [app] in *. lia. }
    rewrite z2b_nib in E, Hn'. rewrite E.
    assert (alter (λ c, tinsert c key v) (nib x) ts = <[nib x := tinsert t key v]> ts) as -> by by apply (alter_insert (λ c, tinsert c key v)).
    destruct d; eexists _, _, _; (split; [done|]).
    + split; [by apply rep_set_child|]. split; [done | set_solver].
    + rewrite Hd, list_insert_id by done. split; [by constructor|]. split; [done | set_solver].
  - destruct (resolve_stored _ _ _ Hst) as [ev1 [E1 Hev1]].
    assert (is_hashNode n = false) as Hnh by (destruct Hst as (blob & _ & Hd); by apply decoded_not_hash in Hd).
    pose proof (at_key_tree _ _ Hb Hat) as [Hk _]. destruct key as [|x key]; [by destruct (key_ok_nonempty _ Hk)|].
    cbn [insert]. rewrite E1.
    destruct (IH fuel (x :: key) v Hat Hv) as (d & n' & ev & E & Hn' & Hd & Hev); [pose proof (cost_loaded (thash t) n (x :: key) Hnh); lia|].
    cbn [mbind W_bind]. rewrite E. destruct d; eexists _, _, _; (split; [done|]);
      (split; [|split; [done | set_solver]]); apply rep_weaken; [done|]. by rewrite Hd.
Qed.

(** *** Removal *)

(** [D] only matters at the paths below the node. *)
Lemma rep_restrict D D' r p n t : rep D r p n t → (∀ z, D (p ++ z) → D' (p ++ z)) → rep D' r p n t.
Proof.
  assert (∀ p t, (∀ q s, node_at p t q s → own q s → D q) → (∀ z, D (p ++ z) → D' (p ++ z)) →
    ∀ q s, node_at p t q s → own q s → D' q) as Hat.
  { intros p0 t0 HD Hz q s Hq Ho. destruct (node_at_prefix _ _ _ _ Hq) as [z ->]. eauto. }
  induction 1 as [r p|r p v|r p k n t fl _ IH [Hc HD]|r p ch ts fl Hlen _ IH [Hc HD]|r p h n t Hst _ IH Hset Hh HD Hb -> Hl]; intros Hz.
  - constructor.
  - constructor.
  - constructor; [apply IH; intros z; rewrite <-app_assoc; apply Hz|]. split; [done|]. intros Hf. destruct (HD Hf). split; [done|]. by apply Hat.
  - constructor; [done | intros i c t Hi Ht; apply (IH i); [done..|]; intros z; rewrite <-app_assoc; apply Hz|].
    split; [done|]. intros Hf. destruct (HD Hf). split; [done|]. by apply Hat.
  - econstructor; eauto.
Qed.

(** What is left of [D] after the deletions among some events. *)
Definition spared (D : bytes → Prop) (ev : list event) (q : bytes) : Prop := D q ∧ OnDelete q ∉ ev.

Lemma rep_spared D r p n t ev : rep D r p n t → (∀ q, OnDelete q ∉ ev) → rep (spared D ev) r p n t.
Proof. intros Hr Hev. apply (rep_restrict D); [done|]. intros z Hz. by split. Qed.

Definition below (p : bytes) (ev : list event) : Prop := ∀ q, OnDelete q ∈ ev → ∃ z, q = p ++ z.

Lemma rep_nilNode D r p n t : rep D r p n t → is_nilNode n = is_TNil t.
Proof. inversion 1; subst; try done. by destruct t. Qed.

Lemma children_left_entries D p ch : ∀ i ts,
  length ch = length ts → (∀ j c t, ch !! j = Some c → ts !! j = Some t → rep D false (p j) c t) →
  children_left i ch = (entries i ts).*1.
Proof.
  revert p. induction ch as [|c ch IH]; intros p i [|t ts] Hlen Hch; try done. cbn [children_left entries].
  rewrite (rep_nilNode _ _ _ _ _ (Hch 0%nat c t eq_refl eq_refl)).
  rewrite (IH (λ j, p (S j)) (S i) ts); [|by injection Hlen | intros j; apply (Hch (S j))]. by destruct (is_TNil t).
Qed.

Lemma resolve_rep D p c t :
  rep D false p c t → ∃ cnode ev, resolve c p = (Ok cnode, ev) ∧ rep D false p cnode t ∧ is_hashNode cnode = false ∧ (∀ q, OnDelete q ∉ ev).
Proof.
  intros Hc. destruct (is_hashNode c) eqn:E.
  - inversion Hc as [| | | |? ? ? ? ? Hst]; subst; try done. destruct (resolve_stored _ _ _ Hst) as [ev [Ev Hev]]. cbn. rewrite Ev. eexists _, _.
    split; [done|]. split; [done|]. split; [|done]. destruct Hst as (? & _ & Hd). by apply decoded_not_hash in Hd.
  - exists c, []. destruct c; (split; [done|]); (split; [done|]); (split; [done | set_solver]).
Qed.

(** A node below a short node with key [k]: its own key is joined if it is a short node,
    and then there is no node at its path any more. *)
Lemma rep_short_above D r p k c cnode t :
  rep D false (p ++ k) c t → rep D false (p ++ k) cnode t → is_hashNode cnode = false → wf t →
  match is_shortNode cnode with
  | Some (k', v) => rep (λ q, D q ∧ q ≠ p ++ k) r p (shortNode (k ++ k') v newFlag) (short_above k t)
  | None => rep D r p (shortNode k c newFlag) (short_above k t)
  end.
Proof.
  intros Hc Hn Hh Hw. inversion Hn as [|? ? ?|? ? k' v t' ? Hv|? ? ? ? ? ? ?|]; subst; try done; cbn [is_shortNode short_above].
  - constructor; [|done]. rewrite app_assoc. apply (rep_restrict D); [done|]. intros z Hz. split; [done|].
    intros E%(f_equal length). rewrite !length_app in E. apply wf_TShort_key in Hw. destruct k'; [done|]. cbn in E. lia.
  - by constructor.
Qed.

Lemma reduce_full_rep D r p ch ts :
  rep D r p (fullNode ch newFlag) (TFull ts) → length ts = 17%nat → (1 <= length (entries 0 ts))%nat →
  (∀ i t, ts !! i = Some t → slot_ok i t) →
  ∃ n' ev, reduce_full (fullNode ch newFlag) ch p = (Done true n', ev) ∧ rep (spared D ev) r p n' (reduce ts) ∧
    is_hashNode n' = false ∧ below p ev.
Proof.
  intros Hrep Hlen Hone Hs. inversion Hrep as [| | |? ? ? ? ? Hl Hch _|]; subst. unfold reduce_full, only_child, reduce.
  rewrite (children_left_entries D (λ j, p ++ [z2b (Z.of_nat j)]) ch 0 ts) by done.
  assert (∀ q, OnDelete q ∉ ([] : list event)) as Hnil by set_solver.
  assert (below p []) as Hbelow by (intros q Hq; by apply Hnil in Hq).
  destruct (entries 0 ts) as [|[i t] [|e l]] eqn:E; cbn [fmap list_fmap fst]; [cbn in Hone; lia| |].
  2: { eexists _, _. split; [done|]. split; [by apply rep_spared | done]. }
  apply entries_one in E as (Hi & Ht & _). destruct (lookup_same ch ts _ _ Hl Hi) as [c Hc]. rewrite Hc. cbv zeta. cbn [default from_option id].
  specialize (Hch _ _ _ Hc Hi). specialize (Hs _ _ Hi). destruct Hs as [|Hs]; [done|].
  destruct (decide (i = 16%nat)) as [->|Hne].
  - eexists _, _. split; [done|]. split; [apply rep_spared; [by constructor | done] | done].
  - destruct (resolve_rep _ _ _ _ Hch) as (cnode & ev & -> & Hcn & Hh & Hev).
    pose proof (rep_short_above D r p _ c cnode t Hch Hcn Hh Hs) as Hr. cbn [app] in Hr.
    destruct (is_shortNode cnode) as [[k v]|]; eexists _, _; (split; [done|]).
    + split; [|split; [done|]]; [apply (rep_restrict _ _ _ _ _ _ Hr); intros z [HD Hne']; split; [done|set_solver]|].
      intros q Hq. assert (q = p ++ [z2b (Z.of_nat i)]) as -> by set_solver. by eexists.
    + split; [by apply rep_spared | split; [done|]]. intros q Hq. by apply Hev in Hq.
Qed.

(** The children after a removal. *)
Lemma wf_after_delete ts x key t :
  wf (TFull ts) → key_ok (x :: key) → ts !! nib x = Some t →
  length (<[nib x := tdelete t key]> ts) = 17%nat ∧ (1 <= length (entries 0 (<[nib x := tdelete t key]> ts)))%nat ∧
  (∀ i u, <[nib x := tdelete t key]> ts !! i = Some u → slot_ok i u).
Proof.
  intros Hw Hk Ht. destruct (slot_lookup ts x key Hw Hk) as (t' & Ht' & Hc). rewrite Ht in Ht'. injection Ht' as <-.
  apply wf_TFull in Hw as (Hl & Htwo & Hs). split; [by rewrite length_insert|]. split.
  - rewrite <-(alter_insert (λ c, tdelete c key)) by done. by apply entries_alter_one.
  - intros i u Hu. apply list_lookup_insert_Some in Hu as [(<- & <- & _)|(_ & Hu)]; [|by apply Hs].
    destruct Hc as [(Hx & Hk' & [->|Hwt])|(-> & -> & [->|Hv])].
    + by left.
    + pose proof (nib_nibble x Hx). destruct (tdelete_ok t key Hwt Hk') as ([->|?] & _); [by left|right]. by rewrite decide_False by lia.
    + by left.
    + destruct t; try done. by left.
Qed.

Lemma reduce_wf ts : wf (TFull ts) → reduce ts = TFull ts.
Proof. intros (_ & Htwo & _)%wf_TFull. unfold reduce. destruct (entries 0 ts) as [|[? ?] [|]]; cbn in Htwo; done || lia. Qed.

Lemma is_full_not_nil t key : wf t → key_ok key → is_full t → wf (tdelete t key).
Proof. intros Hw Hk Hf. by destruct (tdelete_ok t key Hw Hk) as (_ & ? & _); auto. Qed.

(** The other children of a branch are not touched. *)
Lemma rep_siblings D r p ch ts x c t ev :
  length ch = length ts → length ts = 17%nat →
  (∀ i c t, ch !! i = Some c → ts !! i = Some t → rep D false (p ++ [z2b (Z.of_nat i)]) c t) →
  rep (spared D ev) false (p ++ [x]) c t → below (p ++ [x]) ev →
  rep (spared D ev) r p (fullNode (<[nib x := c]> ch) newFlag) (TFull (<[nib x := t]> ts)).
Proof.
  intros Hlen H17 Hch Hc Hbel. constructor; [by rewrite !length_insert| |done]. intros i c' t' Hc' Ht'.
  destruct (set_child_cases _ _ _ _ _ _ _ _ Hlen Hc' Ht') as [(-> & -> & ->)|(Hne & Hci & Hti)]; [by rewrite z2b_nib|].
  apply (rep_restrict D); [by apply (Hch i)|]. intros z Hz. split; [done|]. intros [y E]%Hbel.
  rewrite <-!app_assoc in E. apply app_inv_head in E. injection E as Ex _. apply Hne. rewrite <-Ex.
  symmetry. apply nib_z2b. apply lookup_lt_Some in Hti. lia.
Qed.

Lemma delete_rep D r p n t : rep D r p n t → ∀ fuel key, at_key t key → (cost n key <= fuel)%nat →
  ∃ d n' ev, delete fuel n p key = (Done d n', ev) ∧ rep (spared D ev) r p n' (tdelete t key) ∧ below p ev ∧
    (if d then is_hashNode n' = false else tdelete t key = t ∧ ∀ q, OnDelete q ∉ ev).
Proof.
  assert (∀ q, OnDelete q ∉ ([] : list event)) as Hnil by set_solver.
  assert (∀ p, below p []) as Hbelow by (intros p' q Hq; by apply Hnil in Hq).
  induction 1 as [r p|r p v0|r p k n t fl Hrep IH Hc|r p ch ts fl Hlen Hch IH Hc|r p h n t Hst Hrep IH Hset Hh HD Hb -> Hl];
    intros fuel key Hat Hf; (destruct fuel as [|fuel]; [by destruct (cost_pos _ _ Hf)|]).
  - eexists false, _, _. split; [done|]. split; [constructor | done].
  - eexists true, _, _. split; [done|]. split; [constructor | done].
  - apply at_key_tree in Hat as [Hk Hw]; [|done]. cbn [delete tdelete]. case_decide as Em.
    { eexists false, _, _. split; [done|]. split; [by apply rep_spared; [constructor|] | done]. }
    case_decide as Ek.
    { eexists true, _, _. split; [done|]. split; [constructor|]. split; [|done]. intros q Hq. exists []. rewrite app_nil_r. set_solver. }
    assert (prefixLen key k = length k) as El.
    { destruct (prefixLen_cases key k) as [[? _]|[(? & ? & ? & ? & ? & _ & -> & _ & E)|(? & ? & _ & ?)]]; [done| |done].
      rewrite E, length_app in Em. cbn in Em. lia. }
    destruct (prefixLen_full _ _ El) as [rest ->]. rewrite drop_app_length, take_app_length.
    destruct (at_key_short k t rest Hw Hk) as [Hat Hne].
    destruct (IH fuel rest Hat) as (d & n' & ev & -> & Hn' & Hbel & Hd).
    { pose proof (cost_child (shortNode k n fl) n k rest Hne eq_refl). lia. }
    assert (below p ev) as Hbel' by (intros q [z ->]%Hbel; rewrite <-app_assoc; by eexists).
    assert (is_full t ∧ wf t ∧ key_ok rest) as (Hfull & Hwt & Hkr).
    { destruct Hw as [[Hlk _]|(_ & Hn & ? & ?)].
      - rewrite (leaf_app_key k rest Hlk Hk) in El, Ek. rewrite app_nil_r in El, Ek. by rewrite El in Ek.
      - rewrite key_ok_app in Hk by done. done. }
    destruct d.
    + pose proof (rep_short_above _ r p k n' n' _ Hn' Hn' Hd (is_full_not_nil t rest Hwt Hkr Hfull)) as Hr. exists true.
      destruct (is_shortNode n') as [[k' v']|]; eexists _, _; (split; [done|]).
      * split; [apply (rep_restrict _ _ _ _ _ _ Hr); intros z [[HD Hev] Hne']; split; set_solver|]. split; [|done].
        intros q [Hq|Hq%list_elem_of_singleton]%elem_of_app; [by apply Hbel' | injection Hq as ->; by eexists].
      * done.
    + destruct Hd as [-> Hev]. eexists false, _, _. split; [done|]. destruct t; try done.
      split; [apply rep_spared; [by constructor | done] | done].
  - apply at_key_tree in Hat as [Hk Hw]; [|done]. destruct key as [|x key]; [by destruct (key_ok_nonempty _ Hk)|].
    destruct (at_key_full ts x key Hw Hk) as (t & Ht & Hat). destruct (lookup_same ch ts _ _ Hlen Ht) as [c Hx].
    cbn [delete tdelete]. rewrite Hx.
    destruct (IH _ _ _ Hx Ht fuel key Hat) as (d & n' & ev & E & Hn' & Hbel & Hd).
    { pose proof (cost_child (fullNode ch fl) c [x] key ltac:(done) eq_refl). cbn [app] in *. lia. }
    rewrite z2b_nib in E, Hn', Hbel. rewrite E.
    assert (below p ev) as Hbel' by (intros q [z ->]%Hbel; rewrite <-app_assoc; by eexists).
    rewrite (alter_insert (λ c, tdelete c key) ts (nib x) t Ht). rewrite list_lookup_insert_eq by (by eapply lookup_lt_Some).
    cbn [default from_option id]. destruct (wf_after_delete ts x key t Hw Hk Ht) as (Hlen' & Hone & Hslots). destruct d.
    + assert (rep (spared D ev) r p (fullNode (<[nib x := n']> ch) newFlag) (TFull (<[nib x := tdelete t key]> ts))) as Hr
        by (apply (rep_siblings D); [done | by rewrite length_insert in Hlen' | done..]).
      rewrite (rep_nilNode _ _ _ _ _ Hn'). destruct (is_TNil (tdelete t key)) eqn:En.
      * destruct (reduce_full_rep _ r p _ _ Hr Hlen' Hone Hslots) as (n'' & ev' & Er & Hn'' & Hh & Hb'). unfold more_events. rewrite Er.
        eexists true, _, _. split; [done|]. split; [apply (rep_restrict _ _ _ _ _ _ Hn''); intros z [[? ?] ?]; split; set_solver|].
        split; [|done]. intros q [Hq|Hq]%elem_of_app; [by apply Hbel' | by apply Hb'].
      * eexists true, _, _. split; [done|]. done.
    + destruct Hd as [-> Hev]. rewrite list_insert_id by done. eexists false, _, _. split; [done|].
      assert ((if is_TNil t then reduce ts else TFull ts) = TFull ts) as ->.
      { destruct (is_TNil t); [|done]. by apply reduce_wf. }
      split; [apply rep_spared; [by constructor | done] | done].
  - destruct (resolve_stored _ _ _ Hst) as [ev1 [E1 Hev1]].
    assert (is_hashNode n = false) as Hnh by (destruct Hst as (blob & _ & Hd); by apply decoded_not_hash in Hd).
    cbn [delete]. rewrite E1.
    destruct (IH fuel key Hat) as (d & n' & ev & E & Hn' & Hbel & Hd); [pose proof (cost_loaded (thash t) n key Hnh); lia|].
    assert (below p (ev1 ++ ev)) as Hbel' by (intros q [Hq|Hq]%elem_of_app; [by apply Hev1 in Hq | by apply Hbel]).
    assert (rep (spared D (ev1 ++ ev)) r p n' (tdelete t key)) as Hn''.
    { apply rep_weaken, (rep_restrict (spared D ev)); [done|]. intros z [? ?]. split; set_solver. }
    rewrite E. destruct d; [exists true | exists false]; eexists _, _; (split; [done|]); [done|].
    destruct Hd as [Ed Hev]. split; [|split; [done|split; [done | set_solver]]]. rewrite Ed.
    apply rep_weaken, rep_spared; [done | set_solver].
Qed.
End representation.
