(* ===== verification/TrieMap.v ===== *)
(** * The trie as a map

    [trie_rep tr m]: the trie [tr], loaded or not, holds the finite map [m] from keys to
    values. [Get], [Update] and [Delete] act on the map; the hash depends on the map only
    and commits to it. *)
From Stdlib Require Import ZArith Lia.
From Stdlib Require Strings.Byte.
From stdpp Require Import base tactics decidable list numbers gmap.
From S2P Require Import Prelude Keccak Common Rlp HexKeys RadixTree Trie TrieFacts.

(** ** Trees and maps *)

Definition maps (t : tree) (m : gmap bytes bytes) : Prop :=
  ∀ k, key_ok k → ∀ v, find t k = Some v ↔ ∃ key, k = keybytesToHex key ∧ m !! key = Some v.

Lemma keybytes_key_ok key : key_ok (keybytesToHex key).
Proof. exists (key ≫= nibbles_of). split; [apply keybytes_nibbles | done]. Qed.

Lemma maps_find t m key : maps t m → find t (keybytesToHex key) = m !! key.
Proof.
  intros Hm. apply option_eq. intros v. rewrite (Hm _ (keybytes_key_ok key)). split.
  - by intros (key' & ->%keybytesToHex_inj & ?).
  - intros. by exists key.
Qed.

Lemma maps_empty : maps TNil ∅.
Proof. intros k _ v. split; [done|]. intros (key & _ & E). by rewrite lookup_empty in E. Qed.

Lemma maps_insert t m key v :
  root_ok t → maps t m → maps (tinsert t (keybytesToHex key) v) (<[key := v]> m).
Proof.
  intros Hr Hm k Hk v'. rewrite find_tinsert by (done || apply keybytes_key_ok). case_decide as E.
  - subst k. split.
    + intros [= <-]. exists key. by rewrite lookup_insert_eq.
    + intros (key' & <-%keybytesToHex_inj & Hl). by rewrite lookup_insert_eq in Hl.
  - rewrite (Hm _ Hk). split; intros (key' & -> & Hl); exists key'; (split; [done|]).
    + by rewrite lookup_insert_ne by (by intros ->).
    + by rewrite lookup_insert_ne in Hl by (by intros ->).
Qed.

Lemma maps_delete t m key :
  root_ok t → maps t m →
  root_ok (tdelete t (keybytesToHex key)) ∧ maps (tdelete t (keybytesToHex key)) (base.delete key m).
Proof.
  intros Hr Hm. pose proof (keybytes_key_ok key) as Hkey.
  assert (root_ok (tdelete t (keybytesToHex key)) ∧ ∀ k', key_ok k' →
    find (tdelete t (keybytesToHex key)) k' = if decide (keybytesToHex key = k') then None else find t k') as [Hr' Hf].
  { destruct Hr as [->|Hw]; [split; [by left|]; intros; cbn; by case_decide|].
    destruct (tdelete_ok t _ Hw Hkey) as (? & _ & ?). done. }
  split; [done|]. intros k Hk v. rewrite Hf by done. case_decide as E.
  - subst k. split; [done|]. intros (key' & <-%keybytesToHex_inj & Hl). by rewrite lookup_delete_eq in Hl.
  - rewrite (Hm _ Hk). split; intros (key' & -> & Hl); exists key'; (split; [done|]).
    + by rewrite lookup_delete_ne by (by intros ->).
    + by rewrite lookup_delete_ne in Hl by (by intros ->).
Qed.

(** A map has one canonical tree. *)
Lemma maps_unique t1 t2 m : root_ok t1 → root_ok t2 → maps t1 m → maps t2 m → t1 = t2.
Proof.
  intros H1 H2 Hm1 Hm2. apply canonical_root; [done..|]. intros k Hk. apply option_eq. intros v. by rewrite (Hm1 _ Hk), (Hm2 _ Hk).
Qed.

Lemma maps_inj t m1 m2 : maps t m1 → maps t m2 → m1 = m2.
Proof.
  intros H1 H2. apply map_eq. intros key. by rewrite <-(maps_find t m1), <-(maps_find t m2).
Qed.

Lemma length_EmptyRootHash : Hash_ok EmptyRootHash.
Proof. reflexivity. Qed.

Lemma tree_root_wf t : wf t → tree_root t = thash t.
Proof. intros Hw. destruct t; [destruct Hw | reflexivity..]. Qed.

Lemma tref_root t : wf t → tref true t = thash t.
Proof. intros _. unfold tref. case_decide; reflexivity. Qed.

(** ** The trie *)

Section trie_map.
Context `{NodeDatabase}.

Definition live (tr : Trie) (q : bytes) : Prop := q ∉ deletes tr.

Definition trie_rep (tr : Trie) (m : gmap bytes bytes) : Prop :=
  committed tr = false ∧ ∃ t, rep (live tr) true [] (root tr) t ∧ root_ok t ∧ maps t m.

Lemma track_fields tr ev :
  root (foldl track tr ev) = root tr ∧ committed (foldl track tr ev) = committed tr.
Proof.
  revert tr. induction ev as [|e ev IH]; intros tr; [done|]. cbn [foldl]. destruct (IH (track tr e)) as [-> ->].
  destruct tr, e; cbn; by repeat case_decide.
Qed.

Lemma track_deletes tr ev q : q ∈ deletes (foldl track tr ev) → q ∈ deletes tr ∨ OnDelete q ∈ ev.
Proof.
  revert tr. induction ev as [|e ev IH]; intros tr; [by left|]. cbn [foldl]. intros [Hq|Hq]%IH; [|right; by right].
  destruct tr, e; cbn in *; repeat case_decide; set_solver.
Qed.

Lemma at_key_root t key : root_ok t → at_key t (keybytesToHex key).
Proof. intros Hr. left. split; [apply keybytes_key_ok | done]. Qed.

Lemma cost_fuel n key : (cost n key <= trie_fuel key)%nat.
Proof. unfold cost, trie_fuel. destruct (is_hashNode n); lia. Qed.

Lemma live_track tr ev r p n t : rep (spared (live tr) ev) r p n t → rep (live (foldl track tr ev)) r p n t.
Proof.
  intros Hr. apply (rep_restrict _ _ _ _ _ _ Hr). intros z [Hl Hev] Hq. by destruct (track_deletes _ _ _ Hq).
Qed.

Lemma rep_trie n t tr ev m :
  committed tr = false → rep (spared (live tr) ev) true [] n t → root_ok t → maps t m → trie_rep (set_root n (foldl track tr ev)) m.
Proof.
  intros Hc Hr Ht Hm. split; [|exists t].
  - change (committed (foldl track tr ev) = false). by destruct (track_fields tr ev) as [_ ->].
  - split; [exact (live_track tr ev _ _ _ _ Hr) | done].
Qed.

Lemma Get_rep tr m key :
  trie_rep tr m → fst (Get tr key) = Ok (m !! key) ∧ trie_rep (snd (Get tr key)) m.
Proof.
  intros (Hc & t & Hr & Ht & Hm). unfold Get. rewrite Hc.
  destruct (get_rep _ _ _ _ _ Hr _ _ (at_key_root t key Ht) (cost_fuel _ _)) as (n' & d & ev & -> & Hn' & Hd & _ & Hev).
  cbn. split; [by rewrite (maps_find t m)|]. assert (rep (spared (live tr) ev) true [] n' t) as Hn by by apply rep_spared.
  destruct d; [by eapply rep_trie|]. rewrite Hd in Hn by done.
  destruct (track_fields tr ev) as [Er Ec]. split; [by rewrite Ec|]. exists t. rewrite Er. split; [by apply live_track | done].
Qed.

Lemma remove_rep tr m key :
  trie_rep tr m → fst (remove_key tr key) = Ok () ∧ trie_rep (snd (remove_key tr key)) (base.delete key m).
Proof.
  intros (Hc & t & Hr & Ht & Hm). unfold remove_key.
  destruct (delete_rep _ _ _ _ _ Hr _ _ (at_key_root t key Ht) (cost_fuel _ _)) as (d & n' & ev & -> & Hn' & _).
  destruct (maps_delete t m key Ht Hm) as [Ht' Hm']. split; [done|]. by eapply rep_trie.
Qed.

Lemma count_rep tr m : trie_rep tr m → trie_rep (count_update tr) m.
Proof. done. Qed.

Lemma Update_rep tr m key v :
  trie_rep tr m → fst (Update tr key v) = Ok () ∧
    trie_rep (snd (Update tr key v)) (if decide (v = []) then base.delete key m else <[key := v]> m).
Proof.
  intros Htr. unfold Update, update. pose proof Htr as (Hc & t & Hr & Ht & Hm). rewrite Hc. case_decide as Ev; cycle 1.
  { rewrite decide_True by (by apply length_zero_iff_nil; lia). by apply remove_rep. }
  rewrite decide_False by (by intros ->).
  destruct (insert_rep _ _ _ _ _ Hr (trie_fuel (keybytesToHex key)) _ v (at_key_root t key Ht)) as (d & n' & ev & E & Hn' & _ & Hev);
    [by intros -> | apply cost_fuel|].
  cbn [root count_update]. rewrite E. split; [done|]. cbn [snd]. eapply (rep_trie n'); [done | by apply rep_spared | | by apply maps_insert].
  right. apply wf_tinsert; [done | apply keybytes_key_ok | by intros ->].
Qed.

Lemma Delete_rep tr m key :
  trie_rep tr m → fst (Delete tr key) = Ok () ∧ trie_rep (snd (Delete tr key)) (base.delete key m).
Proof. intros Htr. unfold Delete. pose proof Htr as (-> & _). by apply remove_rep. Qed.

Lemma hashRoot_hash tr :
  is_nilNode (root tr) = false →
  hashRoot tr = ('(h, n) ← hash (root tr) true;
                 Ok (h, MkTrie n (committed tr) 0 (uncommitted tr) (inserts tr) (deletes tr) (prevalues tr))).
Proof. unfold hashRoot. by destruct (root tr). Qed.

(** Hashing a trie that is not empty: afterwards all hashes are cached. *)
Lemma Trie_Hash_settled tr t :
  rep (live tr) true [] (root tr) t → wf t → sized t →
  ∃ n', Trie_Hash tr = Ok (tree_root t, MkTrie n' (committed tr) 0 (uncommitted tr) (inserts tr) (deletes tr) (prevalues tr)) ∧
        rep (live tr) true [] n' t ∧ settled n' t ∧ (is_hashNode n' = false → fst (cache n') ≠ None).
Proof.
  intros Hr Hw Hsz. unfold Trie_Hash. destruct (hash_rep _ _ _ _ _ Hr Hw Hsz) as (n' & E & Hn').
  rewrite hashRoot_hash by (rewrite (rep_nilNode _ _ _ _ _ Hr); by destruct t).
  rewrite E. cbn [mbind res_bind]. rewrite (tref_root t Hw), (tree_root_wf t Hw).
  rewrite BytesToHash_id by apply length_thash. destruct Hn' as [Hn' Hs]. eexists. split; [reflexivity|]. split; [exact Hn'|].
  split; [exact Hs | exact (hash_cached _ _ _ E)].
Qed.

Lemma Trie_Hash_rep tr m t :
  committed tr = false → rep (live tr) true [] (root tr) t → root_ok t → maps t m → sized t →
  ∃ tr', Trie_Hash tr = Ok (tree_root t, tr') ∧ trie_rep tr' m.
Proof.
  intros Hc Hr Ht Hm Hsz. destruct Ht as [->|Hw].
  - unfold Trie_Hash. inversion Hr as [? ? E1 E2 E3| | | |? ? ? ? ? ? ? ? ? ? Hb]; subst; [|destruct Hb]. unfold hashRoot. rewrite <-E3.
    cbn [mbind res_bind]. rewrite BytesToHash_id by exact length_EmptyRootHash. eexists. split; [reflexivity|].
    split; [exact Hc|]. exists TNil. rewrite <-E3. split; [constructor|]. split; [by left | exact Hm].
  - destruct (Trie_Hash_settled tr t Hr Hw Hsz) as (n' & E & Hn' & _). rewrite E. eexists. split; [reflexivity|].
    split; [exact Hc|]. exists t. split; [exact Hn'|]. split; [by right | exact Hm].
Qed.
End trie_map.

(** ** Sizes *)

Definition bounded (L : nat) (t : tree) : Prop :=
  ∀ k v, key_ok k → find t k = Some v → (length k <= L)%nat ∧ (length v <= L)%nat.

Definition limit : nat := Z.to_nat (2 ^ 56).

Lemma limit_val : Z.of_nat limit = 2 ^ 56.
Proof. unfold limit. rewrite Z2Nat.id; lia. Qed.

#[local] Opaque limit.

Lemma headsize_le s : 0 <= s < two64 → (headsize s <= 9)%nat.
Proof. intros Hs. unfold headsize. case_decide; [lia|]. pose proof (intsize_range s Hs). lia. Qed.

Lemma length_enc_str b : Z.of_nat (length b) < two64 → (length (enc_str b) <= length b + 9)%nat.
Proof.
  intros Hb. assert (length (puthead 0x80 0xB7 (Z.of_nat (length b)) ++ b) <= length b + 9)%nat as Hh.
  { rewrite length_app, length_puthead by lia. pose proof (headsize_le (Z.of_nat (length b))). lia. }
  unfold enc_str. destruct b as [|x [|y b]]; try done. case_decide; [cbn; lia | done].
Qed.

Lemma length_enc_list c : Z.of_nat (length c) < two64 → (length (enc_list c) <= length c + 9)%nat.
Proof.
  intros Hc. unfold enc_list. rewrite length_app, length_puthead by lia. pose proof (headsize_le (Z.of_nat (length c))). lia.
Qed.

Lemma length_decodeNibbles ns bs : decodeNibbles ns = Ok bs → (length bs <= length ns)%nat.
Proof.
  revert ns bs. fix IH 1. intros [|a [|b ns]] bs Hd; [by injection Hd as <-|done|].
  apply decodeNibbles_cons2 in Hd as (bs' & -> & Hd). apply IH in Hd. cbn. lia.
Qed.

Lemma length_compact term k : hex_ok term k → (length (compact k) <= length k + 1)%nat.
Proof.
  intros (ns & Hns & ->). destruct (hexToCompact_shape term ns Hns) as (first & rest & bs & Hsp & He & Hbs & E).
  unfold compact. rewrite E. cbn [length]. rewrite <-Hbs, Hsp, length_app in *.
  rewrite length_app, length_keybytes. lia.
Qed.

Lemma length_ref_item it : (length (enc (ref_item it)) <= 41)%nat.
Proof.
  unfold ref_item. case_decide; [lia|]. cbn [enc]. pose proof (length_Keccak256 [enc it]) as HK.
  pose proof (length_enc_str (Keccak256 [enc it])). rewrite HK, two64_val in *. lia.
Qed.

Lemma length_slots ch l : (∀ t, t ∈ ch → (length (enc (child_item t)) <= l)%nat) →
  (length (enc_seq (child_item <$> ch)) <= length ch * l)%nat.
Proof.
  induction ch as [|t ch IH]; intros Hl; [cbn; lia|]. rewrite fmap_cons, enc_seq_cons, length_app. cbn [length].
  pose proof (Hl t ltac:(by left)). specialize (IH ltac:(intros; apply Hl; by right)). lia.
Qed.

Lemma bounded_short k t : wf (TShort k t) → bounded limit (TShort k t) →
  (length k <= limit)%nat ∧ match t with TValue v => (length v <= limit)%nat | _ => bounded limit t end.
Proof.
  intros Hw Hb. destruct (wf_finds _ Hw) as (key & Hkey & [v0 Hv0]). pose proof (Hb _ _ Hkey Hv0) as [Hlen _].
  destruct (finds_TShort k t key) as [r Er]; [by split|]. rewrite Er, length_app in Hlen. split; [lia|].
  destruct Hw as [[Hk Hv]|(Hne & Hk & Hf & Hw)].
  - destruct t as [|v| |]; try done. destruct (Hb k v Hk) as [_ ?]; [|done]. by rewrite find_leaf, decide_True by done.
  - destruct t; try done. intros k' v' Hk' Hf'. destruct (Hb (k ++ k') v') as [Hl ?]; [by apply key_ok_app | by rewrite find_TShort_app|].
    rewrite length_app in Hl. split; [lia | done].
Qed.

Lemma bounded_slot ch i t : wf (TFull ch) → bounded limit (TFull ch) → ch !! i = Some t →
  match t with TValue v => (length v <= limit)%nat | _ => bounded limit t end.
Proof.
  intros Hw Hb Hi. pose proof Hw as (Hlen & _ & Hs)%wf_TFull. assert (i < 17)%nat by (apply lookup_lt_Some in Hi; lia).
  assert (nib (z2b (Z.of_nat i)) = i) as Hn by (apply nib_z2b; lia). specialize (Hs _ _ Hi).
  destruct Hs as [->|Hs]; [done|]. revert Hs. destruct (decide (i = 16%nat)) as [->|Hne]; intros Hs.
  - destruct t as [|v| |]; try done. destruct (Hb [Byte.x10] v) as [_ ?]; [by exists []| |done].
    rewrite find_TFull. by rewrite nib_term, Hi.
  - assert (bounded limit t) as Hbt; [|by destruct t].
    intros k v Hk Hf. destruct (Hb (z2b (Z.of_nat i) :: k) v) as [Hl ?].
    + apply key_ok_cons. left. split; [|done]. unfold is_nibble. rewrite b2z_z2b, Z.mod_small; lia.
    + by rewrite find_TFull, Hn, Hi.
    + cbn in Hl. split; [lia | done].
Qed.

(** The size of an encoding. *)
Definition small_enc (t : tree) : Prop := Z.of_nat (length (tenc t)) < 2 ^ 62.

Lemma length_child t :
  (match t with TValue v => (length v <= limit)%nat | _ => True end) → (length (enc (child_item t)) <= limit + 41)%nat.
Proof.
  intros Hv. pose proof limit_val. destruct t as [|v|k t|ch]; cbn [child_item].
  - assert (length (enc (Str [])) = 1%nat) as -> by reflexivity. lia.
  - pose proof (length_enc_str v). rewrite two64_val in *. cbn [enc]. lia.
  - pose proof (length_ref_item (titem (TShort k t))). lia.
  - pose proof (length_ref_item (titem (TFull ch))). lia.
Qed.

Lemma wf_small t : wf t → bounded limit t → small_enc t.
Proof.
  intros Hw Hb. pose proof limit_val as HL. unfold small_enc, tenc.
  destruct t as [|v|k t|ch]; [destruct Hw | destruct Hw | |].
  - destruct (bounded_short k t Hw Hb) as [Hk Hv]. rewrite titem_TShort, enc_Lst, enc_seq_2.
    assert (length (compact k) <= length k + 1)%nat as Hck.
    { destruct Hw as [[Hk' _]|(_ & Hk' & _)]; [by apply (length_compact true) | by apply (length_compact false), nibbles_hex]. }
    pose proof (length_enc_str (compact k)) as H1. rewrite two64_val in H1. cbn [enc].
    pose proof (length_child t ltac:(by destruct t)) as H2.
    pose proof (length_enc_list (enc_str (compact k) ++ enc (child_item t))) as H3. rewrite two64_val, length_app in H3. lia.
  - rewrite titem_TFull, enc_Lst. pose proof Hw as (Hlen & _)%wf_TFull.
    pose proof (length_slots ch (limit + 41)%nat) as H1. rewrite Hlen in H1.
    assert (length (enc_seq (child_item <$> ch)) <= 17 * (limit + 41))%nat as H2.
    { apply H1. intros t [i Hi]%list_elem_of_lookup. apply length_child. pose proof (bounded_slot ch i t Hw Hb Hi). by destruct t. }
    pose proof (length_enc_list (enc_seq (child_item <$> ch))) as H3. rewrite two64_val in H3. lia.
Qed.

Lemma small_root t : root_ok t → bounded limit t → small_enc t.
Proof. intros [->|Hw] Hb; [reflexivity | by apply wf_small]. Qed.

Lemma bounded_nil L : bounded L TNil.
Proof. by intros k v _ E. Qed.

(** A child is a value of bounded length, or a tree of its own. *)
Definition child_bounded (t : tree) : Prop :=
  match t with TValue v => (length v <= limit)%nat | _ => root_ok t ∧ bounded limit t end.

Lemma child_short k t : wf (TShort k t) → bounded limit (TShort k t) → child_bounded t.
Proof.
  intros Hw Hb. destruct (bounded_short k t Hw Hb) as [_ Hv].
  destruct Hw as [[_ Hval]|(_ & _ & _ & Hwt)]; destruct t; try done; (split; [by right | done]).
Qed.

Lemma child_slot ch i t : wf (TFull ch) → bounded limit (TFull ch) → ch !! i = Some t → child_bounded t.
Proof.
  intros Hw Hb Hi. pose proof (bounded_slot ch i t Hw Hb Hi) as Hv. apply wf_TFull in Hw as (_ & _ & Hs).
  destruct (Hs _ _ Hi) as [->|Hwt]; [split; [by left | apply bounded_nil]|]. revert Hwt.
  case_decide; intros Hwt; destruct t; try done; (split; [by right | done]).
Qed.

Lemma bounded_sized t : child_bounded t → sized t.
Proof.
  induction t as [|v|k t IH|ch IH] using tree_ind'; intros Hb s Hs.
  - inversion Hs; subst. reflexivity.
  - inversion Hs; subst. pose proof limit_val. change (length v <= limit)%nat in Hb.
    change (Z.of_nat (length (enc_str v)) < two64). pose proof (length_enc_str v) as H1. rewrite two64_val in *. lia.
  - destruct Hb as [[|Hw] Hb]; [done|]. inversion Hs as [|? ? ? Hs'|]; subst.
    + pose proof (wf_small _ Hw Hb) as H1. unfold small_enc in H1. rewrite two64_val. lia.
    + by apply IH; [apply (child_short k)|].
  - destruct Hb as [[|Hw] Hb]; [done|]. inversion Hs as [| |? ? i t Hi Hs']; subst.
    + pose proof (wf_small _ Hw Hb) as H1. unfold small_enc in H1. rewrite two64_val. lia.
    + rewrite list.Forall_lookup in IH. by apply (IH _ _ Hi); [apply (child_slot ch i)|].
Qed.

Lemma root_sized t : root_ok t → bounded limit t → sized t.
Proof.
  intros Hr Hb. apply bounded_sized. destruct Hr as [->|Hw]; [split; [by left | done]|].
  destruct t; [destruct Hw | destruct Hw | |]; (split; [by right | done]).
Qed.

(** ** The encoding determines the tree *)

(** The nodes that are hashed: the root, and below it the nodes that are not embedded. *)
Definition large (t : tree) : Prop := wf t ∧ (32 <= length (tenc t))%nat.

Definition hashed (t s : tree) : Prop := s = t ∨ (subtree s t ∧ large s).

(** No hashed node of the first tree has the hash of a different one of the second. *)
Definition no_collision (t1 t2 : tree) : Prop :=
  ∀ s1 s2, hashed t1 s1 → hashed t2 s2 → thash s1 = thash s2 → tenc s1 = tenc s2.

Definition no_inner_collision (t1 t2 : tree) : Prop :=
  ∀ s1 s2, subtree s1 t1 → subtree s2 t2 → large s1 → large s2 → thash s1 = thash s2 → tenc s1 = tenc s2.

Lemma no_inner_collision_sub t1 t2 s1 s2 :
  no_inner_collision t1 t2 → (∀ s, subtree s s1 → subtree s t1) → (∀ s, subtree s s2 → subtree s t2) → no_inner_collision s1 s2.
Proof. intros Hc H1 H2 a b Ha Hb. apply Hc; auto. Qed.

Lemma tenc_titem t1 t2 : sized t1 → tenc t1 = tenc t2 → titem t1 = titem t2.
Proof. intros Hsz E. apply enc_inj; [by apply Hsz; constructor | exact E]. Qed.

Lemma titem_wf t : wf t → ∃ l, titem t = Lst l ∧ child_item t = ref_item (titem t).
Proof. intros Hw. destruct t; [destruct Hw | destruct Hw | by eexists..]. Qed.

Lemma ref_item_Str l : ref_item (Lst l) ≠ Str [].
Proof.
  unfold ref_item. case_decide; [done|]. generalize (enc (Lst l)). intros b E. injection E as E.
  pose proof (length_Keccak256 [b]) as HK. rewrite E in HK. discriminate HK.
Qed.

Lemma child_titem t1 t2 :
  wf t1 → wf t2 → sized t1 → no_inner_collision t1 t2 → child_item t1 = child_item t2 → titem t1 = titem t2.
Proof.
  intros H1 H2 Hsz Hc E. destruct (titem_wf t1 H1) as (l1 & E1 & C1), (titem_wf t2 H2) as (l2 & E2 & C2).
  rewrite C1, C2 in E. unfold ref_item in E. fold (tenc t1) (tenc t2) in E. revert E. do 2 case_decide.
  - done.
  - by rewrite E1.
  - by rewrite E2.
  - intros [= E]. apply tenc_titem; [done|]. apply Hc; [constructor.. | split; [done | lia] | split; [done | lia] | done].
Qed.

Lemma compact_inj b1 b2 k1 k2 : hex_ok b1 k1 → hex_ok b2 k2 → compact k1 = compact k2 → k1 = k2.
Proof.
  intros H1 H2 E. destruct (compact_roundtrip b1 k1 H1) as (c1 & E1 & _ & <-), (compact_roundtrip b2 k2 H2) as (c2 & E2 & _ & <-).
  unfold compact in E. by rewrite E1, E2 in E; subst.
Qed.

Lemma wf_hex k t : wf (TShort k t) → ∃ b, hex_ok b k.
Proof. intros [[Hk _]|(_ & Hk & _)]; [exists true; by apply leaf_hex | exists false; by apply nibbles_hex]. Qed.

Lemma leaf_not_nibbles k : leaf_key k → Forall is_nibble k → False.
Proof. intros (ns & _ & ->) [_ H]%Forall_app. apply Forall_cons_1 in H as [H _]. by apply term_not_nibble. Qed.

Lemma slot_inj i a b :
  slot_ok i a → slot_ok i b → sized a → no_inner_collision a b → child_item a = child_item b →
  (wf a → wf b → titem a = titem b → a = b) → a = b.
Proof.
  intros Ha Hb Hsz Hc E IH. unfold slot_ok in *. destruct (decide (i = 16%nat)).
  - destruct Ha as [->|Ha], Hb as [->|Hb]; try (destruct a; try done); try (destruct b; try done);
      cbn [child_item] in E; congruence.
  - destruct Ha as [->|Ha], Hb as [->|Hb]; [done|..].
    + destruct (titem_wf b Hb) as (l & El & Ec). rewrite Ec, El in E. by destruct (ref_item_Str l).
    + destruct (titem_wf a Ha) as (l & El & Ec). rewrite Ec, El in E. by destruct (ref_item_Str l).
    + apply IH; [done..|]. by apply child_titem.
Qed.

Lemma titem_inj t1 : ∀ t2, wf t1 → wf t2 → sized t1 → no_inner_collision t1 t2 → titem t1 = titem t2 → t1 = t2.
Proof.
  induction t1 as [|v0|k1 t1 IH|ch1 IH] using tree_ind'; intros t2 H1 H2 Hsz Hc E; [destruct H1 | destruct H1 | |];
    destruct t2 as [| |k2 t2|ch2]; try done.
  - rewrite !titem_TShort in E. injection E as Ek Et.
    destruct (wf_hex _ _ H1) as [b1 Hb1], (wf_hex _ _ H2) as [b2 Hb2]. apply (compact_inj b1 b2) in Ek as ->; [|done..].
    f_equal. destruct H1 as [[Hl Hv]|(_ & Hn & _ & Hw)], H2 as [[Hl2 Hv2]|(_ & Hn2 & _ & Hw2)].
    + destruct t1, t2; try done. cbn [child_item] in Et. congruence.
    + destruct (leaf_not_nibbles _ Hl Hn2).
    + destruct (leaf_not_nibbles _ Hl2 Hn).
    + assert (no_inner_collision t1 t2) by (eapply no_inner_collision_sub; [exact Hc | intros; by constructor..]).
      apply IH; [done | done | by apply (sized_short k2) | done|]. apply child_titem; [done | done | by apply (sized_short k2) | done | done].
  - rewrite titem_TShort, titem_TFull in E. injection E as E. apply wf_TFull in H2 as (Hl & _).
    apply (f_equal length) in E. rewrite length_fmap, Hl in E. discriminate E.
  - rewrite titem_TShort, titem_TFull in E. injection E as E. apply wf_TFull in H1 as (Hl & _).
    apply (f_equal length) in E. rewrite length_fmap, Hl in E. discriminate E.
  - f_equal. pose proof H1 as (Hl1 & _ & Hs1)%wf_TFull. pose proof H2 as (Hl2 & _ & Hs2)%wf_TFull.
    rewrite !titem_TFull in E. injection E as E.
    apply list_eq_same_length with 17%nat; [done..|]. intros i a b _ Ha Hb.
    assert (sized a) by (by apply (sized_full ch1 i)).
    assert (no_inner_collision a b) by (eapply no_inner_collision_sub; [exact Hc | intros; by econstructor..]).
    assert (child_item a = child_item b).
    { apply (f_equal (λ l, l !! i)) in E. rewrite !list_lookup_fmap, Ha, Hb in E. by injection E. }
    apply (slot_inj i); eauto. intros. rewrite list.Forall_lookup in IH. by apply (IH _ _ Ha).
Qed.

Lemma tree_root_nil : EmptyRootHash = thash TNil.
Proof. vm_compute. reflexivity. Qed.

Lemma tree_root_hash t : root_ok t → tree_root t = thash t.
Proof. intros [->|Hw]; [exact tree_root_nil | by apply tree_root_wf]. Qed.

(** Equal roots are roots of equal trees. *)
Lemma tree_root_inj t1 t2 :
  root_ok t1 → root_ok t2 → sized t1 → no_collision t1 t2 → tree_root t1 = tree_root t2 → t1 = t2.
Proof.
  intros H1 H2 Hsz Hc E. rewrite !tree_root_hash in E by done.
  apply Hc, tenc_titem in E; [|done | by left | by left].
  destruct H1 as [->|H1], H2 as [->|H2]; [done|..].
  - destruct (titem_wf _ H2) as (l & El & _). rewrite El in E. discriminate E.
  - destruct (titem_wf _ H1) as (l & El & _). rewrite El in E. discriminate E.
  - apply titem_inj; [done..| |done]. intros s1 s2 S1 S2 L1 L2. apply Hc; by right.
Qed.

(** ** Reference: the root of a map *)

(** The tree of a map, built by inserting its entries in any order. *)
Definition tree_of (m : gmap bytes bytes) : tree :=
  map_fold (λ key v t, tinsert t (keybytesToHex key) v) TNil m.

Definition root_of (m : gmap bytes bytes) : Hash := tree_root (tree_of m).

(** Maps a trie can hold: the empty value stands for no value. *)
Definition values_ok (m : gmap bytes bytes) : Prop := map_Forall (λ _ v, v ≠ []) m.

Definition entry_small (key v : bytes) : Prop := Z.of_nat (length key) < 2 ^ 55 ∧ Z.of_nat (length v) <= 2 ^ 56.

Definition small (m : gmap bytes bytes) : Prop := map_Forall entry_small m.

Lemma tree_of_ok m : values_ok m → root_ok (tree_of m) ∧ maps (tree_of m) m.
Proof.
  unfold tree_of. apply (map_fold_weak_ind (λ t m, values_ok m → root_ok t ∧ maps t m)).
  - intros _. split; [by left | apply maps_empty].
  - intros key v m' t Hm IH Hv. apply map_Forall_insert in Hv as [Hv Hm']; [|done]. destruct (IH Hm') as [Hr Hmaps].
    split; [right; apply wf_tinsert; [done | apply keybytes_key_ok | done] | by apply maps_insert].
Qed.

Lemma find_value t : ∀ k v, wf t → key_ok k → find t k = Some v → v ≠ [].
Proof.
  induction t as [|v0|k1 t IH|ch IH] using tree_ind'; intros k v Hw Hk Hf; [destruct Hw | destruct Hw | |].
  - destruct Hw as [[Hl Hv]|(Hne & Hn & _ & Hw)].
    + destruct t; try done. rewrite find_leaf in Hf by done. case_decide; [|done]. by injection Hf as <-.
    + destruct (finds_TShort k1 t k) as [r ->]; [by split|]. rewrite find_TShort_app in Hf. apply key_ok_app in Hk; eauto.
  - pose proof (key_ok_nonempty _ Hk). destruct k as [|x k]; [done|]. rewrite find_TFull in Hf.
    destruct (ch !! nib x) as [t|] eqn:Ht; [|done]. cbn in Hf. rewrite list.Forall_lookup in IH.
    apply wf_TFull in Hw as (_ & _ & Hs). destruct (Hs _ _ Ht) as [->|Hwt]; [done|]. revert Hwt.
    apply key_ok_cons in Hk as [[Hx Hk]|[-> ->]].
    + rewrite decide_False by (apply nib_nibble in Hx; lia). intros. by eapply (IH _ _ Ht).
    + rewrite decide_True by apply nib_term. intros. destruct t; try done. by injection Hf as <-.
Qed.

Lemma maps_values t m : root_ok t → maps t m → values_ok m.
Proof.
  intros Hr Hm key v Hl. rewrite <-(maps_find t m) in Hl by done. destruct Hr as [->|Hw]; [done|].
  eapply find_value; [done | apply keybytes_key_ok | done].
Qed.

Lemma maps_tree_of t m : root_ok t → maps t m → t = tree_of m.
Proof. intros Hr Hm. destruct (tree_of_ok m) as [Hr' Hm']; [by eapply maps_values | by eapply maps_unique]. Qed.

Lemma small_bounded t m : maps t m → small m → bounded limit t.
Proof.
  intros Hm Hs k v Hk Hf. apply (Hm _ Hk) in Hf as (key & -> & Hl). destruct (Hs _ _ Hl) as [H1 H2].
  pose proof limit_val. unfold keybytesToHex. rewrite length_app, length_keybytes. cbn [length]. lia.
Qed.
