(* ===== verification/TrieStore.v ===== *)
(** * Stored tries

    A trie is stored as one blob per node that is not embedded in its parent, under the
    node's path and hash. [shallow] is the node that loading the blob of a tree gives: its
    embedded nodes, and hash nodes for the others. Opening the trie of a root over a database
    that holds the nodes of a map gives a trie that represents the map. *)
From Stdlib Require Import ZArith Lia.
From Stdlib Require Strings.Byte.
From stdpp Require Import base tactics decidable list numbers gmap.
From S2P Require Import Prelude Keccak Common Rlp HexKeys RadixTree Trie TrieFacts TrieMap.

(** ** Loading a node *)

Fixpoint shallow (h : option bytes) (t : tree) : node :=
  let child (t : tree) : node :=
    match t with
    | TNil => nilNode
    | TValue v => valueNode v
    | _ => if decide (length (tenc t) < 32)%nat then shallow None t else hashNode (thash t)
    end in
  match t with
  | TNil => nilNode
  | TValue v => valueNode v
  | TShort k t => shortNode k (child t) (MkFlag h false)
  | TFull ch => fullNode (child <$> ch) (MkFlag h false)
  end.

Definition shallow_child (t : tree) : node :=
  match t with
  | TNil => nilNode
  | TValue v => valueNode v
  | _ => if decide (length (tenc t) < 32)%nat then shallow None t else hashNode (thash t)
  end.

Lemma shallow_TShort h k t : shallow h (TShort k t) = shortNode k (shallow_child t) (MkFlag h false).
Proof. done. Qed.

Lemma shallow_TFull h ch : shallow h (TFull ch) = fullNode (shallow_child <$> ch) (MkFlag h false).
Proof. done. Qed.

Lemma shallow_child_wf t :
  wf t → shallow_child t = if decide (length (tenc t) < 32)%nat then shallow None t else hashNode (thash t).
Proof. intros Hw. destruct t; [destruct Hw | destruct Hw | done | done]. Qed.

Lemma SplitString_str c rest :
  Z.of_nat (length (enc_str c ++ rest)) < two64 → SplitString (enc_str c ++ rest) = Ok (c, rest).
Proof. intros Hl. by apply SplitString_iff. Qed.

Lemma SplitList_seq l rest :
  Z.of_nat (length (enc (Lst l) ++ rest)) < two64 → SplitList (enc (Lst l) ++ rest) = Ok (enc_seq l, rest).
Proof. intros Hl. unfold SplitList. by rewrite Split_enc. Qed.

Lemma length_Lst l : (length (enc_seq l) < length (enc (Lst l)))%nat.
Proof.
  rewrite enc_Lst. unfold enc_list. rewrite length_app. destruct (puthead_nonempty 0xC0 0xF7 (Z.of_nat (length (enc_seq l)))) as (? & ? & ->).
  cbn [length app]. lia.
Qed.

Lemma CountValues_seq l :
  Z.of_nat (length (enc_seq l)) < two64 → CountValues (enc_seq l) = Ok (Z.of_nat (length l), None).
Proof. intros Hl. unfold CountValues. by rewrite CountValues_loop_enc by (done || lia). Qed.

(** A node in a buffer, up to the switch on the number of its elements. *)
Lemma decode_node_Lst dec h l rest :
  Z.of_nat (length (enc (Lst l) ++ rest)) < two64 →
  decode_node dec h (enc (Lst l) ++ rest) =
    if decide (length l = 2%nat) then decodeShort dec h (enc_seq l)
    else if decide (length l = 17%nat) then decodeFull dec h (enc_seq l) else Err NodeDecodeError.
Proof.
  intros Hl. pose proof (length_Lst l) as Hlt. rewrite length_app in Hl.
  unfold decode_node. destruct (app_nonempty (enc (Lst l)) rest) as (x & b & E); [apply enc_nonempty|]. rewrite E, <-E.
  rewrite SplitList_seq by (rewrite length_app; lia). cbn [node_rlp mbind res_bind].
  rewrite CountValues_seq by lia.
  repeat case_decide; try lia; done.
Qed.

(** The reference to a child. *)
Definition child_ok (t : tree) : Prop := t = TNil ∨ wf t.

Lemma decodeRef_child dec t rest :
  child_ok t → Z.of_nat (length (enc (child_item t) ++ rest)) < two64 →
  (wf t → (length (tenc t) < 32)%nat → Z.of_nat (length (tenc t ++ rest)) < two64 → dec (tenc t ++ rest) = Ok (shallow None t)) →
  decodeRef dec (enc (child_item t) ++ rest) = Ok (shallow_child t, rest).
Proof.
  intros [->|Hw] Hl Hdec; unfold decodeRef; rewrite Split_enc by done; cbn [node_rlp mbind res_bind].
  - reflexivity.
  - destruct (titem_wf t Hw) as (l & El & Ec). rewrite (shallow_child_wf t Hw), Ec. unfold ref_item.
    change (enc (titem t)) with (tenc t). destruct (decide (length (tenc t) < 32)%nat) as [Hs|Hs].
    + rewrite El. cbn [item_kind]. rewrite decide_True by done. rewrite <-El. change (enc (titem t)) with (tenc t).
      rewrite decide_False by (unfold hashLen; rewrite length_app; lia). rewrite Hdec; [done..|].
      unfold tenc. revert Hl. rewrite Ec. unfold ref_item. by rewrite decide_True.
    + pose proof (length_thash t) as HK. change (Keccak256 [tenc t]) with (thash t).
      assert (item_kind (Str (thash t)) = KString) as -> by (destruct (thash t) as [|? [|]]; [done | discriminate HK | done]).
      cbn [item_content]. rewrite decide_False by done. rewrite decide_False by (rewrite HK; intros [_ H]; discriminate H).
      by rewrite decide_True.
Qed.

Lemma decode_children_spec dec ts : ∀ rest,
  Forall child_ok ts → Z.of_nat (length (enc_seq (child_item <$> ts) ++ rest)) < two64 →
  (∀ t r, t ∈ ts → wf t → (length (tenc t) < 32)%nat → Z.of_nat (length (tenc t ++ r)) < two64 → dec (tenc t ++ r) = Ok (shallow None t)) →
  decode_children dec (length ts) (enc_seq (child_item <$> ts) ++ rest) = Ok (shallow_child <$> ts, rest).
Proof.
  induction ts as [|t ts IH]; intros rest Hok Hl Hdec; [done|]. apply Forall_cons_1 in Hok as [Ht Hok].
  rewrite fmap_cons, enc_seq_cons, <-app_assoc in *. cbn [length decode_children].
  rewrite decodeRef_child; [|done..|by intros; apply Hdec; [left|..]]. cbn [mbind res_bind].
  rewrite IH; [done | done | rewrite length_app in Hl; lia | intros; apply Hdec; [by right | done..]].
Qed.

Lemma compactToHex_compact b k : hex_ok b k → compactToHex (compact k) = k.
Proof. intros Hk. destruct (compact_roundtrip b k Hk) as (c & E & _ & Hc). unfold compact. by rewrite E. Qed.

Lemma wf_slots ch :
  wf (TFull ch) → ∃ ts t, ch = ts ++ [t] ∧ length ts = 16%nat ∧ Forall child_ok ts ∧ (t = TNil ∨ is_value t).
Proof.
  intros (Hl & _ & Hs)%wf_TFull. destruct (exists_last (l := ch)) as (ts & t & ->); [by intros ->|].
  exists ts, t. rewrite length_app in Hl. cbn [length] in Hl. split; [done|]. split; [lia|]. split.
  - apply list.Forall_lookup. intros i c Hi. assert (i < 16)%nat by (apply lookup_lt_Some in Hi; lia).
    specialize (Hs i c). rewrite lookup_app_l in Hs by lia. specialize (Hs Hi). unfold slot_ok in Hs. by rewrite decide_False in Hs by lia.
  - specialize (Hs 16%nat t). rewrite lookup_app_r in Hs by lia. replace (16 - length ts)%nat with 0%nat in Hs by lia.
    by apply Hs.
Qed.

Lemma enc_seq_app l1 l2 : enc_seq (l1 ++ l2) = enc_seq l1 ++ enc_seq l2.
Proof. induction l1 as [|x l1 IH]; [done|]. cbn [app]. by rewrite !enc_seq_cons, IH, app_assoc. Qed.

Lemma decodeShort_tree dec h k t :
  wf (TShort k t) → Z.of_nat (length (tenc (TShort k t))) < two64 →
  (wf t → (length (tenc t) < 32)%nat → dec (tenc t) = Ok (shallow None t)) →
  decodeShort dec h (enc_seq [Str (compact k); child_item t]) = Ok (shallow h (TShort k t)).
Proof.
  intros Hw Hl Hdec. unfold tenc in Hl. rewrite titem_TShort in Hl.
  pose proof (length_Lst [Str (compact k); child_item t]) as Hlt. rewrite enc_seq_2 in *. cbn [enc] in Hlt |- *.
  assert (∀ r : bytes, (length r <= length (enc_str (compact k) ++ enc (child_item t)))%nat → Z.of_nat (length r) < two64) as Hr by (intros; cbn [enc] in Hl; lia).
  unfold decodeShort. rewrite SplitString_str by (by apply Hr). cbn [node_rlp mbind res_bind]. rewrite shallow_TShort.
  destruct Hw as [[Hk Hv]|(Hne & Hk & Hf & Hw)].
  - apply leaf_hex in Hk. rewrite (compactToHex_compact true), (hasTerm_hex true) by done. destruct t as [|v| |]; try done.
    cbn [child_item enc]. rewrite <-(app_nil_r (enc_str v)), SplitString_str; [done|].
    apply Hr. cbn [child_item enc]. rewrite !length_app. cbn. lia.
  - apply nibbles_hex in Hk. rewrite (compactToHex_compact false), (hasTerm_hex false) by done.
    rewrite <-(app_nil_r (enc (child_item t))), decodeRef_child; [done | by right | |intros; rewrite app_nil_r; auto].
    apply Hr. rewrite !length_app. cbn. lia.
Qed.

Lemma decodeFull_tree dec h ch :
  wf (TFull ch) → Z.of_nat (length (tenc (TFull ch))) < two64 →
  (∀ t r, t ∈ ch → wf t → (length (tenc t) < 32)%nat → Z.of_nat (length (tenc t ++ r)) < two64 → dec (tenc t ++ r) = Ok (shallow None t)) →
  decodeFull dec h (enc_seq (child_item <$> ch)) = Ok (shallow h (TFull ch)).
Proof.
  intros Hw Hl Hdec. unfold tenc in Hl. rewrite titem_TFull in Hl. pose proof (length_Lst (child_item <$> ch)) as Hlt.
  destruct (wf_slots ch Hw) as (ts & t & -> & H16 & Hok & Ht). rewrite fmap_app, enc_seq_app in *.
  assert (enc_seq (child_item <$> [t]) = enc (child_item t)) as E by (cbn; apply app_nil_r). rewrite E in *.
  unfold decodeFull. rewrite <-H16, decode_children_spec; [|done | lia | intros; apply Hdec; [set_solver | done..]].
  cbn [mbind res_bind]. rewrite shallow_TFull, fmap_app.
  assert (∃ v, enc (child_item t) = enc_str v ∧ (if decide (0 < length v)%nat then valueNode v else nilNode) = shallow_child t) as (v & Ev & Esh).
  { destruct Ht as [->|Hv]; [by exists []|]. destruct t as [|v| |]; try done. exists v. split; [done|].
    rewrite decide_True; [done|]. by destruct v; [|cbn; lia]. }
  rewrite Ev, <-(app_nil_r (enc_str v)), SplitString_str; [cbn [node_rlp mbind res_bind fmap list_fmap]; by rewrite Esh|].
  rewrite app_nil_r. rewrite <-Ev. rewrite length_app in Hlt. lia.
Qed.

Lemma embedded_le t : wf t → (length (tenc t) < 32)%nat → tenc t = enc (child_item t).
Proof.
  intros Hw Hs. destruct (titem_wf t Hw) as (l & El & ->). unfold ref_item. by rewrite decide_True.
Qed.

(** The decoder inverts the encoding of a tree. *)
Lemma decode_tree t : ∀ h rest fuel, wf t → Z.of_nat (length (tenc t ++ rest)) < two64 → (length (tenc t) < fuel)%nat →
  decodeNode_fuel fuel h (tenc t ++ rest) = Ok (shallow h t).
Proof.
  induction t as [|v0|k t IH|ch IH] using tree_ind'; intros h rest fuel Hw Hl Hf; [destruct Hw | destruct Hw | |];
    (destruct fuel as [|fuel]; [lia|]); cbn [decodeNode_fuel]; rewrite length_app in Hl.
  - pose proof (length_Lst [Str (compact k); child_item t]) as Hlt. unfold tenc in Hf, Hl |- *. rewrite titem_TShort in *.
    rewrite decode_node_Lst by (rewrite length_app; lia). cbn [length]. rewrite decide_True by done.
    apply decodeShort_tree; [done | unfold tenc; rewrite titem_TShort; lia|]. intros Hw' Hs.
    rewrite <-(app_nil_r (tenc t)). apply IH; [done|..]; rewrite ?app_nil_r; rewrite (embedded_le t) by done;
      rewrite enc_seq_2, length_app in Hlt; lia.
  - pose proof (length_Lst (child_item <$> ch)) as Hlt. unfold tenc in Hf, Hl |- *. rewrite titem_TFull in *.
    rewrite decode_node_Lst by (rewrite length_app; lia). rewrite length_fmap. pose proof Hw as (H17 & _)%wf_TFull. rewrite H17.
    rewrite decide_False, decide_True by done.
    apply decodeFull_tree; [done | unfold tenc; rewrite titem_TFull; lia|]. intros t r Ht Hw' Hs Hr.
    rewrite list.Forall_forall in IH. apply IH; [done..|]. rewrite (embedded_le t) by done.
    pose proof (length_enc_seq_le (child_item t) (child_item <$> ch)) as Hin. specialize (Hin ltac:(by apply list_elem_of_fmap_2)). lia.
Qed.

Lemma decode_stored t h : wf t → Z.of_nat (length (tenc t)) < two64 → decodeNodeUnsafe h (tenc t) = Ok (shallow h t).
Proof.
  intros Hw Hl. unfold decodeNodeUnsafe. rewrite <-(app_nil_r (tenc t)) at 2. apply decode_tree; rewrite ?app_nil_r; [done..|lia].
Qed.

(** ** Opening a stored trie *)

Fixpoint nodes (p : bytes) (t : tree) : list (bytes * tree) :=
  (p, t) ::
  match t with
  | TShort k t => nodes (p ++ k) t
  | TFull ch =>
      (fix go (i : nat) (l : list tree) : list (bytes * tree) :=
        match l with
        | [] => []
        | t :: l => nodes (p ++ [z2b (Z.of_nat i)]) t ++ go (S i) l
        end) 0%nat ch
  | _ => []
  end.

Lemma node_at_nodes p t q s : node_at p t q s → (q, s) ∈ nodes p t.
Proof.
  induction 1 as [p t|p k t q s _ IH|p ch i t q s Hi _ IH].
  - destruct t; left.
  - by right.
  - cbn [nodes]. right. match goal with |- _ ∈ ?f 0%nat ch => set (go := f) end.
    assert (∀ l n j, l !! j = Some t → (n + j)%nat = i → (q, s) ∈ go n l) as Hgo.
    { induction l as [|c l IHl]; intros n j Hj Hn; [done|]. cbn [go]. apply elem_of_app. destruct j as [|j].
      - injection Hj as ->. left. by replace n with i by lia.
      - right. apply (IHl (S n) j); [done | lia]. }
    by apply (Hgo ch 0%nat i).
Qed.

Lemma subtree_nodes s t : ∀ p, subtree s t → ∃ q, (q, s) ∈ nodes p t.
Proof.
  intros p Hs. assert (∃ q, node_at p t q s) as [q Hq]; [|exists q; by apply node_at_nodes].
  revert p. induction Hs as [t|s k t _ IH|s ch i t Hi _ IH]; intros p.
  - exists p. constructor.
  - destruct (IH (p ++ k)) as [q Hq]. exists q. by constructor.
  - destruct (IH (p ++ [z2b (Z.of_nat i)])) as [q Hq]. exists q. by econstructor.
Qed.

Section stored.
Context `{NodeDatabase}.

Lemma Reader_holds p t : reader_Node p (thash t) = Some (tenc t) → Reader_Node p (BytesToHash (thash t)) = Ok (tenc t).
Proof.
  intros E. unfold Reader_Node. rewrite BytesToHash_id by apply length_thash. rewrite E.
  pose proof (enc_nonempty (titem t)) as Hn. unfold tenc. by destruct (enc (titem t)); [cbn in Hn; lia|].
Qed.

Definition loadable (t : tree) : Prop := root_ok t ∨ is_value t.

Lemma loadable_cases t : loadable t → wf t ∨ ¬ is_branching t.
Proof.
  intros [[->|Hw]|Hv]; [right; intros Hb; destruct Hb | left; exact Hw | right; destruct t; try done; intros Hb; destruct Hb].
Qed.

Lemma loadable_short k t : wf (TShort k t) → loadable t.
Proof. intros [[_ ?]|(_ & _ & _ & ?)]; [by right | by left; right]. Qed.

Lemma loadable_slot ch i t : wf (TFull ch) → ch !! i = Some t → loadable t.
Proof.
  intros (_ & _ & Hs)%wf_TFull Ht. destruct (Hs _ _ Ht) as [->|Hs']; [by left; left|]. revert Hs'. case_decide; [by right | by left; right].
Qed.

(** The hash a loaded node is given. *)
Definition hash_given (r : bool) (h : option bytes) (t : tree) : Prop :=
  match h with None => True | Some h => h = thash t ∧ (r = true ∨ 32 <= length (tenc t))%nat end.

Lemma shallow_settled t : ∀ h, loadable t → ((32 <= length (tenc t))%nat → h ≠ None) → settled (shallow h t) t.
Proof.
  assert (∀ t, (∀ h, loadable t → ((32 <= length (tenc t))%nat → h ≠ None) → settled (shallow h t) t) →
    loadable t → settled (shallow_child t) t) as Hchild.
  { clear t. intros t IH Hok. destruct (loadable_cases t Hok) as [Hw|Hb].
    - rewrite shallow_child_wf by done. case_decide; [apply IH; [done | lia] | constructor].
    - destruct t; [constructor | constructor | by destruct Hb.. ]. }
  induction t as [|v0|k t IH|ch IH] using tree_ind'; intros h Hok Hh.
  - constructor.
  - constructor.
  - destruct Hok as [[|Hw]|[]]; [done|]. rewrite shallow_TShort. constructor; [|done]. apply Hchild; [done | by eapply loadable_short].
  - destruct Hok as [[|Hw]|[]]; [done|]. rewrite shallow_TFull. constructor; [|done].
    intros i c t Hi Ht. rewrite list_lookup_fmap, Ht in Hi. injection Hi as <-. rewrite list.Forall_lookup in IH.
    apply Hchild; [by apply (IH i) | by eapply loadable_slot].
Qed.

Lemma shallow_rep (D : bytes → Prop) t : (∀ q, D q) → ∀ r p h,
  loadable t → sized t → holds p t → hash_given r h t → rep D r p (shallow h t) t.
Proof.
  intros HD. assert (∀ t p, (∀ r p h, loadable t → sized t → holds p t → hash_given r h t → rep D r p (shallow h t) t) →
    loadable t → sized t → holds p t → rep D false p (shallow_child t) t) as Hchild.
  { clear t. intros t p IH Hok Hsz Hh. destruct (loadable_cases t Hok) as [Hw|Hb].
    - rewrite shallow_child_wf by done. case_decide as Hl; [by apply IH|]. apply (rep_hash _ _ _ _ (shallow (Some (thash t)) t)).
      + eexists. split; [apply Reader_holds, Hh; [constructor | split; [done | left; lia]] | apply decode_stored; [done|]]. apply Hsz. constructor.
      + apply IH; [done..|]. split; [done | right; lia].
      + apply shallow_settled; done.
      + done.
      + done.
      + by apply wf_branching.
      + done.
      + lia.
    - destruct t; [constructor | constructor | by destruct Hb.. ]. }
  assert (∀ r p h t B, holds p t → hash_given r h t → B → cached D r p (MkFlag h false) t B) as Hcached.
  { intros r p h u B Hh Hg HB. split; [|done]. destruct h; [|done]. destruct Hg as [-> Hg]. done. }
  induction t as [|v0|k t IH|ch IH] using tree_ind'; intros r p h Hok Hsz Hh Hg.
  - constructor.
  - constructor.
  - destruct Hok as [[|Hw]|[]]; [done|]. rewrite shallow_TShort. pose proof (loadable_short k t Hw) as Hl. constructor.
    + apply Hchild; [done.. | by apply (sized_short k) |]. intros q s Hq. apply Hh. by constructor.
    + apply Hcached; [done..|]. pose proof (shallow_settled (TShort k t) (Some []) ltac:(by left; right) ltac:(done)) as Hs.
      rewrite shallow_TShort in Hs. by inversion Hs.
  - destruct Hok as [[|Hw]|[]]; [done|]. rewrite shallow_TFull. constructor; [by rewrite length_fmap| |].
    + intros i c t Hi Ht. rewrite list_lookup_fmap, Ht in Hi. injection Hi as <-. rewrite list.Forall_lookup in IH.
      apply Hchild; [by apply (IH i) | by eapply loadable_slot | by apply (sized_full ch i) | intros q s Hq; apply Hh; by econstructor].
    + apply Hcached; [done..|]. pose proof (shallow_settled (TFull ch) (Some []) ltac:(by left; right) ltac:(done)) as Hs.
      rewrite shallow_TFull in Hs. by inversion Hs.
Qed.

(** The database holds the trie of a map: the root, and the nodes that are not embedded. *)
Definition db_holds (m : gmap bytes bytes) : Prop := holds [] (tree_of m).

Lemma tree_of_nonempty m : m ≠ ∅ → values_ok m → wf (tree_of m).
Proof.
  intros Hne Hv. destruct (tree_of_ok m Hv) as [[E|Hw] Hm]; [|done]. destruct Hne. rewrite E in Hm.
  apply (maps_inj TNil); [done | apply maps_empty].
Qed.

Lemma New_rep m :
  values_ok m → small m → db_holds m → (m ≠ ∅ → root_of m ≠ Hash0 ∧ root_of m ≠ EmptyRootHash) →
  ∃ tr, Trie_New (root_of m) = Ok tr ∧ trie_rep tr m.
Proof.
  intros Hv Hs Hh Hne. destruct (tree_of_ok m Hv) as [Hok Hm]. unfold Trie_New.
  destruct (decide (m = ∅)) as [->|Hm0].
  - rewrite decide_True by (by right). exists empty_Trie. split; [done|]. split; [done|]. exists TNil.
    split; [constructor|]. split; [by left | apply maps_empty].
  - destruct (Hne Hm0). rewrite decide_False by tauto. pose proof (tree_of_nonempty m Hm0 Hv) as Hw.
    assert (reader_Node [] (thash (tree_of m)) = Some (tenc (tree_of m))) as Hroot by (apply Hh; [constructor | split; [done | by right]]).
    unfold root_of in *. rewrite tree_root_wf in * by done.
    assert (sized (tree_of m)) as Hsz by (apply root_sized; [done | by eapply small_bounded]).
    unfold resolveAndTrack. rewrite Reader_holds by done. cbn [mbind W_bind tell].
    rewrite decode_stored by (done || apply Hsz; constructor). cbn. eexists. split; [reflexivity|].
    split; [done|]. exists (tree_of m). split; [|done]. apply shallow_rep.
    + intros q Hq. exact (not_elem_of_empty (C := gset bytes) q Hq).
    + by left.
    + exact Hsz.
    + exact Hh.
    + split; [reflexivity | by left].
Qed.
End stored.
