(* ===== verification/TrieSpec.v ===== *)
(** * The trie: what it promises

    A trie is a finite map with a root hash that depends on the map only and commits to it.
    [run] is a client that interleaves reads, writes and hashing; the reference [run_map]
    does the same on a map. *)
From Stdlib Require Import ZArith Lia.
From Stdlib Require Strings.Byte.
From stdpp Require Import base tactics decidable list numbers gmap.
From S2P Require Import Prelude Keccak Common Rlp HexKeys RadixTree Trie TrieFacts TrieMap TrieStore.

(** ** A client *)

Inductive call : Type :=
| CGet (key : bytes)
| CUpdate (key value : bytes)
| CDelete (key : bytes)
| CHash.

Inductive answer : Type :=
| AValue (v : option bytes)
| ADone
| AHash (h : Hash)
| AFailed (e : option trie_error).

Definition answer_of {A} (f : A → answer) (r : res trie_error A) : answer :=
  match r with Ok a => f a | Err e => AFailed (Some e) | Panic => AFailed None end.

Section client.
Context `{NodeDatabase}.

Definition do_call (tr : Trie) (c : call) : answer * Trie :=
  match c with
  | CGet key => let '(r, tr) := Get tr key in (answer_of AValue r, tr)
  | CUpdate key v => let '(r, tr) := Update tr key v in (answer_of (λ _, ADone) r, tr)
  | CDelete key => let '(r, tr) := Delete tr key in (answer_of (λ _, ADone) r, tr)
  | CHash =>
      match Trie_Hash tr with
      | Ok (h, tr') => (AHash h, tr')
      | Err e => (AFailed (Some e), tr)
      | Panic => (AFailed None, tr)
      end
  end.

Fixpoint run (tr : Trie) (cs : list call) : list answer * Trie :=
  match cs with
  | [] => ([], tr)
  | c :: cs => let '(a, tr) := do_call tr c in let '(l, tr) := run tr cs in (a :: l, tr)
  end.
End client.

Definition map_put (m : gmap bytes bytes) (key v : bytes) : gmap bytes bytes :=
  if decide (v = []) then base.delete key m else <[key := v]> m.

Definition map_call (m : gmap bytes bytes) (c : call) : answer * gmap bytes bytes :=
  match c with
  | CGet key => (AValue (m !! key), m)
  | CUpdate key v => (ADone, map_put m key v)
  | CDelete key => (ADone, base.delete key m)
  | CHash => (AHash (root_of m), m)
  end.

Fixpoint run_map (m : gmap bytes bytes) (cs : list call) : list answer * gmap bytes bytes :=
  match cs with
  | [] => ([], m)
  | c :: cs => let '(a, m) := map_call m c in let '(l, m) := run_map m cs in (a :: l, m)
  end.

Definition call_small (c : call) : Prop := match c with CUpdate key v => entry_small key v | _ => True end.

Lemma small_delete m key : small m → small (base.delete key m).
Proof. apply map_Forall_delete. Qed.

Lemma small_put m key v : small m → entry_small key v → small (map_put m key v).
Proof. intros Hm Hs. unfold map_put. case_decide; [by apply small_delete | by apply map_Forall_insert_2]. Qed.

Lemma map_call_small m c : small m → call_small c → small (snd (map_call m c)).
Proof. intros Hm Hc. destruct c; cbn [map_call snd]; eauto using small_delete, small_put. Qed.

(** Maps with the same root are equal. *)
Lemma root_of_inj m1 m2 :
  values_ok m1 → values_ok m2 → small m1 → no_collision (tree_of m1) (tree_of m2) → root_of m1 = root_of m2 → m1 = m2.
Proof.
  intros Hv1 Hv2 Hs Hc E. destruct (tree_of_ok m1 Hv1) as [Hr1 Hm1], (tree_of_ok m2 Hv2) as [Hr2 Hm2].
  apply tree_root_inj in E; [|done..|by apply root_sized; [|eapply small_bounded]|done].
  rewrite E in Hm1. by apply (maps_inj (tree_of m2)).
Qed.

Section client_facts.
Context `{NodeDatabase}.

Lemma Hash_rep tr m : trie_rep tr m → small m → ∃ tr', Trie_Hash tr = Ok (root_of m, tr') ∧ trie_rep tr' m.
Proof.
  intros (Hc & t & Hr & Ht & Hm) Hs. unfold root_of. rewrite <-(maps_tree_of t m Ht Hm).
  apply (Trie_Hash_rep tr m t); [done..|]. apply root_sized; [done | by eapply small_bounded].
Qed.

Lemma do_call_rep tr m c :
  trie_rep tr m → small m →
  fst (do_call tr c) = fst (map_call m c) ∧ trie_rep (snd (do_call tr c)) (snd (map_call m c)).
Proof.
  intros Htr Hs. destruct c as [key|key v|key|]; cbn [do_call map_call].
  - destruct (Get_rep tr m key Htr) as [E Hr]. destruct (Get tr key) as [r tr']. cbn in *. by subst.
  - destruct (Update_rep tr m key v Htr) as [E Hr]. destruct (Update tr key v) as [r tr']. cbn in *. by subst.
  - destruct (Delete_rep tr m key Htr) as [E Hr]. destruct (Delete tr key) as [r tr']. cbn in *. by subst.
  - destruct (Hash_rep tr m Htr Hs) as (tr' & -> & Hr). done.
Qed.

Lemma run_rep cs : ∀ tr m, trie_rep tr m → small m → Forall call_small cs →
  fst (run tr cs) = fst (run_map m cs) ∧ trie_rep (snd (run tr cs)) (snd (run_map m cs)).
Proof.
  induction cs as [|c cs IH]; intros tr m Htr Hs Hcs; [done|]. apply Forall_cons_1 in Hcs as [Hc Hcs]. cbn [run run_map].
  destruct (do_call_rep tr m c Htr Hs) as [Ea Hr]. pose proof (map_call_small m c Hs Hc) as Hs'.
  destruct (do_call tr c) as [a tr'], (map_call m c) as [a' m']. cbn [fst snd] in *. subst a'.
  destruct (IH tr' m' Hr Hs' Hcs) as [El Hr']. destruct (run tr' cs), (run_map m' cs). cbn in *. by subst.
Qed.

Lemma empty_rep : trie_rep empty_Trie ∅.
Proof. split; [done|]. exists TNil. split; [constructor|]. split; [by left | apply maps_empty]. Qed.

Lemma small_empty : small ∅.
Proof. apply map_Forall_empty. Qed.

End client_facts.

(** ** Example: a stored trie *)

(** Two keys that differ in the first nibble, with values too long to be embedded. *)
Definition ex_m : gmap bytes bytes :=
  {[ ex_key [0x12; 0x34] := replicate 40 Byte.x01; ex_key [0x52; 0x34] := replicate 40 Byte.x02 ]}.

Definition ex_leaf (v : bytes) : tree := TShort (ex_key [2; 3; 4; 16]) (TValue v).

Definition ex_leaf1 : tree := ex_leaf (replicate 40 Byte.x01).
Definition ex_leaf2 : tree := ex_leaf (replicate 40 Byte.x02).

Definition ex_tree : tree := TFull (<[1%nat := ex_leaf1]> (<[5%nat := ex_leaf2]> empty_ch)).

Lemma ex_tree_of : tree_of ex_m = ex_tree.
Proof. vm_compute. reflexivity. Qed.

Definition ex_hash1 : bytes := be_bytes 32 0x4c18a5c31ed1a0e659a4c068fdc99d54bb880d78d9716257f39b0828d0aa3b39.
Definition ex_hash2 : bytes := be_bytes 32 0x673f47c7de333ce3f5e673d01e405fed947484141c5a7012e9380b7c1a0eb8e6.
Definition ex_hash : bytes := be_bytes 32 0x2bcb93389f605e35de4d09ce12a23eccd8b96216acace8b67875627b5b75dddf.

Lemma ex_thash1 : thash ex_leaf1 = ex_hash1.
Proof. vm_compute. reflexivity. Qed.

Lemma ex_thash2 : thash ex_leaf2 = ex_hash2.
Proof. vm_compute. reflexivity. Qed.

Definition ex_root_blob : bytes :=
  enc (Lst (<[1%nat := Str ex_hash1]> (<[5%nat := Str ex_hash2]> (replicate 17 (Str []))))).

Lemma ex_child v h :
  (32 <= length (tenc (ex_leaf v)))%nat → thash (ex_leaf v) = h → child_item (ex_leaf v) = Str h.
Proof.
  intros Hl <-. change (child_item (ex_leaf v)) with (ref_item (titem (ex_leaf v))).
  unfold ref_item. fold (tenc (ex_leaf v)). rewrite decide_False by lia. reflexivity.
Qed.

Lemma ex_tenc : tenc ex_tree = ex_root_blob.
Proof.
  apply (f_equal enc). unfold ex_tree. rewrite titem_TFull, !list_fmap_insert. apply (f_equal Lst).
  assert (child_item ex_leaf1 = Str ex_hash1) as -> by (apply ex_child; [vm_compute; lia | exact ex_thash1]).
  assert (child_item ex_leaf2 = Str ex_hash2) as -> by (apply ex_child; [vm_compute; lia | exact ex_thash2]).
  reflexivity.
Qed.

Lemma ex_thash : thash ex_tree = ex_hash.
Proof. unfold thash. rewrite ex_tenc. vm_compute. reflexivity. Qed.

Lemma ex_root_of : root_of ex_m = ex_hash.
Proof. unfold root_of. rewrite ex_tree_of. exact ex_thash. Qed.

(** A path-based database that holds the nodes, except those at the paths [gone]. *)
Definition ex_db_without (gone : list bytes) : NodeDatabase := λ path hash,
  if decide (path ∈ gone) then None
  else if decide (path = [] ∧ hash = ex_hash) then Some ex_root_blob
  else if decide (path = [Byte.x01] ∧ hash = ex_hash1) then Some (tenc ex_leaf1)
  else if decide (path = [Byte.x05] ∧ hash = ex_hash2) then Some (tenc ex_leaf2)
  else None.

Definition ex_db : NodeDatabase := ex_db_without [].

Lemma ex_m_ok : values_ok ex_m ∧ small ex_m.
Proof.
  split; (apply map_Forall_insert_2; [|apply map_Forall_singleton]); try (intros E; discriminate E);
    (split; apply Z.ltb_lt || apply Z.leb_le; reflexivity).
Qed.

(** The nodes of the tree that are not empty and not values. *)
Lemma ex_nodes q s :
  (q, s) ∈ nodes [] ex_tree → wf s →
  (q = [] ∧ s = ex_tree) ∨ (q = [Byte.x01] ∧ s = ex_leaf1) ∨ (q = [Byte.x05] ∧ s = ex_leaf2).
Proof.
  intros Hq Hw. vm_compute in Hq.
  repeat (apply elem_of_cons in Hq as [Hq|Hq];
    [injection Hq as -> ->; first [destruct Hw; fail | left; split; reflexivity |
       right; left; split; reflexivity | right; right; split; reflexivity]|]).
  by apply not_elem_of_nil in Hq.
Qed.

Lemma ex_db_holds : @db_holds ex_db ex_m.
Proof.
  unfold db_holds. rewrite ex_tree_of. intros q s Hq [Hw _]. apply node_at_nodes in Hq. destruct (ex_nodes q s Hq Hw) as [[-> ->]|[[-> ->]|[-> ->]]].
  - rewrite ex_thash, ex_tenc. reflexivity.
  - rewrite ex_thash1. reflexivity.
  - rewrite ex_thash2. reflexivity.
Qed.

Lemma ex_no_collision : no_collision (tree_of ex_m) (tree_of ex_m).
Proof.
  rewrite ex_tree_of.
  assert (∀ s, hashed ex_tree s → s = ex_tree ∨ s = ex_leaf1 ∨ s = ex_leaf2) as Hs.
  { intros s [->|[[q Hq]%(subtree_nodes _ _ []) [Hw _]]]; [by left|]. destruct (ex_nodes q s Hq Hw) as [[_ ?]|[[_ ?]|[_ ?]]]; auto. }
  intros s1 s2 [->|[->| ->]]%Hs [->|[->| ->]]%Hs; try (intros _; reflexivity); rewrite ?ex_thash, ?ex_thash1, ?ex_thash2;
    intros E; exfalso; revert E; refine (bool_decide_eq_true_1 (_ ≠ _) _); vm_compute; reflexivity.
Qed.

Lemma ex_root : root_of ex_m ≠ Hash0 ∧ root_of ex_m ≠ EmptyRootHash.
Proof. rewrite ex_root_of. refine (bool_decide_eq_true_1 _ _). vm_compute. reflexivity. Qed.

Definition opened (r : res trie_error Trie) : Trie := match r with Ok tr => tr | _ => empty_Trie end.

Definition ex_tr : Trie := opened (@Trie_New ex_db ex_hash).

Lemma ex_tr_rep : @trie_rep ex_db ex_tr ex_m.
Proof.
  destruct ex_m_ok as [Hv Hs]. destruct (@New_rep ex_db ex_m Hv Hs ex_db_holds) as (tr & E & Hr); [intros _; exact ex_root|].
  unfold ex_tr. rewrite <-ex_root_of, E. exact Hr.
Qed.

(** ** Properties *)

Section properties.
Context `{NodeDatabase}.

(** C4: A trie is the finite map it represents. Any interleaving of reads, writes, deletions
    and root computations on it, with subtrees in memory or behind hashes in the database,
    gives the answers of the same calls on the map: a read returns the map's value, a write
    of the empty value deletes, the hash is that of the map as it is at that moment (no
    cached hash of a changed node survives), no call fails, and the trie again represents
    the map. *)
Theorem Trie_refines_map tr m cs :
  trie_rep tr m → small m → Forall call_small cs →
  fst (run tr cs) = fst (run_map m cs) ∧ trie_rep (snd (run tr cs)) (snd (run_map m cs)).
Proof. apply run_rep. Qed.

(** C14: The root hash commits to the contents: two tries with the same root hash hold the
    same map, if no node of the one has the Keccak hash of a different node of the other. *)
Theorem Trie_Hash_binds tr1 tr2 m1 m2 h tr1' tr2' :
  trie_rep tr1 m1 → trie_rep tr2 m2 → small m1 → small m2 → no_collision (tree_of m1) (tree_of m2) →
  Trie_Hash tr1 = Ok (h, tr1') → Trie_Hash tr2 = Ok (h, tr2') → m1 = m2.
Proof.
  intros H1 H2 Hs1 Hs2 Hc E1 E2. destruct (Hash_rep tr1 m1 H1 Hs1) as (? & E1' & _), (Hash_rep tr2 m2 H2 Hs2) as (? & E2' & _).
  destruct H1 as (_ & t1 & _ & Ht1 & Hm1), H2 as (_ & t2 & _ & Ht2 & Hm2).
  apply root_of_inj; [by apply (maps_values t1) | by apply (maps_values t2) | done | done | congruence].
Qed.

(** A stored trie is found again: over a database that holds the nodes of a map under
    their paths and hashes, [New] of the map's root opens a trie that answers every sequence
    of calls as the map does. The root must not be one of the two hashes [New] takes for
    the empty trie. *)
Theorem Trie_New_opens m :
  values_ok m → small m → db_holds m → (m ≠ ∅ → root_of m ≠ Hash0 ∧ root_of m ≠ EmptyRootHash) →
  ∃ tr, Trie_New (root_of m) = Ok tr ∧
    ∀ cs, Forall call_small cs → fst (run tr cs) = fst (run_map m cs).
Proof.
  intros Hv Hs Hdb Hne. destruct (New_rep m Hv Hs Hdb Hne) as (tr & E & Hr). exists tr. split; [done|].
  intros cs Hcs. by apply run_rep.
Qed.
End properties.

Definition ex_calls : list call :=
  [CGet (ex_key [0x12; 0x34]); CDelete (ex_key [0x12; 0x34]); CHash; CGet (ex_key [0x12; 0x34]);
   CUpdate (ex_key [0x12; 0x34]) (replicate 40 Byte.x01); CHash].

Lemma ex_calls_small : Forall call_small ex_calls.
Proof. repeat constructor; apply Z.ltb_lt || apply Z.leb_le; reflexivity. Qed.

Lemma Trie_refines_map_witness :
  fst (@run ex_db ex_tr ex_calls) = fst (run_map ex_m ex_calls).
Proof. apply (@Trie_refines_map ex_db); [exact ex_tr_rep | apply ex_m_ok | exact ex_calls_small]. Defined.

Lemma Trie_New_opens_witness :
  ∃ tr, @Trie_New ex_db (root_of ex_m) = Ok tr ∧ fst (@run ex_db tr ex_calls) = fst (run_map ex_m ex_calls).
Proof.
  destruct ex_m_ok as [Hv Hs].
  destruct (@Trie_New_opens ex_db ex_m Hv Hs ex_db_holds (λ _, ex_root)) as (tr & E & Hr).
  exists tr. split; [exact E | exact (Hr _ ex_calls_small)].
Defined.

(** The same map, once opened from the database and once built in memory. *)
Definition ex_puts_m : list call := (λ '(k, v), CUpdate k v) <$> map_to_list ex_m.

Lemma ex_puts_small : Forall call_small ex_puts_m.
Proof. apply Forall_fmap, list.Forall_forall. intros [k v] Hin%elem_of_map_to_list. by apply ex_m_ok. Qed.

Definition ex_built : Trie := snd (@run ex_db empty_Trie ex_puts_m).

Lemma ex_built_rep : @trie_rep ex_db ex_built ex_m.
Proof.
  assert (snd (run_map ∅ ex_puts_m) = ex_m) as E by (refine (bool_decide_eq_true_1 _ _); vm_compute; reflexivity).
  rewrite <-E. unfold ex_built. apply (@run_rep ex_db); [apply empty_rep | apply small_empty | exact ex_puts_small].
Qed.

Lemma Trie_Hash_binds_witness :
  ∃ h tr1 tr2, @Trie_Hash ex_tr = Ok (h, tr1) ∧ Trie_Hash ex_built = Ok (h, tr2) ∧ ex_m = ex_m.
Proof.
  destruct ex_m_ok as [_ Hs]. destruct (@Hash_rep ex_db ex_tr ex_m ex_tr_rep Hs) as (tr1 & E1 & _).
  destruct (@Hash_rep ex_db ex_built ex_m ex_built_rep Hs) as (tr2 & E2 & _).
  exists (root_of ex_m), tr1, tr2. split; [exact E1|]. split; [exact E2|].
  exact (@Trie_Hash_binds ex_db ex_tr ex_built ex_m ex_m _ tr1 tr2 ex_tr_rep ex_built_rep Hs Hs ex_no_collision E1 E2).
Defined.

(** ** A failed deletion *)

(** The nodes in memory lead from [n] along the nibbles [pre] to [n']. *)
Inductive leads : node → bytes → node → Prop :=
| leads_here n : leads n [] n
| leads_short k v fl pre n : k ≠ [] → leads v pre n → leads (shortNode k v fl) (k ++ pre) n
| leads_full ch fl x c pre n : ch !! nib x = Some c → leads c pre n → leads (fullNode ch fl) (x :: pre) n.

(** The entry of the value [v] under the last nibbles [rest] of its key. *)
Definition entry_of (rest v : bytes) (c : node) : Prop :=
  (rest = [] ∧ c = valueNode v) ∨ ∃ fl, c = shortNode rest (valueNode v) fl.

Lemma children_left_nil i ch : (∀ j c, ch !! j = Some c → c = nilNode) → children_left i ch = [].
Proof.
  revert i. induction ch as [|c ch IH]; intros i Hn; [done|]. cbn [children_left]. rewrite (Hn 0%nat c eq_refl). cbn.
  apply IH. intros j c'. apply (Hn (S j)).
Qed.

Lemma children_left_one i ch j c :
  ch !! j = Some c → c ≠ nilNode → (∀ j' c', ch !! j' = Some c' → j' ≠ j → c' = nilNode) →
  children_left i ch = [(i + j)%nat].
Proof.
  intros Hj Hc. revert i j Hj. induction ch as [|c0 ch IH]; intros i j Hj Hn; [done|]. cbn [children_left].
  destruct j as [|j].
  - injection Hj as ->. destruct c; try done; cbn; rewrite Nat.add_0_r; f_equal;
      apply children_left_nil; intros j' c' H'; by apply (Hn (S j') c').
  - rewrite (Hn 0%nat c0 eq_refl) by done. cbn [is_nilNode]. rewrite (IH (S i) j Hj); [f_equal; lia|].
    intros j' c' H' Hne. apply (Hn (S j') c' H'). lia.
Qed.

Section failed_deletion.
Context `{NodeDatabase}.

(** A read whose whole path is in memory loads nothing. *)
Lemma get_leads n pre n' p key w f0 :
  leads n pre n' → (∀ f, (f0 <= f)%nat → get f n' (p ++ pre) key = (Ok (w, n', false), [])) →
  ∀ f, (length pre + f0 <= f)%nat → get f n p (pre ++ key) = (Ok (w, n, false), []).
Proof.
  intros HL. revert p. induction HL as [n|k v fl pre n Hk HL IH|ch fl x c pre n Hc HL IH]; intros p Hg f Hf.
  - rewrite app_nil_r in Hg. by apply Hg.
  - assert (0 < length k)%nat by (destruct k; cbn; [done|lia]). rewrite length_app in Hf. destruct f as [|f]; [lia|].
    rewrite <-app_assoc. cbn [get]. rewrite key_prefix_app, drop_app_length. cbn [negb].
    rewrite (IH (p ++ k)); [done| |lia]. intros f' Hf'. rewrite <-app_assoc. by apply Hg.
  - cbn [length] in Hf. destruct f as [|f]; [lia|]. cbn [app get]. rewrite Hc.
    rewrite (IH (p ++ [x])); [done| |lia]. intros f' Hf'. rewrite <-app_assoc. by apply Hg.
Qed.

(** A deletion that fails below nodes in memory leaves what it changed there, under the
    hashes those nodes had cached. *)
Lemma delete_leads n pre n' p key e n'' ev f0 :
  leads n pre n' → key ≠ [] → (∀ f, (f0 <= f)%nat → delete f n' (p ++ pre) key = (Failed e n'', ev)) →
  ∃ m, leads m pre n'' ∧ (pre ≠ [] → cache m = cache n) ∧
    ∀ f, (length pre + f0 <= f)%nat → delete f n p (pre ++ key) = (Failed e m, ev).
Proof.
  intros HL Hkey. revert p. induction HL as [n|k v fl pre n Hk HL IH|ch fl x c pre n Hc HL IH]; intros p Hg.
  - rewrite app_nil_r in Hg. exists n''. split_and!; [constructor|done|done].
  - assert (0 < length k)%nat by (destruct k; cbn; [done|lia]).
    destruct (IH (p ++ k)) as (m & Hm & _ & Hd); [intros f Hf; rewrite <-app_assoc; by apply Hg|].
    exists (shortNode k m fl). split_and!; [by constructor|done|]. intros [|f] Hf; rewrite length_app in Hf; [lia|].
    rewrite <-app_assoc. cbn [delete]. rewrite prefixLen_app, decide_False by lia.
    rewrite decide_False by (rewrite length_app, length_app; destruct key; cbn; [done|lia]).
    rewrite take_app_length, drop_app_length, Hd by lia. done.
  - destruct (IH (p ++ [x])) as (m & Hm & _ & Hd); [intros f Hf; rewrite <-app_assoc; by apply Hg|].
    exists (fullNode (<[nib x := m]> ch) fl). split_and!; [|done|].
    + econstructor; [|done]. apply list_lookup_insert_eq. by eapply lookup_lt_Some.
    + intros [|f] Hf; cbn [length] in Hf; [lia|]. cbn [app delete]. rewrite Hc, Hd by lia. done.
Qed.

(** The entry itself: how it is read and how it is deleted. *)
Lemma get_entry rest v c p f : entry_of rest v c → (2 <= f)%nat → get f c p rest = (Ok (Some v, c, false), []).
Proof.
  intros Hc Hf. destruct f as [|[|f]]; [lia..|]. destruct Hc as [[-> ->]|[fl ->]]; [done|].
  cbn [get]. assert (key_prefix rest rest = true) as -> by (apply key_prefix_spec; exists []; by rewrite app_nil_r). done.
Qed.

Lemma delete_entry rest v c p :
  entry_of rest v c → ∃ ev, ∀ f, delete (S f) c p rest = (Done true nilNode, ev).
Proof.
  intros [[-> ->]|[fl ->]]; [by exists []|]. exists [OnDelete p]. intros f. cbn [delete].
  pose proof (prefixLen_app rest []) as E. rewrite app_nil_r in E. rewrite E. by rewrite decide_False, decide_True by lia.
Qed.

(** A branch whose only other child cannot be loaded. *)
Lemma delete_branch ch fl x rest c v pos h p :
  ch !! nib x = Some c → entry_of rest v c →
  (pos < 16)%nat → pos ≠ nib x → ch !! pos = Some (hashNode h) →
  (∀ i c', ch !! i = Some c' → i ≠ nib x → i ≠ pos → c' = nilNode) →
  reader_Node (p ++ [z2b (Z.of_nat pos)]) (BytesToHash h) = None →
  ∃ ev, ∀ f, (2 <= f)%nat → delete f (fullNode ch fl) p (x :: rest) =
    (Failed MissingNodeError (fullNode (<[nib x := nilNode]> ch) newFlag), ev).
Proof.
  intros Hx Hc H16 Hne Hpos Hothers Hdb.
  assert (only_child (<[nib x := nilNode]> ch) = Some pos) as Hone.
  { unfold only_child. erewrite (children_left_one 0 _ pos (hashNode h)); [done|by rewrite list_lookup_insert_ne|done|].
    intros i c' Hi Hip. destruct (decide (i = nib x)) as [->|Hix].
    - rewrite list_lookup_insert_eq in Hi by (by eapply lookup_lt_Some). by injection Hi as <-.
    - rewrite list_lookup_insert_ne in Hi by done. by eapply Hothers. }
  destruct (delete_entry rest v c (p ++ [x]) Hc) as [ev Ed].
  eexists. intros [|f] Hf; [lia|]. cbn [delete]. rewrite Hx. destruct f as [|f]; [lia|]. rewrite Ed. cbn [is_nilNode]. unfold reduce_full.
  rewrite Hone. rewrite decide_False by lia. rewrite list_lookup_insert_ne, Hpos by done.
  cbn [default id resolve]. unfold resolveAndTrack, Reader_Node. rewrite Hdb. reflexivity.
Qed.

(** A cached root hash is reported as it is. *)
Lemma Trie_Hash_cached t b : (cache (root t)).1 = Some b → ∃ t', Trie_Hash t = Ok (BytesToHash b, t').
Proof.
  intros Hb. unfold Trie_Hash, hashRoot. destruct (root t) as [|ch fl|k v fl|h|w]; try done; cbn in Hb; cbn [hash]; rewrite Hb;
    eexists; reflexivity.
Qed.

(** C39: A deletion that fails has already removed the key. Let the path to an entry be in
    memory down to its branch, and let the branch have one other child, which is behind a
    hash that the database does not have. Then [Delete] of the entry's key returns the
    missing-node error; a read of the key gave the value before and gives nothing,
    without an error, afterwards; and a root whose hash was cached, if it is not the
    branch itself, reports the same hash as before. The branch is changed in place before
    the sibling is resolved. *)
Theorem failed_Delete_removes t key pre x rest v ch fl c pos h :
  committed t = false → keybytesToHex key = pre ++ x :: rest → leads (root t) pre (fullNode ch fl) →
  ch !! nib x = Some c → entry_of rest v c →
  (pos < 16)%nat → pos ≠ nib x → ch !! pos = Some (hashNode h) →
  (∀ i c', ch !! i = Some c' → i ≠ nib x → i ≠ pos → c' = nilNode) →
  reader_Node (pre ++ [z2b (Z.of_nat pos)]) (BytesToHash h) = None →
  fst (Get t key) = Ok (Some v) ∧
  ∃ t', Delete t key = (Err MissingNodeError, t') ∧ fst (Get t' key) = Ok None ∧
    ∀ b, pre ≠ [] → (cache (root t)).1 = Some b →
      ∃ t1 t2, Trie_Hash t = Ok (BytesToHash b, t1) ∧ Trie_Hash t' = Ok (BytesToHash b, t2).
Proof.
  intros Hcom Hkey HL Hx Hc H16 Hne Hpos Hothers Hdb.
  assert (length (pre ++ x :: rest) = length pre + 1 + length rest)%nat as Hlen by (rewrite length_app; cbn; lia).
  destruct (delete_branch ch fl x rest c v pos h pre Hx Hc H16 Hne Hpos Hothers Hdb) as [ev Hd].
  destruct (delete_leads _ _ _ [] (x :: rest) MissingNodeError (fullNode (<[nib x := nilNode]> ch) newFlag) ev 2 HL) as (m & Hm & Hcache & Hdel); [done|exact Hd|].
  assert (∀ t0 n w, committed t0 = false → leads (root t0) pre n →
    (∀ f, (3 <= f)%nat → get f n pre (x :: rest) = (Ok (w, n, false), [])) → fst (Get t0 key) = Ok w) as HG.
  { intros t0 n w Hc0 HL0 Hg. unfold Get. rewrite Hc0, Hkey.
    rewrite (get_leads (root t0) pre n [] (x :: rest) w 3 HL0); [done|exact Hg|unfold trie_fuel; lia]. }
  split.
  { apply (HG _ _ _ Hcom HL). intros [|f] Hf; [lia|]. cbn [get]. rewrite Hx, (get_entry rest v c) by (done || lia). done. }
  exists (set_root m (foldl track (count_update t) ev)). split_and!.
  - unfold Delete, remove_key. rewrite Hcom, Hkey. cbn [root count_update]. by rewrite (Hdel (trie_fuel _)) by (unfold trie_fuel; lia).
  - apply (HG (set_root m (foldl track (count_update t) ev)) (fullNode (<[nib x := nilNode]> ch) newFlag)); [|exact Hm|].
    { change (committed (foldl track (count_update t) ev) = false). by destruct (track_fields (count_update t) ev) as [_ ->]. }
    intros [|[|f]] Hf; [lia..|]. cbn [get].
    rewrite list_lookup_insert_eq by (by eapply lookup_lt_Some). done.
  - intros b Hpre Hb. destruct (Trie_Hash_cached t b Hb) as [t1 E1].
    edestruct (Trie_Hash_cached (set_root m (foldl track (count_update t) ev)) b) as [t2 E2]; [|by exists t1, t2].
    cbn [root set_root]. by rewrite Hcache.
Qed.
End failed_deletion.

(** A branch of two entries below a short node, hashed once; the first entry is in memory
    and the second is not, and the database is empty. *)
Definition gap_branch : list node :=
  <[2%nat := shortNode [Byte.x03; Byte.x04; Byte.x10] (valueNode (replicate 40 Byte.x01)) (MkFlag None false)]>
  (<[5%nat := hashNode ex_hash2]> (replicate 17 nilNode)).

Definition gap_root : node :=
  Eval vm_compute in
    match hash (shortNode [Byte.x01] (fullNode gap_branch newFlag) newFlag) true with Ok (_, n) => n | _ => nilNode end.

Definition gap_trie : Trie := MkTrie gap_root false 0 0 ∅ ∅ ∅.

Definition gap_children : list node :=
  Eval vm_compute in match gap_root with shortNode _ (fullNode ch _) _ => ch | _ => [] end.

Definition gap_flag : nodeFlag :=
  Eval vm_compute in match gap_root with shortNode _ (fullNode _ fl) _ => fl | _ => newFlag end.

Lemma gap_leads : leads gap_root [Byte.x01] (fullNode gap_children gap_flag).
Proof. apply (leads_short [Byte.x01] _ _ []); [done|constructor]. Qed.

Lemma failed_Delete_removes_witness :
  ∃ t', @Delete (λ _ _, None) gap_trie [Byte.x12; Byte.x34] = (Err MissingNodeError, t') ∧
    fst (@Get (λ _ _, None) t' [Byte.x12; Byte.x34]) = Ok None ∧
    ∃ t1 t2, Trie_Hash gap_trie = Ok (default [] (cache gap_root).1, t1) ∧
      Trie_Hash t' = Ok (default [] (cache gap_root).1, t2).
Proof.
  destruct (@failed_Delete_removes (λ _ _, None) gap_trie [Byte.x12; Byte.x34] [Byte.x01] Byte.x02
    [Byte.x03; Byte.x04; Byte.x10] (replicate 40 Byte.x01) gap_children gap_flag
    (default nilNode (gap_children !! 2%nat)) 5 ex_hash2) as (_ & t' & E & Hget & Hh);
    [reflexivity | reflexivity | exact gap_leads | reflexivity | right; eexists; reflexivity | lia | discriminate
    | reflexivity | | reflexivity | ].
  - intros i c Hi H2 H5. do 17 (destruct i as [|i]; [injection Hi as <-; first [reflexivity | by destruct H2 | by destruct H5]|]).
    discriminate Hi.
  - exists t'. split; [exact E|]. split; [exact Hget|]. apply (Hh (default [] (cache gap_root).1)); [discriminate|reflexivity].
Defined.
