(* ===== verification/TrieCommit.v ===== *)
(** * Committing a trie

    [trie/committer.go], [trie/trienode/node.go], the encoders of [trie/node_enc.go] that
    work on collapsed nodes, and [Commit] of [trie/trie.go]. The committer walks the dirty
    part of a hashed trie, replaces every node that has a hash by that hash and collects
    the encoded nodes, by path, in a node set.

    The committer works on the node set of its caller, which is passed through. With many
    changes the children of the root are committed by one goroutine each, into a set of its
    own, and the sets are merged under a lock in the order in which the goroutines take it:
    [order] is that order, as the indices of the children. *)
From Stdlib Require Import ZArith Lia.
From Stdlib Require Strings.Byte.
From stdpp Require Import base tactics decidable list numbers gmap.
From S2P Require Import Prelude Keccak Common Rlp HexKeys RadixTree Trie.

(** ** Node sets *)

Record Node : Type := MkNode {
  Node_Hash : Hash;  (** node hash, empty for a deleted node *)
  Blob : bytes       (** encoded node blob, nil for the deleted node *)
}.

Definition IsDeleted (n : Node) : bool := bool_decide (length (Blob n) = 0%nat).

Definition NewDeleted : Node := MkNode Hash0 [].

Record NodeWithPrev : Type := MkNodeWithPrev {
  Node_of : Node;
  Prev : bytes       (** nil means the node was not existent *)
}.

Definition NewNodeWithPrev (hash : Hash) (blob prev : bytes) : NodeWithPrev :=
  MkNodeWithPrev (MkNode hash blob) prev.

Definition NewDeletedWithPrev (prev : bytes) : NodeWithPrev := MkNodeWithPrev (MkNode Hash0 []) prev.

Record leaf : Type := MkLeaf { leaf_Blob : bytes; leaf_Parent : Hash }.

Record NodeSet : Type := MkNodeSet {
  Owner : Hash;
  Leaves : list leaf;
  Nodes : gmap bytes Node;
  Origins : gmap bytes bytes;
  set_updates : Z;   (** the count of updated and inserted nodes *)
  set_deletes : Z    (** the count of deleted nodes *)
}.

Definition NewNodeSet (owner : Hash) : NodeSet := MkNodeSet owner [] ∅ ∅ 0 0.

Definition AddNode (path : bytes) (n : NodeWithPrev) (set : NodeSet) : NodeSet :=
  let d := IsDeleted (Node_of n) in
  MkNodeSet (Owner set) (Leaves set) (<[path := Node_of n]> (Nodes set)) (<[path := Prev n]> (Origins set))
    (if d then set_updates set else set_updates set + 1) (if d then set_deletes set + 1 else set_deletes set).

Definition AddLeaf (parent : Hash) (blob : bytes) (set : NodeSet) : NodeSet :=
  MkNodeSet (Owner set) (Leaves set ++ [MkLeaf blob parent]) (Nodes set) (Origins set) (set_updates set) (set_deletes set).

(** [maps.Copy(dst, src)] overwrites. *)
Definition Copy {A} (dst src : gmap bytes A) : gmap bytes A := src ∪ dst.

(** [None]: the sets belong to different owners. *)
Definition MergeDisjoint (set other : NodeSet) : option NodeSet :=
  if decide (Owner set = Owner other) then
    Some (MkNodeSet (Owner set) (Leaves set ++ Leaves other) (Copy (Nodes set) (Nodes other))
            (Copy (Origins set) (Origins other)) (set_updates set + set_updates other) (set_deletes set + set_deletes other))
  else None.

Definition count (n : Node) (by_ : Z) (set : NodeSet) : NodeSet :=
  if IsDeleted n then
    MkNodeSet (Owner set) (Leaves set) (Nodes set) (Origins set) (set_updates set) (set_deletes set + by_)
  else MkNodeSet (Owner set) (Leaves set) (Nodes set) (Origins set) (set_updates set + by_) (set_deletes set).

(** The loop body of [Merge]. *)
Definition merge_node (other : NodeSet) (path : bytes) (node : Node) (set : NodeSet) : NodeSet :=
  let set := match Nodes set !! path with Some prev => count prev (-1) set | None => set end in
  let set := count node 1 set in
  MkNodeSet (Owner set) (Leaves set) (<[path := node]> (Nodes set))
    (if decide (is_Some (Origins set !! path)) then Origins set
     else <[path := default [] (Origins other !! path)]> (Origins set))
    (set_updates set) (set_deletes set).

Definition Merge (set other : NodeSet) : option NodeSet :=
  if decide (Owner set = Owner other) then Some (map_fold (merge_node other) set (Nodes other)) else None.

Definition Size (set : NodeSet) : Z * Z := (set_updates set, set_deletes set).

(** Sets of several owners. *)
Definition MergedNodeSet : Type := gmap Hash NodeSet.

Definition NewMergedNodeSet : MergedNodeSet := ∅.

(** [None]: [Merge] of the sets of one owner failed. *)
Definition MergedNodeSet_Merge (sets : MergedNodeSet) (other : NodeSet) : option MergedNodeSet :=
  match sets !! Owner other with
  | Some subset => (λ s, <[Owner other := s]> sets) <$> Merge subset other
  | None => Some (<[Owner other := other]> sets)
  end.

Definition NewWithNodeSet (set : NodeSet) : option MergedNodeSet := MergedNodeSet_Merge NewMergedNodeSet set.

(** ** Encoding collapsed nodes *)

(** [encode] of the node types: a nil child is the empty string. *)
Fixpoint encode (n : node) (w : encBuffer) : encBuffer :=
  match n with
  | nilNode => eb_Write [Byte.x80] w
  | fullNode ch _ =>
      let '(w, offset) := eb_list w in
      listEnd offset ((fix go (l : list node) (w : encBuffer) : encBuffer :=
        match l with [] => w | c :: l => go l (encode c w) end) ch w)
  | shortNode k v _ =>
      let '(w, offset) := eb_list w in
      listEnd offset (encode v (writeBytes k w))
  | hashNode h => writeBytes h w
  | valueNode v => writeBytes v w
  end.

Definition nodeToBytes (n : node) : bytes := makeBytes (encode n reset).

(** ** The committer *)

(** [PrevalueTracer.Get]. *)
Definition prevalue (tracer : gmap bytes bytes) (path : bytes) : bytes := default [] (tracer !! path).

Section committer.
Context (tracer : gmap bytes bytes) (collectLeaf : bool).

(** The leaf of a stored node. *)
Definition collect_leaf (nhash : Hash) (n : node) (set : NodeSet) : NodeSet :=
  if collectLeaf then
    match n with shortNode _ (valueNode v) _ => AddLeaf nhash v set | _ => set end
  else set.

Definition store (path : bytes) (n : node) (set : NodeSet) : node * NodeSet :=
  match fst (cache n) with
  | None =>
      let origin := prevalue tracer path in
      (n, if decide (length origin ≠ 0%nat) then AddNode path (NewDeletedWithPrev origin) set else set)
  | Some hash =>
      let nhash := BytesToHash hash in
      let set := AddNode path (NewNodeWithPrev nhash (nodeToBytes n) (prevalue tracer path)) set in
      (hashNode hash, collect_leaf nhash n set)
  end.

(** What [commitChildren] leaves alone. *)
Definition skips (i : nat) (child : node) : bool :=
  bool_decide (16 <= i)%nat || match child with nilNode | hashNode _ => true | _ => false end.

(** The sets of the goroutines, merged one after the other. *)
Definition merge_child (sets : list (option NodeSet)) (set : NodeSet) (i : nat) : NodeSet :=
  match sets !! i with
  | Some (Some childSet) => default set (MergeDisjoint set childSet)
  | _ => set
  end.

Fixpoint commit (order : list nat) (path : bytes) (n : node) (parallel : bool) (set : NodeSet) {struct n} :
    res trie_error (node * NodeSet) :=
  match n with
  | shortNode k v fl =>
      match nf_hash fl, nf_dirty fl with
      | Some h, false => Ok (hashNode h, set)
      | _, _ =>
          '(v, set) ← (match v with fullNode _ _ => commit order (path ++ k) v false set | _ => Ok (v, set) end);
          match hexToCompact k with
          | Ok ck => Ok (store path (shortNode ck v fl) set)
          | _ => Panic
          end
      end
  | fullNode ch fl =>
      match nf_hash fl, nf_dirty fl with
      | Some h, false => Ok (hashNode h, set)
      | _, _ =>
          '(ch, set) ←
            (if parallel then
               '(ch, sets) ← (fix go (i : nat) (l : list node) : res trie_error (list node * list (option NodeSet)) :=
                 match l with
                 | [] => Ok ([], [])
                 | c :: l =>
                     '(c, s) ← (if skips i c then Ok (c, None)
                                else '(c, s) ← commit order (path ++ [z2b (Z.of_nat i)]) c false (NewNodeSet (Owner set)); Ok (c, Some s));
                     '(l, sets) ← go (S i) l;
                     Ok (c :: l, s :: sets)
                 end) 0%nat ch;
               Ok (ch, foldl (merge_child sets) set order)
             else
               (fix go (i : nat) (l : list node) (set : NodeSet) : res trie_error (list node * NodeSet) :=
                 match l with
                 | [] => Ok ([], set)
                 | c :: l =>
                     '(c, set) ← (if skips i c then Ok (c, set) else commit order (path ++ [z2b (Z.of_nat i)]) c false set);
                     '(l, set) ← go (S i) l set;
                     Ok (c :: l, set)
                 end) 0%nat ch set);
          Ok (store path (fullNode ch fl) set)
      end
  | hashNode h => Ok (hashNode h, set)
  | _ => Panic
  end.

(** [committer.Commit]. *)
Definition committer_Commit (order : list nat) (n : node) (parallel : bool) (set : NodeSet) : res trie_error (bytes * NodeSet) :=
  '(n, set) ← commit order [] n parallel set;
  match n with hashNode h => Ok (h, set) | _ => Panic end.
End committer.

(** ** [Trie.Commit] *)

Definition deletedNodes (t : Trie) : list bytes := elements (filter (λ path, is_Some (prevalues t !! path)) (deletes t)).

Definition add_deleted (tracer : gmap bytes bytes) (paths : list bytes) (set : NodeSet) : NodeSet :=
  foldl (λ set path, AddNode path (NewDeletedWithPrev (prevalue tracer path)) set) set paths.

Definition set_committed (t : Trie) : Trie :=
  MkTrie (root t) true (unhashed t) (uncommitted t) (inserts t) (deletes t) (prevalues t).

Definition clear_uncommitted (t : Trie) : Trie :=
  MkTrie (root t) (committed t) (unhashed t) 0 (inserts t) (deletes t) (prevalues t).

(** A nil [hashNode] is a node of its own; it has no hash, as the empty one. *)
Definition hash_or_nil (h : option bytes) : node := hashNode (default [] h).

(** The hash of the root and the node set, if there is one, for the trie of [owner]. *)
Definition Commit (owner : Hash) (order : list nat) (collectLeaf : bool) (t : Trie) :
    res trie_error (Hash * option NodeSet * Trie) :=
  match root t with
  | nilNode =>
      match deletedNodes t with
      | [] => Ok (EmptyRootHash, None, set_committed t)
      | paths => Ok (EmptyRootHash, Some (add_deleted (prevalues t) paths (NewNodeSet owner)), set_committed t)
      end
  | _ =>
      '(rootHash, t) ← Trie_Hash t;
      let '(hashedNode, dirty) := cache (root t) in
      if negb dirty then Ok (rootHash, None, set_committed (set_root (hash_or_nil hashedNode) t))
      else
        let set := add_deleted (prevalues t) (deletedNodes t) (NewNodeSet owner) in
        '(h, set) ← committer_Commit (prevalues t) collectLeaf order (root t) (bool_decide (100 < uncommitted t)) set;
        Ok (rootHash, Some set, set_committed (clear_uncommitted (set_root (hashNode h) t)))
  end.
