(* ===== verification/CommitFacts.v ===== *)
(** * What the committer collects

    The algebra of node sets: [absorb] merges sets that are disjoint, and equal sets up to
    the order of their leaves are equivalent. The committer adds its nodes to whatever is in
    the set already, all of them below its path, so that committing the children of a node
    in any order, each into a set of its own, collects what committing them one after the
    other does. *)
From Stdlib Require Import ZArith Lia Permutation.
From Stdlib Require Strings.Byte.
From stdpp Require Import base tactics decidable list numbers gmap.
From S2P Require Import Prelude Keccak Common Rlp HexKeys RadixTree Trie TrieFacts TrieCommit.

(** ** The encoding of collapsed nodes *)

Section node_ind.
Context (P : node → Prop) (Hnil : P nilNode) (Hfull : ∀ ch fl, Forall P ch → P (fullNode ch fl))
  (Hshort : ∀ k v fl, P v → P (shortNode k v fl)) (Hhash : ∀ h, P (hashNode h)) (Hvalue : ∀ v, P (valueNode v)).

Fixpoint node_ind' (n : node) : P n :=
  match n with
  | nilNode => Hnil
  | fullNode ch fl =>
      Hfull ch fl ((fix go (l : list node) : Forall P l :=
        match l with [] => Forall_nil_2 P | c :: l => Forall_cons_2 P c l (node_ind' c) (go l) end) ch)
  | shortNode k v fl => Hshort k v fl (node_ind' v)
  | hashNode h => Hhash h
  | valueNode v => Hvalue v
  end.
End node_ind.

Fixpoint node_item (n : node) : item :=
  match n with
  | nilNode => Str []
  | fullNode ch _ => Lst (node_item <$> ch)
  | shortNode k v _ => Lst [Str k; node_item v]
  | hashNode h => Str h
  | valueNode v => Str v
  end.

Lemma encode_item n : ∀ w, encode n w = write_item (node_item n) w.
Proof.
  induction n as [|ch fl IH|k v fl IH|h|v] using node_ind'; intros w; [exact (eq_sym (writeBytes_enc [] w)) | | |done..].
  - cbn [encode node_item]. rewrite write_item_Lst. unfold eb_list. cbn [fst]. f_equal.
    generalize (EncBuffer (eb_str w) (eb_lheads w ++ [Listhead (length (eb_str w)) (eb_lhsize w)]) (eb_lhsize w)).
    induction IH as [|c ch Hc _ IH]; intros b; [done|]. cbn [fmap list_fmap write_items]. by rewrite Hc, IH.
  - cbn [encode node_item]. rewrite write_item_Lst. unfold eb_list. cbn [fst write_items]. f_equal. apply IH.
Qed.

Lemma nodeToBytes_enc n : Z.of_nat (length (enc (node_item n))) < two64 → nodeToBytes n = enc (node_item n).
Proof. intros Hl. unfold nodeToBytes. rewrite encode_item. by destruct (write_item_represents _ Hl) as (_ & E & _). Qed.

(** ** Node sets *)

Definition absorb (set cs : NodeSet) : NodeSet :=
  MkNodeSet (Owner set) (Leaves set ++ Leaves cs) (Nodes cs ∪ Nodes set) (Origins cs ∪ Origins set)
    (set_updates set + set_updates cs) (set_deletes set + set_deletes cs).

Lemma NodeSet_ext a b :
  Owner a = Owner b → Leaves a = Leaves b → Nodes a = Nodes b → Origins a = Origins b →
  set_updates a = set_updates b → set_deletes a = set_deletes b → a = b.
Proof. destruct a, b; cbn; congruence. Qed.

Lemma MergeDisjoint_absorb set cs : Owner set = Owner cs → MergeDisjoint set cs = Some (absorb set cs).
Proof. intros E. unfold MergeDisjoint. by rewrite decide_True. Qed.

Lemma absorb_new set o : absorb set (NewNodeSet o) = set.
Proof. apply NodeSet_ext; cbn; rewrite ?app_nil_r, ?(left_id_L ∅ (∪)); done || lia. Qed.

Lemma absorb_assoc a b c : absorb (absorb a b) c = absorb a (absorb b c).
Proof. apply NodeSet_ext; cbn; rewrite ?app_assoc, ?(assoc_L (∪)); done || lia. Qed.

Lemma AddNode_absorb p n a b : AddNode p n (absorb a b) = absorb a (AddNode p n b).
Proof.
  unfold AddNode. apply NodeSet_ext; cbn; rewrite ?insert_union_l; try done; destruct (IsDeleted _); lia.
Qed.

Lemma AddLeaf_absorb h v a b : AddLeaf h v (absorb a b) = absorb a (AddLeaf h v b).
Proof. apply NodeSet_ext; cbn; by rewrite ?app_assoc. Qed.

(** Sets with the same nodes, their leaves in any order. *)
#[export] Instance NodeSet_equiv : Equiv NodeSet := λ a b,
  Owner a = Owner b ∧ Leaves a ≡ₚ Leaves b ∧ Nodes a = Nodes b ∧ Origins a = Origins b ∧
  set_updates a = set_updates b ∧ set_deletes a = set_deletes b.

#[export] Instance NodeSet_equivalence : Equivalence (≡@{NodeSet}).
Proof.
  split.
  - intros a. by split_and!.
  - intros a b (H1 & H2 & H3 & H4 & H5 & H6). by split_and!.
  - intros a b c (H1 & H2 & H3 & H4 & H5 & H6) (G1 & G2 & G3 & G4 & G5 & G6). split_and!; try congruence. by rewrite H2.
Qed.

#[export] Instance absorb_proper : Proper ((≡) ==> (≡) ==> (≡)) absorb.
Proof.
  intros a a' (H1 & H2 & H3 & H4 & H5 & H6) b b' (G1 & G2 & G3 & G4 & G5 & G6).
  split_and!; cbn; try congruence. by rewrite H2, G2.
Qed.

#[export] Instance AddNode_proper p n : Proper ((≡) ==> (≡)) (AddNode p n).
Proof.
  intros a a' (H1 & H2 & H3 & H4 & H5 & H6). split_and!; cbn; rewrite ?H3, ?H4, ?H5, ?H6; done.
Qed.

#[export] Instance AddLeaf_proper h v : Proper ((≡) ==> (≡)) (AddLeaf h v).
Proof. intros a a' (H1 & H2 & H3 & H4 & H5 & H6). split_and!; cbn; try congruence. by rewrite H2. Qed.

(** All paths of the set are below [p]. *)
Definition below_path (p : bytes) (set : NodeSet) : Prop :=
  ∀ q, is_Some (Nodes set !! q) ∨ is_Some (Origins set !! q) → ∃ z, q = p ++ z.

Lemma below_absorb p a b : below_path p a → below_path p b → below_path p (absorb a b).
Proof.
  intros Ha Hb q Hq. cbn in Hq. rewrite !lookup_union_is_Some in Hq. destruct Hq as [[Hq|Hq]|[Hq|Hq]]; eauto.
Qed.

Lemma below_new p o : below_path p (NewNodeSet o).
Proof. intros q [[? Hq]|[? Hq]]; cbn in Hq; by rewrite lookup_empty in Hq. Qed.

Lemma below_AddNode p q n a : below_path p a → (∃ z, q = p ++ z) → below_path p (AddNode q n a).
Proof.
  intros Ha Hq q' Hq'. cbn in Hq'. rewrite !lookup_insert_is_Some' in Hq'. destruct Hq' as [[<-|Hq']|[<-|Hq']]; eauto.
Qed.

Lemma below_weaken p k a : below_path (p ++ k) a → below_path p a.
Proof. intros Ha q Hq. destruct (Ha q Hq) as [z ->]. exists (k ++ z). by rewrite app_assoc. Qed.

Lemma absorb_comm s a b :
  Nodes a ##ₘ Nodes b → Origins a ##ₘ Origins b → absorb (absorb s a) b ≡ absorb (absorb s b) a.
Proof.
  intros Hn Ho. split_and!; cbn; try (done || lia).
  - rewrite <-!app_assoc. f_equiv. apply Permutation_app_comm.
  - rewrite !(assoc_L (∪)). f_equal. by apply map_union_comm.
  - rewrite !(assoc_L (∪)). f_equal. by apply map_union_comm.
Qed.

(** Sets of different children of a node are disjoint. *)
Lemma below_disjoint p x y a b :
  x ≠ y → below_path (p ++ [x]) a → below_path (p ++ [y]) b → Nodes a ##ₘ Nodes b ∧ Origins a ##ₘ Origins b.
Proof.
  intros Hne Ha Hb. split; apply map_disjoint_spec; intros q u v Hu Hv.
  all: destruct (Ha q) as [z1 E1]; [eauto|]; destruct (Hb q) as [z2 E2]; [eauto|].
  all: rewrite E1, <-!app_assoc in E2; apply app_inv_head in E2; cbn in E2; congruence.
Qed.

(** ** Committing into a set adds to it *)

(** [f] adds nodes below [p] to its set, the same whatever the set holds. *)
Definition framed {A} (p : bytes) (f : NodeSet → res trie_error (A * NodeSet)) : Prop :=
  ∀ set,
    match f (NewNodeSet (Owner set)) with
    | Ok (a, cs) => f set = Ok (a, absorb set cs) ∧ Owner cs = Owner set ∧ below_path p cs
    | Err e => f set = Err e
    | Panic => f set = Panic
    end.

Lemma framed_ret {A} p (a : A) : framed p (λ set, Ok (a, set)).
Proof. intros set. split; [by rewrite absorb_new|]. split; [done | apply below_new]. Qed.

Lemma framed_panic {A} p : framed (A := A) p (λ set, Panic).
Proof. by intros set. Qed.

Lemma framed_bind {A B} p (f : NodeSet → res trie_error (A * NodeSet)) (g : A → NodeSet → res trie_error (B * NodeSet)) :
  framed p f → (∀ a, framed p (g a)) → framed p (λ set, '(a, set) ← f set; g a set).
Proof.
  intros Hf Hg set. specialize (Hf set). destruct (f (NewNodeSet (Owner set))) as [[a cs]|e|]; cbn; [|by rewrite Hf..].
  destruct Hf as (-> & Ho & Hb). cbn. pose proof (Hg a cs) as H1. pose proof (Hg a (absorb set cs)) as H2.
  change (Owner (absorb set cs)) with (Owner set) in H2. rewrite Ho in H1.
  destruct (g a (NewNodeSet (Owner set))) as [[b cs']|e|]; [|by rewrite H1..].
  destruct H1 as (-> & Ho' & Hb'), H2 as (-> & _). split; [by rewrite absorb_assoc|]. split; [done | by apply below_absorb].
Qed.

Lemma framed_weaken {A} p k (f : NodeSet → res trie_error (A * NodeSet)) : framed (p ++ k) f → framed p f.
Proof.
  intros Hf set. specialize (Hf set). destruct (f _) as [[a cs]|e|]; [|done..]. destruct Hf as (? & ? & ?).
  split; [done|]. split; [done | by eapply below_weaken].
Qed.

(** Steps that add a node or leave the set as it is. *)
Lemma framed_step {A} p (a : A) (f : NodeSet → NodeSet) :
  (∀ o, Owner (f (NewNodeSet o)) = o ∧ below_path p (f (NewNodeSet o))) → (∀ s cs, f (absorb s cs) = absorb s (f cs)) →
  framed p (λ set, Ok (a, f set)).
Proof.
  intros Ho Hf set. destruct (Ho (Owner set)). split; [|done]. by rewrite <-Hf, absorb_new.
Qed.

Section committing.
Context (tracer : gmap bytes bytes) (collectLeaf : bool).

Local Notation store := (store tracer collectLeaf).
Local Notation commit := (commit tracer collectLeaf).

Lemma collect_leaf_Owner h n s : Owner (collect_leaf collectLeaf h n s) = Owner s.
Proof. unfold collect_leaf. by repeat case_match. Qed.

Lemma collect_leaf_Nodes h n s :
  Nodes (collect_leaf collectLeaf h n s) = Nodes s ∧ Origins (collect_leaf collectLeaf h n s) = Origins s.
Proof. unfold collect_leaf. by repeat case_match. Qed.

Lemma collect_leaf_absorb h n s cs : collect_leaf collectLeaf h n (absorb s cs) = absorb s (collect_leaf collectLeaf h n cs).
Proof. unfold collect_leaf. repeat case_match; try done. apply AddLeaf_absorb. Qed.

Lemma below_collect p h n s : below_path p s → below_path p (collect_leaf collectLeaf h n s).
Proof. intros Hb q. destruct (collect_leaf_Nodes h n s) as [-> ->]. apply Hb. Qed.

Lemma below_self (p : bytes) : ∃ z, p = p ++ z.
Proof. exists []. by rewrite app_nil_r. Qed.

Lemma store_framed p n : framed p (λ set, Ok (store p n set)).
Proof.
  unfold TrieCommit.store. destruct (fst (cache n)) as [h|].
  - apply framed_step.
    + intros o. split; [by rewrite collect_leaf_Owner|]. apply below_collect, below_AddNode; [apply below_new | apply below_self].
    + intros s cs. by rewrite AddNode_absorb, collect_leaf_absorb.
  - apply framed_step; [|intros s cs; case_decide; [apply AddNode_absorb | done]].
    intros o. case_decide; (split; [done|]); [|apply below_new]. apply below_AddNode; [apply below_new | apply below_self].
Qed.

(** The loops over the children. *)
Section loops.
Context (order : list nat) (path : bytes).

Fixpoint commit_seq (i : nat) (l : list node) (set : NodeSet) :
    res trie_error (list node * NodeSet) :=
  match l with
  | [] => Ok ([], set)
  | c :: l =>
      '(c, set) ← (if skips i c then Ok (c, set) else commit order (path ++ [z2b (Z.of_nat i)]) c false set);
      '(l, set) ← commit_seq (S i) l set;
      Ok (c :: l, set)
  end.

Context (owner : Hash).

Fixpoint commit_par (i : nat) (l : list node) :
    res trie_error (list node * list (option NodeSet)) :=
  match l with
  | [] => Ok ([], [])
  | c :: l =>
      '(c, s) ← (if skips i c then Ok (c, None)
                 else '(c, s) ← commit order (path ++ [z2b (Z.of_nat i)]) c false (NewNodeSet owner); Ok (c, Some s));
      '(l, sets) ← commit_par (S i) l;
      Ok (c :: l, s :: sets)
  end.
End loops.

Lemma commit_full order path ch fl parallel set :
  commit order path (fullNode ch fl) parallel set =
    match nf_hash fl, nf_dirty fl with
    | Some h, false => Ok (hashNode h, set)
    | _, _ =>
        '(ch, set) ← (if parallel then
                        '(ch, sets) ← commit_par order path (Owner set) 0 ch; Ok (ch, foldl (merge_child sets) set order)
                      else commit_seq order path 0 ch set);
        Ok (store path (fullNode ch fl) set)
    end.
Proof. destruct parallel; reflexivity. Qed.

Lemma commit_seq_framed order path l : Forall (λ c, ∀ p, framed p (commit order p c false)) l →
  ∀ i, framed path (commit_seq order path i l).
Proof.
  induction 1 as [|c l Hc _ IH]; intros i; [apply framed_ret|]. cbn [commit_seq].
  refine (framed_bind path _ (λ c set, '(l, set) ← commit_seq order path (S i) l set; Ok (c :: l, set)) _ _).
  - destruct (skips i c); [apply framed_ret | by eapply framed_weaken].
  - intros c'. refine (framed_bind path _ (λ l set, Ok (c' :: l, set)) (IH _) _). intros l'. apply framed_ret.
Qed.

Lemma commit_framed order n : ∀ p, framed p (commit order p n false).
Proof.
  induction n as [|ch fl IH|k v fl IH|h|v] using node_ind'; intros p.
  - apply framed_panic.
  - intros set. rewrite !commit_full. revert set. change (framed p (λ set, match nf_hash fl, nf_dirty fl with
      | Some h, false => Ok (hashNode h, set)
      | _, _ => '(ch, set) ← commit_seq order p 0 ch set; Ok (store p (fullNode ch fl) set) end)).
    assert (framed p (λ set, '(ch, set) ← commit_seq order p 0 ch set; Ok (store p (fullNode ch fl) set))) as Hf.
    { refine (framed_bind p _ (λ ch set, Ok (store p (fullNode ch fl) set)) (commit_seq_framed order p ch IH 0) _).
      intros ch'. apply store_framed. }
    destruct (nf_hash fl) as [h|]; [|done]. destruct (nf_dirty fl); [done | apply framed_ret].
  - cbn [TrieCommit.commit].
    assert (framed p (λ set, '(v, set) ← (match v with fullNode _ _ => commit order (p ++ k) v false set | _ => Ok (v, set) end);
      match hexToCompact k with Ok ck => Ok (store p (shortNode ck v fl) set) | _ => Panic end)) as Hf.
    { refine (framed_bind p _ (λ v set, match hexToCompact k with Ok ck => Ok (store p (shortNode ck v fl) set) | _ => Panic end) _ _).
      - destruct v; try apply framed_ret. eapply framed_weaken, IH.
      - intros v'. destruct (hexToCompact k); [apply store_framed | apply framed_panic..]. }
    destruct (nf_hash fl) as [h|]; [|done]. destruct (nf_dirty fl); [done | apply framed_ret].
  - apply framed_ret.
  - apply framed_panic.
Qed.

(** *** One goroutine for every child *)

Definition absorb_opt (s : NodeSet) (o : option NodeSet) : NodeSet := match o with Some cs => absorb s cs | None => s end.

(** The sets of the goroutines of a node at [path]. *)
Definition child_sets (path : bytes) (owner : Hash) (i : nat) (sets : list (option NodeSet)) : Prop :=
  ∀ j cs, sets !! j = Some (Some cs) →
    (i + j < 16)%nat ∧ Owner cs = owner ∧ below_path (path ++ [z2b (Z.of_nat (i + j))]) cs.

Lemma commit_par_seq order path l : ∀ i set,
  match commit_par order path (Owner set) i l with
  | Ok (l', sets) => commit_seq order path i l set = Ok (l', foldl absorb_opt set sets) ∧ child_sets path (Owner set) i sets
  | Err e => commit_seq order path i l set = Err e
  | Panic => commit_seq order path i l set = Panic
  end.
Proof.
  induction l as [|c l IH]; intros i set; [split; [done|]; intros j cs; by rewrite lookup_nil|].
  cbn [commit_par commit_seq].
  assert (∀ o s, Owner s = Owner set → (∀ cs, o = Some cs → (i < 16)%nat ∧ Owner cs = Owner set ∧ below_path (path ++ [z2b (Z.of_nat i)]) cs) →
    ∀ c', match ('(l, sets) ← commit_par order path (Owner set) (S i) l; Ok (c' :: l, o :: sets)) with
          | Ok (l', sets) => ('(l, s) ← commit_seq order path (S i) l s; Ok (c' :: l, s)) = Ok (l', foldl absorb_opt s (drop 1 sets)) ∧
              head sets = Some o ∧ child_sets path (Owner set) i sets
          | Err e => ('(l, s) ← commit_seq order path (S i) l s; Ok (c' :: l, s)) = Err e
          | Panic => ('(l, s) ← commit_seq order path (S i) l s; Ok (c' :: l, s)) = Panic
          end) as Htail.
  { intros o s Hs Ho c'. specialize (IH (S i) s). rewrite Hs in IH.
    destruct (commit_par _ _ _ _ _) as [[l' sets]|e|]; cbn; [|by rewrite IH..]. destruct IH as [-> Hc].
    split; [done|]. split; [done|]. intros [|j] cs Hj; [injection Hj as ->; rewrite Nat.add_0_r; auto|].
    replace (i + S j)%nat with (S i + j)%nat by lia. by apply Hc. }
  destruct (skips i c) eqn:Es; cbn [mbind res_bind].
  - specialize (Htail None set eq_refl ltac:(done) c). destruct (mbind _ _) as [[l' [|o sets]]|e|]; [| |done..]; [by destruct Htail as (? & ? & ?)|].
    destruct Htail as (-> & [= ->] & ?). done.
  - assert (i < 16)%nat as Hi by (unfold skips in Es; apply orb_false_iff in Es as [Es%bool_decide_eq_false _]; lia).
    pose proof (commit_framed order c (path ++ [z2b (Z.of_nat i)]) set) as Hf.
    destruct (commit order _ c false (NewNodeSet (Owner set))) as [[c' cs]|e|]; [|by rewrite Hf..]. destruct Hf as (-> & Ho & Hb).
    cbn [mbind res_bind]. specialize (Htail (Some cs) (absorb set cs) eq_refl ltac:(by intros ? [= <-]) c').
    destruct (mbind _ _) as [[l' [|o sets]]|e|]; [by destruct Htail as (? & ? & ?)| |done..].
    destruct Htail as (-> & [= ->] & ?). done.
Qed.

(** Merging in the order in which the goroutines finish. *)
Definition absorb_at (sets : list (option NodeSet)) (s : NodeSet) (i : nat) : NodeSet := absorb_opt s (sets !! i ≫= id).

Lemma merge_children_absorb path i sets order : ∀ set,
  child_sets path (Owner set) i sets → foldl (merge_child sets) set order = foldl (absorb_at sets) set order.
Proof.
  induction order as [|j order IH]; intros set Hc; [done|]. cbn [foldl].
  assert (merge_child sets set j = absorb_at sets set j) as ->.
  { unfold merge_child, absorb_at. destruct (sets !! j) as [[cs|]|] eqn:Ej; [|done..]. cbn.
    destruct (Hc _ _ Ej) as (_ & Ho & _). by rewrite MergeDisjoint_absorb. }
  apply IH. unfold absorb_at. destruct (sets !! j) as [[cs|]|]; exact Hc.
Qed.

#[export] Instance absorb_opt_proper : Proper ((≡) ==> (=) ==> (≡)) absorb_opt.
Proof. intros s s' Hs [cs|] ? <-; cbn; [by rewrite Hs | done]. Qed.

Lemma absorb_at_comm path owner sets s i j :
  child_sets path owner 0 sets → absorb_at sets (absorb_at sets s i) j ≡ absorb_at sets (absorb_at sets s j) i.
Proof.
  intros Hc. destruct (decide (i = j)) as [<-|Hne]; [done|]. unfold absorb_at.
  destruct (sets !! i) as [[a|]|] eqn:Ei, (sets !! j) as [[b|]|] eqn:Ej; try done. cbn.
  destruct (Hc _ _ Ei) as (? & _ & Ha), (Hc _ _ Ej) as (? & _ & Hb). cbn in Ha, Hb.
  destruct (below_disjoint path (z2b (Z.of_nat i)) (z2b (Z.of_nat j)) a b) as [Hn Ho]; [|done..|by apply absorb_comm].
  intros E%(f_equal b2z). rewrite !b2z_z2b, !Z.mod_small in E by lia. lia.
Qed.

Lemma absorb_at_perm path owner sets order order' :
  child_sets path owner 0 sets → order ≡ₚ order' → ∀ s s', s ≡ s' → foldl (absorb_at sets) s order ≡ foldl (absorb_at sets) s' order'.
Proof.
  intros Hc. induction 1 as [|i l l' _ IH|i j l|l l' l'' _ IH1 _ IH2]; intros s s' Hs.
  - done.
  - apply IH. unfold absorb_at. by rewrite Hs.
  - cbn [foldl]. assert (absorb_at sets (absorb_at sets s j) i ≡ absorb_at sets (absorb_at sets s' i) j) as E.
    { rewrite (absorb_at_comm path owner) by done. unfold absorb_at. by rewrite Hs. }
    revert E. generalize (absorb_at sets (absorb_at sets s j) i) (absorb_at sets (absorb_at sets s' i) j).
    induction l as [|k l IHl]; intros a b E; [done|]. cbn [foldl]. apply IHl. unfold absorb_at. by rewrite E.
  - rewrite IH1 by exact Hs. by apply IH2.
Qed.

Lemma absorb_at_seq sets : ∀ pre s,
  foldl (absorb_at (pre ++ sets)) s (seq (length pre) (length sets)) = foldl absorb_opt s sets.
Proof.
  induction sets as [|o sets IH]; intros pre s; [done|]. cbn [length seq foldl].
  assert (absorb_at (pre ++ o :: sets) s (length pre) = absorb_opt s o) as ->.
  { unfold absorb_at. by rewrite list_lookup_middle. }
  specialize (IH (pre ++ [o])). rewrite <-app_assoc, length_app, Nat.add_1_r in IH. apply IH.
Qed.

Lemma absorb_at_none sets l s : (∀ i, i ∈ l → sets !! i ≫= id = None) → foldl (absorb_at sets) s l = s.
Proof.
  revert s. induction l as [|i l IH]; intros s Hl; [done|]. cbn [foldl]. unfold absorb_at at 2. rewrite Hl by left.
  apply IH. intros j Hj. apply Hl. by right.
Qed.

Lemma merge_order path set sets order :
  child_sets path (Owner set) 0 sets → order ≡ₚ seq 0 16 → foldl (merge_child sets) set order ≡ foldl absorb_opt set sets.
Proof.
  intros Hc Hord. rewrite (merge_children_absorb path 0) by done. rewrite (absorb_at_perm path _ _ _ _ Hc Hord set set) by done.
  assert (foldl (absorb_at sets) set (seq 0 (16 + length sets)) = foldl (absorb_at sets) set (seq 0 16)) as <-.
  { rewrite seq_app, foldl_app. apply absorb_at_none. intros i Hi%elem_of_seq.
    destruct (sets !! i) as [[cs|]|] eqn:Ei; [|done..]. destruct (Hc _ _ Ei). lia. }
  rewrite Nat.add_comm, seq_app, foldl_app. pose proof (absorb_at_seq sets [] set) as E. cbn [app length] in E. rewrite E.
  rewrite absorb_at_none; [done|]. intros i Hi%elem_of_seq. rewrite lookup_ge_None_2; [done | lia].
Qed.

(** The same outcome, sets up to the order of leaves. *)
Definition same_outcome (r1 r2 : res trie_error (node * NodeSet)) : Prop :=
  match r1, r2 with
  | Ok (n1, s1), Ok (n2, s2) => n1 = n2 ∧ s1 ≡ s2
  | Err e1, Err e2 => e1 = e2
  | Panic, Panic => True
  | _, _ => False
  end.

#[export] Instance collect_leaf_proper h n : Proper ((≡) ==> (≡)) (collect_leaf collectLeaf h n).
Proof. intros s s' Hs. unfold collect_leaf. repeat case_match; try done. by rewrite Hs. Qed.

Lemma store_proper p n s s' : s ≡ s' → fst (store p n s) = fst (store p n s') ∧ snd (store p n s) ≡ snd (store p n s').
Proof.
  intros Hs. unfold TrieCommit.store. destruct (fst (cache n)) as [h|]; cbn; (split; [done|]); [by rewrite Hs|].
  case_decide; by rewrite Hs.
Qed.

Lemma same_outcome_refl r : same_outcome r r.
Proof. destruct r as [[]|e|]; done. Qed.

Lemma commit_parallel_same order path n set :
  order ≡ₚ seq 0 16 → same_outcome (commit order path n true set) (commit order path n false set).
Proof.
  intros Hord. destruct n as [|ch fl|k v fl|h|v]; try apply same_outcome_refl.
  rewrite !commit_full.
  assert (same_outcome
    ('(ch, set) ← ('(ch, sets) ← commit_par order path (Owner set) 0 ch; Ok (ch, foldl (merge_child sets) set order)); Ok (store path (fullNode ch fl) set))
    ('(ch, set) ← commit_seq order path 0 ch set; Ok (store path (fullNode ch fl) set))) as Hs.
  { pose proof (commit_par_seq order path ch 0 set) as Hp. destruct (commit_par _ _ _ _ _) as [[ch' sets]|e|]; cbn; [|by rewrite Hp..].
    destruct Hp as [-> Hc]. cbn. pose proof (store_proper path (fullNode ch' fl) _ _ (merge_order path set sets order Hc Hord)) as [H1 H2].
    by destruct (store path _ _), (store path _ _). }
  destruct (nf_hash fl) as [h|]; [|exact Hs]. destruct (nf_dirty fl); [exact Hs | apply same_outcome_refl].
Qed.
End committing.

(** ** Merging overlapping sets *)

(** How many nodes are deleted ones, or not. *)
Definition count_of (d : bool) (m : gmap bytes Node) : Z := Z.of_nat (size (filter (λ '(_, n), IsDeleted n = d) m)).

Definition counts (d : bool) (n : Node) : Z := if decide (IsDeleted n = d) then 1 else 0.

Definition counted (set : NodeSet) : Prop :=
  set_updates set = count_of false (Nodes set) ∧ set_deletes set = count_of true (Nodes set).

Lemma count_insert_new d m p n : m !! p = None → count_of d (<[p := n]> m) = count_of d m + counts d n.
Proof.
  intros Hp. unfold count_of, counts. case_decide as E.
  - rewrite map_filter_insert_True, map_size_insert_None by (done || rewrite map_lookup_filter_None; by left). lia.
  - rewrite map_filter_insert_False, delete_id by done. lia.
Qed.

Lemma count_insert d m p n :
  count_of d (<[p := n]> m) = count_of d m + counts d n - match m !! p with Some prev => counts d prev | None => 0 end.
Proof.
  destruct (m !! p) as [prev|] eqn:Hp; [|rewrite count_insert_new by done; lia].
  assert (base.delete p m !! p = None) as Hd by apply lookup_delete_eq.
  pose proof (count_insert_new d _ p prev Hd) as H1. pose proof (count_insert_new d _ p n Hd) as H2.
  rewrite insert_delete_id in H1 by done. rewrite insert_delete_eq in H2. lia.
Qed.

Lemma count_fields n k set :
  Owner (count n k set) = Owner set ∧ Leaves (count n k set) = Leaves set ∧ Nodes (count n k set) = Nodes set ∧
  Origins (count n k set) = Origins set ∧ set_updates (count n k set) = set_updates set + k * counts false n ∧
  set_deletes (count n k set) = set_deletes set + k * counts true n.
Proof. unfold count, counts. destruct (IsDeleted n); cbn; split_and!; repeat case_decide; done || lia. Qed.

Lemma merge_node_counted other p n set : counted set → counted (merge_node other p n set).
Proof.
  intros [Hu Hd]. unfold merge_node, counted. cbn [Nodes set_updates set_deletes].
  destruct (count_fields n 1 (match Nodes set !! p with Some prev => count prev (-1) set | None => set end)) as (_ & _ & -> & _ & -> & ->).
  destruct (Nodes set !! p) as [prev|] eqn:Hp.
  - destruct (count_fields prev (-1) set) as (_ & _ & -> & _ & -> & ->). rewrite !count_insert, Hp. lia.
  - rewrite !count_insert, Hp. lia.
Qed.

Lemma merge_node_maps other p n set :
  Nodes (merge_node other p n set) = <[p := n]> (Nodes set) ∧
  Origins (merge_node other p n set) = Origins set ∪ {[ p := default [] (Origins other !! p) ]} ∧
  Owner (merge_node other p n set) = Owner set ∧ Leaves (merge_node other p n set) = Leaves set.
Proof.
  unfold merge_node. cbn [Nodes Origins Owner Leaves].
  destruct (count_fields n 1 (match Nodes set !! p with Some prev => count prev (-1) set | None => set end)) as (-> & -> & -> & -> & _).
  assert (∀ s : NodeSet, s = set ∨ (∃ prev, s = count prev (-1) set) → Owner s = Owner set ∧ Leaves s = Leaves set ∧ Nodes s = Nodes set ∧ Origins s = Origins set) as Hs.
  { intros s [->|[prev ->]]; [done|]. by destruct (count_fields prev (-1) set) as (-> & -> & -> & -> & _). }
  destruct (Hs (match Nodes set !! p with Some prev => count prev (-1) set | None => set end)) as (-> & -> & -> & ->);
    [destruct (Nodes set !! p); [right; by eexists | by left]|].
  split_and!; [done| |done..]. apply map_eq. intros q. case_decide as Hp.
  - destruct (decide (q = p)) as [->|Hne]; rewrite lookup_union; [destruct Hp as [o ->]; by rewrite lookup_singleton_eq|].
    rewrite lookup_singleton_ne by done. by destruct (Origins set !! q).
  - apply eq_None_not_Some in Hp. destruct (decide (q = p)) as [->|Hne]; rewrite lookup_union.
    + by rewrite lookup_insert_eq, Hp, lookup_singleton_eq.
    + rewrite lookup_insert_ne, lookup_singleton_ne by done. by destruct (Origins set !! q).
Qed.

(** The original values [Merge] takes for the nodes of the other set. *)
Definition origins_of (other : NodeSet) : gmap bytes bytes :=
  map_imap (λ p _, Some (default [] (Origins other !! p))) (Nodes other).

(** [Merge] overwrites the nodes of a set with those of a later one, keeps the first
    original value of a path, and keeps the counters true: they stay the numbers of updated
    and of deleted nodes in the set, whatever overlaps. Sets of different owners are
    refused. *)
Theorem Merge_counted set other :
  counted set →
  if decide (Owner set = Owner other) then
    ∃ r, Merge set other = Some r ∧ counted r ∧ Owner r = Owner set ∧ Leaves r = Leaves set ∧
      Nodes r = Nodes other ∪ Nodes set ∧ Origins r = Origins set ∪ origins_of other
  else Merge set other = None.
Proof.
  intros Hc. unfold Merge. case_decide; [|done]. eexists. split; [done|]. unfold origins_of. generalize (Nodes other). intros m.
  apply (map_fold_weak_ind (λ r m, counted r ∧ Owner r = Owner set ∧ Leaves r = Leaves set ∧ Nodes r = m ∪ Nodes set ∧
    Origins r = Origins set ∪ map_imap (λ p _, Some (default [] (Origins other !! p))) m)).
  - rewrite map_imap_empty, (left_id_L ∅ (∪)), (right_id_L ∅ (∪)). done.
  - intros p n m' r Hp (Hc' & HW & HL & HN & HO). destruct (merge_node_maps other p n r) as (-> & -> & -> & ->).
    split; [by apply merge_node_counted|]. rewrite HN, HO, insert_union_l. split_and!; [done..|].
    rewrite map_imap_insert. cbn. rewrite insert_union_singleton_r by (by rewrite map_lookup_imap, Hp). by rewrite (assoc_L (∪)).
Qed.

(** A set with an update and a deletion, and one that overlaps it. *)
Definition ex_set1 : NodeSet :=
  AddNode [Byte.x02] (NewDeletedWithPrev [Byte.x07]) (AddNode [Byte.x01] (NewNodeWithPrev Hash0 [Byte.x08] []) (NewNodeSet Hash0)).

Definition ex_set2 : NodeSet := AddNode [Byte.x01] (NewDeletedWithPrev [Byte.x08]) (NewNodeSet Hash0).

Lemma Merge_counted_witness : ∃ r, Merge ex_set1 ex_set2 = Some r ∧ Size r = (0, 2).
Proof.
  assert (counted ex_set1) as Hc by (split; vm_compute; reflexivity).
  pose proof (Merge_counted ex_set1 ex_set2 Hc) as H. rewrite decide_True in H by reflexivity.
  destruct H as (r & E & _). exists r. split; [exact E|].
  assert (Size <$> Merge ex_set1 ex_set2 = Some (0, 2)) as E2 by (vm_compute; reflexivity).
  rewrite E in E2. exact (Some_inj _ _ E2).
Defined.
