(* ===== verification/CommitSpec.v ===== *)
(** * Committed tries are stored tries

    The committer of a hashed trie collects the nodes that are not stored yet: with the set
    written, the database holds the trie, at the root that [Commit] returns. *)
From Stdlib Require Import ZArith Lia Permutation.
From Stdlib Require Strings.Byte.
From stdpp Require Import base tactics decidable list numbers gmap.
From S2P Require Import Prelude Keccak Common Rlp HexKeys RadixTree Trie TrieFacts TrieMap TrieStore TrieSpec TrieCommit CommitFacts.

Section commit_spec.
Context `{NodeDatabase} (D : bytes → Prop) (tracer : gmap bytes bytes) (collectLeaf : bool) (order : list nat).

Local Notation store := (store tracer collectLeaf).
Local Notation commit := (commit tracer collectLeaf).

(** The node is in the set, or in the database and untouched by the set. *)
Definition found (s0 s1 : NodeSet) (q : bytes) (s : tree) : Prop :=
  Nodes s1 !! q = Some (MkNode (thash s) (tenc s)) ∨
  (reader_Node q (thash s) = Some (tenc s) ∧ D q ∧ Nodes s1 !! q = Nodes s0 !! q).

(** Only paths below [p] change. *)
Definition changes (p : bytes) (s0 s1 : NodeSet) : Prop := ∀ q, (∀ z, q ≠ p ++ z) → Nodes s1 !! q = Nodes s0 !! q.

Definition collects (p : bytes) (t : tree) (s0 s1 : NodeSet) : Prop :=
  changes p s0 s1 ∧ ∀ q s, node_at p t q s → own q s → found s0 s1 q s.

(** What a node becomes: its hash, or itself with hashes inside of it. *)
Definition collapsed (p : bytes) (t : tree) (n : node) : Prop :=
  if decide ((32 <= length (tenc t))%nat ∨ p = []) then n = hashNode (thash t) else node_item n = titem t.

Lemma changes_refl p s : changes p s s.
Proof. done. Qed.

Lemma changes_trans p s0 s1 s2 : changes p s0 s1 → changes p s1 s2 → changes p s0 s2.
Proof. intros H1 H2 q Hq. by rewrite H2, H1. Qed.

Lemma changes_weaken p k s0 s1 : changes (p ++ k) s0 s1 → changes p s0 s1.
Proof. intros Hc q Hq. apply Hc. intros z ->. apply (Hq (k ++ z)). by rewrite app_assoc. Qed.

Lemma not_wf_collects p t s : (∀ q u, node_at p t q u → ¬ wf u) → collects p t s s.
Proof. intros Hn. split; [done|]. intros q u Hq [Hw _]. by destruct (Hn q u). Qed.

Lemma clean_collects p t s :
  holds p t → (∀ q u, node_at p t q u → own q u → D q) → collects p t s s.
Proof. intros Hh HD. split; [done|]. intros q u Hq Hu. right. eauto. Qed.

Lemma store_spec p n t s0 s1 h :
  fst (cache n) = h → match h with Some h => h = thash t ∧ ((32 <= length (tenc t))%nat ∨ p = []) | None => (length (tenc t) < 32)%nat ∧ p ≠ [] end →
  node_item n = titem t → Z.of_nat (length (tenc t)) < two64 → changes p s0 s1 →
  (∀ q s, node_at p t q s → own q s → q ≠ p → found s0 s1 q s) → (∀ s, node_at p t p s → s = t) →
  collapsed p t (fst (store p n s1)) ∧ collects p t s0 (snd (store p n s1)).
Proof.
  intros Hc Hh Hi Hl Hch Hf Hself. unfold TrieCommit.store, collapsed. rewrite Hc.
  assert (∀ nd, (∀ s, node_at p t p s → own p s → Node_of nd = MkNode (thash s) (tenc s)) → ∀ s2, Nodes s2 = <[p := Node_of nd]> (Nodes s1) →
    collects p t s0 s2) as Hadd.
  { intros nd Hnd s2 E2. split.
    - intros q Hq. rewrite E2, lookup_insert_ne, Hch by (done || intros <-; apply (Hq []); by rewrite app_nil_r). done.
    - intros q s Hq Hs. unfold found. rewrite E2. destruct (decide (q = p)) as [->|Hne].
      + left. rewrite lookup_insert_eq. by rewrite (Hnd s).
      + rewrite lookup_insert_ne by done. by apply Hf. }
  destruct h as [h|]; cbn [fst snd].
  - destruct Hh as [-> Hlarge]. rewrite decide_True by done. split; [done|].
    eapply Hadd; [|by destruct (collect_leaf_Nodes collectLeaf (BytesToHash (thash t)) n
      (AddNode p (NewNodeWithPrev (BytesToHash (thash t)) (nodeToBytes n) (prevalue tracer p)) s1)) as [-> _]].
    intros s ->%Hself _. change (MkNode (BytesToHash (thash t)) (nodeToBytes n) = MkNode (thash t) (tenc t)). rewrite BytesToHash_id by apply length_thash. rewrite nodeToBytes_enc; rewrite Hi; [done | exact Hl].
  - destruct Hh as [Hs Hp]. rewrite decide_False by (intros [|]; [lia | done]). split; [done|].
    assert (∀ s, node_at p t p s → own p s → False) as Hno by (intros s ->%Hself [_ [|]]; [lia | done]).
    case_decide.
    + eapply (Hadd (NewDeletedWithPrev (prevalue tracer p))); [|done]. intros s Hat Hown. by destruct (Hno s Hat Hown).
    + split; [done|]. intros q s Hq Hs'. apply Hf; [done..|]. intros ->. eauto.
Qed.

Definition commit_good (p : bytes) (n : node) (t : tree) : Prop :=
  wf t → sized t → ∀ s0, ∃ n' s1, commit order p n false s0 = Ok (n', s1) ∧ collapsed p t n' ∧ collects p t s0 s1.

Lemma collapsed_child p t n : wf t → p ≠ [] → collapsed p t n → node_item n = child_item t.
Proof.
  intros Hw Hp. destruct (titem_wf t Hw) as (l & _ & ->). unfold collapsed, ref_item. fold (tenc t).
  destruct (decide (length (tenc t) < 32)%nat).
  - rewrite decide_False by (intros [|]; [lia | done]). done.
  - rewrite decide_True by lia. by intros ->.
Qed.

Lemma flag_spec r p fl t B :
  cached D r p fl t B → ((32 <= length (tenc t))%nat → nf_hash fl ≠ None) → (r = true ↔ p = []) → (p = [] → nf_hash fl ≠ None) →
  match nf_hash fl with Some h => h = thash t ∧ ((32 <= length (tenc t))%nat ∨ p = []) | None => (length (tenc t) < 32)%nat ∧ p ≠ [] end.
Proof.
  intros [Hc _] Hl Hr Hp. destruct (nf_hash fl) as [h|].
  - destruct Hc as (-> & [Hr'|] & _); (split; [done|]); [right; by apply Hr | by left].
  - split; [|by intros E; apply Hp]. destruct (decide (32 <= length (tenc t))%nat) as [Hl'|]; [by destruct (Hl Hl') | lia].
Qed.

(** A node below the root that is in the database, or cached and clean. *)
Lemma hash_collapsed p t : (32 <= length (tenc t))%nat ∨ p = [] → collapsed p t (hashNode (thash t)).
Proof. intros Hl. unfold collapsed. by rewrite decide_True. Qed.

Lemma app_longer (p : bytes) k z : k ≠ [] → p ≠ (p ++ k) ++ z.
Proof. intros Hk E%(f_equal length). rewrite !length_app in E. destruct k; [done | cbn in E; lia]. Qed.

(** The loop over the children. *)
Lemma child_commit i p c t s0 :
  slot_ok i t → sized t → p ≠ [] → (i < 17)%nat → rep D false p c t → commit_good p c t →
  ∃ c' s1, (if skips i c then Ok (c, s0) else commit order p c false s0) = Ok (c', s1) ∧
    node_item c' = child_item t ∧ collects p t s0 s1.
Proof.
  intros Hs Hsz Hp Hi Hr Hg.
  assert (¬ wf t ∧ (∀ q u, node_at p t q u → ¬ wf u) ∧ node_item c = child_item t ∧ skips i c = true ∨ wf t ∧ (i < 16)%nat) as [(_ & Hn & E & ->)|[Hw H16]].
  { destruct Hs as [->|Hs]; [|revert Hs; case_decide; intros Hs].
    - left. inversion Hr; subst; [|done]. split; [intros []|]. split; [intros q u Hq; inversion Hq; subst; intros []|].
      split; [done|]. unfold skips. by rewrite orb_true_r.
    - left. destruct t as [|v| |]; try done. inversion Hr; subst; [|done]. split; [intros []|].
      split; [intros q u Hq; inversion Hq; subst; intros []|]. done.
    - right. split; [done | lia]. }
  - eexists _, _. split; [done|]. split; [done | by apply not_wf_collects].
  - destruct (skips i c) eqn:Es.
    + eexists _, _. split; [done|]. unfold skips in Es. rewrite bool_decide_false in Es by lia. destruct c; try done.
      * inversion Hr; subst. destruct Hw.
      * inversion Hr as [| | | |? ? ? ? ? Hst Hrep Hset Hh HD Hb -> Hl]; subst. split; [|by apply clean_collects].
        apply (collapsed_child p); [done | done | apply hash_collapsed; by left].
    + destruct (Hg Hw Hsz s0) as (n' & s1 & E & Hc & Hcol). exists n', s1. split; [exact E|].
      split; [by apply (collapsed_child p) | done].
Qed.

Lemma z2b_inj_small i j : (i < 17)%nat → (j < 17)%nat → z2b (Z.of_nat i) = z2b (Z.of_nat j) → i = j.
Proof. intros Hi Hj E%(f_equal b2z). rewrite !b2z_z2b, !Z.mod_small in E by lia. lia. Qed.

Lemma found_before s0 s1 s2 q s : Nodes s1 !! q = Nodes s0 !! q → found s1 s2 q s → found s0 s2 q s.
Proof. intros E [Hl|(? & ? & Hl)]; [by left | right]. by rewrite Hl. Qed.

Lemma found_after s0 s1 s2 q s : Nodes s2 !! q = Nodes s1 !! q → found s0 s1 q s → found s0 s2 q s.
Proof. intros E [Hl|(? & ? & Hl)]; [left | right]; by rewrite E. Qed.

Lemma commit_seq_ok p ch : ∀ i ts s0,
  length ch = length ts → (i + length ts <= 17)%nat →
  (∀ j c t, ch !! j = Some c → ts !! j = Some t →
     slot_ok (i + j) t ∧ sized t ∧ rep D false (p ++ [z2b (Z.of_nat (i + j))]) c t ∧ commit_good (p ++ [z2b (Z.of_nat (i + j))]) c t) →
  ∃ ch' s1, commit_seq tracer collectLeaf order p i ch s0 = Ok (ch', s1) ∧ node_item <$> ch' = child_item <$> ts ∧
    (∀ q, (∀ j z, (i <= j < 17)%nat → q ≠ (p ++ [z2b (Z.of_nat j)]) ++ z) → Nodes s1 !! q = Nodes s0 !! q) ∧
    ∀ j t, ts !! j = Some t → ∀ q s, node_at (p ++ [z2b (Z.of_nat (i + j))]) t q s → own q s → found s0 s1 q s.
Proof.
  induction ch as [|c ch IH]; intros i [|t ts] s0 Hlen H17 Hch; try done.
  { eexists _, _. split; [done|]. split; [done|]. split; [done|]. intros j t. by rewrite lookup_nil. }
  cbn [length] in H17. destruct (Hch 0%nat c t eq_refl eq_refl) as (Hslot & Hsz & Hr & Hg). rewrite Nat.add_0_r in *.
  destruct (child_commit i (p ++ [z2b (Z.of_nat i)]) c t s0 Hslot Hsz ltac:(by destruct p) ltac:(lia) Hr Hg) as (c' & s1 & E1 & Hi1 & Hc1 & Hf1).
  destruct (IH (S i) ts s1) as (ch' & s2 & E2 & Hi2 & Hc2 & Hf2).
  { by injection Hlen. }
  { lia. }
  { intros j c'' u Hc'' Hu. replace (S i + j)%nat with (i + S j)%nat by lia. by apply Hch. }
  exists (c' :: ch'), s2. cbn [commit_seq]. rewrite E1. cbn [mbind res_bind]. rewrite E2. split; [done|].
  split; [by rewrite !fmap_cons, Hi1, Hi2|]. split.
  - intros q Hq. rewrite Hc2, Hc1; [done|..]; intros; apply Hq; lia.
  - intros [|j] u Hu q s Hat Hown.
    + injection Hu as <-. rewrite Nat.add_0_r in Hat. apply (found_after _ s1); [|by apply Hf1].
      apply Hc2. intros j z Hj. destruct (node_at_prefix _ _ _ _ Hat) as [r ->]. rewrite <-!app_assoc. intros E%app_inv_head.
      injection E as E%z2b_inj_small; lia.
    + replace (i + S j)%nat with (S i + j)%nat in Hat by lia. apply (found_before _ s1); [|by apply (Hf2 j u Hu)].
      apply Hc1. intros z. destruct (node_at_prefix _ _ _ _ Hat) as [r ->]. rewrite <-!app_assoc. intros E%app_inv_head.
      apply lookup_lt_Some in Hu. cbn [length] in Hu. injection E as E%z2b_inj_small; lia.
Qed.

(** A node is at its own path only. *)
Lemma node_at_self p t s : wf t → node_at p t p s → s = t.
Proof.
  intros Hw Hat. inversion Hat as [|? k u ? ? Hat'|? ch i u ? ? Hi Hat']; subst; [done|..]; exfalso;
    destruct (node_at_prefix _ _ _ _ Hat') as [r E]; revert E; apply app_longer; [by eapply wf_TShort_key | done].
Qed.

Lemma commit_ok r p n t :
  rep D r p n t → settled n t → (r = true ↔ p = []) → (p = [] → is_hashNode n = false → fst (cache n) ≠ None) → commit_good p n t.
Proof.
  induction 1 as [r p|r p v|r p k n t fl Hrep IH Hc|r p ch ts fl Hlen Hch IH Hc|r p h n t Hst Hrep IH Hset Hh HD Hb -> Hl];
    intros Hset' Hrp Hroot Hw Hsz s0; [destruct Hw | destruct Hw | | | ].
  - inversion Hset' as [| | |? ? ? ? Hsn Hlarge|]; subst.
    pose proof (flag_spec _ _ _ _ _ Hc Hlarge Hrp (λ E, Hroot E eq_refl)) as Hfl.
    assert (∃ v s1, match n with fullNode _ _ => commit order (p ++ k) n false s0 | _ => Ok (n, s0) end = Ok (v, s1) ∧
      node_item v = child_item t ∧ collects (p ++ k) t s0 s1) as (v & s1 & Ev & Hi & Hch & Hf).
    { pose proof (wf_TShort_key _ _ Hw) as Hk. assert (p ++ k ≠ []) as Hpk by by destruct p.
      destruct Hw as [[_ Hv]|(_ & _ & Hfull & Hwt)].
      - destruct t; try done. inversion Hrep; subst; [|done]. eexists _, _. split; [done|]. split; [done|].
        apply not_wf_collects. intros q u Hq. inversion Hq; subst. intros [].
      - destruct t as [| | |ts]; try done. inversion Hrep; subst.
        + destruct IH with (s0 := s0) as (n' & s1 & E & Hcol & Hcs); [done | by split | done | done | by apply (sized_short k)|].
          exists n', s1. split; [exact E|]. split; [by apply (collapsed_child (p ++ k)) | done].
        + eexists _, _. split; [done|]. split; [|by apply clean_collects].
          apply (collapsed_child (p ++ k)); [done | done | apply hash_collapsed; by left]. }
    assert (∃ n' s2, ('(v, set) ← (match n with fullNode _ _ => commit order (p ++ k) n false s0 | _ => Ok (n, s0) end);
        match hexToCompact k with Ok ck => Ok (store p (shortNode ck v fl) set) | _ => Panic end) = Ok (n', s2) ∧
        collapsed p (TShort k t) n' ∧ collects p (TShort k t) s0 s2) as (n' & s2 & E & Hn').
    { rewrite Ev. destruct (wf_hex _ _ Hw) as [b Hb]. cbn [mbind res_bind]. rewrite (hexToCompact_compact b k Hb).
      eexists _, _. split; [by rewrite <-surjective_pairing|].
      apply (store_spec _ _ _ s0 s1 (nf_hash fl)); [done | exact Hfl | | apply Hsz; constructor | by eapply changes_weaken | | by intros ? ?%node_at_self].
      - rewrite titem_TShort, <-Hi. done.
      - intros q s Hq Hs Hne. inversion Hq; subst; [done|]. by apply Hf. }
    cbn [TrieCommit.commit]. destruct (nf_hash fl) as [h|] eqn:Eh; [|by eexists _, _].
    destruct (nf_dirty fl) eqn:Ed; [by eexists _, _|]. eexists _, _. split; [done|]. destruct Hfl as [-> Hfl].
    split; [by apply hash_collapsed|]. destruct Hc as [_ Hc]. by apply clean_collects; apply Hc.
  - inversion Hset' as [| | | |? ? ? Hsn Hlarge]; subst. pose proof (flag_spec _ _ _ _ _ Hc Hlarge Hrp (λ E, Hroot E eq_refl)) as Hfl.
    pose proof Hw as (H17 & _ & Hs)%wf_TFull.
    destruct (commit_seq_ok p ch 0 ts s0) as (ch' & s1 & Ech & Hi & Hch1 & Hf1); [done | lia | |].
    { intros j c u Hj Hu. split; [by apply Hs|]. split; [by apply (sized_full ts j)|]. split; [by apply Hch|].
      apply (IH j c u Hj Hu); [by apply (Hsn j) | by destruct p | by destruct p]. }
    assert (∃ n' s2, ('(ch, set) ← commit_seq tracer collectLeaf order p 0 ch s0; Ok (store p (fullNode ch fl) set)) = Ok (n', s2) ∧
        collapsed p (TFull ts) n' ∧ collects p (TFull ts) s0 s2) as (n' & s2 & E & Hn').
    { rewrite Ech. eexists _, _. split; [cbn; by rewrite <-surjective_pairing|].
      apply (store_spec _ _ _ s0 s1 (nf_hash fl)); [done | exact Hfl | | apply Hsz; constructor | | | by intros ? ?%node_at_self].
      - rewrite titem_TFull, <-Hi. done.
      - intros q Hq. apply Hch1. intros j z _. rewrite <-app_assoc. apply Hq.
      - intros q s Hq Hs' Hne. inversion Hq as [|? k u ? ? Hat'|? ? i u ? ? Hu Hat']; subst; [done|]. by apply (Hf1 i u Hu). }
    rewrite commit_full. destruct (nf_hash fl) as [h|] eqn:Eh; [|by eexists _, _].
    destruct (nf_dirty fl) eqn:Ed; [by eexists _, _|]. eexists _, _. split; [done|]. destruct Hfl as [-> Hfl].
    split; [by apply hash_collapsed|]. destruct Hc as [_ Hc]. by apply clean_collects; apply Hc.
  - eexists _, _. split; [done|]. split; [apply hash_collapsed; by left | by apply clean_collects].
Qed.
End commit_spec.

(** ** [Commit] *)

(** A database after a commit: the paths in the set have the nodes of the set, the others
    what they had. Nothing is asked for deleted paths. *)
Definition written_to (set : option NodeSet) (db db' : NodeDatabase) : Prop :=
  ∀ path,
    match set ≫= λ s, Nodes s !! path with
    | Some nd => IsDeleted nd = false → @reader_Node db' path (Node_Hash nd) = Some (Blob nd)
    | None => ∀ h blob, @reader_Node db path h = Some blob → @reader_Node db' path h = Some blob
    end.

Lemma add_deleted_Nodes tracer paths q : ∀ set,
  q ∉ paths → Nodes (add_deleted tracer paths set) !! q = Nodes set !! q.
Proof.
  induction paths as [|p paths IH]; intros set Hq; [done|]. apply not_elem_of_cons in Hq as [Hne Hq].
  unfold add_deleted in *. cbn [foldl]. rewrite IH by done. cbn. by rewrite lookup_insert_ne.
Qed.

Section commit.
Context `{db : NodeDatabase}.

Lemma Commit_eq owner order cl tr :
  is_nilNode (root tr) = false →
  Commit owner order cl tr =
    ('(rootHash, t) ← Trie_Hash tr;
     let '(hashedNode, dirty) := cache (root t) in
     if negb dirty then Ok (rootHash, None, set_committed (set_root (hash_or_nil hashedNode) t))
     else
       let set := add_deleted (prevalues t) (deletedNodes t) (NewNodeSet owner) in
       '(h, set) ← committer_Commit (prevalues t) cl order (root t) (bool_decide (100 < uncommitted t)) set;
       Ok (rootHash, Some set, set_committed (clear_uncommitted (set_root (hashNode h) t)))).
Proof. intros Hn. unfold Commit. by destruct (root tr). Qed.

Lemma node_written set db1 db' q t :
  (@reader_Node db1 q (thash t) = Some (tenc t) ∧ set ≫= (λ s, Nodes s !! q) = None ∨
   set ≫= (λ s, Nodes s !! q) = Some (MkNode (thash t) (tenc t))) →
  written_to set db1 db' → @reader_Node db' q (thash t) = Some (tenc t).
Proof.
  intros [[Hdb E]|E] Hw; specialize (Hw q); rewrite E in Hw; [by apply Hw|]. apply Hw. apply bool_decide_eq_false.
  cbn. pose proof (enc_nonempty (titem t)). unfold tenc. lia.
Qed.

Lemma live_deleted tr path : live tr path → path ∉ deletedNodes tr.
Proof. unfold deletedNodes. rewrite elem_of_elements, elem_of_filter. intros Hl [_ Hin]. by apply Hl. Qed.

Lemma Commit_rep owner order cl tr m :
  trie_rep tr m → small m → order ≡ₚ seq 0 16 →
  ∃ set tr', Commit owner order cl tr = Ok (root_of m, set, tr') ∧ committed tr' = true ∧
    ∀ db', written_to set db db' → @db_holds db' m.
Proof.
  intros (Hc & t & Hr & Hok & Hm) Hsm Hord. unfold db_holds, root_of. rewrite <-(maps_tree_of t m) by done.
  destruct Hok as [->|Hw].
  { unfold Commit. pose proof (rep_nilNode _ _ _ _ _ Hr) as Hn. destruct (root tr); try done.
    assert (∀ db', @holds db' [] TNil) as Hh by (intros db' q s Hq [Hs _]; inversion Hq; subst; destruct Hs).
    destruct (deletedNodes tr); eexists _, _; (split; [reflexivity|]); (split; [done|]); intros db' _; apply Hh. }
  assert (sized t) as Hsz by (apply root_sized; [by right | by eapply small_bounded]).
  rewrite Commit_eq by (rewrite (rep_nilNode _ _ _ _ _ Hr); by destruct t).
  destruct (Trie_Hash_settled tr t Hr Hw Hsz) as (n & -> & Hn & Hset & Hcache). cbn [mbind res_bind root].
  destruct (cache n) as [ho d] eqn:Ec. destruct d; cbn [negb]; cycle 1.
  { eexists _, _. split; [reflexivity|]. split; [done|]. intros db' Hdb q s Hq Hs.
    assert (@holds db [] t) as Hh by (inversion Hn as [| |? ? ? ? ? ? ? Hfl|? ? ? ? ? ? ? Hfl|]; subst; try done; injection Ec as _ Ed; exact (proj1 (proj2 Hfl Ed))).
    apply (node_written None db db' q s); [left; by split; [apply Hh|] | done]. }
  set (set0 := add_deleted _ _ _). unfold committer_Commit.
  destruct (commit_ok (live tr) (prevalues tr) cl order true [] n t Hn Hset) with (s0 := set0) as (n1 & s1 & E1 & Hcol & _ & Hf); [done | by rewrite Ec | done | done|].
  assert (∃ s2, commit (prevalues tr) cl order [] n (bool_decide (100 < uncommitted tr)) set0 = Ok (n1, s2) ∧ Nodes s2 = Nodes s1) as (s2 & E2 & HN).
  { case_bool_decide; [|by eexists]. pose proof (commit_parallel_same (prevalues tr) cl order [] n set0 Hord) as Hp. rewrite E1 in Hp.
    destruct (commit _ _ _ _ n true set0) as [[n2 s2]|e|]; try done. destruct Hp as (-> & _ & _ & HN & _). by eexists. }
  unfold collapsed in Hcol. rewrite decide_True in Hcol by by right.
  cbn [prevalues uncommitted]. rewrite E2. cbn [mbind res_bind]. rewrite Hcol. eexists _, _. split; [reflexivity|]. split; [done|].
  intros db' Hdb q s Hq Hs. apply (node_written (Some s2) db db' q s); [|exact Hdb]. cbn. rewrite HN. destruct (Hf q s Hq Hs) as [E|(Hdbq & Hlive & E)]; [by right|]. left. split; [done|].
  rewrite E. unfold set0. rewrite add_deleted_Nodes by by apply live_deleted. apply lookup_empty.
Qed.
End commit.

(** ** A chain of commits *)

(** A store for the nodes of a trie: what readers see, and writing the set of a commit. *)
Class NodeStore (S : Type) : Type := {
  store_reader : S → NodeDatabase;
  store_write : S → option NodeSet → S;
  store_written s set : written_to set (store_reader s) (store_reader (store_write s set))
}.

(** A store by path: one node for every path. *)
Definition path_write (db : NodeDatabase) (set : option NodeSet) : NodeDatabase := λ path h,
  match set ≫= λ s, Nodes s !! path with
  | Some nd => if IsDeleted nd then None else if decide (h = Node_Hash nd) then Some (Blob nd) else None
  | None => @reader_Node db path h
  end.

#[export] Instance path_store : NodeStore NodeDatabase.
Proof.
  refine {| store_reader := id; store_write := path_write |}. intros db set path.
  assert (∀ h, @reader_Node (path_write db set) path h = path_write db set path h) as E by done. unfold path_write in E at 2.
  destruct (set ≫= _) as [nd|].
  - intros Hd. by rewrite E, Hd, decide_True.
  - intros h blob Hb. by rewrite E.
Defined.

(** A block: [New] at the last root, some calls, [Commit], and the set is written. [order]
    is the order in which the goroutines of the commit finish. *)
Record block : Type := MkBlock { calls : list call; finish_order : list nat; leaves_too : bool }.

Section chain.
Context {S : Type} `{NodeStore S} (owner : Hash).

Definition run_block (s : S) (rootHash : Hash) (b : block) : res trie_error (list answer * Hash * S) :=
  tr ← @Trie_New (store_reader s) rootHash;
  let '(answers, tr) := @run (store_reader s) tr (calls b) in
  '(rootHash, set, _) ← Commit owner (finish_order b) (leaves_too b) tr;
  Ok (answers, rootHash, store_write s set).

Fixpoint run_chain (s : S) (rootHash : Hash) (bs : list block) : res trie_error (list answer * Hash * S) :=
  match bs with
  | [] => Ok ([], rootHash, s)
  | b :: bs =>
      '(l1, rootHash, s) ← run_block s rootHash b;
      '(l2, rootHash, s) ← run_chain s rootHash bs;
      Ok (l1 ++ l2, rootHash, s)
  end.

Definition block_ok (b : block) : Prop := Forall call_small (calls b) ∧ finish_order b ≡ₚ seq 0 16.

(** The root is not one of the two hashes that [New] takes for the empty trie. *)
Definition root_opens (m : gmap bytes bytes) : Prop := m ≠ ∅ → root_of m ≠ Hash0 ∧ root_of m ≠ EmptyRootHash.

(** The maps after each block. *)
Fixpoint block_maps (m : gmap bytes bytes) (bs : list block) : list (gmap bytes bytes) :=
  match bs with [] => [] | b :: bs => let m := snd (run_map m (calls b)) in m :: block_maps m bs end.

Definition chain_holds (s : S) (rootHash : Hash) (m : gmap bytes bytes) : Prop :=
  values_ok m ∧ small m ∧ @db_holds (store_reader s) m ∧ rootHash = root_of m.

Lemma run_map_app m cs1 cs2 :
  run_map m (cs1 ++ cs2) =
    (fst (run_map m cs1) ++ fst (run_map (snd (run_map m cs1)) cs2), snd (run_map (snd (run_map m cs1)) cs2)).
Proof.
  revert m. induction cs1 as [|c cs1 IH]; intros m; cbn [app run_map fst snd]; [by destruct (run_map m cs2)|].
  destruct (map_call m c) as [a m']. rewrite IH. by destruct (run_map m' cs1).
Qed.

Lemma run_map_small cs : ∀ m, small m → Forall call_small cs → small (snd (run_map m cs)).
Proof.
  induction cs as [|c cs IH]; intros m Hm Hcs; [done|]. apply Forall_cons_1 in Hcs as [Hc Hcs]. cbn [run_map].
  pose proof (map_call_small m c Hm Hc). destruct (map_call m c) as [a m']. cbn [snd] in *. specialize (IH m' ltac:(done) Hcs).
  by destruct (run_map m' cs).
Qed.

Lemma trie_rep_values `{NodeDatabase} tr m : trie_rep tr m → values_ok m.
Proof. intros (_ & t & _ & Ht & Hm). by eapply maps_values. Qed.

Lemma run_block_ok s rootHash m b :
  chain_holds s rootHash m → root_opens m → block_ok b →
  ∃ s', run_block s rootHash b = Ok (fst (run_map m (calls b)), root_of (snd (run_map m (calls b))), s') ∧
    chain_holds s' (root_of (snd (run_map m (calls b)))) (snd (run_map m (calls b))).
Proof.
  intros (Hv & Hs & Hdb & ->) Hne [Hcs Hord]. destruct (@New_rep (store_reader s) m Hv Hs Hdb Hne) as (tr & E & Hr).
  unfold run_block. rewrite E. cbn [mbind res_bind].
  destruct (run_rep (calls b) tr m Hr Hs Hcs) as [Ea Hr']. destruct (run tr (calls b)) as [answers tr']. cbn [fst snd] in Ea, Hr'.
  pose proof (run_map_small (calls b) m Hs Hcs) as Hs'.
  destruct (Commit_rep owner (finish_order b) (leaves_too b) tr' _ Hr' Hs' Hord) as (set & tr2 & E2 & _ & Hdb').
  rewrite E2. cbn [mbind res_bind]. rewrite Ea. eexists. split; [reflexivity|].
  split; [by eapply trie_rep_values|]. split; [done|]. split; [|done]. apply Hdb', store_written.
Qed.

Lemma run_chain_ok bs : ∀ s rootHash m,
  chain_holds s rootHash m → root_opens m → Forall root_opens (block_maps m bs) → Forall block_ok bs →
  let r := run_map m (mjoin (calls <$> bs)) in
  ∃ s', run_chain s rootHash bs = Ok (fst r, root_of (snd r), s') ∧ @db_holds (store_reader s') (snd r).
Proof.
  induction bs as [|b bs IH]; intros s rootHash m Hs Hne Hnes Hbs; cbn zeta.
  { exists s. destruct Hs as (_ & _ & Hdb & ->). done. }
  apply Forall_cons_1 in Hnes as [Hne' Hnes], Hbs as [Hb Hbs]. 
  change (mjoin (calls <$> b :: bs)) with (calls b ++ mjoin (calls <$> bs)). rewrite run_map_app. cbn [fst snd run_chain].
  destruct (run_block_ok s rootHash m b Hs Hne Hb) as (s1 & -> & Hs1). cbn [mbind res_bind].
  destruct (IH s1 _ _ Hs1 Hne' Hnes Hbs) as (s2 & -> & Hdb). cbn [mbind res_bind]. by exists s2.
Qed.
End chain.

(** ** Properties *)

(** C5: Tries survive commits: in a chain of blocks, each of which opens the trie at the
    last root, reads, writes, deletes and hashes, commits, and has the node set written to
    the store, every answer and every root is that of the same calls on one finite map that
    lives through all blocks, and no step fails. This holds for any store that keeps what
    it is given, whatever it holds at first, and for any order in which the goroutines of a
    parallel commit finish. *)
Theorem Trie_chain {S : Type} `{NodeStore S} (owner : Hash) (s : S) bs :
  Forall root_opens (block_maps ∅ bs) → Forall block_ok bs →
  ∃ s', run_chain owner s EmptyRootHash bs =
    Ok (fst (run_map ∅ (mjoin (calls <$> bs))), root_of (snd (run_map ∅ (mjoin (calls <$> bs)))), s').
Proof.
  intros Hnes Hbs. destruct (run_chain_ok owner bs s EmptyRootHash ∅) as (s' & E & _); [|by intros []|done..|by exists s'].
  split; [apply map_Forall_empty|]. split; [apply small_empty|]. split; [|done]. intros q u Hq [Hw _]. inversion Hq; subst. destruct Hw.
Qed.

(** C13: The committer with one goroutine for every child of the root does what the
    sequential one does: whatever the order in which the goroutines merge their sets, the
    nodes, their original values, the counts of updates and deletions and the returned node
    are the same, and the leaves are the same up to their order; it panics in the same
    cases. *)
Theorem commit_parallel tracer collectLeaf order path n set :
  order ≡ₚ seq 0 16 →
  same_outcome (commit tracer collectLeaf order path n true set) (commit tracer collectLeaf order path n false set).
Proof. apply commit_parallel_same. Qed.

Definition ex_blocks : list block :=
  [MkBlock ex_puts_m (seq 0 16) true; MkBlock ex_calls (reverse (seq 0 16)) false].

Lemma ex_order : reverse (seq 0 16) ≡ₚ seq 0 16.
Proof. apply reverse_Permutation. Qed.

Lemma ex_block_maps : block_maps ∅ ex_blocks = [ex_m; ex_m].
Proof. refine (bool_decide_eq_true_1 _ _). vm_compute. reflexivity. Qed.

Lemma Trie_chain_witness :
  ∃ s', run_chain (S := NodeDatabase) Hash0 (λ _ _, None) EmptyRootHash ex_blocks =
    Ok (fst (run_map ∅ (ex_puts_m ++ ex_calls ++ [])), root_of ex_m, s').
Proof.
  assert (snd (run_map ∅ (ex_puts_m ++ ex_calls ++ [])) = ex_m) as E by (refine (bool_decide_eq_true_1 _ _); vm_compute; reflexivity).
  rewrite <-E. refine (Trie_chain Hash0 _ ex_blocks _ _).
  - rewrite ex_block_maps. constructor; [exact (λ _, ex_root)|]. constructor; [exact (λ _, ex_root) | constructor].
  - constructor; [|constructor; [|constructor]].
    + split; [exact ex_puts_small | done].
    + split; [exact ex_calls_small | exact ex_order].
Defined.

Lemma commit_parallel_witness :
  same_outcome (commit ∅ true (reverse (seq 0 16)) [] (root ex_built) true (NewNodeSet Hash0))
    (commit ∅ true (reverse (seq 0 16)) [] (root ex_built) false (NewNodeSet Hash0)).
Proof. apply commit_parallel. exact ex_order. Defined.
