(* ===== verification/StackTrie.v ===== *)
(** * The stack trie

    [trie/stacktrie.go] and [DeriveSha] of [core/types/hashing.go]: a trie that is filled in
    ascending key order and keeps only the nodes on the path of the last key; what lies to
    the left of it is already hashed. The struct [stNode] with its type tag is an inductive
    type with the fields each tag uses; pools and reused buffers are fresh values, since a
    node owns its key and value slices. What [OnTrieNode] is called with is a list, in the
    order of the calls. *)
From Stdlib Require Import ZArith Lia.
From Stdlib Require Strings.Byte.
From stdpp Require Import base tactics decidable list numbers gmap.
From S2P Require Import Prelude Keccak Common Rlp HexKeys RadixTree Trie.

Inductive stNode : Type :=
| emptyNode
| branchNode (children : list (option stNode))
| extNode (key : bytes) (child : stNode)
| leafNode (key val : bytes)
| hashedNode (val : bytes).

(** A call of [OnTrieNode]: path, hash and blob. *)
Definition written : Type := bytes * Hash * bytes.

Record StackTrie : Type := MkStackTrie {
  st_root : stNode;
  st_last : bytes;          (** empty for nil: [bytes.Compare] does not tell them apart *)
  st_onTrieNode : bool;     (** whether there is a callback *)
  st_written : list written (** what it was called with *)
}.

Inductive stack_error : Type := ErrEmptyValue | ErrNonAscending.

Definition NewStackTrie (onTrieNode : bool) : StackTrie := MkStackTrie emptyNode [] onTrieNode [].

Definition stack_Reset (t : StackTrie) : StackTrie := MkStackTrie emptyNode [] (st_onTrieNode t) (st_written t).

Definition TrieKey (key : bytes) : bytes :=
  let k := keybytesToHex key in take (length k - 1) k.

(** The end of [hash]: the reference to a node, and the call for one that is not embedded. *)
Definition store_blob (path blob : bytes) : bytes * list written :=
  if decide (length blob < 32 ∧ 0 < length path)%nat then (blob, [])
  else let h := hashData blob in (h, [(path, BytesToHash h, blob)]).

(** [hash]: the [val] of the node, which becomes a [hashedNode] of it. *)
Fixpoint sthash (st : stNode) (path : bytes) : res () (bytes * list written) :=
  match st with
  | hashedNode val => Ok (val, [])
  | emptyNode => Ok (EmptyRootHash, [])
  | branchNode children =>
      '(vals, ev) ← (fix go (i : nat) (l : list (option stNode)) : res () (list bytes * list written) :=
        match l with
        | [] => Ok ([], [])
        | c :: l =>
            '(v, ev1) ← match c with
                        | None => Ok ([], [])
                        | Some c => sthash c (path ++ [z2b (Z.of_nat i)])
                        end;
            '(vs, ev2) ← go (S i) l;
            Ok (v :: vs, ev1 ++ ev2)
        end) 0%nat children;
      let '(val, ev') := store_blob path (fullnodeEncoder_encode (vals ++ [[]])) in
      Ok (val, ev ++ ev')
  | extNode key child =>
      '(v, ev) ← sthash child (path ++ key);
      ck ← hexToCompactInPlace key;
      let '(val, ev') := store_blob path (extNodeEncoder_encode ck v) in
      Ok (val, ev ++ ev')
  | leafNode key val =>
      ck ← hexToCompactInPlace (key ++ [Byte.x10]);
      let '(val, ev') := store_blob path (leafNodeEncoder_encode ck val) in
      Ok (val, ev')
  end.

Definition sthashed (st : stNode) (path : bytes) : res () (stNode * list written) :=
  '(val, ev) ← sthash st path; Ok (hashedNode val, ev).

(** [getDiffIndex]: indexing past the end of [key] panics. *)
Fixpoint getDiffIndex (stkey key : bytes) : res () nat :=
  match stkey, key with
  | [], _ => Ok 0%nat
  | _ :: _, [] => Panic
  | a :: stkey, b :: key => if decide (a = b) then n ← getDiffIndex stkey key; Ok (S n) else Ok 0%nat
  end.

(** The loop over the elder siblings, from [i] - 1 down. *)
Fixpoint unresolve (i : nat) (children : list (option stNode)) (path : bytes) :
    res () (list (option stNode) * list written) :=
  match i with
  | O => Ok (children, [])
  | S i =>
      match children !! i with
      | Some (Some (hashedNode _)) => Ok (children, [])
      | Some (Some c) =>
          '(c, ev) ← sthashed c (path ++ [z2b (Z.of_nat i)]);
          Ok (<[i := Some c]> children, ev)
      | _ => unresolve i children path
      end
  end.

Definition no_children : list (option stNode) := replicate 16 None.

(** A branch with two children, and an extension above it if the keys have a common part. *)
Definition split_node (prefix : bytes) (origIdx newIdx : byte) (n o : stNode) : res () stNode :=
  if decide (nib origIdx < 16 ∧ nib newIdx < 16)%nat then
    let p := branchNode (<[nib newIdx := Some o]> (<[nib origIdx := Some n]> no_children)) in
    Ok (match prefix with [] => p | _ => extNode prefix p end)
  else Panic.

(** [insert]: every recursive call is for a shorter key, as extensions have a key. *)
Fixpoint stinsert (fuel : nat) (st : stNode) (key value path : bytes) : res () (stNode * list written) :=
  match fuel with
  | O => Panic
  | S fuel =>
      match st with
      | branchNode children =>
          match key with
          | [] => Panic
          | x :: rest =>
              '(children, ev) ← unresolve (nib x) children path;
              match children !! nib x with
              | None => Panic
              | Some None => Ok (branchNode (<[nib x := Some (leafNode rest value)]> children), ev)
              | Some (Some c) =>
                  '(c, ev') ← stinsert fuel c rest value (path ++ [x]);
                  Ok (branchNode (<[nib x := Some c]> children), ev ++ ev')
              end
          end
      | extNode k child =>
          diffidx ← getDiffIndex k key;
          if decide (diffidx = length k) then
            '(c, ev) ← stinsert fuel child (drop diffidx key) value (path ++ take diffidx key);
            Ok (extNode k c, ev)
          else
            '(n, ev) ← (if decide (diffidx < length k - 1)%nat
                        then sthashed (extNode (drop (S diffidx) k) child) (path ++ take (S diffidx) k)
                        else sthashed child (path ++ k));
            match k !! diffidx, key !! diffidx with
            | Some origIdx, Some newIdx =>
                st ← split_node (take diffidx k) origIdx newIdx n (leafNode (drop (S diffidx) key) value);
                Ok (st, ev)
            | _, _ => Panic
            end
      | leafNode k v =>
          diffidx ← getDiffIndex k key;
          if decide (length k <= diffidx)%nat then Panic
          else
            match k !! diffidx, key !! diffidx with
            | Some origIdx, Some newIdx =>
                '(n, ev) ← sthashed (leafNode (drop (S diffidx) k) v) (path ++ take (S diffidx) k);
                st ← split_node (take diffidx k) origIdx newIdx n (leafNode (drop (S diffidx) key) value);
                Ok (st, ev)
            | _, _ => Panic
            end
      | emptyNode => Ok (leafNode key value, [])
      | hashedNode _ => Panic
      end
  end.

Definition call_back (t : StackTrie) (ev : list written) : list written :=
  if st_onTrieNode t then st_written t ++ ev else st_written t.

(** [Update]; the bounds hint of [writeHexKey] panics on the empty key. *)
Definition stack_Update (t : StackTrie) (key value : bytes) : res stack_error StackTrie :=
  if decide (length value = 0%nat) then Err ErrEmptyValue
  else if decide (length key = 0%nat) then Panic
  else
    let k := writeHexKey key in
    match bytes_Compare (st_last t) k with
    | Lt =>
        match stinsert (S (length k)) (st_root t) k value [] with
        | Ok (root, ev) => Ok (MkStackTrie root k (st_onTrieNode t) (call_back t ev))
        | _ => Panic
        end
    | _ => Err ErrNonAscending
    end.

Definition stack_Hash (t : StackTrie) : res () (Hash * StackTrie) :=
  '(val, ev) ← sthash (st_root t) [];
  Ok (BytesToHash val, MkStackTrie (hashedNode val) (st_last t) (st_onTrieNode t) (call_back t ev)).

(** ** DeriveSha

    [values] are what [EncodeIndex] writes for the indices of the list. An error of
    [Update] is dropped: the hasher is used on as it is. *)
Section derive.
Context (values : list bytes).

Definition derive_update (hasher : res () StackTrie) (i : nat) : res () StackTrie :=
  t ← hasher;
  match values !! i with
  | None => Panic
  | Some value =>
      match stack_Update t (AppendUint64 [] (Z.of_nat i)) value with
      | Ok t => Ok t
      | Err _ => Ok t
      | Panic => Panic
      end
  end.

(** The indices in the order of the three loops. *)
Definition derive_order : list nat :=
  let len := length values in
  seq 1 (Nat.min len 0x80 - 1) ++ (if decide (0 < len)%nat then [0%nat] else []) ++ seq 0x80 (len - 0x80).

Definition DeriveSha (hasher : StackTrie) : res () Hash :=
  t ← foldl derive_update (Ok (stack_Reset hasher)) derive_order;
  '(h, _) ← stack_Hash t;
  Ok h.
End derive.

(** Three values. *)
Example ex_DeriveSha_empty : DeriveSha [] (NewStackTrie false) = Ok EmptyRootHash.
Proof. vm_compute. reflexivity. Qed.
