(* ===== verification/StackFacts.v ===== *)
(** * The stack trie computes the root of the trie

    [strep]: a partly hashed stack trie represents a tree, open along the path of the last
    key. Inserting a later key is insertion into the tree, hashing gives the tree's hash,
    and the callback has seen every node that is not embedded. *)
From Stdlib Require Import ZArith Lia.
From Stdlib Require Strings.Byte.
From stdpp Require Import base tactics decidable list numbers gmap.
From S2P Require Import Prelude Keccak Common Rlp HexKeys RadixTree Trie TrieFacts TrieMap TrieStore StackTrie.

(** [l] sorts before [k] and is not a prefix of it. *)
Definition before (l k : bytes) : Prop :=
  ∃ p x y rl rk, l = p ++ x :: rl ∧ k = p ++ y :: rk ∧ b2z x < b2z y.

(** Every node of [t] at path [p] that is stored on its own was written. *)
Definition recorded (E : list written) (p : bytes) (t : tree) : Prop :=
  ∀ q s, node_at p t q s → wf s → (32 <= length (tenc s))%nat ∨ q = [] → (q, thash s, tenc s) ∈ E.

(** A child to the left of the open one. *)
Definition closed (E : list written) (p : bytes) (c : option stNode) (t : tree) : Prop :=
  match c with
  | None => t = TNil
  | Some (hashedNode v) => wf t ∧ v = tref false t ∧ recorded E p t
  | Some _ => False
  end.

Inductive strep (E : list written) : bytes → stNode → tree → bytes → Prop :=
| strep_leaf p k v : strep E p (leafNode k v) (TShort (k ++ [Byte.x10]) (TValue v)) k
| strep_ext p k c t l : is_full t → strep E (p ++ k) c t l → strep E p (extNode k c) (TShort k t) (k ++ l)
| strep_branch p ch ts x c t l :
    length ch = 16%nat → ts !! 16%nat = Some TNil → is_nibble x →
    ch !! nib x = Some (Some c) → ts !! nib x = Some t → strep E (p ++ [x]) c t l →
    (∀ i c t, (i < nib x)%nat → ch !! i = Some c → ts !! i = Some t → closed E (p ++ [z2b (Z.of_nat i)]) c t) →
    (∀ i c t, (nib x < i)%nat → ch !! i = Some c → ts !! i = Some t → c = None ∧ t = TNil) →
    strep E p (branchNode ch) (TFull ts) (x :: l).

Lemma recorded_mono E E' p t : E ⊆ E' → recorded E p t → recorded E' p t.
Proof. intros HE Hr q s Hq Hw Hl. by apply HE, Hr. Qed.

Lemma closed_mono E E' p c t : E ⊆ E' → closed E p c t → closed E' p c t.
Proof. intros HE. destruct c as [[]|]; cbn; try done. intros (? & ? & ?). split_and!; [done..|]. by eapply recorded_mono. Qed.

Lemma strep_mono E E' p st t l : E ⊆ E' → strep E p st t l → strep E' p st t l.
Proof.
  intros HE. induction 1 as [|p k c t l Hf _ IH|p ch ts x c t l ? ? ? ? ? _ IH Hcl Hop]; [constructor | by constructor|].
  eapply strep_branch; eauto. intros. eapply closed_mono; [done|]. eauto.
Qed.

Lemma recorded_trivial E p t : ¬ is_branching t → recorded E p t.
Proof. intros Hn q s Hq Hw _. destruct t; [inversion Hq; subst; destruct Hw.. | by destruct Hn | by destruct Hn]. Qed.

(** ** Hashing *)

Definition hash_spec (E : list written) (p : bytes) (st : stNode) (t : tree) : Prop :=
  ∃ ev, sthash st p = Ok (tref (bool_decide (p = [])) t, ev) ∧ recorded (E ++ ev) p t.

Lemma store_blob_tree p t :
  ∃ ev, store_blob p (tenc t) = (tref (bool_decide (p = [])) t, ev) ∧
        ((32 <= length (tenc t))%nat ∨ p = [] → (p, thash t, tenc t) ∈ ev).
Proof.
  unfold store_blob, tref, hashData. fold (thash t). rewrite BytesToHash_id by apply length_thash.
  destruct p as [|x p]; cbn [length].
  - rewrite decide_False by lia. rewrite bool_decide_true by done. eexists. split; [by case_decide|]. intros _. left.
  - rewrite bool_decide_false by done. destruct (decide (length (tenc t) < 32)%nat).
    + rewrite decide_True by lia. eexists. split; [done|]. intros [|]; [lia | done].
    + rewrite decide_False by lia. eexists. split; [done|]. intros _. left.
Qed.

(** The last step of hashing, when the children are recorded. *)
Lemma hash_done E p t ev blob :
  blob = tenc t → (∀ q s, node_at p t q s → (q, s) = (p, t) ∨ (wf s → (32 <= length (tenc s))%nat ∨ q = [] → (q, thash s, tenc s) ∈ E ++ ev)) →
  ∃ ev', (let '(val, ev') := store_blob p blob in Ok (val, ev ++ ev')) = Ok (E := ()) (tref (bool_decide (p = [])) t, ev ++ ev') ∧
         recorded (E ++ ev ++ ev') p t.
Proof.
  intros -> Hch. destruct (store_blob_tree p t) as (ev' & -> & Hev). exists ev'. split; [done|].
  intros q s Hq Hw Hl. destruct (Hch q s Hq) as [[= -> ->]|Hin].
  - apply elem_of_app. right. apply elem_of_app. right. by apply Hev.
  - rewrite app_assoc. apply elem_of_app. left. by apply Hin.
Qed.

Lemma path_snoc (p : bytes) x : bool_decide (p ++ [x] = []) = false.
Proof. apply bool_decide_false. by destruct p. Qed.

Lemma path_app (p k : bytes) : k ≠ [] → bool_decide (p ++ k = []) = false.
Proof. intros Hk. apply bool_decide_false. by intros [_ ?]%app_eq_nil. Qed.

(** The children of a branch: those that are hashed, and the one that is open. *)
Definition child_spec (E : list written) (p : bytes) (c : option stNode) (t : tree) : Prop :=
  match c with None => t = TNil | Some c => wf t ∧ hash_spec E p c t end.

Fixpoint sthash_children (path : bytes) (i : nat) (l : list (option stNode)) : res () (list bytes * list written) :=
  match l with
  | [] => Ok ([], [])
  | c :: l =>
      '(v, ev1) ← match c with None => Ok ([], []) | Some c => sthash c (path ++ [z2b (Z.of_nat i)]) end;
      '(vs, ev2) ← sthash_children path (S i) l;
      Ok (v :: vs, ev1 ++ ev2)
  end.

Lemma sthash_branch ch path :
  sthash (branchNode ch) path =
    ('(vals, ev) ← sthash_children path 0 ch;
     let '(val, ev') := store_blob path (fullnodeEncoder_encode (vals ++ [[]])) in Ok (val, ev ++ ev')).
Proof.
  cbn [sthash]. set (go := fix go (i : nat) (l : list (option stNode)) {struct l} := _).
  assert (∀ l i, go i l = sthash_children path i l) as ->; [|done].
  induction l as [|c l IH]; intros i; [done|]. cbn [go sthash_children]. by rewrite IH.
Qed.

Lemma child_ref_wf t : wf t → child_ref t = tref false t.
Proof. intros Hw. destruct t; [destruct Hw | destruct Hw | done | done]. Qed.

Lemma sthash_children_ok E p l : ∀ i tl, length l = length tl →
  (∀ j c t, l !! j = Some c → tl !! j = Some t → child_spec E (p ++ [z2b (Z.of_nat (i + j))]) c t) →
  ∃ ev, sthash_children p i l = Ok (child_ref <$> tl, ev) ∧
        ∀ j t, tl !! j = Some t → recorded (E ++ ev) (p ++ [z2b (Z.of_nat (i + j))]) t.
Proof.
  induction l as [|c l IH]; intros i [|t tl] Hlen Hch; try done.
  - exists []. by split.
  - destruct (IH (S i) tl) as (ev2 & E2 & Hr2); [by injection Hlen| |].
    { intros j c' t' Hc' Ht'. replace (S i + j)%nat with (i + S j)%nat by lia. by apply (Hch (S j)). }
    specialize (Hch 0%nat c t eq_refl eq_refl) as Hc. rewrite Nat.add_0_r in Hc.
    assert (∃ ev1, match c with None => Ok ([], []) | Some c => sthash c (p ++ [z2b (Z.of_nat i)]) end = Ok (E := ()) (child_ref t, ev1) ∧
      recorded (E ++ ev1) (p ++ [z2b (Z.of_nat i)]) t) as (ev1 & E1 & Hr1).
    { destruct c as [c|]; cbn in Hc; [|subst t; exists []; split; [done | apply recorded_trivial; intros []]].
      destruct Hc as (Hw & ev1 & Hh & Hr). rewrite path_snoc in Hh. exists ev1. by rewrite child_ref_wf. }
    exists (ev1 ++ ev2). cbn [sthash_children]. rewrite E1. cbn [mbind res_bind]. rewrite E2. split; [done|].
    intros [|j] t' Ht'.
    + injection Ht' as <-. rewrite Nat.add_0_r. eapply recorded_mono; [|done]. set_solver.
    + replace (i + S j)%nat with (S i + j)%nat by lia. eapply recorded_mono; [|by apply Hr2]. set_solver.
Qed.

Lemma hash_ext E p k c t :
  wf (TShort k t) → is_full t → sized (TShort k t) → hash_spec E (p ++ k) c t → hash_spec E p (extNode k c) (TShort k t).
Proof.
  intros Hw Hf Hsz (ev & Hc & Hr). destruct Hw as [[_ Hv]|(Hne & Hk & _ & Hw)]; [by destruct t|]. unfold hash_spec. cbn [sthash].
  rewrite Hc, path_app by done. cbn [mbind res_bind].
  rewrite (inPlace_compact k (compact k)) by (done || by apply (hexToCompact_compact false), nibbles_hex). cbn [mbind res_bind].
  edestruct (hash_done E p (TShort k t) ev) as (ev' & He & Hrec); [| |exists (ev ++ ev'); split; [exact He | exact Hrec]].
  - unfold tenc. rewrite titem_TShort. apply ext_encode; [by apply wf_branching|]. apply (Hsz _ (sub_refl _)).
  - intros q s Hq. inversion Hq; subst; [by left | right]. intros. by apply Hr.
Qed.

Lemma hash_leaf E p k v :
  wf (TShort (k ++ [Byte.x10]) (TValue v)) → sized (TShort (k ++ [Byte.x10]) (TValue v)) →
  hash_spec E p (leafNode k v) (TShort (k ++ [Byte.x10]) (TValue v)).
Proof.
  intros Hw Hsz. destruct Hw as [[Hk Hv]|(_ & _ & [] & _)]. unfold hash_spec. cbn [sthash].
  rewrite (inPlace_compact _ (compact (k ++ [Byte.x10])));
    [|by destruct k | by apply (hexToCompact_compact true), leaf_hex]. cbn [mbind res_bind].
  edestruct (hash_done E p (TShort (k ++ [Byte.x10]) (TValue v)) []) as (ev' & He & Hrec); [| |exists ev'; split; [|exact Hrec]].
  - unfold tenc. rewrite titem_TShort. apply (leaf_encode _ v). apply (Hsz _ (sub_refl _)).
  - intros q s Hq. inversion Hq as [|? ? ? ? ? Hq'|]; subst; [by left | right]. intros Hws. inversion Hq'; subst. destruct Hws.
  - exact He.
Qed.

Lemma hash_branch E p ch ts :
  wf (TFull ts) → sized (TFull ts) → length ch = 16%nat → ts !! 16%nat = Some TNil →
  (∀ i c t, ch !! i = Some c → ts !! i = Some t → child_spec E (p ++ [z2b (Z.of_nat i)]) c t) →
  hash_spec E p (branchNode ch) (TFull ts).
Proof.
  intros Hw Hsz Hlen H16 Hch. pose proof Hw as (H17 & _)%wf_TFull.
  assert (ts = take 16 ts ++ [TNil]) as Ets.
  { rewrite <-(take_drop 16 ts) at 1. f_equal. apply list_eq. intros i. rewrite lookup_drop. destruct i as [|i]; [exact H16|].
    transitivity (@None tree); [apply lookup_ge_None_2; lia | by destruct i]. }
  destruct (sthash_children_ok E p ch 0 (take 16 ts)) as (ev & Hgo & Hr); [rewrite length_take; lia | |].
  { intros j c t Hc Ht. apply Hch; [done|]. by apply lookup_take_Some in Ht as [? _]. }
  unfold hash_spec. rewrite sthash_branch, Hgo. cbn [mbind res_bind].
  edestruct (hash_done E p (TFull ts) ev) as (ev' & He & Hrec); [| |exists (ev ++ ev'); split; [exact He | exact Hrec]].
  - rewrite <-full_encode by (done || apply Hsz; constructor). f_equal. rewrite Ets at 2. by rewrite fmap_app.
  - intros q s Hq. inversion Hq as [| |? ? i t ? ? Hi Hq']; subst; [by left | right]. intros Hws. destruct (decide (i = 16%nat)) as [->|].
    + rewrite H16 in Hi. injection Hi as <-. inversion Hq'; subst. destruct Hws.
    + intros Hl. apply (Hr i t); [|done..]. rewrite lookup_take_lt; [done|]. apply lookup_lt_Some in Hi. lia.
Qed.

Lemma closed_spec E p x c t : closed E (p ++ [x]) c t → child_spec E (p ++ [x]) c t.
Proof.
  destruct c as [[]|]; cbn; try done. intros (Hw & -> & Hr). split; [done|]. exists []. rewrite path_snoc. split; [done|]. by rewrite app_nil_r.
Qed.

Lemma z2b_nibble x : z2b (Z.of_nat (nib x)) = x.
Proof. apply z2b_nib. Qed.

Lemma wf_child ts i t : wf (TFull ts) → ts !! i = Some t → t ≠ TNil → i ≠ 16%nat → wf t.
Proof.
  intros (_ & _ & Hs)%wf_TFull Hi Hn H16. destruct (Hs i t Hi) as [|Hw]; [done|]. by rewrite decide_False in Hw.
Qed.

Lemma strep_not_nil E p st t l : strep E p st t l → t ≠ TNil.
Proof. by inversion 1. Qed.

Lemma sthash_ok E p st t l : strep E p st t l → wf t → sized t → hash_spec E p st t.
Proof.
  induction 1 as [p k v|p k c t l Hf _ IH|p ch ts x c t l Hlen H16 Hx Hc Ht Hst IH Hcl Hop]; intros Hw Hsz.
  - by apply hash_leaf.
  - apply hash_ext; [done..|]. destruct Hw as [[_ Hv]|(_ & _ & _ & Hw)]; [by destruct t|]. apply IH; [done | by apply (sized_short k)].
  - apply hash_branch; [done..|]. intros i c' t' Hc' Ht'. destruct (decide (i = nib x)) as [->|Hne].
    + rewrite Hc in Hc'. rewrite Ht in Ht'. injection Hc' as <-. injection Ht' as <-. rewrite z2b_nibble.
      assert (wf t) by (eapply wf_child; [done | done | by eapply strep_not_nil | pose proof (nib_nibble x Hx); lia]).
      split; [done|]. apply IH; [done | by apply (sized_full ts (nib x))].
    + destruct (decide (i < nib x)%nat); [apply closed_spec, (Hcl i); done|].
      by destruct (Hop i c' t') as [-> ->]; [lia | done..|].
Qed.

(** ** Insertion *)

Lemma getDiffIndex_full k r : getDiffIndex k (k ++ r) = Ok (length k).
Proof. induction k as [|a k IH]; [done|]. cbn [app getDiffIndex]. by rewrite decide_True, IH. Qed.

Lemma getDiffIndex_split p x y rk rkey : x ≠ y → getDiffIndex (p ++ x :: rk) (p ++ y :: rkey) = Ok (length p).
Proof.
  intros Hne. induction p as [|a p IH]; cbn [app getDiffIndex]; [by rewrite decide_False|]. by rewrite decide_True, IH.
Qed.

Lemma prefixLen_split p x y rk rkey : x ≠ y → prefixLen (p ++ y :: rkey) (p ++ x :: rk) = length p.
Proof. intros Hne. induction p as [|a p IH]; cbn; [by rewrite decide_False|]. by rewrite decide_True, IH. Qed.

Lemma tinsert_short k t r v : k ≠ [] → tinsert (TShort k t) (k ++ r) v = TShort k (tinsert t r v).
Proof.
  intros Hk. destruct k as [|a k]; [done|]. cbn [app tinsert]. change (a :: k ++ r) with ((a :: k) ++ r).
  by rewrite prefixLen_app, decide_True, drop_app_length.
Qed.

Lemma tinsert_split p x y rk rkey t v : x ≠ y →
  tinsert (TShort (p ++ x :: rk) t) (p ++ y :: rkey) v =
    short_of p (TFull (<[nib y := short_of rkey (TValue v)]> (<[nib x := short_of rk t]> empty_ch))).
Proof.
  intros Hne. transitivity (branch_of (length p) (p ++ x :: rk) t (p ++ y :: rkey) v); [|apply branch_of_eq].
  rewrite <-(prefixLen_split p x y rk rkey) by done. destruct (p ++ y :: rkey) as [|z key] eqn:E; [by destruct p|].
  cbn [tinsert]. rewrite <-E, prefixLen_split by done. rewrite decide_False by (rewrite length_app; cbn; lia). done.
Qed.

Lemma before_app k l key :
  before (k ++ l) key → (∃ r, key = k ++ r ∧ before l r) ∨
    (∃ p x y rk rkey, k = p ++ x :: rk ∧ key = p ++ y :: rkey ∧ b2z x < b2z y).
Proof.
  revert key. induction k as [|a k IH]; intros key Hb; [left; by exists key|].
  destruct Hb as (p & x & y & rl & rk & E1 & E2 & Hlt). destruct p as [|b p]; injection E1 as Ea Er; subst.
  - right. by exists [], x, y, k, rk.
  - destruct (IH (p ++ y :: rk)) as [(r & Hr & Hb)|(p' & x' & y' & rk' & rkey & -> & Hk & Hlt')]; [by exists p, x, y, rl, rk|..].
    + left. exists r. split; [cbn [app]; congruence | done].
    + right. exists (b :: p'), x', y', rk', rkey. split_and!; [done | cbn [app]; congruence | done].
Qed.

Lemma before_cons x l key :
  before (x :: l) key → ∃ y r, key = y :: r ∧ ((y = x ∧ before l r) ∨ b2z x < b2z y).
Proof.
  intros [(r & -> & Hb)|(p & a & b & rk & rkey & E & -> & Hlt)]%(before_app [x]).
  - exists x, r. by auto.
  - destruct p as [|? p]; [|by destruct p]. injection E as <- _. exists b, rkey. by auto.
Qed.

Lemma nib_lt x y : b2z x < b2z y → (nib x < nib y)%nat.
Proof. unfold nib. pose proof (b2z_range x). lia. Qed.

Lemma before_neq x y : b2z x < b2z y → x ≠ y.
Proof. by intros Hlt ->; lia. Qed.

(** Nodes that are not hashed. *)
Definition is_open (st : stNode) : Prop := match st with hashedNode _ => False | _ => True end.

Lemma strep_open E p st t l : strep E p st t l → is_open st.
Proof. by inversion 1. Qed.

Lemma unresolve_none ch path i : (∀ j c, (j < i)%nat → ch !! j = Some c → c = None ∨ ∃ v, c = Some (hashedNode v)) →
  unresolve i ch path = Ok (ch, []).
Proof.
  induction i as [|i IH]; intros Hc; [done|]. cbn [unresolve].
  destruct (ch !! i) as [c|] eqn:Ei; [|apply IH; eauto]. destruct (Hc i c) as [->|[v ->]]; [lia | done | apply IH; eauto | done].
Qed.

Lemma unresolve_open ch path x c i :
  (nib x < i)%nat → ch !! nib x = Some (Some c) → is_open c → (∀ j c, (nib x < j < i)%nat → ch !! j = Some c → c = None) →
  unresolve i ch path = ('(c, ev) ← sthashed c (path ++ [x]); Ok (<[nib x := Some c]> ch, ev)).
Proof.
  intros Hi Hc Ho Hn. induction i as [|i IH]; [lia|]. cbn [unresolve]. destruct (decide (i = nib x)) as [->|].
  - rewrite Hc, z2b_nibble. by destruct c.
  - destruct (ch !! i) as [c'|] eqn:Ei; [rewrite (Hn i c') by (lia || done)|]; apply IH; try lia; intros; eapply Hn; eauto; lia.
Qed.

(** The node a split makes: [n] is hashed, the new leaf is open. *)
Lemma split_rep E p k0 x y n tn rkey v :
  is_nibble x → is_nibble y → b2z x < b2z y → closed E (p ++ k0 ++ [x]) (Some n) tn →
  ∃ st, split_node k0 x y n (leafNode rkey v) = Ok st ∧
        strep E p st (short_of k0 (TFull (<[nib y := TShort (rkey ++ [Byte.x10]) (TValue v)]> (<[nib x := tn]> empty_ch)))) (k0 ++ y :: rkey).
Proof.
  intros Hx Hy Hlt Hn. pose proof (nib_nibble x Hx). pose proof (nib_nibble y Hy). pose proof (nib_lt x y Hlt). pose proof (before_neq x y Hlt).
  unfold split_node. rewrite decide_True by done. eexists. split; [done|].
  assert (∀ j (a b : option stNode), (<[nib y := b]> (<[nib x := a]> no_children)) !! j =
    if decide (j = nib y) then Some b else if decide (j = nib x) then Some a else if decide (j < 16)%nat then Some None else None) as Hl.
  { intros j a b. unfold no_children. case_decide as E1; [subst; apply list_lookup_insert_eq; by rewrite length_insert, length_replicate|].
    rewrite list_lookup_insert_ne by done. case_decide as E2; [subst; apply list_lookup_insert_eq; by rewrite length_replicate|].
    rewrite list_lookup_insert_ne by done. case_decide; [by apply lookup_replicate_2 | apply lookup_replicate_None; lia]. }
  assert (∀ p, closed E (p ++ [x]) (Some n) tn →
    strep E p (branchNode (<[nib y := Some (leafNode rkey v)]> (<[nib x := Some n]> no_children)))
      (TFull (<[nib y := TShort (rkey ++ [Byte.x10]) (TValue v)]> (<[nib x := tn]> empty_ch))) (y :: rkey)) as Hb.
  { intros p' Hn'. eapply (strep_branch E p' _ _ y).
    - by rewrite !length_insert.
    - rewrite branch_lookup by (done || lia). by rewrite !decide_False by lia.
    - done.
    - rewrite Hl. by rewrite decide_True.
    - rewrite branch_lookup by (done || lia). by rewrite decide_True.
    - constructor.
    - intros i c t Hi. rewrite Hl, branch_lookup by (done || lia). rewrite !(decide_False (P := i = nib y)) by lia.
      destruct (decide (i = nib x)) as [->|]; [intros [= <-] [= <-]; by rewrite z2b_nibble|].
      rewrite !decide_True by lia. by intros [= <-] [= <-].
    - intros i c t Hi. rewrite Hl, branch_lookup by (done || lia). rewrite !(decide_False (P := i = nib y)), !(decide_False (P := i = nib x)) by lia.
      repeat case_decide; try done. by intros [= <-] [= <-]. }
  destruct k0 as [|a k0]; [by apply Hb|]. rewrite app_assoc in Hn. by constructor; [|apply Hb].
Qed.

Lemma sthashed_closed E p c t :
  hash_spec E p c t → p ≠ [] → wf t → ∃ v ev, sthashed c p = Ok (hashedNode v, ev) ∧ closed (E ++ ev) p (Some (hashedNode v)) t.
Proof.
  intros (ev & Hh & Hr) Hp Hw. exists (tref false t), ev. unfold sthashed. rewrite Hh, bool_decide_false by done. done.
Qed.

Lemma short_of_snoc k x t : short_of (k ++ [x]) t = TShort (k ++ [x]) t.
Proof. by destruct k. Qed.

Lemma sized_split p x y a b s :
  sized (short_of p (TFull (<[nib y := b]> (<[nib x := a]> empty_ch)))) → is_nibble x → is_nibble y → x ≠ y → subtree s a → Z.of_nat (length (tenc s)) < two64.
Proof.
  intros Hsz Hx Hy Hne Hs. pose proof (nib_nibble x Hx). pose proof (nib_nibble y Hy). apply Hsz.
  assert (subtree s (TFull (<[nib y := b]> (<[nib x := a]> empty_ch)))) as Hf.
  { apply (sub_full s _ (nib x) a); [|done]. rewrite branch_lookup by (done || lia).
    rewrite decide_False by (by intros ?%nib_inj). by rewrite decide_True. }
  destruct p; [done | by constructor].
Qed.

Lemma drop_mid {A} (p : list A) x r : drop (S (length p)) (p ++ x :: r) = r.
Proof. replace (S (length p)) with (length p + 1)%nat by lia. by rewrite drop_app_add. Qed.

Lemma take_mid {A} (p : list A) x r : take (S (length p)) (p ++ x :: r) = p ++ [x].
Proof. replace (S (length p)) with (length p + 1)%nat by lia. by rewrite take_app_add. Qed.

(** What [stinsert] owes to its caller. *)
Definition inserted (E : list written) (p : bytes) (r : res () (stNode * list written)) (t : tree) (k : bytes) : Prop :=
  ∃ st ev, r = Ok (st, ev) ∧ strep (E ++ ev) p st t k.

Lemma insert_leaf E p k v0 key v fuel :
  wf (TShort (k ++ [Byte.x10]) (TValue v0)) → Forall is_nibble key → before k key →
  sized (tinsert (TShort (k ++ [Byte.x10]) (TValue v0)) (key ++ [Byte.x10]) v) →
  inserted E p (stinsert (S fuel) (leafNode k v0) key v p) (tinsert (TShort (k ++ [Byte.x10]) (TValue v0)) (key ++ [Byte.x10]) v) key.
Proof.
  intros Hw Hkey (p0 & x & y & rk & rkey & -> & -> & Hlt) Hsz. pose proof (before_neq x y Hlt) as Hne.
  rewrite <-!app_assoc, <-!app_comm_cons in *. rewrite tinsert_split in * by done. rewrite !short_of_snoc in *.
  apply Forall_app in Hkey as [_ [Hy _]%Forall_cons_1]. destruct Hw as [[Hk Hv]|(_ & _ & [] & _)].
  assert (Forall is_nibble (p0 ++ x :: rk)) as Hk'.
  { destruct Hk as (ns & Hns & Ek). rewrite app_comm_cons, app_assoc in Ek. by apply app_inj_2 in Ek as [<- _]. }
  apply Forall_app in Hk' as [_ [Hx Hrk]%Forall_cons_1].
  assert (wf (TShort (rk ++ [Byte.x10]) (TValue v0))) as Hwn by (left; split; [by exists rk | done]).
  destruct (sthashed_closed E (p ++ p0 ++ [x]) (leafNode rk v0) (TShort (rk ++ [Byte.x10]) (TValue v0))) as (w & ev & Hh & Hcl).
  { apply hash_leaf; [done|]. intros s Hs. by eapply sized_split. }
  { by destruct p, p0. }
  { done. }
  destruct (split_rep (E ++ ev) p p0 x y (hashedNode w) _ rkey v Hx Hy Hlt Hcl) as (st & Hs & Hrep).
  exists st, ev. split; [|done]. cbn [stinsert]. rewrite getDiffIndex_split by done. cbn [mbind res_bind].
  rewrite decide_False by (rewrite length_app; cbn [length]; lia). rewrite !list_lookup_middle by done.
  rewrite !drop_mid, take_mid, Hh. cbn [mbind res_bind]. rewrite take_app_length, Hs. done.
Qed.

Lemma insert_ext_split E p p0 x rk c t l y rkey v fuel :
  wf (TShort (p0 ++ x :: rk) t) → is_full t → strep E (p ++ p0 ++ x :: rk) c t l → is_nibble y → b2z x < b2z y →
  sized (tinsert (TShort (p0 ++ x :: rk) t) ((p0 ++ y :: rkey) ++ [Byte.x10]) v) →
  inserted E p (stinsert (S fuel) (extNode (p0 ++ x :: rk) c) (p0 ++ y :: rkey) v p)
    (tinsert (TShort (p0 ++ x :: rk) t) ((p0 ++ y :: rkey) ++ [Byte.x10]) v) (p0 ++ y :: rkey).
Proof.
  intros Hw Hf Hst Hy Hlt Hsz. pose proof (before_neq x y Hlt) as Hne.
  rewrite <-!app_assoc, <-!app_comm_cons in *. rewrite tinsert_split in * by done. rewrite !short_of_snoc in *.
  destruct Hw as [[_ Hv]|(_ & Hk & _ & Hw)]; [by destruct t|]. apply Forall_app in Hk as [_ [Hx Hrk]%Forall_cons_1].
  assert (∀ s, subtree s (short_of rk t) → Z.of_nat (length (tenc s)) < two64) as Hsz' by (intros; by eapply sized_split).
  assert (wf (short_of rk t)) as Hwn by (destruct rk; [done | by right]).
  assert (hash_spec E (p ++ p0 ++ [x]) (match rk with [] => c | _ => extNode rk c end) (short_of rk t)) as Hspec.
  { destruct rk as [|a rk]; [by eapply sthash_ok|]. apply hash_ext; [done..|]. rewrite <-!app_assoc.
    eapply sthash_ok; [exact Hst | done|]. intros s Hs. apply Hsz'. by constructor. }
  destruct (sthashed_closed _ _ _ _ Hspec) as (w & ev & Hh & Hcl); [by destruct p, p0 | done|].
  destruct (split_rep (E ++ ev) p p0 x y (hashedNode w) _ rkey v Hx Hy Hlt Hcl) as (st & Hs & Hrep).
  exists st, ev. split; [|done]. cbn [stinsert]. rewrite getDiffIndex_split by done. cbn [mbind res_bind].
  rewrite decide_False by (rewrite length_app; cbn [length]; lia). rewrite !list_lookup_middle by done.
  rewrite !drop_mid, take_mid, take_app_length.
  assert ((if decide (length p0 < length (p0 ++ x :: rk) - 1)%nat then sthashed (extNode rk c) (p ++ p0 ++ [x])
           else sthashed c (p ++ p0 ++ x :: rk)) = Ok (hashedNode w, ev)) as ->.
  { rewrite length_app. cbn [length]. destruct rk as [|a rk]; cbn [length]; [rewrite decide_False by lia | rewrite decide_True by lia]; done. }
  cbn [mbind res_bind]. by rewrite Hs.
Qed.

Lemma tinsert_full ts y r v t : ts !! nib y = Some t → tinsert (TFull ts) (y :: r) v = TFull (<[nib y := tinsert t r v]> ts).
Proof. intros Hy. cbn [tinsert]. by rewrite (alter_insert _ _ _ t). Qed.

Lemma tinsert_nil k v : tinsert TNil (k ++ [Byte.x10]) v = TShort (k ++ [Byte.x10]) (TValue v).
Proof. by destruct k. Qed.

Lemma lookup_insert_cases {A} (l : list A) i j (x a : A) :
  <[i := x]> l !! j = Some a → (j = i ∧ a = x) ∨ (j ≠ i ∧ l !! j = Some a).
Proof. rewrite list_lookup_insert_Some. naive_solver. Qed.

Ltac slot_cases := repeat match goal with
  | H : <[_ := _]> _ !! _ = Some _ |- _ => apply lookup_insert_cases in H as [[? ?]|[? ?]]; subst
  end.

(** The new key goes to the right of the open child, which is hashed. *)
Lemma insert_branch_next E p ch ts x c t l y r v fuel :
  strep E p (branchNode ch) (TFull ts) (x :: l) → wf (TFull ts) → is_nibble y → b2z x < b2z y →
  ch !! nib x = Some (Some c) → ts !! nib x = Some t → strep E (p ++ [x]) c t l →
  sized (tinsert (TFull ts) (y :: r ++ [Byte.x10]) v) →
  inserted E p (stinsert (S fuel) (branchNode ch) (y :: r) v p) (tinsert (TFull ts) (y :: r ++ [Byte.x10]) v) (y :: r).
Proof.
  intros Hst Hw Hy Hlt Hc Ht Hsub Hsz. pose proof (nib_nibble y Hy). pose proof (nib_lt x y Hlt).
  inversion Hst as [| |? ? ? ? c' t' ? Hlen H16 Hx Hc' Ht' _ Hcl Hop]; subst. clear Hc' Ht'.
  pose proof Hw as (H17 & _)%wf_TFull.
  assert (∃ cy, ch !! nib y = Some cy) as [cy Hcy] by (apply lookup_lt_is_Some; lia).
  assert (∃ ty, ts !! nib y = Some ty) as [ty Hty] by (apply lookup_lt_is_Some; lia).
  destruct (Hop (nib y) cy ty) as [-> ->]; [lia | done..|]. rewrite (tinsert_full _ _ _ _ TNil), tinsert_nil in * by done.
  assert (wf t) as Hwt by (eapply wf_child; [done | done | by eapply strep_not_nil | pose proof (nib_nibble x Hx); lia]).
  destruct (sthashed_closed E (p ++ [x]) c t) as (w & ev & Hh & Hclx).
  { eapply sthash_ok; [done..|]. apply (sized_full _ (nib x) _ Hsz). by rewrite list_lookup_insert_ne by lia. }
  { by destruct p. }
  { done. }
  eexists _, ev. cbn [stinsert]. rewrite (unresolve_open ch p x c) by
    (done || (by eapply strep_open) || (intros j cj Hj Hcj; assert (∃ tj, ts !! j = Some tj) as [tj Htj] by (apply lookup_lt_is_Some; lia);
       by destruct (Hop j cj tj) as [-> _]; [lia | done..|])).
  rewrite Hh. cbn [mbind res_bind]. rewrite list_lookup_insert_ne by lia. rewrite Hcy. split; [done|].
  eapply (strep_branch _ p _ _ y).
  - by rewrite !length_insert.
  - by rewrite list_lookup_insert_ne by lia.
  - done.
  - apply list_lookup_insert_eq. rewrite length_insert. lia.
  - apply list_lookup_insert_eq. lia.
  - constructor.
  - intros i ci ti Hi Hci Hti. slot_cases; try lia; [by rewrite z2b_nibble; simplify_eq|].
    destruct (decide (i < nib x)%nat); [eapply closed_mono; [|by apply (Hcl i)]; set_solver|].
    by destruct (Hop i ci ti) as [-> ->]; [lia | done..|].
  - intros i ci ti Hi Hci Hti. slot_cases; try lia. apply (Hop i); [lia | done..].
Qed.

(** The new key goes into the open child. *)
Lemma insert_branch_same E p ch ts x c t l r v fuel :
  strep E p (branchNode ch) (TFull ts) (x :: l) → wf (TFull ts) →
  ch !! nib x = Some (Some c) → ts !! nib x = Some t →
  inserted E (p ++ [x]) (stinsert fuel c r v (p ++ [x])) (tinsert t (r ++ [Byte.x10]) v) r →
  inserted E p (stinsert (S fuel) (branchNode ch) (x :: r) v p) (tinsert (TFull ts) (x :: r ++ [Byte.x10]) v) (x :: r).
Proof.
  intros Hst Hw Hc Ht (c2 & ev & Hins & Hrep). inversion Hst as [| |? ? ? ? c' t' ? Hlen H16 Hx Hc' Ht' _ Hcl Hop]; subst.
  pose proof Hw as (H17 & _)%wf_TFull. pose proof (nib_nibble x Hx). rewrite (tinsert_full _ _ _ _ t) by done.
  eexists _, ev. cbn [stinsert]. rewrite unresolve_none.
  2: { intros j cj Hj Hcj. assert (∃ tj, ts !! j = Some tj) as [tj Htj] by (apply lookup_lt_is_Some; lia).
       specialize (Hcl j cj tj Hj Hcj Htj). destruct cj as [[]|]; try done; [right; by eexists | by left]. }
  cbn [mbind res_bind]. rewrite Hc, Hins. cbn [mbind res_bind]. split; [done|]. eapply (strep_branch _ p _ _ x).
  - by rewrite length_insert.
  - by rewrite list_lookup_insert_ne by lia.
  - done.
  - apply list_lookup_insert_eq. lia.
  - apply list_lookup_insert_eq. lia.
  - done.
  - intros i ci ti Hi Hci Hti. slot_cases; try lia. eapply closed_mono; [|by apply (Hcl i)]. set_solver.
  - intros i ci ti Hi Hci Hti. slot_cases; try lia. by apply (Hop i).
Qed.

Lemma stinsert_ok E p st t l : strep E p st t l → ∀ fuel key v, wf t → Forall is_nibble key → before l key → v ≠ [] →
  sized (tinsert t (key ++ [Byte.x10]) v) → (length key < fuel)%nat →
  inserted E p (stinsert fuel st key v p) (tinsert t (key ++ [Byte.x10]) v) key.
Proof.
  induction 1 as [p k v0|p k c t l Hf Hst IH|p ch ts x c t l Hlen H16 Hx Hc Ht Hst IH Hcl Hop];
    intros fuel key v Hw Hkey Hb Hv Hsz Hfuel; (destruct fuel as [|fuel]; [lia|]).
  - by apply insert_leaf.
  - pose proof Hw as Hw'. destruct Hw as [[_ Hval]|(Hne & Hk & _ & Hw)]; [by destruct t|].
    destruct (before_app k l key Hb) as [(r & -> & Hbr)|(p0 & x & y & rk & rkey & -> & -> & Hlt)].
    + rewrite <-app_assoc, tinsert_short in * by done. apply Forall_app in Hkey as [_ Hr].
      assert (length r < fuel)%nat as Hfr by (rewrite length_app in Hfuel; destruct k; [done | cbn in Hfuel; lia]).
      destruct (IH fuel r v Hw Hr Hbr Hv (sized_short _ _ Hsz) Hfr) as (st' & ev & Hins & Hrep).
      exists (extNode k st'), ev. cbn [stinsert]. rewrite getDiffIndex_full. cbn [mbind res_bind]. rewrite decide_True by done.
      rewrite drop_app_length, take_app_length, Hins. split; [done|]. constructor; [|done].
      apply wf_tinsert; [by right | by exists r | done | done].
    + apply Forall_app in Hkey as [_ [Hy _]%Forall_cons_1]. by eapply insert_ext_split.
  - assert (strep E p (branchNode ch) (TFull ts) (x :: l)) as Hall by (by eapply strep_branch).
    destruct (before_cons x l key Hb) as (y & r & -> & [[-> Hbr]|Hlt]).
    + apply Forall_cons_1 in Hkey as [_ Hr]. cbn [app] in *. rewrite (tinsert_full _ _ _ _ t) in Hsz by done.
      assert (wf t) by (eapply wf_child; [done | done | by eapply strep_not_nil | pose proof (nib_nibble x Hx); lia]).
      apply wf_TFull in Hw as Hw'. destruct Hw' as (H17 & _).
      eapply insert_branch_same; try done. apply IH; try done; [|cbn in Hfuel; lia].
      apply (sized_full _ (nib x) _ Hsz). apply list_lookup_insert_eq. pose proof (nib_nibble x Hx). lia.
    + apply Forall_cons_1 in Hkey as [Hy _]. by eapply insert_branch_next.
Qed.
