(* ===== verification/StackSpec.v ===== *)
(** * What the stack trie and DeriveSha promise

    Keys in ascending order give the root of the trie of the same entries; [DeriveSha] gives
    the root of the trie that maps the encoded indices of a list to its encoded elements, so
    it commits to the list, and for transactions to the transactions. *)
From Stdlib Require Import ZArith Lia Sorting.Sorted.
From Stdlib Require Strings.Byte.
From stdpp Require Import base tactics decidable list numbers gmap.
From S2P Require Import Prelude Keccak Common Rlp HexKeys RadixTree Trie TrieFacts TrieMap TrieStore TrieSpec StackTrie StackFacts.

(** ** The order of keys *)

Lemma before_compare l k : before l k → bytes_Compare l k = Lt.
Proof.
  intros (p & x & y & rl & rk & -> & -> & Hlt). induction p as [|a p IH]; cbn.
  - by rewrite (proj2 (Z.compare_lt_iff _ _) Hlt).
  - by rewrite Z.compare_refl.
Qed.

Lemma compare_before l k : length l = length k → bytes_Compare l k = Lt → before l k.
Proof.
  revert k. induction l as [|x l IH]; intros [|y k] Hlen Hc; try done. cbn in Hc.
  destruct (Z.compare_spec (b2z x) (b2z y)) as [E|Hlt|]; [| |done].
  - apply b2z_inj in E as ->. destruct (IH k) as (p & a & b & rl & rk & -> & -> & Hlt); [by injection Hlen | done|].
    by exists (y :: p), a, b, rl, rk.
  - by exists [], x, y, l, k.
Qed.

Lemma before_cons_same x l k : before l k → before (x :: l) (x :: k).
Proof. intros (p & a & b & rl & rk & -> & -> & Hlt). by exists (x :: p), a, b, rl, rk. Qed.

Lemma before_head x y l k : b2z x < b2z y → before (x :: l) (y :: k).
Proof. intros Hlt. by exists [], x, y, l, k. Qed.

Lemma nibbles_b2z b : b2z (z2b (b2z b / 16)) = b2z b / 16 ∧ b2z (z2b (b2z b mod 16)) = b2z b mod 16.
Proof.
  pose proof (b2z_range b). rewrite !b2z_z2b. split; apply Z.mod_small; Z.to_euclidean_division_equations; lia.
Qed.

Lemma before_hex l k : before l k → before (writeHexKey l) (writeHexKey k).
Proof.
  intros (p & x & y & rl & rk & -> & -> & Hlt). unfold writeHexKey. rewrite !bind_app.
  induction (p ≫= nibbles_of) as [|a q IH]; [|by apply before_cons_same]. cbn [app mbind list_bind].
  unfold nibbles_of at 1 3. cbn [app]. destruct (nibbles_b2z x) as [Hx1 Hx2], (nibbles_b2z y) as [Hy1 Hy2].
  destruct (decide (b2z x / 16 = b2z y / 16)) as [E|].
  - rewrite E. apply before_cons_same, before_head. rewrite Hx2, Hy2. Z.to_euclidean_division_equations; lia.
  - apply before_head. rewrite Hx1, Hy1. Z.to_euclidean_division_equations; lia.
Qed.

(** ** Updates in order *)

Definition put_all (t : StackTrie) (kvs : list (bytes * bytes)) : res stack_error StackTrie :=
  foldl (λ r '(key, v), t ← r; stack_Update t key v) (Ok t) kvs.

(** The stack trie holds [m]; [E] is what a callback has seen. *)
Definition stack_rep (t : StackTrie) (m : gmap bytes bytes) : Prop :=
  (m = ∅ ∧ st_root t = emptyNode ∧ st_last t = []) ∨
  (values_ok m ∧ m ≠ ∅ ∧ ∃ E, strep E [] (st_root t) (tree_of m) (st_last t) ∧ (st_onTrieNode t = true → E ⊆ st_written t)).

Lemma tree_of_insert m key v :
  values_ok m → v ≠ [] → tree_of (<[key := v]> m) = tinsert (tree_of m) (keybytesToHex key) v.
Proof.
  intros Hv Hne. destruct (tree_of_ok m Hv) as [Hr Hm]. symmetry. apply maps_tree_of; [|by apply maps_insert].
  right. apply wf_tinsert; [done | apply keybytes_key_ok | done].
Qed.

Lemma small_sized m : values_ok m → small m → sized (tree_of m).
Proof. intros Hv Hs. destruct (tree_of_ok m Hv) as [Hr Hm]. apply root_sized; [done | by eapply small_bounded]. Qed.

Lemma values_insert m key v : values_ok m → v ≠ [] → values_ok (<[key := v]> m).
Proof. intros. by apply map_Forall_insert_2. Qed.

Lemma hex_nibbles key : Forall is_nibble (writeHexKey key).
Proof. apply keybytes_nibbles. Qed.

Lemma Update_first t key v :
  st_root t = emptyNode → st_last t = [] → key ≠ [] → v ≠ [] →
  stack_Update t key v = Ok (MkStackTrie (leafNode (writeHexKey key) v) (writeHexKey key) (st_onTrieNode t) (call_back t [])).
Proof.
  intros Hr Hl Hk Hv. unfold stack_Update. rewrite !decide_False by (by intros ?%length_zero_iff_nil). rewrite Hr, Hl.
  by destruct key as [|x key].
Qed.

Lemma call_back_sub t E ev :
  (st_onTrieNode t = true → E ⊆ st_written t) → st_onTrieNode t = true → E ++ ev ⊆ call_back t ev.
Proof. intros HE Hc. unfold call_back. rewrite Hc. specialize (HE Hc). set_solver. Qed.

Lemma stack_Update_ok t m key v :
  stack_rep t m → key ≠ [] → v ≠ [] → small (<[key := v]> m) →
  (m ≠ ∅ → before (st_last t) (writeHexKey key)) →
  ∃ t', stack_Update t key v = Ok t' ∧ stack_rep t' (<[key := v]> m) ∧ st_last t' = writeHexKey key ∧ st_onTrieNode t' = st_onTrieNode t.
Proof.
  intros [(-> & Hr & Hl)|(Hval & Hne & E & Hst & HE)] Hk Hv Hsm Hb.
  - rewrite Update_first by done. eexists. split; [done|]. split; [|done]. right.
    assert (values_ok ∅) as He by apply map_Forall_empty. split; [by apply values_insert|]. split; [apply insert_non_empty|].
    exists []. split; [|set_solver]. rewrite tree_of_insert by done. cbn [st_root st_last]. unfold keybytesToHex.
    change (tree_of ∅) with TNil. fold (writeHexKey key). rewrite tinsert_nil. constructor.
  - specialize (Hb Hne). unfold stack_Update. rewrite !decide_False by (by intros ?%length_zero_iff_nil).
    rewrite before_compare by done.
    destruct (stinsert_ok E [] _ _ _ Hst (S (length (writeHexKey key))) (writeHexKey key) v) as (st' & ev & -> & Hrep).
    { by apply tree_of_nonempty. } { apply hex_nibbles. } { done. } { done. }
    { change (writeHexKey key ++ [Byte.x10]) with (keybytesToHex key). rewrite <-tree_of_insert by done.
      apply small_sized; [by apply values_insert | done]. }
    { lia. }
    eexists. split; [done|]. split; [|done]. right. split; [by apply values_insert|]. split; [apply insert_non_empty|].
    exists (E ++ ev). rewrite tree_of_insert by done. split; [exact Hrep|]. cbn [st_onTrieNode st_written]. by apply call_back_sub.
Qed.

Lemma stack_Hash_ok t m :
  stack_rep t m → small m →
  ∃ t', stack_Hash t = Ok (root_of m, t') ∧
        (m ≠ ∅ → st_onTrieNode t = true → recorded (st_written t') [] (tree_of m)).
Proof.
  intros [(-> & Hr & Hl)|(Hval & Hne & E & Hst & HE)] Hsm; unfold stack_Hash.
  - rewrite Hr. cbn [sthash mbind res_bind]. rewrite BytesToHash_id by exact length_EmptyRootHash.
    eexists. split; [reflexivity|]. intros Hne. by destruct Hne.
  - pose proof (tree_of_nonempty m Hne Hval) as Hw.
    destruct (sthash_ok E [] _ _ _ Hst Hw (small_sized m Hval Hsm)) as (ev & -> & Hrec). cbn [mbind res_bind].
    rewrite bool_decide_true by done. rewrite tref_root by done. rewrite BytesToHash_id by apply length_thash.
    unfold root_of. rewrite tree_root_wf by done. eexists. split; [reflexivity|]. intros _ Hcb. cbn [st_written].
    eapply recorded_mono; [by apply call_back_sub | done].
Qed.

Definition entry_ok (kv : bytes * bytes) : Prop := kv.1 ≠ [] ∧ kv.2 ≠ [] ∧ entry_small kv.1 kv.2.

(** The map after all updates; later entries win. *)
Definition put_map (m : gmap bytes bytes) (kvs : list (bytes * bytes)) : gmap bytes bytes :=
  foldl (λ m '(key, v), <[key := v]> m) m kvs.

Lemma put_all_cons t key v kvs : put_all t ((key, v) :: kvs) = (t ← stack_Update t key v; put_all t kvs).
Proof.
  unfold put_all. cbn [foldl mbind res_bind]. destruct (stack_Update t key v) as [t'|e|]; cbn [mbind res_bind]; [reflexivity|..];
    (induction kvs as [|[k w] kvs IH]; [reflexivity | exact IH]).
Qed.

Lemma put_all_ok kvs : ∀ t m,
  stack_rep t m → small m → Forall entry_ok kvs → Sorted before (fst <$> kvs) →
  (m ≠ ∅ → HdRel (λ l key, before l (writeHexKey key)) (st_last t) (fst <$> kvs)) →
  ∃ t', put_all t kvs = Ok t' ∧ stack_rep t' (put_map m kvs) ∧ small (put_map m kvs) ∧ st_onTrieNode t' = st_onTrieNode t.
Proof.
  induction kvs as [|[key v] kvs IH]; intros t m Hrep Hsm Hok Hs Hhd; [by exists t|].
  apply Forall_cons_1 in Hok as [(Hk & Hv & He) Hok]. cbn [fst snd] in *. rewrite fmap_cons in *. cbn [fst] in *.
  apply Sorted_inv in Hs as [Hs Hhd2].
  assert (small (<[key := v]> m)) as Hsm' by (by apply map_Forall_insert_2).
  destruct (stack_Update_ok t m key v) as (t1 & Hup & Hrep1 & Hlast & Hcb); [done..| |].
  { intros Hne. specialize (Hhd Hne). by inversion Hhd. }
  destruct (IH t1 (<[key := v]> m)) as (t' & Hput & Hrep' & Hsmall & Hcb'); [done..| |].
  { intros _. rewrite Hlast. inversion Hhd2; constructor. by apply before_hex. }
  exists t'. rewrite put_all_cons, Hup. split; [done|]. split; [done|]. split; [done | congruence].
Qed.

Lemma stack_rep_empty t : st_root t = emptyNode → st_last t = [] → stack_rep t ∅.
Proof. intros. by left. Qed.

(** ** The keys of DeriveSha *)

Lemma putint_len_le i j : 0 < i → i <= j < two64 → (length (putint i) <= length (putint j))%nat.
Proof.
  intros Hi Hj. destruct (putint_head i) as (b & bs & Eb & Hb); [lia|].
  pose proof (SetBytes_head_lower b bs Hb) as Hlow. rewrite <-Eb, SetBytes_putint in Hlow by lia.
  pose proof (SetBytes_range (putint j)) as Hup. rewrite SetBytes_putint in Hup by lia. rewrite Eb. cbn [length].
  destruct (decide (S (length bs) <= length (putint j))%nat); [done|].
  assert (256 ^ Z.of_nat (length (putint j)) <= 256 ^ Z.of_nat (length bs)) by (apply Z.pow_le_mono_r; lia). lia.
Qed.

Lemma enc_uint_before i j : 128 <= i → i < j < two64 → before (enc_uint i) (enc_uint j).
Proof.
  intros Hi Hj. rewrite !enc_uint_big by lia. pose proof (putint_len_le i j) as Hle. specialize (Hle ltac:(lia) ltac:(lia)).
  pose proof (intsize_range i) as R1. pose proof (intsize_range j) as R2. rewrite <-length_putint in R1, R2 by lia.
  destruct (decide (length (putint i) = length (putint j))) as [E|].
  - rewrite E. apply before_cons_same, compare_before; [done|]. rewrite bytes_Compare_num by done.
    rewrite !SetBytes_putint by lia. apply Z.compare_lt_iff. lia.
  - apply before_head. rewrite !b2z_tag by lia. lia.
Qed.

(** The indices in the order of their keys. *)
Definition index_lt (i j : nat) : Prop :=
  (0 < i < j)%nat ∨ (0 < i < 0x80 ∧ j = 0)%nat ∨ (i = 0 ∧ 0x80 <= j)%nat.

Definition index_key (i : nat) : bytes := enc_uint (Z.of_nat i).

Lemma index_before i j : Z.of_nat i < two64 → Z.of_nat j < two64 → index_lt i j → before (index_key i) (index_key j).
Proof.
  unfold index_key. intros Hi Hj Hlt. assert (∀ n, (0x80 <= n)%nat → Z.of_nat n < two64 →
    ∃ r, enc_uint (Z.of_nat n) = z2b (0x80 + Z.of_nat (length (putint (Z.of_nat n)))) :: r ∧ (1 <= length (putint (Z.of_nat n)) <= 8)%nat) as Hbig.
  { intros n Hn Hu. eexists. split; [apply enc_uint_big; lia|]. rewrite length_putint by lia. apply intsize_range. lia. }
  destruct Hlt as [Hlt|[[Hlt ->]|[-> Hlt]]].
  - destruct (decide (i < 0x80)%nat); [|apply enc_uint_before; lia]. rewrite (enc_uint_small (Z.of_nat i)) by lia.
    destruct (decide (j < 0x80)%nat).
    + rewrite enc_uint_small by lia. apply before_head. rewrite !b2z_tag; lia.
    + destruct (Hbig j) as (r & -> & Hr); [lia | done|]. apply before_head. rewrite !b2z_tag; lia.
  - change (enc_uint (Z.of_nat 0)) with [Byte.x80]. rewrite enc_uint_small by lia. apply before_head. rewrite b2z_tag by lia. cbn. lia.
  - destruct (Hbig j Hlt Hj) as (r & -> & Hr). change (enc_uint (Z.of_nat 0)) with [Byte.x80]. apply before_head. rewrite b2z_tag by lia. cbn. lia.
Qed.

Lemma StronglySorted_join {A} (R : A → A → Prop) l1 l2 :
  StronglySorted R l1 → StronglySorted R l2 → (∀ x y, x ∈ l1 → y ∈ l2 → R x y) → StronglySorted R (l1 ++ l2).
Proof.
  intros H1 H2 H. induction H1 as [|x l1 H1 IH Hx]; [done|]. cbn. constructor.
  - apply IH. intros. apply H; [by right | done].
  - apply Forall_app. split; [done|]. apply list.Forall_forall. intros y Hy. apply H; [by left | done].
Qed.

Lemma StronglySorted_seq (R : nat → nat → Prop) s n :
  (∀ i j, (s <= i < j)%nat → (j < s + n)%nat → R i j) → StronglySorted R (seq s n).
Proof.
  revert s. induction n as [|n IH]; intros s HR; cbn [seq]; constructor.
  - apply IH. intros. apply HR; lia.
  - apply list.Forall_forall. intros j Hj%elem_of_seq. apply HR; lia.
Qed.

Lemma derive_order_sorted values : StronglySorted index_lt (derive_order values).
Proof.
  unfold derive_order, index_lt. apply StronglySorted_join; [|apply StronglySorted_join|].
  - apply StronglySorted_seq. lia.
  - case_decide; repeat constructor.
  - apply StronglySorted_seq. lia.
  - intros x y Hx Hy%elem_of_seq. case_decide; [|by apply not_elem_of_nil in Hx]. apply list_elem_of_singleton in Hx as ->. lia.
  - intros x y Hx%elem_of_seq Hy. apply elem_of_app in Hy as [Hy|Hy%elem_of_seq]; [|lia].
    case_decide; [|by apply not_elem_of_nil in Hy]. apply list_elem_of_singleton in Hy as ->. lia.
Qed.

Lemma derive_order_perm values : derive_order values ≡ₚ seq 0 (length values).
Proof.
  unfold derive_order. apply NoDup_Permutation.
  - apply NoDup_app. split; [apply NoDup_seq|]. split.
    + intros x Hx%elem_of_seq [Hy|Hy%elem_of_seq]%elem_of_app; [|lia]. case_decide; [|by apply not_elem_of_nil in Hy].
      apply list_elem_of_singleton in Hy as ->. lia.
    + apply NoDup_app. split; [case_decide; [apply NoDup_singleton | constructor]|]. split; [|apply NoDup_seq].
      intros x Hx. case_decide; [|by apply not_elem_of_nil in Hx]. apply list_elem_of_singleton in Hx as ->. rewrite elem_of_seq. lia.
  - apply NoDup_seq.
  - intros x. rewrite !elem_of_app, !elem_of_seq. case_decide as Hl.
    + rewrite list_elem_of_singleton. lia.
    + rewrite elem_of_nil. lia.
Qed.

(** ** DeriveSha *)

(** The reference: the encoded indices mapped to the values. *)
Definition index_map (values : list bytes) : gmap bytes bytes :=
  list_to_map (imap (λ i v, (index_key i, v)) values).

Definition value_ok (v : bytes) : Prop := v ≠ [] ∧ Z.of_nat (length v) <= 2 ^ 56.

Definition list_ok (values : list bytes) : Prop :=
  Forall value_ok values ∧ Z.of_nat (length values) < 2 ^ 63.

Lemma index_key_inj i j : Z.of_nat i < two64 → Z.of_nat j < two64 → index_key i = index_key j → i = j.
Proof.
  unfold index_key, enc_uint. intros Hi Hj E. assert (Str (big_Bytes (Z.of_nat i)) = Str (big_Bytes (Z.of_nat j))) as [= Eb].
  { apply enc_inj; [|exact E]. cbn [enc]. pose proof (length_enc_str (big_Bytes (Z.of_nat i))) as Hl.
    assert (length (big_Bytes (Z.of_nat i)) <= 8)%nat.
    { destruct (decide (i = 0%nat)) as [->|]; [apply Nat.leb_le; reflexivity|]. rewrite big_Bytes_putint, length_putint by lia.
      apply (intsize_range (Z.of_nat i)). lia. }
    rewrite two64_val in *. lia. }
  apply (f_equal SetBytes) in Eb. rewrite !SetBytes_big_Bytes in Eb by lia. lia.
Qed.

Definition index_entry (values : list bytes) (i : nat) : bytes * bytes := (index_key i, default [] (values !! i)).

Lemma imap_entries values : imap (λ i v, (index_key i, v)) values = index_entry values <$> seq 0 (length values).
Proof.
  apply list_eq. intros i. rewrite list_lookup_imap, list_lookup_fmap. destruct (values !! i) as [v|] eqn:E.
  - assert (i < length values)%nat by (by apply lookup_lt_Some in E). rewrite lookup_seq_lt by done. cbn. unfold index_entry. by rewrite E.
  - rewrite lookup_seq_ge by (by apply lookup_ge_None in E). done.
Qed.

Lemma list_ok_u64 values i : list_ok values → (i < length values)%nat → Z.of_nat i < two64.
Proof. intros [_ Hl] Hi. rewrite two64_val. lia. Qed.

Lemma entries_NoDup_keys values l :
  list_ok values → NoDup l → (∀ i, i ∈ l → (i < length values)%nat) → NoDup (index_entry values <$> l).*1.
Proof.
  intros Hok Hnd Hl. rewrite <-list_fmap_compose. eapply (NoDup_fmap_2_strong _); [|done].
  intros i j Hi Hj E. apply index_key_inj; [by eapply list_ok_u64; eauto.. | exact E].
Qed.

Lemma derive_order_range values i : i ∈ derive_order values → (i < length values)%nat.
Proof. rewrite derive_order_perm, elem_of_seq. lia. Qed.

Lemma put_map_list kvs : ∀ m, put_map m kvs = list_to_map (reverse kvs) ∪ m.
Proof.
  induction kvs as [|[k v] kvs IH]; intros m; [cbn; by rewrite left_id_L by apply _|].
  rewrite reverse_cons, list_to_map_app. cbn. fold (put_map (<[k := v]> m) kvs). rewrite IH, insert_union_singleton_l, assoc_L by apply _.
  by rewrite insert_empty.
Qed.

Lemma put_map_order values : list_ok values → put_map ∅ (index_entry values <$> derive_order values) = index_map values.
Proof.
  intros Hok. rewrite put_map_list, right_id_L by apply _. unfold index_map. rewrite imap_entries. apply list_to_map_proper.
  - rewrite fmap_reverse. rewrite reverse_Permutation. apply entries_NoDup_keys; [done | |apply derive_order_range].
    rewrite derive_order_perm. apply NoDup_seq.
  - rewrite reverse_Permutation. f_equiv. apply derive_order_perm.
Qed.

Lemma derive_updates values l : ∀ t t',
  list_ok values → (∀ i, i ∈ l → (i < length values)%nat) →
  put_all t (index_entry values <$> l) = Ok t' → foldl (derive_update values) (Ok t) l = Ok t'.
Proof.
  induction l as [|i l IH]; intros t t' Hok Hl Hput; [by injection Hput as ->|]. rewrite fmap_cons in Hput. unfold index_entry at 1 in Hput.
  rewrite put_all_cons in Hput. assert (i < length values)%nat as Hi by (apply Hl; by left).
  destruct (lookup_lt_is_Some_2 values i Hi) as [v Hv]. rewrite Hv in Hput. cbn [default] in Hput.
  pose proof (list_ok_u64 values i Hok Hi). cbn [foldl]. unfold derive_update at 2. cbn [mbind res_bind]. rewrite Hv.
  rewrite AppendUint64_enc by (unfold is_u64; lia). cbn [app]. fold (index_key i). cbn [from_option id] in Hput.
  destruct (stack_Update t (index_key i) v) as [t1|e|]; cbn [mbind res_bind] in Hput; try done.
  apply IH; [done | intros; apply Hl; by right | done].
Qed.

Lemma index_entry_ok values i : list_ok values → (i < length values)%nat → entry_ok (index_entry values i).
Proof.
  intros Hok Hi. destruct (lookup_lt_is_Some_2 values i Hi) as [v Hv]. pose proof (list_ok_u64 values i Hok Hi) as Hu.
  destruct Hok as [Hall _]. destruct (proj1 (list.Forall_lookup _ _) Hall i v Hv) as [Hne Hlen].
  unfold entry_ok, index_entry. rewrite Hv. cbn [fst snd default from_option id].
  assert (index_key i ≠ []) as Hk by (unfold index_key, enc_uint; pose proof (enc_nonempty (Str (big_Bytes (Z.of_nat i)))) as Hn;
    cbn [enc] in Hn; intros E; rewrite E in Hn; cbn in Hn; lia).
  split; [done|]. split; [done|]. split; [|done]. unfold index_key. destruct (decide (i < 0x80)%nat).
  - destruct (decide (i = 0%nat)) as [->|]; [change (enc_uint (Z.of_nat 0)) with [Byte.x80] | rewrite enc_uint_small by lia]; cbn; lia.
  - rewrite enc_uint_big by lia. cbn [length]. rewrite length_putint by lia. pose proof (intsize_range (Z.of_nat i)). lia.
Qed.

Lemma index_keys_sorted values l :
  list_ok values → (∀ i, i ∈ l → (i < length values)%nat) → StronglySorted index_lt l → Sorted before (index_entry values <$> l).*1.
Proof.
  intros Hok Hl Hs. apply StronglySorted_Sorted. induction Hs as [|i l Hs IH Hi]; [constructor|]. rewrite !fmap_cons. constructor.
  - apply IH. intros. apply Hl. by right.
  - apply Forall_fmap, Forall_fmap, list.Forall_forall. intros j Hj. cbn. rewrite list.Forall_forall in Hi.
    apply index_before; [eapply list_ok_u64; [done|]; apply Hl; by left | eapply list_ok_u64; [done|]; apply Hl; by right | by apply Hi].
Qed.

Lemma DeriveSha_index values hasher : list_ok values → DeriveSha values hasher = Ok (root_of (index_map values)).
Proof.
  intros Hok. destruct (put_all_ok (index_entry values <$> derive_order values) (stack_Reset hasher) ∅) as (t & Hput & Hrep & Hsm & _).
  - by apply stack_rep_empty.
  - apply small_empty.
  - apply Forall_fmap, list.Forall_forall. intros i Hi. cbn. apply index_entry_ok; [done | by apply derive_order_range].
  - apply index_keys_sorted; [done | apply derive_order_range | apply derive_order_sorted].
  - intros Hne. by destruct Hne.
  - rewrite put_map_order in * by done. destruct (stack_Hash_ok t _ Hrep Hsm) as (t' & Hh & _). unfold DeriveSha.
    rewrite (derive_updates values _ _ t); [|done | apply derive_order_range | done]. cbn [mbind res_bind]. by rewrite Hh.
Qed.

Lemma index_map_lookup values i : list_ok values → Z.of_nat i < two64 → index_map values !! index_key i = values !! i.
Proof.
  intros Hok Hi. unfold index_map. apply option_eq. intros v.
  assert (NoDup (imap (λ i v, (index_key i, v)) values).*1) as Hnd.
  { rewrite imap_entries. apply entries_NoDup_keys; [done | apply NoDup_seq | intros j Hj%elem_of_seq; lia]. }
  rewrite <-elem_of_list_to_map by done. split.
  - intros (j & w & E & Hw)%elem_of_lookup_imap_1. injection E as Ek ->.
    apply index_key_inj in Ek as ->; [done | done | eapply list_ok_u64; [done | by eapply lookup_lt_Some]].
  - intros Hv. apply elem_of_lookup_imap. by exists i, v.
Qed.

Lemma index_map_ok values : list_ok values → values_ok (index_map values) ∧ small (index_map values).
Proof.
  intros Hok. assert (∀ k v, index_map values !! k = Some v → ∃ i, (i < length values)%nat ∧ (k, v) = index_entry values i) as Hin.
  { intros k v Hk. unfold index_map in Hk. apply elem_of_list_to_map_2 in Hk. rewrite imap_entries in Hk.
    apply list_elem_of_fmap in Hk as (i & -> & Hi%elem_of_seq). exists i. split; [lia | done]. }
  split; intros k v (i & Hi & E)%Hin; pose proof (index_entry_ok values i Hok Hi) as (_ & H1 & H2); rewrite <-E in *; done.
Qed.

Lemma index_map_inj l1 l2 : list_ok l1 → list_ok l2 → index_map l1 = index_map l2 → l1 = l2.
Proof.
  intros H1 H2 E. apply list_eq. intros i. destruct (decide (Z.of_nat i < two64)).
  - rewrite <-!index_map_lookup by done. by rewrite E.
  - destruct H1 as [_ H1], H2 as [_ H2]. rewrite two64_val in *. rewrite !lookup_ge_None_2 by lia. done.
Qed.

(** ** Properties *)

Definition trie_puts `{NodeDatabase} (kvs : list (bytes * bytes)) : Trie :=
  snd (run empty_Trie ((λ '(key, v), CUpdate key v) <$> kvs)).

Lemma run_map_puts kvs : ∀ m, Forall entry_ok kvs → snd (run_map m ((λ '(key, v), CUpdate key v) <$> kvs)) = put_map m kvs.
Proof.
  induction kvs as [|[key v] kvs IH]; intros m Hok; [done|]. apply Forall_cons_1 in Hok as [(_ & Hv & _) Hok].
  rewrite fmap_cons. cbn [run_map map_call]. unfold map_put. rewrite decide_False by done. cbn [put_map foldl].
  fold (put_map (<[key := v]> m) kvs). rewrite <-(IH (<[key := v]> m) Hok). by destruct (run_map _ _).
Qed.

Lemma trie_puts_rep `{NodeDatabase} kvs : Forall entry_ok kvs → trie_rep (trie_puts kvs) (put_map ∅ kvs).
Proof.
  intros Hok. rewrite <-run_map_puts by done. apply run_rep; [apply empty_rep | apply small_empty|].
  apply Forall_fmap. eapply Forall_impl; [done|]. by intros [k v] (_ & _ & ?).
Qed.

Lemma recorded_holds `{NodeDatabase} E m :
  (∀ path hash blob, (path, hash, blob) ∈ E → reader_Node path hash = Some blob) →
  recorded E [] (tree_of m) → db_holds m.
Proof. intros Hdb Hrec q t Hq [Hw Hl]. by apply Hdb, Hrec. Qed.

Lemma put_map_nonempty kvs : ∀ m, m ≠ ∅ → put_map m kvs ≠ ∅.
Proof. induction kvs as [|[k v] kvs IH]; intros m Hm; [done|]. apply IH, insert_non_empty. Qed.

(** C12: The stack trie agrees with the trie: entries in ascending order of keys, no key a
    prefix of the next, are all accepted, and the hash at the end is the one the ordinary
    trie has after the same updates, although the stack trie has hashed and dropped
    everything left of the last key on the way. A database with the nodes given to the
    callback holds the trie of the entries. *)
Theorem StackTrie_equals_Trie `{NodeDatabase} kvs :
  Forall entry_ok kvs → Sorted before (fst <$> kvs) →
  ∃ t h t', put_all (NewStackTrie true) kvs = Ok t ∧ stack_Hash t = Ok (h, t') ∧
    fst <$> Trie_Hash (trie_puts kvs) = Ok h ∧
    (kvs ≠ [] → (∀ path hash blob, (path, hash, blob) ∈ st_written t' → reader_Node path hash = Some blob) →
     db_holds (put_map ∅ kvs)).
Proof.
  intros Hok Hs. destruct (put_all_ok kvs (NewStackTrie true) ∅) as (t & Hput & Hrep & Hsm & Hcb);
    [by apply stack_rep_empty | apply small_empty | done | done | intros Hne; by destruct Hne|].
  destruct (stack_Hash_ok t _ Hrep Hsm) as (t' & Hh & Hrec). exists t, (root_of (put_map ∅ kvs)), t'.
  destruct (Hash_rep (trie_puts kvs) _ (trie_puts_rep kvs Hok) Hsm) as (tr & Htr & _).
  split; [exact Hput|]. split; [exact Hh|]. split; [rewrite Htr; reflexivity|]. intros Hne Hdb.
  assert (put_map ∅ kvs ≠ ∅) as Hm 
    by (clear -Hne; destruct kvs as [|[k v] kvs]; [by destruct Hne | exact (put_map_nonempty kvs _ (insert_non_empty ∅ k v))]).
  exact (recorded_holds (st_written t') _ Hdb (Hrec Hm Hcb)).
Qed.

(** [DeriveSha] of a list is the root of the trie that maps the RLP encoding of every
    index to the encoded element, whatever the state of the hasher it is given: its three
    loops visit the indices in the order of their keys, so the stack trie takes them all. *)
Theorem DeriveSha_root values hasher :
  list_ok values → DeriveSha values hasher = Ok (root_of (index_map values)).
Proof. apply DeriveSha_index. Qed.

(** C22: [DeriveSha] commits to the list: lists with the same hash are equal, in length, order
    and elements, if no node of the one trie has the hash of a different node of the other. *)
Theorem DeriveSha_binds l1 l2 hasher1 hasher2 :
  list_ok l1 → list_ok l2 → no_collision (tree_of (index_map l1)) (tree_of (index_map l2)) →
  DeriveSha l1 hasher1 = DeriveSha l2 hasher2 → l1 = l2.
Proof.
  intros H1 H2 Hc E. rewrite !DeriveSha_index in E by done. injection E as E. apply index_map_inj; [done..|].
  destruct (index_map_ok l1 H1), (index_map_ok l2 H2). by apply root_of_inj.
Qed.

(** ** Witnesses *)

Definition ex_kvs : list (bytes * bytes) :=
  [(ex_key [0x12; 0x34], replicate 40 Byte.x01); (ex_key [0x12; 0x35], [Byte.x07]); (ex_key [0x52], replicate 40 Byte.x02)].

Lemma ex_kvs_ok : Forall entry_ok ex_kvs ∧ Sorted before (fst <$> ex_kvs).
Proof.
  split.
  - repeat constructor; try (intros E; discriminate E); apply Z.ltb_lt || apply Z.leb_le; reflexivity.
  - repeat constructor.
    + exists [], (z2b 0x12), (z2b 0x52), (ex_key [0x35]), []. split_and!; [reflexivity..|]. by apply Z.ltb_lt.
    + exists (ex_key [0x12]), (z2b 0x34), (z2b 0x35), [], []. split_and!; [reflexivity..|]. by apply Z.ltb_lt.
Qed.

Lemma StackTrie_equals_Trie_witness :
  ∃ t h t', put_all (NewStackTrie true) ex_kvs = Ok t ∧ stack_Hash t = Ok (h, t') ∧
    fst <$> Trie_Hash (@trie_puts ex_db ex_kvs) = Ok h.
Proof.
  destruct ex_kvs_ok as [H1 H2]. destruct (@StackTrie_equals_Trie ex_db ex_kvs H1 H2) as (t & h & t' & Ha & Hb & Hc & _).
  exists t, h, t'. split; [exact Ha|]. split; [exact Hb | exact Hc].
Defined.

Definition ex_values : list bytes := [replicate 40 Byte.x01; [Byte.x05]; replicate 3 Byte.x02].

Lemma ex_values_ok : list_ok ex_values.
Proof.
  split; [|apply Z.ltb_lt; reflexivity].
  repeat constructor; try (intros E; discriminate E); apply Z.leb_le; reflexivity.
Qed.

Lemma DeriveSha_root_witness :
  DeriveSha ex_values (NewStackTrie false) = Ok (root_of (index_map ex_values)).
Proof. apply DeriveSha_root. exact ex_values_ok. Defined.

(** A list of one element: its trie is a single leaf. *)
Definition ex_single : list bytes := [replicate 40 Byte.x01].

Lemma ex_single_ok : list_ok ex_single.
Proof.
  split; [|apply Z.ltb_lt; reflexivity].
  repeat constructor; try (intros E; discriminate E); apply Z.leb_le; reflexivity.
Qed.

Lemma ex_single_tree : tree_of (index_map ex_single) = TShort (ex_key [8; 0; 16]) (TValue (replicate 40 Byte.x01)).
Proof. vm_compute. reflexivity. Qed.

Lemma leaf_no_collision k v : no_collision (TShort k (TValue v)) (TShort k (TValue v)).
Proof.
  assert (∀ s, hashed (TShort k (TValue v)) s → s = TShort k (TValue v)) as Hs.
  { intros s [->|[Hs [Hw _]]]; [done|]. inversion Hs as [|? ? ? Hs'|]; subst; [done|]. inversion Hs'; subst. destruct Hw. }
  by intros s1 s2 ->%Hs ->%Hs.
Qed.

Lemma DeriveSha_binds_witness : ex_single = ex_single.
Proof.
  apply (DeriveSha_binds ex_single ex_single (NewStackTrie false) (NewStackTrie true));
    [exact ex_single_ok | exact ex_single_ok | rewrite ex_single_tree; apply leaf_no_collision|].
  rewrite !DeriveSha_index by exact ex_single_ok. reflexivity.
Defined.

(** A key that extends the last one is not accepted: the code panics. *)
Example ex_prefix_panics :
  put_all (NewStackTrie false) [(ex_key [0x12], [Byte.x01]); (ex_key [0x12; 0x34], [Byte.x02])] = Panic.
Proof. vm_compute. reflexivity. Qed.
