(* ===== verification/TxRoot.v ===== *)
(** * The transactions root

    [Transactions.EncodeIndex] and [DeriveSha] of a list of transactions, the [TxHash] of a
    block: it commits to the transactions and their order. *)
From Stdlib Require Import ZArith Lia.
From Stdlib Require Strings.Byte.
From stdpp Require Import base tactics decidable list numbers gmap.
From S2P Require Import Prelude Keccak Common Rlp HexKeys RadixTree Trie TrieFacts TrieMap TrieSpec StackTrie StackSpec.
From S2P Require Import Types Transactions Stream StreamFacts Codec CodecFacts WriterFacts TxCodec TxCodecFacts TxWire.

(** What [EncodeIndex] leaves in the buffer: the errors of the encoder are dropped. *)
Definition EncodeIndex (tx : TxData) : res () bytes :=
  let written (r : res codec_error bytes) : res () bytes :=
    match r with Ok b => Ok b | Err _ => Ok [] | Panic => Panic end in
  if decide (txType tx = LegacyTxType) then written (rlp_Encode T_LegacyTx (tx_val tx))
  else b ← written (tx_encode tx); Ok (z2b (txType tx) :: b).

Definition TxsRoot (txs : list TxData) (hasher : StackTrie) : res () Hash :=
  values ← mapM EncodeIndex txs;
  DeriveSha values hasher.

Lemma EncodeIndex_bytes tx : tx_ok tx → blen (tx_bytes tx) <= maxAlloc → EncodeIndex tx = Ok (tx_bytes tx).
Proof.
  intros Hok Ha. pose proof (MarshalBinary_bytes tx Hok Ha) as E. unfold MarshalBinary in E. unfold EncodeIndex.
  case_decide; [by rewrite E|]. unfold encodeTyped in E. destruct (tx_encode tx) as [b| |]; try done. cbn [mbind res_bind] in *. congruence.
Qed.

Definition txs_ok (txs : list TxData) : Prop :=
  Forall (λ tx, tx_ok tx ∧ blen (tx_bytes tx) <= maxAlloc) txs ∧ Z.of_nat (length txs) < 2 ^ 63.

Lemma EncodeIndex_all txs : txs_ok txs → mapM EncodeIndex txs = Ok (tx_bytes <$> txs).
Proof.
  intros [Hall _]. induction Hall as [|tx txs [Hok Ha] _ IH]; [done|]. cbn [mapM mbind res_bind].
  rewrite EncodeIndex_bytes by done. cbn [mbind res_bind]. by rewrite IH.
Qed.

Lemma tx_bytes_nonempty tx : tx_bytes tx ≠ [].
Proof.
  unfold tx_bytes. case_decide; [|done]. unfold tx_payload. intros E. pose proof (enc_nonempty (Lst (tx_items tx))) as Hn. rewrite E in Hn. cbn in Hn. lia.
Qed.

Lemma txs_list_ok txs : txs_ok txs → list_ok (tx_bytes <$> txs).
Proof.
  intros [Hall Hl]. split; [|by rewrite length_fmap]. apply Forall_fmap. eapply Forall_impl; [done|]. intros tx [_ Ha]. cbn.
  split; [apply tx_bytes_nonempty|]. unfold blen, maxAlloc in Ha. lia.
Qed.

Lemma tx_bytes_inj txs1 txs2 : txs_ok txs1 → txs_ok txs2 → tx_bytes <$> txs1 = tx_bytes <$> txs2 → txs1 = txs2.
Proof.
  intros [H1 _] [H2 _] E. revert txs2 H2 E. induction H1 as [|tx txs1 [Hok Ha] _ IH]; intros [|tx2 txs2] H2 E; try done.
  rewrite !fmap_cons in E. injection E as Et E. apply Forall_cons_1 in H2 as [[Hok2 Ha2] H2]. f_equal; [|by apply IH].
  pose proof (UnmarshalBinary_bytes tx Hok Ha) as U1. pose proof (UnmarshalBinary_bytes tx2 Hok2 Ha2) as U2. congruence.
Qed.

(** C11: The transactions root of a block commits to its transactions: two lists with the same
    root are the same transactions, field by field and signatures included, in the same
    order, if no node of the one trie has the hash of a different node of the other. *)
Theorem TxsRoot_binds txs1 txs2 hasher1 hasher2 h :
  txs_ok txs1 → txs_ok txs2 →
  no_collision (tree_of (index_map (tx_bytes <$> txs1))) (tree_of (index_map (tx_bytes <$> txs2))) →
  TxsRoot txs1 hasher1 = Ok h → TxsRoot txs2 hasher2 = Ok h → txs1 = txs2.
Proof.
  intros H1 H2 Hc E1 E2. unfold TxsRoot in *. rewrite EncodeIndex_all in E1, E2 by done. cbn [mbind res_bind] in *.
  pose proof (txs_list_ok txs1 H1) as L1. pose proof (txs_list_ok txs2 H2) as L2.
  rewrite DeriveSha_index in E1, E2 by done. apply tx_bytes_inj; [done..|]. apply index_map_inj; [done..|].
  destruct (index_map_ok _ L1), (index_map_ok _ L2). apply root_of_inj; [done..|]. congruence.
Qed.

(** The root of the list of a blob transaction. *)
Definition ex_txs : list TxData := [ex_blob None].

Lemma ex_txs_ok : txs_ok ex_txs.
Proof. split; [|apply Z.ltb_lt; reflexivity]. constructor; [|constructor]. split; [exact ex_blob_None_ok | by vm_compute]. Qed.

Lemma ex_txs_leaf : ∃ k v, tree_of (index_map (tx_bytes <$> ex_txs)) = TShort k (TValue v).
Proof. eexists _, _. vm_compute. reflexivity. Qed.

Lemma TxsRoot_binds_witness : ∃ h, TxsRoot ex_txs (NewStackTrie false) = Ok h ∧ ex_txs = ex_txs.
Proof.
  assert (∀ hasher, TxsRoot ex_txs hasher = Ok (root_of (index_map (tx_bytes <$> ex_txs)))) as E.
  { intros hasher. unfold TxsRoot. rewrite EncodeIndex_all by exact ex_txs_ok. cbn [mbind res_bind].
    apply DeriveSha_index, txs_list_ok, ex_txs_ok. }
  eexists. split; [exact (E _)|].
  refine (TxsRoot_binds ex_txs ex_txs (NewStackTrie false) (NewStackTrie true) _ ex_txs_ok ex_txs_ok _ (E _) (E _)).
  destruct ex_txs_leaf as (k & v & ->). apply leaf_no_collision.
Defined.
