(* ===== verification/Merkle.v ===== *)
(** * Merkle roots and SPV proofs of the relay

    [computeRootHash], [SPVProof] and [VerifySPV] of [HZKA/relay/committer.go]. The
    reference is a perfect binary tree read off the list of leaves; [VerifySPV] is
    complete for the trees that [computeRootHash] builds, and accepting anything else at
    a position of the tree exhibits a collision of Keccak-256. *)
From Stdlib Require Import ZArith Lia.
From Stdlib Require Strings.Byte.
From stdpp Require Import base tactics decidable list numbers.
From S2P Require Import Prelude Keccak Common Rlp Types.

(** [common.BytesToHash(crypto.Keccak256(append(l.Bytes(), r.Bytes()...)))]. *)
Definition node (l r : Hash) : Hash := BytesToHash (Keccak256 [l ++ r]).

(** ** computeRootHash *)

(** [Err] stands for a loop that has not ended within its fuel. *)
Inductive merkle_error : Type := OutOfFuel.

(** [len(current)&(len(current)-1) != 0]. *)
Definition not_power_of_2 (n : Z) : bool := bool_decide (Z.land n (n - 1) ≠ 0).

Fixpoint pad_loop (fuel : nat) (current : list Hash) : res merkle_error (list Hash) :=
  if not_power_of_2 (Z.of_nat (length current)) then
    match fuel with
    | O => Err OutOfFuel
    | S fuel => pad_loop fuel (current ++ [Hash0])
    end
  else Ok current.

(** One level: [next[i/2]] from [current[i]] and [current[i+1]]; with an odd number of
    hashes the last access is out of range. *)
Fixpoint next_level (current : list Hash) : res merkle_error (list Hash) :=
  match current with
  | [] => Ok []
  | [_] => Panic
  | l :: r :: current => next ← next_level current; Ok (node l r :: next)
  end.

Fixpoint build_loop (fuel : nat) (current : list Hash) : res merkle_error Hash :=
  if decide (1 < length current)%nat then
    match fuel with
    | O => Err OutOfFuel
    | S fuel => next ← next_level current; build_loop fuel next
    end
  else match current with h :: _ => Ok h | [] => Panic end.

(** The number of hashes is enough fuel for both loops: padding less than doubles it
    and every level halves it. *)
Definition computeRootHash (hashes : list Hash) : res merkle_error Hash :=
  match hashes with
  | [] => Ok Hash0
  | [h] => Ok h
  | _ =>
      current ← pad_loop (length hashes) hashes;
      build_loop (length hashes) current
  end.

(** ** SPV proofs *)

Record SPVProof : Type := MkSPVProof {
  sp_TxHash : Hash;
  MerkleRoot : Hash;
  MerklePath : list Hash;
  PathIndices : list bool;
  BlockHeader : option Header
}.

Fixpoint spv_loop (i : nat) (indices : list bool) (path : list Hash) (currentHash : Hash) : res merkle_error Hash :=
  match path with
  | [] => Ok currentHash
  | sibling :: path =>
      match indices !! i with
      | None => Panic
      | Some true => spv_loop (S i) indices path (node sibling currentHash)
      | Some false => spv_loop (S i) indices path (node currentHash sibling)
      end
  end.

Definition VerifySPV (proof : SPVProof) : res merkle_error bool :=
  currentHash ← spv_loop 0 (PathIndices proof) (MerklePath proof) (sp_TxHash proof);
  Ok (bool_decide (currentHash = MerkleRoot proof)).

(** ** The reference tree *)

Arguments node : simpl never.
Arguments Nat.pow : simpl never.

(** The root of the perfect tree of depth [d] over the first 2^d leaves. *)
Fixpoint mroot (d : nat) (leaves : list Hash) : Hash :=
  match d with
  | O => hd Hash0 leaves
  | S d => node (mroot d (take (2 ^ d) leaves)) (mroot d (drop (2 ^ d) leaves))
  end.

(** Leaves padded with zero hashes to the next power of two. *)
Definition depth (hashes : list Hash) : nat := Nat.log2_up (length hashes).
Definition padded (hashes : list Hash) : list Hash :=
  hashes ++ replicate (2 ^ depth hashes - length hashes) Hash0.

Fixpoint pairs (l : list Hash) : list Hash :=
  match l with
  | x :: y :: l => node x y :: pairs l
  | _ => []
  end.

Lemma next_level_pairs k l : length l = (2 * k)%nat → next_level l = Ok (pairs l).
Proof.
  revert l. induction k as [|k IH]; intros [|x [|y l]] Hl; cbn [length] in Hl; try lia; [done|].
  cbn [next_level pairs]. rewrite IH by lia. done.
Qed.

Lemma length_pairs k l : length l = (2 * k)%nat → length (pairs l) = k.
Proof.
  revert l. induction k as [|k IH]; intros [|x [|y l]] Hl; cbn [length] in Hl; try lia; [done|].
  cbn [pairs length]. rewrite IH; lia.
Qed.

Lemma pairs_take k l : pairs (take (2 * k) l) = take k (pairs l).
Proof.
  revert l. induction k as [|k IH]; intros l; [done|].
  replace (2 * S k)%nat with (S (S (2 * k))) by lia.
  destruct l as [|x [|y l]]; [done|done|]. cbn [take pairs]. by rewrite IH.
Qed.

Lemma pairs_drop k l : pairs (drop (2 * k) l) = drop k (pairs l).
Proof.
  revert l. induction k as [|k IH]; intros l; [done|].
  replace (2 * S k)%nat with (S (S (2 * k))) by lia.
  destruct l as [|x [|y l]]; [done|done|]. cbn [drop pairs]. by rewrite IH.
Qed.

Lemma pow2_S d : (2 ^ S d = 2 * 2 ^ d)%nat.
Proof. apply Nat.pow_succ_r'. Qed.

Lemma pow2_pos d : (0 < 2 ^ d)%nat.
Proof. apply Nat.neq_0_lt_0, Nat.pow_nonzero. lia. Qed.

Lemma mroot_pairs d l : length l = (2 ^ S d)%nat → mroot (S d) l = mroot d (pairs l).
Proof.
  revert l. induction d as [|d IH]; intros l Hl.
  - change (2 ^ 1)%nat with 2%nat in Hl. destruct l as [|x [|y [|]]]; cbn in Hl; try lia. done.
  - rewrite pow2_S in Hl. pose proof (pow2_S d).
    change (mroot (S (S d)) l) with (node (mroot (S d) (take (2 ^ S d) l)) (mroot (S d) (drop (2 ^ S d) l))).
    rewrite !IH by (rewrite ?length_take, ?length_drop; lia).
    rewrite pow2_S, pairs_take, pairs_drop. done.
Qed.

Lemma build_loop_mroot d fuel l :
  length l = (2 ^ d)%nat → (d <= fuel)%nat → build_loop fuel l = Ok (mroot d l).
Proof.
  revert fuel l. induction d as [|d IH]; intros fuel l Hl Hf.
  - change (2 ^ 0)%nat with 1%nat in Hl. destruct l as [|x [|]]; cbn in Hl; try lia. by destruct fuel.
  - pose proof (pow2_pos d). rewrite pow2_S in Hl. destruct fuel as [|fuel]; [lia|].
    cbn [build_loop]. rewrite decide_True by lia. rewrite (next_level_pairs (2 ^ d)) by done.
    cbn [mbind res_bind]. rewrite (IH fuel), mroot_pairs by (rewrite ?(length_pairs (2 ^ d)), ?pow2_S; lia). done.
Qed.

Lemma land_pow2 k : 0 <= k → Z.land (2 ^ k) (2 ^ k - 1) = 0.
Proof.
  intros Hk. replace (2 ^ k - 1) with (Z.ones k) by (rewrite Z.ones_equiv; lia).
  rewrite Z.land_ones, Z.mod_same by (try apply Z.pow_nonzero; lia). done.
Qed.

(** Strictly between two powers of two the masks share the top bit. *)
Lemma land_not_pow2 k n : 0 <= k → 2 ^ k < n < 2 ^ (k + 1) → Z.land n (n - 1) ≠ 0.
Proof.
  intros Hk Hn E. apply (f_equal (λ z, Z.testbit z k)) in E.
  rewrite Z.land_spec, Z.bits_0 in E.
  assert (∀ z, 2 ^ k <= z < 2 ^ (k + 1) → Z.testbit z k = true) as Hb.
  { intros z Hz. replace k with (Z.log2 z) at 1; [|apply Z.log2_unique; [lia|]; by rewrite Z.add_1_r in *].
    apply Z.bit_log2. pose proof (Z.pow_pos_nonneg 2 k). lia. }
  rewrite !Hb in E by lia. done.
Qed.

Lemma Z_of_nat_pow2 d : Z.of_nat (2 ^ d) = 2 ^ Z.of_nat d.
Proof. by rewrite Nat2Z.inj_pow. Qed.

Lemma pad_loop_spec d fuel l :
  (2 ^ d < length l <= 2 ^ S d)%nat → (2 ^ S d - length l <= fuel)%nat →
  pad_loop fuel l = Ok (l ++ replicate (2 ^ S d - length l) Hash0).
Proof.
  intros Hl. remember (2 ^ S d - length l)%nat as k eqn:Hk. revert fuel l Hl Hk.
  induction k as [|k IH]; intros fuel l Hl Hk Hf.
  - assert (not_power_of_2 (Z.of_nat (length l)) = false) as Hp.
    { apply bool_decide_eq_false. replace (length l) with (2 ^ S d)%nat by lia. rewrite Z_of_nat_pow2.
      intros Hn. apply Hn, land_pow2. lia. }
    cbn [replicate]. rewrite app_nil_r. destruct fuel; cbn [pad_loop]; by rewrite Hp.
  - destruct fuel as [|fuel]; [lia|]. cbn [pad_loop].
    assert (not_power_of_2 (Z.of_nat (length l)) = true) as ->.
    { apply bool_decide_eq_true, (land_not_pow2 (Z.of_nat d)); [lia|].
      replace (Z.of_nat d + 1) with (Z.of_nat (S d)) by lia. rewrite <-!Z_of_nat_pow2. lia. }
    rewrite IH by (rewrite ?length_app; cbn [length]; lia). by rewrite <-app_assoc.
Qed.

Lemma depth_spec hashes :
  (1 < length hashes)%nat → ∃ d, depth hashes = S d ∧ (2 ^ d < length hashes <= 2 ^ S d)%nat ∧ (S d <= length hashes)%nat.
Proof.
  intros Hl. unfold depth. destruct (Nat.log2_up_spec (length hashes) Hl) as [H1 H2].
  destruct (Nat.log2_up (length hashes)) as [|d] eqn:E; [change (2 ^ 0)%nat with 1%nat in H2; lia|].
  exists d. split_and!; [done|cbn in H1; lia|done|].
  rewrite <-E. apply Nat.lt_le_incl, Nat.log2_up_lt_lin. lia.
Qed.

(** [computeRootHash] ends and returns the root of the padded tree. *)
Lemma computeRootHash_mroot hashes :
  hashes ≠ [] → computeRootHash hashes = Ok (mroot (depth hashes) (padded hashes)).
Proof.
  intros Hne. destruct (decide (1 < length hashes)%nat) as [Hl|Hl].
  - destruct (depth_spec hashes Hl) as (d & Hd & Hb & Hfuel). unfold padded. rewrite Hd.
    assert (computeRootHash hashes = (current ← pad_loop (length hashes) hashes; build_loop (length hashes) current)) as ->.
    { destruct hashes as [|x [|y l]]; cbn in Hl; try lia. done. }
    rewrite (pad_loop_spec d) by (rewrite ?pow2_S in *; lia). cbn [mbind res_bind].
    apply build_loop_mroot; [rewrite length_app, length_replicate|]; lia.
  - destruct hashes as [|x [|y l]]; cbn in Hl; [done| |lia]. done.
Qed.

(** ** Paths of the tree *)

(** A step of a proof: the direction bit and the sibling. [climb] is the loop of
    [VerifySPV] without the indexing. *)
Definition climb1 (cur : Hash) (st : bool * Hash) : Hash :=
  if st.1 then node st.2 cur else node cur st.2.

Definition climb (cur : Hash) (steps : list (bool * Hash)) : Hash := foldl climb1 cur steps.

Lemma spv_loop_climb i before steps cur :
  i = length before → spv_loop i (before ++ steps.*1) steps.*2 cur = Ok (climb cur steps).
Proof.
  revert i before cur. induction steps as [|[b h] steps IH]; intros i before cur ->; [done|].
  cbn [fmap list_fmap spv_loop fst snd]. rewrite list_lookup_middle by done.
  rewrite (cons_middle b), app_assoc.
  destruct b; (rewrite IH; [done|rewrite length_app; cbn; lia]).
Qed.

Lemma spv_loop_start steps cur : spv_loop 0 steps.*1 steps.*2 cur = Ok (climb cur steps).
Proof. by apply (spv_loop_climb 0 []). Qed.

(** The proof for leaf [i]: siblings from the leaf to the root. *)
Fixpoint merkle_path (d i : nat) (leaves : list Hash) : list (bool * Hash) :=
  match d with
  | O => []
  | S d =>
      if decide (i < 2 ^ d)%nat
      then merkle_path d i (take (2 ^ d) leaves) ++ [(false, mroot d (drop (2 ^ d) leaves))]
      else merkle_path d (i - 2 ^ d) (drop (2 ^ d) leaves) ++ [(true, mroot d (take (2 ^ d) leaves))]
  end.

Lemma climb_merkle_path d i leaves h :
  length leaves = (2 ^ d)%nat → leaves !! i = Some h → climb h (merkle_path d i leaves) = mroot d leaves.
Proof.
  revert i leaves. induction d as [|d IH]; intros i leaves Hl Hi.
  - change (2 ^ 0)%nat with 1%nat in Hl. destruct leaves as [|x [|]]; cbn in Hl; try lia.
    apply list_lookup_singleton_Some in Hi as [-> ->]. done.
  - rewrite pow2_S in Hl. cbn [merkle_path mroot]. unfold climb in *. case_decide as E.
    + rewrite foldl_app. cbn [foldl]. rewrite IH; [done|rewrite length_take; lia|].
      by rewrite lookup_take_lt.
    + rewrite foldl_app. cbn [foldl]. rewrite IH; [done|rewrite length_drop; lia|].
      rewrite lookup_drop. by replace (2 ^ d + (i - 2 ^ d))%nat with i by lia.
Qed.

Lemma length_padded hashes : hashes ≠ [] → length (padded hashes) = (2 ^ depth hashes)%nat.
Proof.
  intros Hne. unfold padded. rewrite length_app, length_replicate.
  assert (length hashes <= 2 ^ depth hashes)%nat; [|lia].
  unfold depth. apply Nat.log2_up_le_pow2; [|done]. destruct hashes; cbn; [done|lia].
Qed.

(** The proof object of leaf [i] of a list of hashes. *)
Definition spv_proof (hashes : list Hash) (i : nat) (h root : Hash) (header : option Header) : SPVProof :=
  let steps := merkle_path (depth hashes) i (padded hashes) in
  MkSPVProof h root steps.*2 steps.*1 header.

(** C32: Merkle proofs and roots round-trip: for every non-empty list of hashes (of any
    length, padding included) [computeRootHash] returns a root, and for every position the
    proof made of the siblings on the way up is accepted by [VerifySPV] against it. *)
Theorem VerifySPV_complete hashes i h header :
  hashes !! i = Some h →
  ∃ root, computeRootHash hashes = Ok root ∧ VerifySPV (spv_proof hashes i h root header) = Ok true.
Proof.
  intros Hi. assert (hashes ≠ []) as Hne by (intros ->; by rewrite lookup_nil in Hi).
  exists (mroot (depth hashes) (padded hashes)). split; [by apply computeRootHash_mroot|].
  unfold VerifySPV, spv_proof. cbn [PathIndices MerklePath sp_TxHash MerkleRoot].
  rewrite spv_loop_start. cbn [mbind res_bind].
  rewrite climb_merkle_path, bool_decide_eq_true_2 by (done || (by apply length_padded) || (by apply lookup_app_l_Some)).
  done.
Qed.

Definition leaf (k : byte) : Hash := replicate 32 k.

Lemma VerifySPV_complete_witness :
  ∃ root, computeRootHash [leaf Byte.x01; leaf Byte.x02; leaf Byte.x03] = Ok root ∧
    VerifySPV (spv_proof [leaf Byte.x01; leaf Byte.x02; leaf Byte.x03] 2 (leaf Byte.x03) root None) = Ok true.
Proof. apply (VerifySPV_complete [leaf Byte.x01; leaf Byte.x02; leaf Byte.x03]). reflexivity. Defined.

(** [computeRootHash] is the Merkle root: both of its loops end within the fuel and no
    index is out of range, and for every non-empty list the result of the level-by-level
    construction is the recursively defined root of the perfect binary tree over the
    hashes followed by zero hashes up to the next power of two. *)
Theorem computeRootHash_tree hashes :
  computeRootHash hashes =
  Ok (if decide (hashes = []) then Hash0 else mroot (depth hashes) (padded hashes)).
Proof. case_decide as E; [by subst|]. by apply computeRootHash_mroot. Qed.

(** the root does not commit to the number of hashes: appending zero hashes up to the
    next power of two leaves the root unchanged, so that an aggregate of children and one
    that also holds absent children (whose placeholder is the zero hash) are the same. *)
Theorem computeRootHash_zero_padding hashes k :
  (2 <= length hashes)%nat → (length hashes + k <= 2 ^ depth hashes)%nat →
  computeRootHash (hashes ++ replicate k Hash0) = computeRootHash hashes.
Proof.
  intros Hl Hk. destruct (depth_spec hashes) as (d & Hd & Hb & _); [lia|].
  assert (depth (hashes ++ replicate k Hash0) = depth hashes) as Hd'.
  { rewrite Hd in *. unfold depth. apply Nat.log2_up_unique; [lia|]. cbn [Nat.pred].
    rewrite length_app, length_replicate. lia. }
  rewrite !computeRootHash_mroot by (intros E; apply (f_equal length) in E; rewrite ?length_app in E; cbn in E; lia).
  unfold padded. rewrite Hd', <-app_assoc, <-replicate_add, length_app, length_replicate. do 4 f_equal. lia.
Qed.

Lemma computeRootHash_zero_padding_witness :
  computeRootHash ([leaf Byte.x01; leaf Byte.x02; leaf Byte.x03] ++ replicate 1 Hash0) =
  computeRootHash [leaf Byte.x01; leaf Byte.x02; leaf Byte.x03].
Proof. apply computeRootHash_zero_padding; vm_compute; lia. Defined.

(** C37: exactly when [VerifySPV] panics: on the proofs with fewer direction bits than path
    elements, and only on those, whatever else they contain; it never ends in another
    failure. *)
Theorem VerifySPV_panics_iff proof :
  VerifySPV proof = Panic ↔ (length (PathIndices proof) < length (MerklePath proof))%nat.
Proof.
  unfold VerifySPV. generalize (sp_TxHash proof). destruct proof as [tx root path idx hdr]; cbn. clear tx hdr.
  assert (∀ i cur, (i <= length idx)%nat →
    (spv_loop i idx path cur = Panic ∧ (length idx < i + length path)%nat) ∨
    (∃ h, spv_loop i idx path cur = Ok h ∧ (i + length path <= length idx)%nat)) as Hloop.
  { induction path as [|s path IH]; intros i cur Hi; cbn [spv_loop length]; [right; eexists; split; [done|lia]|].
    destruct (idx !! i) as [b|] eqn:E.
    - apply lookup_lt_Some in E. destruct b; (edestruct IH as [[H1 H2]|(h & H1 & H2)]; [|left; split; [exact H1|]|right; eexists; split; [exact H1|]]); lia.
    - apply lookup_ge_None in E. left. split; [done|lia]. }
  intros cur. destruct (Hloop 0%nat cur) as [[-> ?]|(h & -> & ?)]; [lia|split; [|done]; lia|]. cbn.
  split; [done|lia].
Qed.

(** inner nodes pass for transactions: for any four leaves, the parent of the first
    two is accepted as a transaction of their tree, with a one-element path and whatever
    block header the proof carries; the hash has no tag for leaves and the length of the
    path is not checked against the tree. *)
Theorem VerifySPV_inner_node a b c d header :
  ∃ root, computeRootHash [a; b; c; d] = Ok root ∧
    VerifySPV (MkSPVProof (node a b) root [node c d] [false] header) = Ok true.
Proof.
  exists (node (node a b) (node c d)). split; [done|].
  unfold VerifySPV. cbn [PathIndices MerklePath sp_TxHash MerkleRoot].
  pose proof (spv_loop_start [(false, node c d)] (node a b)) as Hloop. cbn [fmap list_fmap fst snd] in Hloop.
  rewrite Hloop. cbn [mbind res_bind]. by rewrite bool_decide_eq_true_2.
Qed.

(** ** Binding *)

(** The position a list of directions leads to, first direction at the leaves. *)
Fixpoint position (bits : list bool) : nat :=
  match bits with
  | [] => 0
  | b :: bits => (if b then 1 else 0) + 2 * position bits
  end.

(** The search for a collision: compare the hash inputs of the proof with those of the
    tree from the root downwards ([steps] root first) and stop where they differ. *)
Fixpoint find_collision (d : nat) (leaves : list Hash) (cur : Hash) (steps : list (bool * Hash)) : option (bytes * bytes) :=
  match d, steps with
  | S d, (b, sibling) :: steps =>
      let below := climb cur (reverse steps) in
      let claimed := if b then sibling ++ below else below ++ sibling in
      let real := mroot d (take (2 ^ d) leaves) ++ mroot d (drop (2 ^ d) leaves) in
      if decide (claimed = real)
      then find_collision d (if b then drop (2 ^ d) leaves else take (2 ^ d) leaves) cur steps
      else Some (claimed, real)
  | _, _ => None
  end.

Lemma length_mroot d leaves :
  length leaves = (2 ^ d)%nat → Forall Hash_ok leaves → length (mroot d leaves) = 32%nat.
Proof.
  destruct d as [|d]; intros Hl Hok; [|apply BytesToHash_ok].
  change (2 ^ 0)%nat with 1%nat in Hl. destruct leaves as [|x [|]]; cbn in Hl; try lia.
  by apply Forall_cons_1 in Hok as [? _].
Qed.

Lemma length_climb cur steps : Hash_ok cur → length (climb cur steps) = 32%nat.
Proof.
  intros Hc. induction steps as [|st steps _] using rev_ind; [done|]. unfold climb.
  rewrite foldl_app. cbn [foldl]. unfold climb1. case_match; apply BytesToHash_ok.
Qed.

Lemma position_app bits b :
  position (bits ++ [b]) = (position bits + (if b then 2 ^ length bits else 0))%nat.
Proof.
  induction bits as [|c bits IH]; cbn [app position length]; [change (2 ^ 0)%nat with 1%nat; destruct b; lia|].
  rewrite IH, pow2_S. destruct b, c; lia.
Qed.

Lemma position_lt bits : (position bits < 2 ^ length bits)%nat.
Proof. induction bits as [|b bits IH]; cbn [position length]; [change (2 ^ 0)%nat with 1%nat; lia|]. rewrite pow2_S. destruct b; lia. Qed.

Lemma climb_binds d leaves cur steps :
  length leaves = (2 ^ d)%nat → length steps = d → Forall Hash_ok leaves → Hash_ok cur →
  Forall (λ st, Hash_ok st.2) steps → climb cur (reverse steps) = mroot d leaves →
  leaves !! position (reverse steps).*1 = Some cur ∨
  ∃ x y, find_collision d leaves cur steps = Some (x, y) ∧ x ≠ y ∧ Keccak256 [x] = Keccak256 [y].
Proof.
  revert leaves steps. induction d as [|d IH]; intros leaves steps Hl Hs Hok Hcur Hsib Heq.
  - destruct steps; [|done]. change (2 ^ 0)%nat with 1%nat in Hl.
    destruct leaves as [|x [|]]; cbn in Hl; try lia. left. cbn in *. by subst.
  - destruct steps as [|[b sib] steps]; [done|]. injection Hs as Hs. rewrite pow2_S in Hl.
    apply Forall_cons_1 in Hsib as [Hsib1 Hsib]. cbn [snd] in Hsib1.
    assert (length (take (2 ^ d) leaves) = 2 ^ d ∧ length (drop (2 ^ d) leaves) = 2 ^ d)%nat as [Ht Hd]
      by (rewrite length_take, length_drop; lia).
    assert (Forall Hash_ok (take (2 ^ d) leaves) ∧ Forall Hash_ok (drop (2 ^ d) leaves)) as [Hokt Hokd]
      by (split; [by apply Forall_take|by apply Forall_drop]).
    pose proof (length_mroot _ _ Ht Hokt) as HL. pose proof (length_mroot _ _ Hd Hokd) as HR.
    pose proof (length_climb cur (reverse steps) Hcur) as HC.
    rewrite reverse_cons, fmap_app. change ([(b, sib)].*1) with [b].
    rewrite position_app, length_fmap, length_reverse, Hs. cbn [fst find_collision].
    rewrite reverse_cons in Heq. unfold climb in Heq. rewrite foldl_app in Heq. cbn [foldl mroot] in Heq.
    fold (climb cur (reverse steps)) in Heq. unfold climb1 in Heq. cbn [fst snd] in Heq.
    set (claimed := if b then sib ++ climb cur (reverse steps) else climb cur (reverse steps) ++ sib). set (real := mroot _ _ ++ mroot _ _).
    destruct (decide (claimed = real)) as [E|E]; cycle 1.
    { right. exists claimed, real. split_and!; [done..|]. unfold node in Heq.
      rewrite <-(BytesToHash_id (Keccak256 [claimed])), <-(BytesToHash_id (Keccak256 [real])) by apply length_Keccak256.
      destruct b; exact Heq. }
    subst claimed real. destruct b.
    + apply app_inj_1 in E as [_ Hbelow]; [|by rewrite HL].
      destruct (IH (drop (2 ^ d) leaves) steps) as [Hpos|Hcol]; try done; [|by right].
      left. rewrite lookup_drop in Hpos. by rewrite Nat.add_comm.
    + apply app_inj_1 in E as [Hbelow _]; [|by rewrite HL].
      destruct (IH (take (2 ^ d) leaves) steps) as [Hpos|Hcol]; try done; [|by right].
      left. rewrite Nat.add_0_r. rewrite lookup_take_lt in Hpos; [done|].
      eapply Nat.lt_le_trans; [apply position_lt|]. by rewrite length_fmap, length_reverse, Hs.
Qed.

(** C18: SPV proofs are binding: if [VerifySPV] accepts a proof whose path is as long as
    the tree of the hashes is deep, against the root that [computeRootHash] gives, then the
    claimed hash is the one at the position its direction bits spell, or comparing the
    proof with the tree yields two different inputs with the same Keccak-256 hash. *)
Theorem VerifySPV_binds hashes proof :
  hashes ≠ [] → Forall Hash_ok hashes → Hash_ok (sp_TxHash proof) → Forall Hash_ok (MerklePath proof) →
  length (MerklePath proof) = depth hashes → length (PathIndices proof) = depth hashes →
  computeRootHash hashes = Ok (MerkleRoot proof) → VerifySPV proof = Ok true →
  padded hashes !! position (PathIndices proof) = Some (sp_TxHash proof) ∨
  ∃ x y, find_collision (depth hashes) (padded hashes) (sp_TxHash proof)
           (reverse (zip (PathIndices proof) (MerklePath proof))) = Some (x, y) ∧
    x ≠ y ∧ Keccak256 [x] = Keccak256 [y].
Proof.
  intros Hne Hok Htx Hpath Hlp Hli Hroot. destruct proof as [tx root path idx hdr]; cbn in *.
  rewrite computeRootHash_mroot in Hroot by done. apply Ok_inj in Hroot as <-.
  set (steps := zip idx path).
  assert (steps.*1 = idx ∧ steps.*2 = path) as [H1 H2] by (split; [apply fst_zip|apply snd_zip]; lia).
  unfold VerifySPV. cbn. rewrite <-H1 at 1. rewrite <-H2 at 1. rewrite spv_loop_start. cbn.
  intros Hacc%Ok_inj. apply bool_decide_eq_true in Hacc.
  rewrite <-(reverse_involutive steps) in Hacc.
  destruct (climb_binds (depth hashes) (padded hashes) tx (reverse steps)) as [Hpos|Hcol]; try done.
  - by apply length_padded.
  - rewrite length_reverse. subst steps. rewrite length_zip_with. lia.
  - apply Forall_app. split; [done|]. apply Forall_replicate. done.
  - apply Forall_reverse. rewrite <-H2, Forall_fmap in Hpath. exact Hpath.
  - left. rewrite reverse_involutive, H1 in Hpos. done.
  - by right.
Qed.

Definition two_leaves : list Hash := [leaf Byte.x01; leaf Byte.x02].

Definition second_leaf : SPVProof :=
  MkSPVProof (leaf Byte.x02) (node (leaf Byte.x01) (leaf Byte.x02)) [leaf Byte.x01] [true] None.

Lemma VerifySPV_binds_witness :
  padded two_leaves !! position (PathIndices second_leaf) = Some (sp_TxHash second_leaf) ∨
  ∃ x y, find_collision (depth two_leaves) (padded two_leaves) (sp_TxHash second_leaf)
           (reverse (zip (PathIndices second_leaf) (MerklePath second_leaf))) = Some (x, y) ∧
    x ≠ y ∧ Keccak256 [x] = Keccak256 [y].
Proof.
  apply (VerifySPV_binds two_leaves second_leaf);
    [discriminate|by repeat constructor|reflexivity|by repeat constructor|reflexivity|reflexivity| |];
    vm_compute; reflexivity.
Defined.
