(* ===== verification/Committer.v ===== *)
(** * The committer service

    [HZKA/relay/committer.go]: the configuration, the data sources, the service state,
    the polling loop that processes the new blocks of every ordinary chain and submits a
    commit per non-empty block, and the aggregation step of an intermediate tree node.

    RPC endpoints are an interface: every call takes the state of the outside world and
    returns a reply or an error with the next state, so nothing is assumed about what
    chains answer, or when. Methods run in a state and error monad over the service, the
    world and a trace of the observable effects (transactions handed to the audit chain,
    assignments to [lastProcessed]). Strings are byte lists; log output is left out. *)
From Stdlib Require Import ZArith Lia.
From Stdlib Require Strings.Byte Strings.String.
From stdpp Require Import base tactics decidable countable list numbers gmap strings.
From S2P Require Import Prelude Keccak Common Rlp Types Lru Seal Transactions Merkle.
#[local] Open Scope Z_scope.

(** ** Configuration *)

Record ChildCommitterConfig : Type := MkChild {
  ch_NodeID : Z;
  ch_RPC : bytes;
  ch_Name : bytes;
  ch_ChainIDs : list Z
}.

Record ChainConfig : Type := MkChainCfg {
  ChainID : Z;
  RPC : bytes;
  Name : bytes;
  cc_ChainType : bytes;
  GatewayURL : bytes
}.

Record CommitterConfig : Type := MkCommitterConfig {
  PrivateKeyHex : bytes;
  OrdinaryChains : list ChainConfig;
  AuditChain : ChainConfig;
  AuditContractAddr : bytes;
  PollInterval : Z;
  CircuitDir : bytes;
  Blacklist : list bytes;
  TreeNodeID : Z;
  ChildCommitters : list ChildCommitterConfig
}.

(** A Go string constant. *)
Definition str (s : String.string) : bytes := String.list_byte_of_string s.
Definition permissionless : bytes := str "permissionless"%string.
Definition permissioned : bytes := str "permissioned"%string.

(** ** Data *)

(** [types.Block]: the header and the transactions. *)
Record Block : Type := MkBlock {
  b_header : Header;
  b_transactions : list TxData
}.

Record TransactionData : Type := MkTransactionData {
  td_From : Address;
  td_To : Address;
  td_Amount : Z;
  td_Signature : bytes;
  td_Nonce : Z
}.

Record BlockData : Type := MkBlockData {
  bd_ChainID : Z;
  bd_BlockNumber : Z;
  StateRootOld : Hash;
  StateRootNew : Hash;
  Transactions : list TransactionData
}.

(** The curve points are arrays of pointers, nil until a prover fills them. *)
Record ProofData : Type := MkProofData {
  pf_A : list (option Z);
  pf_B : list (list (option Z));
  pf_C : list (option Z);
  PublicInputs : list Z
}.

Record AggregatedCommit : Type := MkAggregated {
  ag_NodeID : Z;
  ChildRoots : list Hash;
  AggregatedRoot : Hash;
  ag_Proof : option ProofData
}.

Record Receipt : Type := MkReceipt { Status : Z }.

(** ** Endpoints *)

(** The calls to [ethclient] and [bind.WaitMined]: [None] is a returned error. *)
Class EthClient (W Client : Type) : Type := {
  Dial : bytes → W → option Client * W;
  BlockNumber : Client → W → option Z * W;
  BlockByNumber : Client → option Z → W → option Block * W;
  HeaderByNumber : Client → option Z → W → option Header * W;
  PendingNonceAt : Client → Address → W → option Z * W;
  SuggestGasPrice : Client → W → option Z * W;
  NetChainID : Client → W → option Z * W;
  SendTransaction : Client → TxData → W → option () * W;
  WaitMined : Client → TxData → W → option Receipt * W
}.

Inductive committer_error : Type :=
| ErrReadConfig | ErrParseConfig | ErrParseKey (e : tx_error)
| ErrDialAudit | ErrDialChain (name : bytes)
| ErrBlockNumber | ErrFetchBlock | ErrFetchParent | ErrFetchHeader
| ErrNonce | ErrGasPrice | ErrNetChainID | ErrSign (e : tx_error) | ErrSend | ErrReceipt | ErrReverted
| ErrNotImplemented
| ErrLoopFuel (** the block loop has not ended within its fuel *).

Inductive event : Type :=
| Sent (tx : TxData)
| Processed (chainID blockNum : Z).

Section committer.
Context {W Client : Type} `{EthClient W Client} `{Secp256k1}.

(** ** State *)

Inductive ChainDataSource : Type :=
| GethDataSource (client : Client) (chainID : Z)
| GatewayDataSource (gatewayURL : bytes) (chainID : Z).

Record Committer : Type := MkCommitter {
  config : CommitterConfig;
  privateKey : PrivateKey;
  auditClient : option Client;
  chainClients : gmap Z Client;
  chainSources : gmap Z ChainDataSource;
  lastProcessed : gmap Z Z
}.

Record service : Type := MkService {
  committer : Committer;
  world : W;
  trace : list event
}.

Definition with_auditClient (cl : Client) (c : Committer) : Committer :=
  MkCommitter (config c) (privateKey c) (Some cl) (chainClients c) (chainSources c) (lastProcessed c).
Definition with_client (id : Z) (cl : Client) (c : Committer) : Committer :=
  MkCommitter (config c) (privateKey c) (auditClient c) (<[id := cl]> (chainClients c)) (chainSources c) (lastProcessed c).
Definition with_source (id : Z) (s : ChainDataSource) (c : Committer) : Committer :=
  MkCommitter (config c) (privateKey c) (auditClient c) (chainClients c) (<[id := s]> (chainSources c)) (lastProcessed c).
Definition with_last (id n : Z) (c : Committer) : Committer :=
  MkCommitter (config c) (privateKey c) (auditClient c) (chainClients c) (chainSources c) (<[id := n]> (lastProcessed c)).

(** [NewCommitter], given what reading the file and unmarshalling the JSON return. *)
Definition NewCommitter (data : option bytes) (Unmarshal : bytes → option CommitterConfig) : res committer_error Committer :=
  match data with
  | None => Err ErrReadConfig
  | Some data =>
      match Unmarshal data with
      | None => Err ErrParseConfig
      | Some config =>
          match HexToECDSA (PrivateKeyHex config) with
          | Ok prv => Ok (MkCommitter config prv None ∅ ∅ ∅)
          | Err e => Err (ErrParseKey e)
          | Panic => Panic
          end
      end
  end.

(** ** The monad of the methods *)

Definition M (A : Type) : Type := service → res committer_error A * service.

#[local] Instance M_ret : MRet M := λ A a s, (Ok a, s).
#[local] Instance M_bind : MBind M := λ A B f m s,
  match m s with
  | (Ok a, s) => f a s
  | (Err e, s) => (Err e, s)
  | (Panic, s) => (Panic, s)
  end.

Definition lift {A} (r : res committer_error A) : M A := λ s, (r, s).
Definition asks {A} (f : Committer → A) : M A := λ s, (Ok (f (committer s)), s).
Definition modify (f : Committer → Committer) : M () := λ s, (Ok (), MkService (f (committer s)) (world s) (trace s)).
Definition emit (e : event) : M () := λ s, (Ok (), MkService (committer s) (world s) (trace s ++ [e])).

(** A call of an endpoint: an error reply is returned as [e]. *)
Definition call {A} (op : W → option A * W) (e : committer_error) : M A := λ s,
  let '(r, w) := op (world s) in
  (match r with Some a => Ok a | None => Err e end, MkService (committer s) w (trace s)).

(** A method of a nil client is a panic. *)
Definition deref {A} (o : option A) : M A := λ s, (match o with Some a => Ok a | None => Panic end, s).

(** [if a, err := m; err != nil { log; bad } else { ok }]: the error is logged and
    dropped, a panic is not. *)
Definition handle {A B} (m : M A) (ok : A → M B) (bad : M B) : M B := λ s,
  match m s with
  | (Ok a, s) => ok a s
  | (Err _, s) => bad s
  | (Panic, s) => (Panic, s)
  end.

Definition lift_tx {A} (r : res tx_error A) : M A :=
  lift (match r with Ok a => Ok a | Err e => Err (ErrSign e) | Panic => Panic end).

(** ** Extraction of transactions *)

(** [append(r.Bytes(), s.Bytes()...)] and the low byte of V. *)
Definition signature_bytes (tx : TxData) : bytes :=
  let '(v, r, s) := RawSignatureValues tx in
  big_Bytes r ++ big_Bytes s ++ [z2b (u64 (Z.abs v))].

(** The body of the loop over the transactions; [None] is [continue]. [Sender] has no
    panic ([Sender_no_panic]), so that every failure is an error. *)
Definition transaction_data (signer : Signer) (tx : TxData) : option TransactionData :=
  match fst (Sender signer (NewTx tx)) with
  | Ok from =>
      Some (MkTransactionData from (default Address0 (tx_To tx)) (tx_Value tx) (signature_bytes tx) (tx_Nonce tx))
  | _ => None
  end.

Definition extract (signer : Signer) (txs : list TxData) : list TransactionData := omap (transaction_data signer) txs.

Definition block_number (b : Block) : res committer_error Z := Uint64 (Number (b_header b)).

(** ** Data sources *)

Definition GetLatestBlockNumber (src : ChainDataSource) : M Z :=
  match src with
  | GethDataSource client _ => call (BlockNumber client) ErrBlockNumber
  | GatewayDataSource _ _ => lift (Err ErrNotImplemented)
  end.

Definition GetBlockData (src : ChainDataSource) (blockNum : Z) : M BlockData :=
  match src with
  | GethDataSource client chainID =>
      block ← call (BlockByNumber client (Some blockNum)) ErrFetchBlock;
      number ← lift (block_number block);
      signer ← lift (LatestSignerForChainID (Some chainID));
      mret (MkBlockData chainID number Hash0 (Root (b_header block)) (extract signer (b_transactions block)))
  | GatewayDataSource _ _ => lift (Err ErrNotImplemented)
  end.

Definition GetBlockHeader (src : ChainDataSource) (blockNum : Z) : M Header :=
  match src with
  | GethDataSource client _ => call (HeaderByNumber client (Some blockNum)) ErrFetchHeader
  | GatewayDataSource _ _ => lift (Err ErrNotImplemented)
  end.

Definition GetSPVProof (src : ChainDataSource) (txHash : Hash) : M SPVProof := lift (Err ErrNotImplemented).

Definition ds_ChainType (src : ChainDataSource) : bytes :=
  match src with GethDataSource _ _ => permissionless | GatewayDataSource _ _ => permissioned end.

(** ** Commits *)

Definition aggregateBlockData (chainID : Z) (block : Block) : M BlockData :=
  number ← lift (block_number block);
  old ← (if decide (0 < number) then
           clients ← asks chainClients;
           client ← deref (clients !! chainID);
           parentBlock ← call (BlockByNumber client (Some (u64 (number - 1)))) ErrFetchParent;
           mret (Root (b_header parentBlock))
         else mret Hash0);
  signer ← lift (LatestSignerForChainID (Some chainID));
  mret (MkBlockData chainID number old (Root (b_header block)) (extract signer (b_transactions block))).

Definition nil_points : list (option Z) := [None; None].

Definition generateAuditProof (blockData : BlockData) : ProofData :=
  MkProofData nil_points [nil_points; nil_points] nil_points
    [SetBytes (StateRootOld blockData); SetBytes (StateRootNew blockData)].

Definition submitCommit_signature : bytes :=
  str "submitCommit(uint256,bytes32,bytes32,uint256[2],uint256[2][2],uint256[2])"%string.

Definition selector (signature : bytes) : bytes := take 4 (Keccak256 [signature]).

Definition encodeSubmitCommit (chainID : Z) (oldRoot newRoot : Hash) (proof : ProofData) : bytes :=
  selector submitCommit_signature ++ BigToHash chainID ++ oldRoot ++ newRoot.

Definition submitCommit (chainID : Z) (blockData : BlockData) (proof : ProofData) : M () :=
  prv ← asks privateKey;
  cfg ← asks config;
  audit ← asks auditClient;
  audit ← deref audit;
  let fromAddress := PubkeyToAddress prv in
  nonce ← call (PendingNonceAt audit fromAddress) ErrNonce;
  gasPrice ← call (SuggestGasPrice audit) ErrGasPrice;
  let auditContractAddr := HexToAddress (AuditContractAddr cfg) in
  let callData := encodeSubmitCommit chainID (StateRootOld blockData) (StateRootNew blockData) proof in
  let tx := NewTransaction nonce auditContractAddr 0 500000 gasPrice callData in
  auditChainID ← call (NetChainID audit) ErrNetChainID;
  signedTx ← lift_tx (SignTx (NewTx tx) (NewEIP155Signer (Some auditChainID)) prv);
  _ ← call (SendTransaction audit (inner signedTx)) ErrSend;
  _ ← emit (Sent (inner signedTx));
  receipt ← call (WaitMined audit (inner signedTx)) ErrReceipt;
  if decide (Status receipt = 0) then lift (Err ErrReverted) else mret ().

Definition processBlock (chainID blockNum : Z) : M () :=
  clients ← asks chainClients;
  client ← deref (clients !! chainID);
  block ← call (BlockByNumber client (Some blockNum)) ErrFetchBlock;
  blockData ← aggregateBlockData chainID block;
  if decide (Transactions blockData = []) then mret ()
  else submitCommit chainID blockData (generateAuditProof blockData).

(** ** The polling loop *)

(** [for blockNum := ...; blockNum <= latestBlock; blockNum++]: an error ends the loop
    of this chain. [ErrLoopFuel] stands for a loop that goes on after [blockNum] has
    wrapped around ([process_chain] gives one unit of fuel for every new block). *)
Fixpoint block_loop (fuel : nat) (chainID blockNum latestBlock : Z) : M () :=
  if decide (blockNum <= latestBlock) then
    match fuel with
    | O => lift (Err ErrLoopFuel)
    | S fuel =>
        handle (processBlock chainID blockNum)
          (λ _, _ ← modify (with_last chainID blockNum);
                _ ← emit (Processed chainID blockNum);
                block_loop fuel chainID (u64 (blockNum + 1)) latestBlock)
          (mret ())
    end
  else mret ().

(** One chain of [processNewBlocks]: no client, an error or nothing new is [continue];
    the height is a uint64. *)
Definition process_chain (chain : ChainConfig) : M () :=
  clients ← asks chainClients;
  match clients !! ChainID chain with
  | None => mret ()
  | Some client =>
      handle (call (BlockNumber client) ErrBlockNumber)
        (λ height,
           let latestBlock := u64 height in
           lasts ← asks lastProcessed;
           let last := default 0 (lasts !! ChainID chain) in
           if decide (latestBlock <= last) then mret ()
           else block_loop (Z.to_nat (latestBlock - last)) (ChainID chain) (u64 (last + 1)) latestBlock)
        (mret ())
  end.

Fixpoint process_chains (chains : list ChainConfig) : M () :=
  match chains with
  | [] => mret ()
  | chain :: chains => _ ← process_chain chain; process_chains chains
  end.

Definition processNewBlocks : M () :=
  cfg ← asks config;
  process_chains (OrdinaryChains cfg).

(** ** Aggregation of a tree node *)

Fixpoint collect_roots (chains : list ChainConfig) : M (list Hash) :=
  match chains with
  | [] => mret []
  | chain :: chains =>
      clients ← asks chainClients;
      match clients !! ChainID chain with
      | None => collect_roots chains
      | Some client =>
          handle (call (BlockByNumber client None) ErrFetchBlock)
            (λ latestBlock, roots ← collect_roots chains; mret (Root (b_header latestBlock) :: roots))
            (collect_roots chains)
      end
  end.

Definition submitAggregated_signature : bytes :=
  str "submitAggregatedCommit(uint256,bytes32[],bytes32,uint256[2],uint256[2][2],uint256[2])"%string.

Definition generateAggregatedProof (agg : AggregatedCommit) : ProofData :=
  MkProofData nil_points [nil_points; nil_points] nil_points [SetBytes Hash0; SetBytes (AggregatedRoot agg)].

Definition submitAggregatedCommitTx (agg : AggregatedCommit) : M () :=
  prv ← asks privateKey;
  cfg ← asks config;
  audit ← asks auditClient;
  audit ← deref audit;
  let fromAddress := PubkeyToAddress prv in
  nonce ← call (PendingNonceAt audit fromAddress) ErrNonce;
  gasPrice ← call (SuggestGasPrice audit) ErrGasPrice;
  let auditContractAddr := HexToAddress (AuditContractAddr cfg) in
  let data := selector submitAggregated_signature ++ BigToHash (ag_NodeID agg) ++ AggregatedRoot agg in
  let tx := NewTransaction nonce auditContractAddr 0 600000 gasPrice data in
  auditChainID ← call (NetChainID audit) ErrNetChainID;
  signedTx ← lift_tx (SignTx (NewTx tx) (NewEIP155Signer (Some auditChainID)) prv);
  _ ← call (SendTransaction audit (inner signedTx)) ErrSend;
  emit (Sent (inner signedTx)).

Definition lift_merkle {A} (r : res merkle_error A) : M A :=
  lift (match r with Ok a => Ok a | Err _ => Err ErrLoopFuel | Panic => Panic end).

Definition processAsIntermediateNode : M () :=
  cfg ← asks config;
  if decide (TreeNodeID cfg = 0) then mret ()
  else
    roots ← collect_roots (OrdinaryChains cfg);
    let childRoots := roots ++ ((λ _, Hash0) <$> ChildCommitters cfg) in
    if decide (childRoots = []) then mret ()
    else
      aggregatedRoot ← lift_merkle (computeRootHash childRoots);
      let aggCommit := MkAggregated (TreeNodeID cfg) childRoots aggregatedRoot None in
      let proof := generateAggregatedProof aggCommit in
      submitAggregatedCommitTx (MkAggregated (TreeNodeID cfg) childRoots aggregatedRoot (Some proof)).

(** ** Start *)

Definition is_gateway (chain : ChainConfig) : bool :=
  let chainType := if decide (cc_ChainType chain = []) then permissionless else cc_ChainType chain in
  bool_decide (chainType = permissioned) && bool_decide (GatewayURL chain ≠ []).

Fixpoint connect (chains : list ChainConfig) : M () :=
  match chains with
  | [] => mret ()
  | chain :: chains =>
      _ ← (if is_gateway chain
           then modify (with_source (ChainID chain) (GatewayDataSource (GatewayURL chain) (ChainID chain)))
           else
             client ← call (Dial (RPC chain)) (ErrDialChain (Name chain));
             _ ← modify (with_client (ChainID chain) client);
             modify (with_source (ChainID chain) (GethDataSource client (ChainID chain))));
      connect chains
  end.

(** What [select] receives. *)
Inductive signal : Type := Tick | ContextDone.

Definition tick : M () :=
  _ ← processNewBlocks;
  cfg ← asks config;
  if decide (0 < TreeNodeID cfg) then handle processAsIntermediateNode mret (mret ()) else mret ().

(** The main loop over a sequence of signals: [true] after a shutdown, [false] when the
    sequence ends with the service running. *)
Fixpoint serve (signals : list signal) : M bool :=
  match signals with
  | [] => mret false
  | ContextDone :: _ => mret true
  | Tick :: signals => _ ← tick; serve signals
  end.

(** [time.NewTicker] panics on an interval that is not positive. *)
Definition NewTicker (interval : Z) : M () := λ s, (if decide (interval <= 0) then Panic else Ok (), s).

Definition Start (signals : list signal) : M bool :=
  cfg ← asks config;
  audit ← call (Dial (RPC (AuditChain cfg))) ErrDialAudit;
  _ ← modify (with_auditClient audit);
  _ ← connect (OrdinaryChains cfg);
  _ ← NewTicker (i64 (PollInterval cfg * 1000000000));
  serve signals.
End committer.
