(* ===== verification/CommitterFacts.v ===== *)
(** * What the committer guarantees

    Effects of the methods of [Committer.v]: which of them only send transactions, the
    order in which blocks are processed, what a commit contains, and which chains are
    never looked at. All statements hold for arbitrary replies of the endpoints. *)
From Stdlib Require Import ZArith Lia.
From Stdlib Require Strings.Byte.
From stdpp Require Import base tactics decidable countable list numbers gmap.
From S2P Require Import Prelude Keccak Common Rlp Types Lru Seal Transactions Merkle Committer.

#[local] Existing Instances M_ret M_bind.

Section frame.
Context {W Client : Type} `{EthClient W Client} `{Secp256k1}.
Abbreviation service := (service (W := W) (Client := Client)).
Abbreviation M := (M (W := W) (Client := Client)).

Lemma bind_asks {A B} (f : Committer → A) (g : A → M B) (s : service) :
  (asks f ≫= g) s = g (f (committer s)) s.
Proof. done. Qed.

(** ** Methods that only send transactions *)

Definition only_sends (s s' : service) : Prop :=
  committer s' = committer s ∧ ∃ txs, trace s' = trace s ++ (Sent <$> txs).

#[local] Instance only_sends_preorder : PreOrder only_sends.
Proof.
  split.
  - intros s. split; [done|]. exists []. by rewrite app_nil_r.
  - intros s1 s2 s3 [E1 [t1 T1]] [E2 [t2 T2]]. split; [congruence|].
    exists (t1 ++ t2). by rewrite T2, T1, fmap_app, app_assoc.
Qed.

Definition sends {A} (m : M A) : Prop := ∀ s, only_sends s (snd (m s)).

Lemma sends_ret {A} (a : A) : sends (mret a).
Proof. intros s. reflexivity. Qed.

Lemma sends_lift {A} (r : res committer_error A) : sends (lift r).
Proof. intros s. reflexivity. Qed.

Lemma sends_asks {A} (f : Committer → A) : sends (asks f).
Proof. intros s. reflexivity. Qed.

Lemma sends_deref {A} (o : option A) : sends (deref o).
Proof. intros s. reflexivity. Qed.

Lemma sends_call {A} (op : W → option A * W) e : sends (call op e).
Proof.
  intros s. unfold call. destruct (op (world s)) as [r w]. split; [done|]. exists []. by rewrite app_nil_r.
Qed.

Lemma sends_emit tx : sends (emit (Sent tx)).
Proof. intros s. split; [done|]. by exists [tx]. Qed.

Lemma sends_bind {A B} (m : M A) (f : A → M B) : sends m → (∀ a, sends (f a)) → sends (m ≫= f).
Proof.
  intros Hm Hf s. specialize (Hm s). unfold mbind, M_bind. destruct (m s) as [[a|e|] s1]; cbn in *; [|done..].
  etrans; [exact Hm|apply Hf].
Qed.

Lemma sends_handle {A B} (m : M A) (ok : A → M B) bad :
  sends m → (∀ a, sends (ok a)) → sends bad → sends (handle m ok bad).
Proof.
  intros Hm Hok Hbad s. specialize (Hm s). unfold handle. destruct (m s) as [[a|e|] s1]; cbn in *; [| |done].
  - etrans; [exact Hm|apply Hok].
  - etrans; [exact Hm|apply Hbad].
Qed.

Ltac solve_sends :=
  repeat first
    [ apply sends_ret | apply sends_lift | apply sends_asks | apply sends_deref | apply sends_call
    | apply sends_emit | apply sends_bind; [|intros ?] | apply sends_handle; [|intros ?|] | case_decide | case_match ];
  auto.

Lemma sends_aggregateBlockData c b : sends (aggregateBlockData c b).
Proof. unfold aggregateBlockData. solve_sends. Qed.

Lemma sends_submitCommit c d p : sends (submitCommit c d p).
Proof. unfold submitCommit, lift_tx. solve_sends. Qed.

Lemma sends_processBlock c n : sends (processBlock c n).
Proof. pose proof sends_aggregateBlockData. pose proof sends_submitCommit. unfold processBlock. solve_sends. Qed.

Lemma sends_collect_roots chains : sends (collect_roots chains).
Proof. induction chains as [|chain chains IH]; cbn [collect_roots]; solve_sends. Qed.

Lemma sends_submitAggregatedCommitTx agg : sends (submitAggregatedCommitTx agg).
Proof. unfold submitAggregatedCommitTx, lift_tx. solve_sends. Qed.

Lemma sends_processAsIntermediateNode : sends processAsIntermediateNode.
Proof.
  pose proof sends_collect_roots. pose proof sends_submitAggregatedCommitTx.
  unfold processAsIntermediateNode, lift_merkle. solve_sends.
Qed.

(** ** Blocks are processed in order *)

(** The block numbers of chain [c] that were recorded as processed, in order of time. *)
Definition processed (c : Z) (tr : list event) : list Z :=
  omap (λ e, match e with Processed c' n => if decide (c' = c) then Some n else None | Sent _ => None end) tr.

Definition last_of (c : Z) (s : service) : Z := default 0 (lastProcessed (committer s) !! c).


Lemma processed_app c t1 t2 : processed c (t1 ++ t2) = processed c t1 ++ processed c t2.
Proof. apply omap_app. Qed.

Lemma processed_sent c txs : processed c (Sent <$> txs) = [].
Proof. induction txs as [|tx txs IH]; [done|]. exact IH. Qed.

















(** A service that has just been created. *)
Definition fresh (s : service) : Prop := lastProcessed (committer s) = ∅ ∧ trace s = [].



(** ** What a commit contains *)

Lemma bind_inv {A B} (m : M A) (f : A → M B) s b s' :
  (m ≫= f) s = (Ok b, s') → ∃ a s1, m s = (Ok a, s1) ∧ f a s1 = (Ok b, s').
Proof. unfold mbind, M_bind. destruct (m s) as [[a|e|] s1]; [|done..]. eauto. Qed.

Lemma call_inv {A} (op : W → option A * W) e (s s1 : service) a :
  call op e s = (Ok a, s1) → ∃ w, op (world s) = (Some a, w) ∧ s1 = MkService (committer s) w (trace s).
Proof. unfold call. destruct (op (world s)) as [[x|] w]; [|done]. intros [= -> <-]. eauto. Qed.

Lemma deref_inv {A} (o : option A) (s : service) a s1 : deref o s = (Ok a, s1) → o = Some a ∧ s1 = s.
Proof. unfold deref. destruct o; [|done]. by intros [= -> ->]. Qed.

Lemma lift_inv {A} (r : res committer_error A) (s : service) a s1 : lift r s = (Ok a, s1) → r = Ok a ∧ s1 = s.
Proof. unfold lift. by intros [= -> ->]. Qed.

Ltac step :=
  match goal with
  | Hm : (asks _ ≫= _) _ = _ |- _ => rewrite bind_asks in Hm
  | Hm : (_ ≫= _) _ = (Ok _, _) |- _ => apply bind_inv in Hm as (? & ? & ? & Hm)
  | Hm : call _ _ _ = (Ok _, _) |- _ => apply call_inv in Hm as (? & ? & ->)
  | Hm : deref _ _ = (Ok _, _) |- _ => apply deref_inv in Hm as [? ->]
  | Hm : lift _ _ = (Ok _, _) |- _ => apply lift_inv in Hm as [? ->]
  | Hm : mret _ _ = (Ok _, _) |- _ => injection Hm as <- <-
  end.

(** A commit transaction of the service: to the audit contract, without value, with the
    gas limit of the method and the given call data. *)
Definition commit_tx (c : Committer (Client := Client)) (gas : Z) (data : bytes) (tx : TxData) : Prop :=
  tx_To tx = Some (HexToAddress (AuditContractAddr (config c))) ∧ tx_Value tx = 0 ∧ tx_Gas tx = gas ∧ tx_Data tx = data.

Lemma SignTx_fields tx s prv tx' :
  SignTx (NewTx tx) s prv = Ok tx' →
  tx_To (inner tx') = tx_To tx ∧ tx_Value (inner tx') = tx_Value tx ∧ tx_Gas (inner tx') = tx_Gas tx ∧
  tx_Data (inner tx') = tx_Data tx ∧ tx_Nonce (inner tx') = tx_Nonce tx.
Proof.
  unfold SignTx, WithSignature. intros (sig & _ & Hw)%bind_Ok. apply bind_Ok in Hw as ([[r ss] v] & _ & Hw).
  apply bind_Ok in Hw as (cpy & Hset & [= <-]). cbn [inner NewTx] in *. unfold NewTx in Hset. cbn [inner] in Hset.
  destruct tx; cbn [setSignatureValues] in Hset; [injection Hset as <-; done..|].
  case_decide; [|done]. injection Hset as <-. done.
Qed.

Lemma submitCommit_spec c d p s s' :
  submitCommit c d p s = (Ok (), s') →
  ∃ tx, trace s' = trace s ++ [Sent tx] ∧
    commit_tx (committer s) 500000 (encodeSubmitCommit c (StateRootOld d) (StateRootNew d) p) tx.
Proof.
  unfold submitCommit, lift_tx. intros Hm. do 3 (step; cbn beta iota zeta in Hm). repeat step.
  repeat match goal with H : emit _ _ = _ |- _ => unfold emit in H; injection H as <- <- end.
  case_decide; [by destruct (lift_inv _ _ _ _ Hm)|]. injection Hm as <-. cbn.
  case_match eqn:Hsign; [|done..]. simplify_eq. apply SignTx_fields in Hsign as (Hto & Hval & Hgas & Hdat & _).
  eexists. split; [reflexivity|]. unfold commit_tx. rewrite Hto, Hval, Hgas, Hdat.
  unfold NewTransaction. cbn [tx_To tx_Value tx_Gas tx_Data]. split_and!; reflexivity.
Qed.

(** The state root before a block: of the parent the client returns, zero for block 0. *)
Definition old_root (client : Client) (number : Z) (w w' : W) (old : Hash) : Prop :=
  (number = 0 ∧ old = Hash0 ∧ w' = w) ∨
  (number ≠ 0 ∧ ∃ parent, BlockByNumber client (Some (u64 (number - 1))) w = (Some parent, w') ∧ old = Root (b_header parent)).

Lemma Uint64_range {E} x z : Uint64 (E := E) x = Ok z → 0 <= z.
Proof. unfold Uint64. destruct x; [|done]. intros <-%Ok_inj. apply u64_range. Qed.

Lemma aggregateBlockData_spec c block s data s' client :
  chainClients (committer s) !! c = Some client →
  aggregateBlockData c block s = (Ok data, s') →
  ∃ number signer old, block_number block = Ok number ∧ LatestSignerForChainID (E := committer_error) (Some c) = Ok signer ∧
    old_root client number (world s) (world s') old ∧ committer s' = committer s ∧ trace s' = trace s ∧
    data = MkBlockData c number old (Root (b_header block)) (extract signer (b_transactions block)).
Proof.
  intros Hcl. unfold aggregateBlockData. intros Hm. apply bind_inv in Hm as (number & s1 & Hn & Hm).
  apply lift_inv in Hn as [Hn ->]. pose proof (Uint64_range _ _ Hn) as H0n.
  apply bind_inv in Hm as (old & s2 & Hold & Hm). repeat step.
  exists number. eexists. exists old. split_and!; [done|done| | | |reflexivity].
  - case_decide.
    + repeat step. simplify_eq. cbn. right. split; [lia|]. eauto.
    + step. left. split_and!; [lia|done|done].
  - case_decide; repeat step; done.
  - case_decide; repeat step; done.
Qed.

(** C23: what processing a block does: when [processBlock] succeeds, the client of the chain
    returned the block; if no transaction of it has a recoverable sender nothing is sent,
    otherwise exactly one transaction is sent: to the audit contract, with no value, and
    with the call data that encode the chain id, the state root of the parent block the
    client returned and the state root of the block. The service itself is unchanged. *)
Theorem processBlock_commits c n s s' :
  processBlock c n s = (Ok (), s') →
  ∃ client block number signer w w' old,
    chainClients (committer s) !! c = Some client ∧ BlockByNumber client (Some n) (world s) = (Some block, w) ∧
    block_number block = Ok number ∧ LatestSignerForChainID (E := committer_error) (Some c) = Ok signer ∧
    old_root client number w w' old ∧ committer s' = committer s ∧
    if decide (extract signer (b_transactions block) = []) then trace s' = trace s
    else ∃ tx, trace s' = trace s ++ [Sent tx] ∧
      commit_tx (committer s) 500000 (encodeSubmitCommit c old (Root (b_header block))
        (MkProofData nil_points [nil_points; nil_points] nil_points [SetBytes old; SetBytes (Root (b_header block))])) tx.
Proof.
  intros Hm. pose proof (sends_processBlock c n s) as [Hcom _]. rewrite Hm in Hcom. cbn in Hcom.
  unfold processBlock in Hm. repeat step.
  match goal with Ha : aggregateBlockData _ _ _ = _ |- _ =>
    eapply aggregateBlockData_spec in Ha as (number & signer & old & ? & ? & ? & Hc & Ht & ->); [|done] end.
  cbn [committer trace world] in *. do 7 eexists. split_and!; [done..|].
  cbn [Transactions] in Hm. case_decide.
  - injection Hm as <-. done.
  - apply submitCommit_spec in Hm as (tx & Htr & Htx). exists tx. split; [by rewrite Htr, Ht|].
    rewrite Hc in Htx. exact Htx.
Qed.

(** ** Aggregated commits *)

Lemma submitAggregatedCommitTx_spec agg s s' :
  submitAggregatedCommitTx agg s = (Ok (), s') →
  ∃ tx, trace s' = trace s ++ [Sent tx] ∧
    commit_tx (committer s) 600000
      (selector submitAggregated_signature ++ BigToHash (ag_NodeID agg) ++ AggregatedRoot agg) tx.
Proof.
  unfold submitAggregatedCommitTx, lift_tx. intros Hm. do 3 (step; cbn beta iota zeta in Hm). repeat step.
  unfold emit in Hm. injection Hm as <-. cbn.
  case_match eqn:Hsign; [|done..]. simplify_eq. apply SignTx_fields in Hsign as (Hto & Hval & Hgas & Hdat & _).
  eexists. split; [reflexivity|]. unfold commit_tx. rewrite Hto, Hval, Hgas, Hdat.
  unfold NewTransaction. cbn [tx_To tx_Value tx_Gas tx_Data]. split_and!; reflexivity.
Qed.

(** The roots a run of [collect_roots] can return: one per chain at most, each the state
    root of a block that the client of that chain returned as its latest. *)
Inductive roots_of (clients : gmap Z Client) : list ChainConfig → list Hash → Prop :=
| roots_nil : roots_of clients [] []
| roots_skip chain chains roots : roots_of clients chains roots → roots_of clients (chain :: chains) roots
| roots_take chain chains roots client w block w' :
    clients !! ChainID chain = Some client → BlockByNumber client None w = (Some block, w') →
    roots_of clients chains roots → roots_of clients (chain :: chains) (Root (b_header block) :: roots).

Lemma collect_roots_spec chains s roots s' :
  collect_roots chains s = (Ok roots, s') →
  roots_of (chainClients (committer s)) chains roots ∧ committer s' = committer s ∧ trace s' = trace s.
Proof.
  revert s roots s'. induction chains as [|chain chains IH]; intros s roots s' Hm; cbn [collect_roots] in Hm.
  - step. split_and!; [constructor|done..].
  - rewrite bind_asks in Hm. destruct (chainClients (committer s) !! ChainID chain) as [client|] eqn:Ecl.
    + unfold handle, call in Hm. destruct (BlockByNumber client None (world s)) as [[block|] w] eqn:Eb.
      * apply bind_inv in Hm as (rs & s1 & Hrs & Hm). step.
        apply IH in Hrs as (Hr & Hc & Ht). cbn in *. split_and!; [by econstructor|done..].
      * apply IH in Hm as (Hr & Hc & Ht). cbn in *. split_and!; [by constructor|done..].
    + apply IH in Hm as (Hr & Hc & Ht). split_and!; [by constructor|done..].
Qed.

(** what an aggregation step does: when [processAsIntermediateNode] succeeds on a tree
    node, it has collected latest state roots from its reachable chains (at most one per
    chain), added one zero placeholder per child committer, and, unless there is nothing to
    aggregate, sent exactly one transaction to the audit contract with the node id and the
    Merkle root of that list. *)
Theorem processAsIntermediateNode_commits s s' :
  processAsIntermediateNode s = (Ok (), s') → TreeNodeID (config (committer s)) ≠ 0 →
  ∃ roots, roots_of (chainClients (committer s)) (OrdinaryChains (config (committer s))) roots ∧
    let childRoots := roots ++ ((λ _, Hash0) <$> ChildCommitters (config (committer s))) in
    if decide (childRoots = []) then trace s' = trace s
    else ∃ root tx, computeRootHash childRoots = Ok root ∧ trace s' = trace s ++ [Sent tx] ∧
      commit_tx (committer s) 600000
        (selector submitAggregated_signature ++ BigToHash (TreeNodeID (config (committer s))) ++ root) tx.
Proof.
  unfold processAsIntermediateNode. intros Hm Hid. rewrite bind_asks, decide_False in Hm by done.
  apply bind_inv in Hm as (roots & s1 & Hr & Hm). apply collect_roots_spec in Hr as (Hr & Hc & Ht).
  exists roots. split; [done|]. cbv zeta in *. case_decide as E.
  - injection Hm as <-. congruence.
  - apply bind_inv in Hm as (root & s2 & Hroot & Hm). unfold lift_merkle in Hroot. apply lift_inv in Hroot as [Hroot ->].
    apply submitAggregatedCommitTx_spec in Hm as (tx & Htr & Htx). exists root, tx.
    split_and!; [by case_match; simplify_eq|congruence|]. rewrite Hc in Htx. exact Htx.
Qed.

(** ** Chains behind a gateway *)

Definition keeps (P : service → Prop) {A} (m : M A) : Prop := ∀ s, P s → P (snd (m s)).

Lemma keeps_bind P {A B} (m : M A) (f : A → M B) : keeps P m → (∀ a, keeps P (f a)) → keeps P (m ≫= f).
Proof.
  intros Hm Hf s Hs. specialize (Hm s Hs). unfold mbind, M_bind. destruct (m s) as [[a|e|] s1]; [|done..]. by apply Hf.
Qed.

Lemma keeps_handle P {A B} (m : M A) (ok : A → M B) bad :
  keeps P m → (∀ a, keeps P (ok a)) → keeps P bad → keeps P (handle m ok bad).
Proof.
  intros Hm Hok Hbad s Hs. specialize (Hm s Hs). unfold handle.
  destruct (m s) as [[a|e|] s1]; [by apply Hok|by apply Hbad|done].
Qed.

Lemma keeps_asks P {A B} (f : Committer → A) (g : A → M B) :
  (∀ s, P s → keeps P (g (f (committer s)))) → keeps P (asks f ≫= g).
Proof. intros Hg s Hs. rewrite bind_asks. by apply Hg. Qed.

Section gateway.
Context (id : Z) (cfg : CommitterConfig).
Context (gateways : Forall (λ chain, ChainID chain = id → is_gateway chain = true) (OrdinaryChains cfg)).

(** The chain [id] has no client and no processed block. *)
Definition skipped (s : service) : Prop :=
  config (committer s) = cfg ∧ chainClients (committer s) !! id = None ∧
  lastProcessed (committer s) !! id = None ∧ processed id (trace s) = [].

Lemma skipped_sends {A} (m : M A) : sends m → keeps skipped m.
Proof.
  intros Hm s Hs. destruct (Hm s) as [E [txs T]]. unfold skipped in *.
  by rewrite E, T, processed_app, processed_sent, app_nil_r.
Qed.

Lemma skipped_block_loop fuel c n latest : c ≠ id → keeps skipped (block_loop fuel c n latest).
Proof.
  intros Hne. revert n. induction fuel as [|fuel IH]; intros n; cbn [block_loop]; (case_decide; [|by intros s Hs]).
  - by apply skipped_sends, sends_lift.
  - apply keeps_handle; [apply skipped_sends, sends_processBlock|intros _|by intros s Hs].
    apply keeps_bind; [|intros _; apply keeps_bind; [|intros _; apply IH]].
    + intros s Hs. unfold skipped in *. cbn. by rewrite lookup_insert_ne.
    + intros s Hs. unfold skipped in *. cbn [snd emit committer trace]. rewrite processed_app. cbn [processed omap list_omap].
      rewrite decide_False, app_nil_r by done. done.
Qed.

Lemma skipped_processNewBlocks : keeps skipped processNewBlocks.
Proof.
  apply keeps_asks. intros s0 _. generalize (OrdinaryChains (config (committer s0))). clear gateways.
  intros chains. induction chains as [|chain chains IH]; [by intros s Hs|].
  apply keeps_bind; [|done]. apply keeps_asks. intros s1 (_ & Hcl & _). case_match eqn:E; [|by intros s Hs].
  assert (ChainID chain ≠ id) as Hne by congruence.
  apply keeps_handle; [apply skipped_sends, sends_call|intros latest|by intros s Hs].
  apply keeps_asks. intros s2 _. cbv zeta. case_decide; [by intros s Hs|]. by apply skipped_block_loop.
Qed.

Lemma skipped_serve signals : keeps skipped (serve signals).
Proof.
  induction signals as [|[|] signals IH]; [by intros s Hs| |by intros s Hs].
  apply keeps_bind; [|done]. apply keeps_bind; [apply skipped_processNewBlocks|intros _].
  apply keeps_asks. intros s0 _. case_decide; [|by intros s Hs].
  apply keeps_handle; [apply skipped_sends, sends_processAsIntermediateNode|intros a s Hs; exact Hs|by intros s Hs].
Qed.

Lemma skipped_connect chains :
  Forall (λ chain, ChainID chain = id → is_gateway chain = true) chains → keeps skipped (connect chains).
Proof.
  induction 1 as [|chain chains Hg _ IH]; [by intros s Hs|]. cbn [connect]. apply keeps_bind; [|done].
  destruct (is_gateway chain) eqn:E; [by intros s Hs|]. assert (ChainID chain ≠ id) as Hne by (intros Hid; by apply Hg in Hid).
  apply keeps_bind; [apply skipped_sends, sends_call|intros cl]. apply keeps_bind; [|by intros _ s Hs].
  intros s Hs. unfold skipped in *. cbn. by rewrite lookup_insert_ne.
Qed.

(** permissioned chains are never audited: whatever the endpoints answer and however
    long the service runs, a chain that is only configured through a gateway gets no client,
    none of its blocks is ever processed and its block count stays at zero. *)
Theorem gateway_chains_skipped signals s :
  fresh s → chainClients (committer s) = ∅ → config (committer s) = cfg →
  chainClients (committer (snd (Start signals s))) !! id = None ∧
  processed id (trace (snd (Start signals s))) = [] ∧ last_of id (snd (Start signals s)) = 0.
Proof.
  intros [HL HT] HC Hcfg. assert (skipped s) as Hs by (unfold skipped; by rewrite HC, HL, HT, !lookup_empty).
  assert (keeps skipped (Start signals)) as Hstart.
  { apply keeps_asks. intros s0 (Hc0 & _). rewrite Hc0. apply keeps_bind; [apply skipped_sends, sends_call|intros audit].
    apply keeps_bind; [by intros s1 Hs1|intros _]. apply keeps_bind; [by apply skipped_connect|intros _].
    apply keeps_bind; [by intros s1 Hs1|intros _; apply skipped_serve]. }
  destruct (Hstart s Hs) as (_ & H1 & H2 & H3). split_and!; [done|done|]. unfold last_of. by rewrite H2.
Qed.
End gateway.
End frame.

(** ** Call data *)

(** the layout of a commit: for 32-byte roots the call data of [encodeSubmitCommit] are
    100 bytes, a selector of four bytes followed by words from which the chain id, the old
    root and the new root are read back; they do not depend on the proof, which the declared
    signature has as three further arguments. *)
Theorem encodeSubmitCommit_layout chainID oldRoot newRoot proof :
  is_u64 chainID → Hash_ok oldRoot → Hash_ok newRoot →
  length (encodeSubmitCommit chainID oldRoot newRoot proof) = 100%nat ∧
  Big (take 32 (drop 4 (encodeSubmitCommit chainID oldRoot newRoot proof))) = chainID ∧
  take 32 (drop 36 (encodeSubmitCommit chainID oldRoot newRoot proof)) = oldRoot ∧
  drop 68 (encodeSubmitCommit chainID oldRoot newRoot proof) = newRoot ∧
  (∀ proof', encodeSubmitCommit chainID oldRoot newRoot proof' = encodeSubmitCommit chainID oldRoot newRoot proof).
Proof.
  intros Hc Ho Hn. unfold encodeSubmitCommit.
  assert (length (selector submitCommit_signature) = 4%nat) as Hs
    by (unfold selector; rewrite length_take, length_Keccak256; done).
  pose proof (BytesToHash_ok (big_Bytes chainID)) as Hb. fold (BigToHash chainID) in Hb.
  unfold Hash_ok, HashLength in *. generalize dependent (selector submitCommit_signature). intros sel Hs.
  split_and!; [rewrite !length_app; lia| | | |done].
  - rewrite drop_app_length', take_app_length' by lia. rewrite Big_BigToHash by (word_lia).
    apply Z.mod_small. word_lia.
  - rewrite (app_assoc sel), drop_app_length', take_app_length' by (rewrite ?length_app; lia). done.
  - rewrite (app_assoc sel), (app_assoc (sel ++ _)), drop_app_length' by (rewrite !length_app; lia). done.
Qed.

Lemma encodeSubmitCommit_layout_witness :
  length (encodeSubmitCommit 1337 Hash0 Hash0 (MkProofData [] [] [] [])) = 100%nat.
Proof. apply (encodeSubmitCommit_layout 1337 Hash0 Hash0); [vm_compute; split; [discriminate|reflexivity]|reflexivity..]. Defined.

(** ** A concrete network

    Every endpoint answers: chain height 2, blocks with one transaction, transactions
    mined with status 1. The world is the number of calls so far. *)
Module RelayDemo.
Import ToySecp.

Definition demo_tx : TxData := LegacyTx 0 1 21000 None 5 [] 2709 5 1.

Definition demo_relay_block (number : Z) : Block :=
  MkBlock (MkHeader Hash0 Hash0 Address0 (replicate 32 (z2b number)) Hash0 Hash0 [] (Some 1) (Some number) 0 0 0 []
    Hash0 [] None None None None None None None) [demo_tx].

#[export] Instance demo_net : EthClient Z () := {|
  Dial := λ _ w, (Some (), w + 1);
  BlockNumber := λ _ w, (Some 2, w + 1);
  BlockByNumber := λ _ n w, (Some (demo_relay_block (default 2 n)), w + 1);
  HeaderByNumber := λ _ n w, (Some (b_header (demo_relay_block (default 2 n))), w + 1);
  PendingNonceAt := λ _ _ w, (Some w, w + 1);
  SuggestGasPrice := λ _ w, (Some 1, w + 1);
  NetChainID := λ _ w, (Some 1, w + 1);
  SendTransaction := λ _ _ w, (Some (), w + 1);
  WaitMined := λ _ _ w, (Some (MkReceipt 1), w + 1)
|}.

(** Chain 1337 by RPC, chain 5 through a gateway; a tree node with one child. *)
Definition demo_cfg : CommitterConfig :=
  MkCommitterConfig (Bytes2Hex toy_key)
    [MkChainCfg 1337 [] [] [] []; MkChainCfg 5 [] [] permissioned [Byte.x67]]
    (MkChainCfg 1 [] [] [] []) (Bytes2Hex Address0) 10 [] [] 7 [MkChild 8 [] [] [1]].

Definition demo_new : Committer (Client := ()) := MkCommitter demo_cfg toy_prv None ∅ ∅ ∅.

Example demo_new_ok : NewCommitter (Some []) (λ _, Some demo_cfg) = Ok demo_new.
Proof. vm_compute. reflexivity. Qed.

Definition demo_fresh : service (W := Z) (Client := ()) := MkService demo_new 0 [].

(** The service once connected. *)
Definition demo_running : service (W := Z) (Client := ()) :=
  MkService (MkCommitter demo_cfg toy_prv (Some ()) {[1337 := ()]} ∅ ∅) 0 [].

Definition demo_processed : service (W := Z) (Client := ()) := Eval vm_compute in snd (processBlock 1337 2 demo_running).
Definition demo_aggregated : service (W := Z) (Client := ()) := Eval vm_compute in snd (processAsIntermediateNode demo_running).

Example demo_sends : length (trace demo_processed) = 1%nat ∧ length (trace demo_aggregated) = 1%nat.
Proof. split; reflexivity. Qed.
End RelayDemo.

Import ToySecp RelayDemo.


Lemma processBlock_commits_witness :
  ∃ client block number signer w w' old,
    chainClients (committer demo_running) !! 1337 = Some client ∧
    BlockByNumber client (Some 2) (world demo_running) = (Some block, w) ∧
    block_number block = Ok number ∧ LatestSignerForChainID (E := committer_error) (Some 1337) = Ok signer ∧
    old_root client number w w' old ∧ committer demo_processed = committer demo_running ∧
    if decide (extract signer (b_transactions block) = []) then trace demo_processed = trace demo_running
    else ∃ tx, trace demo_processed = trace demo_running ++ [Sent tx] ∧
      commit_tx (committer demo_running) 500000 (encodeSubmitCommit 1337 old (Root (b_header block))
        (MkProofData nil_points [nil_points; nil_points] nil_points [SetBytes old; SetBytes (Root (b_header block))])) tx.
Proof. apply (processBlock_commits 1337 2 demo_running demo_processed). vm_compute. reflexivity. Defined.

Lemma processAsIntermediateNode_commits_witness :
  ∃ roots, roots_of (chainClients (committer demo_running)) (OrdinaryChains (config (committer demo_running))) roots ∧
    let childRoots := roots ++ ((λ _, Hash0) <$> ChildCommitters (config (committer demo_running))) in
    if decide (childRoots = []) then trace demo_aggregated = trace demo_running
    else ∃ root tx, computeRootHash childRoots = Ok root ∧ trace demo_aggregated = trace demo_running ++ [Sent tx] ∧
      commit_tx (committer demo_running) 600000
        (selector submitAggregated_signature ++ BigToHash (TreeNodeID (config (committer demo_running))) ++ root) tx.
Proof.
  apply (processAsIntermediateNode_commits demo_running demo_aggregated); [vm_compute; reflexivity|discriminate].
Defined.

Lemma gateway_chains_skipped_witness :
  chainClients (committer (snd (Start [Tick; Tick] demo_fresh))) !! 5 = None ∧
  processed 5 (trace (snd (Start [Tick; Tick] demo_fresh))) = [] ∧
  last_of 5 (snd (Start [Tick; Tick] demo_fresh)) = 0.
Proof.
  apply (gateway_chains_skipped 5 demo_cfg); [|split; reflexivity|reflexivity|reflexivity].
  constructor; [discriminate|]. constructor; [|constructor]. intros _. vm_compute. reflexivity.
Defined.
