(* ===== verification/Evm.v ===== *)
(** * The EVM: words, stack, memory, code and state

    [core/vm/stack.go], [memory.go], [common.go], [gas.go], [analysis_legacy.go],
    [jumpdests.go], [contract.go] and the interfaces of [evm.go] and [interface.go]: what
    the interpreter of [EvmRun] works on, and the monad its operations are written in.

    A run of the program keeps the fields of [vm.EVM] that change ([EVM]), the state
    database in it, and what belongs to one call ([Frame]). Words are the integers below
    2^256; their arithmetic is the third-party package [holiman/uint256], a class here. The
    state database is the interface [vm.StateDB], a class as well. Tracing hooks, the
    witness recorder and the Verkle rules of EIP-4762 (the fork is not scheduled on any
    chain) are left out: the tracer is nil and [IsEIP4762] is false. *)
From Stdlib Require Import ZArith Lia.
From Stdlib Require Strings.Byte.
From stdpp Require Import base tactics decidable list numbers gmap.
From S2P Require Import Prelude Keccak Common Rlp Precompiles.

(** ** Words *)

Definition two256 : Z := 2 ^ 256.
Definition two255 : Z := 2 ^ 255.

Definition u256 (z : Z) : Z := z mod two256.

(** The arithmetic of [uint256.Int]. *)
Class Uint256 : Type := {
  uAdd : Z → Z → Z; uSub : Z → Z → Z; uMul : Z → Z → Z; uDiv : Z → Z → Z; uSDiv : Z → Z → Z;
  uMod : Z → Z → Z; uSMod : Z → Z → Z; uExp : Z → Z → Z; uExtendSign : Z → Z → Z; uNot : Z → Z;
  uSlt : Z → Z → bool; uSgt : Z → Z → bool; uAnd : Z → Z → Z; uOr : Z → Z → Z; uXor : Z → Z → Z;
  uByte : Z → Z → Z; uAddMod : Z → Z → Z → Z; uMulMod : Z → Z → Z → Z;
  uLsh : Z → Z → Z; uRsh : Z → Z → Z; uSRsh : Z → Z → Z
}.

Definition is_word (z : Z) : Prop := 0 <= z < two256.

(** What the interpreter relies on: addition is modulo 2^256, results are words. *)
Class Uint256Laws `{Uint256} : Prop := {
  uAdd_spec x y : uAdd x y = u256 (x + y);
  u1_word x : is_word x → is_word (uNot x);
  u2_word f x y :
    f ∈ [uAdd; uSub; uMul; uDiv; uSDiv; uMod; uSMod; uExp; uExtendSign; uAnd; uOr; uXor; uByte; uLsh; uRsh; uSRsh] →
    is_word x → is_word y → is_word (f x y);
  u3_word f x y z : f ∈ [uAddMod; uMulMod] → is_word x → is_word y → is_word z → is_word (f x y z)
}.

(** The conversions of [uint256.Int]. *)
Definition IsZero (x : Z) : bool := bool_decide (x = 0).
Definition IsUint64 (x : Z) : bool := bool_decide (u64 x = x).
Definition Uint64 (x : Z) : Z := u64 x.
Definition Uint64WithOverflow (x : Z) : Z * bool := (u64 x, negb (IsUint64 x)).
Definition Bytes20 (x : Z) : Address := be_bytes 20 x.
Definition Bytes32 (x : Z) : Hash := be_bytes 32 x.
Definition BitLen (x : Z) : Z := Len64 x.
Definition bool_word (b : bool) : Z := if b then 1 else 0.

(** [SetBytes] takes the last 32 bytes; [FromBig] drops higher bits. *)
Definition word_of (b : bytes) : Z := u256 (SetBytes b).
Definition FromBig (z : Z) : Z := u256 z.

(** The sign of a word read as two's complement. *)
Definition Sign (x : Z) : Z := if decide (x = 0) then 0 else if decide (x < two255) then 1 else -1.

(** ** Outcomes *)

Inductive evm_error : Type :=
| ErrStackUnderflow (stackLen required : Z)
| ErrStackOverflow (stackLen limit : Z)
| ErrInvalidOpCode (opcode : Z)
| ErrOutOfGas
| ErrCodeStoreOutOfGas
| ErrDepth
| ErrInsufficientBalance
| ErrContractAddressCollision
| ErrExecutionReverted
| ErrMaxCodeSizeExceeded
| ErrMaxInitCodeSizeExceeded (size : Z)
| ErrInvalidJump
| ErrWriteProtection
| ErrReturnDataOutOfBounds
| ErrGasUintOverflow
| ErrInvalidCode
| ErrNonceUintOverflow
| ErrReentrancySentry
| ErrPrecompile
| ErrDynamicGas (e : evm_error)  (** [fmt.Errorf("%w: %v", ErrOutOfGas, err)] *)
| errStopToken.

#[export] Instance evm_error_eq_dec : EqDecision evm_error.
Proof. solve_decision. Defined.

(** A value; an error with the data that is returned beside it; a panic of this code, of
    the state database or of a precompiled contract; or the end of the fuel. *)
Inductive out (A : Type) : Type :=
| Ret (a : A)
| Fail (e : evm_error) (ret : bytes)
| Crash
| DbCrash
| NoFuel.
Arguments Ret {A} a.
Arguments Fail {A} e ret.
Arguments Crash {A}.
Arguments DbCrash {A}.
Arguments NoFuel {A}.

(** Computations with a state, which they keep when they fail. *)
Definition ST (St A : Type) : Type := St → out A * St.

#[export] Instance ST_ret {St} : MRet (ST St) := λ A a s, (Ret a, s).

#[export] Instance ST_bind {St} : MBind (ST St) := λ A B f m s,
  match m s with
  | (Ret a, s) => f a s
  | (Fail e ret, s) => (Fail e ret, s)
  | (Crash, s) => (Crash, s)
  | (DbCrash, s) => (DbCrash, s)
  | (NoFuel, s) => (NoFuel, s)
  end.

Definition throw {St A} (e : evm_error) : ST St A := λ s, (Fail e [], s).
Definition crash {St A} : ST St A := λ s, (Crash, s).
Definition db_crash {St A} : ST St A := λ s, (DbCrash, s).
Definition no_fuel {St A} : ST St A := λ s, (NoFuel, s).
Definition gets {St A} (f : St → A) : ST St A := λ s, (Ret (f s), s).
Definition modify {St} (f : St → St) : ST St () := λ s, (Ret (), f s).
Definition of_opt {St A} (o : option A) : ST St A := match o with Some a => mret a | None => crash end.

(** The first part of a pair as a state of its own. *)
Definition zoom {S1 S2 A} (m : ST S1 A) : ST (S1 * S2) A := λ '(s1, s2), let '(r, s1) := m s1 in (r, (s1, s2)).

(** ** Memory: [memory.go] *)

Record Memory : Type := MkMemory { store : bytes; lastGasCost : Z }.

Definition NewMemory : Memory := MkMemory [] 0.

Definition mem_Len (m : Memory) : Z := Z.of_nat (length (store m)).

(** [copy(dst, src)]: the shorter length counts. *)
Definition copy (dst src : bytes) : bytes := take (length dst) src ++ drop (length src) dst.

(** [copy(store[lo:hi], value)], with a panic for a slice out of bounds. *)
Definition copy_into (m : Memory) (lo hi : Z) (value : bytes) : option Memory :=
  if decide (0 <= lo <= hi ∧ hi <= mem_Len m) then
    let n := Z.to_nat (hi - lo) in
    let i := Z.to_nat lo in
    Some (MkMemory (take i (store m) ++ copy (take n (drop i (store m))) value ++ drop (i + n) (store m)) (lastGasCost m))
  else None.

Definition mem_Set (m : Memory) (offset size : Z) (value : bytes) : option Memory :=
  if decide (0 < size) then
    if decide (mem_Len m < u64 (offset + size)) then None
    else copy_into m offset (u64 (offset + size)) value
  else Some m.

Definition mem_Set32 (m : Memory) (offset val : Z) : option Memory :=
  if decide (mem_Len m < u64 (offset + 32)) then None
  else copy_into m offset (offset + 32) (be_bytes 32 val).

Definition mem_Resize (m : Memory) (size : Z) : Memory :=
  if decide (mem_Len m < size) then
    MkMemory (store m ++ replicate (Z.to_nat (size - mem_Len m)) Byte.x00) (lastGasCost m)
  else m.

(** A slice that ends beyond the length but within the capacity of the store would not
    panic; it counts as a panic here. *)
Definition mem_GetPtr (m : Memory) (offset size : Z) : option bytes :=
  if decide (size = 0) then Some []
  else
    let stop := u64 (offset + size) in
    if decide (0 <= offset <= stop ∧ stop <= mem_Len m)
    then Some (take (Z.to_nat (stop - offset)) (drop (Z.to_nat offset) (store m))) else None.

Definition mem_GetCopy (m : Memory) (offset size : Z) : option bytes := mem_GetPtr m offset size.

Definition mem_Copy (m : Memory) (dst src len : Z) : option Memory :=
  if decide (len = 0) then Some m
  else
    data ← mem_GetPtr m src len;
    if decide (0 <= dst <= mem_Len m) then copy_into m dst (Z.min (dst + Z.of_nat (length data)) (mem_Len m)) data else None.

(** ** Sizes: [common.go] *)

Definition calcMemSize64WithUint (off length64 : Z) : Z * bool :=
  if decide (length64 = 0) then (0, false)
  else
    let '(offset64, overflow) := Uint64WithOverflow off in
    if overflow then (0, true)
    else
      let val := u64 (offset64 + length64) in
      (val, bool_decide (val < offset64)).

Definition calcMemSize64 (off l : Z) : Z * bool :=
  if negb (IsUint64 l) then (0, true) else calcMemSize64WithUint off (Uint64 l).

Definition toWordSize (size : Z) : Z :=
  if decide (MaxUint64 - 31 < size) then MaxUint64 / 32 + 1 else u64 (size + 31) / 32.

(** ** Call gas: [gas.go] *)

Definition GasQuickStep : Z := 2.
Definition GasFastestStep : Z := 3.
Definition GasFastishStep : Z := 4.
Definition GasFastStep : Z := 5.
Definition GasMidStep : Z := 8.
Definition GasSlowStep : Z := 10.
Definition GasExtStep : Z := 20.

Definition callGas (isEip150 : bool) (availableGas base callCost : Z) : res evm_error Z :=
  let rest := if IsUint64 callCost then Ok (Uint64 callCost) else Err ErrGasUintOverflow in
  if isEip150 then
    let availableGas := u64 (availableGas - base) in
    let gas := u64 (availableGas - availableGas / 64) in
    if negb (IsUint64 callCost) || bool_decide (gas < Uint64 callCost) then Ok gas else rest
  else rest.

(** ** Jump analysis: [analysis_legacy.go] *)

Definition JUMPDEST : Z := 0x5b.
Definition PUSH1 : Z := 0x60.
Definition PUSH32 : Z := 0x7f.

Abbreviation BitVec := bytes.

Definition i8 (z : Z) : Z := (z + 128) mod 256 - 128.

(** [bits[i] |= a] and [bits[i] = a]. *)
Definition or_byte (bits : BitVec) (i a : Z) : option BitVec :=
  b ← bits !! Z.to_nat i; Some (<[Z.to_nat i := z2b (Z.lor (b2z b) a)]> bits).

Definition set_byte (bits : BitVec) (i a : Z) : option BitVec :=
  _ ← bits !! Z.to_nat i; Some (<[Z.to_nat i := z2b a]> bits).

Definition set1 (bits : BitVec) (pos : Z) : option BitVec := or_byte bits (pos / 8) (Z.shiftl 1 (pos mod 8) mod 256).

Definition setN (bits : BitVec) (flag pos : Z) : option BitVec :=
  let a := Z.shiftl flag (pos mod 8) mod 65536 in
  bits ← or_byte bits (pos / 8) (a mod 256);
  let b := Z.shiftr a 8 mod 256 in
  if decide (b ≠ 0) then set_byte bits (pos / 8 + 1) b else Some bits.

Definition set8 (bits : BitVec) (pos : Z) : option BitVec :=
  let a := Z.shiftl 0xFF (pos mod 8) mod 256 in
  bits ← or_byte bits (pos / 8) a;
  set_byte bits (pos / 8 + 1) (255 - a).

Definition set16 (bits : BitVec) (pos : Z) : option BitVec :=
  let a := Z.shiftl 0xFF (pos mod 8) mod 256 in
  bits ← or_byte bits (pos / 8) a;
  bits ← set_byte bits (pos / 8 + 1) 0xFF;
  set_byte bits (pos / 8 + 2) (255 - a).

Definition codeSegment (bits : BitVec) (pos : Z) : option bool :=
  b ← bits !! Z.to_nat (pos / 8); Some (bool_decide (Z.land (Z.shiftr (b2z b) (pos mod 8)) 1 = 0)).

(** The part of the loop body after [numbits] is set. *)
Definition mark_push (bits : BitVec) (pc numbits : Z) : option (BitVec * Z) :=
  '(bits, pc, numbits) ← (if decide (16 <= numbits) then
     bits ← set16 bits pc;
     if decide (32 <= numbits) then bits ← set16 bits (pc + 16); Some (bits, pc + 32, numbits - 32)
     else Some (bits, pc + 16, numbits - 16)
   else Some (bits, pc, numbits));
  '(bits, pc, numbits) ← (if decide (8 <= numbits) then bits ← set8 bits pc; Some (bits, pc + 8, numbits - 8)
                          else Some (bits, pc, numbits));
  if decide (numbits = 1) then bits ← set1 bits pc; Some (bits, pc + 1)
  else if decide (2 <= numbits) then bits ← setN bits (2 ^ numbits - 1) pc; Some (bits, pc + numbits)
  else Some (bits, pc).

(** Every iteration moves [pc] on, so the length of the code is enough fuel. *)
Fixpoint codeBitmap_loop (fuel : nat) (code : bytes) (pc : Z) (bits : BitVec) : option BitVec :=
  match fuel with
  | O => None
  | S fuel =>
      match code !! Z.to_nat pc with
      | None => Some bits
      | Some op =>
          let pc := pc + 1 in
          if decide (i8 (b2z op) < i8 PUSH1) then codeBitmap_loop fuel code pc bits
          else
            '(bits, pc) ← mark_push bits pc (b2z op - PUSH1 + 1);
            codeBitmap_loop fuel code pc bits
      end
  end.

Definition codeBitmap (code : bytes) : option BitVec :=
  codeBitmap_loop (S (length code)) code 0 (replicate (length code / 8 + 1 + 4) Byte.x00).

(** [JumpDestCache], the map that [newMapJumpDests] makes. *)
Definition JumpDestCache : Type := gmap Hash BitVec.

(** ** Contracts: [contract.go] *)

Record Contract : Type := MkContract {
  caller : Address;
  address : Address;
  analysis : option BitVec;
  Code : bytes;
  CodeHash : Hash;
  Input : bytes;
  IsDeployment : bool;
  IsSystemCall : bool;
  Gas : Z;
  value : Z
}.

Definition NewContract (caller address : Address) (value gas : Z) : Contract :=
  MkContract caller address None [] Hash0 [] false false gas value.

Definition SetCallCode (hash : Hash) (code : bytes) (c : Contract) : Contract :=
  MkContract (caller c) (address c) (analysis c) code hash (Input c) (IsDeployment c) (IsSystemCall c) (Gas c) (value c).

Definition set_Input (input : bytes) (c : Contract) : Contract :=
  MkContract (caller c) (address c) (analysis c) (Code c) (CodeHash c) input (IsDeployment c) (IsSystemCall c) (Gas c) (value c).

Definition set_IsSystemCall (b : bool) (c : Contract) : Contract :=
  MkContract (caller c) (address c) (analysis c) (Code c) (CodeHash c) (Input c) (IsDeployment c) b (Gas c) (value c).

Definition set_IsDeployment (b : bool) (c : Contract) : Contract :=
  MkContract (caller c) (address c) (analysis c) (Code c) (CodeHash c) (Input c) b (IsSystemCall c) (Gas c) (value c).

Definition set_analysis (a : BitVec) (c : Contract) : Contract :=
  MkContract (caller c) (address c) (Some a) (Code c) (CodeHash c) (Input c) (IsDeployment c) (IsSystemCall c) (Gas c) (value c).

Definition set_Gas (gas : Z) (c : Contract) : Contract :=
  MkContract (caller c) (address c) (analysis c) (Code c) (CodeHash c) (Input c) (IsDeployment c) (IsSystemCall c) gas (value c).

Definition GetOp (c : Contract) (n : Z) : Z :=
  match Code c !! Z.to_nat n with Some b => b2z b | None => 0 end.

(** [UseGas]: whether there was enough. *)
Definition UseGas (gas : Z) (c : Contract) : bool * Contract :=
  if decide (Gas c < gas) then (false, c) else (true, set_Gas (Gas c - gas) c).

Definition RefundGas (gas : Z) (c : Contract) : Contract :=
  if decide (gas = 0) then c else set_Gas (u64 (Gas c + gas)) c.

(** [isCode]: the answer, the contract and the cache after it. *)
Definition isCode (udest : Z) (c : Contract) (cache : JumpDestCache) : option (bool * Contract * JumpDestCache) :=
  match analysis c with
  | Some a => b ← codeSegment a udest; Some (b, c, cache)
  | None =>
      if decide (CodeHash c ≠ Hash0) then
        '(a, cache) ← (match cache !! CodeHash c with
                       | Some a => Some (a, cache)
                       | None => a ← codeBitmap (Code c); Some (a, <[CodeHash c := a]> cache)
                       end);
        b ← codeSegment a udest;
        Some (b, set_analysis a c, cache)
      else
        a ← codeBitmap (Code c);
        b ← codeSegment a udest;
        Some (b, set_analysis a c, cache)
  end.

Definition validJumpdest (dest : Z) (c : Contract) (cache : JumpDestCache) : option (bool * Contract * JumpDestCache) :=
  let '(udest, overflow) := Uint64WithOverflow dest in
  if overflow || bool_decide (Z.of_nat (length (Code c)) <= udest) then Some (false, c, cache)
  else if decide (GetOp c udest ≠ JUMPDEST) then Some (false, c, cache)
  else isCode udest c cache.

(** ** The state database: [interface.go] *)

Record Log : Type := MkLog { log_Address : Address; log_Topics : list Hash; log_Data : bytes; log_BlockNumber : Z }.

(** [vm.StateDB] with states [S]. Reasons for tracing are dropped. [SubRefund] panics when
    the counter would fall below zero. *)
Class StateDB (S : Type) : Type := {
  CreateAccount : Address → S → S;
  CreateContract : Address → S → S;
  SubBalance : Address → Z → S → S;
  AddBalance : Address → Z → S → S;
  GetBalance : Address → S → Z;
  GetNonce : Address → S → Z;
  SetNonce : Address → Z → S → S;
  GetCodeHash : Address → S → Hash;
  GetCode : Address → S → bytes;
  SetCode : Address → bytes → S → S;
  GetCodeSize : Address → S → Z;
  AddRefund : Z → S → S;
  SubRefund : Z → S → option S;
  GetStateAndCommittedState : Address → Hash → S → Hash * Hash;
  GetState : Address → Hash → S → Hash;
  SetState : Address → Hash → Hash → S → S;
  GetStorageRoot : Address → S → Hash;
  GetTransientState : Address → Hash → S → Hash;
  SetTransientState : Address → Hash → Hash → S → S;
  SelfDestruct : Address → S → S;
  HasSelfDestructed : Address → S → bool;
  Exist : Address → S → bool;
  IsNewContract : Address → S → bool;
  Empty : Address → S → bool;
  AddressInAccessList : Address → S → bool;
  SlotInAccessList : Address → Hash → S → bool * bool;
  AddAddressToAccessList : Address → S → S;
  AddSlotToAccessList : Address → Hash → S → S;
  RevertToSnapshot : Z → S → S;
  Snapshot : S → Z * S;
  AddLog : Log → S → S;
  AddPreimage : Hash → bytes → S → S
}.

(** [CanTransfer] and [Transfer] of [core/evm.go]. *)
Definition CanTransfer {S : Type} `{StateDB S} (db : S) (addr : Address) (amount : Z) : bool :=
  bool_decide (amount <= GetBalance addr db).

Definition Transfer {S : Type} `{StateDB S} (db : S) (sender recipient : Address) (amount : Z) : S :=
  AddBalance recipient amount (SubBalance sender amount db).

(** ** The EVM: [evm.go] *)

Record BlockContext : Type := MkBlockContext {
  GetHash : Z → Hash;
  Coinbase : Address;
  bc_GasLimit : Z;
  BlockNumber : Z;
  Time : Z;
  Difficulty : Z;
  BaseFee : option Z;
  BlobBaseFee : option Z;
  Random : option Hash;
  SlotNum : Z
}.

Record TxContext : Type := MkTxContext { Origin : Address; GasPrice : Z; BlobHashes : list Hash }.

(** The rules that the interpreter looks at; [precompile_rules] are those of the registry. *)
Record EvmRules : Type := MkEvmRules {
  IsHomestead : bool; IsEIP150 : bool; IsEIP158 : bool; IsByzantium : bool; IsConstantinople : bool;
  IsPetersburg : bool; IsIstanbul : bool; IsBerlin : bool; IsEIP2929 : bool; IsLondon : bool; IsMerge : bool;
  IsShanghai : bool; IsCancun : bool; IsPrague : bool; IsOsaka : bool; IsAmsterdam : bool;
  precompile_rules : Rules
}.

(** The fields of [vm.EVM] that change. [aborts] are the answers that the next loads of the
    flag [abort] get, which another goroutine may set with [Cancel]: none from the end on. *)
Record EVM (S : Type) : Type := MkEVM {
  db : S;
  depth : Z;
  callGasTemp : Z;
  jumpDests : JumpDestCache;
  readOnly : bool;
  returnData : bytes;
  aborts : list bool
}.
Arguments MkEVM {S}.
Arguments db {S}.
Arguments depth {S}.
Arguments callGasTemp {S}.
Arguments jumpDests {S}.
Arguments readOnly {S}.
Arguments returnData {S}.
Arguments aborts {S}.

Section fields.
Context {S : Type}.
Implicit Types e : EVM S.

Definition set_db (x : S) e : EVM S := MkEVM x (depth e) (callGasTemp e) (jumpDests e) (readOnly e) (returnData e) (aborts e).
Definition set_depth (x : Z) e : EVM S := MkEVM (db e) x (callGasTemp e) (jumpDests e) (readOnly e) (returnData e) (aborts e).
Definition set_callGasTemp (x : Z) e : EVM S := MkEVM (db e) (depth e) x (jumpDests e) (readOnly e) (returnData e) (aborts e).
Definition set_jumpDests (x : JumpDestCache) e : EVM S := MkEVM (db e) (depth e) (callGasTemp e) x (readOnly e) (returnData e) (aborts e).
Definition set_readOnly (x : bool) e : EVM S := MkEVM (db e) (depth e) (callGasTemp e) (jumpDests e) x (returnData e) (aborts e).
Definition set_returnData (x : bytes) e : EVM S := MkEVM (db e) (depth e) (callGasTemp e) (jumpDests e) (readOnly e) x (aborts e).
Definition set_aborts (x : list bool) e : EVM S := MkEVM (db e) (depth e) (callGasTemp e) (jumpDests e) (readOnly e) (returnData e) x.
End fields.

(** What belongs to one call: the program counter and the [ScopeContext]. The top of the
    stack, the end of the slice [data], comes first. *)
Record Frame : Type := MkFrame { pc : Z; stack : list Z; mem : Memory; contract : Contract }.

Definition set_pc (x : Z) (f : Frame) : Frame := MkFrame x (stack f) (mem f) (contract f).
Definition set_stack (x : list Z) (f : Frame) : Frame := MkFrame (pc f) x (mem f) (contract f).
Definition set_mem (x : Memory) (f : Frame) : Frame := MkFrame (pc f) (stack f) x (contract f).
Definition set_contract (x : Contract) (f : Frame) : Frame := MkFrame (pc f) (stack f) (mem f) x.

(** ** Stacks: [stack.go] *)

Definition StackLimit : Z := 1024.

Definition st_Back (st : list Z) (n : nat) : option Z := st !! n.

(** [swap n] exchanges the top with the item [n] below it, [dup n] copies the [n]'th item. *)
Definition st_swap (n : nat) (st : list Z) : option (list Z) :=
  x ← st !! 0%nat; y ← st !! n; Some (<[0%nat := y]> (<[n := x]> st)).

Definition st_dup (n : nat) (st : list Z) : option (list Z) :=
  match n with O => None | S n => x ← st !! n; Some (x :: st) end.

(** ** Operations *)

(** What an instruction does: to the EVM and to the frame it runs in. *)
Definition Op (S : Type) : Type → Type := ST (EVM S * Frame).

Section operations.
Context {S : Type}.

Definition get_evm {A} (f : EVM S → A) : Op S A := gets (λ s, f (fst s)).
Definition get_frame {A} (f : Frame → A) : Op S A := gets (λ s, f (snd s)).
Definition mod_evm (f : EVM S → EVM S) : Op S () := modify (λ s, (f (fst s), snd s)).
Definition mod_frame (f : Frame → Frame) : Op S () := modify (λ s, (fst s, f (snd s))).

Definition pop : Op S Z := λ s,
  match stack (snd s) with
  | x :: st => (Ret x, (fst s, set_stack st (snd s)))
  | [] => (Crash, s)
  end.

Definition peek : Op S Z := st ← get_frame stack; of_opt (head st).
Definition push (x : Z) : Op S () := mod_frame (λ f, set_stack (x :: stack f) f).
Definition Back (n : nat) : Op S Z := st ← get_frame stack; of_opt (st_Back st n).

(** Writing through the pointer that [peek] returned. *)
Definition poke (x : Z) : Op S () := _ ← pop; push x.

Definition get_db {A} (f : S → A) : Op S A := get_evm (λ e, f (db e)).
Definition mod_db (f : S → S) : Op S () := mod_evm (λ e, set_db (f (db e)) e).

(** Changing the memory, which panics when it does not reach. *)
Definition with_mem (f : Memory → option Memory) : Op S () :=
  m ← get_frame mem; m ← of_opt (f m); mod_frame (set_mem m).

Definition read_mem (f : Memory → option bytes) : Op S bytes := m ← get_frame mem; of_opt (f m).

Definition get_contract {A} (f : Contract → A) : Op S A := get_frame (λ f', f (contract f')).
Definition mod_contract (f : Contract → Contract) : Op S () := mod_frame (λ f', set_contract (f (contract f')) f').

(** An instruction that returns no data. *)
Definition done : Op S bytes := mret [].
End operations.
