(* ===== verification/EvmGas.v ===== *)
(** * The EVM: dynamic gas

    [core/vm/memory_table.go], [gas_table.go] and [operations_acl.go]: how much memory an
    instruction needs and what it costs beyond its constant price. The function values of
    the jump tables are the constructors of [memorySizeFunc] and [gasFunc], interpreted by
    [memorySize_of] and [dynamicGas_of]. *)
From Stdlib Require Import ZArith Lia.
From Stdlib Require Strings.Byte.
From stdpp Require Import base tactics decidable list numbers gmap.
From S2P Require Import Prelude Keccak Common Rlp Precompiles Evm.

(** ** Prices: [params/protocol_params.go] *)

Definition MemoryGas : Z := 3.
Definition QuadCoeffDiv : Z := 512.
Definition CopyGas : Z := 3.
Definition LogGas : Z := 375.
Definition LogTopicGas : Z := 375.
Definition LogDataGas : Z := 8.
Definition Keccak256WordGas : Z := 6.
Definition InitCodeWordGas : Z := 2.
Definition MaxCodeSize : Z := 24576.
Definition MaxInitCodeSize : Z := 2 * MaxCodeSize.
Definition ExpByteFrontier : Z := 10.
Definition ExpByteEIP158 : Z := 50.
Definition ExpGas : Z := 10.
Definition CallNewAccountGas : Z := 25000.
Definition CallValueTransferGas : Z := 9000.
Definition CallStipend : Z := 2300.
Definition SelfdestructGasEIP150 : Z := 5000.
Definition CreateBySelfdestructGas : Z := 25000.
Definition SelfdestructRefundGas : Z := 24000.
Definition SstoreSetGas : Z := 20000.
Definition SstoreResetGas : Z := 5000.
Definition SstoreClearGas : Z := 5000.
Definition SstoreRefundGas : Z := 15000.
Definition NetSstoreNoopGas : Z := 200.
Definition NetSstoreInitGas : Z := 20000.
Definition NetSstoreCleanGas : Z := 5000.
Definition NetSstoreDirtyGas : Z := 200.
Definition NetSstoreClearRefund : Z := 15000.
Definition NetSstoreResetRefund : Z := 4800.
Definition NetSstoreResetClearRefund : Z := 19800.
Definition SstoreSentryGasEIP2200 : Z := 2300.
Definition SstoreSetGasEIP2200 : Z := 20000.
Definition SstoreResetGasEIP2200 : Z := 5000.
Definition SstoreClearsScheduleRefundEIP2200 : Z := 15000.
Definition SloadGasEIP2200 : Z := 800.
Definition ColdSloadCostEIP2929 : Z := 2100.
Definition ColdAccountAccessCostEIP2929 : Z := 2600.
Definition WarmStorageReadCostEIP2929 : Z := 100.
Definition TxAccessListStorageKeyGas : Z := 1900.
Definition SstoreClearsScheduleRefundEIP3529 : Z := SstoreResetGasEIP2200 - ColdSloadCostEIP2929 + TxAccessListStorageKeyGas.

(** ** Memory sizes: [memory_table.go] *)

Inductive memorySizeFunc : Type :=
| memoryKeccak256 | memoryCallDataCopy | memoryReturnDataCopy | memoryCodeCopy | memoryExtCodeCopy
| memoryMLoad | memoryMStore8 | memoryMStore | memoryMcopy | memoryCreate | memoryCreate2
| memoryCall | memoryDelegateCall | memoryStaticCall | memoryReturn | memoryRevert | memoryLog.

Section memory_sizes.
Context (st : list Z).

Definition size_at (off len : nat) : option (Z * bool) :=
  o ← st_Back st off; l ← st_Back st len; Some (calcMemSize64 o l).

Definition size_fixed (off : nat) (len : Z) : option (Z * bool) := o ← st_Back st off; Some (calcMemSize64WithUint o len).

(** The larger of the two ranges of a call: arguments and return data. *)
Definition size_call (retOff retLen inOff inLen : nat) : option (Z * bool) :=
  '(x, overflow) ← size_at retOff retLen;
  if (overflow : bool) then Some (0, true)
  else
    '(y, overflow) ← size_at inOff inLen;
    if (overflow : bool) then Some (0, true) else Some (if decide (y < x) then x else y, false).

Definition size_mcopy : option (Z * bool) :=
  dst ← st_Back st 0; src ← st_Back st 1;
  let mStart := if decide (dst < src) then src else dst in
  l ← st_Back st 2;
  Some (calcMemSize64 mStart l).

Definition memorySize_of (m : memorySizeFunc) : option (Z * bool) :=
  match m with
  | memoryKeccak256 | memoryReturn | memoryRevert | memoryLog => size_at 0 1
  | memoryCallDataCopy | memoryReturnDataCopy | memoryCodeCopy => size_at 0 2
  | memoryExtCodeCopy => size_at 1 3
  | memoryMLoad | memoryMStore => size_fixed 0 32
  | memoryMStore8 => size_fixed 0 1
  | memoryMcopy => size_mcopy
  | memoryCreate | memoryCreate2 => size_at 1 2
  | memoryCall => size_call 5 6 3 4
  | memoryDelegateCall | memoryStaticCall => size_call 4 5 2 3
  end.
End memory_sizes.

(** ** Dynamic gas *)

(** The gas of a call before access lists. *)
Inductive callGasFunc : Type := gasCall | gasCallCode | gasDelegateCall | gasStaticCall.

Inductive gasFunc : Type :=
| pureMemoryGascost
| memoryCopierGas (stackpos : nat)
| makeGasLog (n : nat)
| gasKeccak256 | gasCreate2 | gasCreateEip3860 | gasCreate2Eip3860
| gasExpFrontier | gasExpEIP158
| gasSStore | gasSStoreEIP2200 | makeGasSStoreFunc (clearingRefund : Z)
| gasSelfdestruct | makeSelfdestructGasFn (refundsEnabled : bool)
| gasSLoadEIP2929 | gasExtCodeCopyEIP2929 | gasEip2929AccountCheck
| plainGasCall (c : callGasFunc)
| makeCallVariantGasCallEIP2929 (c : callGasFunc) (addressPosition : nat)
| makeCallVariantGasCallEIP7702 (c : callGasFunc)
| gasCallEIP7702.

(** [ParseDelegation] of [core/types/tx_setcode.go]. *)
Definition DelegationPrefix : bytes := [Byte.xef; Byte.x01; Byte.x00].

Definition ParseDelegation (b : bytes) : option Address :=
  if decide (length b = 23%nat ∧ take 3 b = DelegationPrefix) then Some (BytesToAddress (drop 3 b)) else None.

Section gas.
Context {S : Type} `{StateDB S} (rules : EvmRules).

Local Abbreviation Op := (Op S).

Definition safe_add (x y : Z) : Op Z := let '(z, overflow) := SafeAdd x y in if overflow then throw ErrGasUintOverflow else mret z.
Definition safe_mul (x y : Z) : Op Z := let '(z, overflow) := SafeMul x y in if overflow then throw ErrGasUintOverflow else mret z.

(** [x, overflow := y.Uint64WithOverflow(); if overflow { return ErrGasUintOverflow }]. *)
Definition uint64_or_overflow (x : Z) : Op Z :=
  let '(z, overflow) := Uint64WithOverflow x in if overflow then throw ErrGasUintOverflow else mret z.

Definition lift_res {A} (r : res evm_error A) : Op A :=
  match r with Ok a => mret a | Err e => throw e | Panic => crash end.

Definition memoryGasCost (newMemSize : Z) : Op Z :=
  if decide (newMemSize = 0) then mret 0
  else if decide (0x1FFFFFFFE0 < newMemSize) then throw ErrGasUintOverflow
  else
    m ← get_frame mem;
    let newMemSizeWords := toWordSize newMemSize in
    let newMemSize := u64 (newMemSizeWords * 32) in
    if decide (mem_Len m < newMemSize) then
      let square := u64 (newMemSizeWords * newMemSizeWords) in
      let linCoef := u64 (newMemSizeWords * MemoryGas) in
      let quadCoef := square / QuadCoeffDiv in
      let newTotalFee := u64 (linCoef + quadCoef) in
      let fee := u64 (newTotalFee - lastGasCost m) in
      mod_frame (set_mem (MkMemory (store m) newTotalFee));;
      mret fee
    else mret 0.

(** Memory and a price for every word of the operand at [stackpos]. *)
Definition memory_and_words (stackpos : nat) (wordGas memorySize : Z) : Op Z :=
  gas ← memoryGasCost memorySize;
  words ← Back stackpos;
  words ← uint64_or_overflow words;
  words ← safe_mul (toWordSize words) wordGas;
  safe_add gas words.

Definition gas_log (n : nat) (memorySize : Z) : Op Z :=
  requestedSize ← Back 1;
  requestedSize ← uint64_or_overflow requestedSize;
  gas ← memoryGasCost memorySize;
  gas ← safe_add gas LogGas;
  gas ← safe_add gas (Z.of_nat n * LogTopicGas);
  memorySizeGas ← safe_mul requestedSize LogDataGas;
  safe_add gas memorySizeGas.

(** [gasCreateEip3860] and [gasCreate2Eip3860]. *)
Definition gas_create_3860 (wordGas memorySize : Z) : Op Z :=
  gas ← memoryGasCost memorySize;
  size ← Back 2;
  size ← uint64_or_overflow size;
  if decide (MaxInitCodeSize < size) then throw (ErrMaxInitCodeSizeExceeded size)
  else safe_add gas (u64 (wordGas * ((size + 31) / 32))).

Definition gas_exp (byteGas : Z) : Op Z :=
  e ← Back 1;
  let expByteLen := (BitLen e + 7) / 8 in
  safe_add (u64 (expByteLen * byteGas)) ExpGas.

(** The refunds and prices of a slot that is written, with net metering: [sload] is the
    price of a write without effect, [reset] that of a first change, [clear] the refund. *)
Definition net_metering (current original value : Hash) (cost sload set reset clear : Z) (resetSet resetReset : Z) : Op Z :=
  if decide (current = value) then mret (cost + sload)
  else if decide (original = current) then
    if decide (original = Hash0) then mret (cost + set)
    else
      (if decide (value = Hash0) then mod_db (AddRefund clear) else mret ());;
      mret (cost + reset)
  else
    (if decide (original ≠ Hash0) then
       if decide (current = Hash0) then
         s ← get_db (SubRefund clear);
         match s with Some s => mod_db (λ _, s) | None => db_crash end
       else if decide (value = Hash0) then mod_db (AddRefund clear) else mret ()
     else mret ());;
    (if decide (original = value) then
       if decide (original = Hash0) then mod_db (AddRefund resetSet) else mod_db (AddRefund resetReset)
     else mret ());;
    mret (cost + sload).

Definition not_readOnly : Op () := ro ← get_evm readOnly; if (ro : bool) then throw ErrWriteProtection else mret ().

Definition gas_sstore : Op Z :=
  not_readOnly;;
  y ← Back 1; x ← Back 0;
  a ← get_contract address;
  '(current, original) ← get_db (GetStateAndCommittedState a (Bytes32 x));
  if IsPetersburg rules || negb (IsConstantinople rules) then
    if decide (current = Hash0 ∧ Sign y ≠ 0) then mret SstoreSetGas
    else if decide (current ≠ Hash0 ∧ Sign y = 0) then mod_db (AddRefund SstoreRefundGas);; mret SstoreClearGas
    else mret SstoreResetGas
  else
    net_metering current original (Bytes32 y) 0 NetSstoreNoopGas NetSstoreInitGas NetSstoreCleanGas NetSstoreClearRefund
      NetSstoreResetClearRefund NetSstoreResetRefund.

Definition sentry : Op () :=
  g ← get_contract Gas; if decide (g <= SstoreSentryGasEIP2200) then throw ErrReentrancySentry else mret ().

Definition gas_sstore_2200 : Op Z :=
  not_readOnly;;
  sentry;;
  y ← Back 1; x ← Back 0;
  a ← get_contract address;
  '(current, original) ← get_db (GetStateAndCommittedState a (Bytes32 x));
  net_metering current original (Bytes32 y) 0 SloadGasEIP2200 SstoreSetGasEIP2200 SstoreResetGasEIP2200
    SstoreClearsScheduleRefundEIP2200 (SstoreSetGasEIP2200 - SloadGasEIP2200) (SstoreResetGasEIP2200 - SloadGasEIP2200).

(** Looks a slot up in the access list and adds it: whether it was there. *)
Definition warm_slot (a : Address) (slot : Hash) : Op bool :=
  '(_, slotPresent) ← get_db (SlotInAccessList a slot);
  (if (slotPresent : bool) then mret () else mod_db (AddSlotToAccessList a slot));;
  mret slotPresent.

Definition warm_address (a : Address) : Op bool :=
  present ← get_db (AddressInAccessList a);
  (if (present : bool) then mret () else mod_db (AddAddressToAccessList a));;
  mret present.

Definition gas_sstore_2929 (clearingRefund : Z) : Op Z :=
  not_readOnly;;
  sentry;;
  y ← Back 1; x ← peek;
  let slot := Bytes32 x in
  a ← get_contract address;
  '(current, original) ← get_db (GetStateAndCommittedState a slot);
  warm ← warm_slot a slot;
  let cost := if (warm : bool) then 0 else ColdSloadCostEIP2929 in
  net_metering current original (Bytes32 y) cost WarmStorageReadCostEIP2929 SstoreSetGasEIP2200
    (SstoreResetGasEIP2200 - ColdSloadCostEIP2929) clearingRefund
    (SstoreSetGasEIP2200 - WarmStorageReadCostEIP2929)
    ((SstoreResetGasEIP2200 - ColdSloadCostEIP2929) - WarmStorageReadCostEIP2929).

Definition gas_sload_2929 : Op Z :=
  loc ← peek;
  a ← get_contract address;
  warm ← warm_slot a (Bytes32 loc);
  mret (if (warm : bool) then WarmStorageReadCostEIP2929 else ColdSloadCostEIP2929).

Definition gas_extcodecopy_2929 (memorySize : Z) : Op Z :=
  gas ← memory_and_words 3 CopyGas memorySize;
  x ← peek;
  warm ← warm_address (Bytes20 x);
  if (warm : bool) then mret gas else safe_add gas (ColdAccountAccessCostEIP2929 - WarmStorageReadCostEIP2929).

Definition gas_account_check : Op Z :=
  x ← peek;
  warm ← warm_address (Bytes20 x);
  mret (if (warm : bool) then 0 else ColdAccountAccessCostEIP2929 - WarmStorageReadCostEIP2929).

Definition gas_selfdestruct : Op Z :=
  not_readOnly;;
  this ← get_contract address;
  gas ← (if IsEIP150 rules then
           x ← Back 0;
           let a := Bytes20 x in
           if IsEIP158 rules then
             empty ← get_db (Empty a);
             balance ← get_db (GetBalance this);
             mret (if decide (empty = true ∧ Sign balance ≠ 0) then SelfdestructGasEIP150 + CreateBySelfdestructGas else SelfdestructGasEIP150)
           else
             exist ← get_db (Exist a);
             mret (if (exist : bool) then SelfdestructGasEIP150 else SelfdestructGasEIP150 + CreateBySelfdestructGas)
         else mret 0);
  destructed ← get_db (HasSelfDestructed this);
  (if (destructed : bool) then mret () else mod_db (AddRefund SelfdestructRefundGas));;
  mret gas.

Definition gas_selfdestruct_2929 (refundsEnabled : bool) : Op Z :=
  x ← peek;
  let a := Bytes20 x in
  not_readOnly;;
  warm ← warm_address a;
  let gas := if (warm : bool) then 0 else ColdAccountAccessCostEIP2929 in
  g ← get_contract Gas;
  if decide (warm = false ∧ g < gas) then throw ErrOutOfGas
  else
    this ← get_contract address;
    empty ← get_db (Empty a);
    balance ← get_db (GetBalance this);
    let gas := if decide (empty = true ∧ Sign balance ≠ 0) then gas + CreateBySelfdestructGas else gas in
    destructed ← get_db (HasSelfDestructed this);
    (if refundsEnabled && negb destructed then mod_db (AddRefund SelfdestructRefundGas) else mret ());;
    mret gas.

(** The common end of the call prices: memory, then the gas that goes with the call. *)
Definition gas_with_call (gas : Z) : Op Z :=
  requested ← Back 0;
  available ← get_contract Gas;
  temp ← lift_res (callGas (IsEIP150 rules) available gas requested);
  mod_evm (set_callGasTemp temp);;
  safe_add gas temp.

Definition gas_call (memorySize : Z) : Op Z :=
  v ← Back 2; x ← Back 1;
  let transfersValue := negb (IsZero v) in
  let a := Bytes20 x in
  ro ← get_evm readOnly;
  if (ro : bool) && transfersValue then throw ErrWriteProtection
  else
    empty ← get_db (Empty a);
    exist ← get_db (Exist a);
    let gas := if IsEIP158 rules then if transfersValue && (empty : bool) then CallNewAccountGas else 0
               else if (exist : bool) then 0 else CallNewAccountGas in
    let gas := if transfersValue then gas + CallValueTransferGas else gas in
    memoryGas ← memoryGasCost memorySize;
    gas ← safe_add gas memoryGas;
    gas_with_call gas.

Definition gas_callcode (memorySize : Z) : Op Z :=
  memoryGas ← memoryGasCost memorySize;
  v ← Back 2;
  gas ← safe_add (if decide (Sign v ≠ 0) then CallValueTransferGas else 0) memoryGas;
  gas_with_call gas.

Definition gas_plain_call (memorySize : Z) : Op Z := gas ← memoryGasCost memorySize; gas_with_call gas.

Definition call_gas (c : callGasFunc) (memorySize : Z) : Op Z :=
  match c with
  | gasCall => gas_call memorySize
  | gasCallCode => gas_callcode memorySize
  | gasDelegateCall | gasStaticCall => gas_plain_call memorySize
  end.

(** [contract.UseGas], out of gas when there is not enough. *)
Definition use_gas (gas : Z) : Op () :=
  c ← get_frame contract;
  let '(ok, c) := UseGas gas c in
  mod_frame (set_contract c);;
  if ok then mret () else throw ErrOutOfGas.

Definition gas_call_2929 (c : callGasFunc) (addressPosition : nat) (memorySize : Z) : Op Z :=
  x ← Back addressPosition;
  let coldCost := ColdAccountAccessCostEIP2929 - WarmStorageReadCostEIP2929 in
  warmAccess ← warm_address (Bytes20 x);
  (if (warmAccess : bool) then mret () else use_gas coldCost);;
  gas ← call_gas c memorySize;
  if (warmAccess : bool) then mret gas
  else
    mod_contract (λ c, set_Gas (u64 (Gas c + coldCost)) c);;
    safe_add gas coldCost.

Definition gas_call_7702 (c : callGasFunc) (memorySize : Z) : Op Z :=
  x ← Back 1;
  let a := Bytes20 x in
  let coldCost := ColdAccountAccessCostEIP2929 - WarmStorageReadCostEIP2929 in
  warm ← warm_address a;
  total ← (if (warm : bool) then mret 0 else use_gas coldCost;; mret coldCost);
  code ← get_db (GetCode a);
  total ← (match ParseDelegation code with
           | Some target =>
               warm ← warm_address target;
               let cost := if (warm : bool) then WarmStorageReadCostEIP2929 else ColdAccountAccessCostEIP2929 in
               use_gas cost;;
               mret (total + cost)
           | None => mret total
           end);
  old ← call_gas c memorySize;
  mod_contract (λ c, set_Gas (u64 (Gas c + total)) c);;
  safe_add old total.

Definition gas_call_protected_7702 (memorySize : Z) : Op Z :=
  v ← Back 2;
  ro ← get_evm readOnly;
  if (ro : bool) && negb (IsZero v) then throw ErrWriteProtection else gas_call_7702 gasCall memorySize.

Definition dynamicGas_of (g : gasFunc) (memorySize : Z) : Op Z :=
  match g with
  | pureMemoryGascost => memoryGasCost memorySize
  | memoryCopierGas stackpos => memory_and_words stackpos CopyGas memorySize
  | makeGasLog n => gas_log n memorySize
  | gasKeccak256 => memory_and_words 1 Keccak256WordGas memorySize
  | gasCreate2 => memory_and_words 2 Keccak256WordGas memorySize
  | gasCreateEip3860 => gas_create_3860 InitCodeWordGas memorySize
  | gasCreate2Eip3860 => gas_create_3860 (InitCodeWordGas + Keccak256WordGas) memorySize
  | gasExpFrontier => gas_exp ExpByteFrontier
  | gasExpEIP158 => gas_exp ExpByteEIP158
  | gasSStore => gas_sstore
  | gasSStoreEIP2200 => gas_sstore_2200
  | makeGasSStoreFunc clearingRefund => gas_sstore_2929 clearingRefund
  | gasSelfdestruct => gas_selfdestruct
  | makeSelfdestructGasFn refundsEnabled => gas_selfdestruct_2929 refundsEnabled
  | gasSLoadEIP2929 => gas_sload_2929
  | gasExtCodeCopyEIP2929 => gas_extcodecopy_2929 memorySize
  | gasEip2929AccountCheck => gas_account_check
  | plainGasCall c => call_gas c memorySize
  | makeCallVariantGasCallEIP2929 c pos => gas_call_2929 c pos memorySize
  | makeCallVariantGasCallEIP7702 c => gas_call_7702 c memorySize
  | gasCallEIP7702 => gas_call_protected_7702 memorySize
  end.
End gas.
