(* ===== verification/EvmTable.v ===== *)
(** * The EVM: jump tables

    [core/vm/opcodes.go], [stack_table.go], [jump_table.go] and the activators of
    [eips.go]: for every fork and opcode, which function executes it, what it costs, and
    between which bounds the stack must be. The function values are the constructors of
    [executionFunc] (interpreted by [EvmOps]) and of [EvmGas]. The table of the Verkle fork
    is left out with the fork. *)
From Stdlib Require Import ZArith Lia.
From Stdlib Require Strings.Byte.
From stdpp Require Import base tactics decidable list numbers.
From S2P Require Import Prelude Evm EvmGas.

(** ** Opcodes: [opcodes.go] *)

Definition STOP : nat := 0.
Definition ADD : nat := 1.
Definition MUL : nat := 2.
Definition SUB : nat := 3.
Definition DIV : nat := 4.
Definition SDIV : nat := 5.
Definition MOD : nat := 6.
Definition SMOD : nat := 7.
Definition ADDMOD : nat := 8.
Definition MULMOD : nat := 9.
Definition EXP : nat := 10.
Definition SIGNEXTEND : nat := 11.
Definition LT : nat := 16.
Definition GT : nat := 17.
Definition SLT : nat := 18.
Definition SGT : nat := 19.
Definition EQ : nat := 20.
Definition ISZERO : nat := 21.
Definition AND : nat := 22.
Definition OR : nat := 23.
Definition XOR : nat := 24.
Definition NOT : nat := 25.
Definition BYTE : nat := 26.
Definition SHL : nat := 27.
Definition SHR : nat := 28.
Definition SAR : nat := 29.
Definition CLZ : nat := 30.
Definition KECCAK256 : nat := 32.
Definition ADDRESS : nat := 48.
Definition BALANCE : nat := 49.
Definition ORIGIN : nat := 50.
Definition CALLER : nat := 51.
Definition CALLVALUE : nat := 52.
Definition CALLDATALOAD : nat := 53.
Definition CALLDATASIZE : nat := 54.
Definition CALLDATACOPY : nat := 55.
Definition CODESIZE : nat := 56.
Definition CODECOPY : nat := 57.
Definition GASPRICE : nat := 58.
Definition EXTCODESIZE : nat := 59.
Definition EXTCODECOPY : nat := 60.
Definition RETURNDATASIZE : nat := 61.
Definition RETURNDATACOPY : nat := 62.
Definition EXTCODEHASH : nat := 63.
Definition BLOCKHASH : nat := 64.
Definition COINBASE : nat := 65.
Definition TIMESTAMP : nat := 66.
Definition NUMBER : nat := 67.
Definition DIFFICULTY : nat := 68.
Definition PREVRANDAO : nat := 68.
Definition GASLIMIT : nat := 69.
Definition CHAINID : nat := 70.
Definition SELFBALANCE : nat := 71.
Definition BASEFEE : nat := 72.
Definition BLOBHASH : nat := 73.
Definition BLOBBASEFEE : nat := 74.
Definition SLOTNUM : nat := 75.
Definition POP : nat := 80.
Definition MLOAD : nat := 81.
Definition MSTORE : nat := 82.
Definition MSTORE8 : nat := 83.
Definition SLOAD : nat := 84.
Definition SSTORE : nat := 85.
Definition JUMP : nat := 86.
Definition JUMPI : nat := 87.
Definition PC : nat := 88.
Definition MSIZE : nat := 89.
Definition GAS : nat := 90.
Definition TLOAD : nat := 92.
Definition TSTORE : nat := 93.
Definition MCOPY : nat := 94.
Definition PUSH0 : nat := 95.
Definition DUP1 : nat := 128.
Definition SWAP1 : nat := 144.
Definition LOG0 : nat := 160.
Definition DUPN : nat := 230.
Definition SWAPN : nat := 231.
Definition EXCHANGE : nat := 232.
Definition CREATE : nat := 240.
Definition CALL : nat := 241.
Definition CALLCODE : nat := 242.
Definition RETURN : nat := 243.
Definition DELEGATECALL : nat := 244.
Definition CREATE2 : nat := 245.
Definition STATICCALL : nat := 250.
Definition REVERT : nat := 253.
Definition INVALID : nat := 254.
Definition SELFDESTRUCT : nat := 255.

Definition IsPush (op : nat) : bool := bool_decide (PUSH0 <= op ∧ op <= 0x7f)%nat.

(** ** Operations *)

(** The functions [op...] of [instructions.go] and [eips.go]; [opSwap n] is [opSwap1] to
    [opSwap16]. *)
Inductive executionFunc : Type :=
| opAdd | opSub | opMul | opDiv | opSdiv | opMod | opSmod | opExp | opSignExtend | opNot | opLt | opGt | opSlt | opSgt | opEq
| opIszero | opAnd | opOr | opXor | opByte | opAddmod | opMulmod | opSHL | opSHR | opSAR | opKeccak256
| opAddress | opBalance | opOrigin | opCaller | opCallValue | opCallDataLoad | opCallDataSize | opCallDataCopy
| opReturnDataSize | opReturnDataCopy | opExtCodeSize | opCodeSize | opCodeCopy | opExtCodeCopy | opExtCodeHash | opGasprice
| opBlockhash | opCoinbase | opTimestamp | opNumber | opDifficulty | opRandom | opGasLimit
| opPop | opMload | opMstore | opMstore8 | opSload | opSstore | opJump | opJumpi | opJumpdest | opPc | opMsize | opGas
| opSwap (n : nat) | makeDup (size : nat) | opPush1 | opPush2 | makePush (size pushByteSize : nat)
| opCreate | opCreate2 | opCall | opCallCode | opDelegateCall | opStaticCall
| opReturn | opRevert | opUndefined | opStop | opSelfdestruct | opSelfdestruct6780
| opDupN | opSwapN | opExchange | makeLog (size : nat)
| opSelfBalance | opChainID | opTload | opTstore | opBaseFee | opPush0 | opMcopy | opBlobHash | opBlobBaseFee | opCLZ | opSlotNum.

Record operation : Type := MkOperation {
  execute : executionFunc;
  constantGas : Z;
  dynamicGas : option gasFunc;
  min_stack : nat;
  max_stack : nat;
  memorySize : option memorySizeFunc;
  undefined : bool
}.

(** [stack_table.go]. *)
Definition maxStack (pop push : nat) : nat := 1024 + pop - push.
Definition minStack (pops push : nat) : nat := pops.
Definition minSwapStack (n : nat) : nat := minStack n n.
Definition maxSwapStack (n : nat) : nat := maxStack n n.
Definition minDupStack (n : nat) : nat := minStack n (n + 1).
Definition maxDupStack (n : nat) : nat := maxStack n (n + 1).

(** An operation that pops and pushes so many items: with a constant price, with a dynamic
    one as well, and with memory on top. *)
Definition fixed (e : executionFunc) (gas : Z) (pops push : nat) : operation :=
  MkOperation e gas None (minStack pops push) (maxStack pops push) None false.

Definition dynamic (e : executionFunc) (gas : Z) (g : gasFunc) (pops push : nat) : operation :=
  MkOperation e gas (Some g) (minStack pops push) (maxStack pops push) None false.

Definition memory (e : executionFunc) (gas : Z) (g : gasFunc) (pops push : nat) (m : memorySizeFunc) : operation :=
  MkOperation e gas (Some g) (minStack pops push) (maxStack pops push) (Some m) false.

Definition set_constantGas (gas : Z) (op : operation) : operation :=
  MkOperation (execute op) gas (dynamicGas op) (min_stack op) (max_stack op) (memorySize op) (undefined op).

Definition set_dynamicGas (g : gasFunc) (op : operation) : operation :=
  MkOperation (execute op) (constantGas op) (Some g) (min_stack op) (max_stack op) (memorySize op) (undefined op).

(** ** Tables *)

(** [JumpTable], 256 entries. *)
Abbreviation JumpTable := (list operation).

Definition assign (op : nat) (x : operation) (jt : JumpTable) : JumpTable := <[op := x]> jt.
Definition reprice (op : nat) (gas : Z) (jt : JumpTable) : JumpTable := alter (set_constantGas gas) op jt.
Definition redynamic (op : nat) (g : gasFunc) (jt : JumpTable) : JumpTable := alter (set_dynamicGas g) op jt.

(** The entries of a literal. *)
Definition assigns (l : list (nat * operation)) (jt : JumpTable) : JumpTable := foldl (λ jt x, assign (fst x) (snd x) jt) jt l.

Definition undefined_operation : operation := MkOperation opUndefined 0 None 0 (maxStack 0 0) None true.

(** What [validate] panics about: an operation with memory has a dynamic price. *)
Definition validate (jt : JumpTable) : bool :=
  forallb (λ op, match memorySize op, dynamicGas op with Some _, None => false | _, _ => true end) jt.

Definition SloadGasFrontier : Z := 50.
Definition SloadGasEIP150 : Z := 200.
Definition SloadGasEIP1884 : Z := 800.
Definition BalanceGasFrontier : Z := 20.
Definition BalanceGasEIP150 : Z := 400.
Definition BalanceGasEIP1884 : Z := 700.
Definition ExtcodeSizeGasFrontier : Z := 20.
Definition ExtcodeSizeGasEIP150 : Z := 700.
Definition ExtcodeCopyBaseFrontier : Z := 20.
Definition ExtcodeCopyBaseEIP150 : Z := 700.
Definition ExtcodeHashGasConstantinople : Z := 400.
Definition ExtcodeHashGasEIP1884 : Z := 700.
Definition CallGasFrontier : Z := 40.
Definition CallGasEIP150 : Z := 700.
Definition CreateGas : Z := 32000.
Definition Create2Gas : Z := 32000.
Definition Keccak256Gas : Z := 30.
Definition JumpdestGas : Z := 1.

(** *** Frontier *)

Definition frontier_arithmetic : list (nat * operation) := [
  (STOP, fixed opStop 0 0 0);
  (ADD, fixed opAdd GasFastestStep 2 1);
  (MUL, fixed opMul GasFastStep 2 1);
  (SUB, fixed opSub GasFastestStep 2 1);
  (DIV, fixed opDiv GasFastStep 2 1);
  (SDIV, fixed opSdiv GasFastStep 2 1);
  (MOD, fixed opMod GasFastStep 2 1);
  (SMOD, fixed opSmod GasFastStep 2 1);
  (ADDMOD, fixed opAddmod GasMidStep 3 1);
  (MULMOD, fixed opMulmod GasMidStep 3 1);
  (EXP, dynamic opExp 0 gasExpFrontier 2 1);
  (SIGNEXTEND, fixed opSignExtend GasFastStep 2 1)].

Definition frontier_comparison : list (nat * operation) := [
  (LT, fixed opLt GasFastestStep 2 1);
  (GT, fixed opGt GasFastestStep 2 1);
  (SLT, fixed opSlt GasFastestStep 2 1);
  (SGT, fixed opSgt GasFastestStep 2 1);
  (EQ, fixed opEq GasFastestStep 2 1);
  (ISZERO, fixed opIszero GasFastestStep 1 1);
  (AND, fixed opAnd GasFastestStep 2 1);
  (XOR, fixed opXor GasFastestStep 2 1);
  (OR, fixed opOr GasFastestStep 2 1);
  (NOT, fixed opNot GasFastestStep 1 1);
  (BYTE, fixed opByte GasFastestStep 2 1);
  (KECCAK256, memory opKeccak256 Keccak256Gas gasKeccak256 2 1 memoryKeccak256)].

Definition frontier_environment : list (nat * operation) := [
  (ADDRESS, fixed opAddress GasQuickStep 0 1);
  (BALANCE, fixed opBalance BalanceGasFrontier 1 1);
  (ORIGIN, fixed opOrigin GasQuickStep 0 1);
  (CALLER, fixed opCaller GasQuickStep 0 1);
  (CALLVALUE, fixed opCallValue GasQuickStep 0 1);
  (CALLDATALOAD, fixed opCallDataLoad GasFastestStep 1 1);
  (CALLDATASIZE, fixed opCallDataSize GasQuickStep 0 1);
  (CALLDATACOPY, memory opCallDataCopy GasFastestStep (memoryCopierGas 2) 3 0 memoryCallDataCopy);
  (CODESIZE, fixed opCodeSize GasQuickStep 0 1);
  (CODECOPY, memory opCodeCopy GasFastestStep (memoryCopierGas 2) 3 0 memoryCodeCopy);
  (GASPRICE, fixed opGasprice GasQuickStep 0 1);
  (EXTCODESIZE, fixed opExtCodeSize ExtcodeSizeGasFrontier 1 1);
  (EXTCODECOPY, memory opExtCodeCopy ExtcodeCopyBaseFrontier (memoryCopierGas 3) 4 0 memoryExtCodeCopy)].

Definition frontier_block : list (nat * operation) := [
  (BLOCKHASH, fixed opBlockhash GasExtStep 1 1);
  (COINBASE, fixed opCoinbase GasQuickStep 0 1);
  (TIMESTAMP, fixed opTimestamp GasQuickStep 0 1);
  (NUMBER, fixed opNumber GasQuickStep 0 1);
  (DIFFICULTY, fixed opDifficulty GasQuickStep 0 1);
  (GASLIMIT, fixed opGasLimit GasQuickStep 0 1)].

Definition frontier_storage : list (nat * operation) := [
  (POP, fixed opPop GasQuickStep 1 0);
  (MLOAD, memory opMload GasFastestStep pureMemoryGascost 1 1 memoryMLoad);
  (MSTORE, memory opMstore GasFastestStep pureMemoryGascost 2 0 memoryMStore);
  (MSTORE8, memory opMstore8 GasFastestStep pureMemoryGascost 2 0 memoryMStore8);
  (SLOAD, fixed opSload SloadGasFrontier 1 1);
  (SSTORE, dynamic opSstore 0 gasSStore 2 0);
  (JUMP, fixed opJump GasMidStep 1 0);
  (JUMPI, fixed opJumpi GasSlowStep 2 0);
  (PC, fixed opPc GasQuickStep 0 1);
  (MSIZE, fixed opMsize GasQuickStep 0 1);
  (GAS, fixed opGas GasQuickStep 0 1);
  (0x5b%nat, fixed opJumpdest JumpdestGas 0 0)].

Definition frontier_push : list (nat * operation) :=
  (0x60%nat, fixed opPush1 GasFastestStep 0 1) :: (0x61%nat, fixed opPush2 GasFastestStep 0 1)
  :: ((λ n, ((0x5f + n)%nat, fixed (makePush n n) GasFastestStep 0 1)) <$> seq 3 30).

Definition frontier_dup : list (nat * operation) :=
  (λ n, ((DUP1 + n - 1)%nat, MkOperation (makeDup n) GasFastestStep None (minDupStack n) (maxDupStack n) None false)) <$> seq 1 16.

Definition frontier_swap : list (nat * operation) :=
  (λ n, ((SWAP1 + n - 1)%nat, MkOperation (opSwap n) GasFastestStep None (minSwapStack (n + 1)) (maxSwapStack (n + 1)) None false)) <$> seq 1 16.

Definition frontier_log : list (nat * operation) :=
  (λ n, ((LOG0 + n)%nat, memory (makeLog n) 0 (makeGasLog n) (2 + n) 0 memoryLog)) <$> seq 0 5.

Definition frontier_system : list (nat * operation) := [
  (CREATE, memory opCreate CreateGas pureMemoryGascost 3 1 memoryCreate);
  (CALL, memory opCall CallGasFrontier (plainGasCall gasCall) 7 1 memoryCall);
  (CALLCODE, memory opCallCode CallGasFrontier (plainGasCall gasCallCode) 7 1 memoryCall);
  (RETURN, memory opReturn 0 pureMemoryGascost 2 0 memoryReturn);
  (SELFDESTRUCT, dynamic opSelfdestruct 0 gasSelfdestruct 1 0);
  (INVALID, fixed opUndefined 0 0 0)].

Definition newFrontierInstructionSet : JumpTable :=
  assigns (frontier_arithmetic ++ frontier_comparison ++ frontier_environment ++ frontier_block ++ frontier_storage
             ++ frontier_push ++ frontier_dup ++ frontier_swap ++ frontier_log ++ frontier_system)
    (replicate 256 undefined_operation).

(** *** EIPs: [eips.go] *)

Definition enable1884 (jt : JumpTable) : JumpTable :=
  assign SELFBALANCE (fixed opSelfBalance GasFastStep 0 1)
    (reprice EXTCODEHASH ExtcodeHashGasEIP1884 (reprice BALANCE BalanceGasEIP1884 (reprice SLOAD SloadGasEIP1884 jt))).

Definition enable1344 (jt : JumpTable) : JumpTable := assign CHAINID (fixed opChainID GasQuickStep 0 1) jt.

Definition enable2200 (jt : JumpTable) : JumpTable := redynamic SSTORE gasSStoreEIP2200 (reprice SLOAD SloadGasEIP2200 jt).

(** The variables at the end of [operations_acl.go]. *)
Definition gasSStoreEIP2929 : gasFunc := makeGasSStoreFunc SstoreClearsScheduleRefundEIP2200.
Definition gasSStoreEIP3529 : gasFunc := makeGasSStoreFunc SstoreClearsScheduleRefundEIP3529.
Definition gasSelfdestructEIP2929 : gasFunc := makeSelfdestructGasFn true.
Definition gasSelfdestructEIP3529 : gasFunc := makeSelfdestructGasFn false.
Definition gasCallEIP2929 : gasFunc := makeCallVariantGasCallEIP2929 gasCall 1.
Definition gasDelegateCallEIP2929 : gasFunc := makeCallVariantGasCallEIP2929 gasDelegateCall 1.
Definition gasStaticCallEIP2929 : gasFunc := makeCallVariantGasCallEIP2929 gasStaticCall 1.
Definition gasCallCodeEIP2929 : gasFunc := makeCallVariantGasCallEIP2929 gasCallCode 1.
Definition gasDelegateCallEIP7702 : gasFunc := makeCallVariantGasCallEIP7702 gasDelegateCall.
Definition gasStaticCallEIP7702 : gasFunc := makeCallVariantGasCallEIP7702 gasStaticCall.
Definition gasCallCodeEIP7702 : gasFunc := makeCallVariantGasCallEIP7702 gasCallCode.

Definition enable2929 (jt : JumpTable) : JumpTable :=
  let jt := redynamic SSTORE gasSStoreEIP2929 jt in
  let jt := redynamic SLOAD gasSLoadEIP2929 (reprice SLOAD 0 jt) in
  let jt := redynamic EXTCODECOPY gasExtCodeCopyEIP2929 (reprice EXTCODECOPY WarmStorageReadCostEIP2929 jt) in
  let jt := redynamic EXTCODESIZE gasEip2929AccountCheck (reprice EXTCODESIZE WarmStorageReadCostEIP2929 jt) in
  let jt := redynamic EXTCODEHASH gasEip2929AccountCheck (reprice EXTCODEHASH WarmStorageReadCostEIP2929 jt) in
  let jt := redynamic BALANCE gasEip2929AccountCheck (reprice BALANCE WarmStorageReadCostEIP2929 jt) in
  let jt := redynamic CALL gasCallEIP2929 (reprice CALL WarmStorageReadCostEIP2929 jt) in
  let jt := redynamic CALLCODE gasCallCodeEIP2929 (reprice CALLCODE WarmStorageReadCostEIP2929 jt) in
  let jt := redynamic STATICCALL gasStaticCallEIP2929 (reprice STATICCALL WarmStorageReadCostEIP2929 jt) in
  let jt := redynamic DELEGATECALL gasDelegateCallEIP2929 (reprice DELEGATECALL WarmStorageReadCostEIP2929 jt) in
  redynamic SELFDESTRUCT gasSelfdestructEIP2929 (reprice SELFDESTRUCT SelfdestructGasEIP150 jt).

Definition enable3529 (jt : JumpTable) : JumpTable :=
  redynamic SELFDESTRUCT gasSelfdestructEIP3529 (redynamic SSTORE gasSStoreEIP3529 jt).

Definition enable3198 (jt : JumpTable) : JumpTable := assign BASEFEE (fixed opBaseFee GasQuickStep 0 1) jt.

Definition enable1153 (jt : JumpTable) : JumpTable :=
  assign TSTORE (fixed opTstore WarmStorageReadCostEIP2929 2 0) (assign TLOAD (fixed opTload WarmStorageReadCostEIP2929 1 1) jt).

Definition enable3855 (jt : JumpTable) : JumpTable := assign PUSH0 (fixed opPush0 GasQuickStep 0 1) jt.

Definition enable3860 (jt : JumpTable) : JumpTable := redynamic CREATE2 gasCreate2Eip3860 (redynamic CREATE gasCreateEip3860 jt).

Definition enable5656 (jt : JumpTable) : JumpTable :=
  assign MCOPY (memory opMcopy GasFastestStep (memoryCopierGas 2) 3 0 memoryMcopy) jt.

Definition enable4844 (jt : JumpTable) : JumpTable := assign BLOBHASH (fixed opBlobHash GasFastestStep 1 1) jt.
Definition enable7939 (jt : JumpTable) : JumpTable := assign CLZ (fixed opCLZ GasFastStep 1 1) jt.
Definition enable7516 (jt : JumpTable) : JumpTable := assign BLOBBASEFEE (fixed opBlobBaseFee GasQuickStep 0 1) jt.

Definition enable6780 (jt : JumpTable) : JumpTable :=
  assign SELFDESTRUCT (dynamic opSelfdestruct6780 SelfdestructGasEIP150 gasSelfdestructEIP3529 1 0) jt.

Definition enable8024 (jt : JumpTable) : JumpTable :=
  let jt := assign DUPN (MkOperation opDupN GasFastestStep None (minStack 1 0) (maxStack 0 1) None false) jt in
  let jt := assign SWAPN (MkOperation opSwapN GasFastestStep None (minStack 2 0) (maxStack 0 0) None false) jt in
  assign EXCHANGE (MkOperation opExchange GasFastestStep None (minStack 2 0) (maxStack 0 0) None false) jt.

Definition enable7702 (jt : JumpTable) : JumpTable :=
  redynamic DELEGATECALL gasDelegateCallEIP7702 (redynamic STATICCALL gasStaticCallEIP7702
    (redynamic CALLCODE gasCallCodeEIP7702 (redynamic CALL gasCallEIP7702 jt))).

Definition enable7843 (jt : JumpTable) : JumpTable := assign SLOTNUM (fixed opSlotNum GasQuickStep 0 1) jt.

(** The map [activators], without 4762. *)
Definition activators (eip : Z) : option (JumpTable → JumpTable) :=
  if decide (eip = 5656) then Some enable5656 else if decide (eip = 6780) then Some enable6780
  else if decide (eip = 3855) then Some enable3855 else if decide (eip = 3860) then Some enable3860
  else if decide (eip = 3529) then Some enable3529 else if decide (eip = 3198) then Some enable3198
  else if decide (eip = 2929) then Some enable2929 else if decide (eip = 2200) then Some enable2200
  else if decide (eip = 1884) then Some enable1884 else if decide (eip = 1344) then Some enable1344
  else if decide (eip = 1153) then Some enable1153 else if decide (eip = 7702) then Some enable7702
  else if decide (eip = 7939) then Some enable7939 else if decide (eip = 8024) then Some enable8024
  else if decide (eip = 7843) then Some enable7843 else None.

(** [EnableEIP]: [None] for an undefined number; 4762 is out of the model. *)
Definition EnableEIP (eipNum : Z) (jt : JumpTable) : option JumpTable := (λ f, f jt) <$> activators eipNum.

Definition ValidEip (eipNum : Z) : bool := bool_decide (eipNum = 4762) || match activators eipNum with Some _ => true | None => false end.

(** *** Forks *)

Definition newHomesteadInstructionSet : JumpTable :=
  assign DELEGATECALL (memory opDelegateCall CallGasFrontier (plainGasCall gasDelegateCall) 6 1 memoryDelegateCall)
    newFrontierInstructionSet.

Definition newTangerineWhistleInstructionSet : JumpTable :=
  let jt := newHomesteadInstructionSet in
  let jt := reprice BALANCE BalanceGasEIP150 jt in
  let jt := reprice EXTCODESIZE ExtcodeSizeGasEIP150 jt in
  let jt := reprice SLOAD SloadGasEIP150 jt in
  let jt := reprice EXTCODECOPY ExtcodeCopyBaseEIP150 jt in
  let jt := reprice CALL CallGasEIP150 jt in
  let jt := reprice CALLCODE CallGasEIP150 jt in
  reprice DELEGATECALL CallGasEIP150 jt.

Definition newSpuriousDragonInstructionSet : JumpTable := redynamic EXP gasExpEIP158 newTangerineWhistleInstructionSet.

Definition newByzantiumInstructionSet : JumpTable :=
  assigns [
    (STATICCALL, memory opStaticCall CallGasEIP150 (plainGasCall gasStaticCall) 6 1 memoryStaticCall);
    (RETURNDATASIZE, fixed opReturnDataSize GasQuickStep 0 1);
    (RETURNDATACOPY, memory opReturnDataCopy GasFastestStep (memoryCopierGas 2) 3 0 memoryReturnDataCopy);
    (REVERT, memory opRevert 0 pureMemoryGascost 2 0 memoryRevert)] newSpuriousDragonInstructionSet.

Definition newConstantinopleInstructionSet : JumpTable :=
  assigns [
    (SHL, fixed opSHL GasFastestStep 2 1);
    (SHR, fixed opSHR GasFastestStep 2 1);
    (SAR, fixed opSAR GasFastestStep 2 1);
    (EXTCODEHASH, fixed opExtCodeHash ExtcodeHashGasConstantinople 1 1);
    (CREATE2, memory opCreate2 Create2Gas gasCreate2 4 1 memoryCreate2)] newByzantiumInstructionSet.

Definition newIstanbulInstructionSet : JumpTable := enable2200 (enable1884 (enable1344 newConstantinopleInstructionSet)).
Definition newBerlinInstructionSet : JumpTable := enable2929 newIstanbulInstructionSet.
Definition newLondonInstructionSet : JumpTable := enable3198 (enable3529 newBerlinInstructionSet).
Definition newMergeInstructionSet : JumpTable := assign PREVRANDAO (fixed opRandom GasQuickStep 0 1) newLondonInstructionSet.
Definition newShanghaiInstructionSet : JumpTable := enable3860 (enable3855 newMergeInstructionSet).
Definition newCancunInstructionSet : JumpTable :=
  enable6780 (enable5656 (enable1153 (enable7516 (enable4844 newShanghaiInstructionSet)))).
Definition newPragueInstructionSet : JumpTable := enable7702 newCancunInstructionSet.
Definition newOsakaInstructionSet : JumpTable := enable7939 newPragueInstructionSet.
Definition newAmsterdamInstructionSet : JumpTable := enable8024 (enable7843 newOsakaInstructionSet).

(** The table that [NewEVM] chooses; Verkle is never active. *)
Definition instructionSet (rules : EvmRules) : JumpTable :=
  if IsAmsterdam rules then newAmsterdamInstructionSet
  else if IsOsaka rules then newOsakaInstructionSet
  else if IsPrague rules then newPragueInstructionSet
  else if IsCancun rules then newCancunInstructionSet
  else if IsShanghai rules then newShanghaiInstructionSet
  else if IsMerge rules then newMergeInstructionSet
  else if IsLondon rules then newLondonInstructionSet
  else if IsBerlin rules then newBerlinInstructionSet
  else if IsIstanbul rules then newIstanbulInstructionSet
  else if IsConstantinople rules then newConstantinopleInstructionSet
  else if IsByzantium rules then newByzantiumInstructionSet
  else if IsEIP158 rules then newSpuriousDragonInstructionSet
  else if IsEIP150 rules then newTangerineWhistleInstructionSet
  else if IsHomestead rules then newHomesteadInstructionSet
  else newFrontierInstructionSet.

(** [Config.ExtraEips]: an undefined number is logged and dropped. *)
Definition enable_extra (eips : list Z) (jt : JumpTable) : JumpTable :=
  foldl (λ jt eip, match EnableEIP eip jt with Some jt => jt | None => jt end) jt eips.
