(* ===== verification/EvmOps.v ===== *)
(** * The EVM: instructions

    [core/vm/instructions.go] and the functions [op...] of [eips.go]: what each function
    of a jump table does to the frame it runs in and to the EVM. The four calls and the two
    creations of [evm.go] are the fields of [Callees], which [EvmRun] provides. *)
From Stdlib Require Import ZArith Lia.
From Stdlib Require Strings.Byte.
From stdpp Require Import base tactics decidable list numbers gmap.
From S2P Require Import Prelude Keccak Common Rlp Precompiles Evm EvmGas EvmTable.

(** What an EVM keeps for all its calls: the fields that [NewEVM] and [SetTxContext] set. *)
Record Env : Type := MkEnv {
  blockCtx : BlockContext;
  txCtx : TxContext;
  ChainID : Z;
  chainRules : EvmRules;
  table : JumpTable;
  precompiles : PrecompiledContracts;
  EnablePreimageRecording : bool
}.

(** The data, the gas left and the error of a call, and those of a creation, with the
    address before the gas. *)
Abbreviation CallResult := (bytes * Z * option evm_error)%type.
Abbreviation CreateResult := (bytes * Address * Z * option evm_error)%type.

Record Callees (S : Type) : Type := MkCallees {
  do_Call : Address → Address → bytes → Z → Z → ST (EVM S) CallResult;
  do_CallCode : Address → Address → bytes → Z → Z → ST (EVM S) CallResult;
  do_DelegateCall : Address → Address → Address → bytes → Z → Z → ST (EVM S) CallResult;
  do_StaticCall : Address → Address → bytes → Z → ST (EVM S) CallResult;
  do_Create : Address → bytes → Z → Z → ST (EVM S) CreateResult;
  do_Create2 : Address → bytes → Z → Z → Z → ST (EVM S) CreateResult
}.
Arguments MkCallees {S}.
Arguments do_Call {S}.
Arguments do_CallCode {S}.
Arguments do_DelegateCall {S}.
Arguments do_StaticCall {S}.
Arguments do_Create {S}.
Arguments do_Create2 {S}.

(** ** Immediates of EIP-8024 *)

Definition decodeSingle (x : Z) : Z := (x + 145) mod 256.

Definition decodePair (x : Z) : Z * Z :=
  let k := Z.lxor x 143 in
  let q := k / 16 in
  let r := k mod 16 in
  if decide (q < r) then (q + 1, r + 1) else (r + 1, 29 - q).

Section instructions.
Context {S : Type} `{StateDB S} `{Uint256} (env : Env) (callees : Callees S).

Local Abbreviation Op := (Op S).

(** A method of the EVM as part of an instruction. *)
Definition in_evm {A} (m : ST (EVM S) A) : Op A := zoom m.

(** [x, y := pop(), peek(); y.F(&x, y)] and its like with one and three operands. *)
Definition unop (f : Z → Z) : Op bytes := x ← peek; poke (f x);; done.
Definition binop (f : Z → Z → Z) : Op bytes := x ← pop; y ← peek; poke (f x y);; done.
Definition ternop (f : Z → Z → Z → Z) : Op bytes := x ← pop; y ← pop; z ← peek; poke (f x y z);; done.
Definition push_op (x : Z) : Op bytes := push x;; done.

(** ** Shifts *)

Definition sem_opSHL (shift value : Z) : Z := if decide (shift < 256) then uLsh value (Uint64 shift) else 0.
Definition sem_opSHR (shift value : Z) : Z := if decide (shift < 256) then uRsh value (Uint64 shift) else 0.
Definition sem_opSAR (shift value : Z) : Z :=
  if decide (256 < shift) then if decide (0 <= Sign value) then 0 else two256 - 1
  else uSRsh value (Uint64 shift).

(** ** Hashing, environment and data *)

Definition sem_opKeccak256 : Op bytes :=
  offset ← pop; size ← peek;
  data ← read_mem (λ m, mem_GetPtr m (Uint64 offset) (Uint64 size));
  let hash := Keccak256 [data] in
  (if EnablePreimageRecording env then mod_db (AddPreimage hash data) else mret ());;
  poke (word_of hash);;
  done.

Definition sem_opBalance : Op bytes :=
  slot ← peek;
  balance ← get_db (GetBalance (Bytes20 slot));
  poke balance;;
  done.

Definition sem_opCallDataLoad : Op bytes :=
  x ← peek;
  let '(offset, overflow) := Uint64WithOverflow x in
  (if negb overflow then
     input ← get_contract Input;
     data ← lift_res (getData input offset 32);
     poke (word_of data)
   else poke 0);;
  done.

Definition clamp64 (x : Z) : Z := let '(z, overflow) := Uint64WithOverflow x in if overflow then MaxUint64 else z.

(** The copies of call data and of the contract's own code. *)
Definition copy_op (data : Contract → bytes) : Op bytes :=
  memOffset ← pop; dataOffset ← pop; length ← pop;
  input ← get_contract data;
  data ← lift_res (getData input (clamp64 dataOffset) (Uint64 length));
  with_mem (λ m, mem_Set m (Uint64 memOffset) (Uint64 length) data);;
  done.

Definition sem_opReturnDataCopy : Op bytes :=
  memOffset ← pop; dataOffset ← pop; length' ← pop;
  let '(offset64, overflow) := Uint64WithOverflow dataOffset in
  if (overflow : bool) then throw ErrReturnDataOutOfBounds
  else
    let '(end64, overflow) := Uint64WithOverflow (uAdd dataOffset length') in
    rd ← get_evm returnData;
    if (overflow : bool) || bool_decide (Z.of_nat (length rd) < end64) then throw ErrReturnDataOutOfBounds
    else
      data ← lift_res (slice rd offset64 end64);
      with_mem (λ m, mem_Set m (Uint64 memOffset) (Uint64 length') data);;
      done.

Definition sem_opExtCodeSize : Op bytes :=
  slot ← peek;
  size ← get_db (GetCodeSize (Bytes20 slot));
  poke (u64 size);;
  done.

Definition sem_opExtCodeCopy : Op bytes :=
  a ← pop; memOffset ← pop; codeOffset ← pop; length ← pop;
  code ← get_db (GetCode (Bytes20 a));
  codeCopy ← lift_res (getData code (clamp64 codeOffset) (Uint64 length));
  with_mem (λ m, mem_Set m (Uint64 memOffset) (Uint64 length) codeCopy);;
  done.

Definition sem_opExtCodeHash : Op bytes :=
  slot ← peek;
  let address := Bytes20 slot in
  empty ← get_db (Empty address);
  (if (empty : bool) then poke 0 else h ← get_db (GetCodeHash address); poke (word_of h));;
  done.

Definition sem_opBlockhash : Op bytes :=
  num ← peek;
  let '(num64, overflow) := Uint64WithOverflow num in
  let upper := u64 (BlockNumber (blockCtx env)) in
  let lower := if decide (upper < 257) then 0 else upper - 256 in
  (if (overflow : bool) then poke 0
   else if decide (lower <= num64 < upper) then poke (word_of (GetHash (blockCtx env) num64))
   else poke 0);;
  done.

(** Pushing a number behind a pointer, a panic when it is nil. *)
Definition push_ptr (o : option Z) : Op bytes := x ← of_opt o; push x;; done.

(** ** Memory, storage and control flow *)

Definition sem_opMload : Op bytes :=
  v ← peek;
  data ← read_mem (λ m, mem_GetPtr m (Uint64 v) 32);
  poke (word_of data);;
  done.

Definition sem_opMstore : Op bytes :=
  mStart ← pop; val ← pop;
  with_mem (λ m, mem_Set32 m (Uint64 mStart) val);;
  done.

(** [scope.Memory.store[off.Uint64()] = byte(val.Uint64())]. *)
Definition mem_set_byte (m : Memory) (off val : Z) : option Memory :=
  if decide (off < mem_Len m) then Some (MkMemory (<[Z.to_nat off := z2b val]> (store m)) (lastGasCost m)) else None.

Definition sem_opMstore8 : Op bytes :=
  off ← pop; val ← pop;
  with_mem (λ m, mem_set_byte m (Uint64 off) (Uint64 val mod 256));;
  done.

Definition sem_opSload : Op bytes :=
  loc ← peek;
  a ← get_contract address;
  val ← get_db (GetState a (Bytes32 loc));
  poke (word_of val);;
  done.

Definition sem_opTload : Op bytes :=
  loc ← peek;
  a ← get_contract address;
  val ← get_db (GetTransientState a (Bytes32 loc));
  poke (word_of val);;
  done.

(** [opSstore] and [opTstore]. *)
Definition store_op (set : Address → Hash → Hash → S → S) : Op bytes :=
  not_readOnly;;
  loc ← pop; val ← pop;
  a ← get_contract address;
  mod_db (set a (Bytes32 loc) (Bytes32 val));;
  done.

(** [evm.abort.Load()]. *)
Definition load_abort : Op bool :=
  l ← get_evm aborts;
  mod_evm (set_aborts (tail l));;
  mret (default false (head l)).

(** [if !scope.Contract.validJumpdest(&pos) { return ErrInvalidJump }; *pc = pos - 1]. *)
Definition jump_to (pos : Z) : Op () :=
  c ← get_frame contract;
  cache ← get_evm jumpDests;
  '(valid, c, cache) ← of_opt (validJumpdest pos c cache);
  mod_evm (set_jumpDests cache);;
  mod_frame (set_contract c);;
  if (valid : bool) then mod_frame (set_pc (u64 (Uint64 pos - 1))) else throw ErrInvalidJump.

Definition sem_opJump : Op bytes :=
  aborted ← load_abort;
  if (aborted : bool) then throw errStopToken
  else
    pos ← pop;
    jump_to pos;;
    done.

Definition sem_opJumpi : Op bytes :=
  aborted ← load_abort;
  if (aborted : bool) then throw errStopToken
  else
    pos ← pop; cond ← pop;
    (if IsZero cond then mret () else jump_to pos);;
    done.

(** The immediate after the opcode, 0 when it is missing. *)
Definition immediate : Op Z :=
  p ← get_frame pc; c ← get_frame contract;
  mret (GetOp c (u64 (p + 1))).

Definition move_pc (n : Z) : Op () := mod_frame (λ f, set_pc (u64 (pc f + n)) f).

(** [*pc += 1] comes before the byte is read. *)
Definition sem_opPush1 : Op bytes :=
  x ← immediate;
  move_pc 1;;
  push x;;
  done.

Definition sem_opPush2 : Op bytes :=
  p ← get_frame pc; code ← get_contract Code;
  let codeLen := Z.of_nat (length code) in
  (if decide (u64 (p + 2) < codeLen) then
     data ← lift_res (slice code (u64 (p + 1)) (u64 (p + 3)));
     push (word_of data)
   else if decide (u64 (p + 1) < codeLen) then
     b ← of_opt (code !! Z.to_nat (u64 (p + 1)));
     push (b2z b * 256)
   else push 0);;
  move_pc 2;;
  done.

Definition sem_makePush (size pushByteSize : nat) : Op bytes :=
  p ← get_frame pc; code ← get_contract Code;
  let codeLen := Z.of_nat (length code) in
  let start := Z.min codeLen (i64 (u64 (p + 1))) in
  let stop := Z.min codeLen (i64 (start + Z.of_nat pushByteSize)) in
  data ← lift_res (slice code start stop);
  let missing := Z.of_nat pushByteSize - (stop - start) in
  let a := word_of data in
  push (if decide (0 < missing) then uLsh a (8 * missing) else a);;
  move_pc (Z.of_nat size);;
  done.

Definition with_stack (f : list Z → option (list Z)) : Op () :=
  st ← get_frame stack; st ← of_opt (f st); mod_frame (set_stack st).

Definition stack_len : Op Z := get_frame (λ f, Z.of_nat (length (stack f))).

(** ** EIP-8024 *)

Definition sem_opDupN : Op bytes :=
  x ← immediate;
  if decide (90 < x < 128) then throw (ErrInvalidOpCode x)
  else
    let n := decodeSingle x in
    len ← stack_len;
    if decide (len < n) then throw (ErrStackUnderflow len n)
    else
      y ← Back (Z.to_nat (n - 1));
      push y;;
      move_pc 1;;
      done.

(** [data[len-1-i], data[len-1-j] = data[len-1-j], data[len-1-i]]. *)
Definition st_exchange (i j : nat) (st : list Z) : option (list Z) :=
  x ← st !! i; y ← st !! j; Some (<[j := x]> (<[i := y]> st)).

Definition sem_opSwapN : Op bytes :=
  x ← immediate;
  if decide (90 < x < 128) then throw (ErrInvalidOpCode x)
  else
    let n := decodeSingle x in
    len ← stack_len;
    if decide (len < n + 1) then throw (ErrStackUnderflow len (n + 1))
    else
      with_stack (st_exchange 0 (Z.to_nat n));;
      move_pc 1;;
      done.

Definition sem_opExchange : Op bytes :=
  x ← immediate;
  if decide (81 < x < 128) then throw (ErrInvalidOpCode x)
  else
    let '(n, m) := decodePair x in
    let need := Z.max n m + 1 in
    len ← stack_len;
    if decide (len < need) then throw (ErrStackUnderflow len need)
    else
      with_stack (st_exchange (Z.to_nat n) (Z.to_nat m));;
      move_pc 1;;
      done.

(** ** Calls and creations *)

Definition is_error (err : option evm_error) (e : evm_error) : bool := bool_decide (err = Some e).

(** The end of [opCreate] and [opCreate2]: [failed] says that zero is pushed. *)
Definition finish_create (failed : bool) (r : CreateResult) : Op bytes :=
  let '(res, addr, returnGas, suberr) := r in
  push (if failed then 0 else word_of addr);;
  mod_contract (RefundGas returnGas);;
  if is_error suberr ErrExecutionReverted then mod_evm (set_returnData res);; mret res
  else mod_evm (set_returnData []);; mret [].

Definition use_all (gas : Z) : Op () := mod_contract (λ c, snd (UseGas gas c)).

Definition sem_opCreate : Op bytes :=
  not_readOnly;;
  value ← pop; offset ← pop; size ← pop;
  input ← read_mem (λ m, mem_GetCopy m (Uint64 offset) (Uint64 size));
  gas ← get_contract Gas;
  let gas := if IsEIP150 (chainRules env) then gas - gas / 64 else gas in
  use_all gas;;
  a ← get_contract address;
  r ← in_evm (do_Create callees a input gas value);
  let '(_, _, _, suberr) := r in
  let failed := if IsHomestead (chainRules env) && is_error suberr ErrCodeStoreOutOfGas then true
                else bool_decide (suberr ≠ None) && negb (is_error suberr ErrCodeStoreOutOfGas) in
  finish_create failed r.

Definition sem_opCreate2 : Op bytes :=
  not_readOnly;;
  endowment ← pop; offset ← pop; size ← pop; salt ← pop;
  input ← read_mem (λ m, mem_GetCopy m (Uint64 offset) (Uint64 size));
  gas ← get_contract Gas;
  let gas := gas - gas / 64 in
  use_all gas;;
  a ← get_contract address;
  r ← in_evm (do_Create2 callees a input gas endowment salt);
  let '(_, _, _, suberr) := r in
  finish_create (bool_decide (suberr ≠ None)) r.

(** The end of the four calls. *)
Definition finish_call (retOffset retSize : Z) (r : CallResult) : Op bytes :=
  let '(ret, returnGas, err) := r in
  push (bool_word (bool_decide (err = None)));;
  (if bool_decide (err = None) || is_error err ErrExecutionReverted
   then with_mem (λ m, mem_Set m (Uint64 retOffset) (Uint64 retSize) ret) else mret ());;
  mod_contract (RefundGas returnGas);;
  mod_evm (set_returnData ret);;
  mret ret.

Definition call_args (inOffset inSize : Z) : Op bytes := read_mem (λ m, mem_GetPtr m (Uint64 inOffset) (Uint64 inSize)).

Definition with_stipend (value gas : Z) : Z := if IsZero value then gas else u64 (gas + CallStipend).

Definition sem_opCall : Op bytes :=
  _ ← pop;
  gas ← get_evm callGasTemp;
  addr ← pop; value ← pop; inOffset ← pop; inSize ← pop; retOffset ← pop; retSize ← pop;
  args ← call_args inOffset inSize;
  ro ← get_evm readOnly;
  if (ro : bool) && negb (IsZero value) then throw ErrWriteProtection
  else
    a ← get_contract address;
    r ← in_evm (do_Call callees a (Bytes20 addr) args (with_stipend value gas) value);
    finish_call retOffset retSize r.

Definition sem_opCallCode : Op bytes :=
  _ ← pop;
  gas ← get_evm callGasTemp;
  addr ← pop; value ← pop; inOffset ← pop; inSize ← pop; retOffset ← pop; retSize ← pop;
  args ← call_args inOffset inSize;
  a ← get_contract address;
  r ← in_evm (do_CallCode callees a (Bytes20 addr) args (with_stipend value gas) value);
  finish_call retOffset retSize r.

Definition sem_opDelegateCall : Op bytes :=
  _ ← pop;
  gas ← get_evm callGasTemp;
  addr ← pop; inOffset ← pop; inSize ← pop; retOffset ← pop; retSize ← pop;
  args ← call_args inOffset inSize;
  originCaller ← get_contract caller; a ← get_contract address; v ← get_contract value;
  r ← in_evm (do_DelegateCall callees originCaller a (Bytes20 addr) args gas v);
  finish_call retOffset retSize r.

Definition sem_opStaticCall : Op bytes :=
  _ ← pop;
  gas ← get_evm callGasTemp;
  addr ← pop; inOffset ← pop; inSize ← pop; retOffset ← pop; retSize ← pop;
  args ← call_args inOffset inSize;
  a ← get_contract address;
  r ← in_evm (do_StaticCall callees a (Bytes20 addr) args gas);
  finish_call retOffset retSize r.

(** ** Ends of a call, self-destruction and logs *)

(** An error with data, as [return ret, err]. *)
Definition throw_with {A} (e : evm_error) (ret : bytes) : Op A := λ s, (Fail e ret, s).

Definition sem_opReturn : Op bytes :=
  offset ← pop; size ← pop;
  ret ← read_mem (λ m, mem_GetCopy m (Uint64 offset) (Uint64 size));
  throw_with errStopToken ret.

Definition sem_opRevert : Op bytes :=
  offset ← pop; size ← pop;
  ret ← read_mem (λ m, mem_GetCopy m (Uint64 offset) (Uint64 size));
  mod_evm (set_returnData ret);;
  throw_with ErrExecutionReverted ret.

Definition sem_opUndefined : Op bytes :=
  p ← get_frame pc; code ← get_contract Code;
  b ← of_opt (code !! Z.to_nat p);
  throw (ErrInvalidOpCode (b2z b)).

Definition sem_opSelfdestruct : Op bytes :=
  not_readOnly;;
  this ← get_contract address;
  balance ← get_db (GetBalance this);
  top ← pop;
  let beneficiary := Bytes20 top in
  (if decide (this ≠ beneficiary) then mod_db (AddBalance beneficiary balance) else mret ());;
  mod_db (SubBalance this balance);;
  mod_db (SelfDestruct this);;
  throw errStopToken.

Definition sem_opSelfdestruct6780 : Op bytes :=
  not_readOnly;;
  this ← get_contract address;
  balance ← get_db (GetBalance this);
  top ← pop;
  let beneficiary := Bytes20 top in
  newContract ← get_db (IsNewContract this);
  (if (newContract : bool) then
     (if decide (this ≠ beneficiary) then mod_db (AddBalance beneficiary balance) else mret ());;
     mod_db (SubBalance this balance);;
     mod_db (SelfDestruct this)
   else mret ());;
  (if negb newContract && bool_decide (this ≠ beneficiary) then
     mod_db (SubBalance this balance);;
     mod_db (AddBalance beneficiary balance)
   else mret ());;
  throw errStopToken.

Fixpoint pop_topics (size : nat) : Op (list Hash) :=
  match size with
  | O => mret []
  | Datatypes.S size => x ← pop; topics ← pop_topics size; mret (Bytes32 x :: topics)
  end.

Definition sem_makeLog (size : nat) : Op bytes :=
  not_readOnly;;
  mStart ← pop; mSize ← pop;
  topics ← pop_topics size;
  d ← read_mem (λ m, mem_GetCopy m (Uint64 mStart) (Uint64 mSize));
  a ← get_contract address;
  mod_db (AddLog (MkLog a topics d (u64 (BlockNumber (blockCtx env)))));;
  done.

(** ** [operation.execute] *)

Definition exec_fn (e : executionFunc) : Op bytes :=
  match e with
  | opAdd => binop uAdd | opSub => binop uSub | opMul => binop uMul
  | opDiv => binop uDiv | opSdiv => binop uSDiv | opMod => binop uMod | opSmod => binop uSMod
  | opExp => binop uExp | opSignExtend => binop (λ back num, uExtendSign num back) | opNot => unop uNot
  | opLt => binop (λ x y, bool_word (bool_decide (x < y))) | opGt => binop (λ x y, bool_word (bool_decide (y < x)))
  | opSlt => binop (λ x y, bool_word (uSlt x y)) | opSgt => binop (λ x y, bool_word (uSgt x y))
  | opEq => binop (λ x y, bool_word (bool_decide (x = y))) | opIszero => unop (λ x, bool_word (IsZero x))
  | opAnd => binop uAnd | opOr => binop uOr | opXor => binop uXor
  | opByte => binop (λ th val, uByte val th) | opAddmod => ternop uAddMod | opMulmod => ternop uMulMod
  | opSHL => binop sem_opSHL | opSHR => binop sem_opSHR | opSAR => binop sem_opSAR
  | opKeccak256 => sem_opKeccak256
  | opAddress => a ← get_contract address; push_op (word_of a)
  | opBalance => sem_opBalance
  | opOrigin => push_op (word_of (Origin (txCtx env)))
  | opCaller => a ← get_contract caller; push_op (word_of a)
  | opCallValue => v ← get_contract value; push_op v
  | opCallDataLoad => sem_opCallDataLoad
  | opCallDataSize => input ← get_contract Input; push_op (u64 (Z.of_nat (length input)))
  | opCallDataCopy => copy_op Input
  | opReturnDataSize => rd ← get_evm returnData; push_op (u64 (Z.of_nat (length rd)))
  | opReturnDataCopy => sem_opReturnDataCopy
  | opExtCodeSize => sem_opExtCodeSize
  | opCodeSize => code ← get_contract Code; push_op (u64 (Z.of_nat (length code)))
  | opCodeCopy => copy_op Code
  | opExtCodeCopy => sem_opExtCodeCopy
  | opExtCodeHash => sem_opExtCodeHash
  | opGasprice => push_op (GasPrice (txCtx env))
  | opBlockhash => sem_opBlockhash
  | opCoinbase => push_op (word_of (Coinbase (blockCtx env)))
  | opTimestamp => push_op (Time (blockCtx env))
  | opNumber => push_op (FromBig (BlockNumber (blockCtx env)))
  | opDifficulty => push_op (FromBig (Difficulty (blockCtx env)))
  | opRandom => push_ptr (word_of <$> Random (blockCtx env))
  | opGasLimit => push_op (bc_GasLimit (blockCtx env))
  | opPop => _ ← pop; done
  | opMload => sem_opMload | opMstore => sem_opMstore | opMstore8 => sem_opMstore8
  | opSload => sem_opSload | opSstore => store_op SetState
  | opJump => sem_opJump | opJumpi => sem_opJumpi | opJumpdest => done
  | opPc => p ← get_frame pc; push_op p
  | opMsize => m ← get_frame mem; push_op (u64 (mem_Len m))
  | opGas => g ← get_contract Gas; push_op g
  | opSwap n => with_stack (st_swap n);; done
  | makeDup size => with_stack (st_dup size);; done
  | opPush1 => sem_opPush1 | opPush2 => sem_opPush2
  | makePush size pushByteSize => sem_makePush size pushByteSize
  | opCreate => sem_opCreate | opCreate2 => sem_opCreate2
  | opCall => sem_opCall | opCallCode => sem_opCallCode
  | opDelegateCall => sem_opDelegateCall | opStaticCall => sem_opStaticCall
  | opReturn => sem_opReturn | opRevert => sem_opRevert
  | opUndefined => sem_opUndefined | opStop => throw errStopToken
  | opSelfdestruct => sem_opSelfdestruct | opSelfdestruct6780 => sem_opSelfdestruct6780
  | opDupN => sem_opDupN | opSwapN => sem_opSwapN | opExchange => sem_opExchange
  | makeLog size => sem_makeLog size
  | opSelfBalance => a ← get_contract address; balance ← get_db (GetBalance a); push_op balance
  | opChainID => push_op (FromBig (ChainID env))
  | opTload => sem_opTload | opTstore => store_op SetTransientState
  | opBaseFee => push_ptr (FromBig <$> BaseFee (blockCtx env))
  | opPush0 => push_op 0
  | opMcopy =>
      dst ← pop; src ← pop; length ← pop;
      with_mem (λ m, mem_Copy m (Uint64 dst) (Uint64 src) (Uint64 length));;
      done
  | opBlobHash =>
      unop (λ index, if decide (index < Z.of_nat (length (BlobHashes (txCtx env))))
                     then word_of (BlobHashes (txCtx env) !!! Z.to_nat index) else 0)
  | opBlobBaseFee => push_ptr (FromBig <$> BlobBaseFee (blockCtx env))
  | opCLZ => unop (λ x, 256 - BitLen x)
  | opSlotNum => push_op (SlotNum (blockCtx env))
  end.
End instructions.
