(* ===== verification/EvmRun.v ===== *)
(** * The EVM: running contracts

    [core/vm/interpreter.go] and [evm.go]: one turn of the interpreter loop, [Run], the
    four calls and the creations. The loop and the calls recurse through each other:
    [Run] and what calls it take the loop as an argument, and [run_loop] ties the knot
    with fuel, which every turn uses up by one; the gas of the contract is enough
    ([EvmSpec]). *)
From Stdlib Require Import ZArith Lia.
From Stdlib Require Strings.Byte.
From stdpp Require Import base tactics decidable list numbers gmap.
From S2P Require Import Prelude Keccak Common Rlp Trie Precompiles Evm EvmGas EvmTable EvmOps.

Definition CallCreateDepth : Z := 1024.
Definition CreateDataGas : Z := 200.
Definition SystemAddress : Address := replicate 19 Byte.xff ++ [Byte.xfe].

Definition isSystemCall (caller : Address) : bool := bool_decide (caller = SystemAddress).

(** [types.EmptyCodeHash]. *)
Definition EmptyCodeHash : Hash := Keccak256 [[]].

(** [CreateAddress] and [CreateAddress2] of [crypto/crypto.go]. *)
Definition CreateAddress (b : Address) (nonce : Z) : Address :=
  BytesToAddress (drop 12 (Keccak256 [EncodeToBytes (Lst [Str b; Str (big_Bytes nonce)])])).

Definition CreateAddress2 (b : Address) (salt : Hash) (inithash : bytes) : Address :=
  BytesToAddress (drop 12 (Keccak256 [[Byte.xff]; b; salt; inithash])).

Section run.
Context {S E : Type} `{StateDB S} `{Uint256} (PrecompiledRun : PrecompiledContract → bytes → res E bytes) (env : Env).

Local Abbreviation Op := (Op S).
Local Abbreviation M := (ST (EVM S)).

Definition get {A} (f : S → A) : M A := gets (λ e, f (db e)).
Definition put (f : S → S) : M () := modify (λ e, set_db (f (db e)) e).

(** ** One turn of the loop in [Run] *)

(** [if contract.Gas < cost { return ErrOutOfGas } else { contract.Gas -= cost }]. *)
Definition charge (cost : Z) : Op () :=
  g ← get_contract Gas;
  if decide (g < cost) then throw ErrOutOfGas else mod_contract (set_Gas (g - cost)).

(** [fmt.Errorf("%w: %v", ErrOutOfGas, err)]. *)
Definition wrap_error {A} (m : Op A) : Op A := λ s,
  match m s with (Fail e _, s) => (Fail (ErrDynamicGas e) [], s) | r => r end.

Definition validate_stack (op : operation) : Op () :=
  sLen ← get_frame (λ f, length (stack f));
  if decide (sLen < min_stack op)%nat then throw (ErrStackUnderflow (Z.of_nat sLen) (Z.of_nat (min_stack op)))
  else if decide (max_stack op < sLen)%nat then throw (ErrStackOverflow (Z.of_nat sLen) (Z.of_nat (max_stack op)))
  else mret ().

(** The memory that an operation needs, in whole words. *)
Definition required_memory (op : operation) : Op Z :=
  match memorySize op with
  | None => mret 0
  | Some m =>
      st ← get_frame stack;
      '(memSize, overflow) ← of_opt (memorySize_of st m);
      if (overflow : bool) then throw ErrGasUintOverflow else safe_mul (toWordSize memSize) 32
  end.

Definition charge_dynamic (op : operation) : Op Z :=
  match dynamicGas op with
  | None => mret 0
  | Some g =>
      memorySize ← required_memory op;
      dynamicCost ← wrap_error (dynamicGas_of (chainRules env) g memorySize);
      charge dynamicCost;;
      mret memorySize
  end.

Definition run_step (callees : Callees S) : Op bytes :=
  p ← get_frame pc;
  c ← get_frame contract;
  operation ← of_opt (table env !! Z.to_nat (GetOp c p));
  validate_stack operation;;
  charge (constantGas operation);;
  memorySize ← charge_dynamic operation;
  (if decide (0 < memorySize) then mod_frame (λ f, set_mem (mem_Resize (mem f) memorySize) f) else mret ());;
  exec_fn env callees (execute operation).

(** ** [Run] *)

(** What the deferred functions of [Run] undo. *)
Definition leave (unset : bool) (e : EVM S) : EVM S :=
  set_depth (depth e - 1) (if unset then set_readOnly false e else e).

Definition Run (loop : Op bytes) (contract : Contract) (input : bytes) (ro : bool) : M (bytes * option evm_error * Contract) := λ e,
  let e := set_depth (depth e + 1) e in
  let unset := ro && negb (readOnly e) in
  let e := if unset then set_readOnly true e else e in
  let e := set_returnData [] e in
  if decide (Code contract = []) then (Ret ([], None, contract), leave unset e)
  else
    match loop (e, MkFrame 0 [] NewMemory (set_Input input contract)) with
    | (Ret ret, (e, f)) => (Ret (ret, None, Evm.contract f), leave unset e)
    | (Fail err ret, (e, f)) =>
        (Ret (ret, if decide (err = errStopToken) then None else Some err, Evm.contract f), leave unset e)
    | (Crash, (e, _)) => (Crash, leave unset e)
    | (DbCrash, (e, _)) => (DbCrash, leave unset e)
    | (NoFuel, (e, _)) => (NoFuel, leave unset e)
    end.

(** ** Calls: [evm.go] *)

Definition resolveCode (addr : Address) : M bytes :=
  code ← get (GetCode addr);
  if IsPrague (chainRules env) then
    match ParseDelegation code with Some target => get (GetCode target) | None => mret code end
  else mret code.

Definition resolveCodeHash (addr : Address) : M Hash :=
  if IsPrague (chainRules env) then
    code ← get (GetCode addr);
    match ParseDelegation code with Some target => get (GetCodeHash target) | None => get (GetCodeHash addr) end
  else get (GetCodeHash addr).

Definition precompile (addr : Address) : option PrecompiledContract := precompiles env !! addr.

(** [RunPrecompiledContract] of [contracts.go]; from Amsterdam on it reads the state, with
    no effect. *)
Definition run_precompiled (p : PrecompiledContract) (input : bytes) (gas : Z) : M CallResult :=
  match RunPrecompiledContract PrecompiledRun p input gas with
  | Some (Ok output, gas) => mret (output, gas, None)
  | Some (Err Precompiles.ErrOutOfGas, gas) => mret ([], gas, Some ErrOutOfGas)
  | Some (Err (Precompiles.ErrRun _), gas) => mret ([], gas, Some ErrPrecompile)
  | _ => db_crash
  end.

(** [evm.StateDB.Snapshot()]. *)
Definition take_snapshot : M Z := λ e, let '(id, s) := Snapshot (db e) in (Ret id, set_db s e).

(** The end of a call: an error reverts the state, and all but a revert cost all the gas. *)
Definition finish (snapshot : Z) (r : CallResult) : M CallResult :=
  let '(ret, gas, err) := r in
  match err with
  | None => mret (ret, gas, None)
  | Some e =>
      put (RevertToSnapshot snapshot);;
      mret (ret, if decide (e = ErrExecutionReverted) then gas else 0, Some e)
  end.

Section calls.
Context (loop : Op bytes).

(** A contract with the code of [addr], run with the input. *)
Definition run_code (contract : Contract) (addr : Address) (input : bytes) (ro : bool) : M CallResult :=
  hash ← resolveCodeHash addr;
  code ← resolveCode addr;
  '(ret, err, c) ← Run loop (SetCallCode hash code contract) input ro;
  mret (ret, Gas c, err).

Definition Call (caller addr : Address) (input : bytes) (gas value : Z) : M CallResult :=
  d ← gets depth;
  if decide (CallCreateDepth < d) then mret ([], gas, Some ErrDepth)
  else
    let syscall := isSystemCall caller in
    enough ← get (λ db, CanTransfer db caller value);
    if negb syscall && negb (IsZero value) && negb (enough : bool) then mret ([], gas, Some ErrInsufficientBalance)
    else
      snapshot ← take_snapshot;
      exist ← get (Exist addr);
      if negb (exist : bool) && bool_decide (precompile addr = None) && IsEIP158 (chainRules env) && IsZero value
      then mret ([], gas, None)
      else
        (if (exist : bool) then mret () else put (CreateAccount addr));;
        (if syscall then mret () else put (λ db, Transfer db caller addr value));;
        r ← (match precompile addr with
             | Some p => run_precompiled p input gas
             | None =>
                 code ← resolveCode addr;
                 if decide (code = []) then mret ([], gas, None)
                 else run_code (set_IsSystemCall syscall (NewContract caller addr value gas)) addr input false
             end);
        finish snapshot r.

Definition CallCode (caller addr : Address) (input : bytes) (gas value : Z) : M CallResult :=
  d ← gets depth;
  if decide (CallCreateDepth < d) then mret ([], gas, Some ErrDepth)
  else
    enough ← get (λ db, CanTransfer db caller value);
    if negb (enough : bool) then mret ([], gas, Some ErrInsufficientBalance)
    else
      snapshot ← take_snapshot;
      r ← (match precompile addr with
           | Some p => run_precompiled p input gas
           | None => run_code (NewContract caller caller value gas) addr input false
           end);
      finish snapshot r.

Definition DelegateCall (originCaller caller addr : Address) (input : bytes) (gas value : Z) : M CallResult :=
  d ← gets depth;
  if decide (CallCreateDepth < d) then mret ([], gas, Some ErrDepth)
  else
    snapshot ← take_snapshot;
    r ← (match precompile addr with
         | Some p => run_precompiled p input gas
         | None => run_code (NewContract originCaller caller value gas) addr input false
         end);
    finish snapshot r.

Definition StaticCall (caller addr : Address) (input : bytes) (gas : Z) : M CallResult :=
  d ← gets depth;
  if decide (CallCreateDepth < d) then mret ([], gas, Some ErrDepth)
  else
    snapshot ← take_snapshot;
    put (AddBalance addr 0);;
    r ← (match precompile addr with
         | Some p => run_precompiled p input gas
         | None => run_code (NewContract caller addr 0 gas) addr input true
         end);
    finish snapshot r.

(** ** Creations *)

Definition initNewContract (contract : Contract) (address : Address) : M (bytes * option evm_error * Contract) :=
  '(ret, err, contract) ← Run loop contract [] false;
  if decide (err ≠ None) then mret (ret, err, contract)
  else if IsEIP158 (chainRules env) && bool_decide (MaxCodeSize < Z.of_nat (length ret)) then
    mret (ret, Some ErrMaxCodeSizeExceeded, contract)
  else if bool_decide (head ret = Some Byte.xef) && IsLondon (chainRules env) then mret (ret, Some ErrInvalidCode, contract)
  else
    let createDataGas := u64 (Z.of_nat (length ret) * CreateDataGas) in
    let '(enough, contract) := UseGas createDataGas contract in
    if negb enough then mret (ret, Some ErrCodeStoreOutOfGas, contract)
    else
      (if decide (ret = []) then mret () else put (SetCode address ret));;
      mret (ret, None, contract).

(** Whether an account stands in the way: its nonce, code or storage is not empty. *)
Definition collision (address : Address) (db : S) : bool :=
  let contractHash := GetCodeHash address db in
  let storageRoot := GetStorageRoot address db in
  bool_decide (GetNonce address db ≠ 0)
  || (bool_decide (contractHash ≠ Hash0) && bool_decide (contractHash ≠ EmptyCodeHash))
  || (bool_decide (storageRoot ≠ Hash0) && bool_decide (storageRoot ≠ EmptyRootHash)).

Definition create (caller : Address) (code : bytes) (gas value : Z) (address : Address) : M CreateResult :=
  d ← gets depth;
  if decide (CallCreateDepth < d) then mret ([], Address0, gas, Some ErrDepth)
  else
    enough ← get (λ db, CanTransfer db caller value);
    if negb (enough : bool) then mret ([], Address0, gas, Some ErrInsufficientBalance)
    else
      nonce ← get (GetNonce caller);
      if decide (u64 (nonce + 1) < nonce) then mret ([], Address0, gas, Some ErrNonceUintOverflow)
      else
        put (SetNonce caller (u64 (nonce + 1)));;
        (if IsEIP2929 (chainRules env) then put (AddAddressToAccessList address) else mret ());;
        collides ← get (collision address);
        if (collides : bool) then mret ([], Address0, 0, Some ErrContractAddressCollision)
        else
          snapshot ← take_snapshot;
          exist ← get (Exist address);
          (if (exist : bool) then mret () else put (CreateAccount address));;
          put (CreateContract address);;
          (if IsEIP158 (chainRules env) then put (SetNonce address 1) else mret ());;
          put (λ db, Transfer db caller address value);;
          let contract := set_IsDeployment true (SetCallCode Hash0 code (NewContract caller address value gas)) in
          '(ret, err, contract) ← initNewContract contract address;
          if bool_decide (err ≠ None) && (IsHomestead (chainRules env) || negb (is_error err ErrCodeStoreOutOfGas)) then
            put (RevertToSnapshot snapshot);;
            let contract := if is_error err ErrExecutionReverted then contract else snd (UseGas (Gas contract) contract) in
            mret (ret, address, Gas contract, err)
          else mret (ret, address, Gas contract, err).

Definition Create (caller : Address) (code : bytes) (gas value : Z) : M CreateResult :=
  nonce ← get (GetNonce caller);
  create caller code gas value (CreateAddress caller nonce).

Definition Create2 (caller : Address) (code : bytes) (gas endowment salt : Z) : M CreateResult :=
  create caller code gas endowment (CreateAddress2 caller (Bytes32 salt) (Keccak256 [code])).

Definition evm_callees : Callees S := MkCallees Call CallCode DelegateCall StaticCall Create Create2.
End calls.

(** ** The loop *)

Fixpoint run_loop (fuel : nat) : Op bytes :=
  match fuel with
  | O => no_fuel
  | Datatypes.S fuel =>
      _ ← run_step (evm_callees (run_loop fuel));
      mod_frame (λ f, set_pc (u64 (pc f + 1)) f);;
      run_loop fuel
  end.
End run.

(** ** [NewEVM] *)

Definition NewEnv (block : BlockContext) (tx : TxContext) (chainID : Z) (rules : EvmRules) (record_preimages : bool)
    (extra : list Z) : Env :=
  MkEnv block tx chainID rules (enable_extra extra (instructionSet rules))
    (activePrecompiledContracts (precompile_rules rules)) record_preimages.

(** The EVM that [NewEVM] returns; [cancels] is what the loads of [abort] will see. *)
Definition NewEVM {S} (statedb : S) (cancels : list bool) : EVM S := MkEVM statedb 0 0 ∅ false [] cancels.
