(* ===== verification/EvmLogic.v ===== *)
(** * The EVM: reasoning about instructions

    Weakest preconditions for the monad of [Evm] with one rule for every primitive, the
    tactic [wp] that applies them, and the interfaces between the EVM and its state
    database: [StateDBLaws], what the interpreter relies on, and [EvmRel], a relation
    between states that every change the EVM makes respects. *)
From Stdlib Require Import ZArith Lia.
From Stdlib Require Strings.Byte.
From stdpp Require Import base tactics decidable list numbers gmap.
From S2P Require Import Prelude Keccak Common Rlp Precompiles Evm EvmGas EvmTable EvmOps EvmRun.

(** ** Weakest preconditions *)

(** The outcome and the state after [m] from [s] satisfy [Q]. *)
Definition wp {St A} (m : ST St A) (Q : out A → St → Prop) (s : St) : Prop := let '(r, s') := m s in Q r s'.

(** What a sequence asks of its first part, and an outcome seen as one without a value. *)
Definition bind_post {St A B} (f : A → ST St B) (Q : out B → St → Prop) (r : out A) (s : St) : Prop :=
  match r with
  | Ret a => wp (f a) Q s
  | Fail e ret => Q (Fail e ret) s
  | Crash => Q Crash s
  | DbCrash => Q DbCrash s
  | NoFuel => Q NoFuel s
  end.

Section rules.
Context {St : Type}.
Implicit Types s : St.

Lemma wp_bind {A B} (m : ST St A) (f : A → ST St B) Q s : wp m (bind_post f Q) s → wp (m ≫= f) Q s.
Proof. unfold wp, mbind, ST_bind. destruct (m s) as [[] s']; done. Qed.

Lemma wp_mono {A} (m : ST St A) (Q Q' : out A → St → Prop) s : wp m Q s → (∀ r s', Q r s' → Q' r s') → wp m Q' s.
Proof. unfold wp. destruct (m s). auto. Qed.

Lemma wp_ret {A} (a : A) Q s : Q (Ret a) s → wp (mret a) Q s.
Proof. done. Qed.

Lemma wp_throw {A} e (Q : out A → St → Prop) s : Q (Fail e []) s → wp (throw e) Q s.
Proof. done. Qed.

Lemma wp_db_crash {A} (Q : out A → St → Prop) s : Q DbCrash s → wp db_crash Q s.
Proof. done. Qed.

Lemma wp_gets {A} (f : St → A) Q s : Q (Ret (f s)) s → wp (gets f) Q s.
Proof. done. Qed.

Lemma wp_modify f Q s : Q (Ret ()) (f s) → wp (modify f) Q s.
Proof. done. Qed.

Lemma wp_of_opt {A} (o : option A) a Q s : o = Some a → Q (Ret a) s → wp (of_opt o) Q s.
Proof. by intros ->. Qed.
End rules.

Section op_rules.
Context {S : Type}.
Implicit Types (e : EVM S) (f : Frame).

Lemma wp_zoom {A} (m : ST (EVM S) A) (Q : out A → EVM S * Frame → Prop) e f :
  wp m (λ r e', Q r (e', f)) e → wp (in_evm m) Q (e, f).
Proof. unfold wp, in_evm, zoom. by destruct (m e). Qed.

Lemma wp_pop x st (Q : out Z → EVM S * Frame → Prop) e f :
  stack f = x :: st → Q (Ret x) (e, set_stack st f) → wp pop Q (e, f).
Proof. intros E ?. unfold wp, pop. cbn [fst snd]. by rewrite E. Qed.

Lemma wp_peek x st (Q : out Z → EVM S * Frame → Prop) e f :
  stack f = x :: st → Q (Ret x) (e, f) → wp peek Q (e, f).
Proof. intros E ?. unfold peek. apply wp_bind, wp_gets. cbn. by rewrite E. Qed.

Lemma wp_poke y x st (Q : out () → EVM S * Frame → Prop) e f :
  stack f = x :: st → Q (Ret ()) (e, set_stack (y :: st) f) → wp (poke y) Q (e, f).
Proof. intros E ?. unfold poke. apply wp_bind. by eapply wp_pop. Qed.

Lemma wp_push x (Q : out () → EVM S * Frame → Prop) e f :
  Q (Ret ()) (e, set_stack (x :: stack f) f) → wp (push x) Q (e, f).
Proof. done. Qed.

Lemma wp_Back n x (Q : out Z → EVM S * Frame → Prop) e f :
  stack f !! n = Some x → Q (Ret x) (e, f) → wp (Back n) Q (e, f).
Proof. intros E ?. unfold Back. apply wp_bind, wp_gets. cbn. unfold st_Back. by rewrite E. Qed.

Lemma wp_get_evm {A} (g : EVM S → A) (Q : out A → EVM S * Frame → Prop) e f : Q (Ret (g e)) (e, f) → wp (get_evm g) Q (e, f).
Proof. done. Qed.

Lemma wp_get_frame {A} (g : Frame → A) (Q : out A → EVM S * Frame → Prop) e f : Q (Ret (g f)) (e, f) → wp (get_frame g) Q (e, f).
Proof. done. Qed.

Lemma wp_get_contract {A} (g : Contract → A) (Q : out A → EVM S * Frame → Prop) e f :
  Q (Ret (g (contract f))) (e, f) → wp (get_contract g) Q (e, f).
Proof. done. Qed.

Lemma wp_get_db {A} (g : S → A) (Q : out A → EVM S * Frame → Prop) e f : Q (Ret (g (db e))) (e, f) → wp (get_db g) Q (e, f).
Proof. done. Qed.

Lemma wp_mod_evm g (Q : out () → EVM S * Frame → Prop) e f : Q (Ret ()) (g e, f) → wp (mod_evm g) Q (e, f).
Proof. done. Qed.

Lemma wp_mod_frame g (Q : out () → EVM S * Frame → Prop) e f : Q (Ret ()) (e, g f) → wp (mod_frame g) Q (e, f).
Proof. done. Qed.

Lemma wp_mod_contract g (Q : out () → EVM S * Frame → Prop) e f :
  Q (Ret ()) (e, set_contract (g (contract f)) f) → wp (mod_contract g) Q (e, f).
Proof. done. Qed.

Lemma wp_mod_db g (Q : out () → EVM S * Frame → Prop) e f : Q (Ret ()) (set_db (g (db e)) e, f) → wp (mod_db g) Q (e, f).
Proof. done. Qed.

Lemma wp_with_mem g m (Q : out () → EVM S * Frame → Prop) e f :
  g (mem f) = Some m → Q (Ret ()) (e, set_mem m f) → wp (with_mem g) Q (e, f).
Proof. intros E ?. unfold with_mem. apply wp_bind, wp_get_frame. cbn. apply wp_bind. by eapply wp_of_opt. Qed.

Lemma wp_read_mem g b (Q : out bytes → EVM S * Frame → Prop) e f :
  g (mem f) = Some b → Q (Ret b) (e, f) → wp (read_mem g) Q (e, f).
Proof. intros E ?. unfold read_mem. apply wp_bind, wp_get_frame. cbn. by eapply wp_of_opt. Qed.

Lemma wp_with_stack g st (Q : out () → EVM S * Frame → Prop) e f :
  g (stack f) = Some st → Q (Ret ()) (e, set_stack st f) → wp (with_stack g) Q (e, f).
Proof. intros E ?. unfold with_stack. apply wp_bind, wp_get_frame. cbn. apply wp_bind. by eapply wp_of_opt. Qed.

Lemma wp_done (Q : out bytes → EVM S * Frame → Prop) e f : Q (Ret []) (e, f) → wp done Q (e, f).
Proof. done. Qed.
End op_rules.

(** One step of [wp] on the head of a computation; memory accesses, stack accesses and
    other partial operations leave their side condition to the caller. *)
Ltac wp_step :=
  lazymatch goal with
  | |- wp (_ ≫= _) _ _ => apply wp_bind
  | |- wp (mret _) _ _ => apply wp_ret
  | |- wp (throw _) _ _ => apply wp_throw
  | |- wp db_crash _ _ => apply wp_db_crash
  | |- wp (gets _) _ _ => apply wp_gets
  | |- wp (modify _) _ _ => apply wp_modify
  | |- wp (push _) _ _ => apply wp_push
  | |- wp (get_evm _) _ _ => apply wp_get_evm
  | |- wp (get_frame _) _ _ => apply wp_get_frame
  | |- wp (get_contract _) _ _ => apply wp_get_contract
  | |- wp (get_db _) _ _ => apply wp_get_db
  | |- wp (mod_evm _) _ _ => apply wp_mod_evm
  | |- wp (mod_frame _) _ _ => apply wp_mod_frame
  | |- wp (mod_contract _) _ _ => apply wp_mod_contract
  | |- wp (mod_db _) _ _ => apply wp_mod_db
  | |- wp done _ _ => apply wp_done
  | |- wp (let '(_, _) := ?p in _) _ _ => destruct p eqn:?
  | |- wp (if ?b then _ else _) _ _ => destruct b eqn:?
  | |- bind_post _ _ (Ret _) _ => unfold bind_post
  | |- bind_post _ _ (Fail _ _) _ => unfold bind_post
  | |- bind_post _ _ DbCrash _ => unfold bind_post
  end.

(** ** The state database *)

(** The longest code: Go's slices are shorter than 2^63. *)
Definition code_limit : Z := 2 ^ 62.

(** What the interpreter relies on: hashes identify codes, codes fit into memory,
    balances are words, snapshots and the operations that prepare a call or a creation leave balances alone. *)
Class StateDBLaws (S : Type) `{StateDB S} : Type := {
  codes : Hash → bytes;
  GetCode_hash a s : GetCodeHash a s ≠ Hash0 → GetCode a s = codes (GetCodeHash a s);
  GetCode_limit a s : Z.of_nat (length (GetCode a s)) < code_limit;
  GetBalance_word a s : is_word (GetBalance a s);
  GetBalance_Snapshot a s : GetBalance a (snd (Snapshot s)) = GetBalance a s;
  GetBalance_CreateAccount a b s : Exist b s = false → GetBalance a (CreateAccount b s) = GetBalance a s;
  GetBalance_CreateContract a b s : GetBalance a (CreateContract b s) = GetBalance a s;
  GetBalance_SetNonce a b n s : GetBalance a (SetNonce b n s) = GetBalance a s;
  GetBalance_AddAddress a b s : GetBalance a (AddAddressToAccessList b s) = GetBalance a s
}.

(** A relation between the states before and after a piece of execution: [R false] for any,
    [R true] for one in a static call. *)
Class EvmRel {S : Type} `{StateDB S} (R : bool → S → S → Prop) : Prop := {
  R_refl b s : R b s s;
  R_trans b s1 s2 s3 : R b s1 s2 → R b s2 s3 → R b s1 s3;
  R_weaken b s s' : R true s s' → R b s s';
  R_Snapshot b s : R b s (snd (Snapshot s));
  R_RevertToSnapshot b s s' : R b (snd (Snapshot s)) s' → R b s (RevertToSnapshot (fst (Snapshot s)) s');
  R_AddRefund b g s : R b s (AddRefund g s);
  R_SubRefund b g s s' : SubRefund g s = Some s' → R b s s';
  R_AddAddress b a s : R b s (AddAddressToAccessList a s);
  R_AddSlot b a k s : R b s (AddSlotToAccessList a k s);
  R_AddPreimage b h p s : R b s (AddPreimage h p s);
  R_touch b a s : R b s (AddBalance a 0 s);
  R_CreateAccount b a s : Exist a s = false → R b s (CreateAccount a s);
  R_Transfer_zero b a c s : R b s (Transfer s a c 0);
  R_Transfer a c v s : 0 <= v → CanTransfer s a v = true → R false s (Transfer s a c v);
  R_SetState a k v s : R false s (SetState a k v s);
  R_SetTransientState a k v s : R false s (SetTransientState a k v s);
  R_AddLog l s : R false s (AddLog l s);
  R_SetNonce a n s : R false s (SetNonce a n s);
  R_SetCode a c s : R false s (SetCode a c s);
  R_CreateContract a s : R false s (CreateContract a s);
  R_burn a s : R false s (SelfDestruct a (SubBalance a (GetBalance a s) s));
  R_destruct a c s : a ≠ c → R false s (SelfDestruct a (SubBalance a (GetBalance a s) (AddBalance c (GetBalance a s) s)));
  R_empty a c s : a ≠ c → R false s (AddBalance c (GetBalance a s) (SubBalance a (GetBalance a s) s))
}.

Create HintDb evm discriminated.

(** ** What execution keeps *)

(** Bitmaps in the cache belong to the codes with their hashes. *)
Definition cache_ok {S : Type} `{StateDBLaws S} (cache : JumpDestCache) : Prop :=
  ∀ h a, cache !! h = Some a → codeBitmap (codes h) = Some a.

Section keep.
Context {S : Type} `{StateDBLaws S} (R : bool → S → S → Prop) `{!EvmRel R}.
Implicit Types e : EVM S.

(** From [e] to [e'] at the same depth and in the same mode. *)
Record Keep e e' : Prop := {
  keep_depth : depth e' = depth e;
  keep_readOnly : readOnly e' = readOnly e;
  keep_db : R (readOnly e) (db e) (db e');
  keep_jumpDests : cache_ok (jumpDests e) → cache_ok (jumpDests e')
}.

#[export] Instance Keep_PreOrder : PreOrder Keep.
Proof.
  split.
  - intros e. split; [done|done|apply R_refl|done].
  - intros e1 e2 e3 [D1 O1 R1 J1] [D2 O2 R2 J2]. split; [congruence|congruence| |auto].
    rewrite O1 in R2. by eapply R_trans.
Qed.

Lemma Keep_db e e' :
  depth e' = depth e → readOnly e' = readOnly e → jumpDests e' = jumpDests e → R (readOnly e) (db e) (db e') → Keep e e'.
Proof. intros D O J K. split; [done|done|done|by rewrite J]. Qed.

Lemma Keep_set_db x e : R (readOnly e) (db e) x → Keep e (set_db x e).
Proof. by split. Qed.

Lemma Keep_set_callGasTemp x e : Keep e (set_callGasTemp x e).
Proof. split; [done|done|apply R_refl|done]. Qed.

Lemma Keep_set_returnData x e : Keep e (set_returnData x e).
Proof. split; [done|done|apply R_refl|done]. Qed.

Lemma Keep_set_aborts x e : Keep e (set_aborts x e).
Proof. split; [done|done|apply R_refl|done]. Qed.

Lemma Keep_set_jumpDests x e : (cache_ok (jumpDests e) → cache_ok x) → Keep e (set_jumpDests x e).
Proof. split; [done|done|apply R_refl|done]. Qed.
End keep.

#[export] Hint Resolve Keep_set_db Keep_set_callGasTemp Keep_set_returnData Keep_set_aborts : evm.
