(* ===== verification/EvmAnalysis.v ===== *)
(** * The EVM: jump destination analysis

    [codeBitmap] of [core/vm/analysis_legacy.go] against the definition of instruction
    boundaries: the bits that the bulk operations [set1], [setN], [set8] and [set16] leave
    behind are exactly the data bytes of the push instructions. The bulk operations assign
    whole bytes, which is right because no later bit is set yet. *)
From Stdlib Require Import ZArith Lia.
From Stdlib Require Strings.Byte.
From stdpp Require Import base tactics decidable list numbers gmap.
From S2P Require Import Prelude Keccak Common Rlp Precompiles Evm EvmGas EvmTable EvmOps EvmRun EvmLogic.

(** ** Instruction boundaries *)

(** The data bytes that follow an opcode. *)
Definition push_length (op : Z) : nat := if decide (PUSH1 <= op <= PUSH32) then Z.to_nat (op - PUSH1 + 1) else 0.

(** The positions at which an instruction starts. *)
Inductive Instruction (code : bytes) : nat → Prop :=
| Instruction_0 : Instruction code 0
| Instruction_next p op : Instruction code p → code !! p = Some op → Instruction code (p + 1 + push_length (b2z op)).

(** ** Bits of a vector *)

Definition bit (bits : BitVec) (i : nat) : bool :=
  match bits !! (i / 8)%nat with Some b => Z.testbit (b2z b) (Z.of_nat (i mod 8)) | None => false end.

(** No bit is set from [p] on. *)
Definition clear_from (bits : BitVec) (p : nat) : Prop := ∀ i, (p <= i)%nat → bit bits i = false.

(** [bits'] has the bits of [bits] and those of the [n] positions from [p] on. *)
Definition marks (bits : BitVec) (p n : nat) (bits' : BitVec) : Prop :=
  length bits' = length bits ∧ ∀ i, bit bits' i = bit bits i || bool_decide (p <= i < p + n)%nat.

Lemma marks_clear bits p n bits' : marks bits p n bits' → clear_from bits p → clear_from bits' (p + n).
Proof. intros [_ Hm] Hc i Hi. rewrite Hm, Hc by lia. apply bool_decide_eq_false. lia. Qed.

Lemma marks_trans b1 b2 b3 p n m : marks b1 p n b2 → marks b2 (p + n) m b3 → marks b1 p (n + m) b3.
Proof.
  intros [L1 M1] [L2 M2]. split; [congruence|]. intros i. rewrite M2, M1, <- orb_assoc. f_equal.
  apply eq_bool_prop_intro. rewrite orb_True, !bool_decide_spec. lia.
Qed.

Lemma marks_0 bits p : marks bits p 0 bits.
Proof. split; [done|]. intros i. rewrite bool_decide_eq_false_2 by lia. by rewrite orb_false_r. Qed.

Lemma pos_split (p : nat) : p = (8 * (p / 8) + p mod 8)%nat ∧ (p mod 8 < 8)%nat.
Proof. split; [apply Nat.div_mod; lia|apply Nat.mod_upper_bound; lia]. Qed.

Lemma byte_index (p : nat) : Z.of_nat p / 8 = Z.of_nat (p / 8) ∧ Z.of_nat p mod 8 = Z.of_nat (p mod 8).
Proof.
  replace 8%Z with (Z.of_nat 8) by done. by rewrite <- Nat2Z.inj_div, <- Nat2Z.inj_mod.
Qed.

(** Two positions, compared byte first. *)
Lemma position_le (p i k : nat) : (p <= i + 8 * k)%nat ↔ (p / 8 < i / 8 + k ∨ (p / 8 = i / 8 + k ∧ p mod 8 <= i mod 8))%nat.
Proof. pose proof (pos_split p). pose proof (pos_split i). lia. Qed.

Lemma lor_byte x y : 0 <= x < 256 → 0 <= y < 256 → 0 <= Z.lor x y < 256.
Proof.
  intros Hx Hy. replace (Z.lor x y) with (Z.lor x y mod 2 ^ 8); [apply Z.mod_pos_bound; lia|].
  apply Z.bits_inj'. intros i Hi. rewrite Z.testbit_mod_pow2, Z.lor_spec by lia.
  destruct (Z.ltb_spec i 8); [done|]. cbn [andb].
  rewrite <- (Z.mod_small x 256), <- (Z.mod_small y 256) by done. change 256 with (2 ^ 8).
  rewrite !Z.mod_pow2_bits_high by lia. done.
Qed.

Lemma or_byte_bit bits k a :
  (k < length bits)%nat → 0 <= a < 256 →
  ∃ bits', or_byte bits (Z.of_nat k) a = Some bits' ∧ length bits' = length bits ∧
    ∀ i, bit bits' i = bit bits i || (bool_decide (i / 8 = k)%nat && Z.testbit a (Z.of_nat (i mod 8))).
Proof.
  intros Hk Ha. unfold or_byte. rewrite Nat2Z.id. destruct (lookup_lt_is_Some_2 _ _ Hk) as [b Hb]. rewrite Hb. cbn.
  eexists. split; [done|]. rewrite length_insert. split; [done|]. intros i. unfold bit.
  pose proof (b2z_range b). assert (0 <= Z.lor (b2z b) a < 256) as Hr by (apply lor_byte; lia).
  destruct (decide (i / 8 = k)%nat) as [Hik|Hne]; [subst k|].
  - rewrite list_lookup_insert_eq by done. rewrite Hb, b2z_z2b, Z.mod_small by done. rewrite Z.lor_spec.
    by rewrite bool_decide_eq_true_2.
  - rewrite list_lookup_insert_ne by done. rewrite bool_decide_eq_false_2 by done. by rewrite orb_false_r.
Qed.

Lemma set_byte_bit bits k a :
  (k < length bits)%nat → 0 <= a < 256 →
  ∃ bits', set_byte bits (Z.of_nat k) a = Some bits' ∧ length bits' = length bits ∧
    ∀ i, bit bits' i = if decide (i / 8 = k)%nat then Z.testbit a (Z.of_nat (i mod 8)) else bit bits i.
Proof.
  intros Hk Ha. unfold set_byte. rewrite Nat2Z.id. destruct (lookup_lt_is_Some_2 _ _ Hk) as [b Hb]. rewrite Hb. cbn.
  eexists. split; [done|]. rewrite length_insert. split; [done|]. intros i. unfold bit.
  destruct (decide (i / 8 = k)%nat) as [Hik|Hne]; [subst k|].
  - rewrite list_lookup_insert_eq by done. rewrite b2z_z2b, Z.mod_small by done.
    by destruct (decide _).
  - rewrite list_lookup_insert_ne by done. by destruct (decide _).
Qed.

(** ** The bulk operations *)

Lemma flag_bits n r j : 0 <= n → 0 <= r → 0 <= j → Z.testbit (Z.shiftl (Z.ones n) r) j = bool_decide (r <= j < r + n).
Proof.
  intros Hn Hr Hj. rewrite Z.shiftl_spec, Z.testbit_ones by lia. apply eq_bool_prop_intro.
  rewrite andb_True, bool_decide_spec, !Is_true_true, Z.leb_le, Z.ltb_lt. lia.
Qed.

Lemma flag_bits_mod n r j m :
  0 <= n → 0 <= r → 0 <= j → 0 <= m →
  Z.testbit (Z.shiftl (Z.ones n) r mod 2 ^ m) j = bool_decide (r <= j < r + n ∧ j < m).
Proof.
  intros Hn Hr Hj Hm. rewrite Z.testbit_mod_pow2, flag_bits by lia. apply eq_bool_prop_intro.
  rewrite andb_True, !bool_decide_spec, Is_true_true, Z.ltb_lt. tauto.
Qed.

(** The complement of a byte of ones from [r] on. *)
Lemma low_bits r j : (r < 8)%nat → (j < 8)%nat → Z.testbit (255 - Z.shiftl 255 (Z.of_nat r) mod 256) (Z.of_nat j) = bool_decide (j < r)%nat.
Proof. intros Hr Hj. do 8 (destruct r as [|r]; [do 8 (destruct j as [|j]; [reflexivity|]); lia|]); lia. Qed.

(** Where a byte-wise description meets a range of positions. *)
Ltac split_positions p i :=
  let H1 := fresh in let H2 := fresh in
  pose proof (pos_split p) as H1; pose proof (pos_split i) as H2; apply eq_bool_prop_intro;
  rewrite ?orb_True, ?andb_True, !bool_decide_spec.

Section bulk.
Context (bits : BitVec) (p : nat).

Lemma set1_marks : (p / 8 < length bits)%nat → ∃ bits', set1 bits (Z.of_nat p) = Some bits' ∧ marks bits p 1 bits'.
Proof.
  intros Hl. unfold set1. destruct (byte_index p) as [E1 E2]. rewrite E1, E2. pose proof (pos_split p) as [_ Hr].
  destruct (or_byte_bit bits (p / 8) (Z.shiftl (Z.ones 1) (Z.of_nat (p mod 8)) mod 2 ^ 8)) as (b & Eb & Lb & Hb); [done|apply Z.mod_pos_bound; lia|].
  exists b. split; [exact Eb|]. split; [done|]. intros i. rewrite Hb. f_equal. rewrite flag_bits_mod by lia.
  split_positions p i. lia.
Qed.

Lemma setN_marks n :
  (2 <= n <= 8)%nat → (p / 8 + 1 < length bits)%nat → clear_from bits p →
  ∃ bits', setN bits (2 ^ Z.of_nat n - 1) (Z.of_nat p) = Some bits' ∧ marks bits p n bits'.
Proof.
  intros Hn Hl Hc. unfold setN. destruct (byte_index p) as [E1 E2]. rewrite E1, E2. pose proof (pos_split p) as [_ Hr].
  replace (2 ^ Z.of_nat n - 1) with (Z.ones (Z.of_nat n)) by (rewrite Z.ones_equiv; lia).
  set (r := Z.of_nat (p mod 8)). change 65536 with (2 ^ 16). set (a := Z.shiftl (Z.ones (Z.of_nat n)) r mod 2 ^ 16).
  assert (∀ j, 0 <= j → Z.testbit a j = bool_decide (r <= j < r + Z.of_nat n)) as Ha.
  { intros j Hj. unfold a. rewrite flag_bits_mod by lia. apply eq_bool_prop_intro. rewrite !bool_decide_spec. lia. }
  destruct (or_byte_bit bits (p / 8) (a mod 2 ^ 8)) as (b & Eb & Lb & Hb); [lia|apply Z.mod_pos_bound; lia|].
  change 256 with (2 ^ 8). rewrite Eb. cbn [mbind option_bind].
  assert (∀ i : nat, (i < 8)%nat → Z.testbit (a mod 2 ^ 8) (Z.of_nat i) = bool_decide (r <= Z.of_nat i < r + Z.of_nat n)) as Hlow.
  { intros i Hi. rewrite Z.testbit_mod_pow2, Ha by lia. destruct (Z.ltb_spec (Z.of_nat i) 8); [done|lia]. }
  assert (∀ i : nat, (i < 8)%nat → Z.testbit (Z.shiftr a 8 mod 2 ^ 8) (Z.of_nat i) = bool_decide (Z.of_nat i + 8 < r + Z.of_nat n)) as Hhigh.
  { intros i Hi. rewrite Z.testbit_mod_pow2, Z.shiftr_spec, Ha by lia. destruct (Z.ltb_spec (Z.of_nat i) 8); [|lia].
    cbn [andb]. apply eq_bool_prop_intro. rewrite !bool_decide_spec. lia. }
  destruct (decide _) as [Hnz|Hz].
  - destruct (set_byte_bit b (p / 8 + 1) (Z.shiftr a 8 mod 2 ^ 8)) as (b' & Eb' & Lb' & Hb'); [lia|apply Z.mod_pos_bound; lia|].
    exists b'. split; [by rewrite <- Eb', Nat2Z.inj_add|]. split; [congruence|]. intros i. rewrite Hb', Hb.
    pose proof (pos_split i) as [Ei Hi]. rewrite Hlow, Hhigh by done.
    destruct (decide (i / 8 = p / 8 + 1)%nat) as [Hik|Hik].
    + rewrite (Hc i), orb_false_l by (pose proof (pos_split p); lia). split_positions p i. lia.
    + f_equal. split_positions p i. lia.
  - exists b. split; [done|]. split; [done|]. intros i. rewrite Hb. f_equal. pose proof (pos_split i) as [Ei Hi]. rewrite Hlow by done.
    apply dec_stable in Hz. assert (r + Z.of_nat n <= 8) as Hle.
    { specialize (Hhigh 0%nat ltac:(lia)). rewrite Hz, Z.bits_0 in Hhigh. symmetry in Hhigh.
      apply bool_decide_eq_false in Hhigh. lia. }
    split_positions p i. lia.
Qed.

Lemma set8_marks :
  (p / 8 + 1 < length bits)%nat → clear_from bits p → ∃ bits', set8 bits (Z.of_nat p) = Some bits' ∧ marks bits p 8 bits'.
Proof.
  intros Hl Hc. unfold set8. destruct (byte_index p) as [E1 E2]. rewrite E1, E2. pose proof (pos_split p) as [_ Hr].
  destruct (or_byte_bit bits (p / 8) (Z.shiftl (Z.ones 8) (Z.of_nat (p mod 8)) mod 2 ^ 8)) as (b & Eb & Lb & Hb); [lia|apply Z.mod_pos_bound; lia|].
  change (Z.shiftl 255 (Z.of_nat (p mod 8)) mod 256) with (Z.shiftl (Z.ones 8) (Z.of_nat (p mod 8)) mod 2 ^ 8).
  rewrite Eb. cbn [mbind option_bind].
  destruct (set_byte_bit b (p / 8 + 1) (255 - Z.shiftl 255 (Z.of_nat (p mod 8)) mod 256)) as (b' & Eb' & Lb' & Hb');
    [lia|pose proof (Z.mod_pos_bound (Z.shiftl 255 (Z.of_nat (p mod 8))) 256); lia|].
  exists b'. split; [by rewrite <- Eb', Nat2Z.inj_add|]. split; [congruence|]. intros i. rewrite Hb', Hb.
  pose proof (pos_split i) as [Ei Hi]. rewrite flag_bits_mod, low_bits by lia.
  destruct (decide (i / 8 = p / 8 + 1)%nat) as [Hik|Hik].
  - rewrite (Hc i), orb_false_l by (pose proof (pos_split p); lia). split_positions p i. lia.
  - f_equal. split_positions p i. lia.
Qed.

Lemma set16_marks :
  (p / 8 + 2 < length bits)%nat → clear_from bits p → ∃ bits', set16 bits (Z.of_nat p) = Some bits' ∧ marks bits p 16 bits'.
Proof.
  intros Hl Hc. unfold set16. destruct (byte_index p) as [E1 E2]. rewrite E1, E2. pose proof (pos_split p) as [_ Hr].
  destruct (or_byte_bit bits (p / 8) (Z.shiftl (Z.ones 8) (Z.of_nat (p mod 8)) mod 2 ^ 8)) as (b & Eb & Lb & Hb); [lia|apply Z.mod_pos_bound; lia|].
  change (Z.shiftl 255 (Z.of_nat (p mod 8)) mod 256) with (Z.shiftl (Z.ones 8) (Z.of_nat (p mod 8)) mod 2 ^ 8).
  rewrite Eb. cbn [mbind option_bind].
  destruct (set_byte_bit b (p / 8 + 1) 255) as (b1 & Eb1 & Lb1 & Hb1); [lia|lia|].
  replace (Z.of_nat (p / 8) + 1) with (Z.of_nat (p / 8 + 1)) by lia. rewrite Eb1. cbn [mbind option_bind].
  destruct (set_byte_bit b1 (p / 8 + 2) (255 - Z.shiftl 255 (Z.of_nat (p mod 8)) mod 256)) as (b' & Eb' & Lb' & Hb');
    [lia|pose proof (Z.mod_pos_bound (Z.shiftl 255 (Z.of_nat (p mod 8))) 256); lia|].
  exists b'. split; [by rewrite <- Eb', Nat2Z.inj_add|]. split; [congruence|]. intros i. rewrite Hb', Hb1, Hb.
  pose proof (pos_split i) as [Ei Hi]. assert (Z.testbit 255 (Z.of_nat (i mod 8)) = true) as ->.
  { change 255 with (Z.ones 8). rewrite Z.testbit_ones by lia. apply andb_true_intro. lia. }
  rewrite flag_bits_mod, low_bits by lia.
  destruct (decide (i / 8 = p / 8 + 2)%nat) as [Hik|Hik];
    [|destruct (decide (i / 8 = p / 8 + 1)%nat) as [Hik'|Hik']].
  - rewrite (Hc i), orb_false_l by (pose proof (pos_split p); lia). split_positions p i. lia.
  - rewrite (Hc i), orb_false_l by (pose proof (pos_split p); lia). by rewrite bool_decide_eq_true_2 by (pose proof (pos_split p); lia).
  - f_equal. split_positions p i. lia.
Qed.
End bulk.

Lemma mark_push_marks bits p n :
  (1 <= n <= 32)%nat → (p / 8 + 4 < length bits)%nat → clear_from bits p →
  ∃ bits', mark_push bits (Z.of_nat p) (Z.of_nat n) = Some (bits', Z.of_nat (p + n)) ∧ marks bits p n bits'.
Proof.
  intros Hn Hl Hc. unfold mark_push.
  assert (∃ b1 m, (m <= 15)%nat ∧ (m <= n)%nat ∧ (n - m = 0 ∨ n - m = 16 ∨ m = 0)%nat ∧ marks bits p (n - m) b1 ∧
    (if decide (16 <= Z.of_nat n) then
       bits ← set16 bits (Z.of_nat p);
       if decide (32 <= Z.of_nat n) then
         bits ← set16 bits (Z.of_nat p + 16); Some (bits, Z.of_nat p + 32, Z.of_nat n - 32)
       else Some (bits, Z.of_nat p + 16, Z.of_nat n - 16)
     else Some (bits, Z.of_nat p, Z.of_nat n)) = Some (b1, Z.of_nat (p + (n - m)), Z.of_nat m)) as (b1 & m & Hm & Hmn & H16 & M1 & ->).
  { destruct (decide (16 <= Z.of_nat n)) as [H1|H1].
    - destruct (set16_marks bits p) as (b & -> & Mb); [lia|done|]. cbn [mbind option_bind].
      destruct (decide (32 <= Z.of_nat n)) as [H2|H2].
      + destruct (set16_marks b (p + 16)) as (b' & Eb' & Mb'); [destruct Mb as [-> _]; pose proof (pos_split p); pose proof (pos_split (p + 16)); lia|by eapply marks_clear|].
        replace (Z.of_nat p + 16) with (Z.of_nat (p + 16)) by lia. rewrite Eb'. cbn [mbind option_bind].
        exists b', 0%nat. split_and!; [lia|lia|lia|replace (n - 0)%nat with (16 + 16)%nat by lia; by eapply marks_trans|].
        f_equal; apply f_equal2; [apply f_equal; lia|lia].
      + exists b, (n - 16)%nat. split_and!; [lia|lia|lia|by replace (n - (n - 16))%nat with 16%nat by lia|].
        f_equal; apply f_equal2; [apply f_equal; lia|lia].
    - exists bits, n. split_and!; [lia|lia|lia|replace (n - n)%nat with 0%nat by lia; apply marks_0|].
      f_equal; apply f_equal2; [apply f_equal; lia|lia]. }
  cbn [mbind option_bind]. set (q := (p + (n - m))%nat) in *.
  assert (length b1 = length bits) as L1 by apply M1. pose proof (marks_clear _ _ _ _ M1 Hc) as C1. fold q in C1.
  assert ((q / 8 = p / 8 ∧ (q + m = p + n)) ∨ (q / 8 = p / 8 + 2) ∨ (m = 0))%nat as Hq.
  { unfold q. pose proof (pos_split p). pose proof (pos_split (p + (n - m))).
    lia. }
  assert (∃ b2 k, (k <= 7)%nat ∧ (k <= m)%nat ∧ marks b1 q (m - k) b2 ∧ (m - k = 0 ∨ m - k = 8)%nat ∧
    (if decide (8 <= Z.of_nat m) then bits ← set8 b1 (Z.of_nat q); Some (bits, Z.of_nat q + 8, Z.of_nat m - 8)
     else Some (b1, Z.of_nat q, Z.of_nat m)) = Some (b2, Z.of_nat (q + (m - k)), Z.of_nat k)) as (b2 & k & Hk & Hkm & M2 & H8 & ->).
  { destruct (decide (8 <= Z.of_nat m)) as [H1|H1].
    - destruct (set8_marks b1 q) as (b & -> & Mb); [lia|done|]. cbn [mbind option_bind].
      exists b, (m - 8)%nat. replace (m - (m - 8))%nat with 8%nat by lia. split_and!; [lia|lia|done|lia|]. f_equal; apply f_equal2; [apply f_equal; lia|lia].
    - exists b1, m. replace (m - m)%nat with 0%nat by lia. split_and!; [lia|lia|apply marks_0|lia|]. f_equal; apply f_equal2; [apply f_equal; lia|lia]. }
  cbn [mbind option_bind]. set (q2 := (q + (m - k))%nat) in *.
  assert (length b2 = length bits) as L2 by (destruct M2; congruence). pose proof (marks_clear _ _ _ _ M2 C1) as C2. fold q2 in C2.
  assert (marks bits p (n - k) b2) as M3.
  { replace (n - k)%nat with ((n - m) + (m - k))%nat by lia. by eapply marks_trans. }
  assert ((k = 0)%nat ∨ (q2 / 8 + 1 < length bits)%nat) as Hq2.
  { unfold q2. pose proof (pos_split q). pose proof (pos_split (q + (m - k))). lia. }
  assert (q2 = p + (n - k))%nat as Eq2 by lia. rewrite Eq2 in *.
  destruct (decide (Z.of_nat k = 1)) as [H1|H1].
  - destruct (set1_marks b2 (p + (n - k))) as (b3 & -> & M4); [lia|]. cbn [mbind option_bind].
    exists b3. split; [do 2 f_equal; lia|]. replace n with ((n - k) + 1)%nat by lia. eapply marks_trans; [exact M3|]. exact M4.
  - destruct (decide (2 <= Z.of_nat k)) as [H2|H2].
    + destruct (setN_marks b2 (p + (n - k)) k) as (b3 & -> & M4); [lia|lia|done|]. cbn [mbind option_bind].
      exists b3. split; [do 2 f_equal; lia|]. replace n with ((n - k) + k)%nat at 1 by lia. eapply marks_trans; [exact M3|]. exact M4.
    + exists b2. split; [do 2 f_equal; lia|]. by replace n with (n - k)%nat by lia.
Qed.

(** ** Boundaries *)

(** After a boundary the next one is that of the following instruction. *)
Lemma Instruction_gap code q : Instruction code q → ∀ p op,
  Instruction code p → code !! p = Some op → (p < q)%nat → (p + 1 + push_length (b2z op) <= q)%nat.
Proof.
  induction (lt_wf q) as [q _ IH]. intros Hq p op Hp Hop Hlt. destruct Hq as [|r op' Hr Hop']; [lia|].
  destruct (lt_eq_lt_dec p r) as [[Hpr|<-]|Hrp].
  - specialize (IH r ltac:(lia) Hr p op Hp Hop Hpr). lia.
  - rewrite Hop in Hop'. by simplify_eq.
  - specialize (IH p ltac:(lia) Hp r op' Hr Hop' Hrp). lia.
Qed.

(** The bits before [p] tell the boundaries from the data. *)
Definition analysed (code : bytes) (bits : BitVec) (p : nat) : Prop :=
  clear_from bits p ∧ ∀ i, (i < p)%nat → bit bits i = false ↔ Instruction code i.

Lemma analysed_next code bits bits' p op :
  analysed code bits p → Instruction code p → code !! p = Some op →
  marks bits (p + 1) (push_length (b2z op)) bits' → analysed code bits' (p + 1 + push_length (b2z op)).
Proof.
  intros [Hc Ha] Hp Hop HM. split.
  { eapply marks_clear; [exact HM|]. intros i Hi. apply Hc. lia. }
  destruct HM as [_ HM]. intros i Hi. rewrite HM, orb_false_iff, bool_decide_eq_false.
  destruct (lt_eq_lt_dec i p) as [[Hip|Hip]|Hip].
  - rewrite Ha by done. intuition lia.
  - subst i. split; [done|]. intros _. split; [apply Hc; lia|lia].
  - split; [intros [_ ?]; lia|]. intros Hi'. pose proof (Instruction_gap _ _ Hi' _ _ Hp Hop Hip). lia.
Qed.

Lemma is_push op : (i8 (b2z op) < i8 PUSH1) ↔ ¬ (PUSH1 <= b2z op <= PUSH32).
Proof.
  unfold i8, PUSH1, PUSH32. pose proof (b2z_range op). change ((96 + 128) mod 256) with 224. destruct (decide (b2z op < 128)).
  - rewrite (Z.mod_small (b2z op + 128)) by lia. lia.
  - replace (b2z op + 128) with (b2z op - 128 + 1 * 256) by lia. rewrite Z.mod_add, Z.mod_small by lia. lia.
Qed.

Lemma codeBitmap_loop_spec code fuel : ∀ p bits,
  (length code - p < fuel)%nat → Instruction code p → length bits = (length code / 8 + 5)%nat → analysed code bits p →
  ∃ bits', codeBitmap_loop fuel code (Z.of_nat p) bits = Some bits' ∧ length bits' = length bits ∧
    ∀ i, (i < length code)%nat → bit bits' i = false ↔ Instruction code i.
Proof.
  induction fuel as [|fuel IH]; intros p bits Hf Hp Hl Ha; [lia|]. cbn [codeBitmap_loop]. rewrite Nat2Z.id.
  destruct (code !! p) as [op|] eqn:Hop.
  - apply lookup_lt_Some in Hop as Hlt. replace (Z.of_nat p + 1) with (Z.of_nat (p + 1)) by lia.
    pose proof (λ b, analysed_next _ _ b _ _ Ha Hp Hop) as Hnext. pose proof (Instruction_next _ _ _ Hp Hop) as Hin.
    unfold push_length in Hnext, Hin. pose proof (is_push op) as Hpush. destruct (decide (i8 (b2z op) < i8 PUSH1)) as [Hi|Hi].
    + rewrite decide_False in Hnext, Hin by tauto. rewrite Nat.add_0_r in Hnext, Hin.
      destruct (IH (p + 1)%nat bits) as (b & E & L & B); [lia|done|done|apply Hnext, marks_0|]. by exists b.
    + assert (PUSH1 <= b2z op <= PUSH32) as Hrange by (apply dec_stable; tauto). rewrite decide_True in Hnext, Hin by done.
      set (n := Z.to_nat (b2z op - PUSH1 + 1)) in *.
      replace (b2z op - PUSH1 + 1) with (Z.of_nat n) by (unfold PUSH1 in *; lia).
      destruct (mark_push_marks bits (p + 1) n) as (b & -> & Mb); [unfold PUSH1, PUSH32 in *; lia| | |].
      * rewrite Hl. assert ((p + 1) / 8 <= length code / 8)%nat by (apply Nat.Div0.div_le_mono; lia). lia.
      * intros i ?. apply (proj1 Ha). lia.
      * cbn [mbind option_bind].
        destruct (IH (p + 1 + n)%nat b) as (b' & E & L & B); [lia|done|destruct Mb; congruence|by apply Hnext|].
        exists b'. destruct Mb. split_and!; [done|congruence|done].
  - apply lookup_ge_None in Hop. exists bits. split_and!; [done|done|]. intros i Hi. apply Ha. lia.
Qed.

Lemma codeBitmap_total code :
  ∃ bits, codeBitmap code = Some bits ∧ length bits = (length code / 8 + 5)%nat ∧
    ∀ i, (i < length code)%nat → bit bits i = false ↔ Instruction code i.
Proof.
  unfold codeBitmap. destruct (codeBitmap_loop_spec code (S (length code)) 0 (replicate (length code / 8 + 1 + 4) Byte.x00))
    as (b & E & L & B); [lia|constructor|rewrite length_replicate; lia| |].
  - split; [|lia]. intros i _. unfold bit. destruct (_ !! _) as [b|] eqn:E; [|done].
    apply lookup_replicate in E as [-> _]. apply Z.bits_0.
  - exists b. split_and!; [done| |done]. rewrite L, length_replicate. lia.
Qed.

(** [codeSegment] on the analysis of a code answers for every position of the code. *)
Lemma codeSegment_spec code bits i :
  codeBitmap code = Some bits → 0 <= i < Z.of_nat (length code) →
  codeSegment bits i = Some (negb (bit bits (Z.to_nat i))) ∧ (bit bits (Z.to_nat i) = false ↔ Instruction code (Z.to_nat i)).
Proof.
  intros E Hi. destruct (codeBitmap_total code) as (b & E' & L & B). rewrite E in E'. simplify_eq. split; [|apply B; lia].
  rewrite <- (Z2Nat.id i) by lia. set (p := Z.to_nat i). assert (p < length code)%nat as Hp by lia. unfold codeSegment, bit.
  destruct (byte_index p) as [-> ->]. rewrite !Nat2Z.id.
  destruct (lookup_lt_is_Some_2 b (p / 8)) as [x Hx].
  { rewrite L. assert (p / 8 <= length code / 8)%nat by (apply Nat.Div0.div_le_mono; lia). lia. }
  rewrite Hx. cbn [mbind option_bind]. f_equal. change 1 with (Z.ones 1). rewrite Z.land_ones by lia. change (2 ^ 1) with 2.
  rewrite Z.testbit_eqb, <- Z.shiftr_div_pow2 by lia. destruct (Z.eqb_spec (Z.shiftr (b2z x) (Z.of_nat (p mod 8)) mod 2) 1) as [->|Hne]; [done|].
  apply bool_decide_eq_true. pose proof (Z.mod_pos_bound (Z.shiftr (b2z x) (Z.of_nat (p mod 8))) 2). lia.
Qed.

(** ** Contracts *)

(** The code and the input fit, the value is a word, the code is that of its hash and the
    analysis its own. *)
Record contract_ok {S : Type} `{StateDBLaws S} (c : Contract) : Prop := {
  ok_limit : Z.of_nat (length (Code c)) < code_limit;
  ok_input : Z.of_nat (length (Input c)) < code_limit;
  ok_value : is_word (value c);
  ok_hash : CodeHash c ≠ Hash0 → Code c = codes (CodeHash c);
  ok_analysis a : analysis c = Some a → codeBitmap (Code c) = Some a
}.

(** What execution leaves of a contract: all but the gas and the analysis. *)
Definition same_contract (c c' : Contract) : Prop :=
  caller c' = caller c ∧ address c' = address c ∧ Code c' = Code c ∧ CodeHash c' = CodeHash c ∧ Input c' = Input c
  ∧ IsDeployment c' = IsDeployment c ∧ IsSystemCall c' = IsSystemCall c ∧ value c' = value c.

#[export] Instance same_contract_PreOrder : PreOrder same_contract.
Proof. split; [by repeat split|]. intros c1 c2 c3. unfold same_contract. intuition congruence. Qed.

Lemma same_set_Gas g c : same_contract c (set_Gas g c).
Proof. by repeat split. Qed.

Lemma same_set_analysis a c : same_contract c (set_analysis a c).
Proof. by repeat split. Qed.

#[export] Hint Resolve same_set_Gas same_set_analysis : evm.

Section jumps.
Context {S : Type} `{StateDBLaws S}.

Lemma contract_ok_Gas g c : contract_ok c → contract_ok (set_Gas g c).
Proof. by intros [? ? ? ? ?]. Qed.

(** A place to jump to: an instruction boundary with the opcode JUMPDEST. *)
Definition jump_target (code : bytes) (dest : Z) : Prop :=
  0 <= dest < Z.of_nat (length code) ∧ code !! Z.to_nat dest = Some (z2b JUMPDEST) ∧ Instruction code (Z.to_nat dest).

Lemma isCode_ok i c cache :
  contract_ok c → cache_ok cache → 0 <= i < Z.of_nat (length (Code c)) →
  ∃ b c' cache', isCode i c cache = Some (b, c', cache') ∧ (b = true ↔ Instruction (Code c) (Z.to_nat i)) ∧
    contract_ok c' ∧ same_contract c c' ∧ Gas c' = Gas c ∧ cache_ok cache'.
Proof.
  intros Hc Hcache Hi.
  assert (∀ a, codeBitmap (Code c) = Some a →
    codeSegment a i = Some (negb (bit a (Z.to_nat i))) ∧ (negb (bit a (Z.to_nat i)) = true ↔ Instruction (Code c) (Z.to_nat i))) as Hseg.
  { intros a Ha. destruct (codeSegment_spec _ _ _ Ha Hi) as [E B]. split; [done|]. by rewrite negb_true_iff. }
  assert (∀ a, codeBitmap (Code c) = Some a → contract_ok (set_analysis a c)) as Hset.
  { intros a Ha. destruct Hc as [L I V Hh _]. split; [done|done|done|done|]. cbn. by intros ? [= <-]. }
  destruct (codeBitmap_total (Code c)) as (bits & Hbits & _ & _). unfold isCode.
  destruct (analysis c) as [a|] eqn:Ea.
  { apply (ok_analysis c Hc) in Ea as Ha. destruct (Hseg a Ha) as [-> B]. cbn [mbind option_bind].
    eexists _, _, _. split_and!; [done|apply B..|done|reflexivity|done|done]. }
  destruct (decide (CodeHash c ≠ Hash0)) as [Hh|Hh].
  - pose proof (ok_hash c Hc Hh) as Hcode. destruct (cache !! CodeHash c) as [a|] eqn:El.
    + apply Hcache in El as Ha. rewrite <- Hcode in Ha. cbn [mbind option_bind]. destruct (Hseg a Ha) as [-> B]. cbn [mbind option_bind].
      eexists _, _, _. split_and!; [done|apply B..|by apply Hset|apply same_set_analysis|done|done].
    + rewrite Hbits. cbn [mbind option_bind]. destruct (Hseg bits Hbits) as [-> B]. cbn [mbind option_bind].
      eexists _, _, _. split_and!; [done|apply B..|by apply Hset|apply same_set_analysis|done|].
      intros h a [[<- <-]|[? ?]]%lookup_insert_Some; [by rewrite <- Hcode|by apply Hcache].
  - rewrite Hbits. cbn [mbind option_bind]. destruct (Hseg bits Hbits) as [-> B]. cbn [mbind option_bind].
    eexists _, _, _. split_and!; [done|apply B..|by apply Hset|apply same_set_analysis|done|done].
Qed.

Lemma GetOp_lookup c i : 0 <= i < Z.of_nat (length (Code c)) → GetOp c i ≠ JUMPDEST ↔ Code c !! Z.to_nat i ≠ Some (z2b JUMPDEST).
Proof.
  intros Hi. unfold GetOp. destruct (lookup_lt_is_Some_2 (Code c) (Z.to_nat i)) as [b ->]; [lia|].
  split; intros Hne E; apply Hne.
  - injection E as ->. by rewrite b2z_z2b.
  - f_equal. apply b2z_inj. by rewrite E, b2z_z2b.
Qed.

Lemma validJumpdest_ok dest c cache :
  contract_ok c → cache_ok cache →
  ∃ b c' cache', validJumpdest dest c cache = Some (b, c', cache') ∧ (b = true ↔ jump_target (Code c) dest) ∧
    contract_ok c' ∧ same_contract c c' ∧ Gas c' = Gas c ∧ cache_ok cache'.
Proof.
  intros Hc Hcache. unfold validJumpdest, Uint64WithOverflow, IsUint64. pose proof (ok_limit c Hc) as HL. unfold code_limit in HL.
  assert (¬ jump_target (Code c) dest → (false = true ↔ jump_target (Code c) dest)) as Hno by (intros; by split).
  destruct (decide (u64 dest = dest)) as [Hu|Hu].
  - pose proof (u64_range dest) as Hd. rewrite Hu in Hd. unfold is_u64 in Hd.
    rewrite bool_decide_eq_true_2, Hu by done. cbn [negb orb]. destruct (decide (Z.of_nat (length (Code c)) <= dest)) as [Hl|Hl].
    + rewrite bool_decide_eq_true_2 by done. exists false, c, cache. split_and!; [done|apply Hno; unfold jump_target; lia..|done|reflexivity|done|done].
    + rewrite bool_decide_eq_false_2 by done. destruct (decide _) as [Hop|Hop].
      * rewrite GetOp_lookup in Hop by lia. exists false, c, cache.
        split_and!; [done|apply Hno; unfold jump_target; tauto..|done|reflexivity|done|done].
      * rewrite GetOp_lookup in Hop by lia. apply dec_stable in Hop.
        destruct (isCode_ok dest c cache) as (b & c' & cache' & -> & B & ? & ? & ? & ?); [done|done|lia|].
        exists b, c', cache'. split_and!; [done|unfold jump_target; rewrite B; intuition lia..|done|done|done|done].
  - rewrite bool_decide_eq_false_2 by done. cbn [negb orb]. exists false, c, cache.
    split_and!; [done|apply Hno; unfold jump_target|done|reflexivity|done|done].
    intros (? & _). apply Hu, u64_small. unfold is_u64, two64. lia.
Qed.
End jumps.
