(* ===== verification/EvmMemory.v ===== *)
(** * The EVM: memory and its price

    The ranges that every instruction reads or writes lie below the size that
    [memory_table.go] computes, so that no access of [memory.go] is out of bounds once the
    memory has been resized; and what [memoryGasCost] charges: the difference between the
    total prices of the new and the old size. *)
From Stdlib Require Import ZArith Lia.
From Stdlib Require Strings.Byte.
From stdpp Require Import base tactics decidable list numbers gmap.
From S2P Require Import Prelude Keccak Common Rlp Precompiles Evm EvmGas EvmTable EvmOps EvmRun EvmLogic EvmAnalysis.

(** ** Ranges *)

(** The offsets and lengths that an instruction takes from the stack. *)
Definition ranges (m : memorySizeFunc) (st : list Z) : list (Z * Z) :=
  let r i j := (nth i st 0, nth j st 0) in
  match m with
  | memoryKeccak256 | memoryReturn | memoryRevert | memoryLog => [r 0%nat 1%nat]
  | memoryCallDataCopy | memoryReturnDataCopy | memoryCodeCopy => [r 0%nat 2%nat]
  | memoryExtCodeCopy => [r 1%nat 3%nat]
  | memoryMLoad | memoryMStore => [(nth 0 st 0, 32)]
  | memoryMStore8 => [(nth 0 st 0, 1)]
  | memoryMcopy => [r 0%nat 2%nat; r 1%nat 2%nat]
  | memoryCreate | memoryCreate2 => [r 1%nat 2%nat]
  | memoryCall => [r 5%nat 6%nat; r 3%nat 4%nat]
  | memoryDelegateCall | memoryStaticCall => [r 4%nat 5%nat; r 2%nat 3%nat]
  end.

(** How deep it looks into the stack. *)
Definition memory_depth (m : memorySizeFunc) : nat :=
  match m with
  | memoryMLoad | memoryMStore | memoryMStore8 => 1
  | memoryKeccak256 | memoryReturn | memoryRevert | memoryLog => 2
  | memoryCallDataCopy | memoryReturnDataCopy | memoryCodeCopy | memoryMcopy | memoryCreate | memoryCreate2 => 3
  | memoryExtCodeCopy => 4
  | memoryCall => 7
  | memoryDelegateCall | memoryStaticCall => 6
  end.

(** A range that is empty or lies below [size]. *)
Definition covered (size : Z) (r : Z * Z) : Prop :=
  let '(off, len) := r in len = 0 ∨ (is_u64 off ∧ is_u64 len ∧ off + len <= size).

Lemma covered_mono size size' r : size <= size' → covered size r → covered size' r.
Proof. destruct r. unfold covered. intros. intuition lia. Qed.

Lemma IsUint64_true x : IsUint64 x = true ↔ is_u64 x.
Proof.
  unfold IsUint64. rewrite bool_decide_eq_true. split; [intros <-; apply u64_range|apply u64_small].
Qed.

Lemma calcMemSize64WithUint_ok off len size :
  is_u64 len → calcMemSize64WithUint off len = (size, false) → is_u64 size ∧ covered size (off, len).
Proof.
  intros Hlen. unfold calcMemSize64WithUint, Uint64WithOverflow. destruct (decide (len = 0)) as [->|Hne].
  - intros [= <-]. split; [by vm_compute|by left].
  - destruct (IsUint64 off) eqn:Hoff; [|by intros [=]]. cbn [negb]. apply IsUint64_true in Hoff. rewrite (u64_small off) by done.
    intros [= <- Hov]. apply bool_decide_eq_false in Hov. split; [apply u64_range|]. right. split_and!; [done|done|].
    assert (u64 (off + len) = off + len) as ->; [|lia]. word_lia.
Qed.

Lemma calcMemSize64_ok off len size : calcMemSize64 off len = (size, false) → is_u64 size ∧ covered size (off, len).
Proof.
  unfold calcMemSize64. destruct (IsUint64 len) eqn:Hlen; [|by intros [=]]. cbn [negb]. apply IsUint64_true in Hlen.
  unfold Uint64. rewrite u64_small by done. by apply calcMemSize64WithUint_ok.
Qed.

Lemma nth_lookup_Some (st : list Z) i : (i < length st)%nat → st !! i = Some (nth i st 0).
Proof. intros Hi. rewrite nth_lookup. destruct (lookup_lt_is_Some_2 st i Hi) as [x ->]. done. Qed.

Lemma memorySize_of_ok m st :
  Forall is_word st → (memory_depth m <= length st)%nat →
  ∃ size overflow, memorySize_of st m = Some (size, overflow) ∧
    (overflow = false → is_u64 size ∧ Forall (covered size) (ranges m st)).
Proof.
  intros Hw Hl.
  assert (∀ i j, (i < length st)%nat → (j < length st)%nat →
    ∃ size overflow, size_at st i j = Some (size, overflow) ∧
      (overflow = false → is_u64 size ∧ covered size (nth i st 0, nth j st 0))) as Hat.
  { intros i j Hi Hj. unfold size_at, st_Back. rewrite !nth_lookup_Some by done. cbn [mbind option_bind].
    destruct (calcMemSize64 _ _) as [size overflow] eqn:E. exists size, overflow. split; [done|]. intros ->. by apply calcMemSize64_ok. }
  assert (∀ i len, (i < length st)%nat → is_u64 len →
    ∃ size overflow, size_fixed st i len = Some (size, overflow) ∧
      (overflow = false → is_u64 size ∧ covered size (nth i st 0, len))) as Hfixed.
  { intros i len Hi Hlen. unfold size_fixed, st_Back. rewrite nth_lookup_Some by done. cbn [mbind option_bind].
    destruct (calcMemSize64WithUint _ _) as [size overflow] eqn:E. exists size, overflow. split; [done|]. intros ->.
    by apply calcMemSize64WithUint_ok. }
  assert (∀ i j k l, (i < length st)%nat → (j < length st)%nat → (k < length st)%nat → (l < length st)%nat →
    ∃ size overflow, size_call st i j k l = Some (size, overflow) ∧
      (overflow = false → is_u64 size ∧ Forall (covered size) [(nth i st 0, nth j st 0); (nth k st 0, nth l st 0)])) as Hcall.
  { intros i j k l Hi Hj Hk Hll. unfold size_call. destruct (Hat i j) as (x & ox & -> & Cx); [done..|]. cbn [mbind option_bind].
    destruct ox; [by eexists _, _|]. destruct (Hat k l) as (y & oy & -> & Cy); [done..|]. cbn [mbind option_bind].
    destruct oy; [by eexists _, _|]. destruct Cx as [Ux Cx], Cy as [Uy Cy]; [done..|]. eexists _, _. split; [done|]. intros _.
    split; [by destruct (decide _)|]. apply Forall_cons; split; [eapply covered_mono; [|exact Cx]; case_decide; lia|].
    apply Forall_singleton. eapply covered_mono; [|exact Cy]. case_decide; lia. }
  assert (∀ i j, (∃ size overflow, size_at st i j = Some (size, overflow) ∧
      (overflow = false → is_u64 size ∧ covered size (nth i st 0, nth j st 0))) →
    ∃ size overflow, size_at st i j = Some (size, overflow) ∧
      (overflow = false → is_u64 size ∧ Forall (covered size) [(nth i st 0, nth j st 0)])) as Hone.
  { intros i j (size & ov & E & C). exists size, ov. split; [done|]. intros Hov. destruct (C Hov). split; [done|by apply Forall_singleton]. }
  assert (∀ len, is_u64 len → (1 <= length st)%nat →
    ∃ size overflow, size_fixed st 0 len = Some (size, overflow) ∧
      (overflow = false → is_u64 size ∧ Forall (covered size) [(nth 0 st 0, len)])) as Hone'.
  { intros len Hlen H1. destruct (Hfixed 0%nat len) as (size & ov & E & C); [lia|done|].
    exists size, ov. split; [done|]. intros Hov. destruct (C Hov). split; [done|by apply Forall_singleton]. }
  destruct m; cbn [memory_depth memorySize_of ranges] in *;
    try (apply Hone, Hat; lia); try (apply Hcall; lia); try (apply Hone'; [by vm_compute|lia]).
  unfold size_mcopy, st_Back. rewrite !nth_lookup_Some by lia. cbn [mbind option_bind].
  destruct (calcMemSize64 _ _) as [size overflow] eqn:E. exists size, overflow. split; [done|]. intros ->.
  apply calcMemSize64_ok in E as [U C]. split; [done|].
  assert (∀ i, (i < length st)%nat → is_word (nth i st 0)) as Hnth.
  { intros i Hi. eapply Forall_lookup_1; [exact Hw|]. by apply nth_lookup_Some. }
  pose proof (Hnth 0%nat ltac:(lia)) as H0. pose proof (Hnth 1%nat ltac:(lia)) as H1. unfold is_word in H0, H1.
  apply Forall_cons; split; [|apply Forall_singleton]; unfold covered in *; destruct C as [C|(C1 & C2 & C3)]; auto; right; unfold is_u64 in *;
    destruct (decide (nth 0 st 0 < nth 1 st 0)); lia.
Qed.

(** ** Accesses *)

(** The largest memory that has a price. *)
Definition memory_limit : Z := 0x1FFFFFFFE0.

Definition same_mem (m m' : Memory) : Prop := length (store m') = length (store m) ∧ lastGasCost m' = lastGasCost m.

#[export] Instance same_mem_PreOrder : PreOrder same_mem.
Proof. split; [by split|]. intros m1 m2 m3 [] []. split; congruence. Qed.

Section access.
Context (m : Memory) (Hlimit : mem_Len m <= memory_limit).

Lemma covered_bounds off len :
  covered (mem_Len m) (off, len) → len ≠ 0 → Uint64 off = off ∧ Uint64 len = len ∧ 0 <= off ∧ 0 < len ∧ off + len <= mem_Len m ∧ u64 (off + len) = off + len.
Proof.
  intros [->|(Ho & Hl & Hle)] Hne; [done|]. unfold Uint64. unfold memory_limit in Hlimit.
  rewrite !u64_small; [|unfold is_u64 in *; word_lia|done..]. unfold is_u64 in *. lia.
Qed.

Lemma mem_GetPtr_ok off len :
  covered (mem_Len m) (off, len) → ∃ b, mem_GetPtr m (Uint64 off) (Uint64 len) = Some b ∧ Z.of_nat (length b) = Uint64 len.
Proof.
  intros Hc. unfold mem_GetPtr. destruct (decide (Uint64 len = 0)) as [->|Hne]; [by exists []|].
  assert (len ≠ 0) as Hl by (intros ->; done). destruct (covered_bounds _ _ Hc Hl) as (-> & -> & ? & ? & ? & ->).
  rewrite decide_True by lia. eexists. split; [done|]. rewrite length_take, length_drop. unfold mem_Len in *. lia.
Qed.

Lemma copy_length dst src : length (copy dst src) = length dst.
Proof. unfold copy. rewrite length_app, length_take, length_drop. lia. Qed.

Lemma copy_into_ok lo hi v : 0 <= lo <= hi → hi <= mem_Len m → ∃ m', copy_into m lo hi v = Some m' ∧ same_mem m m'.
Proof.
  intros Hlo Hhi. unfold copy_into. rewrite decide_True by done. eexists. split; [done|]. split; [|done]. cbn [store].
  rewrite !length_app, copy_length, !length_take, !length_drop. unfold mem_Len in *. lia.
Qed.

Lemma mem_Set_ok off len v :
  covered (mem_Len m) (off, len) → ∃ m', mem_Set m (Uint64 off) (Uint64 len) v = Some m' ∧ same_mem m m'.
Proof.
  intros Hc. unfold mem_Set. destruct (decide (0 < Uint64 len)) as [Hlt|Hge]; [|by exists m].
  assert (len ≠ 0) as Hl by (intros ->; done). destruct (covered_bounds _ _ Hc Hl) as (-> & -> & ? & ? & ? & ->).
  rewrite decide_False by lia. apply copy_into_ok; lia.
Qed.

Lemma mem_Set32_ok off v : covered (mem_Len m) (off, 32) → ∃ m', mem_Set32 m (Uint64 off) v = Some m' ∧ same_mem m m'.
Proof.
  intros Hc. unfold mem_Set32. destruct (covered_bounds _ _ Hc) as (-> & _ & ? & ? & ? & ->); [done|].
  rewrite decide_False by lia. apply copy_into_ok; lia.
Qed.

Lemma mem_set_byte_ok off v : covered (mem_Len m) (off, 1) → ∃ m', mem_set_byte m (Uint64 off) v = Some m' ∧ same_mem m m'.
Proof.
  intros Hc. unfold mem_set_byte. destruct (covered_bounds _ _ Hc) as (-> & _ & ? & ? & ? & _); [done|].
  rewrite decide_True by lia. eexists. split; [done|]. split; [|done]. cbn. by rewrite length_insert.
Qed.

Lemma mem_Copy_ok dst src len :
  covered (mem_Len m) (dst, len) → covered (mem_Len m) (src, len) →
  ∃ m', mem_Copy m (Uint64 dst) (Uint64 src) (Uint64 len) = Some m' ∧ same_mem m m'.
Proof.
  intros Hd Hs. unfold mem_Copy. destruct (decide (Uint64 len = 0)) as [_|Hne]; [by exists m|].
  assert (len ≠ 0) as Hl by (intros ->; done). destruct (mem_GetPtr_ok _ _ Hs) as (b & -> & Hb). cbn [mbind option_bind].
  destruct (covered_bounds _ _ Hd Hl) as (-> & ? & ? & ? & ? & _). rewrite decide_True by lia. apply copy_into_ok; lia.
Qed.
End access.

(** ** The price *)

(** The total price of [w] words. *)
Definition memory_fee (w : Z) : Z := 3 * w + w * w / 512.

Lemma memory_fee_mono w w' : 0 <= w <= w' → memory_fee w <= memory_fee w'.
Proof.
  intros Hw. unfold memory_fee. assert (w * w <= w' * w') by nia.
  assert (w * w / 512 <= w' * w' / 512) by (apply Z.div_le_mono; lia). lia.
Qed.

(** Whole words, paid for. *)
Record mem_ok (m : Memory) : Prop := {
  ok_words : mem_Len m mod 32 = 0;
  ok_size : mem_Len m <= memory_limit;
  ok_fee : lastGasCost m = memory_fee (mem_Len m / 32)
}.

(** The size that a price of [cost] allows: what [memoryGasCost] answers for [size], a
    number of whole words, and the memory with the new total. *)
Definition paid (m : Memory) (size cost : Z) (m' : Memory) : Prop :=
  store m' = store m ∧ size <= memory_limit ∧
  lastGasCost m' = memory_fee (Z.max (mem_Len m) size / 32) ∧ lastGasCost m + cost = lastGasCost m'.

Lemma paid_nonneg m size cost m' : mem_ok m → paid m size cost m' → 0 <= cost ∧ 0 <= lastGasCost m.
Proof.
  intros [W Sz F] (_ & _ & E & C). rewrite F in C. rewrite E in C. rewrite F. assert (0 <= mem_Len m) by (unfold mem_Len; lia).
  pose proof (memory_fee_mono (mem_Len m / 32) (Z.max (mem_Len m) size / 32)) as Hm.
  pose proof (memory_fee_mono 0 (mem_Len m / 32)) as H0. change (memory_fee 0) with 0 in H0.
  assert (mem_Len m / 32 <= Z.max (mem_Len m) size / 32) by (apply Z.div_le_mono; lia).
  assert (0 <= mem_Len m / 32) by (apply Z.div_pos; lia). lia.
Qed.

(** After paying, resizing gives a memory that is in order again. *)
Lemma paid_resize m size cost m' :
  mem_ok m → size mod 32 = 0 → paid m size cost m' →
  mem_ok (mem_Resize m' size) ∧ mem_Len (mem_Resize m' size) = Z.max (mem_Len m) size ∧
  lastGasCost (mem_Resize m' size) = lastGasCost m + cost.
Proof.
  intros [W Sz F] Hs (E & Hl & Hf & Hc). unfold mem_Resize. assert (mem_Len m' = mem_Len m) as Em by (unfold mem_Len; by rewrite E).
  destruct (decide (mem_Len m' < size)) as [Hlt|Hge].
  - assert (mem_Len (MkMemory (store m' ++ replicate (Z.to_nat (size - mem_Len m')) Byte.x00) (lastGasCost m')) = size) as EL.
    { unfold mem_Len at 1. cbn [store]. rewrite length_app, length_replicate. unfold mem_Len in *. lia. }
    rewrite EL. cbn [lastGasCost]. rewrite Z.max_r in * by lia. split_and!; [|lia|lia]. split; [by rewrite EL|by rewrite EL|by rewrite EL].
  - rewrite Em, Z.max_l in * by lia. split_and!; [|lia|lia]. split; [by rewrite Em|by rewrite Em|by rewrite Em].
Qed.
