(* ===== verification/EvmGasFacts.v ===== *)
(** * The EVM: what dynamic gas guarantees

    Every gas function, on a stack that is deep enough, answers with a price or an error:
    the price covers the memory and the gas that a call hands on ([gas_post]); the frame
    keeps all but the total price of its memory, and the state changes only as a static
    call allows. *)
From Stdlib Require Import ZArith Lia.
From Stdlib Require Strings.Byte.
From stdpp Require Import base tactics decidable list numbers gmap.
From S2P Require Import Prelude Keccak Common Rlp Precompiles Evm EvmGas EvmTable EvmOps EvmRun EvmLogic EvmAnalysis EvmMemory.

(** How deep a gas function looks into the stack. *)
Definition call_depth (c : callGasFunc) : nat := match c with gasCall | gasCallCode => 3 | _ => 1 end.

Definition gas_depth (g : gasFunc) : nat :=
  match g with
  | pureMemoryGascost => 0
  | memoryCopierGas n => n + 1
  | makeGasLog _ | gasKeccak256 | gasExpFrontier | gasExpEIP158 | gasSStore | gasSStoreEIP2200 | makeGasSStoreFunc _ => 2
  | gasCreate2 | gasCreateEip3860 | gasCreate2Eip3860 => 3
  | gasSelfdestruct | makeSelfdestructGasFn _ | gasSLoadEIP2929 | gasEip2929AccountCheck => 1
  | gasExtCodeCopyEIP2929 => 4
  | plainGasCall c => call_depth c
  | makeCallVariantGasCallEIP2929 c pos => Nat.max (call_depth c) (pos + 1)
  | makeCallVariantGasCallEIP7702 c => Nat.max (call_depth c) 2
  | gasCallEIP7702 => 3
  end.

(** Whether it charges for memory. *)
Definition charges_memory (g : gasFunc) : bool :=
  match g with
  | gasExpFrontier | gasExpEIP158 | gasSStore | gasSStoreEIP2200 | makeGasSStoreFunc _ | gasSelfdestruct | makeSelfdestructGasFn _
  | gasSLoadEIP2929 | gasEip2929AccountCheck => false
  | _ => true
  end.

(** The kind of call that it prices. *)
Definition call_kind (g : gasFunc) : option callGasFunc :=
  match g with
  | plainGasCall c | makeCallVariantGasCallEIP2929 c _ | makeCallVariantGasCallEIP7702 c => Some c
  | gasCallEIP7702 => Some gasCall
  | _ => None
  end.

(** What a call with a value costs on top. *)
Definition value_price (c : callGasFunc) (st : list Z) : Z :=
  match c with
  | gasCall | gasCallCode => if decide (nth 2 st 0 = 0) then 0 else CallValueTransferGas
  | _ => 0
  end.

(** The least price besides that of the memory; [temp] is the gas that goes with a call. *)
Definition surcharge (g : gasFunc) (temp : Z) (st : list Z) : Z :=
  match g, call_kind g with
  | _, Some c => temp + value_price c st
  | (gasExpFrontier | gasExpEIP158), _ => ExpGas
  | makeGasLog _, _ => LogGas
  | (gasSStore | gasSStoreEIP2200 | makeGasSStoreFunc _ | gasSLoadEIP2929), _ => WarmStorageReadCostEIP2929
  | _, _ => 0
  end.

(** ** Frames *)

Record frame_ok {S : Type} `{StateDBLaws S} (f : Frame) : Prop := {
  ok_contract : contract_ok (contract f);
  ok_gas : is_u64 (Gas (contract f));
  ok_stack : Forall is_word (stack f);
  ok_mem : mem_ok (mem f)
}.

(** Part of the gas spent, nothing else changed. *)
Definition spent {S : Type} `{StateDBLaws S} (c c' : Contract) : Prop :=
  same_contract c c' ∧ contract_ok c' ∧ 0 <= Gas c' <= Gas c.

Lemma stack_word st i x : Forall is_word st → st !! i = Some x → is_word x.
Proof. intros Hst. by apply Forall_lookup_1. Qed.

Lemma set_mem_id f : set_mem (mem f) f = f.
Proof. by destruct f. Qed.

Lemma set_Gas_restore c x : set_Gas (Gas c) (set_Gas x c) = c.
Proof. by destruct c. Qed.

Lemma set_contract_restore c f : set_contract (contract f) (set_contract c f) = f.
Proof. by destruct f. Qed.

Section gas.
Context {S : Type} `{StateDBLaws S} (R : bool → S → S → Prop) `{!EvmRel R}.
Context (rules : EvmRules).
Implicit Types (e : EVM S) (f : Frame).

Definition gas_post (g : gasFunc) (size : Z) (e : EVM S) (f : Frame) (r : out Z) (s : EVM S * Frame) : Prop :=
  match r with
  | Ret cost =>
      Keep R e (fst s) ∧ is_u64 cost ∧
      ∃ c m, paid (mem f) size c m ∧ snd s = set_mem m f ∧ c + surcharge g (callGasTemp (fst s)) (stack f) <= cost ∧
        (call_kind g ≠ None → is_u64 (callGasTemp (fst s)))
  | Fail _ _ => Keep R e (fst s) ∧ spent (contract f) (contract (snd s))
  | Crash => False
  | DbCrash => True
  | NoFuel => False
  end.

Lemma spent_refl f : frame_ok f → spent (contract f) (contract f).
Proof. intros [C G _ _]. split_and!; [reflexivity|done|unfold is_u64 in *; lia..]. Qed.

(** ** Parts *)

Lemma wp_safe_add x y (Q : out Z → EVM S * Frame → Prop) s :
  is_u64 x → is_u64 y → (is_u64 (x + y) → Q (Ret (x + y)) s) → Q (Fail ErrGasUintOverflow []) s → wp (safe_add x y) Q s.
Proof.
  intros Hx Hy HQ HF. unfold safe_add, SafeAdd. destruct (decide (two64 <= x + y)) as [Hov|Hok].
  - by rewrite bool_decide_eq_true_2.
  - rewrite bool_decide_eq_false_2 by done. assert (is_u64 (x + y)) by (unfold is_u64 in *; lia). rewrite u64_small by done. by apply HQ.
Qed.

Lemma wp_safe_mul x y (Q : out Z → EVM S * Frame → Prop) s :
  is_u64 x → is_u64 y → (is_u64 (x * y) → Q (Ret (x * y)) s) → Q (Fail ErrGasUintOverflow []) s → wp (safe_mul x y) Q s.
Proof.
  intros Hx Hy HQ HF. unfold safe_mul, SafeMul. destruct (decide (0 < x * y / two64)) as [Hov|Hok].
  - by rewrite bool_decide_eq_true_2.
  - rewrite bool_decide_eq_false_2 by done.
    assert (is_u64 (x * y)).
    { unfold is_u64 in *. split; [nia|]. pose proof (Z.div_mod (x * y) two64) as Hd. pose proof (Z.mod_pos_bound (x * y) two64) as Hm.
      rewrite two64_val in *. lia. }
    rewrite u64_small by done. by apply HQ.
Qed.

Lemma wp_uint64_or_overflow x (Q : out Z → EVM S * Frame → Prop) s :
  (is_u64 x → Q (Ret x) s) → Q (Fail ErrGasUintOverflow []) s → wp (uint64_or_overflow x) Q s.
Proof.
  intros HQ HF. unfold uint64_or_overflow, Uint64WithOverflow. destruct (IsUint64 x) eqn:E; [|done].
  apply IsUint64_true in E. rewrite u64_small by done. by apply HQ.
Qed.

Lemma toWordSize_ok size : is_u64 size → is_u64 (toWordSize size) ∧ size <= toWordSize size * 32.
Proof.
  unfold toWordSize, is_u64, MaxUint64. rewrite two64_val. intros Hs. destruct (decide _).
  - change ((18446744073709551616 - 1) / 32) with 576460752303423487. lia.
  - rewrite u64_small by (unfold is_u64; rewrite two64_val; lia). Z.div_mod_to_equations. lia.
Qed.

Lemma toWordSize_words size : size mod 32 = 0 → 0 <= size <= memory_limit → toWordSize size = size / 32.
Proof.
  unfold toWordSize, memory_limit, MaxUint64. intros Hm Hs. rewrite decide_False by (rewrite two64_val; lia).
  rewrite u64_small by (unfold is_u64; rewrite two64_val; lia). Z.div_mod_to_equations. lia.
Qed.

Lemma memory_fee_u64 w : 0 <= w <= memory_limit / 32 → is_u64 (memory_fee w) ∧ is_u64 (w * w) ∧ is_u64 (w * 3).
Proof.
  unfold memory_limit, memory_fee, is_u64. change (0x1FFFFFFFE0 / 32) with 4294967295. rewrite two64_val. intros Hw.
  assert (0 <= w * w <= 4294967295 * 4294967295) as Hsq by nia. Z.div_mod_to_equations. lia.
Qed.

Lemma wp_memoryGasCost size (Q : out Z → EVM S * Frame → Prop) e f :
  mem_ok (mem f) → size mod 32 = 0 → 0 <= size →
  (∀ c m, paid (mem f) size c m → is_u64 c → Q (Ret c) (e, set_mem m f)) →
  Q (Fail ErrGasUintOverflow []) (e, f) → wp (memoryGasCost size) Q (e, f).
Proof.
  intros Hm Hs Hpos HQ HF. pose proof Hm as [W Sz F]. unfold memoryGasCost.
  assert (∀ n, n <= mem_Len (mem f) → n mod 32 = 0 → paid (mem f) n 0 (mem f)) as Hfree.
  { intros n Hn _. split_and!; [done|lia|by rewrite Z.max_l|lia]. }
  assert (is_u64 0) as Hz by done. assert (0 <= mem_Len (mem f)) as Hlen by (unfold mem_Len; lia).
  destruct (decide (size = 0)) as [->|Hne].
  { apply wp_ret. rewrite <- (set_mem_id f). apply HQ; [by apply Hfree|done]. }
  destruct (decide (0x1FFFFFFFE0 < size)) as [|Hle]; [done|]. apply wp_bind, wp_get_frame. unfold bind_post.
  rewrite toWordSize_words by (unfold memory_limit; lia).
  assert (u64 (size / 32 * 32) = size) as ->.
  { rewrite u64_small; [Z.div_mod_to_equations; lia|]. unfold is_u64. rewrite two64_val. Z.div_mod_to_equations; lia. }
  destruct (decide (mem_Len (mem f) < size)) as [Hlt|Hge].
  - apply wp_bind, wp_mod_frame. unfold bind_post. apply wp_ret.
    destruct (memory_fee_u64 (size / 32)) as (U1 & U2 & U3).
    { split; [apply Z.div_pos; lia|]. apply Z.div_le_mono; unfold memory_limit; lia. }
    unfold MemoryGas, QuadCoeffDiv. rewrite (u64_small (size / 32 * (size / 32))), (u64_small (size / 32 * 3)) by done.
    replace (size / 32 * 3 + size / 32 * (size / 32) / 512) with (memory_fee (size / 32)) by (unfold memory_fee; lia).
    rewrite (u64_small (memory_fee _)) by done.
    assert (0 <= lastGasCost (mem f) <= memory_fee (size / 32)).
    { rewrite F. split; [apply (memory_fee_mono 0)|apply memory_fee_mono]; split; try lia; try (apply Z.div_pos; lia). apply Z.div_le_mono; lia. }
    rewrite u64_small by (unfold is_u64 in *; lia). apply HQ; [|unfold is_u64 in *; lia].
    split_and!; [done|unfold memory_limit; lia|cbn; by rewrite Z.max_r by lia|cbn; lia].
  - apply wp_ret. rewrite <- (set_mem_id f). apply HQ; [apply Hfree; [lia|done]|done].
Qed.

(** ** Memory and words *)

Section memory.
Context (e : EVM S) (f : Frame) (size : Z) (Hf : frame_ok f) (Hs : size mod 32 = 0) (Hpos : 0 <= size).

Lemma wp_memory_and_words pos wordGas (Q : out Z → EVM S * Frame → Prop) :
  (pos < length (stack f))%nat → is_u64 wordGas →
  (∀ c m cost, paid (mem f) size c m → c <= cost → is_u64 cost → Q (Ret cost) (e, set_mem m f)) →
  (∀ m err, Q (Fail err []) (e, set_mem m f)) → wp (memory_and_words pos wordGas size) Q (e, f).
Proof.
  intros Hl Hg HQ HF. pose proof (ok_mem f Hf) as Hm. unfold memory_and_words. apply wp_bind, wp_memoryGasCost; [done..| |].
  2: { rewrite <- (set_mem_id f) at 1. apply HF. }
  intros c m Hpaid Hc. unfold bind_post. apply wp_bind. eapply wp_Back; [by apply nth_lookup_Some|]. unfold bind_post.
  apply wp_bind, wp_uint64_or_overflow; [|apply HF]. intros Hw. unfold bind_post. destruct (toWordSize_ok _ Hw) as [Hws _].
  apply wp_bind, wp_safe_mul; [done|done| |apply HF]. intros Hwm. unfold bind_post.
  apply wp_safe_add; [done|done| |apply HF]. intros Hsum. eapply HQ; [done| |done]. unfold is_u64 in Hwm. lia.
Qed.

Lemma wp_gas_log n (Q : out Z → EVM S * Frame → Prop) :
  (2 <= length (stack f))%nat → (n <= 4)%nat →
  (∀ c m cost, paid (mem f) size c m → c + LogGas <= cost → is_u64 cost → Q (Ret cost) (e, set_mem m f)) →
  (∀ m err, Q (Fail err []) (e, set_mem m f)) → wp (gas_log n size) Q (e, f).
Proof.
  intros Hl Hn HQ HF. pose proof (ok_mem f Hf) as Hm. assert (∀ err, Q (Fail err []) (e, f)) as HF'.
  { intros err. rewrite <- (set_mem_id f). apply HF. }
  unfold gas_log. apply wp_bind. eapply wp_Back; [apply nth_lookup_Some; lia|]. unfold bind_post.
  apply wp_bind, wp_uint64_or_overflow; [|apply HF']. intros Hreq. unfold bind_post.
  apply wp_bind, wp_memoryGasCost; [done..| |apply HF']. intros c m Hpaid Hc. unfold bind_post.
  assert (is_u64 LogGas ∧ is_u64 (Z.of_nat n * LogTopicGas) ∧ is_u64 LogDataGas) as (U1 & U2 & U3).
  { unfold is_u64, LogGas, LogTopicGas, LogDataGas. rewrite two64_val. lia. }
  apply wp_bind, wp_safe_add; [done..| |apply HF]. intros Hs1. unfold bind_post.
  apply wp_bind, wp_safe_add; [done..| |apply HF]. intros Hs2. unfold bind_post.
  apply wp_bind, wp_safe_mul; [done..| |apply HF]. intros Hs3. unfold bind_post.
  apply wp_safe_add; [done..| |apply HF]. intros Hs4. eapply HQ; [done| |done]. unfold is_u64 in *. lia.
Qed.

Lemma wp_gas_create_3860 wordGas (Q : out Z → EVM S * Frame → Prop) :
  (3 <= length (stack f))%nat →
  (∀ c m cost, paid (mem f) size c m → c <= cost → is_u64 cost → Q (Ret cost) (e, set_mem m f)) →
  (∀ m err, Q (Fail err []) (e, set_mem m f)) → wp (gas_create_3860 wordGas size) Q (e, f).
Proof.
  intros Hl HQ HF. pose proof (ok_mem f Hf) as Hm. unfold gas_create_3860. apply wp_bind, wp_memoryGasCost; [done..| |].
  2: { rewrite <- (set_mem_id f) at 1. apply HF. }
  intros c m Hpaid Hc. unfold bind_post. apply wp_bind. eapply wp_Back; [cbn; apply nth_lookup_Some; lia|]. unfold bind_post.
  apply wp_bind, wp_uint64_or_overflow; [|apply HF]. intros Hw. unfold bind_post. destruct (decide _); [apply HF|].
  apply wp_safe_add; [done|apply u64_range| |apply HF]. intros Hsum. eapply HQ; [done| |done].
  pose proof (u64_range (wordGas * ((nth 2 (stack f) 0 + 31) / 32))). unfold is_u64 in *. lia.
Qed.
End memory.

(** ** Storage *)

Section storage.
Context (e : EVM S) (f : Frame).
Implicit Types Q : out Z → EVM S * Frame → Prop.

Lemma wp_mod_db_Keep g (Q : out () → EVM S * Frame → Prop) :
  (∀ s, R (readOnly e) s (g s)) → (∀ e', Keep R e e' → Q (Ret ()) (e', f)) → wp (mod_db g) Q (e, f).
Proof. intros Hg HQ. apply wp_mod_db, HQ. apply Keep_set_db, Hg. Qed.

Lemma wp_warm_slot a k (Q : out bool → EVM S * Frame → Prop) :
  (∀ b e', Keep R e e' → Q (Ret b) (e', f)) → wp (warm_slot a k) Q (e, f).
Proof.
  intros HQ. unfold warm_slot. apply wp_bind, wp_get_db. unfold bind_post. destruct (SlotInAccessList a k (db e)) as [? present].
  apply wp_bind. destruct present.
  - apply wp_ret. unfold bind_post. apply wp_ret, HQ. reflexivity.
  - apply wp_mod_db_Keep; [intros; apply R_AddSlot|]. intros e' K. unfold bind_post. by apply wp_ret, HQ.
Qed.

Lemma wp_warm_address a (Q : out bool → EVM S * Frame → Prop) :
  (∀ b e', Keep R e e' → Q (Ret b) (e', f)) → wp (warm_address a) Q (e, f).
Proof.
  intros HQ. unfold warm_address. apply wp_bind, wp_get_db. unfold bind_post. apply wp_bind. destruct (AddressInAccessList a (db e)).
  - apply wp_ret. unfold bind_post. apply wp_ret, HQ. reflexivity.
  - apply wp_mod_db_Keep; [intros; apply R_AddAddress|]. intros e' K. unfold bind_post. by apply wp_ret, HQ.
Qed.

Lemma wp_not_readOnly (Q : out () → EVM S * Frame → Prop) s :
  (readOnly (fst s) = false → Q (Ret ()) s) → (readOnly (fst s) = true → Q (Fail ErrWriteProtection []) s) → wp not_readOnly Q s.
Proof.
  intros HQ HF. unfold not_readOnly. apply wp_bind. unfold get_evm. apply wp_gets. unfold bind_post.
  destruct (readOnly (fst s)) eqn:E; [by apply HF|by apply HQ].
Qed.

Lemma wp_sentry (Q : out () → EVM S * Frame → Prop) s : Q (Ret ()) s → Q (Fail ErrReentrancySentry []) s → wp sentry Q s.
Proof. intros HQ HF. unfold sentry. apply wp_bind. destruct s. apply wp_get_contract. unfold bind_post. by destruct (decide _). Qed.

Lemma wp_if_mod_db (b : bool) g (Q : out () → EVM S * Frame → Prop) :
  (∀ s, R (readOnly e) s (g s)) → (∀ e', Keep R e e' → Q (Ret ()) (e', f)) → wp (if b then mod_db g else mret ()) Q (e, f).
Proof. intros Hg HQ. destruct b; [by apply wp_mod_db_Keep|]. apply wp_ret, HQ. reflexivity. Qed.
End storage.

Lemma wp_net_metering current original value cost sload set reset clear rset rreset (Q : out Z → EVM S * Frame → Prop) e f :
  0 <= cost <= 10000 → 100 <= sload <= 100000 → 100 <= set <= 100000 → 100 <= reset <= 100000 →
  (∀ e' c, Keep R e e' → 100 <= c <= 200000 → Q (Ret c) (e', f)) → (∀ s, Q DbCrash s) →
  wp (net_metering current original value cost sload set reset clear rset rreset) Q (e, f).
Proof.
  intros Hc Hsl Hset Hre HQ HD. unfold net_metering.
  destruct (decide (current = value)); [apply wp_ret, HQ; [reflexivity|lia]|].
  destruct (decide (original = current)).
  - destruct (decide (original = Hash0)); [apply wp_ret, HQ; [reflexivity|lia]|]. apply wp_bind.
    destruct (decide (value = Hash0)).
    + apply wp_mod_db_Keep; [intros; apply R_AddRefund|]. intros e' K. unfold bind_post. apply wp_ret, HQ; [done|lia].
    + apply wp_ret. unfold bind_post. apply wp_ret, HQ; [reflexivity|lia].
  - assert (∀ e', Keep R e e' → wp (
      (if decide (original = value) then
         if decide (original = Hash0) then mod_db (AddRefund rset) else mod_db (AddRefund rreset)
       else mret ());; mret (cost + sload)) Q (e', f)) as Hrest.
    { intros e' K. apply wp_bind.
      assert (∀ e'', Keep R e' e'' → bind_post (λ _, mret (cost + sload)) Q (Ret ()) (e'', f)) as Hend.
      { intros e'' K'. unfold bind_post. apply wp_ret, HQ; [by transitivity e'|lia]. }
      destruct (decide (original = value)); [destruct (decide (original = Hash0))|].
      1-2: apply wp_mod_db_Keep; [intros; apply R_AddRefund|apply Hend]. apply wp_ret, Hend. reflexivity. }
    apply wp_bind. destruct (decide (original ≠ Hash0)).
    + destruct (decide (current = Hash0)).
      * apply wp_bind, wp_get_db. unfold bind_post. destruct (SubRefund clear (db e)) as [x|] eqn:E; [|apply wp_db_crash, HD].
        apply wp_mod_db. apply Hrest. apply Keep_set_db. by eapply R_SubRefund.
      * destruct (decide (value = Hash0)).
        -- apply wp_mod_db_Keep; [intros; apply R_AddRefund|]. intros e' K. unfold bind_post. by apply Hrest.
        -- apply wp_ret. apply Hrest. reflexivity.
    + apply wp_ret. apply Hrest. reflexivity.
Qed.

(** ** The gas functions *)

Section functions.
Context (e : EVM S) (f : Frame) (Hf : frame_ok f).

Lemma gas_post_fail g size e' m err ret : Keep R e e' → gas_post g size e f (Fail err ret) (e', set_mem m f).
Proof. intros K. split; [done|]. exact (spent_refl f Hf). Qed.

Lemma gas_post_fail' g size e' err ret : Keep R e e' → gas_post g size e f (Fail err ret) (e', f).
Proof. intros K. split; [done|]. exact (spent_refl f Hf). Qed.

(** The answer of a function that does not price memory. *)
Lemma gas_post_plain g e' cost :
  Keep R e e' → is_u64 cost → call_kind g = None → surcharge g (callGasTemp e') (stack f) <= cost → gas_post g 0 e f (Ret cost) (e', f).
Proof.
  intros K Hc Hk Hsur. split_and!; [done|done|]. exists 0, (mem f). pose proof (ok_mem f Hf) as [W Sz F].
  split_and!; [|by rewrite set_mem_id|done|by rewrite Hk]. split_and!; [done|unfold memory_limit; lia| |lia].
  rewrite Z.max_l; [done|unfold mem_Len; lia].
Qed.

Lemma gas_exp_ok g byteGas :
  (g = gasExpFrontier ∨ g = gasExpEIP158) → 0 <= byteGas <= 50 → (2 <= length (stack f))%nat →
  wp (gas_exp byteGas) (gas_post g 0 e f) (e, f).
Proof.
  intros Hg Hb Hl. unfold gas_exp. apply wp_bind. eapply wp_Back; [apply nth_lookup_Some; lia|]. unfold bind_post.
  apply wp_safe_add; [apply u64_range|by vm_compute| |by apply gas_post_fail'].
  intros Hsum. apply gas_post_plain; [reflexivity|done|by destruct Hg as [->| ->]|].
  pose proof (u64_range ((BitLen (nth 1 (stack f) 0) + 7) / 8 * byteGas)) as Hu. unfold is_u64 in Hu.
  destruct Hg as [->| ->]; cbn [surcharge call_kind]; lia.
Qed.

Lemma gas_post_sstore g e' cost :
  (g = gasSStore ∨ g = gasSStoreEIP2200 ∨ ∃ r, g = makeGasSStoreFunc r) → Keep R e e' → 100 <= cost <= 200000 →
  gas_post g 0 e f (Ret cost) (e', f).
Proof.
  intros Hg K Hc. apply gas_post_plain; [done|unfold is_u64; rewrite two64_val; lia|by destruct Hg as [->|[->|[? ->]]]|].
  destruct Hg as [->|[->|[? ->]]]; cbn [surcharge call_kind]; unfold WarmStorageReadCostEIP2929; lia.
Qed.

Lemma gas_sstore_ok : (2 <= length (stack f))%nat → wp (gas_sstore rules) (gas_post gasSStore 0 e f) (e, f).
Proof.
  intros Hl. unfold gas_sstore. apply wp_bind, wp_not_readOnly; intros Hro; [|by apply gas_post_fail']. unfold bind_post.
  apply wp_bind. eapply wp_Back; [apply nth_lookup_Some; lia|]. unfold bind_post.
  apply wp_bind. eapply wp_Back; [apply nth_lookup_Some; lia|]. unfold bind_post.
  apply wp_bind, wp_get_contract. unfold bind_post. apply wp_bind, wp_get_db. unfold bind_post.
  destruct (GetStateAndCommittedState _ _ _) as [current original]. destruct (_ || _).
  - destruct (decide _); [apply wp_ret, gas_post_sstore; [tauto|reflexivity|unfold SstoreSetGas; lia]|]. destruct (decide _).
    + apply wp_bind, wp_mod_db_Keep; [intros; apply R_AddRefund|]. intros e' K. unfold bind_post.
      apply wp_ret, gas_post_sstore; [tauto|done|unfold SstoreClearGas; lia].
    + apply wp_ret, gas_post_sstore; [tauto|reflexivity|unfold SstoreResetGas; lia].
  - apply wp_net_metering; [unfold NetSstoreNoopGas, NetSstoreInitGas, NetSstoreCleanGas; lia..| |done].
    intros e' c K Hc. apply gas_post_sstore; [tauto|done|lia].
Qed.

Lemma gas_sstore_2200_ok : (2 <= length (stack f))%nat → wp gas_sstore_2200 (gas_post gasSStoreEIP2200 0 e f) (e, f).
Proof.
  intros Hl. unfold gas_sstore_2200. apply wp_bind, wp_not_readOnly; intros Hro; [|by apply gas_post_fail']. unfold bind_post.
  apply wp_bind, wp_sentry; [|by apply gas_post_fail']. unfold bind_post.
  apply wp_bind. eapply wp_Back; [apply nth_lookup_Some; lia|]. unfold bind_post.
  apply wp_bind. eapply wp_Back; [apply nth_lookup_Some; lia|]. unfold bind_post.
  apply wp_bind, wp_get_contract. unfold bind_post. apply wp_bind, wp_get_db. unfold bind_post.
  destruct (GetStateAndCommittedState _ _ _) as [current original].
  apply wp_net_metering; [unfold SloadGasEIP2200, SstoreSetGasEIP2200, SstoreResetGasEIP2200; lia..| |done].
  intros e' c K Hc. apply gas_post_sstore; [tauto|done|lia].
Qed.

(** The top of a stack with an item. *)
Lemma wp_peek_nth (Q : out Z → EVM S * Frame → Prop) e' :
  (1 <= length (stack f))%nat → Q (Ret (nth 0 (stack f) 0)) (e', f) → wp peek Q (e', f).
Proof. intros Hl HQ. destruct (stack f) as [|x st] eqn:E; [cbn in Hl; lia|]. by eapply wp_peek. Qed.

Lemma gas_sstore_2929_ok clearing :
  (2 <= length (stack f))%nat → wp (gas_sstore_2929 clearing) (gas_post (makeGasSStoreFunc clearing) 0 e f) (e, f).
Proof.
  intros Hl. unfold gas_sstore_2929. apply wp_bind, wp_not_readOnly; intros Hro; [|by apply gas_post_fail']. unfold bind_post.
  apply wp_bind, wp_sentry; [|by apply gas_post_fail']. unfold bind_post.
  apply wp_bind. eapply wp_Back; [apply nth_lookup_Some; lia|]. unfold bind_post.
  apply wp_bind, wp_peek_nth; [lia|]. unfold bind_post.
  apply wp_bind, wp_get_contract. unfold bind_post. apply wp_bind, wp_get_db. unfold bind_post.
  destruct (GetStateAndCommittedState _ _ _) as [current original].
  apply wp_bind, wp_warm_slot. intros b e1 K1. unfold bind_post.
  apply wp_net_metering; [..|done].
  - destruct b; unfold ColdSloadCostEIP2929; lia.
  - unfold WarmStorageReadCostEIP2929; lia.
  - unfold SstoreSetGasEIP2200; lia.
  - unfold SstoreResetGasEIP2200, ColdSloadCostEIP2929; lia.
  - intros e' c K Hc. apply gas_post_sstore; [eauto|by transitivity e1|lia].
Qed.

Lemma gas_sload_2929_ok : (1 <= length (stack f))%nat → wp gas_sload_2929 (gas_post gasSLoadEIP2929 0 e f) (e, f).
Proof.
  intros Hl. unfold gas_sload_2929. apply wp_bind, wp_peek_nth; [lia|]. unfold bind_post.
  apply wp_bind, wp_get_contract. unfold bind_post. apply wp_bind, wp_warm_slot. intros b e1 K1. unfold bind_post.
  apply wp_ret, gas_post_plain; [done|by destruct b|done|]. destruct b; by vm_compute.
Qed.

Lemma gas_account_check_ok : (1 <= length (stack f))%nat → wp gas_account_check (gas_post gasEip2929AccountCheck 0 e f) (e, f).
Proof.
  intros Hl. unfold gas_account_check. apply wp_bind, wp_peek_nth; [lia|]. unfold bind_post.
  apply wp_bind, wp_warm_address. intros b e1 K1. unfold bind_post.
  apply wp_ret, gas_post_plain; [done|by destruct b|done|]. destruct b; by vm_compute.
Qed.

Lemma gas_selfdestruct_ok : (1 <= length (stack f))%nat → wp (gas_selfdestruct rules) (gas_post gasSelfdestruct 0 e f) (e, f).
Proof.
  intros Hl. unfold gas_selfdestruct. apply wp_bind, wp_not_readOnly; intros Hro; [|by apply gas_post_fail']. unfold bind_post.
  apply wp_bind, wp_get_contract. unfold bind_post.
  assert (∀ gas, 0 <= gas <= 100000 → wp
    (destructed ← get_db (HasSelfDestructed (address (contract f)));
     (if (destructed : bool) then mret () else mod_db (AddRefund SelfdestructRefundGas));; mret gas)
    (gas_post gasSelfdestruct 0 e f) (e, f)) as Hend.
  { intros gas Hg. assert (is_u64 gas) by (unfold is_u64; rewrite two64_val; lia).
    apply wp_bind, wp_get_db. unfold bind_post. apply wp_bind. destruct (HasSelfDestructed _ _).
    - apply wp_ret. unfold bind_post. apply wp_ret, gas_post_plain; [reflexivity|done|done|cbn; lia].
    - apply wp_mod_db_Keep; [intros; apply R_AddRefund|]. intros e' K. unfold bind_post.
      apply wp_ret, gas_post_plain; [done|done|done|cbn; lia]. }
  unfold SelfdestructGasEIP150, CreateBySelfdestructGas. apply wp_bind. destruct (IsEIP150 rules); [|apply wp_ret, Hend; lia].
  apply wp_bind. eapply wp_Back; [apply nth_lookup_Some; lia|]. unfold bind_post at 1. destruct (IsEIP158 rules).
  - apply wp_bind, wp_get_db. unfold bind_post at 1. apply wp_bind, wp_get_db. unfold bind_post at 1.
    apply wp_ret, Hend. destruct (decide _); lia.
  - apply wp_bind, wp_get_db. unfold bind_post at 1. apply wp_ret, Hend. destruct (Exist _ _); lia.
Qed.

Lemma gas_selfdestruct_2929_ok b :
  (1 <= length (stack f))%nat → wp (gas_selfdestruct_2929 b) (gas_post (makeSelfdestructGasFn b) 0 e f) (e, f).
Proof.
  intros Hl. unfold gas_selfdestruct_2929. apply wp_bind, wp_peek_nth; [lia|]. unfold bind_post.
  apply wp_bind, wp_not_readOnly; intros Hro; [|by apply gas_post_fail']. unfold bind_post.
  apply wp_bind, wp_warm_address. intros w e1 K1. unfold bind_post. apply wp_bind, wp_get_contract. unfold bind_post.
  destruct (decide _); [by apply gas_post_fail'|]. apply wp_bind, wp_get_contract. unfold bind_post.
  apply wp_bind, wp_get_db. unfold bind_post. apply wp_bind, wp_get_db. unfold bind_post. apply wp_bind, wp_get_db. unfold bind_post.
  apply wp_bind, wp_if_mod_db; [intros; apply R_AddRefund|]. intros e2 K2. unfold bind_post.
  assert (∀ x, 0 <= x <= 100000 → is_u64 x) as Hsmall by (intros x Hx; unfold is_u64; rewrite two64_val; lia).
  apply wp_ret, gas_post_plain; [by transitivity e1|apply Hsmall|done|cbn].
  all: unfold ColdAccountAccessCostEIP2929, CreateBySelfdestructGas; destruct w; destruct (decide _); lia.
Qed.
End functions.

(** ** Calls *)

Lemma Sign_zero x : Sign x = 0 ↔ x = 0.
Proof. unfold Sign. repeat case_decide; lia. Qed.

Section calls.
Context (size : Z) (Hs : size mod 32 = 0) (Hpos : 0 <= size).

Lemma callGas_u64 b available base cost x : callGas b available base cost = Ok x → is_u64 x.
Proof. unfold callGas. intros E. repeat case_match; simplify_eq; try apply u64_range. Qed.

Lemma wp_gas_with_call gas (Q : out Z → EVM S * Frame → Prop) e f :
  is_u64 gas → (1 <= length (stack f))%nat →
  (∀ e' cost, Keep R e e' → is_u64 (callGasTemp e') → is_u64 cost → cost = gas + callGasTemp e' → Q (Ret cost) (e', f)) →
  (∀ e' err, Keep R e e' → Q (Fail err []) (e', f)) → wp (gas_with_call rules gas) Q (e, f).
Proof.
  intros Hg Hl HQ HF. unfold gas_with_call. apply wp_bind. eapply wp_Back; [apply nth_lookup_Some; lia|]. unfold bind_post.
  apply wp_bind, wp_get_contract. unfold bind_post.
  destruct (callGas _ _ _ _) as [t|err|] eqn:E.
  - apply callGas_u64 in E. apply wp_bind, wp_ret. unfold bind_post. apply wp_bind, wp_mod_evm. unfold bind_post.
    assert (Keep R e (set_callGasTemp t e)) as K by exact (Keep_set_callGasTemp R t e).
    apply wp_safe_add; [done|done| |by apply HF]. intros Hsum. by apply HQ.
  - apply wp_bind. apply HF. reflexivity.
  - unfold callGas in E. repeat case_match; simplify_eq.
Qed.

Lemma wp_call_gas c (Q : out Z → EVM S * Frame → Prop) e f :
  mem_ok (mem f) → (call_depth c <= length (stack f))%nat →
  (∀ e' k m cost, Keep R e e' → paid (mem f) size k m → is_u64 cost → is_u64 (callGasTemp e') →
    k + (callGasTemp e' + value_price c (stack f)) <= cost → Q (Ret cost) (e', set_mem m f)) →
  (∀ e' m err, Keep R e e' → Q (Fail err []) (e', set_mem m f)) → wp (call_gas rules c size) Q (e, f).
Proof.
  intros Hm Hl HQ HF.
  assert (∀ e' err, Keep R e e' → Q (Fail err []) (e', f)) as HF'.
  { intros e' err K. rewrite <- (set_mem_id f). by apply HF. }
  assert (∀ v, (v = 0 ∨ v = CallValueTransferGas ∨ v = CallNewAccountGas ∨ v = CallNewAccountGas + CallValueTransferGas) → is_u64 v) as Hsmall.
  { intros v Hv. unfold CallValueTransferGas, CallNewAccountGas in Hv. unfold is_u64. rewrite two64_val. lia. }
  (* memory, then the gas of the call, for any price [v] that covers the value *)
  assert (∀ v, is_u64 v → value_price c (stack f) <= v → (1 <= length (stack f))%nat → wp
    (memoryGas ← memoryGasCost size; gas ← safe_add v memoryGas; gas_with_call rules gas) Q (e, f)) as Hrest.
  { intros v Hv Hle H1. apply wp_bind, wp_memoryGasCost; [done..| |by apply HF']. intros k m Hp Hk. unfold bind_post.
    apply wp_bind, wp_safe_add; [done|done| |by apply HF]. intros Hsum. unfold bind_post.
    apply wp_gas_with_call; [done|done| |intros; by apply HF].
    intros e' cost K Ht Hcost ->. eapply HQ; [done|done|done|done|]. lia. }
  destruct c; cbn [call_gas call_depth value_price] in *.
  - unfold gas_call. apply wp_bind. eapply wp_Back; [apply nth_lookup_Some; lia|]. unfold bind_post.
    apply wp_bind. eapply wp_Back; [apply nth_lookup_Some; lia|]. unfold bind_post. apply wp_bind, wp_get_evm. unfold bind_post.
    destruct (_ && _); [by apply HF'|]. apply wp_bind, wp_get_db. unfold bind_post. apply wp_bind, wp_get_db. unfold bind_post.
    apply Hrest; [| |lia].
    + apply Hsmall. repeat case_match; lia.
    + unfold IsZero. unfold CallValueTransferGas, CallNewAccountGas.
      destruct (decide (nth 2 (stack f) 0 = 0)) as [->|Hne]; [rewrite bool_decide_eq_true_2 by done|rewrite bool_decide_eq_false_2 by done]; cbn [negb andb]; repeat case_match; lia.
  - unfold gas_callcode. apply wp_bind, wp_memoryGasCost; [done..| |by apply HF']. intros k m Hp Hk. unfold bind_post.
    apply wp_bind. eapply wp_Back; [cbn; apply nth_lookup_Some; lia|]. unfold bind_post.
    apply wp_bind, wp_safe_add; [match goal with |- is_u64 (if ?d then _ else _) => destruct d end; apply Hsmall; tauto|done| |by apply HF]. intros Hsum. unfold bind_post.
    apply wp_gas_with_call; [done|cbn; lia| |intros; by apply HF].
    intros e' cost K Ht Hcost ->. eapply HQ; [done|done|done|done|].
    assert (Sign (nth 2 (stack f) 0) = 0 ↔ nth 2 (stack f) 0 = 0) as Hsign.
    { apply Sign_zero. }
    destruct (decide (nth 2 (stack f) 0 = 0)) as [E|E], (decide (Sign (nth 2 (stack f) 0) ≠ 0)); unfold CallValueTransferGas in *; tauto || lia.
  - unfold gas_plain_call. apply wp_bind, wp_memoryGasCost; [done..| |by apply HF']. intros k m Hp Hk. unfold bind_post.
    apply wp_gas_with_call; [done|cbn; lia| |intros; by apply HF].
    intros e' cost K Ht Hcost ->. eapply HQ; [done|done|done|done|lia].
  - unfold gas_plain_call. apply wp_bind, wp_memoryGasCost; [done..| |by apply HF']. intros k m Hp Hk. unfold bind_post.
    apply wp_gas_with_call; [done|cbn; lia| |intros; by apply HF].
    intros e' cost K Ht Hcost ->. eapply HQ; [done|done|done|done|lia].
Qed.

(** A frame that has paid [t] of its gas for the moment. *)
Definition dip (t : Z) (f : Frame) : Frame := set_contract (set_Gas (Gas (contract f) - t) (contract f)) f.

Lemma dip_0 f : dip 0 f = f.
Proof. unfold dip. rewrite Z.sub_0_r. destruct f as [? ? ? []]. done. Qed.

Lemma undip t m f :
  is_u64 (Gas (contract f)) →
  set_contract (set_Gas (u64 (Gas (contract (set_mem m (dip t f))) + t)) (contract (set_mem m (dip t f)))) (set_mem m (dip t f)) = set_mem m f.
Proof.
  intros HG. destruct f as [? ? ? c]. cbn in *. replace (Gas c - t + t) with (Gas c) by lia. rewrite u64_small by done. by destruct c.
Qed.

Lemma wp_use_gas_dip t x (Q : out () → EVM S * Frame → Prop) e f :
  0 <= t → 0 <= x → (t + x <= Gas (contract f) → Q (Ret ()) (e, dip (t + x) f)) → Q (Fail ErrOutOfGas []) (e, dip t f) →
  wp (use_gas x) Q (e, dip t f).
Proof.
  intros Ht Hx HQ HF. unfold use_gas. apply wp_bind, wp_get_frame. unfold bind_post, UseGas.
  change (Gas (contract (dip t f))) with (Gas (contract f) - t).
  destruct (decide (Gas (contract f) - t < x)).
  - apply wp_bind, wp_mod_frame. unfold bind_post. destruct f. exact HF.
  - apply wp_bind, wp_mod_frame. unfold bind_post. apply wp_ret.
    assert (set_contract (set_Gas (Gas (contract f) - t - x) (contract (dip t f))) (dip t f) = dip (t + x) f) as E.
    { unfold dip. destruct f as [? ? ? []]. cbn. by rewrite Z.sub_add_distr. }
    unfold bind_post. change (Gas (contract (dip t f))) with (Gas (contract f) - t). rewrite E. apply HQ. lia.
Qed.

Lemma spent_dip t f : frame_ok f → 0 <= t <= Gas (contract f) → spent (contract f) (contract (dip t f)).
Proof. intros [C G _ _] Ht. split_and!; [apply same_set_Gas|by apply contract_ok_Gas|cbn; lia..]. Qed.

Lemma gas_post_fail_dip g e f t e' m err ret :
  frame_ok f → 0 <= t <= Gas (contract f) → Keep R e e' → gas_post g size e f (Fail err ret) (e', set_mem m (dip t f)).
Proof. intros Hf Ht K. split; [done|]. exact (spent_dip t f Hf Ht). Qed.

(** The call's own price after a charge of [t], which is handed back. *)
Lemma call_gas_dip g c t (e0 : EVM S) e f :
  frame_ok f → call_kind g = Some c → (call_depth c <= length (stack f))%nat → 0 <= t <= Gas (contract f) → Keep R e0 e →
  wp (old ← call_gas rules c size;
      mod_contract (λ c, set_Gas (u64 (Gas c + t)) c);; safe_add old t) (gas_post g size e0 f) (e, dip t f).
Proof.
  intros Hf Hk Hl Ht K0. pose proof (ok_gas f Hf) as HG. apply wp_bind, wp_call_gas; [apply Hf|done| |].
  - intros e' k m cost K Hp Hc Htemp Hle. unfold bind_post. apply wp_bind, wp_mod_contract. unfold bind_post. rewrite undip by done.
    apply wp_safe_add; [done|unfold is_u64 in *; lia| |].
    + intros Hsum. split_and!; [by transitivity e|done|]. exists k, m. split_and!; [done|done| |done].
      assert (surcharge g (callGasTemp e') (stack f) = callGasTemp e' + value_price c (stack f)) as Hsur.
      { destruct g; simplify_eq/=; done. }
      cbn [fst]. rewrite Hsur. change (stack (dip t f)) with (stack f) in Hle. lia.
    + apply gas_post_fail; [done|by transitivity e].
  - intros e' m err K. apply gas_post_fail_dip; [done|done|by transitivity e].
Qed.

Lemma gas_call_2929_ok c pos e f :
  frame_ok f → (Nat.max (call_depth c) (pos + 1) <= length (stack f))%nat →
  wp (gas_call_2929 rules c pos size) (gas_post (makeCallVariantGasCallEIP2929 c pos) size e f) (e, f).
Proof.
  intros Hf Hl. unfold gas_call_2929. apply wp_bind. eapply wp_Back; [apply nth_lookup_Some; lia|]. unfold bind_post.
  apply wp_bind, wp_warm_address. intros w e1 K1. unfold bind_post.
  set (cold := ColdAccountAccessCostEIP2929 - WarmStorageReadCostEIP2929). apply wp_bind. destruct w.
  - apply wp_ret. unfold bind_post. apply wp_bind, wp_call_gas; [apply Hf|lia| |].
    + intros e' k m cost K Hp Hc Htemp Hle. unfold bind_post. apply wp_ret. split_and!; [by transitivity e1|done|].
      by exists k, m.
    + intros e' m err K. apply gas_post_fail; [done|by transitivity e1].
  - replace (e1, f) with (e1, dip 0 f) by (by rewrite dip_0). apply wp_use_gas_dip; [done|done| |].
    + intros Hle. unfold bind_post. apply call_gas_dip; [done|done|lia|split; [done|exact Hle]|done].
    + rewrite dip_0. by apply gas_post_fail'.
Qed.

Lemma gas_call_7702_ok g c e f :
  frame_ok f → call_kind g = Some c → (Nat.max (call_depth c) 2 <= length (stack f))%nat →
  wp (gas_call_7702 rules c size) (gas_post g size e f) (e, f).
Proof.
  intros Hf Hk Hl. unfold gas_call_7702. apply wp_bind. eapply wp_Back; [apply nth_lookup_Some; lia|]. unfold bind_post at 1.
  set (cold := ColdAccountAccessCostEIP2929 - WarmStorageReadCostEIP2929). apply wp_bind, wp_warm_address. intros w e1 K1. unfold bind_post at 1.
  assert (∀ t, 0 <= t <= Gas (contract f) → wp
    (code ← get_db (GetCode (Bytes20 (nth 1 (stack f) 0)));
     total ← (match ParseDelegation code with
              | Some target =>
                  warm ← warm_address target;
                  let cost := if (warm : bool) then WarmStorageReadCostEIP2929 else ColdAccountAccessCostEIP2929 in
                  use_gas cost;;
                  mret (t + cost)
              | None => mret t
              end);
     old ← call_gas rules c size;
     mod_contract (λ c, set_Gas (u64 (Gas c + total)) c);;
     safe_add old total) (gas_post g size e f) (e1, dip t f)) as Hrest.
  { intros t Ht. apply wp_bind, wp_get_db. unfold bind_post at 1. destruct (ParseDelegation _) as [target|].
    - apply wp_bind, wp_bind, wp_warm_address. intros w2 e2 K2. unfold bind_post at 1. cbv zeta.
      assert (0 <= (if (w2 : bool) then WarmStorageReadCostEIP2929 else ColdAccountAccessCostEIP2929)) as Hcost by (destruct w2; done).
      apply wp_bind, wp_use_gas_dip; [lia|done| |].
      + intros Hle. unfold bind_post at 1. apply wp_ret. unfold bind_post at 1.
        apply call_gas_dip; [done|done|lia|lia|by transitivity e1].
      + unfold bind_post. rewrite <- (set_mem_id (dip t f)). apply gas_post_fail_dip; [done|done|by transitivity e1].
    - apply wp_bind, wp_ret. unfold bind_post at 1. by apply call_gas_dip; [..|lia|done|]. }
  apply wp_bind. destruct w.
  - apply wp_ret. unfold bind_post at 1. replace (e1, f) with (e1, dip 0 f) by (by rewrite dip_0). apply Hrest. pose proof (ok_gas f Hf). unfold is_u64 in *. lia.
  - apply wp_bind. replace (e1, f) with (e1, dip 0 f) by (by rewrite dip_0). apply wp_use_gas_dip; [done|done| |].
    + intros Hle. unfold bind_post at 1. apply wp_ret. unfold bind_post at 1. apply (Hrest cold). split; [done|exact Hle].
    + unfold bind_post. rewrite dip_0. by apply gas_post_fail'.
Qed.

(** Every gas function answers with a price or an error. *)
Lemma dynamicGas_of_ok g e f :
  frame_ok f → (gas_depth g <= length (stack f))%nat → (∀ n, g = makeGasLog n → (n <= 4)%nat) →
  (charges_memory g = false → size = 0) →
  wp (dynamicGas_of rules g size) (gas_post g size e f) (e, f).
Proof.
  intros Hf Hl Hlog Hsize.
  assert (∀ m err, gas_post g size e f (Fail err []) (e, set_mem m f)) as HF by (intros; by apply gas_post_fail).
  assert (∀ c m cost, call_kind g = None → surcharge g (callGasTemp e) (stack f) = 0 → paid (mem f) size c m → c <= cost → is_u64 cost →
    gas_post g size e f (Ret cost) (e, set_mem m f)) as HQ.
  { intros c m cost Hk Hsur Hp Hle Hu. split_and!; [reflexivity|done|]. exists c, m.
    split_and!; [done|done|cbn [fst]; lia|by rewrite Hk]. }
  destruct g; cbn [gas_depth charges_memory dynamicGas_of] in *;
    try (rewrite (Hsize eq_refl));
    try (apply wp_memory_and_words; [done..|lia|by vm_compute| |done]; intros; eapply HQ; done).
  - apply wp_memoryGasCost; [apply Hf|done..| |].
    + intros. eapply HQ; [done|done|done|done|done].
    + by apply gas_post_fail'.
  - apply wp_gas_log; [done..|by apply Hlog| |done]. intros c m cost Hp Hle Hu. split_and!; [reflexivity|done|]. exists c, m.
    split_and!; [done|done|done|done].
  - apply wp_gas_create_3860; [done..| |done]. intros; eapply HQ; done.
  - apply wp_gas_create_3860; [done..| |done]. intros; eapply HQ; done.
  - apply gas_exp_ok; [done|tauto|unfold ExpByteFrontier; lia|done].
  - apply gas_exp_ok; [done|tauto|unfold ExpByteEIP158; lia|done].
  - by apply gas_sstore_ok.
  - by apply gas_sstore_2200_ok.
  - by apply gas_sstore_2929_ok.
  - by apply gas_selfdestruct_ok.
  - by apply gas_selfdestruct_2929_ok.
  - by apply gas_sload_2929_ok.
  - unfold gas_extcodecopy_2929. apply wp_bind, wp_memory_and_words; [done..|lia|by vm_compute| |done].
    intros c m cost Hp Hle Hu. unfold bind_post. apply wp_bind, wp_peek_nth; [cbn; lia|]. unfold bind_post.
    apply wp_bind, wp_warm_address. intros w e1 K1. unfold bind_post. destruct w.
    + apply wp_ret. split_and!; [done|done|]. exists c, m. split_and!; [done|done|cbn; lia|done].
    + apply wp_safe_add; [done|by vm_compute| |by apply gas_post_fail]. intros Hsum. split_and!; [done|done|]. exists c, m.
      split_and!; [done|done| |done]. cbn. unfold ColdAccountAccessCostEIP2929, WarmStorageReadCostEIP2929. lia.
  - by apply gas_account_check_ok.
  - apply wp_call_gas; [apply Hf|done| |].
    + intros e' k m cost K Hp Hc Htemp Hle. split_and!; [done|done|]. by exists k, m.
    + intros e' m err K. by apply gas_post_fail.
  - by apply gas_call_2929_ok.
  - by apply gas_call_7702_ok.
  - unfold gas_call_protected_7702. apply wp_bind. eapply wp_Back; [apply nth_lookup_Some; lia|]. unfold bind_post.
    apply wp_bind, wp_get_evm. unfold bind_post. destruct (_ && _); [by apply gas_post_fail'|].
    apply gas_call_7702_ok; [done|done|cbn; lia].
Qed.
End calls.
End gas.
