(* ===== verification/EvmOpsFacts.v ===== *)
(** * The EVM: what instructions guarantee

    Every instruction, on a stack that is deep enough and a memory that covers its ranges,
    runs without a panic: the stack changes by the items that the instruction pops and
    pushes, all of them words, and the gas by at most what its price covers ([exec_post]).
    Calls and creations are used through [callees_ok]. *)
From Stdlib Require Import ZArith Lia.
From Stdlib Require Strings.Byte.
From stdpp Require Import base tactics decidable list numbers gmap.
From S2P Require Import Prelude Keccak Common Rlp Precompiles Evm EvmGas EvmTable EvmOps EvmRun EvmLogic EvmAnalysis EvmMemory EvmGasFacts.

(** Membership in a literal list. *)
Ltac in_list := solve [repeat first [apply list_elem_of_here|apply list_elem_of_further]].

(** ** Shapes *)

(** The items that an instruction pops and pushes. *)
Definition arity (ex : executionFunc) : nat * nat :=
  match ex with
  | opAdd | opSub | opMul | opDiv | opSdiv | opMod | opSmod | opExp | opSignExtend | opLt | opGt | opSlt | opSgt | opEq
  | opAnd | opOr | opXor | opByte | opSHL | opSHR | opSAR | opKeccak256 => (2, 1)
  | opNot | opIszero | opBalance | opCallDataLoad | opExtCodeSize | opExtCodeHash | opBlockhash | opMload | opSload | opTload
  | opBlobHash | opCLZ => (1, 1)
  | opAddmod | opMulmod => (3, 1)
  | opAddress | opOrigin | opCaller | opCallValue | opCallDataSize | opReturnDataSize | opCodeSize | opGasprice | opCoinbase
  | opTimestamp | opNumber | opDifficulty | opRandom | opGasLimit | opPc | opMsize | opGas | opPush1 | opPush2 | makePush _ _
  | opSelfBalance | opChainID | opBaseFee | opPush0 | opBlobBaseFee | opSlotNum | opDupN => (0, 1)
  | opCallDataCopy | opReturnDataCopy | opCodeCopy | opMcopy => (3, 0)
  | opExtCodeCopy => (4, 0)
  | opPop | opJump | opSelfdestruct | opSelfdestruct6780 => (1, 0)
  | opMstore | opMstore8 | opSstore | opTstore | opJumpi | opReturn | opRevert => (2, 0)
  | opJumpdest | opUndefined | opStop | opSwapN | opExchange => (0, 0)
  | opSwap n => (n + 1, n + 1)
  | makeDup n => (n, n + 1)
  | makeLog n => (2 + n, 0)
  | opCreate => (3, 1)
  | opCreate2 => (4, 1)
  | opCall | opCallCode => (7, 1)
  | opDelegateCall | opStaticCall => (6, 1)
  end%nat.

(** The memory that it uses. *)
Definition memory_use (ex : executionFunc) : option memorySizeFunc :=
  match ex with
  | opKeccak256 => Some memoryKeccak256
  | opCallDataCopy => Some memoryCallDataCopy
  | opReturnDataCopy => Some memoryReturnDataCopy
  | opCodeCopy => Some memoryCodeCopy
  | opExtCodeCopy => Some memoryExtCodeCopy
  | opMload => Some memoryMLoad
  | opMstore => Some memoryMStore
  | opMstore8 => Some memoryMStore8
  | opMcopy => Some memoryMcopy
  | opCreate => Some memoryCreate
  | opCreate2 => Some memoryCreate2
  | opCall | opCallCode => Some memoryCall
  | opDelegateCall => Some memoryDelegateCall
  | opStaticCall => Some memoryStaticCall
  | opReturn => Some memoryReturn
  | opRevert => Some memoryRevert
  | makeLog _ => Some memoryLog
  | _ => None
  end.

(** The kind of its call. *)
Definition exec_kind (ex : executionFunc) : option callGasFunc :=
  match ex with
  | opCall => Some gasCall
  | opCallCode => Some gasCallCode
  | opDelegateCall => Some gasDelegateCall
  | opStaticCall => Some gasStaticCall
  | _ => None
  end.

(** Whether it ends the call. *)
Definition halts (ex : executionFunc) : bool :=
  match ex with
  | opReturn | opRevert | opUndefined | opStop | opSelfdestruct | opSelfdestruct6780 => true
  | _ => false
  end.

(** Its constants are in range, and the pointers of the environment that it follows are not
    nil. *)
Definition well_formed (env : Env) (ex : executionFunc) : bool :=
  match ex with
  | opRandom => bool_decide (Random (blockCtx env) ≠ None)
  | opBaseFee => bool_decide (BaseFee (blockCtx env) ≠ None)
  | opBlobBaseFee => bool_decide (BlobBaseFee (blockCtx env) ≠ None)
  | makeDup n => (1 <=? n)%nat
  | makePush _ n => (n <=? 32)%nat
  | _ => true
  end.

(** The environment holds words. *)
Record env_ok (env : Env) : Prop := {
  env_GasPrice : is_word (GasPrice (txCtx env));
  env_Time : is_word (Time (blockCtx env));
  env_GasLimit : is_word (bc_GasLimit (blockCtx env));
  env_SlotNum : is_word (SlotNum (blockCtx env))
}.

Lemma u64_word z : is_u64 z → is_word z.
Proof. unfold is_u64, is_word, two256. rewrite two64_val. lia. Qed.

Lemma u256_word z : is_word (u256 z).
Proof. unfold u256, is_word. apply Z.mod_pos_bound. done. Qed.

Lemma word_of_word b : is_word (word_of b).
Proof. apply u256_word. Qed.

Lemma bool_word_word b : is_word (bool_word b).
Proof. by destruct b. Qed.

#[export] Hint Resolve u64_word u256_word word_of_word bool_word_word u64_range : evm.

Section exec.
Context {S : Type} `{StateDBLaws S} `{Uint256Laws} (R : bool → S → S → Prop) `{!EvmRel R}.
Context (env : Env) (callees : Callees S) (n : nat).
Implicit Types (e : EVM S) (f : Frame).

(** ** Calls and creations *)

(** What the caller relies on: the callee keeps to its gas, and more fuel than gas is
    enough. *)
Definition result_ok (e : EVM S) (gas : Z) {A} (left : A → Z) (r : out A) (e' : EVM S) : Prop :=
  match r with
  | Ret a => Keep R e e' ∧ 0 <= left a <= gas
  | Fail _ _ => False
  | Crash => False
  | DbCrash => True
  | NoFuel => Z.of_nat n <= gas
  end.

Definition call_left (r : CallResult) : Z := snd (fst r).
Definition create_left (r : CreateResult) : Z := snd (fst r).

Record callees_ok : Prop := {
  Call_ok e caller addr input gas value :
    cache_ok (jumpDests e) → is_u64 gas → is_word value → Z.of_nat (length input) < code_limit → (readOnly e = true → value = 0) →
    wp (do_Call callees caller addr input gas value) (result_ok e gas call_left) e;
  CallCode_ok e caller addr input gas value :
    cache_ok (jumpDests e) → is_u64 gas → is_word value → Z.of_nat (length input) < code_limit →
    wp (do_CallCode callees caller addr input gas value) (result_ok e gas call_left) e;
  DelegateCall_ok e originCaller caller addr input gas value :
    cache_ok (jumpDests e) → is_u64 gas → is_word value → Z.of_nat (length input) < code_limit →
    wp (do_DelegateCall callees originCaller caller addr input gas value) (result_ok e gas call_left) e;
  StaticCall_ok e caller addr input gas :
    cache_ok (jumpDests e) → is_u64 gas → Z.of_nat (length input) < code_limit →
    wp (do_StaticCall callees caller addr input gas) (result_ok e gas call_left) e;
  Create_ok e caller code gas value :
    cache_ok (jumpDests e) → is_u64 gas → is_word value → readOnly e = false → Z.of_nat (length code) < code_limit →
    wp (do_Create callees caller code gas value) (result_ok e gas create_left) e;
  Create2_ok e caller code gas value salt :
    cache_ok (jumpDests e) → is_u64 gas → is_word value → readOnly e = false → Z.of_nat (length code) < code_limit →
    wp (do_Create2 callees caller code gas value salt) (result_ok e gas create_left) e
}.

(** The gas that goes with a call, at most. *)
Definition handed (ex : executionFunc) e (st : list Z) : Z :=
  match exec_kind ex with Some k => callGasTemp e + value_price k st | None => 0 end.

(** The gas that a callee may get. *)
Definition budget (ex : executionFunc) e f : Z :=
  match ex with opCreate | opCreate2 => Gas (contract f) | _ => handed ex e (stack f) end.

(** ** The postcondition *)

Definition exec_post (ex : executionFunc) e f (r : out bytes) (s : EVM S * Frame) : Prop :=
  match r with
  | Ret _ =>
      halts ex = false ∧ Keep R e (fst s) ∧ same_contract (contract f) (contract (snd s)) ∧ contract_ok (contract (snd s)) ∧
      0 <= Gas (contract (snd s)) <= Gas (contract f) + handed ex e (stack f) ∧ same_mem (mem f) (mem (snd s)) ∧
      Forall is_word (stack (snd s)) ∧ (length (stack (snd s)) + fst (arity ex) = length (stack f) + snd (arity ex))%nat ∧
      is_u64 (pc (snd s))
  | Fail _ _ => Keep R e (fst s) ∧ spent (contract f) (contract (snd s))
  | Crash => False
  | DbCrash => True
  | NoFuel => halts ex = false ∧ Z.of_nat n <= budget ex e f
  end.

(** What an instruction finds. *)
Record ready (ex : executionFunc) e f : Prop := {
  ready_frame : frame_ok f;
  ready_cache : cache_ok (jumpDests e);
  ready_stack : (fst (arity ex) <= length (stack f))%nat;
  ready_memory m : memory_use ex = Some m → Forall (covered (mem_Len (mem f))) (ranges m (stack f));
  ready_gas k : exec_kind ex = Some k →
    is_u64 (callGasTemp e) ∧ is_u64 (Gas (contract f) + (callGasTemp e + value_price k (stack f)));
  ready_pc : is_u64 (pc f);
  ready_code : ex = opStop ∨ pc f < Z.of_nat (length (Code (contract f)))
}.

(** A result that leaves the contract and the memory alone. *)
Lemma exec_post_ret ex e f e' p st b :
  frame_ok f → halts ex = false → Keep R e e' → is_u64 p → Forall is_word st → 0 <= handed ex e (stack f) →
  (length st + fst (arity ex) = length (stack f) + snd (arity ex))%nat →
  exec_post ex e f (Ret b) (e', MkFrame p st (mem f) (contract f)).
Proof.
  intros [C G W M] Hh K Hp Hst Hha Hl. split_and!; [done|done|reflexivity|done|cbn; unfold is_u64 in G; lia..|reflexivity|done|done|done].
Qed.

(** A result that changes the memory. *)
Lemma exec_post_mem ex e f e' p st m b :
  frame_ok f → halts ex = false → Keep R e e' → is_u64 p → Forall is_word st → 0 <= handed ex e (stack f) →
  (length st + fst (arity ex) = length (stack f) + snd (arity ex))%nat → same_mem (mem f) m →
  exec_post ex e f (Ret b) (e', MkFrame p st m (contract f)).
Proof.
  intros [C G W M] Hh K Hp Hst Hha Hl Hm. split_and!; [done|done|reflexivity|done|cbn; unfold is_u64 in G; lia..|done|done|done|done].
Qed.

Lemma exec_post_fail ex e f e' f' err b :
  frame_ok f → Keep R e e' → contract f' = contract f → exec_post ex e f (Fail err b) (e', f').
Proof. intros Hf K E. split; [done|]. cbn [snd]. rewrite E. by apply spent_refl. Qed.

(** ** Instructions on the stack *)

(** The top items of the stack, with the fact that they are words. *)
Ltac take_items H W :=
  repeat match type of H with
  | (Datatypes.S _ <= length ?st)%nat =>
      is_var st; destruct st as [|? st]; [cbn in H; lia|]; apply Forall_cons in W as [? W]; cbn [length] in H; apply le_S_n in H
  end.

Ltac wp_go :=
  repeat first
    [ wp_step; cbn [bind_post]
    | eapply wp_pop; [reflexivity|]; cbn [bind_post]
    | eapply wp_peek; [reflexivity|]; cbn [bind_post]
    | eapply wp_poke; [reflexivity|]; cbn [bind_post] ].

(** Opens the frame of an instruction with the arity it has. *)
Ltac open_frame Hr :=
  match type of Hr with
  | ready ?ex ?e ?f =>
      let Hf := fresh "Hf" in let Hl := fresh "Hl" in let W := fresh "W" in
      pose proof (ready_frame _ _ _ Hr) as Hf; pose proof (ready_stack _ _ _ Hr) as Hl; pose proof (ok_stack f Hf) as W;
      pose proof (ready_pc _ _ _ Hr) as Hpc; destruct f as [p st m c]; cbn [arity fst stack] in Hl; cbn [stack] in W; cbn [pc] in Hpc;
      take_items Hl W
  end.

Ltac norm := unfold set_stack, set_pc, set_mem, set_contract; cbn [pc stack mem contract fst snd].

Ltac ret_stack :=
  apply exec_post_ret; [done|done|reflexivity|done|repeat (apply Forall_cons; split; [try (auto with evm; fail)|]); try done|done|cbn; lia].

Lemma binop_ok ex g e f :
  arity ex = (2, 1)%nat → exec_kind ex = None → halts ex = false → (∀ x y, is_word x → is_word y → is_word (g x y)) →
  ready ex e f → wp (binop g) (exec_post ex e f) (e, f).
Proof.
  intros Ha Hk Hh Hg Hr. pose proof (ready_stack _ _ _ Hr) as Hl. rewrite Ha in Hl. pose proof (ready_frame _ _ _ Hr) as Hf.
  pose proof (ready_pc _ _ _ Hr) as Hpc. pose proof (ok_stack f Hf) as W. destruct f as [p st m c]. cbn [stack fst pc] in *. take_items Hl W.
  unfold binop. wp_go; norm. apply (exec_post_ret ex e (MkFrame _ _ m c)); [done|done|reflexivity|done| | |cbn; rewrite Ha; cbn; lia].
  - apply Forall_cons. split; [by apply Hg|done].
  - unfold handed. by rewrite Hk.
Qed.

Lemma unop_ok ex g e f :
  arity ex = (1, 1)%nat → exec_kind ex = None → halts ex = false → (∀ x, is_word x → is_word (g x)) →
  ready ex e f → wp (unop g) (exec_post ex e f) (e, f).
Proof.
  intros Ha Hk Hh Hg Hr. pose proof (ready_stack _ _ _ Hr) as Hl. rewrite Ha in Hl. pose proof (ready_frame _ _ _ Hr) as Hf.
  pose proof (ready_pc _ _ _ Hr) as Hpc. pose proof (ok_stack f Hf) as W. destruct f as [p st m c]. cbn [stack fst pc] in *. take_items Hl W.
  unfold unop. wp_go; norm. apply (exec_post_ret ex e (MkFrame _ _ m c)); [done|done|reflexivity|done| | |cbn; rewrite Ha; cbn; lia].
  - apply Forall_cons. split; [by apply Hg|done].
  - unfold handed. by rewrite Hk.
Qed.

Lemma ternop_ok ex g e f :
  arity ex = (3, 1)%nat → exec_kind ex = None → halts ex = false → (∀ x y z, is_word x → is_word y → is_word z → is_word (g x y z)) →
  ready ex e f → wp (ternop g) (exec_post ex e f) (e, f).
Proof.
  intros Ha Hk Hh Hg Hr. pose proof (ready_stack _ _ _ Hr) as Hl. rewrite Ha in Hl. pose proof (ready_frame _ _ _ Hr) as Hf.
  pose proof (ready_pc _ _ _ Hr) as Hpc. pose proof (ok_stack f Hf) as W. destruct f as [p st m c]. cbn [stack fst pc] in *. take_items Hl W.
  unfold ternop. wp_go; norm. apply (exec_post_ret ex e (MkFrame _ _ m c)); [done|done|reflexivity|done| | |cbn; rewrite Ha; cbn; lia].
  - apply Forall_cons. split; [by apply Hg|done].
  - unfold handed. by rewrite Hk.
Qed.

Lemma push_op_ok ex x e f :
  arity ex = (0, 1)%nat → exec_kind ex = None → halts ex = false → is_word x →
  ready ex e f → wp (push_op x) (exec_post ex e f) (e, f).
Proof.
  intros Ha Hk Hh Hx Hr. pose proof (ready_frame _ _ _ Hr) as Hf.
  pose proof (ready_pc _ _ _ Hr) as Hpc. pose proof (ok_stack f Hf) as W. destruct f as [p st m c]. cbn [stack fst pc] in *.
  unfold push_op. wp_go; norm. apply (exec_post_ret ex e (MkFrame _ _ m c)); [done|done|reflexivity|done| | |cbn; rewrite Ha; cbn; lia].
  - by apply Forall_cons.
  - unfold handed. by rewrite Hk.
Qed.

Lemma push_ptr_ok ex o e f :
  arity ex = (0, 1)%nat → exec_kind ex = None → halts ex = false → (∀ x, o = Some x → is_word x) → o ≠ None →
  ready ex e f → wp (push_ptr o) (exec_post ex e f) (e, f).
Proof.
  intros Ha Hk Hh Hx Ho Hr. destruct o as [x|]; [|done]. change (push_ptr (Some x)) with (push_op (S := S) x).
  apply push_op_ok; [done..|by apply Hx|done].
Qed.

(** ** Data *)

Lemma getData_ok (data : bytes) start size :
  is_u64 start → 0 <= size <= memory_limit → Z.of_nat (length data) < code_limit → ∃ b, getData (E := evm_error) data start size = Ok b.
Proof.
  unfold memory_limit, code_limit, is_u64. rewrite two64_val. intros Hst Hsz Hl. unfold getData. cbv zeta.
  set (s := if decide (Z.of_nat (length data) < start) then Z.of_nat (length data) else start).
  assert (0 <= s <= Z.of_nat (length data)) as Hs by (unfold s; case_decide; lia).
  rewrite (u64_small (s + size)) by (unfold is_u64; rewrite two64_val; lia).
  set (t := if decide (Z.of_nat (length data) < s + size) then Z.of_nat (length data) else s + size).
  assert (s <= t <= Z.of_nat (length data)) as Ht by (unfold t; case_decide; lia).
  unfold slice. rewrite decide_True by lia. by eexists.
Qed.

Lemma clamp64_u64 x : is_u64 (clamp64 x).
Proof.
  unfold clamp64, Uint64WithOverflow. destruct (negb _); [|apply u64_range]. unfold MaxUint64, is_u64. rewrite two64_val. lia.
Qed.

Lemma covered_size m off len :
  mem_Len m <= memory_limit → covered (mem_Len m) (off, len) → 0 <= Uint64 len <= memory_limit.
Proof.
  intros Hl Hc. destruct (decide (len = 0)) as [->|Hne]; [by vm_compute|].
  destruct (covered_bounds m Hl off len Hc Hne) as (_ & -> & ? & ? & ? & _). lia.
Qed.

(** Reads and writes of the memory in its ranges. *)
Lemma wp_read_covered m off len (Q : out bytes → EVM S * Frame → Prop) e f :
  mem f = m → mem_ok m → covered (mem_Len m) (off, len) →
  (∀ b, Z.of_nat (length b) <= memory_limit → Q (Ret b) (e, f)) → wp (read_mem (λ m, mem_GetPtr m (Uint64 off) (Uint64 len))) Q (e, f).
Proof.
  intros <- Hm Hc HQ. destruct (mem_GetPtr_ok (mem f) (ok_size _ Hm) _ _ Hc) as (b & E & L). eapply wp_read_mem; [exact E|].
  apply HQ. rewrite L. eapply covered_size; [|done]. apply Hm.
Qed.

Lemma wp_set_covered m off len v (Q : out () → EVM S * Frame → Prop) e f :
  mem f = m → mem_ok m → covered (mem_Len m) (off, len) →
  (∀ m', same_mem m m' → Q (Ret ()) (e, set_mem m' f)) → wp (with_mem (λ m, mem_Set m (Uint64 off) (Uint64 len) v)) Q (e, f).
Proof.
  intros <- Hm Hc HQ. destruct (mem_Set_ok (mem f) (ok_size _ Hm) _ _ v Hc) as (m' & E & Sm). eapply wp_with_mem; [exact E|]. by apply HQ.
Qed.

(** The single range of an instruction. *)
Lemma ready_range ex e f m r : ready ex e f → memory_use ex = Some m → ranges m (stack f) = [r] → covered (mem_Len (mem f)) r.
Proof. intros Hr Hm E. pose proof (ready_memory _ _ _ Hr m Hm) as HF. rewrite E in HF. exact (proj1 (Forall_cons_1 _ _ _ HF)). Qed.

Lemma opKeccak256_ok e f : ready opKeccak256 e f → wp (sem_opKeccak256 env) (exec_post opKeccak256 e f) (e, f).
Proof.
  intros Hr. pose proof (ready_range _ _ _ _ _ Hr eq_refl eq_refl) as Hc. open_frame Hr. unfold sem_opKeccak256. wp_go.
  eapply wp_read_covered; [reflexivity|apply Hf|exact Hc|]. intros data _. cbn [bind_post].
  apply wp_bind, (wp_if_mod_db R); [intros; apply R_AddPreimage|]. intros e' K. wp_go. norm.
  apply (exec_post_ret _ e (MkFrame _ _ m c)); [done|done|done|done| |done|cbn; lia]. apply Forall_cons. split; [apply word_of_word|done].
Qed.

Lemma opBalance_ok e f : ready opBalance e f → wp sem_opBalance (exec_post opBalance e f) (e, f).
Proof.
  intros Hr. open_frame Hr. unfold sem_opBalance. wp_go. norm.
  apply (exec_post_ret _ e (MkFrame _ _ m c)); [done|done|reflexivity|done| |done|cbn; lia]. apply Forall_cons. split; [apply GetBalance_word|done].
Qed.

Lemma opCallDataLoad_ok e f : ready opCallDataLoad e f → wp sem_opCallDataLoad (exec_post opCallDataLoad e f) (e, f).
Proof.
  intros Hr. open_frame Hr. unfold sem_opCallDataLoad, Uint64WithOverflow. wp_go.
  - norm. destruct (getData_ok (Input c) (u64 z) 32) as [b ->]; [apply u64_range|unfold memory_limit; lia|apply Hf|]. cbn [lift_res]. wp_go. norm.
    apply (exec_post_ret _ e (MkFrame _ _ m c)); [done|done|reflexivity|done| |done|cbn; lia]. apply Forall_cons. split; [apply word_of_word|done].
  - norm. apply (exec_post_ret _ e (MkFrame _ _ m c)); [done|done|reflexivity|done| |done|cbn; lia]. by apply Forall_cons.
Qed.

Lemma copy_op_ok ex ms data e f :
  arity ex = (3, 0)%nat → exec_kind ex = None → halts ex = false → memory_use ex = Some ms →
  (∀ x y z st, ranges ms (x :: y :: z :: st) = [(x, z)]) → (∀ c, contract_ok c → Z.of_nat (length (data c)) < code_limit) →
  ready ex e f → wp (copy_op data) (exec_post ex e f) (e, f).
Proof.
  intros Ha Hk Hh Hm Hrg Hd Hr. pose proof (ready_frame _ _ _ Hr) as Hf. pose proof (ready_stack _ _ _ Hr) as Hl. rewrite Ha in Hl.
  pose proof (ready_pc _ _ _ Hr) as Hpc. pose proof (ok_stack f Hf) as W. destruct f as [p st m c]. cbn [stack fst pc] in *. take_items Hl W.
  pose proof (ready_range _ _ _ _ _ Hr Hm (Hrg _ _ _ _)) as Hc. unfold copy_op. wp_go.
  norm. destruct (getData_ok (data c) (clamp64 z0) (Uint64 z1)) as [b ->].
  { apply clamp64_u64. } { eapply covered_size; [apply Hf|exact Hc]. } { apply Hd, Hf. }
  cbn [lift_res]. wp_go. eapply wp_set_covered; [reflexivity|apply Hf|exact Hc|]. intros m' Sm. cbn [bind_post]. wp_go. norm.
  apply (exec_post_mem ex e (MkFrame _ _ m c)); [done|done|reflexivity|done|done| |cbn; rewrite Ha; cbn; lia|done]. unfold handed. by rewrite Hk.
Qed.

Lemma opReturnDataCopy_ok e f : ready opReturnDataCopy e f → wp sem_opReturnDataCopy (exec_post opReturnDataCopy e f) (e, f).
Proof.
  intros Hr. pose proof (λ r, ready_range _ _ _ _ r Hr eq_refl) as Hc. open_frame Hr.
  specialize (Hc _ eq_refl). cbn [mem stack nth] in Hc.
  unfold sem_opReturnDataCopy, Uint64WithOverflow. wp_go; try (by apply exec_post_fail).
  apply negb_false_iff, IsUint64_true in Heqb. apply orb_false_iff in Heqb0 as [Hend Hle].
  apply negb_false_iff, IsUint64_true in Hend. apply bool_decide_eq_false in Hle.
  assert (0 <= z1 <= memory_limit) as Hz1.
  { destruct Hc as [->|(Ho & Hu & Hle')]; [by vm_compute|]. pose proof (ok_size _ (ok_mem _ Hf)) as Hsz. cbn [mem] in Hsz.
    unfold is_u64 in *. lia. }
  assert (uAdd z0 z1 = z0 + z1) as E.
  { rewrite uAdd_spec. apply Z.mod_small. unfold is_u64, memory_limit in *. unfold two256. rewrite two64_val in *. lia. }
  rewrite E in *. rewrite !u64_small in * by done. unfold slice. unfold is_u64 in *. norm. rewrite decide_True by lia.
  cbn [lift_res]. wp_go. eapply wp_set_covered; [reflexivity|apply Hf|exact Hc|]. intros m' Sm. cbn [bind_post]. wp_go. norm.
  apply (exec_post_mem _ e (MkFrame _ _ m c)); [done|done|reflexivity|done|done|done|cbn; lia|done].
Qed.

Lemma opExtCodeSize_ok e f : ready opExtCodeSize e f → wp sem_opExtCodeSize (exec_post opExtCodeSize e f) (e, f).
Proof.
  intros Hr. open_frame Hr. unfold sem_opExtCodeSize. wp_go. norm.
  apply (exec_post_ret _ e (MkFrame _ _ m c)); [done|done|reflexivity|done| |done|cbn; lia]. apply Forall_cons. split; [auto with evm|done].
Qed.

Lemma opExtCodeCopy_ok e f : ready opExtCodeCopy e f → wp sem_opExtCodeCopy (exec_post opExtCodeCopy e f) (e, f).
Proof.
  intros Hr. pose proof (λ r, ready_range _ _ _ _ r Hr eq_refl) as Hc. open_frame Hr. specialize (Hc _ eq_refl). cbn [mem stack nth] in Hc.
  unfold sem_opExtCodeCopy. wp_go.
  destruct (getData_ok (GetCode (Bytes20 z) (db e)) (clamp64 z1) (Uint64 z2)) as [b ->].
  { apply clamp64_u64. } { eapply covered_size; [apply Hf|exact Hc]. } { apply GetCode_limit. }
  cbn [lift_res]. wp_go. eapply wp_set_covered; [reflexivity|apply Hf|exact Hc|]. intros m' Sm. cbn [bind_post]. wp_go. norm.
  apply (exec_post_mem _ e (MkFrame _ _ m c)); [done|done|reflexivity|done|done|done|cbn; lia|done].
Qed.

Lemma opExtCodeHash_ok e f : ready opExtCodeHash e f → wp sem_opExtCodeHash (exec_post opExtCodeHash e f) (e, f).
Proof.
  intros Hr. open_frame Hr. unfold sem_opExtCodeHash. wp_go; norm;
    (apply (exec_post_ret _ e (MkFrame _ _ m c)); [done|done|reflexivity|done| |done|cbn; lia]; apply Forall_cons; split; [|done]).
  - done.
  - apply word_of_word.
Qed.

Lemma opBlockhash_ok e f : ready opBlockhash e f → wp (sem_opBlockhash env) (exec_post opBlockhash e f) (e, f).
Proof.
  intros Hr. open_frame Hr. unfold sem_opBlockhash, Uint64WithOverflow. wp_go; norm;
    (apply (exec_post_ret _ e (MkFrame _ _ m c)); [done|done|reflexivity|done| |done|cbn; lia]; apply Forall_cons; split; [|done]);
    first [apply word_of_word|done].
Qed.

(** ** Memory, storage and control flow *)

Lemma opMload_ok e f : ready opMload e f → wp sem_opMload (exec_post opMload e f) (e, f).
Proof.
  intros Hr. pose proof (λ r, ready_range _ _ _ _ r Hr eq_refl) as Hc. open_frame Hr. specialize (Hc _ eq_refl). cbn [mem stack nth] in Hc.
  unfold sem_opMload. wp_go. eapply (wp_read_covered m z 32); [reflexivity|apply Hf|exact Hc|]. intros b _. cbn [bind_post]. wp_go. norm.
  apply (exec_post_ret _ e (MkFrame _ _ m c)); [done|done|reflexivity|done| |done|cbn; lia]. apply Forall_cons. split; [apply word_of_word|done].
Qed.

Lemma opMstore_ok e f : ready opMstore e f → wp sem_opMstore (exec_post opMstore e f) (e, f).
Proof.
  intros Hr. pose proof (λ r, ready_range _ _ _ _ r Hr eq_refl) as Hc. open_frame Hr. specialize (Hc _ eq_refl). cbn [mem stack nth] in Hc.
  unfold sem_opMstore. wp_go. destruct (mem_Set32_ok m (ok_size _ (ok_mem _ Hf)) z z0 Hc) as (m' & E & Sm).
  eapply wp_with_mem; [exact E|]. cbn [bind_post]. wp_go. norm.
  apply (exec_post_mem _ e (MkFrame _ _ m c)); [done|done|reflexivity|done|done|done|cbn; lia|done].
Qed.

Lemma opMstore8_ok e f : ready opMstore8 e f → wp sem_opMstore8 (exec_post opMstore8 e f) (e, f).
Proof.
  intros Hr. pose proof (λ r, ready_range _ _ _ _ r Hr eq_refl) as Hc. open_frame Hr. specialize (Hc _ eq_refl). cbn [mem stack nth] in Hc.
  unfold sem_opMstore8. wp_go. destruct (mem_set_byte_ok m (ok_size _ (ok_mem _ Hf)) z (Uint64 z0 mod 256) Hc) as (m' & E & Sm).
  eapply wp_with_mem; [exact E|]. cbn [bind_post]. wp_go. norm.
  apply (exec_post_mem _ e (MkFrame _ _ m c)); [done|done|reflexivity|done|done|done|cbn; lia|done].
Qed.

Lemma opMcopy_ok e f : ready opMcopy e f → wp (exec_fn env callees opMcopy) (exec_post opMcopy e f) (e, f).
Proof.
  intros Hr. pose proof (ready_memory _ _ _ Hr _ eq_refl) as Hc. open_frame Hr. cbn [ranges nth stack mem] in Hc.
  apply Forall_cons_1 in Hc as [Hd Hsrc%Forall_cons_1]. destruct Hsrc as [Hsrc _]. cbn [exec_fn]. wp_go.
  destruct (mem_Copy_ok m (ok_size _ (ok_mem _ Hf)) z z0 z1 Hd Hsrc) as (m' & E & Sm).
  eapply wp_with_mem; [exact E|]. cbn [bind_post]. wp_go. norm.
  apply (exec_post_mem _ e (MkFrame _ _ m c)); [done|done|reflexivity|done|done|done|cbn; lia|done].
Qed.

Lemma opSload_ok e f : ready opSload e f → wp sem_opSload (exec_post opSload e f) (e, f).
Proof.
  intros Hr. open_frame Hr. unfold sem_opSload. wp_go. norm.
  apply (exec_post_ret _ e (MkFrame _ _ m c)); [done|done|reflexivity|done| |done|cbn; lia]. apply Forall_cons. split; [apply word_of_word|done].
Qed.

Lemma opTload_ok e f : ready opTload e f → wp sem_opTload (exec_post opTload e f) (e, f).
Proof.
  intros Hr. open_frame Hr. unfold sem_opTload. wp_go. norm.
  apply (exec_post_ret _ e (MkFrame _ _ m c)); [done|done|reflexivity|done| |done|cbn; lia]. apply Forall_cons. split; [apply word_of_word|done].
Qed.

Lemma store_op_ok ex set e f :
  arity ex = (2, 0)%nat → exec_kind ex = None → halts ex = false → (∀ a k v s, R false s (set a k v s)) →
  ready ex e f → wp (store_op set) (exec_post ex e f) (e, f).
Proof.
  intros Ha Hk Hh Hset Hr. pose proof (ready_frame _ _ _ Hr) as Hf. pose proof (ready_stack _ _ _ Hr) as Hl. rewrite Ha in Hl.
  pose proof (ready_pc _ _ _ Hr) as Hpc. pose proof (ok_stack f Hf) as W. destruct f as [p st m c]. cbn [stack fst pc] in *. take_items Hl W.
  unfold store_op. apply wp_bind, wp_not_readOnly; intros Hro; cbn [bind_post]; [|by apply exec_post_fail]. wp_go. norm.
  apply (exec_post_ret ex e (MkFrame _ _ m c)); [done|done| |done|done| |cbn; rewrite Ha; cbn; lia].
  - apply Keep_set_db. cbn [fst] in Hro. rewrite Hro. apply Hset.
  - unfold handed. by rewrite Hk.
Qed.

Lemma wp_load_abort (Q : out bool → EVM S * Frame → Prop) e f :
  (∀ b e', Keep R e e' → readOnly e' = readOnly e → Q (Ret b) (e', f)) → wp load_abort Q (e, f).
Proof. intros HQ. unfold load_abort. wp_go. apply HQ; [apply Keep_set_aborts, EvmRel0|done]. Qed.

(** A jump lands on a target, or fails. *)
Lemma wp_jump_to pos (Q : out () → EVM S * Frame → Prop) e f :
  contract_ok (contract f) → cache_ok (jumpDests e) →
  (∀ e' c', Keep R e e' → contract_ok c' → same_contract (contract f) c' → Gas c' = Gas (contract f) →
    (jump_target (Code (contract f)) pos → Q (Ret ()) (e', set_pc (u64 (Uint64 pos - 1)) (set_contract c' f))) ∧
    (¬ jump_target (Code (contract f)) pos → Q (Fail ErrInvalidJump []) (e', set_contract c' f))) →
  wp (jump_to pos) Q (e, f).
Proof.
  intros Hc Hcache HQ. unfold jump_to. wp_go.
  destruct (validJumpdest_ok pos (contract f) (jumpDests e) Hc Hcache) as (b & c' & cache' & E & B & Hc' & Sc & G & Hcache').
  rewrite E. cbn [of_opt]. wp_go; (edestruct HQ as [HT HN]; [by apply Keep_set_jumpDests; [done|intros _; exact Hcache']|exact Hc'|exact Sc|exact G|]).
  - apply HT. tauto.
  - apply HN. intros Hj. apply B in Hj. congruence.
Qed.

Lemma exec_post_contract ex e f e' p st c' b :
  frame_ok f → halts ex = false → Keep R e e' → is_u64 p → Forall is_word st → 0 <= handed ex e (stack f) →
  (length st + fst (arity ex) = length (stack f) + snd (arity ex))%nat →
  contract_ok c' → same_contract (contract f) c' → Gas c' = Gas (contract f) →
  exec_post ex e f (Ret b) (e', MkFrame p st (mem f) c').
Proof.
  intros [C G W M] Hh K Hp Hst Hha Hl Hc Sc Eg. split_and!; [done|done|done|done|cbn; unfold is_u64 in G; lia..|reflexivity|done|done|done].
Qed.

Lemma exec_post_fail_contract ex e f e' f' err b :
  frame_ok f → Keep R e e' → contract_ok (contract f') → same_contract (contract f) (contract f') → Gas (contract f') = Gas (contract f) →
  exec_post ex e f (Fail err b) (e', f').
Proof. intros [C G W M] K Hc Sc Eg. split; [done|]. split_and!; [done|done|cbn [snd]; unfold is_u64 in G; lia..]. Qed.

Lemma opJump_ok e f : ready opJump e f → wp sem_opJump (exec_post opJump e f) (e, f).
Proof.
  intros Hr. pose proof (ready_cache _ _ _ Hr) as Hcache. open_frame Hr. unfold sem_opJump. apply wp_bind, wp_load_abort.
  intros b e1 K1 _. cbn [bind_post]. wp_go; [by apply exec_post_fail|].
  apply wp_jump_to; [apply Hf|by apply (keep_jumpDests _ _ _ K1)|]. intros e' c' K Hc' Sc G. split; intros Hj; cbn [bind_post].
  - wp_go. norm. apply (exec_post_contract _ e (MkFrame _ _ m c)); [done|done|by transitivity e1|apply u64_range|done|done|cbn; lia|done|done|done].
  - by apply exec_post_fail_contract; [|transitivity e1|..].
Qed.

Lemma opJumpi_ok e f : ready opJumpi e f → wp sem_opJumpi (exec_post opJumpi e f) (e, f).
Proof.
  intros Hr. pose proof (ready_cache _ _ _ Hr) as Hcache. open_frame Hr. unfold sem_opJumpi. apply wp_bind, wp_load_abort.
  intros b e1 K1 _. cbn [bind_post]. wp_go; [by apply exec_post_fail|..].
  - norm. apply (exec_post_ret _ e (MkFrame _ _ m c)); [done|done|done|done|done|done|cbn; lia].
  - apply wp_jump_to; [apply Hf|by apply (keep_jumpDests _ _ _ K1)|]. intros e' c' K Hc' Sc G. split; intros Hj; cbn [bind_post].
    + wp_go. norm. apply (exec_post_contract _ e (MkFrame _ _ m c)); [done|done|by transitivity e1|apply u64_range|done|done|cbn; lia|done|done|done].
    + by apply exec_post_fail_contract; [|transitivity e1|..].
Qed.

(** ** Stack and immediates *)

Lemma st_exchange_ok i j st :
  Forall is_word st → (i < length st)%nat → (j < length st)%nat →
  ∃ st', st_exchange i j st = Some st' ∧ length st' = length st ∧ Forall is_word st'.
Proof.
  intros W Hi Hj. unfold st_exchange. destruct (lookup_lt_is_Some_2 st i Hi) as [x Hx], (lookup_lt_is_Some_2 st j Hj) as [y Hy].
  rewrite Hx, Hy. cbn [mbind option_bind]. eexists. split; [done|]. rewrite !length_insert. split; [done|].
  apply Forall_insert; [apply Forall_insert; [done|]|]; by eapply Forall_lookup_1.
Qed.

Lemma opSwap_ok k e f : ready (opSwap k) e f → wp (with_stack (st_swap k);; done) (exec_post (opSwap k) e f) (e, f).
Proof.
  intros Hr. open_frame Hr. assert (∃ st', st_swap k st = Some st' ∧ length st' = length st ∧ Forall is_word st') as (st' & E & L & W').
  { unfold st_swap. destruct (lookup_lt_is_Some_2 st 0) as [x Hx]; [lia|]. destruct (lookup_lt_is_Some_2 st k) as [y Hy]; [lia|].
    rewrite Hx, Hy. cbn [mbind option_bind]. eexists. split; [done|]. rewrite !length_insert. split; [done|].
    apply Forall_insert; [apply Forall_insert; [done|]|]; by eapply Forall_lookup_1. }
  apply wp_bind. eapply wp_with_stack; [exact E|]. cbn [bind_post]. wp_go. norm.
  apply (exec_post_ret _ e (MkFrame _ _ m c)); [done|done|reflexivity|done|done|done|cbn; lia].
Qed.

Lemma makeDup_ok k e f :
  (1 <= k)%nat → ready (makeDup k) e f → wp (with_stack (st_dup k);; done) (exec_post (makeDup k) e f) (e, f).
Proof.
  intros Hk Hr. open_frame Hr. destruct k as [|k]; [lia|]. destruct (lookup_lt_is_Some_2 st k) as [x Hx]; [lia|].
  apply wp_bind. eapply wp_with_stack; [cbn; rewrite Hx; reflexivity|]. cbn [bind_post]. wp_go. norm.
  apply (exec_post_ret _ e (MkFrame _ _ m c)); [done|done|reflexivity|done| |done|cbn; lia].
  apply Forall_cons. split; [by eapply Forall_lookup_1|done].
Qed.

Lemma GetOp_range c i : 0 <= GetOp c i < 256.
Proof. unfold GetOp. case_match; [apply b2z_range|lia]. Qed.

Lemma small_word z : 0 <= z < 65536 → is_word z.
Proof. unfold is_word, two256. lia. Qed.

Lemma opPush1_ok e f : ready opPush1 e f → wp sem_opPush1 (exec_post opPush1 e f) (e, f).
Proof.
  intros Hr. open_frame Hr. unfold sem_opPush1, immediate, move_pc. wp_go. norm.
  apply (exec_post_ret _ e (MkFrame _ _ m c)); [done|done|reflexivity|apply u64_range| |done|cbn; lia].
  apply Forall_cons. split; [|done]. apply small_word. pose proof (GetOp_range c (u64 (p + 1))). lia.
Qed.

(** Positions behind the opcode do not wrap. *)
Lemma ready_pc_bound ex e f : ready ex e f → ex ≠ opStop → 0 <= pc f < code_limit.
Proof.
  intros Hr Hne. pose proof (ready_pc _ _ _ Hr) as Hp. destruct (ready_code _ _ _ Hr) as [|Hlt]; [done|].
  pose proof (ok_limit _ (ok_contract _ (ready_frame _ _ _ Hr))). unfold is_u64 in Hp. lia.
Qed.

Lemma opPush2_ok e f : ready opPush2 e f → wp sem_opPush2 (exec_post opPush2 e f) (e, f).
Proof.
  intros Hr. pose proof (ready_pc_bound _ _ _ Hr) as Hb. open_frame Hr. cbn [pc] in Hb. specialize (Hb ltac:(done)).
  assert (∀ k, 0 <= k <= 3 → u64 (p + k) = p + k) as Hu.
  { intros k Hk. apply u64_small. unfold is_u64, code_limit in *. rewrite two64_val. lia. }
  assert (∀ x, is_word x → exec_post opPush2 e (MkFrame p st m c) (Ret []) (e, MkFrame (u64 (p + 2)) (x :: st) m c)) as Hend.
  { intros x Hx. apply (exec_post_ret _ e (MkFrame _ _ m c)); [done|done|reflexivity|apply u64_range| |done|cbn; lia]. by apply Forall_cons. }
  pose proof (Hu 1 ltac:(lia)). pose proof (Hu 2 ltac:(lia)). pose proof (Hu 3 ltac:(lia)).
  unfold sem_opPush2, move_pc. wp_go; norm; cbn [pc stack mem contract] in *.
  - unfold slice. rewrite decide_True by lia. cbn [lift_res]. wp_go. norm. apply Hend, word_of_word.
  - destruct (lookup_lt_is_Some_2 (Code c) (Z.to_nat (p + 1))) as [b Hb']; [lia|].
    eapply wp_of_opt; [rewrite Hu by lia; exact Hb'|]. cbn [bind_post]. wp_go. norm. apply Hend, small_word. pose proof (b2z_range b). lia.
  - apply Hend. done.
Qed.

Lemma makePush_ok size k e f :
  (k <= 32)%nat → ready (makePush size k) e f → wp (sem_makePush size k) (exec_post (makePush size k) e f) (e, f).
Proof.
  intros Hk Hr. pose proof (ready_pc_bound _ _ _ Hr) as Hb. pose proof (ok_limit _ (ok_contract _ (ready_frame _ _ _ Hr))) as HL.
  open_frame Hr. cbn [pc contract] in Hb, HL. specialize (Hb ltac:(done)). unfold code_limit in *.
  assert (u64 (p + 1) = p + 1) as Hu by (apply u64_small; unfold is_u64; rewrite two64_val; lia).
  assert (∀ x, is_word x → exec_post (makePush size k) e (MkFrame p st m c) (Ret []) (e, MkFrame (u64 (p + Z.of_nat size)) (x :: st) m c)) as Hend.
  { intros x Hx. apply (exec_post_ret _ e (MkFrame _ _ m c)); [done|done|reflexivity|apply u64_range| |done|cbn; lia]. by apply Forall_cons. }
  unfold sem_makePush, move_pc. wp_go; norm. rewrite Hu.
  assert (i64 (p + 1) = p + 1) as -> by (apply i64_small; rewrite two63_val; lia).
  set (start := Z.min (Z.of_nat (length (Code c))) (p + 1)).
  assert (i64 (start + Z.of_nat k) = start + Z.of_nat k) as -> by (apply i64_small; rewrite two63_val; lia).
  unfold slice. rewrite decide_True by lia. cbn [lift_res]. wp_go. norm. apply Hend. case_decide; [|apply word_of_word].
  apply u2_word; [in_list|apply word_of_word|apply small_word; lia].
Qed.

Lemma opDupN_ok e f : ready opDupN e f → wp sem_opDupN (exec_post opDupN e f) (e, f).
Proof.
  intros Hr. open_frame Hr. unfold sem_opDupN, immediate, stack_len, move_pc. wp_go; norm; try (by apply exec_post_fail).
  all: cbn [pc stack mem contract] in *.
  pose proof (GetOp_range c (u64 (p + 1))) as Hx. set (x := GetOp c (u64 (p + 1))) in *. unfold decodeSingle in *.
  assert (17 <= (x + 145) mod 256) as H17 by (Z.div_mod_to_equations; lia).
  destruct (lookup_lt_is_Some_2 st (Z.to_nat ((x + 145) mod 256 - 1))) as [y Hy]; [lia|].
  eapply wp_Back; [exact Hy|]. cbn [bind_post]. wp_go. norm.
  apply (exec_post_ret _ e (MkFrame _ _ m c)); [done|done|reflexivity|apply u64_range| |done|cbn; lia].
  apply Forall_cons. split; [by eapply Forall_lookup_1|done].
Qed.

Lemma opSwapN_ok e f : ready opSwapN e f → wp sem_opSwapN (exec_post opSwapN e f) (e, f).
Proof.
  intros Hr. open_frame Hr. unfold sem_opSwapN, immediate, stack_len, move_pc. wp_go; norm; try (by apply exec_post_fail).
  all: cbn [pc stack mem contract] in *.
  set (x := GetOp c (u64 (p + 1))) in *. unfold decodeSingle in *.
  pose proof (Z.mod_pos_bound (x + 145) 256).
  destruct (st_exchange_ok 0 (Z.to_nat ((x + 145) mod 256)) st W) as (st' & E & L & W'); [lia|lia|].
  eapply wp_with_stack; [exact E|]. cbn [bind_post]. wp_go. norm.
  apply (exec_post_ret _ e (MkFrame _ _ m c)); [done|done|reflexivity|apply u64_range|done|done|cbn; lia].
Qed.

Lemma decodePair_pos x i j : 0 <= x → decodePair x = (i, j) → 1 <= i.
Proof.
  intros Hx. unfold decodePair. assert (0 <= Z.lxor x 143) as Hk by (apply Z.lxor_nonneg; lia).
  case_decide; intros [= <- <-]; Z.div_mod_to_equations; lia.
Qed.

Lemma opExchange_ok e f : ready opExchange e f → wp sem_opExchange (exec_post opExchange e f) (e, f).
Proof.
  intros Hr. open_frame Hr. unfold sem_opExchange, immediate, stack_len, move_pc. wp_go; norm; try (by apply exec_post_fail).
  all: cbn [pc stack mem contract] in *.
  pose proof (GetOp_range c (u64 (p + 1))) as Hx. apply decodePair_pos in Heqp0; [|apply Hx].
  destruct (st_exchange_ok (Z.to_nat z) (Z.to_nat z0) st W) as (st' & E & L & W'); [lia|lia|].
  eapply wp_with_stack; [exact E|]. cbn [bind_post]. wp_go. norm.
  apply (exec_post_ret _ e (MkFrame _ _ m c)); [done|done|reflexivity|apply u64_range|done|done|cbn; lia].
Qed.

(** ** Ends of a call, logs *)

Lemma opReturn_ok e f : ready opReturn e f → wp sem_opReturn (exec_post opReturn e f) (e, f).
Proof.
  intros Hr. pose proof (λ r, ready_range _ _ _ _ r Hr eq_refl) as Hc. open_frame Hr. specialize (Hc _ eq_refl). cbn [mem stack nth] in Hc.
  unfold sem_opReturn. wp_go. eapply wp_read_covered; [reflexivity|apply Hf|exact Hc|]. intros b _. cbn [bind_post]. by apply exec_post_fail.
Qed.

Lemma opRevert_ok e f : ready opRevert e f → wp sem_opRevert (exec_post opRevert e f) (e, f).
Proof.
  intros Hr. pose proof (λ r, ready_range _ _ _ _ r Hr eq_refl) as Hc. open_frame Hr. specialize (Hc _ eq_refl). cbn [mem stack nth] in Hc.
  unfold sem_opRevert. wp_go. eapply wp_read_covered; [reflexivity|apply Hf|exact Hc|]. intros b _. cbn [bind_post]. wp_go.
  apply exec_post_fail; [done| |done]. apply Keep_set_returnData, EvmRel0.
Qed.

Lemma opUndefined_ok e f : ready opUndefined e f → wp sem_opUndefined (exec_post opUndefined e f) (e, f).
Proof.
  intros Hr. destruct (ready_code _ _ _ Hr) as [|Hlt]; [done|]. open_frame Hr. cbn [pc contract] in Hlt. unfold sem_opUndefined. wp_go. norm.
  destruct (lookup_lt_is_Some_2 (Code c) (Z.to_nat p)) as [b Hb]; [unfold is_u64 in Hpc; lia|].
  eapply wp_of_opt; [exact Hb|]. cbn [bind_post]. wp_go. by apply exec_post_fail.
Qed.

Lemma opSelfdestruct_ok e f : ready opSelfdestruct e f → wp sem_opSelfdestruct (exec_post opSelfdestruct e f) (e, f).
Proof.
  intros Hr. open_frame Hr. unfold sem_opSelfdestruct. apply wp_bind, wp_not_readOnly; intros Hro; cbn [bind_post]; [|by apply exec_post_fail].
  cbn [fst] in Hro. wp_go; norm; (apply exec_post_fail; [done| |done]); (apply Keep_db; [done..|]); unfold set_db; cbn [db readOnly contract]; rewrite Hro.
  - by apply R_destruct.
  - apply R_burn.
Qed.

Lemma opSelfdestruct6780_ok e f : ready opSelfdestruct6780 e f → wp sem_opSelfdestruct6780 (exec_post opSelfdestruct6780 e f) (e, f).
Proof.
  intros Hr. open_frame Hr. unfold sem_opSelfdestruct6780. apply wp_bind, wp_not_readOnly; intros Hro; cbn [bind_post]; [|by apply exec_post_fail].
  cbn [fst] in Hro. wp_go; norm; try discriminate; (apply exec_post_fail; [done| |done]); try reflexivity; (apply Keep_db; [done..|]); unfold set_db; cbn [db readOnly contract]; rewrite Hro.
  - by apply R_destruct.
  - apply R_burn.
  - apply R_empty. apply andb_true_iff in Heqb0 as [_ Hne]. by apply bool_decide_eq_true in Hne.
Qed.

Lemma wp_pop_topics size (Q : out (list Hash) → EVM S * Frame → Prop) e : ∀ f,
  (size <= length (stack f))%nat → (∀ topics, Q (Ret topics) (e, set_stack (drop size (stack f)) f)) → wp (pop_topics size) Q (e, f).
Proof.
  induction size as [|size IH] in Q |- *; intros f Hl HQ; cbn [pop_topics].
  - apply wp_ret. destruct f. apply HQ.
  - destruct f as [p st m c]. cbn [stack] in *. destruct st as [|x st]; [cbn in Hl; lia|]. apply wp_bind.
    eapply wp_pop; [reflexivity|]. cbn [bind_post]. apply wp_bind, IH; [cbn in *; lia|]. intros topics. cbn [bind_post]. apply wp_ret. apply HQ.
Qed.

Lemma makeLog_ok size e f : ready (makeLog size) e f → wp (sem_makeLog env size) (exec_post (makeLog size) e f) (e, f).
Proof.
  intros Hr. pose proof (ready_memory _ _ _ Hr _ eq_refl) as Hc. pose proof (ready_frame _ _ _ Hr) as Hf.
  pose proof (ready_stack _ _ _ Hr) as Hl. pose proof (ready_pc _ _ _ Hr) as Hpc. pose proof (ok_stack _ Hf) as W.
  destruct f as [p st m c]. cbn [stack pc arity fst] in *. destruct st as [|x [|y st]]; [cbn in Hl; lia..|].
  cbn [ranges nth mem] in Hc. apply Forall_cons_1 in Hc as [Hc _]. cbn [length] in Hl.
  unfold sem_makeLog. apply wp_bind, wp_not_readOnly; intros Hro; cbn [bind_post]; [|by apply exec_post_fail]. cbn [fst] in Hro. wp_go.
  apply wp_pop_topics; [cbn; lia|]. intros topics. cbn [bind_post]. wp_go.
  eapply wp_read_covered; [reflexivity|apply Hf|exact Hc|]. intros b _. cbn [bind_post]. wp_go. norm.
  apply Forall_cons in W as [_ W]. apply Forall_cons in W as [_ W].
  apply (exec_post_ret _ e (MkFrame _ _ m c)); [done|done| |done|by apply Forall_drop|done|cbn; rewrite length_drop; lia].
  apply Keep_set_db. rewrite Hro. apply R_AddLog.
Qed.

(** ** Calls *)

Lemma wp_callee {A} (run : ST (EVM S) A) gas left (Q : out A → EVM S * Frame → Prop) e f :
  wp run (result_ok e gas left) e →
  (∀ a e', Keep R e e' → 0 <= left a <= gas → Q (Ret a) (e', f)) → (∀ s, Q DbCrash s) → (Z.of_nat n <= gas → ∀ s, Q NoFuel s) →
  wp (in_evm run) Q (e, f).
Proof.
  intros Hrun HQ HD HN. apply wp_zoom. eapply wp_mono; [exact Hrun|]. intros [a|err ret| | |] e' Hres; [|done|done|apply HD|by apply HN].
  destruct Hres as [K Hl]. by apply HQ.
Qed.

Lemma RefundGas_ok g c :
  contract_ok c → 0 <= g → 0 <= Gas c → is_u64 (Gas c + g) →
  contract_ok (RefundGas g c) ∧ same_contract c (RefundGas g c) ∧ Gas (RefundGas g c) = Gas c + g.
Proof.
  intros Hc Hg HG Hu. unfold RefundGas. case_decide as E; [subst g; split_and!; [done|reflexivity|lia]|].
  split_and!; [by apply contract_ok_Gas|apply same_set_Gas|cbn; by apply u64_small].
Qed.

(** The end of a call that left at most [gas]. *)
Lemma finish_call_ok ex retOffset retSize ret left err e e1 p st m c st0 :
  exec_kind ex ≠ None → halts ex = false → frame_ok (MkFrame p st0 m c) → Keep R e e1 → is_u64 p →
  Forall is_word st → (length st + 1 + fst (arity ex) = length st0 + snd (arity ex))%nat →
  covered (mem_Len m) (retOffset, retSize) → 0 <= left <= handed ex e st0 → is_u64 (Gas c + handed ex e st0) →
  wp (finish_call retOffset retSize (ret, left, err)) (exec_post ex e (MkFrame p st0 m c)) (e1, MkFrame p st m c).
Proof.
  intros Hk Hh Hf K Hpc W Hl Hc Hleft Hu. pose proof (ok_gas _ Hf) as HG. cbn [contract] in HG. unfold finish_call.
  assert (is_u64 (Gas c + left)) as Hu' by (unfold is_u64 in *; lia).
  destruct (RefundGas_ok left c) as (Hc' & Sc & EG); [apply Hf|lia|unfold is_u64 in HG; lia|done|].
  assert (∀ m', same_mem m m' → exec_post ex e (MkFrame p st0 m c) (Ret ret)
    (set_returnData ret e1, MkFrame p (bool_word (bool_decide (err = None)) :: st) m' (RefundGas left c))) as Hend.
  { intros m' Sm. unfold exec_post. cbn [fst snd contract mem stack pc]. split_and!; [done| |done|done|rewrite EG; unfold is_u64 in *; lia|rewrite EG; lia|
      done| |cbn [length]; lia|done].
    - transitivity e1; [done|apply Keep_set_returnData, EvmRel0].
    - apply Forall_cons. split; [apply bool_word_word|done]. }
  wp_go.
  - eapply (wp_set_covered m); [reflexivity|apply Hf|exact Hc|]. intros m' Sm. cbn [bind_post]. wp_go. norm. by apply Hend.
  - norm. apply Hend. reflexivity.
Qed.

Lemma value_price_stipend k st : 0 <= value_price k st.
Proof. unfold value_price, CallValueTransferGas. destruct k; try lia; case_decide; lia. Qed.

Lemma with_stipend_ok v gas :
  is_u64 gas → is_u64 (gas + (if decide (v = 0) then 0 else CallValueTransferGas)) →
  is_u64 (with_stipend v gas) ∧ with_stipend v gas <= gas + (if decide (v = 0) then 0 else CallValueTransferGas).
Proof.
  intros Hg Hv. unfold with_stipend, IsZero, CallValueTransferGas, CallStipend in *. destruct (decide (v = 0)) as [->|Hne].
  - rewrite bool_decide_eq_true_2 by done. lia || (split; [done|lia]).
  - rewrite bool_decide_eq_false_2 by done. rewrite u64_small by (unfold is_u64 in *; lia). unfold is_u64 in *. lia.
Qed.

Section calling.
Context (Hcallees : callees_ok).

Lemma exec_post_NoFuel ex e f gas s : halts ex = false → Z.of_nat n <= gas → gas <= budget ex e f → exec_post ex e f NoFuel s.
Proof. intros Hh Hn Hg. unfold exec_post. split; [done|lia]. Qed.

Lemma opCall_ok e f : ready opCall e f → wp (sem_opCall callees) (exec_post opCall e f) (e, f).
Proof.
  intros Hr. pose proof (ready_memory _ _ _ Hr _ eq_refl) as Hc. destruct (ready_gas _ _ _ Hr _ eq_refl) as [Ht Hs].
  pose proof (ready_cache _ _ _ Hr) as Hcache. open_frame Hr. cbn [ranges nth stack mem contract value_price] in *.
  apply Forall_cons_1 in Hc as [Hret Hc]. apply Forall_cons_1 in Hc as [Harg _]. pose proof (ok_gas _ Hf) as HG. cbn [contract] in HG.
  destruct (with_stipend_ok z1 (callGasTemp e)) as [Hu Hle]; [done|case_decide; unfold is_u64, CallValueTransferGas in *; lia|].
  unfold sem_opCall, call_args. wp_go. eapply wp_read_covered; [reflexivity|apply Hf|exact Harg|]. intros args Hargs. cbn [bind_post]. assert (Z.of_nat (length args) < code_limit) as Hin by (unfold code_limit, memory_limit in *; lia).
 
  apply wp_bind, wp_get_evm. cbn [bind_post]. destruct (readOnly e && negb (IsZero z1)) eqn:Hguard; [by apply exec_post_fail|]. wp_go.
  eapply wp_callee; [apply (Call_ok Hcallees); [done|done|done|done|]|intros [[ret left] err] e' K Hl'; cbn [bind_post]|done|].
  - intros Hro. rewrite Hro in Hguard. apply negb_false_iff, bool_decide_eq_true in Hguard. done.
  - unfold call_left in Hl'. cbn [fst snd] in Hl'. norm. eapply finish_call_ok; [done|done|done|done|done|done|cbn; lia|exact Hret| |]; cbn; lia || done.
  - intros Hn s'. eapply exec_post_NoFuel; [done|exact Hn|]. exact Hle.
Qed.

Lemma opCallCode_ok e f : ready opCallCode e f → wp (sem_opCallCode callees) (exec_post opCallCode e f) (e, f).
Proof.
  intros Hr. pose proof (ready_memory _ _ _ Hr _ eq_refl) as Hc. destruct (ready_gas _ _ _ Hr _ eq_refl) as [Ht Hs].
  pose proof (ready_cache _ _ _ Hr) as Hcache. open_frame Hr. cbn [ranges nth stack mem contract value_price] in *.
  apply Forall_cons_1 in Hc as [Hret Hc]. apply Forall_cons_1 in Hc as [Harg _]. pose proof (ok_gas _ Hf) as HG. cbn [contract] in HG.
  destruct (with_stipend_ok z1 (callGasTemp e)) as [Hu Hle]; [done|case_decide; unfold is_u64, CallValueTransferGas in *; lia|].
  unfold sem_opCallCode, call_args. wp_go. eapply wp_read_covered; [reflexivity|apply Hf|exact Harg|]. intros args Hargs. cbn [bind_post]. assert (Z.of_nat (length args) < code_limit) as Hin by (unfold code_limit, memory_limit in *; lia).
  wp_go.
  eapply wp_callee; [apply (CallCode_ok Hcallees); done|intros [[ret left] err] e' K Hl'; cbn [bind_post]|done|].
  - unfold call_left in Hl'. cbn [fst snd] in Hl'. norm. eapply finish_call_ok; [done|done|done|done|done|done|cbn; lia|exact Hret| |]; cbn; lia || done.
  - intros Hn s'. eapply exec_post_NoFuel; [done|exact Hn|]. exact Hle.
Qed.

Lemma opDelegateCall_ok e f : ready opDelegateCall e f → wp (sem_opDelegateCall callees) (exec_post opDelegateCall e f) (e, f).
Proof.
  intros Hr. pose proof (ok_value _ (ok_contract _ (ready_frame _ _ _ Hr))) as Hv.
  pose proof (ready_memory _ _ _ Hr _ eq_refl) as Hc. destruct (ready_gas _ _ _ Hr _ eq_refl) as [Ht Hs].
  pose proof (ready_cache _ _ _ Hr) as Hcache. open_frame Hr. cbn [ranges nth stack mem contract value_price] in *.
  apply Forall_cons_1 in Hc as [Hret Hc]. apply Forall_cons_1 in Hc as [Harg _].
  unfold sem_opDelegateCall, call_args. wp_go. eapply wp_read_covered; [reflexivity|apply Hf|exact Harg|]. intros args Hargs. cbn [bind_post]. assert (Z.of_nat (length args) < code_limit) as Hin by (unfold code_limit, memory_limit in *; lia).
  wp_go.
  eapply wp_callee; [apply (DelegateCall_ok Hcallees); done|intros [[ret left] err] e' K Hl'; cbn [bind_post]|done|].
  - unfold call_left in Hl'. cbn [fst snd] in Hl'. norm. eapply finish_call_ok; [done|done|done|done|done|done|cbn; lia|exact Hret| |]; cbn; lia || done.
  - intros Hn s'. eapply exec_post_NoFuel; [done|exact Hn|]. cbn. lia.
Qed.

Lemma opStaticCall_ok e f : ready opStaticCall e f → wp (sem_opStaticCall callees) (exec_post opStaticCall e f) (e, f).
Proof.
  intros Hr. pose proof (ready_memory _ _ _ Hr _ eq_refl) as Hc. destruct (ready_gas _ _ _ Hr _ eq_refl) as [Ht Hs].
  pose proof (ready_cache _ _ _ Hr) as Hcache. open_frame Hr. cbn [ranges nth stack mem contract value_price] in *.
  apply Forall_cons_1 in Hc as [Hret Hc]. apply Forall_cons_1 in Hc as [Harg _].
  unfold sem_opStaticCall, call_args. wp_go. eapply wp_read_covered; [reflexivity|apply Hf|exact Harg|]. intros args Hargs. cbn [bind_post]. assert (Z.of_nat (length args) < code_limit) as Hin by (unfold code_limit, memory_limit in *; lia).
  wp_go.
  eapply wp_callee; [apply (StaticCall_ok Hcallees); done|intros [[ret left] err] e' K Hl'; cbn [bind_post]|done|].
  - unfold call_left in Hl'. cbn [fst snd] in Hl'. norm. eapply finish_call_ok; [done|done|done|done|done|done|cbn; lia|exact Hret| |]; cbn; lia || done.
  - intros Hn s'. eapply exec_post_NoFuel; [done|exact Hn|]. cbn. lia.
Qed.

(** ** Creations *)

(** The end of a creation that was given [gas]. *)
Lemma finish_create_ok ex failed res addr left err e e1 p st m c c1 st0 gas :
  exec_kind ex = None → halts ex = false → frame_ok (MkFrame p st0 m c) → Keep R e e1 → is_u64 p →
  Forall is_word st → (length st + 1 + fst (arity ex) = length st0 + snd (arity ex))%nat →
  contract_ok c1 → same_contract c c1 → 0 <= Gas c1 → Gas c1 + gas <= Gas c → 0 <= left <= gas →
  wp (finish_create failed (res, addr, left, err)) (exec_post ex e (MkFrame p st0 m c)) (e1, MkFrame p st m c1).
Proof.
  intros Hk Hh Hf K Hpc W Hl Hc1 Sc1 HG1 Hsum Hleft. pose proof (ok_gas _ Hf) as HG. cbn [contract] in HG. unfold finish_create.
  destruct (RefundGas_ok left c1) as (Hc' & Sc & EG); [done|lia|done|unfold is_u64 in *; lia|].
  assert (∀ b rd, exec_post ex e (MkFrame p st0 m c) (Ret b)
    (set_returnData rd e1, MkFrame p ((if failed then 0 else word_of addr) :: st) m (RefundGas left c1))) as Hend.
  { intros b rd. unfold exec_post, handed. rewrite Hk. cbn [fst snd contract mem stack pc].
    split_and!; [done| |by transitivity c1|done|lia|lia|reflexivity| |cbn [length]; lia|done].
    - transitivity e1; [done|apply Keep_set_returnData, EvmRel0].
    - apply Forall_cons. split; [destruct failed; [done|apply word_of_word]|done]. }
  apply wp_bind, wp_push. cbn [bind_post]. apply wp_bind, wp_mod_contract. cbn [bind_post]. norm.
  destruct (is_error _ _); (apply wp_bind, wp_mod_evm; cbn [bind_post]; apply wp_ret; apply Hend).
Qed.

(** The gas of a creation comes out of the contract's. *)
Lemma use_gas_part c g :
  contract_ok c → 0 <= g <= Gas c → let c1 := snd (UseGas g c) in contract_ok c1 ∧ same_contract c c1 ∧ Gas c1 = Gas c - g.
Proof.
  intros Hc Hg. unfold UseGas. rewrite decide_False by lia. cbn [snd].
  split_and!; [by apply contract_ok_Gas|apply same_set_Gas|done].
Qed.

Lemma part_of_gas g : 0 <= g → 0 <= g - g / 64 <= g.
Proof. intros Hg. Z.div_mod_to_equations; lia. Qed.

Lemma opCreate_ok e f : ready opCreate e f → wp (sem_opCreate env callees) (exec_post opCreate e f) (e, f).
Proof.
  intros Hr. pose proof (λ r, ready_range _ _ _ _ r Hr eq_refl) as Hc. pose proof (ready_cache _ _ _ Hr) as Hcache.
  open_frame Hr. specialize (Hc _ eq_refl). cbn [mem stack nth] in Hc. pose proof (ok_gas _ Hf) as HG. cbn [contract] in HG.
  unfold sem_opCreate. apply wp_bind, wp_not_readOnly; intros Hro; cbn [bind_post]; [|by apply exec_post_fail]. cbn [fst] in Hro.
  apply wp_bind. eapply wp_pop; [reflexivity|]. cbn [bind_post]. apply wp_bind. eapply wp_pop; [reflexivity|]. cbn [bind_post].
  apply wp_bind. eapply wp_pop; [reflexivity|]. cbn [bind_post]. apply wp_bind.
  eapply wp_read_covered; [reflexivity|apply Hf|exact Hc|]. intros input Hin. cbn [bind_post]. apply wp_bind, wp_get_contract. cbn [bind_post]. norm.
  set (gas := if IsEIP150 (chainRules env) then Gas c - Gas c / 64 else Gas c).
  assert (0 <= gas <= Gas c) as Hgas.
  { unfold gas, is_u64 in *. destruct (IsEIP150 _); [apply part_of_gas; lia|lia]. }
  destruct (use_gas_part c gas) as (Hc1 & Sc1 & E1); [apply Hf|done|].
  unfold use_all. apply wp_bind, wp_mod_contract. cbn [bind_post]. norm. apply wp_bind, wp_get_contract. cbn [bind_post]. norm. apply wp_bind.
  eapply wp_callee; [apply (Create_ok Hcallees); [done|unfold is_u64 in *; lia|done|done|unfold memory_limit, code_limit in *; lia]| |done|].
  - intros [[[res addr] left] err] e' K Hl'. unfold create_left in Hl'. cbn [fst snd] in Hl'. cbn [bind_post].
    eapply finish_create_ok; [done|done|done|done|done|done|cbn; lia|done|done|rewrite E1; lia| |exact Hl']. rewrite E1. lia.
  - intros Hn s'. eapply exec_post_NoFuel; [done|exact Hn|]. cbn. lia.
Qed.

Lemma opCreate2_ok e f : ready opCreate2 e f → wp (sem_opCreate2 callees) (exec_post opCreate2 e f) (e, f).
Proof.
  intros Hr. pose proof (λ r, ready_range _ _ _ _ r Hr eq_refl) as Hc. pose proof (ready_cache _ _ _ Hr) as Hcache.
  open_frame Hr. specialize (Hc _ eq_refl). cbn [mem stack nth] in Hc. pose proof (ok_gas _ Hf) as HG. cbn [contract] in HG.
  unfold sem_opCreate2. apply wp_bind, wp_not_readOnly; intros Hro; cbn [bind_post]; [|by apply exec_post_fail]. cbn [fst] in Hro.
  apply wp_bind. eapply wp_pop; [reflexivity|]. cbn [bind_post]. apply wp_bind. eapply wp_pop; [reflexivity|]. cbn [bind_post].
  apply wp_bind. eapply wp_pop; [reflexivity|]. cbn [bind_post]. apply wp_bind. eapply wp_pop; [reflexivity|]. cbn [bind_post]. apply wp_bind.
  eapply wp_read_covered; [reflexivity|apply Hf|exact Hc|]. intros input Hin. cbn [bind_post]. apply wp_bind, wp_get_contract. cbn [bind_post]. norm.
  set (gas := Gas c - Gas c / 64). assert (0 <= gas <= Gas c) as Hgas by (apply part_of_gas; unfold is_u64 in HG; lia).
  destruct (use_gas_part c gas) as (Hc1 & Sc1 & E1); [apply Hf|done|].
  unfold use_all. apply wp_bind, wp_mod_contract. cbn [bind_post]. norm. apply wp_bind, wp_get_contract. cbn [bind_post]. norm. apply wp_bind.
  eapply wp_callee; [apply (Create2_ok Hcallees); [done|unfold is_u64 in *; lia|done|done|unfold memory_limit, code_limit in *; lia]| |done|].
  - intros [[[res addr] left] err] e' K Hl'. unfold create_left in Hl'. cbn [fst snd] in Hl'. cbn [bind_post].
    eapply finish_create_ok; [done|done|done|done|done|done|cbn; lia|done|done|rewrite E1; lia| |exact Hl']. rewrite E1. lia.
  - intros Hn s'. eapply exec_post_NoFuel; [done|exact Hn|]. cbn. lia.
Qed.
End calling.

(** ** Every instruction *)

Lemma Len64_word x : is_word x → 0 <= Len64 x <= 256.
Proof.
  unfold is_word, Len64, two256. intros Hx. case_decide; [lia|].
  pose proof (Z.log2_nonneg x). assert (Z.log2 x < 256) by (apply Z.log2_lt_pow2; lia). lia.
Qed.

Lemma length_word (b : bytes) : is_word (u64 (Z.of_nat (length b))).
Proof. auto with evm. Qed.

Lemma shift_word g shift v :
  g ∈ [uLsh; uRsh; uSRsh] → is_word shift → is_word v → is_word (g v (Uint64 shift)).
Proof. intros Hg Hs Hv. apply u2_word; [set_solver|done|]. unfold Uint64. auto with evm. Qed.

Lemma opSAR_word x y : is_word x → is_word y → is_word (sem_opSAR x y).
Proof.
  intros Hx Hy. unfold sem_opSAR. repeat case_decide; [done|done|]. apply shift_word; [in_list|done|done].
Qed.

Lemma opPop_ok e f : ready opPop e f → wp (_ ← pop; done) (exec_post opPop e f) (e, f).
Proof.
  intros Hr. open_frame Hr. wp_go. norm.
  apply (exec_post_ret _ e (MkFrame _ _ m c)); [done|done|reflexivity|done|done|done|cbn; lia].
Qed.

Lemma opJumpdest_ok e f : ready opJumpdest e f → wp done (exec_post opJumpdest e f) (e, f).
Proof.
  intros Hr. open_frame Hr. wp_go.
  apply (exec_post_ret _ e (MkFrame _ _ m c)); [done|done|reflexivity|done|done|done|cbn; lia].
Qed.

Lemma exec_fn_ok ex e f :
  env_ok env → callees_ok → well_formed env ex = true → ready ex e f → wp (exec_fn env callees ex) (exec_post ex e f) (e, f).
Proof.
  intros Henv Hcallees Hwf Hr. pose proof (ready_frame _ _ _ Hr) as Hf.
  assert (∀ g x y, g ∈ [uAdd; uSub; uMul; uDiv; uSDiv; uMod; uSMod; uExp; uExtendSign; uAnd; uOr; uXor; uByte; uLsh; uRsh; uSRsh] →
    is_word x → is_word y → is_word (g x y)) as H2w by (intros; by apply u2_word).
  destruct ex; cbn [exec_fn well_formed] in *;
    try (apply binop_ok; [done|done|done| |done]; intros x y Hx Hy;
         first [apply H2w; [in_list|done|done] | apply bool_word_word | unfold sem_opSHL, sem_opSHR; case_decide; [apply shift_word; [in_list|done|done]|done] | by apply opSAR_word]);
    try (apply unop_ok; [done|done|done| |done]; intros x Hx;
         first [by apply u1_word | apply bool_word_word | pose proof (Len64_word x Hx); apply small_word; unfold BitLen; lia
               | case_decide; [apply word_of_word|done]]);
    try (apply ternop_ok; [done|done|done| |done]; intros x y z Hx Hy Hz; apply u3_word; [in_list|done|done|done]);
    try (apply push_op_ok; [done|done|done|by apply word_of_word|done]);
    try (apply push_op_ok; [done|done|done|by apply u256_word|done]);
    try (apply push_op_ok; [done|done|done|apply Henv|done]);
    try (apply wp_bind; first [apply wp_get_contract|apply wp_get_evm|apply wp_get_frame]; cbn [bind_post];
         apply push_op_ok; [done|done|done|first [apply word_of_word|apply length_word]|done]).
  all: try (by auto using opKeccak256_ok, opBalance_ok, opCallDataLoad_ok, opReturnDataCopy_ok, opExtCodeSize_ok, opExtCodeCopy_ok,
    opExtCodeHash_ok, opBlockhash_ok, opPop_ok, opMload_ok, opMstore_ok, opMstore8_ok, opSload_ok, opJump_ok, opJumpi_ok, opJumpdest_ok,
    opSwap_ok, opPush1_ok, opPush2_ok, opCreate_ok, opCreate2_ok, opCall_ok, opCallCode_ok, opDelegateCall_ok, opStaticCall_ok,
    opReturn_ok, opRevert_ok, opUndefined_ok, opSelfdestruct_ok, opSelfdestruct6780_ok, opDupN_ok, opSwapN_ok, opExchange_ok, makeLog_ok,
    opTload_ok, opMcopy_ok).
  - apply wp_bind, wp_get_contract. cbn [bind_post]. apply push_op_ok; [done|done|done|apply Hf|done].
  - eapply copy_op_ok; [done|done|done|done|done|apply ok_input|done].
  - eapply copy_op_ok; [done|done|done|done|done|apply ok_limit|done].
  - apply bool_decide_eq_true in Hwf. apply push_ptr_ok; [done|done|done| | |done].
    + intros x Hx. apply fmap_Some in Hx as (h & _ & ->). apply word_of_word.
    + by destruct (Random _).
  - apply store_op_ok; [done|done|done|intros; apply R_SetState|done].
  - apply wp_bind, wp_get_frame. cbn [bind_post]. apply push_op_ok; [done|done|done|by apply u64_word, (ready_pc _ _ _ Hr)|done].
  - apply wp_bind, wp_get_contract. cbn [bind_post]. apply push_op_ok; [done|done|done|by apply u64_word, Hf|done].
  - apply Nat.leb_le in Hwf. by apply makeDup_ok.
  - apply Nat.leb_le in Hwf. by apply makePush_ok.
  - apply wp_throw. by apply exec_post_fail.
  - apply wp_bind, wp_get_contract. cbn [bind_post]. apply wp_bind, wp_get_db. cbn [bind_post].
    apply push_op_ok; [done|done|done|apply GetBalance_word|done].
  - apply store_op_ok; [done|done|done|intros; apply R_SetTransientState|done].
  - apply bool_decide_eq_true in Hwf. apply push_ptr_ok; [done|done|done| | |done].
    + intros x Hx. apply fmap_Some in Hx as (h & _ & ->). apply u256_word.
    + by destruct (BaseFee _).
  - by apply push_op_ok.
  - apply bool_decide_eq_true in Hwf. apply push_ptr_ok; [done|done|done| | |done].
    + intros x Hx. apply fmap_Some in Hx as (h & _ & ->). apply u256_word.
    + by destruct (BlobBaseFee _).
Qed.
End exec.
