(* ===== verification/EvmRunFacts.v ===== *)
(** * The EVM: what a run guarantees

    Tables whose entries fit together ([op_ok]), one turn of the loop ([run_step_ok]), and
    by induction on the fuel the loop, [Run], the calls and the creations: no panic, gas
    that only decreases, the state changed as [EvmRel] allows, and an end before the fuel
    is used up when there is more fuel than gas. *)
From Stdlib Require Import ZArith Lia.
From Stdlib Require Strings.Byte.
From stdpp Require Import base tactics decidable list numbers gmap.
From S2P Require Import Prelude Keccak Common Rlp Precompiles Evm EvmGas EvmTable EvmOps EvmRun EvmLogic EvmAnalysis EvmMemory EvmGasFacts EvmOpsFacts.

(** ** Tables *)

#[export] Instance memorySizeFunc_eq_dec : EqDecision memorySizeFunc.
Proof. solve_decision. Defined.

#[export] Instance callGasFunc_eq_dec : EqDecision callGasFunc.
Proof. solve_decision. Defined.

#[export] Instance executionFunc_eq_dec : EqDecision executionFunc.
Proof. solve_decision. Defined.

(** The least dynamic price besides memory and calls. *)
Definition min_dynamic (g : gasFunc) : Z :=
  match g with
  | gasExpFrontier | gasExpEIP158 => ExpGas
  | makeGasLog _ => LogGas
  | gasSStore | gasSStoreEIP2200 | makeGasSStoreFunc _ | gasSLoadEIP2929 => WarmStorageReadCostEIP2929
  | _ => 0
  end.

Definition topics_ok (g : gasFunc) : bool := match g with makeGasLog n => (n <=? 4)%nat | _ => true end.

(** The stack bounds fit the arity, the memory function fits the instruction, the gas
    function finds its operands and pays for memory and calls, and an operation that does
    not end the call costs something. *)
Definition op_ok (env : Env) (op : operation) : bool :=
  let ex := execute op in
  well_formed env ex
  && (fst (arity ex) <=? min_stack op)%nat && (max_stack op + snd (arity ex) <=? 1024 + fst (arity ex))%nat
  && match memory_use ex with Some m => bool_decide (memorySize op = Some m) | None => true end
  && match memorySize op with Some m => (memory_depth m <=? min_stack op)%nat | None => true end
  && match dynamicGas op with
     | Some g => (gas_depth g <=? min_stack op)%nat && (charges_memory g || bool_decide (memorySize op = None)) && topics_ok g
                 && (bool_decide (exec_kind ex = None) || bool_decide (exec_kind ex = call_kind g))
     | None => bool_decide (memorySize op = None) && bool_decide (exec_kind ex = None)
     end
  && (halts ex || (1 <=? constantGas op) || (1 <=? match dynamicGas op with Some g => min_dynamic g | None => 0 end))
  && (0 <=? constantGas op).

(** A table with an entry for every opcode, in which the byte that stands for the missing
    code stops. *)
Definition table_ok (env : Env) : bool :=
  (256 <=? length (table env))%nat && forallb (op_ok env) (table env)
  && match table env !! 0%nat with Some op => bool_decide (execute op = opStop) | None => false end.

Lemma op_ok_spec env op :
  op_ok env op = true →
  well_formed env (execute op) = true ∧ (fst (arity (execute op)) <= min_stack op)%nat ∧
  (max_stack op + snd (arity (execute op)) <= 1024 + fst (arity (execute op)))%nat ∧
  (∀ m, memory_use (execute op) = Some m → memorySize op = Some m) ∧
  (∀ m, memorySize op = Some m → (memory_depth m <= min_stack op)%nat) ∧
  (∀ g, dynamicGas op = Some g → (gas_depth g <= min_stack op)%nat ∧ (charges_memory g = false → memorySize op = None) ∧
     (∀ n, g = makeGasLog n → (n <= 4)%nat) ∧ (∀ k, exec_kind (execute op) = Some k → call_kind g = Some k)) ∧
  (dynamicGas op = None → memorySize op = None ∧ exec_kind (execute op) = None) ∧
  (halts (execute op) = false → 1 <= constantGas op ∨ ∃ g, dynamicGas op = Some g ∧ 1 <= min_dynamic g) ∧
  0 <= constantGas op.
Proof.
  unfold op_ok. rewrite !andb_true_iff, !Nat.leb_le. intros [[[[[[[Hwf Ha] Hmax] Hmem] Hdep] Hdyn] Hcost] Hc].
  split_and!; [done|done|done| | | | | |lia].
  - intros m E. rewrite E in Hmem. by apply bool_decide_eq_true in Hmem.
  - intros m E. rewrite E in Hdep. by apply Nat.leb_le in Hdep.
  - intros g E. rewrite E in Hdyn. rewrite !andb_true_iff, !orb_true_iff, Nat.leb_le, !bool_decide_eq_true in Hdyn.
    destruct Hdyn as [[[Hd Hch] Ht] Hk]. split_and!; [done| | |].
    + intros E'. rewrite E' in Hch. destruct Hch; [discriminate|done].
    + intros n ->. by apply Nat.leb_le in Ht.
    + intros k E'. destruct Hk; congruence.
  - intros E. rewrite E in Hdyn. rewrite andb_true_iff, !bool_decide_eq_true in Hdyn. done.
  - intros E. rewrite E in Hcost. cbn [orb] in Hcost. apply orb_true_iff in Hcost as [?|Hd]; [left; lia|right].
    destruct (dynamicGas op) as [g|]; [|done]. exists g. split; [done|lia].
Qed.

(** The price that an operation has besides its memory and what it hands on. *)
Lemma surcharge_min g temp st : call_kind g = None → surcharge g temp st = min_dynamic g.
Proof. by destruct g. Qed.

Lemma surcharge_call g k temp st : call_kind g = Some k → surcharge g temp st = temp + value_price k st.
Proof. destruct g; intros [= <-]; done. Qed.

Lemma surcharge_nonneg g temp st : (call_kind g ≠ None → is_u64 temp) → 0 <= surcharge g temp st.
Proof.
  intros Ht. destruct (call_kind g) as [k|] eqn:E.
  - rewrite (surcharge_call _ k) by done. pose proof (value_price_stipend k st). assert (is_u64 temp) as Hu by (by apply Ht).
    unfold is_u64 in Hu. lia.
  - rewrite surcharge_min by done. destruct g; try discriminate; by vm_compute.
Qed.

Section turn.
Context {S : Type} `{StateDBLaws S} `{Uint256Laws} (R : bool → S → S → Prop) `{!EvmRel R}.
Context (env : Env) (Henv : env_ok env) (Htable : table_ok env = true).
Implicit Types (e : EVM S) (f : Frame).

(** What holds between two turns. *)
Record turn_ok f : Prop := {
  turn_frame : frame_ok f;
  turn_stack : (length (stack f) <= 1024)%nat;
  turn_pc : is_u64 (pc f)
}.

(** The words of the memory, and the gas with what it cost. *)
Definition words (f : Frame) : Z := mem_Len (mem f) / 32.
Definition potential (f : Frame) : Z := Gas (contract f) + memory_fee (words f).

Definition turn_post (n : nat) e f (r : out bytes) (s : EVM S * Frame) : Prop :=
  match r with
  | Ret _ =>
      Keep R e (fst s) ∧ same_contract (contract f) (contract (snd s)) ∧ turn_ok (snd s) ∧
      Gas (contract (snd s)) < Gas (contract f) ∧ potential (snd s) < potential f
  | Fail _ _ => Keep R e (fst s) ∧ spent (contract f) (contract (snd s))
  | Crash => False
  | DbCrash => True
  | NoFuel => Z.of_nat n < Gas (contract f)
  end.

Lemma table_lookup f : is_u64 (pc f) → ∃ op,
  table env !! Z.to_nat (GetOp (contract f) (pc f)) = Some op ∧ op_ok env op = true ∧
  (execute op = opStop ∨ pc f < Z.of_nat (length (Code (contract f)))).
Proof.
  intros Hpc. unfold table_ok in Htable. rewrite !andb_true_iff, Nat.leb_le, forallb_forall in Htable. destruct Htable as [[Hlen Hall] H0'].
  destruct (lookup_lt_is_Some_2 (table env) (Z.to_nat (GetOp (contract f) (pc f)))) as [op Hop].
  { pose proof (GetOp_range (contract f) (pc f)). lia. }
  exists op. split; [done|]. split; [apply Hall; by eapply list_elem_of_In, list_elem_of_lookup_2|].
  destruct (decide (pc f < Z.of_nat (length (Code (contract f))))) as [|Hge]; [by right|left].
  assert (GetOp (contract f) (pc f) = 0) as E.
  { unfold GetOp. rewrite lookup_ge_None_2; [done|]. lia. }
  rewrite E in Hop. change (Z.to_nat 0) with 0%nat in Hop. rewrite Hop in H0'. by apply bool_decide_eq_true in H0'.
Qed.

Lemma wp_charge cost (Q : out () → EVM S * Frame → Prop) e f :
  (cost <= Gas (contract f) → Q (Ret ()) (e, set_contract (set_Gas (Gas (contract f) - cost) (contract f)) f)) →
  Q (Fail ErrOutOfGas []) (e, f) → wp (charge cost) Q (e, f).
Proof.
  intros HQ HF. unfold charge. apply wp_bind, wp_get_contract. cbn [bind_post]. case_decide; [done|].
  apply wp_mod_contract. apply HQ. lia.
Qed.

Lemma wp_validate_stack op (Q : out () → EVM S * Frame → Prop) e f :
  ((min_stack op <= length (stack f))%nat → (length (stack f) <= max_stack op)%nat → Q (Ret ()) (e, f)) →
  (∀ err, Q (Fail err []) (e, f)) → wp (validate_stack op) Q (e, f).
Proof.
  intros HQ HF. unfold validate_stack. apply wp_bind, wp_get_frame. cbn [bind_post]. repeat case_decide; [apply HF|apply HF|].
  apply wp_ret, HQ; lia.
Qed.

(** The memory that is asked for: whole words, covering every range. *)
Lemma wp_required_memory op (Q : out Z → EVM S * Frame → Prop) e f :
  Forall is_word (stack f) → (∀ m, memorySize op = Some m → (memory_depth m <= length (stack f))%nat) →
  (∀ size, size mod 32 = 0 → 0 <= size → (memorySize op = None → size = 0) →
    (∀ m, memorySize op = Some m → Forall (covered size) (ranges m (stack f))) → Q (Ret size) (e, f)) →
  (∀ err, Q (Fail err []) (e, f)) → wp (required_memory op) Q (e, f).
Proof.
  intros W Hd HQ HF. unfold required_memory. destruct (memorySize op) as [m|] eqn:Em; [|apply wp_ret, HQ; done].
  apply wp_bind, wp_get_frame. cbn [bind_post]. destruct (memorySize_of_ok m (stack f) W (Hd m eq_refl)) as (size & ov & E & Hc).
  rewrite E. apply wp_bind. cbn [of_opt]. apply wp_ret. cbn [bind_post]. destruct ov; [apply wp_throw, HF|].
  destruct Hc as [Hu Hc]; [done|]. destruct (toWordSize_ok _ Hu) as [Hw Hle]. apply wp_safe_mul; [done|done| |apply HF]. intros Hm.
  apply HQ; [apply Z.mod_mul; lia|unfold is_u64 in Hm; lia|done|]. intros m' [= <-].
  eapply Forall_impl; [exact Hc|]. intros r. by apply covered_mono.
Qed.

Lemma frame_ok_Gas g f : frame_ok f → 0 <= g <= Gas (contract f) → frame_ok (set_contract (set_Gas g (contract f)) f).
Proof.
  intros [C G W M] Hg. split; [by apply contract_ok_Gas|cbn; unfold is_u64 in *; lia|done|done].
Qed.

(** ** Dynamic gas in the loop *)

Lemma wp_wrap_error {A} (run : Op S A) (Q : out A → EVM S * Frame → Prop) s :
  wp run (λ r s', match r with Fail e _ => Q (Fail (ErrDynamicGas e) []) s' | _ => Q r s' end) s → wp (wrap_error run) Q s.
Proof. unfold wp, wrap_error. destruct (run s) as [[] s']; done. Qed.

(** What has been charged: [c] for the memory [m], and the price of the gas function. *)
Definition charged (op : operation) e f (size cost c : Z) (m : Memory) e' : Prop :=
  size mod 32 = 0 ∧ paid (mem f) size c m ∧ Keep R e e' ∧ 0 <= cost <= Gas (contract f) ∧
  (∀ ms, memorySize op = Some ms → Forall (covered size) (ranges ms (stack f))) ∧
  match dynamicGas op with
  | Some g => c + surcharge g (callGasTemp e') (stack f) <= cost ∧ (call_kind g ≠ None → is_u64 (callGasTemp e'))
  | None => cost = 0 ∧ c = 0
  end.

Lemma wp_charge_dynamic op (Q : out Z → EVM S * Frame → Prop) e f :
  op_ok env op = true → frame_ok f → (min_stack op <= length (stack f))%nat →
  (∀ size cost c m e', charged op e f size cost c m e' →
    Q (Ret size) (e', set_contract (set_Gas (Gas (contract f) - cost) (contract f)) (set_mem m f))) →
  (∀ e' f' err, Keep R e e' → spent (contract f) (contract f') → Q (Fail err []) (e', f')) → (∀ s, Q DbCrash s) →
  wp (charge_dynamic env op) Q (e, f).
Proof.
  intros Hop Hf Hl HQ HF HD. destruct (op_ok_spec _ _ Hop) as (_ & _ & _ & _ & Hdep & Hdyn & Hnone & _ & _).
  pose proof (ok_gas f Hf) as HG. pose proof (ok_mem f Hf) as HM.
  assert (∀ err, Q (Fail err []) (e, f)) as HF' by (intros; apply HF; [reflexivity|by apply spent_refl]).
  unfold charge_dynamic. destruct (dynamicGas op) as [g|] eqn:Eg.
  - destruct (Hdyn g eq_refl) as (Hgd & Hch & Hlog & _). apply wp_bind, wp_required_memory; [apply Hf| | |done].
    { intros m Em. specialize (Hdep m Em). lia. }
    intros size Hs Hpos Hno Hcov. cbn [bind_post]. apply wp_bind, wp_wrap_error.
    eapply wp_mono; [apply (dynamicGas_of_ok R (chainRules env) size Hs Hpos g e f Hf); [lia|done|by intros ?; apply Hno, Hch]|].
    intros [cost|err ret| | |] [e' f'] Hpost; cbn [bind_post]; [|by apply HF; apply Hpost|done|apply HD|done].
    destruct Hpost as (K & Hc & c & m & Hp & Ef & Hle & Ht). cbn [fst snd] in *. subst f'.
    destruct (paid_nonneg _ _ _ _ HM Hp) as [Hcpos _].
    apply wp_bind, wp_charge; cbn [bind_post].
    + intros Hcost. apply wp_ret. cbn [contract set_mem] in *. apply (HQ size cost c m e'). unfold charged. rewrite Eg.
      split_and!; [done|done|done|unfold is_u64 in Hc; lia|done|done|done|done].
    + apply HF; [done|exact (spent_refl f Hf)].
  - destruct Hnone as [Em _]; [done|]. apply wp_ret.
    assert (paid (mem f) 0 0 (mem f)) as Hp.
    { destruct HM as [W Sz F]. split_and!; [done|unfold memory_limit; lia|rewrite Z.max_l; [done|unfold mem_Len; lia]|lia]. }
    assert (charged op e f 0 0 0 (mem f) e) as Hch.
    { unfold charged. rewrite Eg, Em. split_and!; [done|done|reflexivity|unfold is_u64 in HG; lia|unfold is_u64 in HG; lia|done|done|done]. }
    specialize (HQ _ _ _ _ _ Hch). rewrite Z.sub_0_r in HQ. destruct f as [? ? ? []]. exact HQ.
Qed.

(** ** One turn *)

(** The gas that goes with a call is paid for, and an operation that goes on costs more. *)
Lemma charged_handed op e f size cost c m e' :
  op_ok env op = true → charged op e f size cost c m e' → let h := handed (execute op) e' (stack f) in
  0 <= h ∧ c + h <= cost ∧ (halts (execute op) = false → c + h < constantGas op + cost) ∧
  (∀ k, exec_kind (execute op) = Some k → is_u64 (callGasTemp e')).
Proof.
  intros Hok (_ & _ & _ & Hc & _ & Hsur) h.
  destruct (op_ok_spec _ _ Hok) as (_ & _ & _ & _ & _ & Hdyn & Hnone & Hcost & Hconst).
  destruct (dynamicGas op) as [g|] eqn:Eg.
  - destruct Hsur as [Hsur Ht]. pose proof (surcharge_nonneg g (callGasTemp e') (stack f) Ht) as H0'.
    destruct (Hdyn g eq_refl) as (_ & _ & _ & Hk). unfold h, handed. destruct (exec_kind (execute op)) as [k|] eqn:Ek.
    + specialize (Hk k eq_refl). assert (is_u64 (callGasTemp e')) as Hu by (apply Ht; by rewrite Hk).
      rewrite (surcharge_call _ k) in Hsur by done. pose proof (value_price_stipend k (stack f)).
      split_and!; [unfold is_u64 in Hu; lia|lia| |done]. intros Hh. destruct (Hcost Hh) as [?|(g' & [= <-] & Hmin)]; [lia|].
      exfalso. clear -Hk Hmin. destruct g; try discriminate; by vm_compute in Hmin.
    + split_and!; [lia|lia| |done]. intros Hh. destruct (Hcost Hh) as [?|(g' & [= <-] & Hmin)]; [lia|].
      rewrite surcharge_min in Hsur; [lia|]. clear -Hmin. by destruct g.
  - destruct (Hnone eq_refl) as [_ Ek]. unfold h, handed. rewrite Ek. split_and!; [lia|lia| |done].
    intros Hh. destruct (Hcost Hh) as [?|(g' & ? & _)]; [lia|done].
Qed.

(** What an instruction does with the frame that [run_step] prepares for it. *)
Lemma exec_turn op callees n e f size cost c m e1 :
  callees_ok R callees n → turn_ok f → cache_ok (jumpDests e) → op_ok env op = true →
  (execute op = opStop ∨ pc f < Z.of_nat (length (Code (contract f)))) →
  (min_stack op <= length (stack f))%nat → (length (stack f) <= max_stack op)%nat → constantGas op <= Gas (contract f) →
  charged op e (set_contract (set_Gas (Gas (contract f) - constantGas op) (contract f)) f) size cost c m e1 →
  wp (exec_fn env callees (execute op)) (turn_post n e f)
    (e1, MkFrame (pc f) (stack f) (mem_Resize m size) (set_Gas (Gas (contract f) - constantGas op - cost) (contract f))).
Proof.
  intros Hcallees [Hf Hst Hpc] Hcache Hok Hcode Hl1 Hl2 Hle Hch.
  destruct (op_ok_spec _ _ Hok) as (Hwf & Hmin & Hmax & Hmem & _ & _ & _ & _ & Hconst).
  destruct (charged_handed _ _ _ _ _ _ _ _ Hok Hch) as (Hh0 & Hh1 & Hh2 & Ht). destruct Hch as (Hs32 & Hp & K1 & Hc & Hcov & _).
  pose proof (ok_gas f Hf) as HG. cbn [contract set_contract set_Gas Gas stack mem] in *.
  destruct (paid_nonneg _ _ _ _ (ok_mem _ Hf) Hp) as [Hcpos Hlast]. destruct (paid_resize _ _ _ _ (ok_mem _ Hf) Hs32 Hp) as (HM3 & HL3 & HLC3).
  set (f3 := MkFrame _ _ _ _). set (h := handed (execute op) e1 (stack f)) in *.
  assert (frame_ok f3) as Hf3.
  { destruct Hf as [C _ W M]. split; [by apply contract_ok_Gas|cbn; unfold is_u64 in *; lia|done|done]. }
  eapply wp_mono; [apply (exec_fn_ok R env callees n (execute op) e1 f3 Henv Hcallees Hwf)|].
  - split; [done|by apply (keep_jumpDests _ _ _ K1)|cbn; lia| | |done|done].
    + intros ms Ems. cbn [mem stack f3]. eapply Forall_impl; [apply Hcov, Hmem, Ems|]. intros r. apply covered_mono.
      unfold f3. cbn [mem]. lia.
    + intros k Ek. split; [by apply (Ht k)|]. cbn. unfold h, handed in *. rewrite Ek in *. unfold is_u64 in *. lia.
  - intros [b|err b| | |] [e2 f2]; cbn [exec_post turn_post fst snd]; [| |done|done|].
    + intros (Hh & K & Sc & Hc2 & HG2 & [Sm1 Sm2] & W2 & L2 & P2). specialize (Hh2 Hh).
      change (handed (execute op) e1 (stack f3)) with h in HG2. change (Gas (contract f3)) with (Gas (contract f) - constantGas op - cost) in HG2.
      assert (mem_Len (mem f2) = mem_Len (mem f3)) as EL by (unfold mem_Len; by rewrite Sm1).
      assert (mem_ok (mem f2)) as HM2 by (destruct HM3; split; rewrite ?EL, ?Sm2; done).
      change (mem f3) with (mem_Resize m size) in *.
      split_and!; [by transitivity e1|by transitivity (contract f3)|split; [split; [done|unfold is_u64 in *; lia|done|done]|cbn in L2; lia|done]|lia|].
      pose proof (ok_fee _ HM2) as F2. pose proof (ok_fee _ (ok_mem _ Hf)) as F0. unfold potential, words. rewrite <- F2, <- F0, Sm2, HLC3. lia.
    + intros (K & Sc & Hc2 & HG2). change (Gas (contract f3)) with (Gas (contract f) - constantGas op - cost) in HG2.
      split; [by transitivity e1|]. split_and!; [by transitivity (contract f3)|done|lia|lia].
    + intros [Hh Hn]. specialize (Hh2 Hh). assert (budget (execute op) e1 f3 <= Gas (contract f) - constantGas op - cost + h) as Hb.
      { unfold budget. change (handed (execute op) e1 (stack f3)) with h. change (Gas (contract f3)) with (Gas (contract f) - constantGas op - cost).
        destruct (execute op); lia. }
      lia.
Qed.

Lemma run_step_ok callees n e f :
  callees_ok R callees n → turn_ok f → cache_ok (jumpDests e) → wp (run_step env callees) (turn_post n e f) (e, f).
Proof.
  intros Hcallees Hok Hcache. pose proof Hok as [Hf Hst Hpc]. destruct (table_lookup f Hpc) as (op & Hop & Hopok & Hcode).
  destruct (op_ok_spec _ _ Hopok) as (_ & _ & _ & _ & _ & _ & _ & _ & Hconst).
  unfold run_step. apply wp_bind, wp_get_frame. cbn [bind_post]. apply wp_bind, wp_get_frame. cbn [bind_post].
  rewrite Hop. apply wp_bind. cbn [of_opt]. apply wp_ret. cbn [bind_post].
  assert (∀ err, turn_post n e f (Fail err []) (e, f)) as HF by (intros; split; [reflexivity|exact (spent_refl f Hf)]).
  apply wp_bind, wp_validate_stack; [|exact HF]. intros Hl1 Hl2. cbn [bind_post].
  apply wp_bind, wp_charge; [|apply HF]. intros Hle. cbn [bind_post].
  assert (frame_ok (set_contract (set_Gas (Gas (contract f) - constantGas op) (contract f)) f)) as Hf1 by (apply frame_ok_Gas; [done|lia]).
  apply wp_bind, (wp_charge_dynamic op); [done|done|done| | |done].
  2: { intros e' f' err K (Sc & Hc' & HG'). split; [done|]. split_and!; [done|done|apply HG'|]. cbn in HG' |- *. lia. }
  intros size cost c m e1 Hch. pose proof (exec_turn op callees n e f size cost c m e1 Hcallees Hok Hcache Hopok Hcode Hl1 Hl2 Hle Hch) as Hexec.
  cbn [bind_post]. apply wp_bind. case_decide as Hsize.
  - apply wp_mod_frame. cbn [bind_post]. exact Hexec.
  - apply wp_ret. cbn [bind_post].
    assert (mem_Resize m size = m) as E; [|by rewrite E in Hexec].
    unfold mem_Resize. rewrite decide_False; [done|]. unfold mem_Len. lia.
Qed.

(** ** The loop *)

Definition loop_post (n : nat) e f (r : out bytes) (s : EVM S * Frame) : Prop :=
  match r with
  | Ret _ => False
  | Fail _ _ => Keep R e (fst s) ∧ spent (contract f) (contract (snd s))
  | Crash => False
  | DbCrash => True
  | NoFuel => Z.of_nat n <= Gas (contract f)
  end.

Definition loop_ok (loop : Op S bytes) (n : nat) : Prop :=
  ∀ e f, turn_ok f → cache_ok (jumpDests e) → wp loop (loop_post n e f) (e, f).

(** A turn, and the loop from the next instruction. *)
Lemma loop_turn callees loop n :
  callees_ok R callees n → loop_ok loop n →
  loop_ok (_ ← run_step env callees; mod_frame (λ f, set_pc (u64 (pc f + 1)) f);; loop) (Datatypes.S n).
Proof.
  intros Hcallees Hloop e f Hok Hcache. apply wp_bind. eapply wp_mono; [by apply (run_step_ok callees n)|].
  intros [b|err b| | |] [e' f']; cbn [turn_post bind_post fst snd]; [|done|done|done|unfold loop_post; lia].
  intros (K & Sc & [Hf Hst _] & HG & _). apply wp_bind, wp_mod_frame. cbn [bind_post].
  eapply wp_mono; [apply Hloop|].
  - split; [destruct Hf; by split|done|apply u64_range].
  - by apply (keep_jumpDests _ _ _ K).
  - intros [b'|err b'| | |] [e2 f2]; cbn [loop_post fst snd]; [done| |done|done|cbn; lia].
    intros (K2 & Sc2 & Hc2 & HG2). cbn in HG2. split; [by transitivity e'|]. split_and!; [by transitivity (contract f')|done|lia|lia].
Qed.

(** ** [Run] *)

(** From [e] to [e'] in the mode [b]. *)
Record kept (b : bool) e e' : Prop := {
  kept_depth : depth e' = depth e;
  kept_readOnly : readOnly e' = readOnly e;
  kept_db : R b (db e) (db e');
  kept_jumpDests : cache_ok (jumpDests e') 
}.

Lemma kept_Keep b e e' : (b = true ∨ b = readOnly e) → kept b e e' → Keep R e e'.
Proof.
  intros Hb [D O K J]. split; [done|done| |done]. destruct Hb as [->| ->]; [by apply R_weaken|done].
Qed.

Definition run_post (b : bool) (n : nat) e (c : Contract) (r : out (bytes * option evm_error * Contract)) (e' : EVM S) : Prop :=
  match r with
  | Ret (_, _, c') => kept b e e' ∧ contract_ok c' ∧ 0 <= Gas c' <= Gas c
  | Fail _ _ => False
  | Crash => False
  | DbCrash => True
  | NoFuel => Z.of_nat n <= Gas c
  end.

Lemma Run_ok loop n c input ro e :
  loop_ok loop n → contract_ok c → Z.of_nat (length input) < code_limit → is_u64 (Gas c) → cache_ok (jumpDests e) →
  wp (Run loop c input ro) (run_post (ro || readOnly e) n e c) e.
Proof.
  intros Hloop Hc Hin HG Hcache. unfold wp, Run. set (unset := ro && negb (readOnly e)).
  set (e1 := set_returnData [] (if unset then set_readOnly true (set_depth (depth e + 1) e) else set_depth (depth e + 1) e)).
  change (readOnly (set_depth (depth e + 1) e)) with (readOnly e). fold unset. fold e1.
  assert (depth e1 = depth e + 1 ∧ readOnly e1 = ro || readOnly e ∧ db e1 = db e ∧ jumpDests e1 = jumpDests e) as (D1 & O1 & S1 & J1).
  { unfold e1, unset. destruct ro, (readOnly e) eqn:E; cbn; rewrite ?E; done. }
  assert (∀ e2, Keep R e1 e2 → kept (ro || readOnly e) e (leave unset e2)) as Hleave.
  { intros e2 [D2 O2 K2 J2]. split.
    - destruct unset; cbn; lia.
    - rewrite O1 in O2. unfold unset. destruct ro, (readOnly e) eqn:E; cbn in *; congruence.
    - rewrite O1, S1 in K2. by destruct unset.
    - rewrite J1 in J2. destruct unset; cbn; auto. }
  assert (contract_ok (set_Input input c)) as Hc' by (destruct Hc; by split).
  destruct (decide (Code c = [])) as [_|_].
  { cbn [run_post]. split_and!; [apply Hleave; reflexivity|done|unfold is_u64 in HG; lia..]. }
  assert (turn_ok (MkFrame 0 [] NewMemory (set_Input input c))) as Ht.
  { split; [split; [done|done|constructor|by split; vm_compute]|cbn; lia|by vm_compute]. }
  pose proof (Hloop e1 _ Ht) as Hl. rewrite J1 in Hl. specialize (Hl Hcache). unfold wp in Hl.
  destruct (loop _) as [[b|err b| | |] [e2 f2]]; cbn [loop_post run_post fst snd] in *; [done| |done|done|exact Hl].
  destruct Hl as (K & Sc & Hc2 & HG2). split_and!; [by apply Hleave|done|apply HG2|apply HG2].
Qed.

(** ** Calls *)

Context {E : Type} (PrecompiledRun : PrecompiledContract → bytes → res E bytes).

Lemma wp_get {A} (g : S → A) (Q : out A → EVM S → Prop) e : Q (Ret (g (db e))) e → wp (get g) Q e.
Proof. done. Qed.

Lemma wp_put g (Q : out () → EVM S → Prop) e : Q (Ret ()) (set_db (g (db e)) e) → wp (put g) Q e.
Proof. done. Qed.

Lemma wp_take_snapshot (Q : out Z → EVM S → Prop) e :
  Q (Ret (fst (Snapshot (db e)))) (set_db (snd (Snapshot (db e))) e) → wp take_snapshot Q e.
Proof. intros HQ. unfold wp, take_snapshot. by destruct (Snapshot (db e)). Qed.

(** A call in the mode [b] that has [gas]. *)
Definition call_post (b : bool) (n : nat) (gas : Z) e (r : out CallResult) (e' : EVM S) : Prop :=
  match r with
  | Ret a => kept b e e' ∧ 0 <= call_left a <= gas
  | Fail _ _ => False
  | Crash => False
  | DbCrash => True
  | NoFuel => Z.of_nat n <= gas
  end.

Lemma call_post_result b n gas e r e' : (b = true ∨ b = readOnly e) → call_post b n gas e r e' → result_ok R n e gas call_left r e'.
Proof. intros Hb. destruct r; cbn; try done. intros [K Hl]. split; [by eapply kept_Keep|done]. Qed.

Lemma kept_refl b e : cache_ok (jumpDests e) → kept b e e.
Proof. split; [done|done|apply R_refl|done]. Qed.

Lemma call_post_ret b n gas e a : cache_ok (jumpDests e) → 0 <= call_left a <= gas → call_post b n gas e (Ret a) e.
Proof. intros Hc Hl. split; [by apply kept_refl|done]. Qed.

Lemma call_post_gas b n gas e ret err : cache_ok (jumpDests e) → is_u64 gas → call_post b n gas e (Ret (ret, gas, err)) e.
Proof. intros Hc Hg. apply call_post_ret; [done|]. unfold is_u64 in Hg. unfold call_left. cbn. lia. Qed.

(** The account whose code runs: the target of a delegation from Prague on. *)
Definition resolved (addr : Address) (s : S) : Address :=
  if IsPrague (chainRules env) then match ParseDelegation (GetCode addr s) with Some target => target | None => addr end else addr.

Lemma resolveCode_eq addr e : resolveCode env addr e = (Ret (GetCode (resolved addr (db e)) (db e)), e).
Proof. unfold resolveCode, resolved, get, gets, mbind, ST_bind. destruct (IsPrague _); [|done]. by destruct (ParseDelegation (GetCode addr (db e))). Qed.

Lemma resolveCodeHash_eq addr e : resolveCodeHash env addr e = (Ret (GetCodeHash (resolved addr (db e)) (db e)), e).
Proof. unfold resolveCodeHash, resolved, get, gets, mbind, ST_bind. destruct (IsPrague _); [|done]. by destruct (ParseDelegation (GetCode addr (db e))). Qed.

Lemma run_code_ok loop n c addr input ro e :
  loop_ok loop n → analysis c = None → Input c = [] → is_word (value c) → Z.of_nat (length input) < code_limit → is_u64 (Gas c) →
  cache_ok (jumpDests e) → wp (run_code env loop c addr input ro) (call_post (ro || readOnly e) n (Gas c) e) e.
Proof.
  intros Hloop Ha Hi Hv Hin HG Hcache. unfold run_code. apply wp_bind. unfold wp at 1. rewrite resolveCodeHash_eq. cbn [bind_post].
  apply wp_bind. unfold wp at 1. rewrite resolveCode_eq. cbn [bind_post]. apply wp_bind.
  eapply wp_mono; [apply (Run_ok loop n); [done| |done|done|done]|].
  - split; cbn; [apply GetCode_limit|by rewrite Hi|done|apply GetCode_hash|by rewrite Ha].
  - intros [[[ret err] c']|err ret| | |] e'; cbn [run_post bind_post]; [|done..]. intros (K & _ & HG'). apply wp_ret. by split.
Qed.

Lemma RequiredGas_nonneg {E'} p input gas : RequiredGas (E := E') p input = Ok gas → 0 <= gas.
Proof.
  assert (∀ z, 0 <= u64 z) as Hu by (intros z; pose proof (u64_range z); unfold is_u64 in *; lia).
  assert (∀ z d, 0 < d → 0 <= u64 z / d) as Hd by (intros; apply Z.div_pos; auto).
  assert (0 <= MaxUint64) as Hmax by done.
  destruct p; cbn [RequiredGas]; try (intros [= <-]; unfold word_gas, multiexp_gas, Groth16VerifyGas; try case_decide; auto with lia; try lia; fail).
  - unfold bigModExp_RequiredGas. intros Eg. repeat (match type of Eg with (mbind _ ?x = _) => destruct x; [|done|done]; cbn [mbind res_bind] in Eg end).
    injection Eg as <-.
    destruct eip7883; [|destruct eip2565].
    + unfold osakaModexpGas. case_decide; [done|]. unfold Mul64. case_decide; [done|]. lia.
    + unfold berlinModexpGas. case_decide; [done|]. unfold Mul64. case_decide; [done|]. lia.
    + unfold byzantiumModexpGas. case_decide; [done|]. unfold Mul64. case_decide; [done|]. by apply Hd.
  - intros [= <-]. case_decide; [done|]. apply SetBytes_range.
Qed.

Lemma run_precompiled_ok b n p input gas e :
  is_u64 gas → cache_ok (jumpDests e) → wp (run_precompiled (S := S) PrecompiledRun p input gas) (call_post b n gas e) e.
Proof.
  intros Hg Hcache. unfold run_precompiled, RunPrecompiledContract. destruct (RequiredGas p input) as [cost| |] eqn:Ec; [|done|done].
  apply RequiredGas_nonneg in Ec. unfold is_u64 in Hg. case_decide.
  { apply wp_ret, call_post_ret; [done|]. unfold call_left. cbn. lia. }
  rewrite u64_small by (unfold is_u64; lia).
  destruct (PrecompiledRun p input); [..|done]; (apply wp_ret, call_post_ret; [done|]; unfold call_left; cbn; lia).
Qed.

(** The state after the snapshot and the preparation of a call. *)
Definition prepared (b : bool) e e1 : Prop :=
  depth e1 = depth e ∧ readOnly e1 = readOnly e ∧ jumpDests e1 = jumpDests e ∧ R b (snd (Snapshot (db e))) (db e1).

(** The state is as before, or reverted to the snapshot of the start. *)
Definition undone (s s' : S) : Prop :=
  s' = s ∨ ∃ s1, R false (snd (Snapshot s)) s1 ∧ s' = RevertToSnapshot (fst (Snapshot s)) s1.

(** The end of a call: with an error, all that it did is undone. *)
Definition call_end (b : bool) (n : nat) (gas : Z) e (r : out CallResult) (e' : EVM S) : Prop :=
  call_post b n gas e r e' ∧ ∀ ret left err, r = Ret (ret, left, Some err) → undone (db e) (db e').

Lemma call_end_gas b n gas e ret err : cache_ok (jumpDests e) → is_u64 gas → call_end b n gas e (Ret (ret, gas, err)) e.
Proof. intros. split; [by apply call_post_gas|]. intros. by left. Qed.

Lemma R_any b s s' : R b s s' → R false s s'.
Proof. destruct b; [apply R_weaken|done]. Qed.

(** The snapshot, what runs after it, and the end of a call. *)
Lemma finish_ok b n gas e e1 (body : ST (EVM S) CallResult) :
  prepared b e e1 → wp body (call_post b n gas e1) e1 → 0 <= gas →
  wp (r ← body; finish (fst (Snapshot (db e))) r) (call_end b n gas e) e1.
Proof.
  intros (D1 & O1 & J1 & K1) Hbody Hgas. apply wp_bind. eapply wp_mono; [exact Hbody|].
  intros [[[ret left] err]|err ret| | |] e2; cbn [call_post bind_post]; [|done|done|done|by split].
  unfold call_left. cbn [fst snd]. intros [[D2 O2 K2 J2] Hl]. assert (R b (snd (Snapshot (db e))) (db e2)) as K by (by eapply R_trans).
  unfold finish. destruct err as [err|].
  - apply wp_bind, wp_put. cbn [bind_post]. apply wp_ret. split; [split|].
    + split; cbn; [congruence|congruence|by apply R_RevertToSnapshot|done].
    + unfold call_left. cbn. case_decide; lia.
    + intros _ _ _ _. right. exists (db e2). split; [by apply (R_any b)|done].
  - apply wp_ret. split; [|done]. split; [|done]. split; [congruence|congruence|eapply R_trans; [apply R_Snapshot|exact K]|done].
Qed.

Lemma UseGas_spent c gas b c' :
  0 <= gas → 0 <= Gas c → UseGas gas c = (b, c') → contract_ok c → contract_ok c' ∧ 0 <= Gas c' <= Gas c.
Proof. unfold UseGas. case_decide; intros ? ? [= <- <-] ?; [split; [done|lia]|split; [by apply contract_ok_Gas|cbn; lia]]. Qed.

Section calls.
Context (loop : Op S bytes) (n : nat) (Hloop : loop_ok loop n).

(** What a call runs: a precompiled contract, or the code of an account. *)
Lemma body_ok c addr input gas ro e :
  Gas c = gas → analysis c = None → Input c = [] → is_word (value c) → Z.of_nat (length input) < code_limit → is_u64 gas →
  cache_ok (jumpDests e) →
  wp match precompile env addr with Some p => run_precompiled PrecompiledRun p input gas | None => run_code env loop c addr input ro end
    (call_post (ro || readOnly e) n gas e) e.
Proof. intros <- ? ? ? ? ? ?. destruct (precompile env addr); [by apply run_precompiled_ok|by apply run_code_ok]. Qed.

(** The state after [take_snapshot]. *)
Lemma prepared_Snapshot b e : prepared b e (set_db (snd (Snapshot (db e))) e).
Proof. split_and!; [done|done|done|apply R_refl]. Qed.

Lemma prepared_put b e e1 g : prepared b e e1 → R b (db e1) (g (db e1)) → prepared b e (set_db (g (db e1)) e1).
Proof. intros (D & O & J & K) Hg. split_and!; [done|done|done|by eapply R_trans]. Qed.

Lemma prepared_back b e e1 : prepared b e e1 → R b (db e) (db e1).
Proof. intros (_ & _ & _ & K). eapply R_trans; [apply R_Snapshot|done]. Qed.

Lemma CallCode_end e caller addr input gas value :
  cache_ok (jumpDests e) → is_u64 gas → is_word value → Z.of_nat (length input) < code_limit →
  wp (CallCode PrecompiledRun env loop caller addr input gas value) (call_end (readOnly e) n gas e) e.
Proof.
  intros Hc Hg Hv Hin. unfold CallCode. apply wp_bind, wp_gets. cbn [bind_post]. case_decide; [by apply wp_ret, call_end_gas|].
  apply wp_bind, wp_get. cbn [bind_post]. destruct (CanTransfer _ _ _); cbn [negb]; [|by apply wp_ret, call_end_gas].
  apply wp_bind, wp_take_snapshot. cbn [bind_post].
  apply finish_ok; [apply prepared_Snapshot|by apply body_ok|apply Hg].
Qed.

Lemma DelegateCall_end e originCaller caller addr input gas value :
  cache_ok (jumpDests e) → is_u64 gas → is_word value → Z.of_nat (length input) < code_limit →
  wp (DelegateCall PrecompiledRun env loop originCaller caller addr input gas value) (call_end (readOnly e) n gas e) e.
Proof.
  intros Hc Hg Hv Hin. unfold DelegateCall. apply wp_bind, wp_gets. cbn [bind_post]. case_decide; [by apply wp_ret, call_end_gas|].
  apply wp_bind, wp_take_snapshot. cbn [bind_post].
  apply finish_ok; [apply prepared_Snapshot|by apply body_ok|apply Hg].
Qed.

Lemma StaticCall_end e caller addr input gas :
  cache_ok (jumpDests e) → is_u64 gas → Z.of_nat (length input) < code_limit →
  wp (StaticCall PrecompiledRun env loop caller addr input gas) (call_end true n gas e) e.
Proof.
  intros Hc Hg Hin. unfold StaticCall. apply wp_bind, wp_gets. cbn [bind_post]. case_decide; [by apply wp_ret, call_end_gas|].
  apply wp_bind, wp_take_snapshot. cbn [bind_post]. apply wp_bind, wp_put. cbn [bind_post].
  apply finish_ok; [apply prepared_put; [apply prepared_Snapshot|apply R_touch]| |apply Hg].
  apply (body_ok _ addr input gas true); try done.
Qed.

Lemma Call_body_ok c addr input gas b e0 e :
  Gas c = gas → analysis c = None → Input c = [] → is_word (value c) → Z.of_nat (length input) < code_limit → is_u64 gas →
  cache_ok (jumpDests e0) → prepared b e0 e →
  wp match precompile env addr with
     | Some p => run_precompiled PrecompiledRun p input gas
     | None => code ← resolveCode env addr; if decide (code = []) then mret ([], gas, None) else run_code env loop c addr input false
     end (call_post (readOnly e0) n gas e) e.
Proof.
  intros <- ? ? ? ? ? Hc (_ & <- & J & _). rewrite <- J in Hc. destruct (precompile env addr); [by apply run_precompiled_ok|].
  apply wp_bind. unfold wp at 1. rewrite resolveCode_eq. cbn [bind_post]. case_decide; [by apply wp_ret, call_post_gas|].
  by apply (run_code_ok loop n).
Qed.

Lemma Call_end e caller addr input gas value :
  cache_ok (jumpDests e) → is_u64 gas → is_word value → Z.of_nat (length input) < code_limit → (readOnly e = true → value = 0) →
  wp (Call PrecompiledRun env loop caller addr input gas value) (call_end (readOnly e) n gas e) e.
Proof.
  intros Hc Hg Hv Hin Hro. unfold Call. apply wp_bind, wp_gets. cbn [bind_post]. case_decide; [by apply wp_ret, call_end_gas|].
  apply wp_bind, wp_get. cbn [bind_post]. destruct (negb _ && _ && _) eqn:Hbal; [by apply wp_ret, call_end_gas|].
  apply wp_bind, wp_take_snapshot. cbn [bind_post]. apply wp_bind, wp_get. cbn [bind_post].
  set (e1 := set_db (snd (Snapshot (db e))) e). pose proof (prepared_Snapshot (readOnly e) e) as P1. fold e1 in P1.
  destruct (negb _ && _ && _ && _).
  { apply wp_ret. split; [|done]. split; [|unfold is_u64 in Hg; unfold call_left; cbn; lia]. split; [done|done|exact (prepared_back _ _ _ P1)|done]. }
  assert (∀ e2, prepared (readOnly e) e e2 → (isSystemCall caller = false → value ≠ 0 → CanTransfer (db e2) caller value = true) →
    wp ((if isSystemCall caller then mret () else put (λ db, Transfer db caller addr value));;
        r ← (match precompile env addr with
             | Some p => run_precompiled PrecompiledRun p input gas
             | None =>
                 code ← resolveCode env addr;
                 if decide (code = []) then mret ([], gas, None)
                 else run_code env loop (set_IsSystemCall (isSystemCall caller) (NewContract caller addr value gas)) addr input false
             end);
        finish (fst (Snapshot (db e))) r) (call_end (readOnly e) n gas e) e2) as Hrest.
  { intros e2 P2 Hcan.
    destruct (isSystemCall caller) eqn:Hsys.
    - apply wp_bind, wp_ret. cbn [bind_post]. apply finish_ok; [done|by eapply Call_body_ok|apply Hg].
    - apply wp_bind, wp_put. cbn [bind_post].
      assert (prepared (readOnly e) e (set_db (Transfer (db e2) caller addr value) e2)) as P3; [|apply finish_ok; [done|by eapply Call_body_ok|apply Hg]].
      apply (prepared_put _ _ _ (λ db, Transfer db caller addr value) P2). destruct (decide (value = 0)) as [->|Hnz]; [apply R_Transfer_zero|].
      destruct (readOnly e); [by specialize (Hro eq_refl)|]. by apply R_Transfer; [apply Hv|apply Hcan]. }
  assert (isSystemCall caller = false → value ≠ 0 → value <= GetBalance caller (db e)) as Hcan.
  { intros E1 E2. rewrite E1 in Hbal. unfold IsZero in Hbal. rewrite (bool_decide_eq_false_2 (value = 0)) in Hbal by done. cbn in Hbal.
    apply negb_false_iff, bool_decide_eq_true in Hbal. done. }
  destruct (Exist addr (db e1)) eqn:Hex.
  - apply wp_bind, wp_ret. cbn [bind_post]. apply Hrest; [done|]. intros. apply bool_decide_eq_true. cbn. rewrite GetBalance_Snapshot. auto.
  - apply wp_bind, wp_put. cbn [bind_post]. apply Hrest; [apply prepared_put; [done|by apply R_CreateAccount]|].
    intros. apply bool_decide_eq_true. cbn. rewrite GetBalance_CreateAccount by done. rewrite GetBalance_Snapshot. auto.
Qed.

(** ** Creations *)

(** [initNewContract] spends gas, and stores the code. *)
Lemma initNewContract_ok c address e :
  contract_ok c → is_u64 (Gas c) → cache_ok (jumpDests e) → readOnly e = false →
  wp (initNewContract env loop c address) (run_post false n e c) e.
Proof.
  intros Hc HG Hcache Hro. unfold initNewContract. apply wp_bind.
  eapply wp_mono; [by apply (Run_ok loop n)|]. rewrite Hro. cbn [orb].
  intros [[[ret err] c']|err ret| | |] e'; cbn [run_post bind_post]; [|done..]. intros (K & Hc' & HG').
  case_decide; [by apply wp_ret|]. destruct (_ && _); [by apply wp_ret|]. destruct (_ && _); [by apply wp_ret|].
  destruct (UseGas _ c') as [enough c''] eqn:Eu. apply UseGas_spent in Eu as [Hc'' HG'']; [|apply u64_range|lia|done].
  assert (run_post false n e c (Ret (ret, None, c'')) e') as Hpost by (split_and!; [done|done|lia|lia]).
  destruct (negb enough); [apply wp_ret; split_and!; [done|done|lia|lia]|]. case_decide; [by apply wp_bind, wp_ret, wp_ret|].
  apply wp_bind, wp_put. cbn [bind_post]. apply wp_ret. split_and!; [|done|lia|lia].
  destruct K as [D O K J]. split; [done|done| |done]. eapply R_trans; [exact K|apply R_SetCode].
Qed.

(** The state in which a creation takes its snapshot, and the one in which the code runs. *)
Definition before_creation (caller address : Address) (nonce : Z) (s : S) : S :=
  let s := SetNonce caller (u64 (nonce + 1)) s in
  if IsEIP2929 (chainRules env) then AddAddressToAccessList address s else s.

Definition in_creation (caller address : Address) (value : Z) (s : S) : S :=
  let s := if Exist address s then s else CreateAccount address s in
  let s := CreateContract address s in
  let s := if IsEIP158 (chainRules env) then SetNonce address 1 s else s in
  Transfer s caller address value.

Lemma R_before_creation caller address nonce s : R false s (before_creation caller address nonce s).
Proof.
  unfold before_creation. eapply R_trans; [apply R_SetNonce|]. destruct (IsEIP2929 _); [apply R_AddAddress|apply R_refl].
Qed.

Lemma GetBalance_before_creation a caller address nonce s : GetBalance a (before_creation caller address nonce s) = GetBalance a s.
Proof. unfold before_creation. destruct (IsEIP2929 _); by rewrite ?GetBalance_AddAddress, GetBalance_SetNonce. Qed.

Lemma R_in_creation caller address value s : 0 <= value → value <= GetBalance caller s → R false s (in_creation caller address value s).
Proof.
  intros Hpos Hv. unfold in_creation. set (s1 := if Exist address s then s else _).
  assert (R false s s1 ∧ GetBalance caller s1 = GetBalance caller s) as [K1 B1].
  { unfold s1. destruct (Exist address s) eqn:Ex; [split; [apply R_refl|done]|]. split; [by apply R_CreateAccount|by apply GetBalance_CreateAccount]. }
  eapply R_trans; [exact K1|]. eapply R_trans; [apply (R_CreateContract address)|].
  destruct (IsEIP158 _).
  - eapply R_trans; [apply (R_SetNonce address 1)|]. apply R_Transfer; [done|]. apply bool_decide_eq_true.
    by rewrite GetBalance_SetNonce, GetBalance_CreateContract, B1.
  - apply R_Transfer; [done|]. apply bool_decide_eq_true. by rewrite GetBalance_CreateContract, B1.
Qed.

Lemma wp_put_when (b : bool) g (Q : out () → EVM S → Prop) e :
  Q (Ret ()) (set_db (if b then g (db e) else db e) e) → wp (if b then put g else mret ()) Q e.
Proof. intros HQ. destruct b; [by apply wp_put|]. apply wp_ret. by destruct e. Qed.

Lemma wp_put_unless (b : bool) g (Q : out () → EVM S → Prop) e :
  Q (Ret ()) (set_db (if b then db e else g (db e)) e) → wp (if b then mret () else put g) Q e.
Proof. intros HQ. destruct b; [apply wp_ret; by destruct e|by apply wp_put]. Qed.

(** [create]: the failures before the snapshot keep the gas, a collision costs it, and
    what fails afterwards is undone. *)
Lemma create_ok e caller code gas value address :
  cache_ok (jumpDests e) → is_u64 gas → is_word value → readOnly e = false → Z.of_nat (length code) < code_limit →
  wp (create env loop caller code gas value address) (result_ok R n e gas create_left) e.
Proof.
  intros Hc Hg Hv Hro Hin.
  assert (∀ e2 ret a g err, kept false e e2 → 0 <= g <= gas → result_ok R n e gas create_left (Ret (ret, a, g, err)) e2) as Hret.
  { intros e2 ret a g err K HG. split; [|exact HG]. apply (kept_Keep false); [by right|done]. }
  pose proof Hg as Hg'. unfold is_u64 in Hg'. assert (0 <= gas <= gas) as Hall by lia. pose proof (kept_refl false e Hc) as Hid.
  unfold create. apply wp_bind, wp_gets. cbn [bind_post]. case_decide; [by apply wp_ret, Hret|].
  apply wp_bind, wp_get. cbn [bind_post]. destruct (CanTransfer _ _ _) eqn:Hcan; cbn [negb]; [|by apply wp_ret, Hret].
  apply wp_bind, wp_get. cbn [bind_post]. set (nonce := GetNonce caller (db e)). case_decide; [by apply wp_ret, Hret|].
  apply wp_bind, wp_put. cbn [bind_post]. apply wp_bind, wp_put_when. cbn [bind_post].
  set (e1 := set_db _ _). pose proof (R_before_creation caller address nonce (db e) : R false (db e) (db e1)) as K1.
  apply wp_bind, wp_get. cbn [bind_post]. destruct (collision _ _).
  { apply wp_ret, Hret; [by split|lia]. }
  apply wp_bind, wp_take_snapshot. cbn [bind_post]. apply wp_bind, wp_get. cbn [bind_post]. apply wp_bind, wp_put_unless. cbn [bind_post].
  apply wp_bind, wp_put. cbn [bind_post]. apply wp_bind, wp_put_when. cbn [bind_post]. apply wp_bind, wp_put. cbn [bind_post].
  set (e2 := set_db _ _).
  assert (R false (snd (Snapshot (db e1))) (db e2)) as K2.
  { apply (R_in_creation caller address value); [apply Hv|]. rewrite GetBalance_Snapshot. change (db e1) with (before_creation caller address nonce (db e)).
    rewrite GetBalance_before_creation. by apply bool_decide_eq_true in Hcan. }
  apply wp_bind. eapply wp_mono; [apply initNewContract_ok; [|done|done|done]|].
  { split; cbn; [unfold code_limit in *; lia|done|done|done|done]. }
  intros [[[ret err] c']|err ret| | |] e3; cbn [run_post bind_post]; [|done..]. intros ([D3 O3 K3 J3] & Hc' & HG').
  cbn [Gas set_IsDeployment SetCallCode NewContract] in HG'.
  destruct (_ && _).
  - apply wp_bind, wp_put. cbn [bind_post]. apply wp_ret, Hret.
    + split; [exact D3|exact O3| |exact J3]. eapply R_trans; [exact K1|]. apply R_RevertToSnapshot. by eapply R_trans.
    + destruct (is_error _ _); [lia|]. destruct (UseGas _ c') as [b c''] eqn:Eu. apply UseGas_spent in Eu as [_ Hu]; [cbn; lia|lia..|done].
  - apply wp_ret, Hret; [|lia]. split; [exact D3|exact O3| |exact J3].
    eapply R_trans; [exact K1|]. eapply R_trans; [apply R_Snapshot|]. by eapply R_trans.
Qed.

(** The calls and the creations of the interpreter. *)
Lemma evm_callees_ok : callees_ok R (evm_callees PrecompiledRun env loop) n.
Proof.
  split; intros e *; cbn [evm_callees do_Call do_CallCode do_DelegateCall do_StaticCall do_Create do_Create2]; intros.
  - eapply wp_mono; [by apply Call_end|]. intros r e' [Hr _]. eapply call_post_result; [|done]. by right.
  - eapply wp_mono; [by apply CallCode_end|]. intros r e' [Hr _]. eapply call_post_result; [|done]. by right.
  - eapply wp_mono; [by apply DelegateCall_end|]. intros r e' [Hr _]. eapply call_post_result; [|done]. by right.
  - eapply wp_mono; [by apply StaticCall_end|]. intros r e' [Hr _]. eapply call_post_result; [|done]. by left.
  - apply wp_bind, wp_get. cbn [bind_post]. by apply create_ok.
  - by apply create_ok.
Qed.
End calls.

(** The knot: by induction on the fuel. *)
Lemma run_loop_ok n : loop_ok (run_loop PrecompiledRun env n) n.
Proof.
  induction n as [|n IH].
  - intros e f Hf _. cbn. apply (ok_gas f (turn_frame f Hf)).
  - cbn [run_loop]. apply (loop_turn (evm_callees PrecompiledRun env (run_loop PrecompiledRun env n))); [by apply evm_callees_ok|done].
Qed.
End turn.
