(* ===== verification/EvmViews.v ===== *)
(** * The EVM: what a run may do to the state

    Laws of the state database beyond what a run needs ([StateDBLaws]): the history of a
    state with its snapshots, what the queries show of the accounts, and the sum of the
    balances. Each gives a relation between the states before and after a piece of
    execution that is closed under all that the interpreter does ([EvmRel]). *)
From Stdlib Require Import ZArith Lia.
From stdpp Require Import base tactics decidable list numbers gmap.
From S2P Require Import Prelude Keccak Common Rlp Precompiles Evm EvmRun EvmLogic.

(** ** Any run *)

Definition anything {S : Type} (_ : bool) (_ _ : S) : Prop := True.

#[export] Instance anything_rel (S : Type) `{StateDB S} : EvmRel (anything (S := S)).
Proof. by split. Qed.

(** ** Histories *)

(** The two states answer the queries on balances, nonces, codes and storage alike. *)
Record same_view {S : Type} `{StateDB S} (s s' : S) : Prop := {
  view_balance a : GetBalance a s' = GetBalance a s;
  view_nonce a : GetNonce a s' = GetNonce a s;
  view_code a : GetCode a s' = GetCode a s;
  view_state a k : GetState a k s' = GetState a k s;
  view_transient a k : GetTransientState a k s' = GetTransientState a k s
}.

#[export] Instance same_view_Equivalence {S : Type} `{StateDB S} : Equivalence (same_view (S := S)).
Proof.
  split.
  - done.
  - intros s1 s2 []. by split.
  - intros s1 s2 s3 [] []. split; congruence.
Qed.

(** [later s s']: [s'] comes from [s] without a return to a snapshot taken before [s].
    A return to a snapshot gives the accounts back; refunds, the access list, preimages and
    accounts that are made or touched without a value do not show. *)
Class StateHistory (S : Type) `{StateDB S} : Type := {
  later : S → S → Prop;
  #[export] later_PreOrder :: PreOrder later;
  later_Snapshot s : later s (snd (Snapshot s));
  later_RevertToSnapshot s s' : later (snd (Snapshot s)) s' → later s (RevertToSnapshot (fst (Snapshot s)) s');
  later_AddBalance a v s : later s (AddBalance a v s);
  later_SubBalance a v s : later s (SubBalance a v s);
  later_CreateAccount a s : later s (CreateAccount a s);
  later_CreateContract a s : later s (CreateContract a s);
  later_SetNonce a n s : later s (SetNonce a n s);
  later_SetCode a c s : later s (SetCode a c s);
  later_SetState a k v s : later s (SetState a k v s);
  later_SetTransientState a k v s : later s (SetTransientState a k v s);
  later_SelfDestruct a s : later s (SelfDestruct a s);
  later_AddRefund g s : later s (AddRefund g s);
  later_SubRefund g s s' : SubRefund g s = Some s' → later s s';
  later_AddAddress a s : later s (AddAddressToAccessList a s);
  later_AddSlot a k s : later s (AddSlotToAccessList a k s);
  later_AddLog l s : later s (AddLog l s);
  later_AddPreimage h p s : later s (AddPreimage h p s);
  view_Snapshot s : same_view s (snd (Snapshot s));
  view_RevertToSnapshot s s' : later (snd (Snapshot s)) s' → same_view s (RevertToSnapshot (fst (Snapshot s)) s');
  view_AddRefund g s : same_view s (AddRefund g s);
  view_SubRefund g s s' : SubRefund g s = Some s' → same_view s s';
  view_AddAddress a s : same_view s (AddAddressToAccessList a s);
  view_AddSlot a k s : same_view s (AddSlotToAccessList a k s);
  view_AddPreimage h p s : same_view s (AddPreimage h p s);
  view_AddBalance_0 a s : same_view s (AddBalance a 0 s);
  view_SubBalance_0 a s : same_view s (SubBalance a 0 s);
  view_CreateAccount a s : Exist a s = false → same_view s (CreateAccount a s)
}.

#[export] Hint Resolve later_Snapshot later_RevertToSnapshot later_AddBalance later_SubBalance later_CreateAccount later_CreateContract
  later_SetNonce later_SetCode later_SetState later_SetTransientState later_SelfDestruct later_AddRefund later_SubRefund later_AddAddress
  later_AddSlot later_AddLog later_AddPreimage view_Snapshot view_RevertToSnapshot view_AddRefund view_SubRefund view_AddAddress view_AddSlot
  view_AddPreimage view_AddBalance_0 view_SubBalance_0 view_CreateAccount : evm.

Section observed.
Context {S : Type} `{StateHistory S}.

Lemma later_Transfer s a c v : later s (Transfer s a c v).
Proof. unfold Transfer. etransitivity; [apply later_SubBalance|apply later_AddBalance]. Qed.

Lemma later_burn a s : later s (SelfDestruct a (SubBalance a (GetBalance a s) s)).
Proof. etransitivity; [apply later_SubBalance|apply later_SelfDestruct]. Qed.

Lemma later_destruct a c s : later s (SelfDestruct a (SubBalance a (GetBalance a s) (AddBalance c (GetBalance a s) s))).
Proof. etransitivity; [apply later_AddBalance|]. etransitivity; [apply later_SubBalance|apply later_SelfDestruct]. Qed.

Lemma view_Transfer_0 s a c : same_view s (Transfer s a c 0).
Proof. unfold Transfer. etransitivity; [apply view_SubBalance_0|apply view_AddBalance_0]. Qed.

#[local] Hint Resolve later_Transfer later_burn later_destruct view_Transfer_0 : evm.

(** In a static call the accounts stay as they are. *)
Definition observed (static : bool) (s s' : S) : Prop := later s s' ∧ (static = true → same_view s s').

#[export] Instance observed_rel : EvmRel observed.
Proof.
  split; unfold observed; intros;
    try (split; [eauto with evm; reflexivity|intros; solve [reflexivity|discriminate|eauto with evm]]; fail).
  - destruct_and!. split; [by etransitivity|]. intros Hb. transitivity s2; auto.
  - destruct_and!. auto.
  - destruct_and!. split; [by apply later_RevertToSnapshot|]. intros _. by apply view_RevertToSnapshot.
Qed.
End observed.

(** ** The sum of the balances *)

(** [supply] is a sum of the balances: it changes by at most what is added and by exactly
    what is taken from a balance that covers it. *)
Class SupplyLaws (S : Type) `{StateDB S} (supply : S → Z) : Prop := {
  supply_view s s' : same_view s s' → supply s' = supply s;
  supply_AddBalance a v s : 0 <= v → supply (AddBalance a v s) <= supply s + v;
  supply_SubBalance a v s : 0 <= v <= GetBalance a s → supply (SubBalance a v s) <= supply s - v;
  supply_CreateContract a s : supply (CreateContract a s) <= supply s;
  supply_SetNonce a n s : supply (SetNonce a n s) <= supply s;
  supply_SetCode a c s : supply (SetCode a c s) <= supply s;
  supply_SetState a k v s : supply (SetState a k v s) <= supply s;
  supply_SetTransientState a k v s : supply (SetTransientState a k v s) <= supply s;
  supply_SelfDestruct a s : supply (SelfDestruct a s) <= supply s;
  supply_AddLog l s : supply (AddLog l s) <= supply s;
  covered_AddBalance a c v s : a ≠ c → GetBalance a (AddBalance c v s) = GetBalance a s
}.

Section conserved.
Context {S : Type} `{StateDBLaws S} `{!StateHistory S} (supply : S → Z) `{!SupplyLaws S supply}.

(** Ether may be burnt, and is never made. *)
Definition conserved (_ : bool) (s s' : S) : Prop := later s s' ∧ supply s' <= supply s.

Lemma observed_conserved s s' : observed true s s' → supply s' <= supply s.
Proof. intros [_ E]. by rewrite (supply_view s s' (E eq_refl)). Qed.

Lemma supply_Transfer s a c v : 0 <= v → CanTransfer s a v = true → supply (Transfer s a c v) <= supply s.
Proof.
  intros Hv Hc%bool_decide_eq_true. unfold Transfer. pose proof (supply_AddBalance c v (SubBalance a v s) Hv).
  pose proof (supply_SubBalance a v s (conj Hv Hc)). lia.
Qed.

Lemma supply_burn a s : supply (SelfDestruct a (SubBalance a (GetBalance a s) s)) <= supply s.
Proof.
  pose proof (GetBalance_word a s) as [Hb _]. pose proof (supply_SelfDestruct a (SubBalance a (GetBalance a s) s)).
  pose proof (supply_SubBalance a (GetBalance a s) s). lia.
Qed.

Lemma supply_destruct a c s :
  a ≠ c → supply (SelfDestruct a (SubBalance a (GetBalance a s) (AddBalance c (GetBalance a s) s))) <= supply s.
Proof.
  intros Hne. pose proof (GetBalance_word a s) as [Hb _]. set (b := GetBalance a s) in *.
  pose proof (supply_SelfDestruct a (SubBalance a b (AddBalance c b s))). pose proof (supply_AddBalance c b s Hb).
  assert (0 <= b <= GetBalance a (AddBalance c b s)) as Hle by (rewrite covered_AddBalance by done; unfold b in *; lia).
  pose proof (supply_SubBalance a b _ Hle). lia.
Qed.

Lemma supply_empty a c s : supply (AddBalance c (GetBalance a s) (SubBalance a (GetBalance a s) s)) <= supply s.
Proof. apply supply_Transfer; [apply GetBalance_word|]. by apply bool_decide_eq_true. Qed.

(** What holds in static calls, and the operations that are not allowed there. *)
#[export] Instance conserved_rel : EvmRel conserved.
Proof.
  assert (∀ b s s', observed true s s' → conserved b s s') as Hst.
  { intros b s s' Ho. split; [apply Ho|by apply observed_conserved]. }
  assert (∀ b s s', observed false s s' → supply s' <= supply s → conserved b s s') as Hany.
  { intros b s s' Ho Hs. by split; [apply Ho|]. }
  split; intros; repeat match goal with K : conserved _ _ _ |- _ => destruct K end;
    try (apply Hst; first [apply R_refl|apply R_Snapshot|apply R_AddRefund|by eapply R_SubRefund|apply R_AddAddress|apply R_AddSlot
      |apply R_AddPreimage|apply R_touch|by apply R_CreateAccount|apply R_Transfer_zero]; fail).
  - split; [by transitivity s2|lia].
  - by split.
  - split; [by apply later_RevertToSnapshot|]. by rewrite (supply_view s (RevertToSnapshot (fst (Snapshot s)) s')) by by apply view_RevertToSnapshot.
  - apply Hany; [by apply R_Transfer|by apply supply_Transfer].
  - apply Hany; [apply R_SetState|apply supply_SetState].
  - apply Hany; [apply R_SetTransientState|apply supply_SetTransientState].
  - apply Hany; [apply R_AddLog|apply supply_AddLog].
  - apply Hany; [apply R_SetNonce|apply supply_SetNonce].
  - apply Hany; [apply R_SetCode|apply supply_SetCode].
  - apply Hany; [apply R_CreateContract|apply supply_CreateContract].
  - apply Hany; [apply R_burn|apply supply_burn].
  - apply Hany; [by apply R_destruct|by apply supply_destruct].
  - apply Hany; [by apply R_empty|apply supply_empty].
Qed.
End conserved.
