(* ===== verification/EvmState.v ===== *)
(** * The EVM: a state database

    An instance of the interfaces that the EVM is used through: accounts in a map, a
    snapshot that keeps the whole state, and integer arithmetic modulo 2^256. It satisfies
    the laws that the theorems on the EVM ask for ([StateDBLaws], [StateHistory],
    [SupplyLaws], [Uint256Laws]), so that they apply to concrete runs; it stands for no
    code under [src/]. *)
From Stdlib Require Import ZArith Lia.
From Stdlib Require Strings.Byte.
From stdpp Require Import base tactics decidable list numbers gmap fin_maps.
From S2P Require Import Prelude Keccak Common Rlp Trie Precompiles Evm EvmRun EvmLogic EvmViews.

(** ** Words *)

#[export] Instance Word_ops : Uint256 := {
  uAdd x y := u256 (x + y); uSub x y := u256 (x - y); uMul x y := u256 (x * y);
  uDiv x y := u256 (x / y); uSDiv x y := u256 (x / y); uMod x y := u256 (x mod y); uSMod x y := u256 (x mod y);
  uExp x y := u256 (x ^ y); uExtendSign x y := u256 y; uNot x := u256 (- x - 1);
  uSlt x y := bool_decide (x < y); uSgt x y := bool_decide (y < x);
  uAnd x y := u256 (Z.land x y); uOr x y := u256 (Z.lor x y); uXor x y := u256 (Z.lxor x y);
  uByte x y := u256 y; uAddMod x y z := u256 ((x + y) mod z); uMulMod x y z := u256 ((x * y) mod z);
  uLsh x y := u256 (Z.shiftl x y); uRsh x y := u256 (Z.shiftr x y); uSRsh x y := u256 (Z.shiftr x y)
}.

Lemma u256_range z : is_word (u256 z).
Proof. unfold u256, is_word. apply Z.mod_pos_bound. done. Qed.

#[export] Instance Word_laws : Uint256Laws.
Proof.
  split.
  - done.
  - intros. apply u256_range.
  - intros f x y Hf _ _. set_unfold in Hf. destruct_or! Hf; subst f; apply u256_range.
  - intros f x y z Hf _ _ _. set_unfold in Hf. destruct_or! Hf; subst f; apply u256_range.
Qed.

(** ** Accounts *)

Record Account : Type := MkAccount {
  acc_nonce : Z; acc_balance : Z; acc_code : bytes; acc_storage : gmap Hash Hash
}.

Definition no_account : Account := MkAccount 0 0 [] ∅.

Record World : Type := MkWorld {
  accounts : gmap Address Account;
  transient : gmap (Address * Hash) Hash;
  committed : gmap (Address * Hash) Hash;
  destructed : gset Address;
  created : gset Address;
  warm : gset Address;
  warm_slots : gset (Address * Hash);
  refund : Z;
  logs : list Log
}.

(** The state now, and the saved ones, the newest first. *)
Record Journal : Type := MkJournal { now : World; saved : list World }.

Definition on_now (g : World → World) (s : Journal) : Journal := MkJournal (g (now s)) (saved s).
Definition account (a : Address) (s : Journal) : Account := default no_account (accounts (now s) !! a).

Definition set_accounts (x : gmap Address Account) (w : World) : World :=
  MkWorld x (transient w) (committed w) (destructed w) (created w) (warm w) (warm_slots w) (refund w) (logs w).

Definition on_account (a : Address) (g : Account → Account) (s : Journal) : Journal :=
  on_now (set_accounts (<[a := g (account a s)]> (accounts (now s)))) s.

Definition balance_of (x : Account) : Z := u256 (acc_balance x).

(** Codes that are too long for the memory do not count. *)
Definition code_of (x : Account) : bytes := if decide (Z.of_nat (length (acc_code x)) < code_limit) then acc_code x else [].

(** A hash that tells codes apart. *)
Definition hash_of (code : bytes) : Hash := match code with [] => EmptyCodeHash | _ => Byte.xff :: code end.
Definition code_with (hash : Hash) : bytes := match hash with Byte.xff :: code => code | _ => [] end.

Definition set_balance (z : Z) (x : Account) : Account := MkAccount (acc_nonce x) (u256 z) (acc_code x) (acc_storage x).
Definition set_nonce (n : Z) (x : Account) : Account := MkAccount n (acc_balance x) (acc_code x) (acc_storage x).
Definition set_code (c : bytes) (x : Account) : Account := MkAccount (acc_nonce x) (acc_balance x) c (acc_storage x).
Definition set_slot (k v : Hash) (x : Account) : Account := MkAccount (acc_nonce x) (acc_balance x) (acc_code x) (<[k := v]> (acc_storage x)).

Definition set_marks (d c : gset Address) (w : World) : World :=
  MkWorld (accounts w) (transient w) (committed w) d c (warm w) (warm_slots w) (refund w) (logs w).
Definition set_warm (a : gset Address) (k : gset (Address * Hash)) (w : World) : World :=
  MkWorld (accounts w) (transient w) (committed w) (destructed w) (created w) a k (refund w) (logs w).
Definition set_refund (r : Z) (l : list Log) (w : World) : World :=
  MkWorld (accounts w) (transient w) (committed w) (destructed w) (created w) (warm w) (warm_slots w) r l.
Definition set_transient (x : gmap (Address * Hash) Hash) (w : World) : World :=
  MkWorld (accounts w) x (committed w) (destructed w) (created w) (warm w) (warm_slots w) (refund w) (logs w).

Definition revert (id : Z) (s : Journal) : Journal :=
  let k := (length (saved s) - 1 - Z.to_nat id)%nat in
  match saved s !! k with Some w => MkJournal w (drop (Datatypes.S k) (saved s)) | None => s end.

#[export] Instance Journal_db : StateDB Journal := {
  CreateAccount a := on_account a (λ _, no_account);
  CreateContract a := on_now (λ w, set_marks (destructed w) ({[a]} ∪ created w) w);
  SubBalance a v s := on_account a (set_balance (balance_of (account a s) - v)) s;
  AddBalance a v s := on_account a (set_balance (balance_of (account a s) + v)) s;
  GetBalance a s := balance_of (account a s);
  GetNonce a s := acc_nonce (account a s);
  SetNonce a n := on_account a (set_nonce n);
  GetCodeHash a s := match accounts (now s) !! a with Some x => hash_of (code_of x) | None => Hash0 end;
  GetCode a s := code_of (account a s);
  SetCode a c := on_account a (set_code c);
  GetCodeSize a s := Z.of_nat (length (code_of (account a s)));
  AddRefund g := on_now (λ w, set_refund (refund w + g) (logs w) w);
  SubRefund g s := if decide (refund (now s) < g) then None else Some (on_now (λ w, set_refund (refund w - g) (logs w) w) s);
  GetStateAndCommittedState a k s :=
    (default Hash0 (acc_storage (account a s) !! k), default Hash0 (committed (now s) !! (a, k)));
  GetState a k s := default Hash0 (acc_storage (account a s) !! k);
  SetState a k v := on_account a (set_slot k v);
  GetStorageRoot a s := EmptyRootHash;
  GetTransientState a k s := default Hash0 (transient (now s) !! (a, k));
  SetTransientState a k v := on_now (λ w, set_transient (<[(a, k) := v]> (transient w)) w);
  SelfDestruct a s := on_now (λ w, set_marks ({[a]} ∪ destructed w) (created w) w) (on_account a (set_balance 0) s);
  HasSelfDestructed a s := bool_decide (a ∈ destructed (now s));
  Exist a s := bool_decide (accounts (now s) !! a ≠ None);
  IsNewContract a s := bool_decide (a ∈ created (now s));
  Empty a s := bool_decide (acc_nonce (account a s) = 0 ∧ balance_of (account a s) = 0 ∧ code_of (account a s) = []);
  AddressInAccessList a s := bool_decide (a ∈ warm (now s));
  SlotInAccessList a k s := (bool_decide (a ∈ warm (now s)), bool_decide ((a, k) ∈ warm_slots (now s)));
  AddAddressToAccessList a := on_now (λ w, set_warm ({[a]} ∪ warm w) (warm_slots w) w);
  AddSlotToAccessList a k := on_now (λ w, set_warm ({[a]} ∪ warm w) ({[(a, k)]} ∪ warm_slots w) w);
  RevertToSnapshot := revert;
  Snapshot s := (Z.of_nat (length (saved s)), MkJournal (now s) (now s :: saved s));
  AddLog l := on_now (λ w, set_refund (refund w) (l :: logs w) w);
  AddPreimage _ _ s := s
}.

(** ** Accounts after an operation *)

Lemma account_on_account a b g s : account b (on_account a g s) = if decide (a = b) then g (account a s) else account b s.
Proof.
  unfold account, on_account, on_now, set_accounts. cbn [now accounts]. case_decide as E.
  - subst. by rewrite lookup_insert_eq.
  - by rewrite lookup_insert_ne.
Qed.

Lemma account_on_now a g s : (∀ w, accounts (g w) = accounts w) → account a (on_now g s) = account a s.
Proof. intros Hg. unfold account, on_now. cbn [now]. by rewrite Hg. Qed.

Lemma code_limit_pos : 0 < code_limit.
Proof. by vm_compute. Qed.

Lemma code_of_limit x : Z.of_nat (length (code_of x)) < code_limit.
Proof. unfold code_of. case_decide; [done|]. apply code_limit_pos. Qed.

Lemma EmptyCodeHash_code : code_with EmptyCodeHash = [].
Proof. by vm_compute. Qed.

Lemma code_with_hash_of code : code_with (hash_of code) = code.
Proof. destruct code as [|b code]; [apply EmptyCodeHash_code|]. done. Qed.

Lemma word_small z : is_word z → u256 z = z.
Proof. unfold is_word, u256. intros. by rewrite Z.mod_small. Qed.

Lemma balance_of_set z x : balance_of (set_balance z x) = u256 z.
Proof. unfold balance_of, set_balance. cbn. apply word_small, u256_range. Qed.

Lemma balance_of_range x : is_word (balance_of x).
Proof. apply u256_range. Qed.

Lemma set_balance_same x : balance_of (set_balance (balance_of x) x) = balance_of x.
Proof. rewrite balance_of_set. apply word_small, balance_of_range. Qed.

#[export] Instance Journal_laws : StateDBLaws Journal.
Proof.
  refine {| codes := code_with |}; cbn [GetCode GetCodeHash GetBalance Snapshot CreateAccount Exist CreateContract SetNonce
    AddAddressToAccessList Journal_db snd].
  - intros a s Hne. unfold account. destruct (accounts (now s) !! a) as [x|]; [|done]. cbn. by rewrite code_with_hash_of.
  - intros a s. apply code_of_limit.
  - intros a s. apply balance_of_range.
  - done.
  - intros a b s Hex%bool_decide_eq_false. rewrite account_on_account. case_decide as E; [|done]. subst. unfold account.
    destruct (accounts (now s) !! a); [|done]. by destruct Hex.
  - intros a b s. by rewrite account_on_now.
  - intros a b n s. rewrite account_on_account. by case_decide as E; [subst|].
  - intros a b s. by rewrite account_on_now.
Defined.

(** ** Histories *)

Definition extends (s s' : Journal) : Prop := ∃ l, saved s' = l ++ saved s.

Lemma extends_same s s' : saved s' = saved s → extends s s'.
Proof. by exists []. Qed.

Lemma revert_extends s s' : extends (MkJournal (now s) (now s :: saved s)) s' → revert (Z.of_nat (length (saved s))) s' = s.
Proof.
  intros [l E]. cbn [saved] in E. unfold revert. rewrite E, Nat2Z.id, length_app. cbn [length].
  replace (length l + Datatypes.S (length (saved s)) - 1 - length (saved s))%nat with (length l) by lia.
  rewrite list_lookup_middle by done. rewrite (drop_app_ge l) by lia.
  replace (Datatypes.S (length l) - length l)%nat with 1%nat by lia. by destruct s.
Qed.

Lemma view_of_accounts s s' :
  (∀ a, balance_of (account a s') = balance_of (account a s) ∧ acc_nonce (account a s') = acc_nonce (account a s) ∧
    acc_code (account a s') = acc_code (account a s) ∧ acc_storage (account a s') = acc_storage (account a s)) →
  transient (now s') = transient (now s) → same_view s s'.
Proof.
  intros Ha Ht. split; cbn [GetBalance GetNonce GetCode GetState GetTransientState Journal_db].
  - intros a. apply Ha.
  - intros a. apply Ha.
  - intros a. unfold code_of. by destruct (Ha a) as (_ & _ & -> & _).
  - intros a k. by destruct (Ha a) as (_ & _ & _ & ->).
  - intros a k. by rewrite Ht.
Qed.

Lemma view_on_now s g : (∀ w, accounts (g w) = accounts w) → (∀ w, transient (g w) = transient w) → same_view s (on_now g s).
Proof. intros Ha Ht. apply view_of_accounts; [|apply Ht]. intros a. by rewrite account_on_now. Qed.

Lemma view_set_balance a s z : z = balance_of (account a s) → same_view s (on_account a (set_balance z) s).
Proof.
  intros ->. apply view_of_accounts; [|done]. intros b. rewrite account_on_account. case_decide as E; [subst|done].
  split_and!; [apply set_balance_same|done..].
Qed.

#[export] Instance Journal_history : StateHistory Journal.
Proof.
  refine {| later := extends |}; try (intros; by apply extends_same).
  - split; [by intros s; exists []|]. intros s1 s2 s3 [l1 E1] [l2 E2]. exists (l2 ++ l1). by rewrite E2, E1, app_assoc.
  - intros s. by exists [now s].
  - intros s s' L. apply extends_same. cbn [RevertToSnapshot Snapshot Journal_db fst]. by rewrite revert_extends.
  - intros g s s'. cbn [SubRefund Journal_db]. case_decide; [done|]. intros [= <-]. by apply extends_same.
  - done.
  - intros s s' L. cbn [RevertToSnapshot Snapshot Journal_db fst]. by rewrite revert_extends.
  - intros g s. by apply view_on_now.
  - intros g s s'. cbn [SubRefund Journal_db]. case_decide; [done|]. intros [= <-]. by apply view_on_now.
  - intros a s. by apply view_on_now.
  - intros a k s. by apply view_on_now.
  - done.
  - intros a s. apply view_set_balance. lia.
  - intros a s. apply view_set_balance. lia.
  - intros a s Hex%bool_decide_eq_false. apply view_of_accounts; [|done]. intros b. cbn [CreateAccount Journal_db].
    rewrite account_on_account. case_decide as E; [subst|done]. unfold account.
    destruct (accounts (now s) !! b); [|done]. by destruct Hex.
Defined.

(** ** The supply *)

Definition total (m : gmap Address Z) : Z := map_fold (λ _, Z.add) 0 m.

Lemma total_delete m a : total (base.delete a m) = total m - default 0 (m !! a).
Proof.
  destruct (m !! a) as [v|] eqn:E; cbn [default].
  - unfold total, id. rewrite (map_fold_delete_L (λ _, Z.add) 0 a v m); [lia|intros; lia|done].
  - rewrite delete_id by done. lia.
Qed.

Lemma total_insert m a v : total (<[a := v]> m) = total m - default 0 (m !! a) + v.
Proof.
  rewrite <- insert_delete_eq. unfold total at 1. rewrite map_fold_insert_L; [|intros; lia|apply lookup_delete_eq].
  fold (total (base.delete a m)). rewrite total_delete. lia.
Qed.

(** The balances that are not zero. *)
Definition worth (x : Account) : option Z := if decide (balance_of x = 0) then None else Some (balance_of x).
Definition balances (s : Journal) : gmap Address Z := omap worth (accounts (now s)).
Definition supply (s : Journal) : Z := total (balances s).

Lemma worth_default x : default 0 (worth x) = balance_of x.
Proof. unfold worth. by case_decide. Qed.

Lemma lookup_balances a s : balances s !! a = worth (account a s).
Proof. unfold balances, account. rewrite lookup_omap. by destruct (accounts (now s) !! a). Qed.

Lemma supply_ext s s' : (∀ a, balance_of (account a s') = balance_of (account a s)) → supply s' = supply s.
Proof.
  intros Ha. unfold supply. f_equal. apply map_eq. intros a. rewrite !lookup_balances. unfold worth. by rewrite Ha.
Qed.

Lemma supply_on_account a g s :
  supply (on_account a g s) = supply s - balance_of (account a s) + balance_of (g (account a s)).
Proof.
  assert (balances (on_account a g s) = match worth (g (account a s)) with Some b => <[a := b]> (balances s) | None => base.delete a (balances s) end) as E.
  { apply map_eq. intros b. rewrite lookup_balances, account_on_account. case_decide as Eb; [subst|].
    - destruct (worth (g (account b s))); [by rewrite lookup_insert_eq|by rewrite lookup_delete_eq].
    - rewrite <- lookup_balances. destruct (worth (g (account a s))); [by rewrite lookup_insert_ne|by rewrite lookup_delete_ne]. }
  unfold supply. rewrite E, <- (worth_default (account a s)), <- (worth_default (g _)), <- lookup_balances.
  destruct (worth (g (account a s))); [rewrite total_insert|rewrite total_delete]; unfold id; cbn [from_option]; lia.
Qed.

Lemma supply_kept a g s : balance_of (g (account a s)) = balance_of (account a s) → supply (on_account a g s) <= supply s.
Proof. intros E. rewrite supply_on_account, E. lia. Qed.

#[export] Instance Journal_supply : SupplyLaws Journal supply.
Proof.
  split; cbn [GetBalance AddBalance SubBalance CreateContract SetNonce SetCode SetState SetTransientState SelfDestruct AddLog Journal_db].
  - intros s s' E. apply supply_ext. apply E.
  - intros a v s Hv. rewrite supply_on_account, balance_of_set. pose proof (balance_of_range (account a s)) as Hb.
    unfold is_word, u256 in *. pose proof (Z.mod_le (balance_of (account a s) + v) two256). lia.
  - intros a v s Hv. rewrite supply_on_account, balance_of_set. pose proof (balance_of_range (account a s)) as Hb.
    rewrite word_small by (unfold is_word in *; lia). lia.
  - intros a s. by rewrite (supply_ext s) by (intros; by rewrite account_on_now).
  - intros. by apply supply_kept.
  - intros. by apply supply_kept.
  - intros. by apply supply_kept.
  - intros a k v s. by rewrite (supply_ext s) by (intros; by rewrite account_on_now).
  - intros a s. rewrite (supply_ext (on_account a (set_balance 0) s)) by (intros; by rewrite account_on_now).
    rewrite supply_on_account, balance_of_set. pose proof (balance_of_range (account a s)). unfold is_word in *. change (u256 0) with 0. lia.
  - intros l s. by rewrite (supply_ext s) by (intros; by rewrite account_on_now).
  - intros a c v s Hne. rewrite account_on_account. by rewrite decide_False by done.
Qed.
