(* ===== verification/EvmSpec.v ===== *)
(** * The EVM: what the interpreter guarantees *)
From Stdlib Require Import ZArith Lia.
From Stdlib Require Strings.Byte.
From stdpp Require Import base tactics decidable list numbers gmap.
From S2P Require Import Prelude Keccak Common Rlp Trie Precompiles Evm EvmGas EvmTable EvmOps EvmRun EvmLogic EvmAnalysis EvmMemory EvmGasFacts EvmOpsFacts EvmRunFacts EvmViews EvmState.

(** ** Tables *)

(** The header fields that the rules call for are there. *)
Definition context_ok (block : BlockContext) (rules : EvmRules) : bool :=
  let cancun := IsAmsterdam rules || IsOsaka rules || IsPrague rules || IsCancun rules in
  let merge := cancun || IsShanghai rules || IsMerge rules in
  let london := merge || IsLondon rules in
  implb merge (bool_decide (Random block ≠ None)) && implb london (bool_decide (BaseFee block ≠ None))
  && implb cancun (bool_decide (BlobBaseFee block ≠ None)).

Lemma NewEnv_table block tx chainID rules record_preimages :
  context_ok block rules = true → table_ok (NewEnv block tx chainID rules record_preimages []) = true.
Proof.
  intros Hctx. unfold table_ok, context_ok, NewEnv, enable_extra, instructionSet in *. cbn [table foldl] in *.
  destruct block as [? ? ? ? ? ? bf bbf r ?]. cbn [Random BaseFee BlobBaseFee] in Hctx.
  repeat match goal with |- context[if ?b then _ else _] => destruct b end; cbn [orb implb andb] in Hctx;
    destruct r, bf, bbf; (discriminate || vm_compute; reflexivity).
Qed.

(** ** Whole runs *)

Section spec.
Context {S : Type} `{StateDBLaws S} `{Uint256Laws} {E : Type} (PrecompiledRun : PrecompiledContract → bytes → res E bytes).
Context (block : BlockContext) (tx : TxContext) (chainID : Z) (rules : EvmRules) (record_preimages : bool).

Local Abbreviation env := (NewEnv block tx chainID rules record_preimages []).
Local Abbreviation interpreter n := (run_loop PrecompiledRun env n).

Context (Hctx : context_ok block rules = true) (Henv : env_ok env).
Implicit Types (e : EVM S) (f : Frame).

Lemma interpreter_ok R `{!EvmRel R} n : loop_ok R (interpreter n) n.
Proof. apply (run_loop_ok R env Henv). by apply NewEnv_table. Qed.

(** A call from [e] with [gas] ends: with what is left of the gas, at the same depth and
    in the same mode, or in a panic of the state database or of a precompiled contract. *)
Definition ends e (gas : Z) {A} (left : A → Z) (r : out A * EVM S) : Prop :=
  match fst r with
  | Ret a => 0 <= left a <= gas ∧ depth (snd r) = depth e ∧ readOnly (snd r) = readOnly e
  | Fail _ _ => False
  | Crash => False
  | DbCrash => True
  | NoFuel => False
  end.

Lemma wp_ends {A} (left : A → Z) n gas e (run : ST (EVM S) A) :
  gas < Z.of_nat n → wp run (result_ok anything n e gas left) e → ends e gas left (run e).
Proof.
  intros Hn. unfold wp, ends. destruct (run e) as [[a|err ret| | |] e']; cbn [result_ok fst snd]; [|done|done|done|lia].
  intros [K Hl]. split; [done|]. split; apply K.
Qed.

(** C2: execution ends. With more fuel than gas, a call or creation does one of two
    things: it returns, with the rest of the gas between 0 and what it was given and the
    depth and the read-only mode as before, or the state database or a precompiled
    contract panics inside (the interpreter relies on them). The interpreter itself never
    panics, whatever the code: no stack underflow, out-of-range access or missing table
    entry; and it never loops. Inputs are shorter than [code_limit]; in read-only mode this is
    stated for calls without a value and not for creations, which the instructions refuse
    to make there. *)
Theorem execution_ends n e originCaller caller addr input gas value salt :
  gas < Z.of_nat n → is_u64 gas → is_word value → Z.of_nat (length input) < code_limit → cache_ok (jumpDests e) →
  ((readOnly e = true → value = 0) → ends e gas call_left (Call PrecompiledRun env (interpreter n) caller addr input gas value e)) ∧
  ends e gas call_left (CallCode PrecompiledRun env (interpreter n) caller addr input gas value e) ∧
  ends e gas call_left (DelegateCall PrecompiledRun env (interpreter n) originCaller caller addr input gas value e) ∧
  ends e gas call_left (StaticCall PrecompiledRun env (interpreter n) caller addr input gas e) ∧
  (readOnly e = false → ends e gas create_left (Create env (interpreter n) caller input gas value e)) ∧
  (readOnly e = false → ends e gas create_left (Create2 env (interpreter n) caller input gas value salt e)).
Proof.
  intros Hn Hg Hv Hin Hc.
  pose proof (evm_callees_ok anything env PrecompiledRun (interpreter n) n (interpreter_ok anything n)) as [C1 C2 C3 C4 C5 C6].
  split_and!; intros; (eapply wp_ends; [exact Hn|]); [by apply C1|by apply C2|by apply C3|by apply C4|by apply C5|by apply C6].
Qed.

(** Turns of the loop that go on: [k] of them. *)
Inductive turns (callees : Callees S) : nat → EVM S * Frame → EVM S * Frame → Prop :=
| turns_0 s : turns callees 0 s s
| turns_more k s s1 ret e f :
    turns callees k s s1 → run_step env callees s1 = (Ret ret, (e, f)) →
    turns callees (k + 1) s (e, set_pc (u64 (pc f + 1)) f).

(** C9: resources of a frame. After any number of turns, whatever the callees did: at most
    1024 words on the stack, whole words in the memory, the same code, and the gas that is
    left, the price 3w + w^2/512 of the memory and one unit for every turn are covered by
    the gas of the start. *)
Theorem turns_resources n k e c e' f :
  contract_ok c → is_u64 (Gas c) → cache_ok (jumpDests e) →
  turns (evm_callees PrecompiledRun env (interpreter n)) k (e, MkFrame 0 [] NewMemory c) (e', f) →
  let w := mem_Len (mem f) / 32 in
  (length (stack f) <= 1024)%nat ∧ Forall is_word (stack f) ∧ mem_Len (mem f) = 32 * w ∧ Code (contract f) = Code c ∧
  0 <= Gas (contract f) ∧ Gas (contract f) + (3 * w + w * w / 512) + Z.of_nat k <= Gas c.
Proof.
  intros Hc HG Hcache Hturns.
  assert (turn_ok (MkFrame 0 [] NewMemory c)) as Hstart.
  { split; [split; [done|done|constructor|by split; vm_compute]|cbn; lia|by vm_compute]. }
  assert (turn_ok f ∧ cache_ok (jumpDests e') ∧ Code (contract f) = Code c ∧ potential f + Z.of_nat k <= Gas c) as (Hf & _ & Hcode & HP).
  { remember (e, MkFrame 0 [] NewMemory c) as s eqn:Es. remember (e', f) as s' eqn:Es'. revert e' f Es'.
    induction Hturns as [s|k s s1 ret e1 f1 Ht IH Hstep]; intros e' f Es'.
    - rewrite Es in Es'. injection Es' as <- <-. split_and!; [done|done|done|]. change (potential _) with (Gas c + 0). lia.
    - injection Es' as <- <-. destruct s1 as [e0 f0]. destruct (IH Es _ _ eq_refl) as (Hf0 & Hc0 & Hcode0 & HP0).
      pose proof (run_step_ok anything env Henv (NewEnv_table _ _ _ _ _ Hctx) _ n e0 f0 (evm_callees_ok anything env PrecompiledRun _ n (interpreter_ok anything n)) Hf0 Hc0) as Hok.
      unfold wp in Hok. rewrite Hstep in Hok. destruct Hok as (K & Sc & [Hf1 Hst1 _] & _ & HP1). cbn [fst snd] in *.
      split_and!; [split; [by destruct Hf1; split|done|apply u64_range]|by apply (keep_jumpDests _ _ _ K)| |].
      + cbn. destruct Sc as (_ & _ & -> & _). done.
      + change (potential (set_pc _ f1)) with (potential f1). lia. }
  destruct Hf as [[_ HG' W M] Hst _]. unfold potential, memory_fee, words in HP. unfold is_u64 in HG'. cbn zeta.
  pose proof (ok_words _ M). split_and!; [done|done|Z.div_mod_to_equations; lia|done|lia|lia].
Qed.

(** ** What a run does to the state *)

Lemma wp_run {A} (Q : out A → EVM S → Prop) e (run : ST (EVM S) A) r e' : wp run Q e → run e = (r, e') → Q r e'.
Proof. unfold wp. intros HQ E1. by rewrite E1 in HQ. Qed.

Section history.
Context `{!StateHistory S}.

Lemma undone_view s s' : undone observed s s' → same_view s s'.
Proof. intros [->|(s1 & [L _] & ->)]; [reflexivity|by apply view_RevertToSnapshot]. Qed.

(** C6: a call that fails, for whatever reason and however deep, leaves no trace in
    balances, nonces, codes and storage: [Call], [CallCode], [DelegateCall] to any
    account's code and [StaticCall] alike, with inputs shorter than [code_limit]. In
    read-only mode it is stated for calls without a value, the only ones that the
    instructions make there. *)
Theorem failed_call_undone n e originCaller caller addr input gas value ret left err e' :
  is_u64 gas → is_word value → Z.of_nat (length input) < code_limit → cache_ok (jumpDests e) → (readOnly e = true → value = 0) →
  (Call PrecompiledRun env (interpreter n) caller addr input gas value e = (Ret (ret, left, Some err), e') ∨
   CallCode PrecompiledRun env (interpreter n) caller addr input gas value e = (Ret (ret, left, Some err), e') ∨
   DelegateCall PrecompiledRun env (interpreter n) originCaller caller addr input gas value e = (Ret (ret, left, Some err), e') ∨
   StaticCall PrecompiledRun env (interpreter n) caller addr input gas e = (Ret (ret, left, Some err), e')) →
  same_view (db e) (db e').
Proof.
  intros Hg Hv Hin Hc Hro Hrun. apply undone_view.
  assert (∀ b, call_end observed b n gas e (Ret (ret, left, Some err)) e' → undone observed (db e) (db e')) as Hend by (intros b [_ Hu]; by eapply Hu).
  pose proof (interpreter_ok observed n) as Hloop.
  destruct Hrun as [E1|[E1|[E1|E1]]]; eapply Hend, wp_run; try exact E1.
  - by apply (Call_end observed env PrecompiledRun _ n Hloop).
  - by apply (CallCode_end observed env PrecompiledRun _ n Hloop).
  - by apply (DelegateCall_end observed env PrecompiledRun _ n Hloop).
  - by apply (StaticCall_end observed env PrecompiledRun _ n Hloop).
Qed.

(** C7: a static call changes no balance, nonce, code or storage, whether it succeeds or
    fails; nor does any call without a transfer of value once the EVM is in the read-only mode. *)
Theorem static_call_view n e originCaller caller addr input gas value r e' :
  is_u64 gas → Z.of_nat (length input) < code_limit → cache_ok (jumpDests e) →
  (StaticCall PrecompiledRun env (interpreter n) caller addr input gas e = (Ret r, e') ∨
   readOnly e = true ∧ is_word value ∧ CallCode PrecompiledRun env (interpreter n) caller addr input gas value e = (Ret r, e') ∨
   readOnly e = true ∧ is_word value ∧ DelegateCall PrecompiledRun env (interpreter n) originCaller caller addr input gas value e = (Ret r, e') ∨
   readOnly e = true ∧ Call PrecompiledRun env (interpreter n) caller addr input gas 0 e = (Ret r, e')) →
  same_view (db e) (db e').
Proof.
  intros Hg Hin Hc Hrun.
  assert (call_end observed true n gas e (Ret r) e' → same_view (db e) (db e')) as Hend by (intros [[[_ _ [_ Hview] _] _] _]; by apply Hview).
  pose proof (interpreter_ok observed n) as Hloop.
  destruct Hrun as [E1|[(Hro & Hv & E1)|[(Hro & Hv & E1)|(Hro & E1)]]]; eapply Hend, wp_run; try exact E1.
  - by apply (StaticCall_end observed env PrecompiledRun _ n Hloop).
  - rewrite <- Hro. by apply (CallCode_end observed env PrecompiledRun _ n Hloop).
  - rewrite <- Hro. by apply (DelegateCall_end observed env PrecompiledRun _ n Hloop).
  - rewrite <- Hro. by apply (Call_end observed env PrecompiledRun _ n Hloop).
Qed.

(** C15: no ether is made. Every call and creation, failed or not, leaves the sum of the
    balances at most as it was: what a transfer adds was taken from a balance that covers
    it, reverts give back what was there, and destroyed contracts hand on only what they
    have. In read-only mode this is stated for what the instructions let through: calls
    without a transfer of value, and no creations. *)
Theorem supply_never_grows (supply : S → Z) `{!SupplyLaws S supply} n e originCaller caller addr input gas value salt e' :
  is_u64 gas → is_word value → Z.of_nat (length input) < code_limit → cache_ok (jumpDests e) →
  ((readOnly e = true → value = 0) ∧ ∃ r, Call PrecompiledRun env (interpreter n) caller addr input gas value e = (Ret r, e')) ∨
  (∃ r, CallCode PrecompiledRun env (interpreter n) caller addr input gas value e = (Ret r, e')) ∨
  (∃ r, DelegateCall PrecompiledRun env (interpreter n) originCaller caller addr input gas value e = (Ret r, e')) ∨
  (∃ r, StaticCall PrecompiledRun env (interpreter n) caller addr input gas e = (Ret r, e')) ∨
  (readOnly e = false ∧ ∃ r, Create env (interpreter n) caller input gas value e = (Ret r, e')) ∨
  (readOnly e = false ∧ ∃ r, Create2 env (interpreter n) caller input gas value salt e = (Ret r, e')) →
  supply (db e') <= supply (db e).
Proof.
  intros Hg Hv Hin Hc Hrun.
  pose proof (evm_callees_ok (conserved supply) env PrecompiledRun (interpreter n) n (interpreter_ok (conserved supply) n)) as [C1 C2 C3 C4 C5 C6].
  assert (∀ A (left : A → Z) a, result_ok (conserved supply) n e gas left (Ret a) e' → supply (db e') <= supply (db e)) as Hend.
  { intros A left a [[_ _ [_ Hle] _] _]. exact Hle. }
  destruct Hrun as [[Hro [r E1]]|[[r E1]|[[r E1]|[[r E1]|[[Hro [r E1]]|[Hro [r E1]]]]]]]; eapply Hend, wp_run; try exact E1;
    [by apply C1|by apply C2|by apply C3|by apply C4|by apply C5|by apply C6].
Qed.
End history.
End spec.

(** ** Jumps *)

Section jumps.
Context {S : Type} `{StateDBLaws S} `{Uint256Laws}.

(** Without a pending [Cancel], a jump goes on or fails. *)
Definition jump_post (code : bytes) (dest : Z) (st : list Z) (r : out bytes) (s : EVM S * Frame) : Prop :=
  (jump_target code dest → r = Ret [] ∧ u64 (pc (snd s) + 1) = dest ∧ stack (snd s) = st) ∧
  (¬ jump_target code dest → r = Fail ErrInvalidJump []).

Lemma load_abort_none (e : EVM S) f (Q : out bool → EVM S * Frame → Prop) :
  aborts e = [] → Q (Ret false) (set_aborts [] e, f) → wp load_abort Q (e, f).
Proof. intros Ha HQ. unfold load_abort. repeat wp_step. rewrite Ha. repeat wp_step. exact HQ. Qed.

Lemma jump_to_post dest st (e : EVM S) f :
  contract_ok (contract f) → cache_ok (jumpDests e) → stack f = st →
  wp (jump_to dest;; done) (jump_post (Code (contract f)) dest st) (e, f).
Proof.
  intros Hc Hcache Hst. apply wp_bind, (wp_jump_to anything); [done|done|]. intros e' c' _ Hc' _ _. split; intros Hj; cbn [bind_post].
  - apply wp_done. split; [intros [Hd _]|done]. split_and!; [done| |done]. pose proof (ok_limit _ Hc) as Hl. unfold code_limit in Hl.
    cbn [pc set_pc snd]. unfold Uint64. rewrite (u64_small dest) by (unfold is_u64; rewrite two64_val; lia).
    unfold u64. rewrite Zplus_mod_idemp_l. replace (dest - 1 + 1) with dest by lia. apply u64_small. unfold is_u64. rewrite two64_val. lia.
  - by split.
Qed.

(** C16: where jumps land. [JUMP] sets the program counter before a byte that is [JUMPDEST]
    and starts an instruction, and fails for every other destination, so that data after a
    push is never run; [JUMPI] does the same when its condition is not zero and goes on
    otherwise. *)
Theorem jumps_land (e : EVM S) p dest cond st m c :
  contract_ok c → cache_ok (jumpDests e) → aborts e = [] →
  let jump := fst (sem_opJump (e, MkFrame p (dest :: st) m c)) in
  let f := snd (snd (sem_opJump (e, MkFrame p (dest :: st) m c))) in
  let jumpi := fst (sem_opJumpi (e, MkFrame p (dest :: cond :: st) m c)) in
  let fi := snd (snd (sem_opJumpi (e, MkFrame p (dest :: cond :: st) m c))) in
  (jump_target (Code c) dest → jump = Ret [] ∧ u64 (pc f + 1) = dest ∧ stack f = st) ∧
  (¬ jump_target (Code c) dest → jump = Fail ErrInvalidJump []) ∧
  (cond = 0 → jumpi = Ret [] ∧ pc fi = p ∧ stack fi = st) ∧
  (cond ≠ 0 → jump_target (Code c) dest → jumpi = Ret [] ∧ u64 (pc fi + 1) = dest ∧ stack fi = st) ∧
  (cond ≠ 0 → ¬ jump_target (Code c) dest → jumpi = Fail ErrInvalidJump []).
Proof.
  intros Hc Hcache Ha jump f jumpi fi.
  assert (wp sem_opJump (jump_post (Code c) dest st) (e, MkFrame p (dest :: st) m c)) as Hjump.
  { unfold sem_opJump. apply wp_bind, load_abort_none; [done|]. cbn [bind_post]. apply wp_bind. eapply wp_pop; [done|]. cbn [bind_post].
    by apply jump_to_post. }
  assert (wp sem_opJumpi (λ r s, if decide (cond = 0) then r = Ret [] ∧ pc (snd s) = p ∧ stack (snd s) = st
    else jump_post (Code c) dest st r s) (e, MkFrame p (dest :: cond :: st) m c)) as Hjumpi.
  { unfold sem_opJumpi. apply wp_bind, load_abort_none; [done|]. cbn [bind_post]. apply wp_bind. eapply wp_pop; [done|]. cbn [bind_post].
    apply wp_bind. eapply wp_pop; [done|]. cbn [bind_post]. unfold IsZero. destruct (decide (cond = 0)) as [E1|E1].
    - rewrite bool_decide_eq_true_2 by done. apply wp_bind, wp_ret. by apply wp_done.
    - rewrite bool_decide_eq_false_2 by done. by apply jump_to_post. }
  unfold wp in Hjump, Hjumpi. unfold jump, f, jumpi, fi.
  destruct (sem_opJump _) as [r [e1 f1]], (sem_opJumpi _) as [r' [e2 f2]]. destruct Hjump as [J1 J2]. cbn [fst snd] in *.
  split_and!; [exact J1|exact J2|..]; intros Hcond; case_decide; try done; apply Hjumpi.
Qed.

(** C17: the analysis of a code ends and is right: a position is marked as code exactly
    when an instruction starts there. *)
Theorem codeBitmap_boundaries code :
  ∃ bits, codeBitmap code = Some bits ∧
    ∀ i, codeSegment bits (Z.of_nat i) = Some true ∧ (i < length code)%nat ↔ Instruction code i ∧ (i < length code)%nat.
Proof.
  destruct (codeBitmap_total code) as (bits & Hbits & _). exists bits. split; [done|]. intros i. split; intros [Hi Hl].
  - destruct (codeSegment_spec code bits (Z.of_nat i) Hbits) as [E1 E2]; [lia|]. rewrite E1, Nat2Z.id in *. injection Hi as Hi.
    apply negb_true_iff in Hi. split; [by apply E2|done].
  - destruct (codeSegment_spec code bits (Z.of_nat i) Hbits) as [E1 E2]; [lia|]. rewrite Nat2Z.id in *. rewrite E1.
    split; [|done]. by rewrite (proj2 E2 Hi).
Qed.
End jumps.

(** ** Extra EIPs *)

(** Tables without [CREATE2]. *)
Definition before_constantinople (rules : EvmRules) : bool :=
  negb (IsAmsterdam rules || IsOsaka rules || IsPrague rules || IsCancun rules || IsShanghai rules || IsMerge rules || IsLondon rules
        || IsBerlin rules || IsIstanbul rules || IsConstantinople rules).

Lemma create2_undefined rules :
  before_constantinople rules = true → ∃ op, enable_extra [3860] (instructionSet rules) !! 245%nat = Some op ∧ min_stack op = 0%nat ∧
    (1 <= max_stack op)%nat ∧ constantGas op = 0 ∧ memorySize op = None ∧ dynamicGas op = Some gasCreate2Eip3860.
Proof.
  intros Hrules.
  set (broken jt := match enable_extra [3860] jt !! 245%nat with
    | Some op => (min_stack op =? 0)%nat && (1 <=? max_stack op)%nat && (constantGas op =? 0)
        && match memorySize op with None => true | _ => false end && match dynamicGas op with Some gasCreate2Eip3860 => true | _ => false end
    | None => false
    end).
  assert (broken (instructionSet rules) = true) as Hb.
  { unfold before_constantinople in Hrules. rewrite !negb_orb, !andb_true_iff, !negb_true_iff in Hrules. destruct_and! Hrules.
    unfold instructionSet. repeat match goal with K : _ rules = false |- _ => rewrite K; clear K end.
    destruct (IsByzantium rules), (IsEIP158 rules), (IsEIP150 rules), (IsHomestead rules); vm_compute; reflexivity. }
  unfold broken in Hb. destruct (_ !! _) as [op|]; [|done]. exists op. rewrite !andb_true_iff, Nat.eqb_eq, Nat.leb_le, Z.eqb_eq in Hb.
  destruct Hb as [[[[H1' H2'] H3'] H4'] H5']. split_and!; [done|done|done|done|by destruct (memorySize op)|].
  destruct (dynamicGas op) as [[]|]; done.
Qed.

(** C38: an extra EIP may break a table. [enable3860] gives [CREATE2] a gas function also
    where the opcode is undefined and its stack is not checked: with the extra EIP 3860 and
    rules before Constantinople, the code [0xf5] makes the interpreter panic on its empty
    stack. *)
Theorem extra_eip_panics {S : Type} `{StateDB S} `{Uint256} block tx chainID rules record_preimages callees (e : EVM S) c :
  before_constantinople rules = true → Code c = [Byte.xf5] → 0 <= Gas c →
  fst (run_step (NewEnv block tx chainID rules record_preimages [3860]) callees (e, MkFrame 0 [] NewMemory c)) = Crash.
Proof.
  intros Hrules Hcode HG. set (env := NewEnv block tx chainID rules record_preimages [3860]).
  destruct (create2_undefined rules Hrules) as (op & Hop & Hmin & Hmax & Hconst & Hmem & Hdyn).
  change (enable_extra [3860] (instructionSet rules)) with (table env) in Hop.
  assert (Z.to_nat (GetOp c 0) = 245%nat) as Hget by (unfold GetOp; by rewrite Hcode).
  cut (wp (run_step env callees) (λ r _, r = Crash) (e, MkFrame 0 [] NewMemory c)); [unfold wp; by destruct (run_step _ _ _)|].
  unfold run_step. apply wp_bind, wp_get_frame. cbn [bind_post]. apply wp_bind, wp_get_frame. cbn [bind_post pc contract]. apply wp_bind.
  rewrite Hget, Hop. apply wp_ret. cbn [bind_post].
  apply wp_bind. unfold validate_stack. apply wp_bind, wp_get_frame. cbn [bind_post stack length].
  rewrite !decide_False by lia. apply wp_ret. cbn [bind_post].
  apply wp_bind. unfold charge at 1. apply wp_bind, wp_get_contract. cbn [bind_post contract]. rewrite decide_False by lia.
  apply wp_mod_contract. cbn [bind_post].
  apply wp_bind. unfold charge_dynamic, required_memory. rewrite Hdyn, Hmem. by apply wp_bind, wp_ret.
Qed.

(** ** Concrete runs *)

Definition demo_block : BlockContext := MkBlockContext (λ _, Hash0) Address0 30000000 1 1 0 (Some 7) (Some 1) (Some Hash0) 0.
Definition demo_tx : TxContext := MkTxContext Address0 1 [].
Definition demo_rules : EvmRules :=
  MkEvmRules true true true true true true true true true true true true true true true false (MkRules true true true true true true false).
Definition demo_run (_ : PrecompiledContract) (input : bytes) : res () bytes := Ok input.
Definition demo_env : Env := NewEnv demo_block demo_tx 1 demo_rules false [].

Definition alice : Address := replicate 20 Byte.x11.
Definition bob : Address := replicate 20 Byte.x12.

(** Alice has ether, and the account of bob the given code. *)
Definition demo_state (code : bytes) : Journal :=
  MkJournal (MkWorld {[ alice := MkAccount 3 1000 [] ∅; bob := MkAccount 1 5 code ∅ ]} ∅ ∅ ∅ ∅ ∅ ∅ 0 []) [].
Definition demo_evm (code : bytes) : EVM Journal := NewEVM (demo_state code) [].

(** Returns nothing; runs an invalid opcode after a store. *)
Definition demo_return : bytes := [Byte.x5f; Byte.x5f; Byte.xf3].
Definition demo_invalid : bytes := [Byte.x60; Byte.x07; Byte.x5f; Byte.x55; Byte.xfe].
(** A jump over data that holds a [JUMPDEST]. *)
Definition demo_jump : bytes := [Byte.x60; Byte.x05; Byte.x56; Byte.x60; Byte.x5b; Byte.x5b; Byte.x00].

Definition demo_contract (code : bytes) (gas : Z) : Contract := SetCallCode Hash0 code (NewContract alice bob 5 gas).

Lemma demo_env_ok : env_ok demo_env.
Proof. by split; vm_compute. Qed.

Lemma demo_contract_ok code gas : Z.of_nat (length code) < code_limit → contract_ok (demo_contract code gas).
Proof. intros Hl. by split. Qed.

Lemma demo_cache_ok code : cache_ok (jumpDests (demo_evm code)).
Proof. done. Qed.

Definition demo_call (code : bytes) (n : nat) (gas : Z) : out CallResult * EVM Journal :=
  Call demo_run demo_env (run_loop demo_run demo_env n) alice bob [] gas 5 (demo_evm code).
Definition demo_static (n : nat) (gas : Z) : out CallResult * EVM Journal :=
  StaticCall demo_run demo_env (run_loop demo_run demo_env n) alice bob [] gas (demo_evm demo_return).
Definition demo_turn (n : nat) : out bytes * (EVM Journal * Frame) :=
  run_step demo_env (evm_callees demo_run demo_env (run_loop demo_run demo_env n))
    (demo_evm demo_jump, MkFrame 0 [] NewMemory (demo_contract demo_jump 100)).

(** The result of a call and of a turn, apart from the state after it. *)
Lemma outcome_1 {A B} (p : A * B) a : fst p = a → p = (a, snd p).
Proof. by destruct p; intros <-. Qed.

Lemma outcome_2 {A B C} (p : A * (B * C)) a b c : fst p = a → fst (snd p) = b → snd (snd p) = c → p = (a, (b, c)).
Proof. by destruct p as [? [? ?]]; intros <- <- <-. Qed.

Lemma execution_ends_witness :
  ends (demo_evm demo_jump) 100 call_left (demo_call demo_jump 101 100).
Proof.
  refine (proj1 (execution_ends demo_run demo_block demo_tx 1 demo_rules false _ demo_env_ok 101 (demo_evm demo_jump) alice alice bob [] 100 5 0
    _ _ _ _ (demo_cache_ok _)) _); by vm_compute.
Defined.

Lemma turns_resources_witness : Gas (contract (snd (snd (demo_turn 9)))) + 1 <= 100.
Proof.
  destruct (turns_resources demo_run demo_block demo_tx 1 demo_rules false eq_refl demo_env_ok 9 1 (demo_evm demo_jump)
    (demo_contract demo_jump 100) (fst (snd (demo_turn 9)))
    (set_pc (u64 (pc (snd (snd (demo_turn 9))) + 1)) (snd (snd (demo_turn 9))))) as (_ & _ & _ & _ & _ & Hgas).
  - by apply demo_contract_ok.
  - by vm_compute.
  - apply demo_cache_ok.
  - eapply turns_more with (k := 0%nat); [apply turns_0|]. apply outcome_2; by vm_compute.
  - clear -Hgas. vm_compute in Hgas |- *. done.
Defined.

Lemma failed_call_undone_witness : GetBalance bob (db (snd (demo_call demo_invalid 101 50000))) = 5.
Proof.
  assert (same_view (db (demo_evm demo_invalid)) (db (snd (demo_call demo_invalid 101 50000)))) as Hview.
  { apply (failed_call_undone demo_run demo_block demo_tx 1 demo_rules false eq_refl demo_env_ok 101 (demo_evm demo_invalid)
      alice alice bob [] 50000 5 [] 0 (ErrInvalidOpCode 254)); [by vm_compute|by vm_compute|by vm_compute|apply demo_cache_ok|done|].
    left. apply outcome_1. by vm_compute. }
  transitivity (GetBalance bob (db (demo_evm demo_invalid))); [exact (view_balance _ _ Hview bob)|by vm_compute].
Defined.

Lemma static_call_view_witness : GetNonce bob (db (snd (demo_static 101 100))) = 1.
Proof.
  assert (same_view (db (demo_evm demo_return)) (db (snd (demo_static 101 100)))) as Hview.
  { apply (static_call_view demo_run demo_block demo_tx 1 demo_rules false eq_refl demo_env_ok 101 (demo_evm demo_return)
      alice alice bob [] 100 0 ([], 96, None)); [by vm_compute|by vm_compute|apply demo_cache_ok|].
    left. apply outcome_1. by vm_compute. }
  transitivity (GetNonce bob (db (demo_evm demo_return))); [exact (view_nonce _ _ Hview bob)|by vm_compute].
Defined.

Lemma supply_never_grows_witness : supply (db (snd (demo_call demo_return 101 100))) <= supply (demo_state demo_return).
Proof.
  apply (supply_never_grows demo_run demo_block demo_tx 1 demo_rules false eq_refl demo_env_ok supply 101 (demo_evm demo_return)
    alice alice bob [] 100 5 0); [by vm_compute|by vm_compute|by vm_compute|apply demo_cache_ok|].
  left. split; [done|]. exists ([], 96, None). apply outcome_1. by vm_compute.
Defined.

Lemma jumps_land_witness :
  jump_target demo_jump 5 ∧ fst (sem_opJump (demo_evm demo_jump, MkFrame 2 [5] NewMemory (demo_contract demo_jump 100))) = Ret [].
Proof.
  assert (jump_target demo_jump 5) as Hj.
  { split; [done|]. split; [done|]. apply (Instruction_next demo_jump 3 Byte.x60); [|done].
    apply (Instruction_next demo_jump 2 Byte.x56); [|done]. by apply (Instruction_next demo_jump 0 Byte.x60); [constructor|]. }
  split; [done|].
  destruct (jumps_land (demo_evm demo_jump) 2 5 0 [] NewMemory (demo_contract demo_jump 100) (demo_contract_ok demo_jump 100 eq_refl) (demo_cache_ok _) eq_refl) as [Hjump _].
  exact (proj1 (Hjump Hj)).
Defined.

Lemma codeBitmap_boundaries_witness :
  ∃ bits, codeBitmap demo_jump = Some bits ∧ (codeSegment bits 4 = Some true ∧ (4 < 7)%nat ↔ Instruction demo_jump 4 ∧ (4 < 7)%nat).
Proof. destruct (codeBitmap_boundaries demo_jump) as (bits & E & Hb). exists bits. split; [exact E|exact (Hb 4%nat)]. Defined.

Lemma extra_eip_panics_witness :
  fst (run_step (NewEnv demo_block demo_tx 1 (MkEvmRules true true true true false false false false false false false false false false false false
      (MkRules true false false false false false false)) false [3860])
    (evm_callees demo_run demo_env no_fuel)
    (demo_evm [Byte.xf5], MkFrame 0 [] NewMemory (demo_contract [Byte.xf5] 100))) = Crash.
Proof. by apply extra_eip_panics. Defined.
